(* ===== verification/_CoqProject ===== *)
-Q . S2P
Prelude.v
GoStr.v
Utf8.v
Frame.v
Json.v
Base64.v
GoTime.v
Prog.v
Model.v
Wire.v
Protocol.v
BrokerServer.v
BrokerClient.v
ServeLoop.v
ServerStart.v
McpServer.v
AnalyzerRules.v
Analyzer.v
Approval.v
Regexp.v
Redaction.v
Redactor.v
AuditEvent.v
AuditLog.v
AuditRecord.v
AuditWrite.v
AuditSync.v
Vault.v
VaultStore.v
OpsLog.v
Config.v
AppConfig.v
AppVault.v
AppVaultSpec.v
AppServers.v
AppRecovery.v
SshClient.v
SshExecute.v
Service.v
Daemon.v
DaemonStart.v
LocalFiles.v
Agent.v
AgentSpec.v
AgentSkill.v
AppCommands.v
AppRun.v
AppExec.v
AppTyped.v
