(* ===== verification/Prelude.v ===== *)
(** * Aegis SSH: a verification library

    Aegis SSH lets an agent run commands on servers without seeing the
    credentials: a local broker owns a decrypted vault, judges each command,
    asks a human before a risky one, runs it over SSH, hides secrets in its
    output and writes an audit record.  This library models the Go code under
    [src/internal] and proves what makes it correct.  Go names are kept; [f] of
    a file [X.v] translates the Go function [f] of the file [X.v] names.

    ** The parts and how they interact

    A client process ([broker/client.go]) sends one request over a Unix socket;
    the server ([broker/server.go], [frame.go], [protocol.go]) reads one frame,
    decodes it strictly and calls the service ([broker/service.go]).  The
    service validates the request, has the command judged by the analyzer
    ([policy/analyzer*.go]), holds it in the approval store
    ([approval/store.go]) when the policy asks for it, writes audit events
    ([audit/logger.go]), runs the command through the SSH client
    ([sshclient/client.go]) with the credentials of the vault
    ([vault/*.go]), redacts the output ([policy/redactor.go]) and answers; the
    server fits the answer into one frame and the client decodes it.  The command
    line ([app/*.go]) sets all of it up: it makes and edits the configuration
    ([config/config.go]) and the vault, asks the user at the terminal, and
    checks a server before it is stored.

    ** Files

    Foundations.  [Prelude]: tactics, results, generic lemmas.  [GoStr],
    [Utf8], [GoTime], [Json], [Base64], [Regexp]: executable models of the parts
    of Go's standard library the program relies on, with their laws.  [Prog]:
    functions that call other components, as trees of effects; a run is any
    sequence of answers, a monitor judges the sequence of calls, [safe] is its
    weakest precondition; programs that share a world and rely on one another;
    and the worker pool of batches as a step relation.

    Records.  [Model]: [model/model.go], statuses, requests, results, and coded
    errors as pointers into a heap.  [Wire]: their struct tags, as encoders and
    decoders with the class [Wire] that every end of the socket relies on.

    Socket.  [Frame]: [broker/frame.go].  [Protocol]: [broker/protocol.go] and
    the encoding half of [broker/server.go].  [BrokerServer]: [readRequest],
    [dispatch], [handle].  [BrokerClient]: [broker/client.go], and the theorems
    that compose client, frames and server.  [ServeLoop]: the accept loop, its
    handlers and shutdown as a step relation.  [ServerStart]: the start on a
    socket path, for any number of servers that share it.  [McpServer]: the
    tools of [mcpserver/server.go] over any client.

    Policy.  [AnalyzerRules], [Analyzer]: the rules, the walk of a parsed
    command and the nested shells it opens.  [Redaction], [Redactor]: the
    redaction of a string and of a stream.

    Broker.  [Approval]: the store, with command buffers in a heap so that
    aliasing and wiping are visible.  [AuditEvent], [AuditRecord]: the bounds
    on an event and its line of JSON.  [AuditLog]: the rotation of the log and
    its recovery over a directory that can fail and stop.  [AuditWrite]: opening
    the log and writing to it, the lock and the repair of a torn line included.
    [AuditSync]: what a write has synced when it reports success.
    [Vault]: [vault/crypto.go], secrets and their encoding, sealing and
    opening with every buffer that holds a secret.  [VaultStore]:
    [vault/store.go], over a directory that can fail and crash.  [SshClient]:
    validation, the output budget, the critical sections of the connection
    cache.  [SshExecute]: [Execute], the goroutine that watches its context and
    [Close], any number of them on one cache.  [Service]: every handler of the
    service, and batches.

    Command line.  [OpsLog]: [opslog/logger.go].  [Config]: [config/config.go]
    over the directory of [VaultStore], and the private directories of
    [paths/paths.go].  [AppConfig]: the pure part of [app/*.go]: defaults,
    settings, limits, masks, aliases, languages.  [AppVault]: the commands that change the configuration
    and the vault, with their prompts, as trees of calls.  [AppVaultSpec]: the
    files those calls act on, where any call may fail.  [AppServers]: what the
    commands on servers check, store and hold.  [AppRecovery]: what [init] and
    [recovery] leave.  [Daemon]: the handlers of a running daemon and the secrets
    in its memory, any number of requests at once.  [DaemonStart]: the process of
    the daemon, from its lock to its end.  [LocalFiles]: the lock of the files
    ([lifecycle.go]), the file of a private key ([privatekey.go]), and the login
    service of [commands.go].  [Agent]: [app/agent.go], the entries in the
    configuration of other programs and the skill beside them; [AgentSpec] and
    [AgentSkill]: what they leave on a disk where any call may fail.  [AppCommands]: the dispatch of [Run]
    and the commands that read, run or manage, with the exit of [main].
    [AppRun]: what [Run] gives back.  [AppExec]: running a command, showing a
    password, starting in the background.  [AppTyped]: the configurations that
    the commands and the daemon make together.

    ** What the theorems show

    - Order of effects: a command runs only after validation, analysis,
      approval where the policy asks for it, and a written audit record where
      auditing is fail closed ([Service.executions_in_order], for batches
      [Service.batch_executions_in_order]); a connection is served by the
      protocol ([BrokerServer.handle_serves], [BrokerClient.call_answers]).
    - Refinement: the approval store implements a book of approvals that knows
      no buffers and no codes ([Approval.store_refines_book]); an approval is
      used once ([Approval.approval_single_use]); a stream redactor gives what
      the redactor gives on the whole text, whatever the writes
      ([Redactor.stream_is_RedactString]); a frame is read the same however the
      socket cuts it ([Frame.readSingleFrame_spec]).
    - The audit log is an append-only text: through failures and stops, its
      complete lines are what it held and the lines written, in order, with every
      line whose write reported success ([AuditWrite.audit_history]); one write
      adds its line whole or not at all, and has synced all it owes when it
      reports success ([AuditSync.Write_all_or_nothing]); nothing is touched but
      under the lock ([AuditWrite.Write_under_the_lock]).
    - Stops and crashes: wherever a log rotation stops, recovery ends with all the
      old files or all the new ones ([AuditLog.rotation_crash_safe]), and it
      ends ([AuditLog.recovery_succeeds]); a vault that is being saved is the old
      one or the new one, whole ([VaultStore.Save_crash_safe]), and making a
      vault never replaces one ([VaultStore.Initialize_exclusive]).
    - Serving: whatever the order of events the server keeps to its slots, owns
      every open connection and returns with nothing left
      ([ServeLoop.serve_owns_its_connections], [ServeLoop.serve_returns]); of the
      servers that start on one path at most one has it
      ([ServerStart.starts_are_exclusive]).
    - Connections: one that is cached was made for its key and is open, or is
      being evicted by the call that closed it
      ([SshExecute.cached_connection_usable]).
    - The command line: what is stored of a server was tested and its host key
      confirmed ([AppServers.stored_servers_are_vetted]); the configuration and
      the vault go on agreeing when a call fails
      ([AppServers.server_commands_keep_match]), and a reported success or error
      is one ([AppServers.server_commands_do_what_they_report]), all under the
      lock ([AppServers.server_commands_hold_the_lock]); a recovery code restores
      what was copied under the password that is typed
      ([AppRecovery.restore_after_enable]), starting over deletes
      nothing ([AppRecovery.recovery_reset_deletes_nothing]); a configuration is
      the old one or the new one, whole ([Config.Save_old_or_new]), and has the
      type its readers expect, whatever commands and requests to the daemon made
      it ([AppTyped.made_configurations_typed]).  Whatever
      the arguments, it ends with the terminal closed and the lock released
      ([AppRun.Run_gives_back]); a command is sent once, runs as approved only
      when its code was typed, and the status of the process is its own
      ([AppExec.execute_runs_what_was_asked]); a password is shown at the terminal
      only ([AppExec.password_shown_at_the_terminal]).
    - Other programs: an edit of their configuration changes one entry of one map,
      wherever it stops, and the status then shown is the one asked for
      ([AgentSpec.agent_edit_changes_one_entry]); asking for the status changes
      nothing ([AgentSpec.status_only_looks]); a skill that is not the program's is
      never touched ([AgentSkill.skill_of_others_kept]); the unit of the login
      service is there or gone when that is reported, and nothing else has changed
      ([LocalFiles.login_service_unit]).
    - Local files: the lock is taken on the file that is at its path
      ([LocalFiles.lifecycle_lock_checked]); a private key is read from a private
      file of bounded size, and wiped when it is not given
      ([LocalFiles.private_key_vetted]).
    - The daemon: through any interleaving of requests, a secret in memory is in
      the store or held by a request that has not returned, and a locked daemon
      shows no server as available ([Daemon.daemon_keeps_secrets]); unlocking
      stores what the vault has ([Daemon.Unlock_alone]) and locking leaves nothing
      ([Daemon.Lock_clears]), when nothing else runs; the process serves with what
      the configuration makes and ends with nothing left
      ([DaemonStart.daemon_starts_and_ends]).
    - The operational log loses nothing but its oldest file
      ([OpsLog.Write_keeps_recent]).
    - Secrecy: what the agent is shown has no approval code and no error text
      but those of a list ([McpServer.execute_tool_safe]); a pass of the redactor
      shows a marker in place of each match, and nothing of it
      ([Redactor.protect_hides]); what [Open] accepts
      was sealed under its password
      ([Vault.Open_authentic]), and no plaintext and no key stays in memory
      ([Vault.secrets_wiped]).
    - Round trips: a request and its result go through the socket unharmed
      ([BrokerClient.execute_over_the_socket], over [Json.json_roundtrip]); what
      is sealed opens ([Vault.Seal_Open]).
    - Bounds: an answer fits its frame and loses only output
      ([Protocol.marshalExecuteResult_spec], [marshalBatchExecuteResult_spec]),
      redacted text fits its budget, outputs share theirs, buffers stay bounded.
    - Termination: batches finish under every schedule that keeps stepping
      ([Service.batch_complete]); the search for a placeholder prefix ends.
    - Errors: inputs on which the code does less than it means to, each proved
      at the place where it happens.

    ** Conventions, bounds and fuel

    A Go [string] and a [[]byte] are a [string] of bytes; integers are [Z] with
    the width written where the code depends on it; a nil slice that the wire
    can tell from an empty one is an [option].  Times are nanoseconds.  Clocks,
    random bytes, settings that other goroutines change and the answers of
    other components are arguments or effects with arbitrary answers.
    Functions recurse structurally or with fuel that a lemma shows to be
    enough: [frame_turns] is the 257 turns that fill a frame
    ([Frame.readSingleFrame_eq]), readers of JSON get one more than the bytes
    of the document ([Json.read_document_print], [readers_ok]), the regular
    expression engine the length of its input, [writeAll] the length of its
    data, the prefix search is bounded by the length of the text
    ([Redactor.collisionSafe_terminates]), and the polls of a start in the
    background by its deadline ([AppExec.startLocked_polls_enough]).

    ** What is not modelled

    Third-party libraries are parameters: the shell parser, SHA-256, the key
    derivation and the AEAD, the SSH library, YAML.  In [VaultStore] and [Config] a
    crash may undo what was not synced: the contents of a file become arbitrary,
    a directory entry takes any value it had since the last sync of the
    directory; that a disk keeps what it said it synced is assumed.  In
    [AuditLog] and [AuditWrite] a process stops, and the files keep what was
    written; for a loss of power [AuditSync] has what is owed to the disk at
    each call, and not the states a disk may be left in.  The archive of a reset never
    meets a name that is taken, which holds unless two are made in one second.
    The language of a message is a parameter.  What the SSH library does with a
    connection is a call with any answer.  In [AppVault] the lock of the files and
    the reading of a private key are one call each; [LocalFiles] has what they do.  A configuration file of another program is the JSON document it
    is read as; its layout and its permissions are left out.  The table of
    printable runes is a parameter.  The terminal device, notifications, the probe
    of a host key over the network and other programs are calls or left out; the
    embedded skills and the server that tests run have no logic of the program. *)

From stdpp Require Export base tactics option list sorting strings gmap.
From Stdlib Require Export ZArith Lia.

#[global] Set Default Goal Selector "!".

(** Two scopes the files open locally: Go byte strings are Rocq [string]s, Go
    integers are [Z] at the width the source declares. *)
Declare Scope go_scope.
Delimit Scope go_scope with go.

(** ** Tactics *)

(** Split every boolean connective in the hypotheses into propositions. *)
Ltac bool_hyps :=
  repeat match goal with
  | H : _ && _ = true |- _ => apply andb_true_iff in H; destruct H
  | H : _ || _ = false |- _ => apply orb_false_iff in H; destruct H
  | H : negb _ = true |- _ => apply negb_true_iff in H
  | H : negb _ = false |- _ => apply negb_false_iff in H
  | H : bool_decide _ = true |- _ => apply bool_decide_eq_true in H
  | H : bool_decide _ = false |- _ => apply bool_decide_eq_false in H
  | H : Z.ltb _ _ = true |- _ => apply Z.ltb_lt in H
  | H : Z.ltb _ _ = false |- _ => apply Z.ltb_ge in H
  | H : Z.leb _ _ = true |- _ => apply Z.leb_le in H
  | H : Z.leb _ _ = false |- _ => apply Z.leb_gt in H
  | H : Z.eqb _ _ = true |- _ => apply Z.eqb_eq in H
  | H : Z.eqb _ _ = false |- _ => apply Z.eqb_neq in H
  | H : Nat.eqb _ _ = true |- _ => apply Nat.eqb_eq in H
  | H : Nat.eqb _ _ = false |- _ => apply Nat.eqb_neq in H
  | H : Nat.ltb _ _ = true |- _ => apply Nat.ltb_lt in H
  | H : Nat.ltb _ _ = false |- _ => apply Nat.ltb_ge in H
  | H : Nat.leb _ _ = true |- _ => apply Nat.leb_le in H
  | H : Nat.leb _ _ = false |- _ => apply Nat.leb_gt in H
  | H : String.eqb _ _ = true |- _ => apply String.eqb_eq in H
  | H : String.eqb _ _ = false |- _ => apply String.eqb_neq in H
  end.

(** Case analysis on the innermost scrutinee of a stuck [match] or [if], with
    the equation kept and the boolean hypotheses split. *)
Ltac case_step :=
  match goal with
  | |- context [match ?x with _ => _ end] =>
      lazymatch x with context [match _ with _ => _ end] => fail | _ => destruct x eqn:? end
  | H : context [match ?x with _ => _ end] |- _ =>
      lazymatch x with context [match _ with _ => _ end] => fail | _ => destruct x eqn:? end
  end.

Ltac cases := repeat (case_step; simplify_eq/=).

(** ** Results of fallible Go functions

    Go's [(T, error)] pairs, when the value is meaningless on error. *)
Inductive result (Err A : Type) : Type :=
| Ok (a : A)
| Fail (e : Err).
Arguments Ok {Err A} a.
Arguments Fail {Err A} e.

#[export] Instance result_ret Err : MRet (result Err) := λ A a, Ok a.
#[export] Instance result_bind Err : MBind (result Err) := λ A B f m,
  match m with Ok a => f a | Fail e => Fail e end.

(** [if cond { return err }] *)
Definition guard_err {Err} (ok : bool) (e : Err) : result Err unit :=
  if ok then Ok tt else Fail e.

Lemma guard_err_ok {Err} (ok : bool) (e : Err) u :
  guard_err ok e = Ok u → ok = true.
Proof. by destruct ok. Qed.

Lemma result_bind_ok {Err A B} (m : result Err A) (f : A → result Err B) b :
  m ≫= f = Ok b ↔ ∃ a, m = Ok a ∧ f a = Ok b.
Proof.
  unfold mbind, result_bind. destruct m as [a|e]; [|naive_solver].
  split; [by exists a|]. intros (a' & Ha & Hf). by simplify_eq.
Qed.

(** ** Lists *)

(** Keep the first occurrence of every element: the [seen]-map loops of the
    source ([buildAnalysis], [normalizeAliases], [ExecuteBatch]). *)
Section dedup.
Context {A : Type} `{EqDecision A}.

Fixpoint dedup_from (seen : list A) (l : list A) : list A :=
  match l with
  | [] => []
  | x :: l' =>
      if decide (x ∈ seen) then dedup_from seen l'
      else x :: dedup_from (x :: seen) l'
  end.

Definition dedup (l : list A) : list A := dedup_from [] l.

Lemma elem_of_dedup_from seen l x :
  x ∈ dedup_from seen l ↔ x ∈ l ∧ x ∉ seen.
Proof.
  revert seen. induction l as [|y l IH]; intros seen; simpl; [set_solver|].
  case_decide; [rewrite IH; set_solver|].
  rewrite elem_of_cons, IH. destruct (decide (x = y)); set_solver.
Qed.

Lemma elem_of_dedup l x : x ∈ dedup l ↔ x ∈ l.
Proof. unfold dedup. rewrite elem_of_dedup_from. set_solver. Qed.

Lemma NoDup_dedup_from seen l : NoDup (dedup_from seen l).
Proof.
  revert seen. induction l as [|y l IH]; intros seen; simpl; [constructor|].
  case_decide; [done|]. constructor; [|done].
  rewrite elem_of_dedup_from. set_solver.
Qed.

Lemma NoDup_dedup l : NoDup (dedup l).
Proof. apply NoDup_dedup_from. Qed.

Lemma dedup_from_NoDup seen l :
  NoDup l → (∀ x, x ∈ l → x ∉ seen) → dedup_from seen l = l.
Proof.
  revert seen. induction l as [|y l IH]; intros seen Hnd Hs; simpl; [done|].
  inversion_clear Hnd. rewrite decide_False by set_solver.
  f_equal. apply IH; set_solver.
Qed.

Lemma dedup_id l : NoDup l → dedup l = l.
Proof. intros. apply dedup_from_NoDup; set_solver. Qed.

Lemma dedup_from_sublist seen l : dedup_from seen l `sublist_of` l.
Proof.
  revert seen. induction l as [|y l IH]; intros seen; simpl; [constructor|].
  case_decide; by constructor.
Qed.

Lemma dedup_sublist l : dedup l `sublist_of` l.
Proof. apply dedup_from_sublist. Qed.
End dedup.

(** Drop adjacent repetitions: the [unique] loops over sorted slices. *)
Section compact.
Context {A : Type} `{EqDecision A}.

Fixpoint compact_after (last : A) (l : list A) : list A :=
  match l with
  | [] => []
  | x :: l' => if decide (x = last) then compact_after last l' else x :: compact_after x l'
  end.

Definition compact (l : list A) : list A :=
  match l with [] => [] | x :: l' => x :: compact_after x l' end.

Lemma elem_of_compact_after last l x :
  x ∈ last :: compact_after last l ↔ x ∈ last :: l.
Proof.
  revert last. induction l as [|y l IH]; intros last; simpl; [done|].
  case_decide; subst.
  - rewrite IH. set_solver.
  - rewrite elem_of_cons, IH. set_solver.
Qed.

Lemma elem_of_compact l x : x ∈ compact l ↔ x ∈ l.
Proof. destruct l; [done|]. apply elem_of_compact_after. Qed.

(** On a list sorted by a total order the compaction is strictly sorted. *)
Context (R : relation A) `{!Transitive R} `{!AntiSymm (=) R}.

Lemma Sorted_compact_after last l :
  StronglySorted R (last :: l) →
  StronglySorted (λ x y, R x y ∧ x ≠ y) (last :: compact_after last l).
Proof.
  revert last. induction l as [|y l IH]; intros last Hs; simpl; [by repeat constructor|].
  inversion_clear Hs as [|?? Hs' Hf]. inversion_clear Hf as [|?? Hly Hf'].
  case_decide as Heq; subst.
  - apply IH. by constructor; inversion_clear Hs'.
  - constructor; [by apply IH|].
    apply Forall_forall. intros z Hz. rewrite elem_of_compact_after in Hz.
    inversion_clear Hs' as [|?? ? Hyl]. rewrite Forall_forall in Hyl.
    apply elem_of_cons in Hz as [->|Hz]; [by split|].
    split; [transitivity y; auto|]. intros ->.
    apply Heq. apply (anti_symm R); [by apply Hyl|done].
Qed.

Lemma Sorted_compact l :
  StronglySorted R l → StronglySorted (λ x y, R x y ∧ x ≠ y) (compact l).
Proof. destruct l; [constructor|]. apply Sorted_compact_after. Qed.
End compact.

Lemma StronglySorted_irrefl_NoDup {A} (R : relation A) (l : list A) :
  (∀ x, ¬ R x x) → StronglySorted R l → NoDup l.
Proof.
  intros Hi. induction 1 as [|x l ? IH Hf]; constructor; [|done].
  rewrite Forall_forall in Hf. intros Hx. by apply (Hi x), Hf.
Qed.

(** Two sorted lists with the same elements are the same list. *)
Lemma StronglySorted_same_elements {A} (R : relation A) `{!AntiSymm (=) R} (l1 l2 : list A) :
  StronglySorted R l1 → StronglySorted R l2 → NoDup l1 → NoDup l2 →
  (∀ x, x ∈ l1 ↔ x ∈ l2) → l1 = l2.
Proof.
  intros Hs1 Hs2 Hn1 Hn2 Hx.
  apply (StronglySorted_unique_strong R); [|done|done|by apply NoDup_Permutation].
  intros x y _ _. apply (anti_symm R).
Qed.

(** ** Hint database of the development *)
Create HintDb aegis.
#[export] Hint Resolve NoDup_dedup dedup_sublist : aegis.
#[export] Hint Rewrite @elem_of_dedup @elem_of_compact : aegis.
