(* ===== verification/GoStr.v ===== *)
(** * Go's byte strings

    The parts of the Go packages [strings], [path/filepath], [strconv] and
    [unicode/utf8] that the program calls, on Rocq [string]s read as sequences
    of bytes.  A Go [string] and a Go [[]byte] are both a [string] here; lengths
    are [Z], as [len] returns an [int]. *)

From S2P Require Import Prelude.
From Stdlib Require Import Ascii.
Open Scope string_scope.
Open Scope list_scope.

#[global] Arguments String.append !_ _ / : simpl nomatch.

(** ** Bytes and slices *)

Definition byte_val (a : ascii) : Z := Z.of_N (N_of_ascii a).
Definition byte_of (z : Z) : ascii := ascii_of_N (Z.to_N z).

Definition slen (s : string) : Z := Z.of_nat (String.length s).

(** [s[:n]] and [s[n:]] (for [n] within bounds, as every caller ensures). *)
Fixpoint str_take (n : nat) (s : string) : string :=
  match n, s with
  | S n', String a s' => String a (str_take n' s')
  | _, _ => ""
  end.

Fixpoint str_drop (n : nat) (s : string) : string :=
  match n, s with
  | S n', String _ s' => str_drop n' s'
  | _, _ => s
  end.

(** [s[i]] *)
Definition str_at (s : string) (i : nat) : option ascii := String.get i s.

(** The byte at [i] as a number; [0] out of range (callers check the bound). *)
Definition byte_at (s : string) (i : nat) : Z :=
  match str_at s i with Some a => byte_val a | None => 0 end.

Definition str_is_empty (s : string) : bool := match s with "" => true | _ => false end.

Fixpoint str_repeat (s : string) (n : nat) : string :=
  match n with O => "" | S n' => s +:+ str_repeat s n' end.

Fixpoint str_all (f : ascii → bool) (s : string) : bool :=
  match s with "" => true | String a s' => f a && str_all f s' end.

(** ** Prefixes, suffixes and search *)

(** [strings.HasPrefix(s, p)] *)
Fixpoint has_prefix (s p : string) {struct p} : bool :=
  match p, s with
  | "", _ => true
  | String b p', String a s' => Ascii.eqb a b && has_prefix s' p'
  | String _ _, "" => false
  end.

(** [strings.HasSuffix(s, p)] *)
Definition has_suffix (s p : string) : bool :=
  (String.length p <=? String.length s)%nat &&
  String.eqb (str_drop (String.length s - String.length p) s) p.

Definition trim_prefix (s p : string) : string :=
  if has_prefix s p then str_drop (String.length p) s else s.

Definition trim_suffix (s p : string) : string :=
  if has_suffix s p then str_take (String.length s - String.length p) s else s.

(** [strings.Index(s, sub)], [None] for [-1]. *)
Fixpoint str_index (s sub : string) : option nat :=
  if has_prefix s sub then Some O
  else match s with
       | "" => None
       | String _ s' => S <$> str_index s' sub
       end.

Definition str_contains (s sub : string) : bool :=
  match str_index s sub with Some _ => true | None => false end.

Definition index_byte (s : string) (a : ascii) : option nat := str_index s (String a "").

(** The bytes of a list of pieces, in order. *)
Fixpoint str_concat (l : list string) : string :=
  match l with [] => "" | p :: l' => p +:+ str_concat l' end.

(** [filepath.Base] on Unix. *)
Fixpoint strip_trailing_slashes (s : string) : string :=
  match s with
  | "" => ""
  | String a s' =>
      match strip_trailing_slashes s' with
      | "" => if Ascii.eqb a "/" then "" else String a ""
      | r => String a r
      end
  end.

Fixpoint after_last_slash (s : string) : option string :=
  match s with
  | "" => None
  | String a s' =>
      match after_last_slash s' with
      | Some r => Some r
      | None => if Ascii.eqb a "/" then Some s' else None
      end
  end.

Definition path_base (path : string) : string :=
  if str_is_empty path then "."
  else
    let p := strip_trailing_slashes path in
    let e := default p (after_last_slash p) in
    if str_is_empty e then "/" else e.

(** [strings.Split(s, sep)] for a one-byte separator. *)
Fixpoint split_byte (s : string) (sep : ascii) : list string :=
  match s with
  | "" => [""]
  | String a s' =>
      if Ascii.eqb a sep then "" :: split_byte s' sep
      else match split_byte s' sep with
           | [] => [String a ""]
           | x :: l => String a x :: l
           end
  end.

(** [strings.Join] *)
Fixpoint str_join (l : list string) (sep : string) : string :=
  match l with
  | [] => ""
  | [x] => x
  | x :: l' => x +:+ sep +:+ str_join l' sep
  end.

(** ** Decimal numbers *)

Definition digit_char (d : Z) : ascii := byte_of (48 + d).
Definition is_digit (a : ascii) : bool := (48 <=? byte_val a)%Z && (byte_val a <=? 57)%Z.
Definition digit_val (a : ascii) : Z := byte_val a - 48.

(** Digits of [n], most significant first; [fuel] bounds their number. *)
Fixpoint digits_acc (fuel : nat) (n : Z) (acc : string) : string :=
  match fuel with
  | O => acc
  | S f =>
      let acc' := String (digit_char (n mod 10)) acc in
      if (n <? 10)%Z then acc' else digits_acc f (n / 10) acc'
  end.

Definition z_digits (n : Z) : nat := S (Z.to_nat (Z.log2 n)).

(** [strconv.FormatUint(n, 10)], and [strconv.Itoa] on a non-negative [n]. *)
Definition itoa_nonneg (n : Z) : string := digits_acc (z_digits n) n "".

(** [strconv.Itoa] *)
Definition itoa (n : Z) : string :=
  if (n <? 0)%Z then "-" +:+ itoa_nonneg (- n) else itoa_nonneg n.

(** The value of a digit string, most significant first. *)
Fixpoint digits_val (acc : Z) (s : string) : Z :=
  match s with
  | "" => acc
  | String a s' => digits_val (10 * acc + digit_val a) s'
  end.

(** [strconv.ParseUint(s, 10, bits)] / [strconv.Atoi] on an unsigned string:
    [None] for a syntax error or a value above [limit]. *)
Definition parse_uint (s : string) (limit : Z) : option Z :=
  if str_is_empty s || negb (str_all is_digit s) then None
  else let v := digits_val 0 s in if (limit <? v)%Z then None else Some v.

(** [strconv.Atoi]: a sign, then digits, within [int64]. *)
Definition atoi (s : string) : option Z :=
  match s with
  | String "-" s' => Z.opp <$> parse_uint s' (2 ^ 63)
  | String "+" s' => parse_uint s' (2 ^ 63 - 1)
  | _ => parse_uint s (2 ^ 63 - 1)
  end.

Definition max_int64 : Z := 2 ^ 63 - 1.
Definition max_uint64 : Z := 2 ^ 64 - 1.

(** ** Lemmas *)

Lemma str_length_app s1 s2 : String.length (s1 +:+ s2) = (String.length s1 + String.length s2)%nat.
Proof. induction s1 as [|a s1 IH]; simpl; [done|by rewrite IH]. Qed.

Lemma str_app_assoc s1 s2 s3 : (s1 +:+ s2) +:+ s3 = s1 +:+ (s2 +:+ s3).
Proof. induction s1 as [|a s1 IH]; simpl; [done|by rewrite IH]. Qed.

Lemma str_app_nil_r s : s +:+ "" = s.
Proof. induction s as [|a s IH]; simpl; [done|by rewrite IH]. Qed.

Lemma slen_app s1 s2 : slen (s1 +:+ s2) = (slen s1 + slen s2)%Z.
Proof. unfold slen. rewrite str_length_app. lia. Qed.

Lemma slen_nonneg s : (0 ≤ slen s)%Z.
Proof. unfold slen. lia. Qed.

Lemma slen_empty s : slen s = 0%Z ↔ s = "".
Proof. destruct s; unfold slen; simpl; split; intros; (done || lia). Qed.

Lemma str_take_drop n s : str_take n s +:+ str_drop n s = s.
Proof. revert s. induction n as [|n IH]; intros [|a s]; simpl; [done..|by rewrite IH]. Qed.

Lemma str_length_take n s : String.length (str_take n s) = Nat.min n (String.length s).
Proof. revert s. induction n as [|n IH]; intros [|a s]; simpl; [done..|by rewrite IH]. Qed.

Lemma str_length_drop n s : String.length (str_drop n s) = (String.length s - n)%nat.
Proof. revert s. induction n as [|n IH]; intros [|a s]; simpl; [done..|by rewrite IH]. Qed.

Lemma str_take_all n s : (String.length s ≤ n)%nat → str_take n s = s.
Proof.
  revert s. induction n as [|n IH]; intros [|a s]; simpl; intros; [done|lia|done|].
  rewrite IH; [done|lia].
Qed.

Lemma str_drop_all n s : (String.length s ≤ n)%nat → str_drop n s = "".
Proof.
  revert s. induction n as [|n IH]; intros [|a s]; simpl; intros; [done|lia|done|].
  apply IH; lia.
Qed.

Lemma str_take_app s1 s2 : str_take (String.length s1) (s1 +:+ s2) = s1.
Proof. induction s1 as [|a s1 IH]; simpl; [done|by rewrite IH]. Qed.

Lemma str_drop_app s1 s2 : str_drop (String.length s1) (s1 +:+ s2) = s2.
Proof. induction s1 as [|a s1 IH]; simpl; [done|by rewrite IH]. Qed.

Lemma str_take_app_l n s1 s2 :
  (n ≤ String.length s1)%nat → str_take n (s1 +:+ s2) = str_take n s1.
Proof.
  revert s1. induction n as [|n IH]; intros [|a s1]; simpl; intros; [done..|lia|].
  rewrite IH; [done|lia].
Qed.

Lemma str_drop_app_l n s1 s2 :
  (n ≤ String.length s1)%nat → str_drop n (s1 +:+ s2) = str_drop n s1 +:+ s2.
Proof.
  revert s1. induction n as [|n IH]; intros [|a s1]; simpl; intros; [done..|lia|].
  rewrite IH; [done|lia].
Qed.

Lemma str_drop_drop n m s : str_drop n (str_drop m s) = str_drop (m + n) s.
Proof. revert m. induction s as [|a s IH]; intros [|m]; simpl; [by destruct n|by destruct n|done|apply IH]. Qed.

Lemma str_take_app_r n s1 s2 :
  (String.length s1 ≤ n)%nat →
  str_take n (s1 +:+ s2) = s1 +:+ str_take (n - String.length s1) s2.
Proof.
  revert s1. induction n as [|n IH]; intros [|a s1]; simpl; intros; [done|lia|done|].
  rewrite IH; [done|lia].
Qed.

Lemma str_take_take n m s : str_take n (str_take m s) = str_take (Nat.min n m) s.
Proof.
  revert m s. induction n as [|n IH]; intros [|m] [|a s]; simpl; [done..|by rewrite IH].
Qed.

Lemma str_all_app f s1 s2 : str_all f (s1 +:+ s2) = str_all f s1 && str_all f s2.
Proof. induction s1 as [|a s1 IH]; simpl; [done|]. by rewrite IH, andb_assoc. Qed.

Lemma has_prefix_spec s p : has_prefix s p = true ↔ ∃ t, s = p +:+ t.
Proof.
  revert s. induction p as [|b p IH]; intros s; simpl.
  - split; [by exists s|done].
  - destruct s as [|a s]; simpl; [naive_solver|].
    rewrite andb_true_iff, IH, Ascii.eqb_eq. split.
    + intros [-> [t ->]]. by exists t.
    + intros [t Ht]. simplify_eq. eauto.
Qed.

Lemma has_prefix_app p t : has_prefix (p +:+ t) p = true.
Proof. apply has_prefix_spec. by exists t. Qed.

Lemma has_suffix_spec s p : has_suffix s p = true ↔ ∃ t, s = t +:+ p.
Proof.
  unfold has_suffix. rewrite andb_true_iff, Nat.leb_le, String.eqb_eq. split.
  - intros [Hl Hd]. exists (str_take (String.length s - String.length p) s).
    rewrite <-Hd at 2. by rewrite str_take_drop.
  - intros [t ->]. rewrite str_length_app. split; [lia|].
    replace (_ + _ - _)%nat with (String.length t) by lia. apply str_drop_app.
Qed.

Lemma trim_suffix_app s p : trim_suffix (s +:+ p) p = s.
Proof.
  unfold trim_suffix. rewrite (proj2 (has_suffix_spec (s +:+ p) p)) by eauto.
  rewrite str_length_app. replace (_ + _ - _)%nat with (String.length s) by lia.
  apply str_take_app.
Qed.

Lemma trim_suffix_none s p : has_suffix s p = false → trim_suffix s p = s.
Proof. unfold trim_suffix. by intros ->. Qed.

Lemma trim_prefix_app p s : trim_prefix (p +:+ s) p = s.
Proof. unfold trim_prefix. rewrite has_prefix_app. apply str_drop_app. Qed.

Lemma str_index_eq s sub :
  str_index s sub =
  if has_prefix s sub then Some O
  else match s with "" => None | String _ s' => S <$> str_index s' sub end.
Proof. by destruct s. Qed.

Lemma str_index_spec s sub i :
  str_index s sub = Some i →
  ∃ a b, s = a +:+ sub +:+ b ∧ String.length a = i.
Proof.
  revert i. induction s as [|c s IH]; intros i; rewrite str_index_eq;
    destruct (has_prefix _ sub) eqn:Hp; try done.
  1-2: intros [= <-]; apply has_prefix_spec in Hp as [t Ht]; by exists "", t.
  destruct (str_index s sub) as [j|]; simpl; [|done]. intros [= <-].
  destruct (IH j) as (a & b & -> & <-); [done|]. by exists (String c a), b.
Qed.

Lemma str_index_app a sub b : is_Some (str_index (a +:+ sub +:+ b) sub).
Proof.
  induction a as [|c a IH]; rewrite str_index_eq.
  - simpl. by rewrite has_prefix_app.
  - case_match; [done|]. simpl. destruct IH as [i ->]. done.
Qed.

Lemma str_contains_spec s sub : str_contains s sub = true ↔ ∃ a b, s = a +:+ sub +:+ b.
Proof.
  unfold str_contains. split.
  - destruct (str_index s sub) as [i|] eqn:Hi; [|done].
    apply str_index_spec in Hi as (a & b & ? & _). by exists a, b.
  - intros (a & b & ->). by destruct (str_index_app a sub b) as [i ->].
Qed.

(** ** The first occurrence of a byte *)

Lemma index_byte_cons b s a :
  index_byte (String b s) a = if Ascii.eqb b a then Some O else S <$> index_byte s a.
Proof. unfold index_byte. cbn [str_index has_prefix]. rewrite andb_true_r. done. Qed.

Lemma index_byte_app s t a :
  index_byte (s +:+ t) a =
  match index_byte s a with
  | Some i => Some i
  | None => Nat.add (String.length s) <$> index_byte t a
  end.
Proof.
  induction s as [|b s IH].
  { change (index_byte t a = Nat.add 0 <$> index_byte t a). by destruct (index_byte t a). }
  change (String b s +:+ t) with (String b (s +:+ t)). rewrite !index_byte_cons, IH.
  destruct (b =? a)%char; [done|]. destruct (index_byte s a); [done|]. by destruct (index_byte t a).
Qed.

Lemma index_byte_lt s a i : index_byte s a = Some i → (i < String.length s)%nat.
Proof.
  revert i. induction s as [|b s IH]; intros i; [done|]. rewrite index_byte_cons.
  case_match; [intros [= <-]; simpl; lia|].
  destruct (index_byte s a) as [j|]; [|done]. intros [= <-]. simpl. specialize (IH j eq_refl). lia.
Qed.

(** Nothing before [n] is the byte: search after [n]. *)
Lemma index_byte_drop n s a :
  index_byte (str_take n s) a = None →
  index_byte s a = Nat.add (Nat.min n (String.length s)) <$> index_byte (str_drop n s) a.
Proof.
  intros Hn. rewrite <-(str_take_drop n s) at 1. rewrite index_byte_app, Hn.
  by rewrite str_length_take.
Qed.

Lemma index_byte_take_None n s a :
  index_byte (str_take n s) a = None ↔ ∀ i, index_byte s a = Some i → (n ≤ i)%nat.
Proof.
  split.
  - intros Hn i Hi. destruct (decide (n ≤ i)%nat) as [|Hlt]; [done|].
    pose proof (index_byte_lt _ _ _ Hi). rewrite (index_byte_drop n) in Hi by done.
    destruct (index_byte (str_drop n s) a); [|done]. injection Hi as <-. lia.
  - intros H. destruct (index_byte (str_take n s) a) as [i|] eqn:Hi; [|done].
    pose proof (index_byte_lt _ _ _ Hi) as Hl. rewrite str_length_take in Hl.
    specialize (H i). rewrite <-(str_take_drop n s), index_byte_app, Hi in H.
    specialize (H eq_refl). lia.
Qed.

Lemma index_byte_take n s a i :
  index_byte s a = Some i → (i < n)%nat → index_byte (str_take n s) a = Some i.
Proof.
  intros Hi Hlt. destruct (index_byte (str_take n s) a) as [j|] eqn:Hj.
  - by rewrite <-(str_take_drop n s), index_byte_app, Hj in Hi.
  - rewrite index_byte_take_None in Hj. specialize (Hj _ Hi). lia.
Qed.

Lemma index_byte_snoc s a :
  index_byte s a = None → index_byte (s +:+ String a "") a = Some (String.length s).
Proof.
  intros Hs. rewrite index_byte_app, Hs, index_byte_cons, Ascii.eqb_refl. simpl. f_equal. lia.
Qed.

Lemma str_contains_app_l s t sub : str_contains s sub = true → str_contains (s +:+ t) sub = true.
Proof.
  rewrite !str_contains_spec. intros (a & b & ->). exists a, (b +:+ t).
  by rewrite !str_app_assoc.
Qed.

Lemma str_contains_app_r s t sub : str_contains t sub = true → str_contains (s +:+ t) sub = true.
Proof.
  rewrite !str_contains_spec. intros (a & b & ->). exists (s +:+ a), b.
  by rewrite !str_app_assoc.
Qed.

Lemma byte_val_range a : (0 ≤ byte_val a < 256)%Z.
Proof.
  unfold byte_val. destruct a as [[] [] [] [] [] [] [] []]; vm_compute; by split.
Qed.

Lemma byte_of_val a : byte_of (byte_val a) = a.
Proof. unfold byte_of, byte_val. rewrite N2Z.id. apply ascii_N_embedding. Qed.

Lemma byte_val_of z : (0 ≤ z < 256)%Z → byte_val (byte_of z) = z.
Proof.
  intros. unfold byte_of, byte_val. rewrite N_ascii_embedding; lia.
Qed.

Lemma byte_val_inj a b : byte_val a = byte_val b → a = b.
Proof. intros H. by rewrite <-(byte_of_val a), <-(byte_of_val b), H. Qed.

(** *** Decimal round trip *)

Lemma digit_char_val d : (0 ≤ d < 10)%Z → digit_val (digit_char d) = d ∧ is_digit (digit_char d) = true.
Proof.
  intros. unfold digit_val, is_digit, digit_char. rewrite byte_val_of by lia.
  split; [lia|]. apply andb_true_iff. rewrite !Z.leb_le. lia.
Qed.

Lemma digits_val_app acc s1 s2 : digits_val acc (s1 +:+ s2) = digits_val (digits_val acc s1) s2.
Proof. revert acc. induction s1 as [|a s1 IH]; intros; simpl; [done|by rewrite IH]. Qed.

Lemma digits_acc_all fuel n acc :
  (0 ≤ n)%Z → str_all is_digit acc = true → str_all is_digit (digits_acc fuel n acc) = true.
Proof.
  revert n acc. induction fuel as [|f IH]; intros n acc Hn Ha; cbn [digits_acc]; [done|].
  assert (str_all is_digit (String (digit_char (n mod 10)) acc) = true).
  { simpl. destruct (digit_char_val (n mod 10)) as [_ ->]; [|done].
    apply Z.mod_pos_bound; lia. }
  case_match; [done|]. apply IH; [|done]. apply Z.div_pos; lia.
Qed.

Lemma digits_acc_app fuel n acc : digits_acc fuel n acc = digits_acc fuel n "" +:+ acc.
Proof.
  revert n acc. induction fuel as [|f IH]; intros n acc; cbn [digits_acc]; [done|].
  case_match; [done|]. rewrite IH, (IH _ (String _ "")). by rewrite str_app_assoc.
Qed.

Lemma digits_acc_val fuel n :
  (0 ≤ n)%Z → (n < 2 ^ Z.of_nat fuel)%Z → digits_val 0 (digits_acc fuel n "") = n.
Proof.
  revert n. induction fuel as [|f IH]; intros n Hn Hlt; cbn [digits_acc].
  - simpl in *. lia.
  - destruct (digit_char_val (n mod 10)) as [Hd _]; [apply Z.mod_pos_bound; lia|].
    case_match; bool_hyps.
    + cbn [digits_val]. rewrite Hd, Z.mod_small; lia.
    + rewrite digits_acc_app, digits_val_app. rewrite IH.
      * cbn [digits_val]. rewrite Hd. pose proof (Z.div_mod n 10). lia.
      * apply Z.div_pos; lia.
      * apply Z.div_lt_upper_bound; [lia|].
        rewrite Nat2Z.inj_succ, Z.pow_succ_r in Hlt by lia. lia.
Qed.

Lemma itoa_nonneg_val n : (0 ≤ n)%Z → digits_val 0 (itoa_nonneg n) = n.
Proof.
  intros Hn. apply digits_acc_val; [done|]. unfold z_digits.
  rewrite Nat2Z.inj_succ, Z2Nat.id by apply Z.log2_nonneg.
  destruct (Z.eq_dec n 0) as [->|]; [done|]. apply Z.log2_spec. lia.
Qed.

Lemma itoa_nonneg_all n : (0 ≤ n)%Z → str_all is_digit (itoa_nonneg n) = true.
Proof. intros. by apply digits_acc_all. Qed.

Lemma itoa_nonneg_nonempty n : itoa_nonneg n ≠ "".
Proof.
  unfold itoa_nonneg, z_digits. cbn [digits_acc]. case_match; [done|].
  rewrite digits_acc_app. intros Hl. apply (f_equal String.length) in Hl.
  rewrite str_length_app in Hl. simpl in Hl. lia.
Qed.

Lemma itoa_nonneg_inj n m :
  (0 ≤ n)%Z → (0 ≤ m)%Z → itoa_nonneg n = itoa_nonneg m → n = m.
Proof. intros Hn Hm H. by rewrite <-(itoa_nonneg_val n), <-(itoa_nonneg_val m), H. Qed.

Lemma parse_uint_itoa n limit :
  (0 ≤ n ≤ limit)%Z → parse_uint (itoa_nonneg n) limit = Some n.
Proof.
  intros Hn. unfold parse_uint. rewrite itoa_nonneg_all, itoa_nonneg_val by lia.
  destruct (str_is_empty (itoa_nonneg n)) eqn:He; simpl.
  - destruct (itoa_nonneg n) eqn:E; [|done]. by destruct (itoa_nonneg_nonempty n).
  - rewrite (proj2 (Z.ltb_ge _ _)); [done|lia].
Qed.

(** ** Canonical decimal numbers *)

(** A digit string without a needless leading zero. *)
Definition canonical_digits (s : string) : bool :=
  negb (str_is_empty s) && str_all is_digit s && negb (has_prefix s "0" && negb (String.eqb s "0")).

Lemma is_digit_range a : is_digit a = true → (0 ≤ digit_val a < 10)%Z.
Proof. unfold is_digit, digit_val. rewrite andb_true_iff, !Z.leb_le. lia. Qed.

Lemma digits_val_acc acc s : digits_val acc s = (acc * 10 ^ slen s + digits_val 0 s)%Z.
Proof.
  revert acc. induction s as [|a s IH]; intros acc; cbn [digits_val]; [unfold slen; simpl; lia|].
  rewrite IH, (IH (10 * 0 + digit_val a)%Z). unfold slen. cbn [String.length].
  rewrite Nat2Z.inj_succ, Z.pow_succ_r by lia. ring.
Qed.

Lemma digits_val_range s : str_all is_digit s = true → (0 ≤ digits_val 0 s < 10 ^ slen s)%Z.
Proof.
  induction s as [|a s IH]; [done|]. cbn [str_all]. intros [Ha Hs]%andb_true_iff. specialize (IH Hs).
  apply is_digit_range in Ha. cbn [digits_val]. rewrite digits_val_acc. unfold slen in *. cbn [String.length].
  rewrite Nat2Z.inj_succ, Z.pow_succ_r by lia. nia.
Qed.

Lemma digits_val_inj s t :
  str_all is_digit s = true → str_all is_digit t = true → String.length s = String.length t →
  digits_val 0 s = digits_val 0 t → s = t.
Proof.
  revert t. induction s as [|a s IH]; intros [|b t]; [done..|]. cbn [str_all digits_val].
  intros [Ha Hs]%andb_true_iff [Hb Ht]%andb_true_iff [= Hl] Hv.
  rewrite digits_val_acc, (digits_val_acc _ t) in Hv.
  assert (slen s = slen t) as Hsl by (unfold slen; by rewrite Hl). rewrite Hsl in Hv.
  pose proof (digits_val_range s Hs) as Hrs. pose proof (digits_val_range t Ht) as Hrt. rewrite Hsl in Hrs.
  assert (digit_val a = digit_val b) as Hd by nia.
  f_equal; [apply byte_val_inj; unfold digit_val in Hd; lia|]. apply IH; [done..|]. rewrite Hd in Hv. lia.
Qed.

Lemma canonical_digits_lower s :
  canonical_digits s = true → s ≠ "0" → (10 ^ (slen s - 1) ≤ digits_val 0 s)%Z.
Proof.
  unfold canonical_digits. destruct s as [|a s]; [done|]. intros H Hz. bool_hyps.
  cbn [str_all] in *. bool_hyps. rename select (is_digit a = true) into Ha.
  rewrite (proj2 (String.eqb_neq _ _) Hz) in *. cbn [negb] in *.
  rename select (has_prefix _ _ && _ = false) into Hp. rewrite andb_true_r in Hp. cbn [has_prefix] in Hp.
  rewrite andb_true_r in Hp. apply Ascii.eqb_neq in Hp.
  assert (digit_val a ≠ 0%Z) as Hn.
  { intros Hd. apply Hp, byte_val_inj. unfold digit_val in Hd. change (byte_val "0") with 48%Z. lia. }
  apply is_digit_range in Ha. cbn [digits_val]. rewrite digits_val_acc.
  pose proof (digits_val_range s) as Hr. unfold slen in *. cbn [String.length].
  replace (Z.of_nat (S (String.length s)) - 1)%Z with (Z.of_nat (String.length s)) by lia.
  destruct Hr; [done|]. nia.
Qed.

Lemma canonical_digits_unique s t :
  canonical_digits s = true → canonical_digits t = true → digits_val 0 s = digits_val 0 t → s = t.
Proof.
  intros Hs Ht Hv.
  assert (∀ u, canonical_digits u = true → str_all is_digit u = true ∧ (1 ≤ slen u)%Z) as Hc.
  { intros u Hu. unfold canonical_digits in Hu. bool_hyps. split; [done|]. destruct u; [done|]. unfold slen. simpl. lia. }
  destruct (Hc s Hs) as [Hds Hls], (Hc t Ht) as [Hdt Hlt]. clear Hc.
  pose proof (digits_val_range s Hds) as Hrs. pose proof (digits_val_range t Hdt) as Hrt.
  destruct (decide (s = "0")) as [->|Hs0], (decide (t = "0")) as [->|Ht0]; [done|..].
  - pose proof (canonical_digits_lower t Ht Ht0). pose proof (Z.pow_pos_nonneg 10 (slen t - 1)).
    change (digits_val 0 "0") with 0%Z in Hv. lia.
  - pose proof (canonical_digits_lower s Hs Hs0). pose proof (Z.pow_pos_nonneg 10 (slen s - 1)).
    change (digits_val 0 "0") with 0%Z in Hv. lia.
  - pose proof (canonical_digits_lower s Hs Hs0). pose proof (canonical_digits_lower t Ht Ht0).
    apply digits_val_inj; [done..| |done].
    assert (slen s = slen t) as Hl; [|unfold slen in Hl; lia].
    destruct (Z.lt_trichotomy (slen s) (slen t)) as [?|[?|?]]; [|done|]; exfalso.
    + assert (10 ^ slen s ≤ 10 ^ (slen t - 1))%Z by (apply Z.pow_le_mono_r; lia). lia.
    + assert (10 ^ slen t ≤ 10 ^ (slen s - 1))%Z by (apply Z.pow_le_mono_r; lia). lia.
Qed.

#[export] Hint Rewrite str_length_app str_app_nil_r slen_app str_length_take str_length_drop : aegis.
#[export] Hint Resolve slen_nonneg itoa_nonneg_nonempty : aegis.
