(* ===== verification/Utf8.v ===== *)
(** * UTF-8: the parts of Go's [unicode/utf8], [unicode] and rune-level
    [strings] functions the program relies on.

    [runes] is what a Go [for _, r := range s] loop yields, together with the
    bytes of each step: an invalid byte yields U+FFFD and one byte. *)

From S2P Require Import Prelude GoStr.
From Stdlib Require Import Ascii.
Open Scope Z_scope.
Open Scope string_scope.
Open Scope list_scope.

Definition rune_error : Z := 65533.
Definition rune_error_str : string :=
  String "239" (String "191" (String "189" "")).

Definition in_range (lo hi z : Z) : bool := (lo <=? z)%Z && (z <=? hi)%Z.
Definition is_cont (b : ascii) : bool := in_range 128 191 (byte_val b).

(** Well-formed two, three and four byte sequences (the [acceptRanges] table). *)
Definition utf8_2 (a b : ascii) : bool := in_range 194 223 (byte_val a) && is_cont b.

Definition utf8_3 (a b c : ascii) : bool :=
  let x := byte_val a in let y := byte_val b in
  is_cont c &&
  ((Z.eqb x 224 && in_range 160 191 y)
   || (in_range 225 236 x && in_range 128 191 y)
   || (Z.eqb x 237 && in_range 128 159 y)
   || (in_range 238 239 x && in_range 128 191 y)).

Definition utf8_4 (a b c d : ascii) : bool :=
  let x := byte_val a in let y := byte_val b in
  is_cont c && is_cont d &&
  ((Z.eqb x 240 && in_range 144 191 y)
   || (in_range 241 243 x && in_range 128 191 y)
   || (Z.eqb x 244 && in_range 128 143 y)).

Definition rune_2 (a b : ascii) : Z :=
  (byte_val a - 192) * 64 + (byte_val b - 128).
Definition rune_3 (a b c : ascii) : Z :=
  (byte_val a - 224) * 4096 + (byte_val b - 128) * 64 + (byte_val c - 128).
Definition rune_4 (a b c d : ascii) : Z :=
  (byte_val a - 240) * 262144 + (byte_val b - 128) * 4096
  + (byte_val c - 128) * 64 + (byte_val d - 128).

(** One step of the decoder: rune, its bytes, whether they were well formed. *)
Record step := Step { st_rune : Z; st_bytes : string; st_ok : bool }.

Definition bad (a : ascii) : step := Step rune_error (String a "") false.

Definition decode1 (a : ascii) (s : string) : step :=
  if (byte_val a <? 128)%Z then Step (byte_val a) (String a "") true
  else match s with
  | "" => bad a
  | String b s2 =>
    if utf8_2 a b then Step (rune_2 a b) (String a (String b "")) true
    else match s2 with
    | "" => bad a
    | String c s3 =>
      if utf8_3 a b c then Step (rune_3 a b c) (String a (String b (String c ""))) true
      else match s3 with
      | "" => bad a
      | String d _ =>
        if utf8_4 a b c d
        then Step (rune_4 a b c d) (String a (String b (String c (String d "")))) true
        else bad a
      end
    end
  end.

(** [skip] counts the bytes that belong to a step already emitted. *)
Fixpoint runes_from (skip : nat) (s : string) : list step :=
  match s with
  | "" => []
  | String a s' =>
      match skip with
      | S k => runes_from k s'
      | O => let st := decode1 a s' in
             st :: runes_from (String.length (st_bytes st) - 1) s'
      end
  end.

Definition runes (s : string) : list step := runes_from 0 s.

Definition rune_values (s : string) : list Z := st_rune <$> runes s.

Fixpoint concat_bytes (l : list step) : string :=
  match l with [] => "" | x :: l' => st_bytes x +:+ concat_bytes l' end.

(** [utf8.ValidString] *)
Definition valid_utf8 (s : string) : bool := forallb st_ok (runes s).

(** [strings.ToValidUTF8(s, "\uFFFD")]: each run of invalid bytes becomes one
    replacement. *)
Fixpoint to_valid_steps (in_run : bool) (l : list step) : string :=
  match l with
  | [] => ""
  | x :: l' =>
      if st_ok x then st_bytes x +:+ to_valid_steps false l'
      else (if in_run then "" else rune_error_str) +:+ to_valid_steps true l'
  end.

Definition to_valid_utf8 (s : string) : string := to_valid_steps false (runes s).

(** [utf8.EncodeRune], for the rune values [runes] yields. *)
Definition encode_rune (r : Z) : string :=
  if (r <? 128)%Z then String (byte_of r) ""
  else if (r <? 2048)%Z then
    String (byte_of (192 + r / 64)) (String (byte_of (128 + r mod 64)) "")
  else if (r <? 65536)%Z then
    String (byte_of (224 + r / 4096))
      (String (byte_of (128 + (r / 64) mod 64)) (String (byte_of (128 + r mod 64)) ""))
  else
    String (byte_of (240 + r / 262144))
      (String (byte_of (128 + (r / 4096) mod 64))
        (String (byte_of (128 + (r / 64) mod 64)) (String (byte_of (128 + r mod 64)) ""))).

(** [utf8.RuneLen], for valid runes. *)
Definition rune_len (r : Z) : Z :=
  if (r <? 128)%Z then 1 else if (r <? 2048)%Z then 2 else if (r <? 65536)%Z then 3 else 4.

(** [unicode.IsSpace] *)
Definition is_space (r : Z) : bool :=
  in_range 9 13 r || Z.eqb r 32 || Z.eqb r 133 || Z.eqb r 160 || Z.eqb r 5760
  || in_range 8192 8202 r || Z.eqb r 8232 || Z.eqb r 8233 || Z.eqb r 8239
  || Z.eqb r 8287 || Z.eqb r 12288.

Fixpoint drop_space (l : list step) : list step :=
  match l with
  | [] => []
  | x :: l' => if is_space (st_rune x) then drop_space l' else l
  end.

(** [strings.TrimSpace] *)
Definition trim_space (s : string) : string :=
  concat_bytes (reverse (drop_space (reverse (drop_space (runes s))))).

(** [strings.ToLower] and [strings.ToUpper], exact on ASCII and on the only
    four other runes whose case mapping is an ASCII letter (U+0130, U+212A;
    U+0131, U+017F).  Unicode maps the remaining non-ASCII runes to non-ASCII
    runes; no rule of the program looks at those, and the model keeps them. *)
Definition lower_rune (r : Z) : Z :=
  if in_range 65 90 r then r + 32
  else if Z.eqb r 304 then 105 else if Z.eqb r 8490 then 107 else r.

Definition upper_rune (r : Z) : Z :=
  if in_range 97 122 r then r - 32
  else if Z.eqb r 305 then 73 else if Z.eqb r 383 then 83 else r.

Fixpoint map_runes (f : Z → Z) (l : list step) : string :=
  match l with [] => "" | x :: l' => encode_rune (f (st_rune x)) +:+ map_runes f l' end.

Definition to_lower (s : string) : string := map_runes lower_rune (runes s).
Definition to_upper (s : string) : string := map_runes upper_rune (runes s).

(** ** Lemmas *)

Lemma decode1_bytes a s :
  ∃ t u, st_bytes (decode1 a s) = String a t ∧ s = t +:+ u.
Proof.
  unfold decode1, bad.
  repeat case_match; simplify_eq/=;
    first [ by exists "", s | by exists "", "" | eexists "", _; by split
          | eexists (String _ ""), _; by split
          | eexists (String _ (String _ "")), _; by split
          | eexists (String _ (String _ (String _ ""))), _; by split ].
Qed.

Lemma runes_from_skip t u : runes_from (String.length t) (t +:+ u) = runes u.
Proof. induction t as [|a t IH]; simpl; [done|apply IH]. Qed.

(** The unfolding of [runes]: decode a step, go on after its bytes. *)
Lemma runes_cons a s :
  ∃ u, String a s = st_bytes (decode1 a s) +:+ u ∧
       runes (String a s) = decode1 a s :: runes u.
Proof.
  destruct (decode1_bytes a s) as (t & u & Hb & ->). exists u. split; [by rewrite Hb|].
  unfold runes at 1. cbn [runes_from]. rewrite Hb. cbn [String.length].
  rewrite Nat.sub_succ, Nat.sub_0_r. by rewrite runes_from_skip.
Qed.

Lemma step_bytes_pos a s : (0 < String.length (st_bytes (decode1 a s)))%nat.
Proof. destruct (decode1_bytes a s) as (t & u & -> & _). simpl. lia. Qed.

Lemma runes_ind (P : string → Prop) :
  P "" →
  (∀ a s u, String a s = st_bytes (decode1 a s) +:+ u →
            runes (String a s) = decode1 a s :: runes u → P u → P (String a s)) →
  ∀ s, P s.
Proof.
  intros Hnil Hcons s. remember (String.length s) as n eqn:Hn. revert s Hn.
  induction n as [n IH] using lt_wf_ind. intros [|a s] ->; [done|].
  destruct (runes_cons a s) as (u & Hu & Hr). apply (Hcons a s u); [done..|].
  apply (IH (String.length u)); [|done].
  rewrite Hu, str_length_app. pose proof (step_bytes_pos a s). lia.
Qed.

Lemma concat_runes s : concat_bytes (runes s) = s.
Proof.
  induction s as [|a s u Hu Hr IH] using runes_ind; [done|].
  rewrite Hr. simpl. by rewrite IH, Hu.
Qed.

Lemma concat_bytes_app l1 l2 : concat_bytes (l1 ++ l2) = concat_bytes l1 +:+ concat_bytes l2.
Proof. induction l1 as [|x l1 IH]; simpl; [done|by rewrite IH, str_app_assoc]. Qed.

(** A well-formed step does not depend on what follows it. *)
Lemma decode1_ok_app a s t u v :
  st_ok (decode1 a s) = true → s = t +:+ u → st_bytes (decode1 a s) = String a t →
  decode1 a (t +:+ v) = decode1 a s.
Proof.
  intros Hok -> Hb. revert Hok Hb. unfold decode1, bad.
  case_match; [destruct t; simpl; by intros; simplify_eq/=|].
  destruct t as [|b t]; simpl.
  { repeat case_match; by intros; simplify_eq/=. }
  case_match; [destruct t; simpl; by intros; simplify_eq/=|].
  destruct t as [|c t]; simpl.
  { repeat case_match; by intros; simplify_eq/=. }
  case_match; [destruct t; simpl; by intros; simplify_eq/=|].
  destruct t as [|d t]; simpl.
  { repeat case_match; by intros; simplify_eq/=. }
  case_match; by intros; simplify_eq/=.
Qed.

Lemma runes_ok_app a s v :
  st_ok (decode1 a s) = true →
  runes (st_bytes (decode1 a s) +:+ v) = decode1 a s :: runes v.
Proof.
  intros Hok. destruct (decode1_bytes a s) as (t & u & Hb & Hs).
  rewrite Hb. simpl. destruct (runes_cons a (t +:+ v)) as (w & Hw & Hr).
  rewrite (decode1_ok_app a s t u v) in Hw, Hr by done.
  rewrite Hb in Hw. simpl in Hw. simplify_eq. by rewrite Hr.
Qed.

Lemma runes_valid_app s1 s2 :
  valid_utf8 s1 = true → runes (s1 +:+ s2) = runes s1 ++ runes s2.
Proof.
  unfold valid_utf8. induction s1 as [|a s u Hu Hr IH] using runes_ind; [done|].
  rewrite Hr. cbn [forallb]. intros [Hok Hv]%andb_true_iff.
  rewrite Hu, str_app_assoc, runes_ok_app by done. by rewrite IH.
Qed.

Lemma valid_utf8_app s1 s2 :
  valid_utf8 s1 = true → valid_utf8 s2 = true → valid_utf8 (s1 +:+ s2) = true.
Proof.
  intros H1 H2. unfold valid_utf8. rewrite runes_valid_app, forallb_app by done.
  by apply andb_true_iff.
Qed.

Lemma valid_utf8_step a s :
  st_ok (decode1 a s) = true → valid_utf8 (st_bytes (decode1 a s)) = true.
Proof.
  intros Hok. unfold valid_utf8. rewrite <-(str_app_nil_r (st_bytes _)).
  rewrite runes_ok_app by done. simpl. by rewrite Hok.
Qed.

Lemma to_valid_steps_ok b l :
  forallb st_ok l = true → to_valid_steps b l = concat_bytes l.
Proof.
  revert b. induction l as [|x l IH]; intros b; simpl; [done|].
  intros [-> ?]%andb_true_iff. by rewrite IH.
Qed.

Lemma to_valid_utf8_id s : valid_utf8 s = true → to_valid_utf8 s = s.
Proof.
  intros. unfold to_valid_utf8. rewrite to_valid_steps_ok by done. apply concat_runes.
Qed.

Lemma to_valid_utf8_valid s : valid_utf8 (to_valid_utf8 s) = true.
Proof.
  unfold to_valid_utf8. generalize false as b.
  induction s as [|a s u Hu Hr IH] using runes_ind; intros b; [done|].
  rewrite Hr. cbn [to_valid_steps]. destruct (st_ok _) eqn:Hok.
  - apply valid_utf8_app; [by apply valid_utf8_step|done].
  - apply valid_utf8_app; [by destruct b|done].
Qed.

(** Cutting a valid string at a step boundary leaves valid strings. *)
Lemma valid_utf8_prefix_steps s l1 l2 :
  valid_utf8 s = true → runes s = l1 ++ l2 →
  valid_utf8 (concat_bytes l1) = true ∧ runes (concat_bytes l1) = l1.
Proof.
  unfold valid_utf8. revert l1. induction s as [|a s u Hu Hr IH] using runes_ind; intros l1.
  - intros _ H. symmetry in H. by apply app_nil in H as [-> ->].
  - rewrite Hr. simpl. intros [Hok Hv]%andb_true_iff Heq.
    destruct l1 as [|x l1]; [done|]. simpl in *. simplify_eq.
    destruct (IH l1) as [IH1 IH2]; [done..|].
    rewrite runes_ok_app, IH2 by done. simpl. rewrite Hok.
    split; [|done]. by rewrite <-IH2.
Qed.

Lemma rune_len_pos r : (1 ≤ rune_len r ≤ 4)%Z.
Proof. unfold rune_len. repeat case_match; lia. Qed.

Lemma in_range_spec lo hi z : in_range lo hi z = true ↔ (lo ≤ z ≤ hi)%Z.
Proof. unfold in_range. rewrite andb_true_iff, !Z.leb_le. done. Qed.

(** The length of a well-formed step is the rune's encoded length. *)
Lemma step_rune_len a s :
  st_ok (decode1 a s) = true → slen (st_bytes (decode1 a s)) = rune_len (st_rune (decode1 a s)).
Proof.
  unfold decode1, bad, rune_len, slen.
  repeat case_match; simpl; try done; intros _; exfalso;
    unfold utf8_2, utf8_3, utf8_4, is_cont, rune_2, rune_3, rune_4 in *;
    repeat match goal with
    | H : _ && _ = true |- _ => apply andb_true_iff in H as []
    | H : _ || _ = true |- _ => apply orb_true_iff in H as []
    | H : in_range _ _ _ = true |- _ => apply in_range_spec in H
    end; bool_hyps; simpl in *; lia.
Qed.

(** An ASCII step is its byte. *)
Lemma decode1_ascii a s :
  st_ok (decode1 a s) = true → (st_rune (decode1 a s) < 128)%Z →
  st_bytes (decode1 a s) = String a "" ∧ st_rune (decode1 a s) = byte_val a.
Proof.
  intros Hok Hr. pose proof (step_rune_len a s Hok) as Hl.
  unfold rune_len in Hl. rewrite (proj2 (Z.ltb_lt _ _) Hr) in Hl. revert Hok Hl.
  unfold decode1, bad, slen. repeat case_match; simpl; intros; (done || lia).
Qed.

(** A well-formed step is the encoding of its rune. *)
Lemma encode_step a s :
  st_ok (decode1 a s) = true → encode_rune (st_rune (decode1 a s)) = st_bytes (decode1 a s).
Proof.
  assert (∀ b z, byte_val b = z → byte_of z = b) as Hb by (intros b z <-; apply byte_of_val).
  intros Hok. pose proof (step_rune_len a s Hok) as Hl. revert Hok Hl.
  unfold decode1, bad, slen, rune_len, encode_rune.
  repeat case_match; cbn [st_ok st_rune st_bytes String.length] in *; intros; try done;
    try lia; repeat f_equal; apply Hb;
    unfold utf8_2, utf8_3, utf8_4, is_cont, rune_2, rune_3, rune_4 in *;
    repeat match goal with
    | H : _ && _ = true |- _ => apply andb_true_iff in H as []
    | H : _ || _ = true |- _ => apply orb_true_iff in H as []
    | H : in_range _ _ _ = true |- _ => apply in_range_spec in H
    end; bool_hyps; try done; Z.to_euclidean_division_equations; lia.
Qed.

Lemma concat_bytes_snoc_length l :
  String.length (concat_bytes l) = sum_list (String.length ∘ st_bytes <$> l).
Proof. induction l as [|x l IH]; simpl; [done|]. by rewrite str_length_app, IH. Qed.

Lemma valid_utf8_ascii_cons a s :
  (byte_val a < 128)%Z → valid_utf8 s = true → valid_utf8 (String a s) = true.
Proof.
  intros Ha Hs. change (String a s) with (String a "" +:+ s). apply valid_utf8_app; [|done].
  unfold valid_utf8, runes, runes_from, decode1. by rewrite (proj2 (Z.ltb_lt _ _) Ha).
Qed.

Lemma valid_utf8_digits s : str_all is_digit s = true → valid_utf8 s = true.
Proof.
  induction s as [|a s IH]; [done|]. cbn [str_all]. intros [Ha Hs]%andb_true_iff.
  apply valid_utf8_ascii_cons; [|by apply IH]. unfold is_digit in Ha. bool_hyps. lia.
Qed.

#[export] Hint Resolve to_valid_utf8_valid valid_utf8_app valid_utf8_step : aegis.
