(* ===== verification/Frame.v ===== *)
(** * Frames on the broker socket: [internal/broker/frame.go]

    One request or response is one line of at most [MaxFrameBytes] bytes and
    the end of the stream.  The file models the part of [bufio.Reader] that
    [readSingleFrame] uses over a connection that delivers its bytes in pieces
    of any size, and [writeAll] over a writer that accepts as much as it likes.

    [readSingleFrame_spec] says that the answer depends only on the bytes of
    the connection, never on how they were cut into pieces, and what it is. *)

From S2P Require Import Prelude GoStr.
From Stdlib Require Import Ascii.
Open Scope Z_scope.
Open Scope string_scope.
Open Scope list_scope.

(** ** Constants and errors of [internal/broker/protocol.go] *)

Definition initialFrameBufferBytes : Z := Z.shiftl 4 10.
Definition MaxFrameBytes : Z := Z.shiftl 1 20.

Inductive broker_error :=
| ErrSocketInUse
| ErrUnsafeSocket
| ErrSocketOperation
| ErrFrameTooLarge
| ErrInvalidProtocol.

#[export] Instance broker_error_eq_dec : EqDecision broker_error.
Proof. solve_decision. Defined.

Definition newline : ascii := "010".

(** ** The connection: [net.Conn.Read]

    The pieces that are still to arrive, each at most one read's worth, and
    the error every read after them returns. *)

Inductive read_error := EOF | NoProgress | ReadFailed.

#[export] Instance read_error_eq_dec : EqDecision read_error.
Proof. solve_decision. Defined.

Record conn := { cn_pieces : list string; cn_end : read_error }.

(** [connection.Read(p)] with [len(p) = space]. *)
Definition conn_Read (c : conn) (space : nat) : string * option read_error * conn :=
  match cn_pieces c with
  | [] => ("", Some (cn_end c), c)
  | p :: l =>
      if (String.length p <=? space)%nat then (p, None, {| cn_pieces := l; cn_end := cn_end c |})
      else (str_take space p, None,
            {| cn_pieces := str_drop space p :: l; cn_end := cn_end c |})
  end.

(** A connection's reads return bytes or an error, never neither. *)
Definition conn_ok (c : conn) : Prop := Forall (λ p, p ≠ "") (cn_pieces c).

(** ** [bufio.Reader]: the unread bytes of the buffer and the kept error *)

Record reader := {
  rd_size : nat;
  rd_buf : string;
  rd_err : option read_error;
  rd_conn : conn }.

Definition NewReaderSize (c : conn) (size : Z) : reader :=
  {| rd_size := Z.to_nat size; rd_buf := ""; rd_err := None; rd_conn := c |}.

Definition Buffered (r : reader) : Z := slen (rd_buf r).

Definition with_err (r : reader) (e : option read_error) : reader :=
  {| rd_size := rd_size r; rd_buf := rd_buf r; rd_err := e; rd_conn := rd_conn r |}.

Definition with_buf (r : reader) (b : string) : reader :=
  {| rd_size := rd_size r; rd_buf := b; rd_err := rd_err r; rd_conn := rd_conn r |}.

(** [fill]: one read, repeated while it returns nothing, at most
    [maxConsecutiveEmptyReads] times. *)
Fixpoint fill_from (tries : nat) (r : reader) : reader :=
  match tries with
  | O => with_err r (Some NoProgress)
  | S tries' =>
      let '(p, e, c) := conn_Read (rd_conn r) (rd_size r - String.length (rd_buf r)) in
      let r' := {| rd_size := rd_size r; rd_buf := rd_buf r +:+ p; rd_err := rd_err r; rd_conn := c |} in
      match e with
      | Some e => with_err r' (Some e)
      | None => if str_is_empty p then fill_from tries' r' else r'
      end
  end.

Definition fill (r : reader) : reader := fill_from 100 r.

#[global] Arguments fill_from : simpl never.

(** What [ReadSlice] returns with its bytes: [nil], [bufio.ErrBufferFull] or
    the kept error of the connection. *)
Inductive slice_end := Delimited | BufferFull | Stopped (e : read_error).

Fixpoint ReadSlice_from (fuel : nat) (r : reader) (delim : ascii) : string * slice_end * reader :=
  match index_byte (rd_buf r) delim with
  | Some i => (str_take (S i) (rd_buf r), Delimited, with_buf r (str_drop (S i) (rd_buf r)))
  | None =>
      match rd_err r with
      | Some e => (rd_buf r, Stopped e, with_err (with_buf r "") None)
      | None =>
          if (rd_size r <=? String.length (rd_buf r))%nat
          then (rd_buf r, BufferFull, with_buf r "")
          else match fuel with
               | O => ("", Stopped NoProgress, r)
               | S fuel' => ReadSlice_from fuel' (fill r) delim
               end
      end
  end.

(** Every [fill] uses up a piece, fills the buffer or meets the end. *)
Definition ReadSlice (r : reader) (delim : ascii) : string * slice_end * reader :=
  ReadSlice_from (S (S (length (cn_pieces (rd_conn r))))) r delim.

(** [ReadByte]: a byte, or the error. *)
Fixpoint ReadByte_from (fuel : nat) (r : reader) : result read_error ascii * reader :=
  match rd_buf r with
  | String a b => (Ok a, with_buf r b)
  | "" =>
      match rd_err r with
      | Some e => (Fail e, with_err r None)
      | None => match fuel with
                | O => (Fail NoProgress, r)
                | S fuel' => ReadByte_from fuel' (fill r)
                end
      end
  end.

Definition ReadByte (r : reader) : result read_error ascii * reader := ReadByte_from 2 r.

(** ** [readSingleFrame] *)

(** The loop: read until the newline, which the frame keeps. *)
Fixpoint read_line (fuel : nat) (r : reader) (frame : string) : result broker_error (string * reader) :=
  if (slen frame =? MaxFrameBytes)%Z then
    match ReadByte r with
    | (Fail _, _) => Fail ErrInvalidProtocol
    | (Ok last, r) =>
        if Ascii.eqb last newline then Ok (frame +:+ String last "", r) else Fail ErrFrameTooLarge
    end
  else
    let '(fragment, stop, r) := ReadSlice r newline in
    if negb (str_is_empty fragment) && (MaxFrameBytes + 1 <? slen frame + slen fragment)%Z
    then Fail ErrFrameTooLarge
    else
      let frame := frame +:+ fragment in
      match stop with
      | Delimited => Ok (frame, r)
      | BufferFull =>
          if (MaxFrameBytes <? slen frame)%Z then Fail ErrFrameTooLarge
          else match fuel with
               | O => Fail ErrInvalidProtocol
               | S fuel' => read_line fuel' r frame
               end
      | Stopped _ =>
          if (MaxFrameBytes <? slen frame)%Z then Fail ErrFrameTooLarge else Fail ErrInvalidProtocol
      end.

(** [frame[len(frame)-1] == '\n'] *)
Definition ends_with_newline (frame : string) : bool := has_suffix frame (String newline "").

(** After the loop: cut the newline, and require the end of the stream. *)
Definition finish_frame (frame : string) (r : reader) : result broker_error string :=
  if str_is_empty frame || negb (ends_with_newline frame) then Fail ErrInvalidProtocol
  else
    let frame := str_take (String.length frame - 1) frame in
    if (MaxFrameBytes <? slen frame)%Z then Fail ErrFrameTooLarge
    else if negb (Buffered r =? 0)%Z then Fail ErrInvalidProtocol
    else match fst (ReadByte r) with
         | Ok _ => Fail ErrInvalidProtocol
         | Fail e => if decide (e = EOF) then Ok frame else Fail ErrInvalidProtocol
         end.

(** The loop takes a full buffer at each turn but the last: 256 turns reach
    [MaxFrameBytes], one more reads its last byte. *)
Definition frame_turns : nat := Z.to_nat (MaxFrameBytes / initialFrameBufferBytes) + 1.

Definition readSingleFrame (connection : conn) : result broker_error string :=
  match read_line frame_turns (NewReaderSize connection initialFrameBufferBytes) "" with
  | Fail e => Fail e
  | Ok (frame, r) => finish_frame frame r
  end.

(** ** [writeAll]

    [Write] takes the writer's state and the data to the number of bytes it
    accepted and its error. *)

Section writer.
Context {W E : Type} (Write : W → string → Z * option E * W).

Inductive write_error := WriterError (e : E) | UnexpectedEOF | Stuck.

Fixpoint writeAll_from (fuel : nat) (w : W) (data : string) : option write_error * W :=
  if str_is_empty data then (None, w)
  else match fuel with
  | O => (Some Stuck, w)
  | S fuel' =>
      let '(written, err, w) := Write w data in
      let data := if (0 <? written)%Z then str_drop (Z.to_nat written) data else data in
      match err with
      | Some e => (Some (WriterError e), w)
      | None => if (written =? 0)%Z then (Some UnexpectedEOF, w) else writeAll_from fuel' w data
      end
  end.

(** A writer that keeps to [io.Writer] accepts at least a byte per turn, so
    one turn per byte is enough; a negative count would loop forever. *)
Definition writeAll (w : W) (data : string) : option write_error * W :=
  writeAll_from (String.length data) w data.
End writer.
Arguments write_error E : clear implicits.

(** ** [phaseDeadline], on instants in nanoseconds *)

Definition phaseDeadline (now : Z) (ctxDeadline : option Z) (timeout : Z) : Z :=
  let deadline := (now + timeout)%Z in
  match ctxDeadline with
  | Some d => if (d <? deadline)%Z then d else deadline
  | None => deadline
  end.

(** ** The bytes still to come *)

Definition stream (r : reader) : string := rd_buf r +:+ str_concat (cn_pieces (rd_conn r)).

(** Between calls the reader keeps no error and never holds more than its size. *)
Record reader_ok (r : reader) : Prop := {
  ro_size : (0 < rd_size r)%nat;
  ro_fits : (String.length (rd_buf r) ≤ rd_size r)%nat;
  ro_err : rd_err r = None;
  ro_conn : conn_ok (rd_conn r) }.

(** [r'] is [r] after the bytes [read] were taken off it. *)
Record read_on (r : reader) (read : string) (r' : reader) : Prop := {
  on_ok : reader_ok r';
  on_size : rd_size r' = rd_size r;
  on_end : cn_end (rd_conn r') = cn_end (rd_conn r);
  on_stream : stream r = read +:+ stream r' }.

Lemma read_on_trans r1 s1 r2 s2 r3 :
  read_on r1 s1 r2 → read_on r2 s2 r3 → read_on r1 (s1 +:+ s2) r3.
Proof. intros [] []. split; [done|congruence..|]. rewrite str_app_assoc. congruence. Qed.

Lemma NewReaderSize_ok c size : conn_ok c → (0 < size)%Z → reader_ok (NewReaderSize c size).
Proof. intros. split; simpl; [lia|lia|done|done]. Qed.

Lemma stream_no_pieces r : cn_pieces (rd_conn r) = [] → stream r = rd_buf r.
Proof. unfold stream. intros ->. apply str_app_nil_r. Qed.

Lemma fill_from_S tries r :
  fill_from (S tries) r =
  let '(p, e, c) := conn_Read (rd_conn r) (rd_size r - String.length (rd_buf r)) in
  let r' := {| rd_size := rd_size r; rd_buf := rd_buf r +:+ p; rd_err := rd_err r; rd_conn := c |} in
  match e with
  | Some e => with_err r' (Some e)
  | None => if str_is_empty p then fill_from tries r' else r'
  end.
Proof. reflexivity. Qed.

(** One [fill] takes over a piece or fills the buffer. *)
Lemma fill_piece r :
  reader_ok r → (String.length (rd_buf r) < rd_size r)%nat → cn_pieces (rd_conn r) ≠ [] →
  read_on r "" (fill r) ∧
  ((length (cn_pieces (rd_conn (fill r))) < length (cn_pieces (rd_conn r)))%nat
   ∨ String.length (rd_buf (fill r)) = rd_size r).
Proof.
  intros [Hs Hf He Hc] Hlt Hne. unfold conn_ok in Hc. unfold fill. rewrite (fill_from_S 99). unfold conn_Read.
  destruct (cn_pieces (rd_conn r)) as [|p l] eqn:Hp; [done|].
  apply Forall_cons_1 in Hc as [Hpne Hl].
  destruct (String.length p <=? _)%nat eqn:Hle; bool_hyps; cbv beta iota zeta.
  - destruct p as [|a p]; [done|]. cbn [str_is_empty]. split.
    + split; [split|done..|]; simpl; [done|rewrite str_length_app; lia|done|done|].
      unfold stream. rewrite Hp. simpl. by rewrite str_app_assoc.
    + left. simpl. lia.
  - destruct (str_take _ p) as [|a q] eqn:Ht.
    { apply (f_equal String.length) in Ht. rewrite str_length_take in Ht. simpl in Ht. lia. }
    cbn [str_is_empty]. rewrite <-Ht.
    assert (String.length (rd_buf r +:+ str_take (rd_size r - String.length (rd_buf r)) p) = rd_size r).
    { rewrite str_length_app, str_length_take. lia. }
    split; [|by right]. split; [split|done..|]; simpl; [done|lia|done| |].
    + constructor; [|done]. intros Hd. apply (f_equal String.length) in Hd.
      rewrite str_length_drop in Hd. simpl in Hd. lia.
    + unfold stream. rewrite Hp. simpl.
      rewrite str_app_assoc, <-(str_app_assoc (str_take _ _)), str_take_drop. done.
Qed.

Lemma fill_end r :
  cn_pieces (rd_conn r) = [] → fill r = with_err r (Some (cn_end (rd_conn r))).
Proof.
  intros Hp. unfold fill. rewrite (fill_from_S 99). unfold conn_Read. rewrite Hp. simpl.
  unfold with_err. simpl. by rewrite str_app_nil_r.
Qed.

(** What [ReadSlice] returns, in terms of the bytes to come only. *)
Definition slice_result (s : string) (size : nat) (delim : ascii) (e : read_error) : string * slice_end :=
  match index_byte (str_take size s) delim with
  | Some i => (str_take (S i) s, Delimited)
  | None => if (size <=? String.length s)%nat then (str_take size s, BufferFull) else (s, Stopped e)
  end.

Lemma with_buf_read_on r b read :
  reader_ok r → rd_buf r = read +:+ b → read_on r read (with_buf r b).
Proof.
  intros [] Hb. split; [split|done..|]; simpl; [done| |done|done|].
  - rewrite Hb, str_length_app in *. lia.
  - unfold stream. simpl. by rewrite Hb, str_app_assoc.
Qed.

Lemma ReadSlice_from_spec fuel r delim :
  reader_ok r → (length (cn_pieces (rd_conn r)) < fuel)%nat ∨
    (String.length (rd_buf r) = rd_size r ∧ (0 ≤ fuel)%nat) →
  ∃ r' read stop, ReadSlice_from fuel r delim = (read, stop, r') ∧ read_on r read r' ∧
    (read, stop) = slice_result (stream r) (rd_size r) delim (cn_end (rd_conn r)).
Proof.
  revert r. induction fuel as [|fuel IH]; intros r Hok Hfuel; cbn [ReadSlice_from].
  all: pose proof (ro_fits r Hok) as Hfit; unfold slice_result.
  all: destruct (index_byte (rd_buf r) delim) as [i|] eqn:Hi.
  1,3: pose proof (index_byte_lt _ _ _ Hi) as Hlt; eexists _, _, _;
    (split; [done|]); split;
    [ apply with_buf_read_on; [done|by rewrite str_take_drop]
    | unfold stream; rewrite (str_take_app_r (rd_size r)), index_byte_app, Hi by done;
      by rewrite str_take_app_l by lia ].
  all: rewrite (ro_err r Hok).
  all: destruct (rd_size r <=? String.length (rd_buf r))%nat eqn:Hfull; bool_hyps.
  1,3: assert (rd_size r = String.length (rd_buf r)) as Hsz by lia;
    eexists _, _, _; (split; [done|]); split;
    [ apply with_buf_read_on; [done|by rewrite str_app_nil_r]
    | unfold stream; rewrite Hsz, str_take_app, Hi, str_length_app;
      by rewrite (proj2 (Nat.leb_le _ _)) by lia ].
  - exfalso. lia.
  - destruct (cn_pieces (rd_conn r)) as [|p l] eqn:Hp.
    + rewrite fill_end by done. destruct fuel as [|fuel]; cbn [ReadSlice_from with_err rd_buf rd_err];
        rewrite Hi; eexists _, _, _; (split; [done|]).
      all: assert (read_on r (rd_buf r) (with_err (with_buf (with_err r (Some (cn_end (rd_conn r)))) "") None))
        as Hon by (destruct Hok; split; [split; simpl; [done|lia|done|done]|done..|
                   unfold stream; simpl; by rewrite Hp]).
      all: split; [done|]. all: rewrite stream_no_pieces by done.
      all: rewrite str_take_all by lia; rewrite Hi, (proj2 (Nat.leb_gt _ _)) by lia; done.
    + destruct (fill_piece r) as [Hon Hdec]; [done|lia|by rewrite Hp|].
      destruct (IH (fill r)) as (r' & read & stop & Heq & Hon' & Hres); [by apply Hon| |].
      { rewrite (on_size _ _ _ Hon). rewrite Hp in Hdec. simpl in *. lia. }
      exists r', read, stop. split; [done|].
      rewrite (on_size _ _ _ Hon), (on_end _ _ _ Hon) in Hres.
      rewrite (on_stream _ _ _ Hon). split; [|done].
      by apply (read_on_trans r "" (fill r) read r').
Qed.

Lemma ReadSlice_spec r delim :
  reader_ok r →
  ∃ r' read stop, ReadSlice r delim = (read, stop, r') ∧ read_on r read r' ∧
    (read, stop) = slice_result (stream r) (rd_size r) delim (cn_end (rd_conn r)).
Proof. intros. apply ReadSlice_from_spec; [done|]. left. lia. Qed.

Lemma ReadByte_spec r :
  reader_ok r →
  match stream r with
  | "" => fst (ReadByte r) = Fail (cn_end (rd_conn r))
  | String a s => ∃ r', ReadByte r = (Ok a, r') ∧ read_on r (String a "") r' ∧ stream r' = s
  end.
Proof.
  intros Hok. unfold ReadByte. cbn [ReadByte_from].
  destruct (rd_buf r) as [|a b] eqn:Hb.
  - rewrite (ro_err r Hok). destruct (cn_pieces (rd_conn r)) as [|p l] eqn:Hp.
    + rewrite stream_no_pieces, Hb, fill_end by done. simpl. by rewrite Hb.
    + destruct (fill_piece r) as [Hon Hdec]; [done|rewrite Hb; simpl; apply Hok|by rewrite Hp|].
      assert (rd_buf (fill r) ≠ "") as Hne.
      { unfold fill. rewrite (fill_from_S 99). unfold conn_Read.
        pose proof (ro_conn r Hok) as Hc. unfold conn_ok in Hc. rewrite Hp in Hc |- *.
        apply Forall_cons_1 in Hc as [Hpne _]. rewrite Hb. pose proof (ro_size r Hok).
        destruct p as [|a p]; [done|]. cbn [String.length].
        destruct (_ <=? _)%nat; simpl; [done|]. by destruct (rd_size r - 0)%nat eqn:?; [lia|]. }
      rewrite (on_stream _ _ _ Hon). remember (fill r) as r1 eqn:Hr1. clear Hr1 Hdec.
      destruct (rd_buf r1) as [|a b] eqn:Hb'; [done|]. unfold stream at 1. rewrite Hb'.
      exists (with_buf r1 b). split; [done|].
      assert (read_on r1 (String a "") (with_buf r1 b)) as Hon2.
      { apply with_buf_read_on; [apply Hon|done]. }
      split; [|done]. by apply (read_on_trans r "" r1).
  - unfold stream. rewrite Hb. simpl. eexists; split; [done|]. split; [|done].
    apply with_buf_read_on; [done|by rewrite Hb].
Qed.

(** ** The frame, as a function of the bytes of the connection *)

Lemma MaxFrameBytes_eq : MaxFrameBytes = 1048576%Z.
Proof. reflexivity. Qed.

Lemma frame_turns_eq : frame_turns = 257%nat.
Proof. reflexivity. Qed.

#[global] Opaque MaxFrameBytes frame_turns.

(** What the loop hands over, of all the bytes of the stream. *)
Definition line_of (total : string) : result broker_error (string * string) :=
  match index_byte total newline with
  | Some i => if (Z.of_nat i <=? MaxFrameBytes)%Z then Ok (str_take (S i) total, str_drop (S i) total)
              else Fail ErrFrameTooLarge
  | None => if (MaxFrameBytes <? slen total)%Z then Fail ErrFrameTooLarge else Fail ErrInvalidProtocol
  end.

(** The loop's result agrees with [line_of]. *)
Definition line_agrees (e : read_error) (spec : result broker_error (string * string))
    (got : result broker_error (string * reader)) : Prop :=
  match spec, got with
  | Fail a, Fail b => a = b
  | Ok (l, rest), Ok (l', r) => l = l' ∧ stream r = rest ∧ reader_ok r ∧ cn_end (rd_conn r) = e
  | _, _ => False
  end.

Lemma line_of_found e frame read r :
  index_byte frame newline = None →
  index_byte (frame +:+ read) newline = Some (String.length (frame +:+ read) - 1)%nat →
  (slen (frame +:+ read) ≤ MaxFrameBytes + 1)%Z → reader_ok r → cn_end (rd_conn r) = e →
  line_agrees e (line_of (frame +:+ read +:+ stream r)) (Ok (frame +:+ read, r)).
Proof.
  intros Hn Hi Hlen Hok He. pose proof (index_byte_lt _ _ _ Hi) as Hlt.
  unfold line_of. rewrite <-str_app_assoc, index_byte_app, Hi.
  unfold slen in Hlen. rewrite (proj2 (Z.leb_le _ _)) by lia.
  replace (S (String.length (frame +:+ read) - 1)) with (String.length (frame +:+ read)) by lia.
  rewrite str_take_app, str_drop_app. done.
Qed.

(** At [MaxFrameBytes] only the newline may follow. *)
Lemma last_byte_spec r frame :
  reader_ok r → slen frame = MaxFrameBytes → index_byte frame newline = None →
  line_agrees (cn_end (rd_conn r)) (line_of (frame +:+ stream r))
    match ReadByte r with
    | (Fail _, _) => Fail ErrInvalidProtocol
    | (Ok last, r) =>
        if Ascii.eqb last newline then Ok (frame +:+ String last "", r) else Fail ErrFrameTooLarge
    end.
Proof.
  intros Hok Hlen Hn. pose proof (ReadByte_spec r Hok) as Hb.
  assert (String.length frame = Z.to_nat MaxFrameBytes) as Hl by (unfold slen in Hlen; lia).
  pose proof MaxFrameBytes_eq as HM.
  destruct (stream r) as [|a s] eqn:Hs.
  - destruct (ReadByte r) as [[b|e] r1]; [done|]. rewrite str_app_nil_r. unfold line_of. rewrite Hn.
    by rewrite (proj2 (Z.ltb_ge _ _)) by lia.
  - destruct Hb as (r' & -> & Hon & <-). destruct (Ascii.eqb a newline) eqn:Ha.
    + apply Ascii.eqb_eq in Ha as ->.
      apply (line_of_found _ _ (String newline "")); [done| | |apply Hon|by destruct Hon].
      * rewrite index_byte_snoc, str_length_app by done. f_equal. simpl. lia.
      * rewrite slen_app, Hlen. unfold slen. simpl. lia.
    + unfold line_of. rewrite index_byte_app, Hn, index_byte_cons, Ha.
      destruct (index_byte (stream r') newline) as [j|]; simpl.
      * by rewrite (proj2 (Z.leb_gt _ _)) by lia.
      * rewrite slen_app. unfold slen in *. simpl. by rewrite (proj2 (Z.ltb_lt _ _)) by lia.
Qed.

Lemma read_line_spec fuel r frame k :
  reader_ok r → Z.of_nat (rd_size r) = 4096%Z →
  slen frame = (4096 * Z.of_nat k)%Z → (k ≤ 256)%nat → (256 ≤ fuel + k)%nat →
  index_byte frame newline = None →
  line_agrees (cn_end (rd_conn r)) (line_of (frame +:+ stream r)) (read_line fuel r frame).
Proof.
  pose proof MaxFrameBytes_eq as HM.
  revert r frame k. induction fuel as [|fuel IH]; intros r frame k Hok Hsz Hlen Hk Hfuel Hn;
    cbn [read_line]; destruct (slen frame =? MaxFrameBytes)%Z eqn:Hmax; bool_hyps;
    try by apply last_byte_spec.
  - exfalso. lia.
  - destruct (ReadSlice_spec r newline Hok) as (r' & read & stop & -> & Hon & Hres).
    rewrite (on_stream _ _ _ Hon). unfold slice_result in Hres.
    pose proof (on_stream _ _ _ Hon) as Hstream.
    assert (slen read ≤ 4096)%Z as Hread.
    { unfold slen. revert Hres. destruct (index_byte (str_take _ _) _) as [i|] eqn:Hi.
      - apply index_byte_lt in Hi. rewrite str_length_take in Hi. intros [-> ->]%pair_equal_spec.
        rewrite str_length_take. lia.
      - destruct (_ <=? _)%nat eqn:Hle; bool_hyps; intros [-> ->]%pair_equal_spec; [rewrite str_length_take|]; lia. }
    rewrite (proj2 (Z.ltb_ge (MaxFrameBytes + 1) _)), andb_false_r by lia.
    destruct (index_byte (str_take (rd_size r) (stream r)) newline) as [i|] eqn:Hi.
    + apply pair_equal_spec in Hres as [Hr ->]. pose proof (index_byte_lt _ _ _ Hi) as Hil. rewrite str_length_take in Hil.
      assert (String.length read = S i) as Hrl by (rewrite Hr, str_length_take; lia).
      apply line_of_found; [done| |rewrite slen_app; lia|apply Hon|by destruct Hon].
      rewrite index_byte_app, Hn, str_length_app, Hrl.
      rewrite Hr. rewrite (index_byte_take _ _ _ i); [simpl; f_equal; lia| |lia].
      by rewrite <-(str_take_drop (rd_size r) (stream r)), index_byte_app, Hi.
    + destruct (rd_size r <=? String.length (stream r))%nat eqn:Hle; bool_hyps; apply pair_equal_spec in Hres as [Hr ->].
      * assert (slen read = 4096)%Z as Hrl by (unfold slen; rewrite Hr, str_length_take; lia).
        rewrite (proj2 (Z.ltb_ge MaxFrameBytes _)) by (rewrite slen_app; lia).
        rewrite <-str_app_assoc, <-(on_end _ _ _ Hon).
        apply (IH r' (frame +:+ read) (S k)); [apply Hon|by rewrite (on_size _ _ _ Hon)| |lia|lia|].
        -- rewrite slen_app. lia.
        -- by rewrite index_byte_app, Hn, Hr, Hi.
      * assert (stream r' = "") as Hs'.
        { apply (f_equal String.length) in Hstream. rewrite str_length_app, <-Hr in Hstream.
          destruct (stream r'); [done|]. simpl in Hstream. lia. }
        rewrite Hs', str_app_nil_r.
        assert (slen (frame +:+ read) < MaxFrameBytes)%Z as Hlt.
        { rewrite slen_app. unfold slen in *. rewrite Hr. lia. }
        rewrite (proj2 (Z.ltb_ge MaxFrameBytes _)) by lia.
        unfold line_of. rewrite index_byte_app, Hn, Hr. rewrite str_take_all in Hi by lia. rewrite Hi.
        simpl. by rewrite (proj2 (Z.ltb_ge MaxFrameBytes _)) by (rewrite <-Hr; lia).
Qed.

(** The reference: the first newline ends the frame, nothing may follow it. *)
Definition frame_spec (c : conn) : result broker_error string :=
  let total := str_concat (cn_pieces c) in
  match index_byte total newline with
  | Some i =>
      if (MaxFrameBytes <? Z.of_nat i)%Z then Fail ErrFrameTooLarge
      else if String.eqb (str_drop (S i) total) "" && bool_decide (cn_end c = EOF)
           then Ok (str_take i total) else Fail ErrInvalidProtocol
  | None => if (MaxFrameBytes <? slen total)%Z then Fail ErrFrameTooLarge else Fail ErrInvalidProtocol
  end.

Lemma index_byte_split s a i :
  index_byte s a = Some i → str_take (S i) s = str_take i s +:+ String a "".
Proof.
  revert i. induction s as [|b s IH]; intros i; [done|]. rewrite index_byte_cons.
  destruct (Ascii.eqb b a) eqn:Hb.
  - apply Ascii.eqb_eq in Hb as ->. intros [= <-]. by destruct s.
  - destruct (index_byte s a) as [j|]; [|done]. intros [= <-].
    change (String b (str_take (S j) s) = String b (str_take j s +:+ String a "")).
    by rewrite (IH j).
Qed.

Lemma finish_frame_line line r :
  reader_ok r → (slen line ≤ MaxFrameBytes)%Z →
  finish_frame (line +:+ String newline "") r =
  (if String.eqb (stream r) "" && bool_decide (cn_end (rd_conn r) = EOF)
   then Ok line else Fail ErrInvalidProtocol).
Proof.
  intros Hok Hlen. unfold finish_frame.
  assert (str_is_empty (line +:+ String newline "") = false) as -> by by destruct line.
  assert (ends_with_newline (line +:+ String newline "") = true) as ->.
  { apply has_suffix_spec. by exists line. }
  cbn [negb orb]. rewrite str_length_app. replace (_ + _ - 1)%nat with (String.length line) by (simpl; lia).
  rewrite str_take_app, (proj2 (Z.ltb_ge MaxFrameBytes _)) by lia.
  pose proof (ReadByte_spec r Hok) as Hb. unfold Buffered.
  destruct (slen (rd_buf r) =? 0)%Z eqn:H0; bool_hyps; cbn [negb].
  - destruct (stream r) as [|a s]; [|by destruct Hb as (? & -> & _)].
    rewrite Hb. simpl. destruct (decide (cn_end (rd_conn r) = EOF)) as [He|He];
      [by rewrite bool_decide_eq_true_2|by rewrite bool_decide_eq_false_2].
  - unfold stream. destruct (rd_buf r); [done|]. done.
Qed.

Lemma readSingleFrame_eq c :
  conn_ok c → readSingleFrame c = frame_spec c.
Proof.
  intros Hc. unfold readSingleFrame.
  pose proof (read_line_spec frame_turns (NewReaderSize c initialFrameBufferBytes) "" 0) as H.
  unfold frame_spec. set (total := str_concat (cn_pieces c)).
  change (stream (NewReaderSize c initialFrameBufferBytes)) with total in H.
  change ("" +:+ total) with total in H.
  specialize (H (NewReaderSize_ok c initialFrameBufferBytes Hc eq_refl) eq_refl eq_refl).
  rewrite frame_turns_eq in *. specialize (H ltac:(lia) ltac:(lia) eq_refl). unfold line_of, line_agrees in H.
  destruct (index_byte total newline) as [i|] eqn:Hi.
  - rewrite (Z.ltb_antisym (Z.of_nat i)). destruct (Z.of_nat i <=? MaxFrameBytes)%Z eqn:Hle; bool_hyps; cbn [negb].
    + destruct (read_line _ _ _) as [[l r]|]; [|done]. destruct H as (<- & Hs & Hok & He).
      rewrite (index_byte_split _ _ _ Hi). rewrite finish_frame_line; [|done|].
      * by rewrite Hs, He.
      * unfold slen. rewrite str_length_take. lia.
    + destruct (read_line _ _ _) as [[l r]|]; [done|]. by subst.
  - destruct (MaxFrameBytes <? slen total)%Z; destruct (read_line _ _ _) as [[l r]|]; by subst.
Qed.

(** C39: Reading a frame depends only on the bytes of the connection and on how
    it ends, never on how the bytes were cut into pieces, and is what the
    reference says: the bytes before the first newline when nothing follows it,
    the client half-closed and they are at most [MaxFrameBytes]; the size error
    exactly when more than [MaxFrameBytes] bytes came before a newline or the
    end; the protocol error otherwise.  No input runs the loop out of turns. *)
Theorem readSingleFrame_spec c1 c2 :
  conn_ok c1 → conn_ok c2 →
  str_concat (cn_pieces c1) = str_concat (cn_pieces c2) → cn_end c1 = cn_end c2 →
  readSingleFrame c1 = readSingleFrame c2 ∧ readSingleFrame c1 = frame_spec c1.
Proof.
  intros H1 H2 Hs He. rewrite !readSingleFrame_eq by done. split; [|done].
  unfold frame_spec. by rewrite Hs, He.
Qed.

Lemma readSingleFrame_spec_witness :
  readSingleFrame {| cn_pieces := ["{"; "}" +:+ String newline ""]; cn_end := EOF |}
    = readSingleFrame {| cn_pieces := ["{}" +:+ String newline ""]; cn_end := EOF |} ∧
  readSingleFrame {| cn_pieces := ["{"; "}" +:+ String newline ""]; cn_end := EOF |} = Ok "{}".
Proof.
  apply (readSingleFrame_spec {| cn_pieces := ["{"; "}" +:+ String newline ""]; cn_end := EOF |}
                              {| cn_pieces := ["{}" +:+ String newline ""]; cn_end := EOF |});
    [repeat constructor; discriminate..|reflexivity|reflexivity].
Defined.

(** ** Writing a frame *)

(** What [io.Writer] asks of [Write]: the count is within the data, the bytes
    counted were written, and the count is short only with an error. *)
Section writeAll_spec.
Context {W E : Type} (Write : W → string → Z * option E * W) (written : W → string).

Definition writer_ok : Prop := ∀ w d n e w',
  Write w d = (n, e, w') →
  (0 ≤ n ≤ slen d)%Z ∧ written w' = written w +:+ str_take (Z.to_nat n) d.

Lemma writeAll_from_spec (Hw : writer_ok) fuel w data e w' :
  (String.length data ≤ fuel)%nat →
  writeAll_from Write fuel w data = (e, w') →
  e ≠ Some Stuck ∧
  ∃ sent rest, data = sent +:+ rest ∧ written w' = written w +:+ sent ∧ (e = None → rest = "").
Proof.
  revert w data. induction fuel as [|fuel IH]; intros w data Hfuel;
    destruct data as [|a data']; cbn [writeAll_from str_is_empty].
  1,3: intros [= <- <-]; split; [done|]; exists "", ""; by rewrite !str_app_nil_r.
  - simpl in Hfuel. lia.
  - destruct (Write w (String a data')) as [[n err] w1] eqn:HW.
    destruct (Hw _ _ _ _ _ HW) as [Hn Hout].
    assert ((if (0 <? n)%Z then str_drop (Z.to_nat n) (String a data') else String a data')
            = str_drop (Z.to_nat n) (String a data')) as ->.
    { destruct (0 <? n)%Z eqn:H0; bool_hyps; [done|]. by replace (Z.to_nat n) with 0%nat by lia. }
    assert (∀ P : Prop, (P → str_drop (Z.to_nat n) (String a data') = "") →
      ∃ sent rest, String a data' = sent +:+ rest ∧ written w1 = written w +:+ sent ∧ (P → rest = "")) as Hsplit.
    { intros P HP. exists (str_take (Z.to_nat n) (String a data')), (str_drop (Z.to_nat n) (String a data')).
      by rewrite str_take_drop. }
    destruct err as [err|]; [intros [= <- <-]; split; [done|]; by apply Hsplit|].
    destruct (n =? 0)%Z eqn:H0; bool_hyps; [intros [= <- <-]; split; [done|]; by apply Hsplit|].
    intros Hr. apply IH in Hr as [He (sent & rest & Hd & Hs & Hz)];
      [|rewrite str_length_drop; simpl in *; unfold slen in *; lia].
    split; [done|]. exists (str_take (Z.to_nat n) (String a data') +:+ sent), rest.
    rewrite str_app_assoc, <-Hd, str_take_drop, Hs, Hout, str_app_assoc. done.
Qed.

(** [writeAll] over a writer that keeps to [io.Writer] ends, whatever the
    writer does, without a lost or repeated byte: what was written is a prefix
    of the data, all of it when no error is returned. *)
Theorem writeAll_spec (Hw : writer_ok) w data e w' :
  writeAll Write w data = (e, w') →
  e ≠ Some Stuck ∧
  ∃ sent rest, data = sent +:+ rest ∧ written w' = written w +:+ sent ∧ (e = None → rest = "").
Proof. intros H. by apply (writeAll_from_spec Hw (String.length data)). Qed.
End writeAll_spec.

(** A writer that takes at most two bytes a time, and fails after five. *)
Definition sample_Write (w : string) (d : string) : Z * option unit * string :=
  if (5 <? slen w)%Z then (0, Some tt, w)
  else (Z.min 2 (slen d), None, w +:+ str_take 2 d).

Lemma sample_Write_ok : writer_ok sample_Write id.
Proof.
  intros w d n e w'. unfold sample_Write. pose proof (slen_nonneg d).
  destruct (_ <? _)%Z; intros [= <- <- <-].
  - split; [lia|]. symmetry. apply str_app_nil_r.
  - split; [lia|]. unfold id. f_equal. destruct (decide (2 ≤ slen d)%Z).
    + by replace (Z.to_nat (2 `min` slen d)) with 2%nat by lia.
    + rewrite (str_take_all (Z.to_nat _)) by (unfold slen in *; lia).
      unfold slen in *. destruct d as [|a [|b d]]; [done..|simpl in *; lia].
Qed.

Lemma writeAll_spec_witness :
  writeAll sample_Write "" "abcd" = (None, "abcd") ∧
  writeAll sample_Write "" "abcdefgh" = (Some (WriterError tt), "abcdef") ∧
  (Some (WriterError tt) : option (write_error unit)) ≠ Some Stuck.
Proof.
  split; [reflexivity|]. split; [reflexivity|].
  exact (proj1 (writeAll_spec sample_Write id sample_Write_ok "" "abcdefgh" _ _ eq_refl)).
Defined.

Lemma frame_spec_line c line :
  str_concat (cn_pieces c) = line +:+ String newline "" → cn_end c = EOF →
  index_byte line newline = None → (slen line ≤ MaxFrameBytes)%Z →
  frame_spec c = Ok line.
Proof.
  intros Hc He Hn Hlen. unfold frame_spec. rewrite Hc, He, index_byte_snoc by done. unfold slen in Hlen.
  by rewrite (proj2 (Z.ltb_ge _ _)), str_drop_all, str_take_app by (rewrite ?str_length_app; simpl; lia).
Qed.

(** A frame goes through the socket unchanged: a line without a newline and
    within the limit, written with its newline over any writer that reports no
    error and delivered in any pieces, is the frame the other side reads. *)
Theorem frame_roundtrip {W E} (Write : W → string → Z * option E * W) written w w' line pieces :
  writer_ok Write written →
  written w = "" →
  index_byte line newline = None → (slen line ≤ MaxFrameBytes)%Z →
  writeAll Write w (line +:+ String newline "") = (None, w') →
  Forall (λ p, p ≠ "") pieces → str_concat pieces = written w' →
  readSingleFrame {| cn_pieces := pieces; cn_end := EOF |} = Ok line.
Proof.
  intros Hw Hw0 Hn Hlen Hwr Hp Hc.
  assert (written w' = line +:+ String newline "") as Hout.
  { unfold writeAll in Hwr. apply (writeAll_from_spec _ written Hw) in Hwr as [_ (sent & rest & Hd & Hs & Hr)]; [|done].
    rewrite Hr, str_app_nil_r in Hd by done. by rewrite Hs, Hw0, Hd. }
  rewrite readSingleFrame_eq by done. apply frame_spec_line; [|done..]. by rewrite <-Hout.
Qed.

Lemma frame_roundtrip_witness :
  readSingleFrame {| cn_pieces := ["ab"; "c" +:+ String newline ""]; cn_end := EOF |} = Ok "abc".
Proof.
  eapply (frame_roundtrip sample_Write id "" ("abc" +:+ String newline "") "abc"
            ["ab"; "c" +:+ String newline ""]);
    [exact sample_Write_ok|reflexivity|reflexivity|done|reflexivity|repeat constructor; discriminate|reflexivity].
Defined.
