(* ===== verification/Json.v ===== *)
(** * JSON as [encoding/json] writes and reads it

    The broker's messages are JSON documents: [json.Marshal] writes them and
    [decodeStrictJSON] reads one back.  The file has the values, the compact
    writer with its HTML-safe string escapes, and the reader: the scanner's
    grammar with its nesting limit, and the decoding of string literals.

    The main results: reading what was written gives the value back, with each
    invalid byte of a string replaced by U+FFFD ([read_print]); a written
    document never holds a newline ([print_no_newline]), so that it fits in a
    frame. *)

From S2P Require Import Prelude GoStr Utf8 Frame.
From Stdlib Require Import Ascii.
Open Scope Z_scope.
Open Scope string_scope.
Open Scope list_scope.

(** ** Values

    A number keeps its text, an object the order and repetitions of its
    members, as the decoder sees them. *)

Inductive json :=
| JNull
| JBool (b : bool)
| JNum (text : string)
| JStr (s : string)
| JArr (l : list json)
| JObj (members : list (string * json)).

Section json_ind.
Variable P : json → Prop.
Hypothesis Hnull : P JNull.
Hypothesis Hbool : ∀ b, P (JBool b).
Hypothesis Hnum : ∀ t, P (JNum t).
Hypothesis Hstr : ∀ s, P (JStr s).
Hypothesis Harr : ∀ l, Forall P l → P (JArr l).
Hypothesis Hobj : ∀ ms, Forall (λ m, P (m.2)) ms → P (JObj ms).

Fixpoint json_nested_ind (j : json) : P j :=
  match j with
  | JNull => Hnull
  | JBool b => Hbool b
  | JNum t => Hnum t
  | JStr s => Hstr s
  | JArr l => Harr l ((fix go l : Forall P l :=
      match l with [] => Forall_nil_2 _ | x :: l' => Forall_cons_2 _ _ _ (json_nested_ind x) (go l') end) l)
  | JObj ms => Hobj ms ((fix go ms : Forall (λ m, P (m.2)) ms :=
      match ms with [] => Forall_nil_2 _ | x :: ms' => Forall_cons_2 _ _ _ (json_nested_ind (x.2)) (go ms') end) ms)
  end.
End json_ind.

Definition dq : ascii := "034".
Definition backslash : ascii := "092".

(** ** Writing *)

Definition hex_digit (d : Z) : ascii := byte_of (if (d <? 10)%Z then 48 + d else 87 + d).

Definition hex4 (r : Z) : string :=
  String (hex_digit (r / 4096)) (String (hex_digit ((r / 256) mod 16))
    (String (hex_digit ((r / 16) mod 16)) (String (hex_digit (r mod 16)) ""))).

Definition unicode_escape (r : Z) : string := String backslash (String "u" (hex4 r)).

(** The two-byte escapes of [appendString]. *)
Definition short_escape (r : Z) : option ascii :=
  if Z.eqb r 8 then Some "b"%char
  else if Z.eqb r 12 then Some "f"%char
  else if Z.eqb r 10 then Some "n"%char
  else if Z.eqb r 13 then Some "r"%char
  else if Z.eqb r 9 then Some "t"%char
  else if Z.eqb r 34 then Some dq
  else if Z.eqb r 92 then Some backslash
  else None.

(** Control characters, [<], [>], [&], and the line separators. *)
Definition needs_unicode (r : Z) : bool :=
  (r <? 32)%Z || Z.eqb r 60 || Z.eqb r 62 || Z.eqb r 38 || Z.eqb r 8232 || Z.eqb r 8233.

Definition escape_step (x : step) : string :=
  if st_ok x then
    match short_escape (st_rune x) with
    | Some c => String backslash (String c "")
    | None => if needs_unicode (st_rune x) then unicode_escape (st_rune x) else st_bytes x
    end
  else unicode_escape rune_error.

Fixpoint escape_steps (l : list step) : string :=
  match l with [] => "" | x :: l' => escape_step x +:+ escape_steps l' end.

Definition quote (s : string) : string := String dq (escape_steps (runes s) +:+ String dq "").

(** [json.Marshal], of the values the encoder builds. *)
Fixpoint print (j : json) : string :=
  match j with
  | JNull => "null"
  | JBool b => if b then "true" else "false"
  | JNum t => t
  | JStr s => quote s
  | JArr l => "[" +:+ str_join (print <$> l) "," +:+ "]"
  | JObj ms => "{" +:+ str_join ((λ m : string * json, quote (m.1) +:+ ":" +:+ print (m.2)) <$> ms) "," +:+ "}"
  end.

(** ** Reading *)

Definition is_ws (a : ascii) : bool :=
  Ascii.eqb a " " || Ascii.eqb a "009" || Ascii.eqb a "010" || Ascii.eqb a "013".

Fixpoint skip_ws (s : string) : string :=
  match s with
  | String a s' => if is_ws a then skip_ws s' else s
  | "" => ""
  end.

(** Skip whitespace and require one given byte. *)
Definition expect (a : ascii) (s : string) : option string :=
  match skip_ws s with
  | String b r => if Ascii.eqb b a then Some r else None
  | "" => None
  end.

Definition hex_val (a : ascii) : option Z :=
  let z := byte_val a in
  if in_range 48 57 z then Some (z - 48)
  else if in_range 97 102 z then Some (z - 87)
  else if in_range 65 70 z then Some (z - 55)
  else None.

(** The four digits after [\u]. *)
Definition read_hex4 (s : string) : option (Z * string) :=
  match s with
  | String a (String b (String c (String d r))) =>
      a ← hex_val a; b ← hex_val b; c ← hex_val c; d ← hex_val d;
      Some (a * 4096 + b * 256 + c * 16 + d, r)
  | _ => None
  end.

Definition read_short (e : ascii) : option ascii :=
  if Ascii.eqb e "b" then Some "008"%char
  else if Ascii.eqb e "f" then Some "012"%char
  else if Ascii.eqb e "n" then Some "010"%char
  else if Ascii.eqb e "r" then Some "013"%char
  else if Ascii.eqb e "t" then Some "009"%char
  else if Ascii.eqb e dq || Ascii.eqb e backslash || Ascii.eqb e "/" then Some e
  else None.

(** [utf16.IsSurrogate] and [utf16.DecodeRune] on what may be a pair: an
    unpaired surrogate becomes U+FFFD and takes no further bytes. *)
Definition read_surrogate (hi : Z) (r : string) : Z * string :=
  match r with
  | String a (String b r') =>
      if Ascii.eqb a backslash && Ascii.eqb b "u" then
        match read_hex4 r' with
        | Some (lo, r'') =>
            if in_range 55296 56319 hi && in_range 56320 57343 lo
            then ((hi - 55296) * 1024 + (lo - 56320) + 65536, r'')
            else (rune_error, r)
        | None => (rune_error, r)
        end
      else (rune_error, r)
  | _ => (rune_error, r)
  end.

Definition prepend (p : string) (x : option (string * string)) : option (string * string) :=
  '(s, r) ← x; Some (p +:+ s, r).

(** The rest of a string literal: its contents and what follows the closing
    quote. *)
Fixpoint read_chars (fuel : nat) (s : string) : option (string * string) :=
  match fuel with
  | O => None
  | S fuel' =>
      match s with
      | "" => None
      | String a r =>
          if Ascii.eqb a dq then Some ("", r)
          else if Ascii.eqb a backslash then
            match r with
            | "" => None
            | String e r' =>
                match read_short e with
                | Some c => prepend (String c "") (read_chars fuel' r')
                | None =>
                    if Ascii.eqb e "u" then
                      '(v, r'') ← read_hex4 r';
                      let '(v, r'') := if in_range 55296 57343 v then read_surrogate v r'' else (v, r'') in
                      prepend (encode_rune v) (read_chars fuel' r'')
                    else None
                end
            end
          else if (byte_val a <? 32)%Z then None
          else
            let x := decode1 a r in
            prepend (if st_ok x then st_bytes x else rune_error_str)
                    (read_chars fuel' (str_drop (String.length (st_bytes x)) s))
      end
  end.

Definition read_string (s : string) : option (string * string) :=
  match s with
  | String a r => if Ascii.eqb a dq then read_chars (String.length s) r else None
  | "" => None
  end.

(** *** Numbers *)

Fixpoint take_digits (s : string) : string * string :=
  match s with
  | String a s' => if is_digit a then let '(d, r) := take_digits s' in (String a d, r) else ("", s)
  | "" => ("", "")
  end.

Definition read_int (s : string) : option (string * string) :=
  match s with
  | String a r =>
      if Ascii.eqb a "0" then Some ("0", r)
      else if is_digit a then Some (take_digits s) else None
  | "" => None
  end.

Definition read_fraction (s : string) : option (string * string) :=
  match s with
  | String a r =>
      if Ascii.eqb a "." then
        let '(d, r) := take_digits r in
        if str_is_empty d then None else Some (String a d, r)
      else Some ("", s)
  | "" => Some ("", "")
  end.

Definition read_exponent (s : string) : option (string * string) :=
  match s with
  | String e r =>
      if Ascii.eqb e "e" || Ascii.eqb e "E" then
        let '(sign, r) := match r with
                          | String a r' => if Ascii.eqb a "+" || Ascii.eqb a "-" then (String a "", r') else ("", r)
                          | "" => ("", "")
                          end in
        let '(d, r) := take_digits r in
        if str_is_empty d then None else Some (String e (sign +:+ d), r)
      else Some ("", s)
  | "" => Some ("", "")
  end.

Definition read_number (s : string) : option (string * string) :=
  let '(sign, s) := match s with
                    | String a r => if Ascii.eqb a "-" then ("-", r) else ("", s)
                    | "" => ("", s)
                    end in
  '(i, s) ← read_int s;
  '(f, s) ← read_fraction s;
  '(e, s) ← read_exponent s;
  Some (sign +:+ i +:+ f +:+ e, s).

(** *** Values *)

(** The scanner's [maxNestingDepth]. *)
Definition maxNestingDepth : Z := 10000.

Definition read_literal (word : string) (j : json) (s : string) : option (json * string) :=
  if has_prefix s word then Some (j, str_drop (String.length word) s) else None.

(** [depth] counts the arrays and objects around the value. *)
Fixpoint read_value (fuel : nat) (depth : Z) (s : string) : option (json * string) :=
  match fuel with
  | O => None
  | S fuel' =>
      let s := skip_ws s in
      match s with
      | "" => None
      | String a r =>
          if Ascii.eqb a dq then '(v, r) ← read_string s; Some (JStr v, r)
          else if Ascii.eqb a "{" then
            if (maxNestingDepth <=? depth)%Z then None
            else match expect "}" r with
                 | Some r => Some (JObj [], r)
                 | None => '(ms, r) ← read_members fuel' (depth + 1) r; Some (JObj ms, r)
                 end
          else if Ascii.eqb a "[" then
            if (maxNestingDepth <=? depth)%Z then None
            else match expect "]" r with
                 | Some r => Some (JArr [], r)
                 | None => '(l, r) ← read_elements fuel' (depth + 1) r; Some (JArr l, r)
                 end
          else if Ascii.eqb a "t" then read_literal "true" (JBool true) s
          else if Ascii.eqb a "f" then read_literal "false" (JBool false) s
          else if Ascii.eqb a "n" then read_literal "null" JNull s
          else '(t, r) ← read_number s; Some (JNum t, r)
      end
  end
with read_elements (fuel : nat) (depth : Z) (s : string) : option (list json * string) :=
  match fuel with
  | O => None
  | S fuel' =>
      '(v, r) ← read_value fuel' depth s;
      match expect "," r with
      | Some r => '(l, r) ← read_elements fuel' depth r; Some (v :: l, r)
      | None => r ← expect "]" r; Some ([v], r)
      end
  end
with read_members (fuel : nat) (depth : Z) (s : string) : option (list (string * json) * string) :=
  match fuel with
  | O => None
  | S fuel' =>
      '(k, r) ← read_string (skip_ws s);
      r ← expect ":" r;
      '(v, r) ← read_value fuel' depth r;
      match expect "," r with
      | Some r => '(l, r) ← read_members fuel' depth r; Some ((k, v) :: l, r)
      | None => r ← expect "}" r; Some ([(k, v)], r)
      end
  end.

(** [decodeStrictJSON], before the target's type: one value, then only
    whitespace.  Every call of the reader takes a byte, so the length is fuel
    enough. *)
Definition read_document (data : string) : option json :=
  '(v, r) ← read_value (2 * S (String.length data)) 0 data;
  if str_is_empty (skip_ws r) then Some v else None.

(** ** Numbers read back *)

(** No byte that would prolong a number. *)
Definition number_end (s : string) : bool :=
  match s with
  | "" => true
  | String a _ => negb (is_digit a || Ascii.eqb a "." || Ascii.eqb a "e" || Ascii.eqb a "E")
  end.

Lemma take_digits_app d rest :
  str_all is_digit d = true → number_end rest = true → take_digits (d +:+ rest) = (d, rest).
Proof.
  intros Hd Hr. induction d as [|a d IH]; simpl.
  - destruct rest as [|a r]; [done|]. simpl in *. by destruct (is_digit a).
  - simpl in Hd. apply andb_true_iff in Hd as [-> Hd]. by rewrite IH.
Qed.

Lemma read_tail_end rest :
  number_end rest = true → read_fraction rest = Some ("", rest) ∧ read_exponent rest = Some ("", rest).
Proof.
  destruct rest as [|a r]; [done|]. simpl. intros H. bool_hyps.
  repeat match goal with H : _ = false |- _ => rewrite H end. done.
Qed.

Lemma read_int_canonical d rest :
  canonical_digits d = true → number_end rest = true → read_int (d +:+ rest) = Some (d, rest).
Proof.
  unfold canonical_digits. destruct d as [|a d]; [done|]. intros H Hr. bool_hyps.
  unfold read_int. change (String a d +:+ rest) with (String a (d +:+ rest)).
  destruct (Ascii.eqb a "0") eqn:Ha.
  - apply Ascii.eqb_eq in Ha as ->.
    rename select (has_prefix _ _ && _ = false) into Hp. simpl in Hp. bool_hyps. by subst.
  - rename select (str_all _ _ = true) into Hd. rewrite <-(take_digits_app (String a d)) by done. rewrite Ha.
    simpl in Hd. apply andb_true_iff in Hd as [-> _]. done.
Qed.

Lemma itoa_nonneg_canonical n : (0 ≤ n)%Z → canonical_digits (itoa_nonneg n) = true.
Proof.
  intros Hn. unfold canonical_digits. rewrite itoa_nonneg_all by done.
  destruct (itoa_nonneg n) as [|a d] eqn:He; [by destruct (itoa_nonneg_nonempty n)|]. cbn [str_is_empty negb andb].
  destruct (has_prefix _ _) eqn:Hp; [|done]. simpl in Hp. rewrite andb_true_r in Hp.
  apply Ascii.eqb_eq in Hp as ->. destruct (String.eqb _ _) eqn:Hz; [done|]. apply String.eqb_neq in Hz.
  exfalso. revert He. unfold itoa_nonneg, z_digits.
  assert (∀ fuel m acc, (0 < m < 2 ^ Z.of_nat fuel)%Z → ∃ b t, digits_acc fuel m acc = String b t ∧ b ≠ "0"%char) as Hh.
  { induction fuel as [|f IH]; intros m acc Hm; [simpl in Hm; lia|]. cbn [digits_acc].
    destruct (m <? 10)%Z eqn:H10; bool_hyps.
    - eexists _, _; split; [done|]. intros Hb. apply (f_equal byte_val) in Hb.
      unfold digit_char in Hb. rewrite byte_val_of in Hb by (rewrite Z.mod_small; lia).
      rewrite Z.mod_small in Hb by lia. change (byte_val "0") with 48%Z in Hb. lia.
    - apply IH. rewrite Nat2Z.inj_succ, Z.pow_succ_r in Hm by lia.
      split; [apply Z.div_str_pos; lia|apply Z.div_lt_upper_bound; lia]. }
  destruct (decide (n = 0)%Z) as [->|Hn0].
  { intros He. vm_compute in He. congruence. }
  intros He. destruct (Hh (S (Z.to_nat (Z.log2 n))) n "") as (b & t & Hb & Hne); [|congruence].
  split; [lia|]. rewrite Nat2Z.inj_succ, Z2Nat.id by apply Z.log2_nonneg. apply Z.log2_spec. lia.
Qed.

Lemma itoa_head n : ∃ a r, itoa n = String a r ∧ (a = "-"%char ∨ is_digit a = true).
Proof.
  unfold itoa. destruct (n <? 0)%Z eqn:Hn; bool_hyps; [by eexists _, _; split; [|left]|].
  pose proof (itoa_nonneg_all n Hn) as Ha. destruct (itoa_nonneg n) as [|a r] eqn:He.
  { by destruct (itoa_nonneg_nonempty n). }
  exists a, r. split; [done|]. right. simpl in Ha. by apply andb_true_iff in Ha as [].
Qed.

Lemma read_number_itoa n rest :
  number_end rest = true → read_number (itoa n +:+ rest) = Some (itoa n, rest).
Proof.
  intros Hr. pose proof (read_tail_end rest Hr) as [Hf He].
  assert (∀ m sign, (0 ≤ m)%Z →
    ('(i, s) ← read_int (itoa_nonneg m +:+ rest); '(f, s) ← read_fraction s; '(e, s) ← read_exponent s;
     Some (sign +:+ i +:+ f +:+ e, s)) = Some (sign +:+ itoa_nonneg m, rest)) as Hm.
  { intros m sign Hm. rewrite read_int_canonical by auto using itoa_nonneg_canonical.
    simpl. rewrite Hf. simpl. rewrite He. simpl. by rewrite str_app_nil_r. }
  unfold read_number, itoa. destruct (n <? 0)%Z eqn:Hn; bool_hyps.
  - simpl. by apply (Hm (- n)%Z "-"); lia.
  - specialize (Hm n "" Hn). pose proof (itoa_nonneg_all n Hn) as Ha.
    destruct (itoa_nonneg n) as [|a d] eqn:Hd; [by destruct (itoa_nonneg_nonempty n)|].
    simpl in Ha |- *. apply andb_true_iff in Ha as [Ha _].
    assert (Ascii.eqb a "-" = false) as ->; [|exact Hm].
    apply Ascii.eqb_neq. by intros ->.
Qed.

(** ** Strings read back *)

Lemma hex_val_digit d : (0 ≤ d < 16)%Z → hex_val (hex_digit d) = Some d.
Proof.
  intros Hd. unfold hex_val, hex_digit. rewrite byte_val_of by (case_match; lia).
  unfold in_range. destruct (d <? 10)%Z eqn:Hlt; bool_hyps.
  - rewrite !(proj2 (Z.leb_le _ _)) by lia. simpl. f_equal. lia.
  - rewrite (proj2 (Z.leb_gt (87 + d) 57)), andb_false_r by lia.
    rewrite !(proj2 (Z.leb_le _ _)) by lia. simpl. f_equal. lia.
Qed.

Lemma read_hex4_hex4 r rest : (0 ≤ r < 65536)%Z → read_hex4 (hex4 r +:+ rest) = Some (r, rest).
Proof.
  intros Hr. unfold hex4. cbn [String.append read_hex4].
  rewrite !hex_val_digit; [simpl; f_equal; f_equal| | | |]; Z.to_euclidean_division_equations; lia.
Qed.

Lemma read_chars_unicode fuel r more :
  (0 ≤ r < 65536)%Z → in_range 55296 57343 r = false →
  read_chars (S fuel) (unicode_escape r +:+ more) = prepend (encode_rune r) (read_chars fuel more).
Proof.
  intros Hr Hs. unfold unicode_escape.
  change (String backslash (String "u" (hex4 r)) +:+ more)
    with (String backslash (String "u" (hex4 r +:+ more))).
  cbn [read_chars]. change (Ascii.eqb backslash dq) with false. change (Ascii.eqb backslash backslash) with true.
  cbn [read_short Ascii.eqb]. change (Ascii.eqb "u" "u") with true.
  rewrite read_hex4_hex4 by done. simpl. by rewrite Hs.
Qed.

(** What a reader gets for one step of a written string. *)
Definition sane_step (x : step) : string := if st_ok x then st_bytes x else rune_error_str.

Lemma st_rune_nonneg a s : st_ok (decode1 a s) = true → (0 ≤ st_rune (decode1 a s))%Z.
Proof.
  unfold decode1, bad. pose proof (byte_val_range a).
  repeat case_match; cbn [st_rune st_ok]; intros; try done; try lia;
    unfold utf8_2, utf8_3, utf8_4, is_cont, rune_2, rune_3, rune_4 in *;
    repeat match goal with
    | H : _ && _ = true |- _ => apply andb_true_iff in H as []
    | H : _ || _ = true |- _ => apply orb_true_iff in H as []
    | H : in_range _ _ _ = true |- _ => apply in_range_spec in H
    end; bool_hyps; lia.
Qed.

Lemma short_escape_spec r c :
  short_escape r = Some c → (0 ≤ r < 128)%Z ∧ read_short c = Some (byte_of r).
Proof.
  unfold short_escape. repeat (case_match; bool_hyps; [intros [= <-]; subst; by vm_compute|]). done.
Qed.

Lemma read_chars_plain fuel a s more :
  st_ok (decode1 a s) = true → short_escape (st_rune (decode1 a s)) = None →
  needs_unicode (st_rune (decode1 a s)) = false →
  read_chars (S fuel) (st_bytes (decode1 a s) +:+ more) = prepend (st_bytes (decode1 a s)) (read_chars fuel more).
Proof.
  intros Hok Hs Hu. destruct (decode1_bytes a s) as (t & u & Hb & Ht).
  rewrite Hb at 1. change (String a t +:+ more) with (String a (t +:+ more)). cbn [read_chars].
  assert (∀ b, byte_val a = byte_val b → (byte_val b < 128)%Z → st_rune (decode1 a s) = byte_val b) as Hasc.
  { intros b <- Hlt. unfold decode1. by rewrite (proj2 (Z.ltb_lt _ _) Hlt). }
  assert (Ascii.eqb a dq = false) as ->.
  { apply Ascii.eqb_neq. intros ->. by rewrite (Hasc dq) in Hs. }
  assert (Ascii.eqb a backslash = false) as ->.
  { apply Ascii.eqb_neq. intros ->. by rewrite (Hasc backslash) in Hs. }
  assert ((byte_val a <? 32)%Z = false) as ->.
  { apply Z.ltb_ge. destruct (Z.le_gt_cases 32 (byte_val a)); [done|]. exfalso.
    rewrite (Hasc a) in Hu by lia. unfold needs_unicode in Hu. bool_hyps. lia. }
  rewrite (decode1_ok_app a s t u more) by done. rewrite Hok, Hb.
  change (String a (t +:+ more)) with (String a t +:+ more). by rewrite str_drop_app.
Qed.

Lemma read_chars_step fuel a s more :
  read_chars (S fuel) (escape_step (decode1 a s) +:+ more) =
  prepend (sane_step (decode1 a s)) (read_chars fuel more).
Proof.
  unfold escape_step, sane_step. destruct (st_ok (decode1 a s)) eqn:Hok.
  2:{ by rewrite read_chars_unicode. }
  pose proof (st_rune_nonneg a s Hok) as Hr.
  destruct (short_escape _) as [c|] eqn:Hs.
  - pose proof (short_escape_spec _ _ Hs) as [Hlt Hc].
    destruct (decode1_ascii a s Hok) as [-> Hv]; [lia|].
    change (String backslash (String c "") +:+ more) with (String backslash (String c more)).
    cbn [read_chars]. change (Ascii.eqb backslash dq) with false. change (Ascii.eqb backslash backslash) with true.
    cbv iota. rewrite Hc, Hv, byte_of_val. done.
  - destruct (needs_unicode _) eqn:Hu; [|by apply read_chars_plain].
    assert (st_rune (decode1 a s) < 65536 ∧ in_range 55296 57343 (st_rune (decode1 a s)) = false)%Z as [Hlt Hsur].
    { unfold needs_unicode in Hu. unfold in_range.
      repeat (apply orb_true_iff in Hu as [Hu|Hu]); bool_hyps; [|by rewrite Hu..].
      split; [lia|]. by rewrite (proj2 (Z.leb_gt 55296 _)) by lia. }
    rewrite read_chars_unicode by done. by rewrite encode_step.
Qed.

(** A string after a round trip: every invalid byte is a U+FFFD. *)
Fixpoint sane_steps (l : list step) : string :=
  match l with [] => "" | x :: l' => sane_step x +:+ sane_steps l' end.

Definition sanitize (s : string) : string := sane_steps (runes s).

Lemma sanitize_valid s : valid_utf8 s = true → sanitize s = s.
Proof.
  unfold sanitize, valid_utf8. intros Hv. rewrite <-(concat_runes s) at 2. revert Hv.
  induction (runes s) as [|x l IH]; simpl; [done|]. unfold sane_step.
  intros [-> Hl]%andb_true_iff. by rewrite IH.
Qed.

Lemma read_chars_steps s fuel rest :
  (length (runes s) < fuel)%nat →
  read_chars fuel (escape_steps (runes s) +:+ String dq rest) = Some (sanitize s, rest).
Proof.
  unfold sanitize. revert fuel. induction s as [|a s u Hu Hr IH] using runes_ind; intros fuel Hf.
  - destruct fuel; [simpl in Hf; lia|]. done.
  - rewrite Hr in *. simpl in Hf. destruct fuel as [|fuel]; [lia|]. cbn [escape_steps sane_steps].
    rewrite str_app_assoc, read_chars_step, IH by lia. done.
Qed.

Lemma escape_step_pos x : (0 < String.length (st_bytes x))%nat → (0 < String.length (escape_step x))%nat.
Proof. unfold escape_step, unicode_escape, hex4. repeat case_match; simpl; lia. Qed.

Lemma escape_steps_length s : (length (runes s) ≤ String.length (escape_steps (runes s)))%nat.
Proof.
  induction s as [|a s u Hu Hr IH] using runes_ind; [simpl; lia|]. rewrite Hr. cbn [escape_steps length].
  rewrite str_length_app. pose proof (escape_step_pos _ (step_bytes_pos a s)). lia.
Qed.

Lemma read_string_quote s rest : read_string (quote s +:+ rest) = Some (sanitize s, rest).
Proof.
  unfold quote, read_string. change (String dq ?x +:+ rest) with (String dq (x +:+ rest)). cbv iota.
  change (Ascii.eqb dq dq) with true. cbv iota. rewrite str_app_assoc.
  apply read_chars_steps. pose proof (escape_steps_length s). simpl. rewrite !str_length_app. simpl. lia.
Qed.

(** ** Values read back *)

(** The numbers the encoder writes: integers. *)
Fixpoint json_wf (j : json) : Prop :=
  match j with
  | JNum t => ∃ n, t = itoa n
  | JArr l => Forall id (json_wf <$> l)
  | JObj ms => Forall id ((λ m : string * json, json_wf (m.2)) <$> ms)
  | _ => True
  end.

Definition max_list (l : list Z) : Z := foldr Z.max 0 l.

Fixpoint json_depth (j : json) : Z :=
  match j with
  | JArr l => 1 + max_list (json_depth <$> l)
  | JObj ms => 1 + max_list ((λ m : string * json, json_depth (m.2)) <$> ms)
  | _ => 0
  end.

(** The value the reader builds of a written one. *)
Fixpoint json_sane (j : json) : json :=
  match j with
  | JStr s => JStr (sanitize s)
  | JArr l => JArr (json_sane <$> l)
  | JObj ms => JObj ((λ m : string * json, (sanitize (m.1), json_sane (m.2))) <$> ms)
  | _ => j
  end.

(** Calls of the reader for a value. *)
Fixpoint json_weight (j : json) : nat :=
  match j with
  | JArr l => S (sum_list (S <$> (json_weight <$> l)))
  | JObj ms => S (sum_list (S <$> ((λ m : string * json, json_weight (m.2)) <$> ms)))
  | _ => 1
  end.

Lemma max_list_cons x l : max_list (x :: l) = Z.max x (max_list l).
Proof. done. Qed.

Lemma max_list_nonneg l : (0 ≤ max_list l)%Z.
Proof. induction l; simpl; lia. Qed.

Lemma json_depth_nonneg j : (0 ≤ json_depth j)%Z.
Proof.
  assert (∀ l, (0 ≤ 1 + max_list l)%Z) by (intros l; pose proof (max_list_nonneg l); lia).
  destruct j; simpl; auto; lia.
Qed.

Lemma str_join_cons x y l sep : str_join (x :: y :: l) sep = x +:+ sep +:+ str_join (y :: l) sep.
Proof. done. Qed.

Definition print_member (m : string * json) : string := quote (m.1) +:+ ":" +:+ print (m.2).

Lemma print_arr l : print (JArr l) = "[" +:+ str_join (print <$> l) "," +:+ "]".
Proof. done. Qed.

Lemma print_obj ms : print (JObj ms) = "{" +:+ str_join (print_member <$> ms) "," +:+ "}".
Proof. done. Qed.

(** A written value starts with a byte that is neither space nor a closing bracket. *)
Lemma print_head j :
  json_wf j → ∃ a r, print j = String a r ∧ is_ws a = false ∧ Ascii.eqb a "]" = false.
Proof.
  destruct j as [|[]|t|s|l|ms]; simpl; try (intros; by eexists _, _).
  intros [n ->]. destruct (itoa_head n) as (a & r & -> & Ha). exists a, r. split; [done|].
  destruct Ha as [->|Ha]; [done|]. apply is_digit_range in Ha. unfold digit_val in Ha.
  assert (∀ b, byte_val b < 48 ∨ 57 < byte_val b → Ascii.eqb a b = false)%Z as Hne.
  { intros b Hb. apply Ascii.eqb_neq. intros ->. lia. }
  unfold is_ws. by rewrite !Hne by (vm_compute; auto).
Qed.

Lemma skip_ws_head a r : is_ws a = false → skip_ws (String a r) = String a r.
Proof. simpl. by intros ->. Qed.

Lemma skip_ws_print j rest : json_wf j → skip_ws (print j +:+ rest) = print j +:+ rest.
Proof. intros Hj. destruct (print_head j Hj) as (a & r & -> & Hw & _). by apply skip_ws_head. Qed.

Lemma expect_head a r : is_ws a = false → expect a (String a r) = Some r.
Proof. intros Hw. unfold expect. rewrite skip_ws_head by done. by rewrite Ascii.eqb_refl. Qed.

Lemma expect_other a b r : is_ws b = false → Ascii.eqb b a = false → expect a (String b r) = None.
Proof. intros Hw Hb. unfold expect. rewrite skip_ws_head by done. by rewrite Hb. Qed.

(** Reading back the elements of an array and the members of an object, once
    their values read back. *)
Definition reads_back (j : json) : Prop :=
  ∀ fuel depth rest,
    json_wf j → (0 ≤ depth)%Z → (depth + json_depth j ≤ maxNestingDepth)%Z →
    number_end rest = true → (json_weight j ≤ fuel)%nat →
    read_value fuel depth (print j +:+ rest) = Some (json_sane j, rest).

Lemma read_elements_print l : 
  Forall reads_back l → ∀ fuel depth rest,
    l ≠ [] → Forall json_wf l → (0 ≤ depth)%Z → (depth + max_list (json_depth <$> l) ≤ maxNestingDepth)%Z →
    (sum_list (S <$> (json_weight <$> l)) ≤ fuel)%nat →
    read_elements fuel depth (str_join (print <$> l) "," +:+ String "]" rest) = Some (json_sane <$> l, rest).
Proof.
  induction l as [|x l IH]; intros HP fuel depth rest Hne Hwf Hd Hmax Hfuel; [done|].
  apply Forall_cons_1 in HP as [Hx HP]. apply Forall_cons_1 in Hwf as [Hwx Hwf].
  rewrite fmap_cons, max_list_cons in Hmax. rewrite !fmap_cons in Hfuel. cbn [sum_list foldr] in Hfuel.
  destruct fuel as [|fuel]; [simpl in Hfuel; lia|]. cbn [read_elements].
  destruct l as [|y l].
  - cbn [fmap list_fmap str_join]. rewrite Hx by (done || (simpl in *; lia)). cbn [mbind option_bind].
    rewrite expect_other by done. by rewrite expect_head.
  - rewrite !(fmap_cons print). rewrite str_join_cons, !str_app_assoc.
    change ("," +:+ ?s) with (String ","%char s).
    rewrite Hx by (done || (simpl in *; lia)). cbn [mbind option_bind]. rewrite expect_head by done.
    rewrite <-(fmap_cons print). rewrite IH by (done || (simpl in *; lia)). done.
Qed.

Lemma read_members_print (ms : list (string * json)) :
  Forall (λ m, reads_back (m.2)) ms → ∀ fuel depth rest,
    ms ≠ [] → Forall (λ m, json_wf (m.2)) ms → (0 ≤ depth)%Z →
    (depth + max_list ((λ m : string * json, json_depth (m.2)) <$> ms) ≤ maxNestingDepth)%Z →
    (sum_list (S <$> ((λ m : string * json, json_weight (m.2)) <$> ms)) ≤ fuel)%nat →
    read_members fuel depth (str_join (print_member <$> ms) "," +:+ String "}" rest)
    = Some ((λ m : string * json, (sanitize (m.1), json_sane (m.2))) <$> ms, rest).
Proof.
  induction ms as [|[k x] ms IH]; intros HP fuel depth rest Hne Hwf Hd Hmax Hfuel; [done|].
  apply Forall_cons_1 in HP as [Hx HP]. apply Forall_cons_1 in Hwf as [Hwx Hwf]. cbn [snd] in *.
  rewrite fmap_cons, max_list_cons in Hmax. rewrite !fmap_cons in Hfuel. cbn [sum_list foldr snd] in *.
  destruct fuel as [|fuel]; [simpl in Hfuel; lia|]. cbn [read_members].
  assert (∀ more, number_end more = true →
    read_string (skip_ws (print_member (k, x) +:+ more)) = Some (sanitize k, String ":" (print x +:+ more)) ∧
    read_value fuel depth (print x +:+ more) = Some (json_sane x, more)) as Hm.
  { intros more Hmore. split; [|apply Hx; (done || (simpl in *; lia))].
    unfold print_member. rewrite !str_app_assoc. cbn [fst snd].
    assert (skip_ws (quote k +:+ ":" +:+ print x +:+ more) = quote k +:+ ":" +:+ print x +:+ more) as ->.
    { by apply skip_ws_head. }
    apply read_string_quote. }
  destruct ms as [|y ms].
  - cbn [fmap list_fmap str_join]. destruct (Hm (String "}" rest)) as [-> Hv]; [done|].
    cbn [mbind option_bind]. rewrite expect_head by done. cbn [mbind option_bind]. rewrite Hv.
    cbn [mbind option_bind]. rewrite expect_other by done. by rewrite expect_head.
  - rewrite !(fmap_cons print_member). rewrite str_join_cons, !str_app_assoc.
    change ("," +:+ ?s) with (String ","%char s).
    match goal with |- context [print_member (k, x) +:+ ?m] => destruct (Hm m) as [-> Hv]; [done|] end.
    cbn [mbind option_bind]. rewrite expect_head by done. cbn [mbind option_bind]. rewrite Hv.
    cbn [mbind option_bind]. rewrite expect_head by done.
    rewrite <-(fmap_cons print_member). rewrite IH by (done || (simpl in *; lia)). done.
Qed.

Lemma read_print_value j : reads_back j.
Proof.
  induction j as [|b|t|s|l HP|ms HP] using json_nested_ind;
    intros fuel depth rest Hwf Hd Hmax Hr Hfuel;
    (destruct fuel as [|fuel]; [simpl in Hfuel; lia|]); cbn [read_value]; rewrite skip_ws_print by done.
  - done.
  - by destruct b.
  - destruct Hwf as [n ->]. cbn [print]. pose proof (read_number_itoa n rest Hr) as Hn.
    destruct (itoa_head n) as (a & r & He & Ha). rewrite He in *. cbn [String.append] in *.
    rewrite Hn. clear Hn He. destruct Ha as [->|Ha]; [done|]. apply is_digit_range in Ha. unfold digit_val in Ha.
    assert (∀ b, byte_val b < 48 ∨ 57 < byte_val b → Ascii.eqb a b = false)%Z as Hne.
    { intros b Hb. apply Ascii.eqb_neq. intros ->. lia. }
    by rewrite !Hne by (vm_compute; auto).
  - cbn [print json_sane]. pose proof (read_string_quote s rest) as Hs. unfold quote in *.
    cbn [String.append] in *. change (Ascii.eqb dq dq) with true. cbv iota. by rewrite Hs.
  - rewrite print_arr, !str_app_assoc. change ("[" +:+ ?s) with (String "[" s).
    change ("]" +:+ rest) with (String "]" rest). cbv iota.
    change (Ascii.eqb "[" dq) with false. change (Ascii.eqb "[" "{") with false. change (Ascii.eqb "[" "[") with true.
    cbv iota. cbn [json_depth] in Hmax. pose proof (max_list_nonneg (json_depth <$> l)).
    rewrite (proj2 (Z.leb_gt maxNestingDepth depth)) by lia.
    destruct l as [|x l]; [done|]. cbn [json_wf] in Hwf. rewrite Forall_fmap in Hwf.
    assert (expect "]" (str_join (print <$> x :: l) "," +:+ String "]" rest) = None) as ->.
    { destruct (print_head x) as (a & r & Hp & Hw & Ha); [by inversion Hwf|].
      destruct l; cbn [fmap list_fmap str_join]; rewrite Hp; by apply expect_other. }
    rewrite read_elements_print; [done|done|done|exact Hwf|lia|lia|cbn [json_weight] in Hfuel; lia].
  - rewrite print_obj, !str_app_assoc. change ("{" +:+ ?s) with (String "{" s).
    change ("}" +:+ rest) with (String "}" rest). cbv iota.
    change (Ascii.eqb "{" dq) with false. change (Ascii.eqb "{" "{") with true.
    cbv iota. cbn [json_depth] in Hmax.
    pose proof (max_list_nonneg ((λ m : string * json, json_depth (m.2)) <$> ms)).
    rewrite (proj2 (Z.leb_gt maxNestingDepth depth)) by lia.
    destruct ms as [|[k x] ms]; [done|]. cbn [json_wf] in Hwf. rewrite Forall_fmap in Hwf.
    assert (expect "}" (str_join (print_member <$> (k, x) :: ms) "," +:+ String "}" rest) = None) as ->.
    { destruct ms; by apply expect_other. }
    rewrite read_members_print; [done|done|done|exact Hwf|lia|lia|cbn [json_weight] in Hfuel; lia].
Qed.

(** ** Lengths *)

Lemma quote_length s : (2 ≤ String.length (quote s))%nat.
Proof. unfold quote. simpl. rewrite str_length_app. simpl. lia. Qed.

Lemma join_length {A} (f : A → string) (w : A → nat) l :
  Forall (λ x, w x ≤ String.length (f x))%nat l → l ≠ [] →
  (sum_list (S <$> (w <$> l)) ≤ S (String.length (str_join (f <$> l) ",")))%nat.
Proof.
  induction 1 as [|x l Hx Hl IH]; intros Hne; [done|]. destruct l as [|y l].
  - simpl in *. lia.
  - rewrite !(fmap_cons f). rewrite str_join_cons, <-(fmap_cons f), !str_length_app.
    specialize (IH ltac:(done)). generalize dependent (String.length (str_join (f <$> y :: l) ",")).
    simpl in *. lia.
Qed.

Lemma json_weight_length j : json_wf j → (json_weight j ≤ String.length (print j))%nat.
Proof.
  induction j as [|b|t|s|l HP|ms HP] using json_nested_ind; intros Hwf.
  - simpl. lia.
  - destruct b; simpl; lia.
  - destruct (print_head (JNum t) Hwf) as (a & r & -> & _). simpl. lia.
  - cbn [print json_weight]. pose proof (quote_length s). lia.
  - rewrite print_arr, !str_length_app. cbn [json_weight String.length].
    cbn [json_wf] in Hwf. rewrite Forall_fmap in Hwf.
    destruct l as [|x l]; [simpl; lia|]. pose proof (join_length print json_weight (x :: l)) as Hj.
    assert (Forall (λ x, json_weight x ≤ String.length (print x))%nat (x :: l)) as Hall.
    { apply Forall_forall. rewrite !Forall_forall in *. intros y Hy. apply HP; [done|]. by apply (Hwf y). }
    specialize (Hj Hall ltac:(done)). lia.
  - rewrite print_obj, !str_length_app. cbn [json_weight String.length].
    cbn [json_wf] in Hwf. rewrite Forall_fmap in Hwf.
    destruct ms as [|x ms]; [simpl; lia|].
    pose proof (join_length print_member (λ m : string * json, json_weight (m.2)) (x :: ms)) as Hj.
    assert (Forall (λ m : string * json, json_weight (m.2) ≤ String.length (print_member m))%nat (x :: ms)) as Hall.
    { apply Forall_forall. rewrite !Forall_forall in *. intros y Hy. unfold print_member.
      rewrite !str_length_app. specialize (HP _ Hy (Hwf _ Hy)). simpl in *. lia. }
    specialize (Hj Hall ltac:(done)). lia.
Qed.

(** Reading a written value, whatever whitespace follows. *)
Lemma read_document_print j :
  json_wf j → (json_depth j ≤ maxNestingDepth)%Z → read_document (print j) = Some (json_sane j).
Proof.
  intros Hwf Hd. unfold read_document. pose proof (json_weight_length j Hwf) as Hw.
  pose proof (read_print_value j (2 * S (String.length (print j)))%nat 0 "" Hwf) as H.
  rewrite str_app_nil_r in H. rewrite H; [done|lia|lia|done|lia].
Qed.

(** A value whose strings are valid UTF-8 reads back as itself. *)
Fixpoint json_valid (j : json) : Prop :=
  match j with
  | JStr s => valid_utf8 s = true
  | JArr l => Forall id (json_valid <$> l)
  | JObj ms => Forall id ((λ m : string * json, valid_utf8 (m.1) = true ∧ json_valid (m.2)) <$> ms)
  | _ => True
  end.

Lemma json_sane_valid j : json_valid j → json_sane j = j.
Proof.
  induction j as [|b|t|s|l HP|ms HP] using json_nested_ind; intros Hv; try done.
  - simpl. by rewrite sanitize_valid.
  - cbn [json_sane json_valid] in *. f_equal. rewrite Forall_fmap in Hv.
    rewrite <-(list_fmap_id l) at 2. apply list_fmap_ext. intros i x Hx%list_elem_of_lookup_2.
    rewrite !Forall_forall in *. apply HP; [done|]. by apply (Hv x).
  - cbn [json_sane json_valid] in *. f_equal. rewrite Forall_fmap in Hv.
    rewrite <-(list_fmap_id ms) at 2. apply list_fmap_ext. intros i [k x] Hx%list_elem_of_lookup_2.
    rewrite !Forall_forall in *. destruct (Hv _ Hx) as [Hk Hvx]. simpl in *.
    rewrite sanitize_valid by done. f_equal. exact (HP _ Hx Hvx).
Qed.

(** ** A written value is one line *)

Definition printable (a : ascii) : bool := (32 <=? byte_val a)%Z.

Lemma printable_no_newline s : str_all printable s = true → index_byte s newline = None.
Proof.
  induction s as [|a s IH]; [done|]. simpl. intros [Ha Hs]%andb_true_iff.
  rewrite index_byte_cons, IH by done. destruct (Ascii.eqb a newline) eqn:Hn; [|done].
  apply Ascii.eqb_eq in Hn as ->. done.
Qed.

Lemma step_printable a s :
  st_ok (decode1 a s) = true → (32 ≤ st_rune (decode1 a s))%Z → str_all printable (st_bytes (decode1 a s)) = true.
Proof.
  unfold decode1, bad, printable.
  repeat case_match; cbn [st_ok st_rune st_bytes str_all]; intros; try done;
    unfold utf8_2, utf8_3, utf8_4, is_cont in *;
    repeat match goal with
    | H : _ && _ = true |- _ => apply andb_true_iff in H as []
    | H : _ || _ = true |- _ => apply orb_true_iff in H as []
    | H : in_range _ _ _ = true |- _ => apply in_range_spec in H
    end; bool_hyps; rewrite !(proj2 (Z.leb_le _ _)) by lia; done.
Qed.

Lemma hex_digit_printable d : (0 ≤ d < 16)%Z → printable (hex_digit d) = true.
Proof.
  intros. unfold printable, hex_digit. rewrite byte_val_of by (case_match; lia).
  apply Z.leb_le. case_match; lia.
Qed.

Lemma hex4_printable r : (0 ≤ r < 65536)%Z → str_all printable (hex4 r) = true.
Proof.
  intros. unfold hex4. cbn [str_all].
  rewrite !hex_digit_printable; [done|..]; Z.to_euclidean_division_equations; lia.
Qed.

Lemma escape_step_printable a s : str_all printable (escape_step (decode1 a s)) = true.
Proof.
  unfold escape_step. destruct (st_ok _) eqn:Hok; [|done].
  pose proof (st_rune_nonneg a s Hok) as Hr.
  destruct (short_escape _) as [c|] eqn:Hs.
  - revert Hs. unfold short_escape. by repeat (case_match; [intros [= <-]|]).
  - destruct (needs_unicode _) eqn:Hu.
    + unfold unicode_escape. cbn [str_all]. rewrite hex4_printable; [done|].
      unfold needs_unicode in Hu. repeat (apply orb_true_iff in Hu as [Hu|Hu]); bool_hyps; lia.
    + apply step_printable; [done|]. unfold needs_unicode in Hu. bool_hyps. lia.
Qed.

Lemma quote_printable s : str_all printable (quote s) = true.
Proof.
  unfold quote. cbn [str_all]. rewrite str_all_app. cbn [str_all].
  assert (str_all printable (escape_steps (runes s)) = true) as ->; [|done].
  induction s as [|a s u Hu Hr IH] using runes_ind; [done|]. rewrite Hr. cbn [escape_steps].
  by rewrite str_all_app, escape_step_printable, IH.
Qed.

Lemma join_printable l : Forall (λ s, str_all printable s = true) l → str_all printable (str_join l ",") = true.
Proof.
  induction 1 as [|x l Hx Hl IH]; [done|]. destruct l; [done|].
  rewrite str_join_cons, !str_all_app, Hx, IH. done.
Qed.

Lemma print_printable j : json_wf j → str_all printable (print j) = true.
Proof.
  induction j as [|b|t|s|l HP|ms HP] using json_nested_ind; intros Hwf.
  - done.
  - by destruct b.
  - destruct Hwf as [n ->]. cbn [print]. unfold itoa.
    assert (∀ d, str_all is_digit d = true → str_all printable d = true) as Hd.
    { induction d as [|a d IH]; [done|]. cbn [str_all]. intros [Ha Hd]%andb_true_iff. rewrite IH by done.
      unfold printable, is_digit in *. bool_hyps. by rewrite (proj2 (Z.leb_le 32 _)) by lia. }
    destruct (n <? 0)%Z eqn:Hn; bool_hyps; [rewrite str_all_app|];
      (rewrite (Hd (itoa_nonneg _)); [done|]); apply itoa_nonneg_all; lia.
  - apply quote_printable.
  - rewrite print_arr, !str_all_app. cbn [json_wf] in Hwf. rewrite Forall_fmap in Hwf.
    rewrite join_printable; [done|]. apply Forall_fmap. rewrite !Forall_forall in *.
    intros x Hx. apply HP; [done|]. by apply (Hwf x).
  - rewrite print_obj, !str_all_app. cbn [json_wf] in Hwf. rewrite Forall_fmap in Hwf.
    rewrite join_printable; [done|]. apply Forall_fmap. rewrite !Forall_forall in *.
    intros [k x] Hx. change (str_all printable (print_member (k, x)) = true). unfold print_member. cbn [fst snd]. rewrite !str_all_app, quote_printable.
    cbn [str_all andb]. rewrite (HP _ Hx : json_wf x → str_all printable (print x) = true); [done|].
    by apply (Hwf _ Hx).
Qed.

Lemma print_no_newline j : json_wf j → index_byte (print j) newline = None.
Proof. intros. by apply printable_no_newline, print_printable. Qed.

(** ** The reader never runs out of fuel *)

(** [r] is shorter than [s], what every piece of the grammar leaves. *)
Definition shorter {A} (n : nat) (x : option (A * string)) : Prop :=
  ∀ v r, x = Some (v, r) → (String.length r < n)%nat.

Lemma shorter_bind {A B} n m (x : option (A * string)) (f : A → string → option (B * string)) :
  shorter n x → (∀ a r, (String.length r < n)%nat → shorter m (f a r)) →
  shorter m ('(a, r) ← x; f a r).
Proof. intros Hx Hf v r. destruct x as [[a s]|]; [|done]. simpl. apply Hf. by eapply Hx. Qed.

Lemma shorter_mono {A} n m (x : option (A * string)) : (n ≤ m)%nat → shorter n x → shorter m x.
Proof. intros Hle H v r Hr. specialize (H v r Hr). lia. Qed.

Lemma skip_ws_length s : (String.length (skip_ws s) ≤ String.length s)%nat.
Proof. induction s as [|a s IH]; simpl; [lia|]. case_match; simpl; lia. Qed.

Lemma expect_length a s r : expect a s = Some r → (String.length r < String.length s)%nat.
Proof.
  unfold expect. pose proof (skip_ws_length s). destruct (skip_ws s) as [|b t]; [done|].
  case_match; [|done]. intros [= <-]. simpl in *. lia.
Qed.

Lemma read_hex4_length s v r : read_hex4 s = Some (v, r) → (String.length r < String.length s)%nat.
Proof.
  destruct s as [|a [|b [|c [|d s]]]]; try done. cbn [read_hex4].
  destruct (hex_val a), (hex_val b), (hex_val c), (hex_val d); try done. intros [= _ <-]. simpl. lia.
Qed.

Lemma read_surrogate_length v s : (String.length (snd (read_surrogate v s)) ≤ String.length s)%nat.
Proof.
  unfold read_surrogate. destruct s as [|a [|b s]]; simpl; try lia.
  case_match; simpl; [|lia]. destruct (read_hex4 s) as [[lo t]|] eqn:Hh; simpl; [|lia].
  apply read_hex4_length in Hh. case_match; simpl; lia.
Qed.

(** The recursive calls of [read_chars] are on shorter strings; with more fuel
    than bytes the fuel does not matter. *)
Lemma read_chars_fuel fuel : ∀ s,
  shorter (String.length s) (read_chars fuel s) ∧
  ∀ more, (String.length s < fuel)%nat → read_chars (fuel + more) s = read_chars fuel s.
Proof.
  induction fuel as [|fuel IH]; intros s; [split; [done|lia]|]. cbn [read_chars Nat.add].
  assert (∀ p s', (String.length s' < String.length s)%nat →
    shorter (String.length s) (prepend p (read_chars fuel s')) ∧
    ∀ more, (String.length s < S fuel)%nat →
      prepend p (read_chars (fuel + more) s') = prepend p (read_chars fuel s')) as Hrec.
  { intros p s' Hlt. destruct (IH s') as [Hs Hf]. split.
    - intros v r. unfold prepend. destruct (read_chars fuel s') as [[w t]|]; [|done].
      intros [= _ <-]. specialize (Hs _ _ eq_refl). lia.
    - intros more Hle. by rewrite Hf by lia. }
  destruct s as [|a r]; [done|].
  destruct (Ascii.eqb a dq); [split; [intros v t [= _ <-]; simpl; lia|done]|].
  destruct (Ascii.eqb a backslash).
  { destruct r as [|e r]; [done|]. destruct (read_short e); [apply Hrec; simpl; lia|].
    destruct (Ascii.eqb e "u"); [|done].
    destruct (read_hex4 r) as [[v t]|] eqn:Hh; [|done]. apply read_hex4_length in Hh. cbn [mbind option_bind].
    destruct (in_range 55296 57343 v); [|apply Hrec; simpl; lia].
    pose proof (read_surrogate_length v t). destruct (read_surrogate v t) as [w u].
    apply Hrec. simpl in *. lia. }
  destruct (byte_val a <? 32)%Z; [done|]. apply Hrec.
  pose proof (step_bytes_pos a r). rewrite str_length_drop. simpl. lia.
Qed.

Lemma read_string_length s : shorter (String.length s) (read_string s).
Proof.
  intros v r. destruct s as [|a s]; [done|]. cbn [read_string]. case_match; [|done].
  intros Hr. apply read_chars_fuel in Hr. simpl. lia.
Qed.

Lemma take_digits_length s : (String.length (snd (take_digits s)) ≤ String.length s)%nat.
Proof.
  induction s as [|a s IH]; simpl; [lia|]. case_match; [|simpl; lia].
  destruct (take_digits s). simpl in *. lia.
Qed.

Lemma read_tail_length s :
  (∀ f r, read_fraction s = Some (f, r) → String.length r ≤ String.length s)%nat ∧
  (∀ f r, read_exponent s = Some (f, r) → String.length r ≤ String.length s)%nat.
Proof.
  split; intros f r; destruct s as [|a s]; simpl; try (intros [= _ <-]; simpl; lia).
  - case_match; [|intros [= _ <-]; simpl; lia]. pose proof (take_digits_length s).
    destruct (take_digits s) as [d t]. case_match; [done|]. intros [= _ <-]. simpl in *. lia.
  - case_match; [|intros [= _ <-]; simpl; lia].
    destruct s as [|b s]; [simpl; done|].
    destruct (Ascii.eqb b "+" || Ascii.eqb b "-").
    + pose proof (take_digits_length s). destruct (take_digits s) as [d t]. case_match; [done|].
      intros [= _ <-]. simpl in *. lia.
    + pose proof (take_digits_length (String b s)). destruct (take_digits (String b s)) as [d t].
      case_match; [done|]. intros [= _ <-]. simpl in *. lia.
Qed.

Lemma read_int_length s v r : read_int s = Some (v, r) → (String.length r < String.length s)%nat.
Proof.
  destruct s as [|a s]; [done|]. cbn [read_int]. case_match; [intros [= _ <-]; simpl; lia|].
  destruct (is_digit a) eqn:Ha; [|done]. cbn [take_digits]. rewrite Ha.
  pose proof (take_digits_length s). destruct (take_digits s). intros [= _ <-]. simpl in *. lia.
Qed.

Lemma read_number_length s : shorter (String.length s) (read_number s).
Proof.
  intros v r. unfold read_number.
  assert (∀ sign s', (String.length s' ≤ String.length s)%nat →
    ('(i, s) ← read_int s'; '(f, s) ← read_fraction s; '(e, s) ← read_exponent s;
     Some (sign +:+ i +:+ f +:+ e, s)) = Some (v, r) → (String.length r < String.length s)%nat) as H.
  { intros sign s' Hle. destruct (read_int s') as [[i s1]|] eqn:Hi; [|done]. apply read_int_length in Hi. simpl.
    destruct (read_fraction s1) as [[f s2]|] eqn:Hf; [|done]. apply (proj1 (read_tail_length s1)) in Hf. simpl.
    destruct (read_exponent s2) as [[e s3]|] eqn:He; [|done]. apply (proj2 (read_tail_length s2)) in He. simpl.
    intros [= _ <-]. lia. }
  destruct s as [|a s]; [done|]. destruct (Ascii.eqb a "-"); apply H; simpl; lia.
Qed.

Lemma read_literal_length w j s : (0 < String.length w)%nat → shorter (String.length s) (read_literal w j s).
Proof.
  intros Hw v r. unfold read_literal. destruct (has_prefix s w) eqn:Hp; [|done]. intros [= _ <-].
  apply has_prefix_spec in Hp as [t ->]. rewrite str_drop_app, str_length_app. lia.
Qed.

(** A reader of one kind at one fuel: it leaves less than it was given, and
    with [k] calls more than two per byte the fuel does not matter. *)
Definition fuel_ok {A} (k fuel : nat) (read : nat → string → option (A * string)) (s : string) : Prop :=
  shorter (String.length s) (read fuel s) ∧
  ((2 * String.length s + k ≤ fuel)%nat → ∀ more, read (fuel + more)%nat s = read fuel s).

Definition readers_ok (fuel : nat) : Prop := ∀ d s,
  fuel_ok 1 fuel (λ f, read_value f d) s ∧
  fuel_ok 2 fuel (λ f, read_elements f d) s ∧
  fuel_ok 2 fuel (λ f, read_members f d) s.

Lemma fuel_ok_bind {A B} k fuel (g : nat → string → option (A * string)) (wrap : A → B) s s' :
  fuel_ok 2 fuel g s → (String.length s < String.length s')%nat → (k = 1)%nat →
  fuel_ok k (S fuel) (λ f _, '(a, r) ← g (Nat.pred f) s; Some (wrap a, r)) s'.
Proof.
  intros [Hs Hf] Hlt ->. split.
  - intros v r. cbn [Nat.pred]. destruct (g fuel s) as [[a t]|]; [|done]. intros [= _ <-].
    specialize (Hs _ _ eq_refl). lia.
  - intros Hle more. cbn [Nat.pred Nat.add]. by rewrite Hf by lia.
Qed.

Lemma read_value_fuel fuel d s : readers_ok fuel → fuel_ok 1 (S fuel) (λ f, read_value f d) s.
Proof.
  intros IH. pose proof (skip_ws_length s) as Hws.
  assert (∀ x : option (json * string), shorter (String.length (skip_ws s)) x →
    shorter (String.length s) x) as Hmono by (intros x; apply shorter_mono; lia).
  unfold fuel_ok. cbn [read_value Nat.add]. destruct (skip_ws s) as [|a r] eqn:Hs; [done|].
  destruct (Ascii.eqb a dq).
  { split; [|done]. apply Hmono. intros v t. pose proof (read_string_length (String a r)) as Hl.
    destruct (read_string _) as [[w u]|]; [|done]. intros [= _ <-]. by apply (Hl w). }
  destruct (Ascii.eqb a "{").
  { destruct (_ <=? _)%Z; [done|]. destruct (expect "}" r) as [u|] eqn:He.
    - split; [|done]. intros v t [= _ <-]. apply expect_length in He. simpl in *. lia.
    - destruct (IH (d + 1)%Z r) as (_ & _ & Hm).
      destruct (fuel_ok_bind 1 fuel (λ f, read_members f (d + 1)) JObj r (String a r)) as [H1 H2];
        [done|simpl; lia|done|].
      split; [by apply Hmono|]. intros Hle more. apply H2. lia. }
  destruct (Ascii.eqb a "[").
  { destruct (_ <=? _)%Z; [done|]. destruct (expect "]" r) as [u|] eqn:He.
    - split; [|done]. intros v t [= _ <-]. apply expect_length in He. simpl in *. lia.
    - destruct (IH (d + 1)%Z r) as (_ & Hm & _).
      destruct (fuel_ok_bind 1 fuel (λ f, read_elements f (d + 1)) JArr r (String a r)) as [H1 H2];
        [done|simpl; lia|done|].
      split; [by apply Hmono|]. intros Hle more. apply H2. lia. }
  split; [|by repeat case_match]. apply Hmono.
  repeat (case_match; [apply read_literal_length; simpl; lia|]).
  intros v t. pose proof (read_number_length (String a r)) as Hl.
  destruct (read_number _) as [[w u]|]; [|done]. intros [= _ <-]. by apply (Hl w).
Qed.

(** What follows a value in an array or an object. *)
Lemma fuel_ok_tail {A B} (fuel n : nat) (g : nat → string → option (list A * string))
    (v : A) (close : ascii) (r : string) (wrap : list A → B) :
  (∀ s, (String.length s < String.length r)%nat → fuel_ok 2 fuel g s) → (String.length r ≤ n)%nat →
  let tail f := match expect "," r with
                | Some r => '(l, r) ← g f r; Some (v :: l, r)
                | None => r ← expect close r; Some ([v], r)
                end in
  shorter n (tail fuel) ∧ ((2 * n + 1 ≤ fuel)%nat → ∀ more, tail (fuel + more)%nat = tail fuel).
Proof.
  intros Hg Hn tail. unfold tail. destruct (expect "," r) as [t|] eqn:He.
  - apply expect_length in He. destruct (Hg t He) as [Hs Hf]. split.
    + intros l u. destruct (g fuel t) as [[l' u']|]; [|done]. intros [= _ <-].
      specialize (Hs _ _ eq_refl). lia.
    + intros Hle more. by rewrite Hf by lia.
  - split; [|done]. intros l u. destruct (expect close r) as [u'|] eqn:Hc; [|done].
    intros [= _ <-]. apply expect_length in Hc. lia.
Qed.

Lemma read_elements_fuel fuel d s : readers_ok fuel → fuel_ok 2 (S fuel) (λ f, read_elements f d) s.
Proof.
  intros IH. unfold fuel_ok. cbn [read_elements Nat.add]. destruct (IH d s) as ([Hs Hf] & _ & _). cbn beta in Hs, Hf.
  destruct (read_value fuel d s) as [[v r]|] eqn:Hv; cbn [mbind option_bind].
  - specialize (Hs _ _ eq_refl).
    destruct (fuel_ok_tail fuel (String.length s) (λ f, read_elements f d) v "]" r id) as [H1 H2];
      [intros t _; apply IH|lia|].
    split; [done|]. intros Hle more. rewrite Hf by lia. cbn [mbind option_bind]. apply H2. lia.
  - split; [done|]. intros Hle more. by rewrite Hf by lia.
Qed.

Lemma read_members_fuel fuel d s : readers_ok fuel → fuel_ok 2 (S fuel) (λ f, read_members f d) s.
Proof.
  intros IH. unfold fuel_ok. cbn [read_members Nat.add].
  pose proof (skip_ws_length s) as Hws. pose proof (read_string_length (skip_ws s)) as Hk.
  destruct (read_string (skip_ws s)) as [[k r]|]; [|done]. specialize (Hk _ _ eq_refl). cbn [mbind option_bind].
  destruct (expect ":" r) as [t|] eqn:He; [|done]. apply expect_length in He. cbn [mbind option_bind].
  destruct (IH d t) as ([Hs Hf] & _ & _). cbn beta in Hs, Hf.
  destruct (read_value fuel d t) as [[v u]|] eqn:Hv; cbn [mbind option_bind].
  - specialize (Hs _ _ eq_refl).
    destruct (fuel_ok_tail fuel (String.length s) (λ f, read_members f d) (k, v) "}" u id) as [H1 H2];
      [intros w _; apply IH|lia|].
    split; [done|]. intros Hle more. rewrite Hf by lia. cbn [mbind option_bind]. apply H2. lia.
  - split; [done|]. intros Hle more. by rewrite Hf by lia.
Qed.

Lemma readers_fuel fuel : readers_ok fuel.
Proof.
  induction fuel as [|fuel IH]; intros d s.
  - split; [|split]; (split; [done|intros; lia]).
  - split; [by apply read_value_fuel|]. split; [by apply read_elements_fuel|by apply read_members_fuel].
Qed.

(** The reference reader, with all the fuel one likes. *)
Definition read_document_with (fuel : nat) (data : string) : option json :=
  '(v, r) ← read_value fuel 0 data;
  if str_is_empty (skip_ws r) then Some v else None.

Lemma read_document_fuel fuel data :
  (2 * S (String.length data) ≤ fuel)%nat → read_document_with fuel data = read_document data.
Proof.
  intros Hle. unfold read_document_with, read_document.
  destruct (readers_fuel (2 * S (String.length data))%nat 0 data) as ([_ Hf] & _).
  replace fuel with (2 * S (String.length data) + (fuel - 2 * S (String.length data)))%nat by lia.
  cbn beta in Hf. rewrite Hf by lia. done.
Qed.

(** The reader of JSON documents is total and decides: it never gives up
    for lack of fuel, so that [None] always means the text is refused; and it
    inverts the writer: a document the encoder wrote, nested no deeper than the
    decoder's limit, reads back as the value written, each invalid byte of its
    strings turned into U+FFFD, and itself when they are valid UTF-8. *)
Theorem json_roundtrip j fuel data :
  json_wf j → (json_depth j ≤ maxNestingDepth)%Z →
  (2 * S (String.length data) ≤ fuel)%nat →
  read_document_with fuel data = read_document data ∧
  read_document (print j) = Some (json_sane j) ∧
  (json_valid j → read_document (print j) = Some j).
Proof.
  intros Hwf Hd Hf. split; [by apply read_document_fuel|].
  rewrite read_document_print by done. split; [done|]. intros Hv. by rewrite json_sane_valid.
Qed.

Lemma json_roundtrip_witness :
  read_document (print (JObj [("a", JArr [JNum "-7"; JStr ("<" +:+ String dq "" +:+ String "255" "")])]))
  = Some (JObj [("a", JArr [JNum "-7"; JStr ("<" +:+ String dq "" +:+ rune_error_str)])]).
Proof.
  apply (json_roundtrip (JObj [("a", JArr [JNum "-7"; JStr ("<" +:+ String dq "" +:+ String "255" "")])]) 2 "");
    [|done|simpl; lia].
  repeat constructor. by exists (-7)%Z.
Defined.

(** ** Text without escapes *)

Definition plain (a : ascii) : bool :=
  let b := byte_val a in
  (32 <=? b)%Z && (b <? 128)%Z && negb (existsb (Z.eqb b) [34; 92; 60; 62; 38]%Z).

Lemma escape_plain a s :
  plain a = true → escape_step (decode1 a s) = String a "" ∧ runes (String a s) = decode1 a s :: runes s.
Proof.
  intros Hp. unfold plain in Hp. bool_hyps. cbn [existsb] in *. repeat (bool_hyps; try match goal with H : _ || _ = false |- _ => apply orb_false_iff in H as [? ?] end).
  destruct (runes_cons a s) as (u & Hu & Hr).
  assert (decode1 a s = {| st_rune := byte_val a; st_bytes := String a ""; st_ok := true |}) as Hd.
  { unfold decode1. by rewrite (proj2 (Z.ltb_lt _ 128)) by done. }
  rewrite Hd in *. cbn [st_bytes String.append] in Hu. injection Hu as <-. split; [|done].
  unfold escape_step, short_escape, needs_unicode. cbn [st_ok st_rune st_bytes].
  repeat match goal with |- context [(byte_val a =? ?k)%Z] =>
    rewrite (proj2 (Z.eqb_neq (byte_val a) k)) by lia end.
  by rewrite (proj2 (Z.ltb_ge _ _)) by lia.
Qed.

Lemma quote_plain s : str_all plain s = true → quote s = String dq (s +:+ String dq "").
Proof.
  intros Hs. unfold quote. do 2 f_equal. induction s as [|a s IH]; [done|].
  cbn [str_all] in Hs. apply andb_true_iff in Hs as [Ha Hs]. destruct (escape_plain a s Ha) as [He ->].
  cbn [escape_steps]. by rewrite He, IH.
Qed.
