(* ===== verification/Base64.v ===== *)
(** * Base64: how [encoding/json] carries a [[]byte]

    [base64.StdEncoding] as the encoder writes it and the decoder reads it
    (line ends ignored, padding required), with its round trip. *)

From S2P Require Import Prelude GoStr.
From Stdlib Require Import Ascii.
Open Scope Z_scope.
Open Scope string_scope.
Open Scope list_scope.

(** The standard alphabet. *)
Definition sextet_char (v : Z) : ascii :=
  byte_of (if (v <? 26)%Z then 65 + v
           else if (v <? 52)%Z then 71 + v
           else if (v <? 62)%Z then v - 4
           else if (v =? 62)%Z then 43 else 47).

Definition sextet_val (a : ascii) : option Z :=
  let z := byte_val a in
  if (65 <=? z)%Z && (z <=? 90)%Z then Some (z - 65)
  else if (97 <=? z)%Z && (z <=? 122)%Z then Some (z - 71)
  else if (48 <=? z)%Z && (z <=? 57)%Z then Some (z + 4)
  else if (z =? 43)%Z then Some 62
  else if (z =? 47)%Z then Some 63
  else None.

Definition pad : ascii := "=".

(** [EncodeToString] *)
Fixpoint base64_encode (s : string) : string :=
  match s with
  | "" => ""
  | String a "" =>
      let v := byte_val a in
      String (sextet_char (v / 4)) (String (sextet_char (v mod 4 * 16)) (String pad (String pad "")))
  | String a (String b "") =>
      let v := byte_val a * 256 + byte_val b in
      String (sextet_char (v / 1024)) (String (sextet_char (v / 16 mod 64))
        (String (sextet_char (v mod 16 * 4)) (String pad "")))
  | String a (String b (String c r)) =>
      let v := byte_val a * 65536 + byte_val b * 256 + byte_val c in
      String (sextet_char (v / 262144)) (String (sextet_char (v / 4096 mod 64))
        (String (sextet_char (v / 64 mod 64)) (String (sextet_char (v mod 64)) (base64_encode r))))
  end.

Fixpoint strip_line_ends (s : string) : string :=
  match s with
  | "" => ""
  | String a s' =>
      if Ascii.eqb a "010" || Ascii.eqb a "013" then strip_line_ends s' else String a (strip_line_ends s')
  end.

Fixpoint decode_quanta (s : string) : option string :=
  match s with
  | "" => Some ""
  | String a (String b (String c (String d r))) =>
      va ← sextet_val a; vb ← sextet_val b;
      if Ascii.eqb c pad then
        if Ascii.eqb d pad && str_is_empty r then Some (String (byte_of (va * 4 + vb / 16)) "") else None
      else
        vc ← sextet_val c;
        let first := byte_of (va * 4 + vb / 16) in
        let second := byte_of (vb mod 16 * 16 + vc / 4) in
        if Ascii.eqb d pad then
          if str_is_empty r then Some (String first (String second "")) else None
        else
          vd ← sextet_val d;
          rest ← decode_quanta r;
          Some (String first (String second (String (byte_of (vc mod 4 * 64 + vd)) rest)))
  | _ => None
  end.

(** [DecodeString] *)
Definition base64_decode (s : string) : option string := decode_quanta (strip_line_ends s).

(** ** [base64.RawURLEncoding]: two other characters, and no padding *)

Definition url_char (a : ascii) : ascii := if Ascii.eqb a "+" then "-" else if Ascii.eqb a "/" then "_" else a.

Definition url_back (a : ascii) : option ascii :=
  if Ascii.eqb a "-" then Some "+"%char
  else if Ascii.eqb a "_" then Some "/"%char
  else if Ascii.eqb a "+" || Ascii.eqb a "/" || Ascii.eqb a pad then None else Some a.

Fixpoint without_pad (s : string) : string :=
  match s with
  | "" => ""
  | String a s' => if Ascii.eqb a pad then without_pad s' else String (url_char a) (without_pad s')
  end.

Definition raw_url_encode (s : string) : string := without_pad (base64_encode s).

Fixpoint url_standard (s : string) : option string :=
  match s with
  | "" => Some ""
  | String a s' => b ← url_back a; t ← url_standard s'; Some (String b t)
  end.

(** The padding that the length asks for. *)
Definition padded (s : string) : option string :=
  match (String.length s mod 4)%nat with
  | 0%nat => Some s
  | 2%nat => Some (s +:+ "==")
  | 3%nat => Some (s +:+ "=")
  | _ => None
  end.

Definition raw_url_decode (s : string) : option string :=
  t ← url_standard (strip_line_ends s); p ← padded t; decode_quanta p.

(** ** The round trip *)

Lemma sextet_val_char v : (0 ≤ v < 64)%Z → sextet_val (sextet_char v) = Some v.
Proof.
  intros Hv. unfold sextet_val, sextet_char.
  rewrite byte_val_of by (repeat case_match; bool_hyps; lia).
  repeat match goal with |- context [(?a <? ?b)%Z] => destruct (a <? b)%Z eqn:?; bool_hyps end.
  - rewrite !(proj2 (Z.leb_le _ _)) by lia. simpl. f_equal. lia.
  - rewrite (proj2 (Z.leb_gt (71 + v) 90)), andb_false_r by lia. rewrite !(proj2 (Z.leb_le _ _)) by lia.
    simpl. f_equal. lia.
  - rewrite (proj2 (Z.leb_gt 65 _)), (proj2 (Z.leb_gt 97 _)) by lia. rewrite !(proj2 (Z.leb_le _ _)) by lia.
    simpl. f_equal. lia.
  - destruct (decide (v = 62)%Z) as [->|]; [done|]. assert (v = 63)%Z as -> by lia. done.
Qed.

Lemma sextet_char_plain v :
  (0 ≤ v < 64)%Z →
  Ascii.eqb (sextet_char v) pad = false ∧ Ascii.eqb (sextet_char v) "010" = false ∧ Ascii.eqb (sextet_char v) "013" = false.
Proof.
  intros Hv. pose proof (sextet_val_char v Hv) as Hs.
  repeat split; apply Ascii.eqb_neq; intros He; rewrite He in Hs; done.
Qed.

Lemma byte_ind3 (P : string → Prop) :
  P "" → (∀ a, P (String a "")) → (∀ a b, P (String a (String b ""))) →
  (∀ a b c r, P r → P (String a (String b (String c r)))) → ∀ s, P s.
Proof.
  intros H0 H1 H2 H3 s. enough (P s ∧ (∀ a, P (String a s)) ∧ ∀ a b, P (String a (String b s))) by tauto.
  induction s as [|c s (IH0 & IH1 & IH2)]; repeat split; auto.
Qed.

(** The group arithmetic: digits of a number in base 64 and in base 256. *)
Lemma sextet_range v :
  (0 ≤ v < 16777216)%Z →
  (0 ≤ v / 262144 < 64 ∧ 0 ≤ v / 4096 mod 64 < 64 ∧ 0 ≤ v / 64 mod 64 < 64 ∧ 0 ≤ v mod 64 < 64)%Z.
Proof. intros. repeat split; Z.to_euclidean_division_equations; lia. Qed.

Lemma strip_sextet v s : (0 ≤ v < 64)%Z → strip_line_ends (String (sextet_char v) s) = String (sextet_char v) (strip_line_ends s).
Proof. intros Hv. destruct (sextet_char_plain v Hv) as (_ & H1 & H2). cbn [strip_line_ends]. by rewrite H1, H2. Qed.

Lemma base64_roundtrip s : base64_decode (base64_encode s) = Some s.
Proof.
  unfold base64_decode. induction s as [|a|a b|a b c r IH] using byte_ind3; [done|..]; cbn [base64_encode];
    pose proof (byte_val_range a) as Ha; try (pose proof (byte_val_range b) as Hb);
    try (pose proof (byte_val_range c) as Hc).
  - rewrite !strip_sextet by (Z.to_euclidean_division_equations; lia).
    cbn [decode_quanta strip_line_ends]. change (strip_line_ends (String pad (String pad ""))) with (String pad (String pad "")).
    cbv iota. rewrite !sextet_val_char by (Z.to_euclidean_division_equations; lia). cbn [mbind option_bind].
    change (Ascii.eqb pad pad) with true. cbn [andb str_is_empty]. repeat f_equal.
    rewrite <-(byte_of_val a). f_equal. rewrite byte_val_of by lia. Z.to_euclidean_division_equations; lia.
  - set (v := (byte_val a * 256 + byte_val b)%Z).
    rewrite !strip_sextet by (unfold v; Z.to_euclidean_division_equations; lia).
    change (strip_line_ends (String pad "")) with (String pad ""). cbn [decode_quanta].
    rewrite !sextet_val_char by (unfold v; Z.to_euclidean_division_equations; lia). cbn [mbind option_bind].
    rewrite (proj1 (sextet_char_plain (v mod 16 * 4) ltac:(Z.to_euclidean_division_equations; lia))).
    change (Ascii.eqb pad pad) with true. cbn [str_is_empty].
    rewrite <-(byte_of_val a), <-(byte_of_val b). unfold v.
    repeat f_equal; rewrite ?byte_val_of by lia; Z.to_euclidean_division_equations; lia.
  - set (v := (byte_val a * 65536 + byte_val b * 256 + byte_val c)%Z).
    destruct (sextet_range v) as (H1 & H2 & H3 & H4); [unfold v; lia|].
    rewrite !strip_sextet by done. cbn [decode_quanta]. rewrite !sextet_val_char by done. cbn [mbind option_bind].
    rewrite (proj1 (sextet_char_plain _ H3)), (proj1 (sextet_char_plain _ H4)), IH. cbn [mbind option_bind].
    rewrite <-(byte_of_val a), <-(byte_of_val b), <-(byte_of_val c). unfold v.
    repeat f_equal; rewrite ?byte_val_of by lia; Z.to_euclidean_division_equations; lia.
Qed.

(** ** The text *)

Lemma base64_encode_all (P : ascii → bool) s :
  P pad = true → (∀ v, (0 ≤ v < 64)%Z → P (sextet_char v) = true) → str_all P (base64_encode s) = true.
Proof.
  intros Hpad Hs. induction s as [|a|a b|a b c r IH] using byte_ind3; [done|..]; cbn [base64_encode str_all];
    pose proof (byte_val_range a) as Ha; try (pose proof (byte_val_range b) as Hb);
    try (pose proof (byte_val_range c) as Hc).
  - rewrite !Hs, Hpad by (Z.to_euclidean_division_equations; lia). done.
  - rewrite !Hs, Hpad by (Z.to_euclidean_division_equations; lia). done.
  - destruct (sextet_range (byte_val a * 65536 + byte_val b * 256 + byte_val c)) as (? & ? & ? & ?); [lia|].
    by rewrite !Hs by done.
Qed.

Lemma base64_encode_length s : slen (base64_encode s) = ((slen s + 2) / 3 * 4)%Z.
Proof.
  induction s as [|a|a b|a b c r IH] using byte_ind3; [done..|]. unfold slen in *.
  cbn [base64_encode String.length]. rewrite !Nat2Z.inj_succ, IH.
  set (n := Z.of_nat (String.length r)). replace (Z.succ (Z.succ (Z.succ n)) + 2)%Z with (1 * 3 + (n + 2))%Z by lia.
  rewrite Z.div_add_l by done. lia.
Qed.

(** ** The URL alphabet *)

Lemma url_sextet v : (0 ≤ v < 64)%Z →
  Ascii.eqb (sextet_char v) pad = false ∧ url_back (url_char (sextet_char v)) = Some (sextet_char v) ∧
  Ascii.eqb (url_char (sextet_char v)) "010" = false ∧ Ascii.eqb (url_char (sextet_char v)) "013" = false.
Proof.
  intros Hv.
  assert (Forall (λ v, Ascii.eqb (sextet_char v) pad = false ∧ url_back (url_char (sextet_char v)) = Some (sextet_char v) ∧
    Ascii.eqb (url_char (sextet_char v)) "010" = false ∧ Ascii.eqb (url_char (sextet_char v)) "013" = false) (seqZ 0 64)) as H
    by (repeat constructor).
  rewrite Forall_forall in H. apply H, elem_of_seqZ. lia.
Qed.

Fixpoint no_pad (s : string) : string :=
  match s with
  | "" => ""
  | String a s' => if Ascii.eqb a pad then no_pad s' else String a (no_pad s')
  end.

(** Text of the alphabet, and padding. *)
Inductive sextets : string → Prop :=
| sextets_nil : sextets ""
| sextets_pad s : sextets s → sextets (String pad s)
| sextets_char v s : (0 ≤ v < 64)%Z → sextets s → sextets (String (sextet_char v) s).

Lemma encode_sextets s : sextets (base64_encode s).
Proof.
  induction s as [|a|a b|a b c r IH] using byte_ind3; cbn [base64_encode]; [constructor|..];
    pose proof (byte_val_range a) as Ha; try (pose proof (byte_val_range b) as Hb); try (pose proof (byte_val_range c) as Hc);
    repeat first [apply sextets_pad|apply sextets_nil|exact IH|apply sextets_char];
    Z.to_euclidean_division_equations; lia.
Qed.

Lemma sextets_strip s : sextets s → strip_line_ends s = s.
Proof.
  induction 1 as [|s _ IH|v s Hv _ IH]; [done|cbn [strip_line_ends]; simpl; by rewrite IH|]. by rewrite strip_sextet, IH.
Qed.

Lemma sextets_url s : sextets s →
  strip_line_ends (without_pad s) = without_pad s ∧ url_standard (without_pad s) = Some (no_pad s).
Proof.
  induction 1 as [|s _ IH|v s Hv _ [IH1 IH2]]; [done|done|]. destruct (url_sextet v Hv) as (H1 & H2 & H3 & H4).
  cbn [without_pad no_pad]. rewrite H1. cbn [strip_line_ends url_standard]. rewrite H3, H4, H2. simpl. by rewrite IH1, IH2.
Qed.

Lemma no_pad_sextet v s : (0 ≤ v < 64)%Z → no_pad (String (sextet_char v) s) = String (sextet_char v) (no_pad s).
Proof. intros Hv. cbn [no_pad]. by rewrite (proj1 (url_sextet v Hv)). Qed.

Lemma padded_four a b c d s t : padded s = Some t →
  padded (String a (String b (String c (String d s)))) = Some (String a (String b (String c (String d t)))).
Proof.
  unfold padded. cbn [String.length]. set (n := String.length s).
  replace (S (S (S (S n))) mod 4)%nat with (n mod 4)%nat by (change (S (S (S (S n)))) with (4 + n)%nat; by rewrite <- Nat.Div0.add_mod_idemp_l).
  destruct (n mod 4)%nat as [|[|[|[|k]]]]; try done; by intros [= <-].
Qed.

Lemma padded_encode s : padded (no_pad (base64_encode s)) = Some (base64_encode s).
Proof.
  induction s as [|a|a b|a b c r IH] using byte_ind3; cbn [base64_encode]; [done|..];
    pose proof (byte_val_range a) as Ha; try (pose proof (byte_val_range b) as Hb); try (pose proof (byte_val_range c) as Hc);
    rewrite !no_pad_sextet by (Z.to_euclidean_division_equations; lia); [done|done|].
  by apply padded_four.
Qed.

(** The code printed for a key is read back as the key. *)
Lemma raw_url_roundtrip s : raw_url_decode (raw_url_encode s) = Some s.
Proof.
  unfold raw_url_decode, raw_url_encode. destruct (sextets_url _ (encode_sextets s)) as [-> ->]. cbn [mbind option_bind].
  rewrite padded_encode. cbn [mbind option_bind]. pose proof (base64_roundtrip s) as Hr. unfold base64_decode in Hr.
  by rewrite (sextets_strip _ (encode_sextets s)) in Hr.
Qed.
