(* ===== verification/GoTime.v ===== *)
(** * Times as the program prints them

    [time.Time] is a number of nanoseconds since the Unix epoch, in UTC;
    [t.UTC().Format(time.RFC3339)] is its proleptic Gregorian calendar form.
    Durations are nanoseconds. *)

From S2P Require Import Prelude GoStr.
From Stdlib Require Import Ascii.
Open Scope string_scope.
Open Scope list_scope.

Definition second : Z := 1000000000.

(** Year, month and day of a number of days since 1970-01-01. *)
Definition civil_from_days (days : Z) : Z * Z * Z :=
  let z := (days + 719468)%Z in
  let era := (z / 146097)%Z in
  let doe := (z mod 146097)%Z in
  let yoe := ((doe - doe / 1460 + doe / 36524 - doe / 146096) / 365)%Z in
  let doy := (doe - (365 * yoe + yoe / 4 - yoe / 100))%Z in
  let mp := ((5 * doy + 2) / 153)%Z in
  let d := (doy - (153 * mp + 2) / 5 + 1)%Z in
  let m := (if (mp <? 10)%Z then mp + 3 else mp - 9)%Z in
  let y := (yoe + era * 400 + (if (m <=? 2)%Z then 1 else 0))%Z in
  (y, m, d).

(** Decimal digits padded with zeros to [width]. *)
Definition pad_digits (width : nat) (n : Z) : string :=
  let s := itoa_nonneg n in str_repeat "0" (width - String.length s) +:+ s.

Definition format_rfc3339 (t : Z) : string :=
  let secs := (t / second)%Z in
  let '(y, m, d) := civil_from_days (secs / 86400) in
  let r := (secs mod 86400)%Z in
  pad_digits 4 y +:+ "-" +:+ pad_digits 2 m +:+ "-" +:+ pad_digits 2 d +:+ "T"
  +:+ pad_digits 2 (r / 3600) +:+ ":" +:+ pad_digits 2 ((r / 60) mod 60) +:+ ":"
  +:+ pad_digits 2 (r mod 60) +:+ "Z".

Lemma format_rfc3339_epoch : format_rfc3339 0 = "1970-01-01T00:00:00Z".
Proof. reflexivity. Qed.

Lemma format_rfc3339_leap : format_rfc3339 (951827696 * second) = "2000-02-29T12:34:56Z".
Proof. vm_compute. reflexivity. Qed.

(** The fraction of a second of [time.RFC3339Nano]: nine digits without the
    zeros at their end. *)
Fixpoint trim_zeros (s : string) : string :=
  match s with
  | "" => ""
  | String a s' => let t := trim_zeros s' in if str_is_empty t && Ascii.eqb a "0" then "" else String a t
  end.

Definition fraction (nanos : Z) : string :=
  if (nanos =? 0)%Z then "" else "." +:+ trim_zeros (pad_digits 9 nanos).

Definition format_rfc3339_nano (t : Z) : string :=
  trim_suffix (format_rfc3339 t) "Z" +:+ fraction (t mod second) +:+ "Z".

Definition year_of (t : Z) : Z := fst (fst (civil_from_days (t / second / 86400))).

(** [Time.MarshalJSON] of a time in UTC, without its quotes: it fails when the
    year is not of four digits. *)
Definition marshal_time (t : Z) : option string :=
  if (0 <=? year_of t)%Z && (year_of t <=? 9999)%Z then Some (format_rfc3339_nano t) else None.

Lemma format_nano_sample : format_rfc3339_nano (951827696 * second + 120500000) = "2000-02-29T12:34:56.1205Z".
Proof. vm_compute. reflexivity. Qed.

(** [Duration.Milliseconds()]: rounded toward zero. *)
Definition milliseconds (d : Z) : Z := Z.quot d 1000000.

(** Two's complement arithmetic of [int64] and [time.Duration]. *)
Definition wrap64 (z : Z) : Z := ((z + 2 ^ 63) mod 2 ^ 64 - 2 ^ 63)%Z.

Lemma wrap64_id z : (- 2 ^ 63 ≤ z < 2 ^ 63)%Z → wrap64 z = z.
Proof. intros. unfold wrap64. rewrite Z.mod_small by lia. lia. Qed.

(** ** [time.ParseDuration] *)

(** [float64] values above zero, as a mantissa and a power of two: the quotient
    [n / d] rounded to the nearest, ties to even. *)
Definition float := (Z * Z)%type.

Definition float_div (n d : Z) : float :=
  let e := (Z.log2 n - Z.log2 d - 53)%Z in
  let num e := if (e <? 0)%Z then (n * 2 ^ (- e))%Z else n in
  let den e := if (e <? 0)%Z then d else (d * 2 ^ e)%Z in
  let e := if (2 ^ 53 <=? num e / den e)%Z then (e + 1)%Z else e in
  let q := (num e / den e)%Z in
  let r := (2 * (num e mod den e))%Z in
  (if (den e <? r)%Z || (Z.eqb r (den e) && Z.odd q) then (q + 1)%Z else q, e).

(** The product of two of them, and its integer part. *)
Definition float_mul (a b : float) : float :=
  let m := (fst a * fst b)%Z in
  let e := (snd a + snd b)%Z in
  if (e <? 0)%Z then float_div m (2 ^ (- e)) else float_div (m * 2 ^ e) 1.

Definition float_trunc (a : float) : Z :=
  if (snd a <? 0)%Z then (fst a / 2 ^ (- snd a))%Z else (fst a * 2 ^ snd a)%Z.

(** The digits at the start of a string, and the rest. *)
Fixpoint span_digits (s : string) : string * string :=
  match s with
  | "" => ("", "")
  | String a s' => if is_digit a then let '(d, r) := span_digits s' in (String a d, r) else ("", s)
  end.

(** [leadingInt]: [None] on overflow. *)
Definition leadingInt (digits : string) : option Z :=
  let v := digits_val 0 digits in if (2 ^ 63 <? v)%Z then None else Some v.

(** [leadingFraction]: the digits that fit, and the power of ten they count. *)
Fixpoint leadingFraction (x scale : Z) (overflow : bool) (digits : string) : Z * Z :=
  match digits with
  | "" => (x, scale)
  | String a s =>
      let y := (x * 10 + digit_val a)%Z in
      if overflow || ((2 ^ 63 - 1) / 10 <? x)%Z || (2 ^ 63 <? y)%Z then leadingFraction x scale true s
      else leadingFraction y (scale * 10) false s
  end.

(** The characters of a unit: up to a digit or a point. *)
Fixpoint span_unit (s : string) : string * string :=
  match s with
  | "" => ("", "")
  | String a s' => if is_digit a || Ascii.eqb a "." then ("", s) else let '(u, r) := span_unit s' in (String a u, r)
  end.

Definition unit_of (u : string) : option Z :=
  if String.eqb u "ns" then Some 1%Z
  else if String.eqb u "us" || String.eqb u "µs" || String.eqb u "μs" then Some 1000%Z
  else if String.eqb u "ms" then Some 1000000%Z
  else if String.eqb u "s" then Some second
  else if String.eqb u "m" then Some (60 * second)%Z
  else if String.eqb u "h" then Some (3600 * second)%Z
  else None.

(** One number with its unit: its nanoseconds, and the rest. *)
Definition duration_part (s : string) : option (Z * string) :=
  let '(int_digits, s) := span_digits s in
  v ← leadingInt int_digits;
  let '(point, frac_digits, s) :=
    match s with
    | String "." s' => let '(d, r) := span_digits s' in (true, d, r)
    | _ => (false, "", s)
    end in
  if str_is_empty int_digits && str_is_empty frac_digits then None
  else
    let '(u, s) := span_unit s in
    if str_is_empty u then None
    else
      unit ← unit_of u;
      if (2 ^ 63 / unit <? v)%Z then None
      else
        let '(f, scale) := leadingFraction 0 1 false frac_digits in
        let v := (v * unit)%Z in
        let v := if (0 <? f)%Z then (v + float_trunc (float_mul (float_div f 1) (float_div unit scale)))%Z else v in
        if (2 ^ 63 <? v)%Z then None else Some (v, s).

(** The loop over the parts: each takes a byte at least. *)
Fixpoint duration_parts (fuel : nat) (d : Z) (s : string) : option Z :=
  match fuel with
  | O => None
  | S fuel =>
      if str_is_empty s then Some d
      else
        '(v, s) ← duration_part s;
        let d := ((d + v) mod 2 ^ 64)%Z in
        if (2 ^ 63 <? d)%Z then None else duration_parts fuel d s
  end.

Definition ParseDuration (s : string) : option Z :=
  let '(neg, s) :=
    match s with
    | String "-" s' => (true, s')
    | String "+" s' => (false, s')
    | _ => (false, s)
    end in
  if String.eqb s "0" then Some 0%Z
  else if str_is_empty s then None
  else
    d ← duration_parts (S (String.length s)) 0 s;
    if neg then Some (- d)%Z else if (2 ^ 63 - 1 <? d)%Z then None else Some d.

Lemma ParseDuration_samples :
  ParseDuration "10s" = Some (10 * second)%Z ∧ ParseDuration "1h15m30.918273645s" = Some 4530918273645%Z ∧
  ParseDuration "0.3333333333333333333h" = Some 1200000000000%Z ∧ ParseDuration "-1.5h" = Some (-5400000000000)%Z ∧
  ParseDuration "39h9m14.425s" = Some 140954425000000%Z ∧ ParseDuration "9223372036854775808ns" = None ∧
  ParseDuration "0.830103483285477580700h" = Some 2988372539827%Z ∧ ParseDuration "3000000h" = None ∧
  ParseDuration ".s" = None ∧ ParseDuration "1" = None ∧ ParseDuration "" = None.
Proof. vm_compute. done. Qed.
