(* ===== verification/Prog.v ===== *)
(** * Effectful programs

    A Go function that talks to other components is a tree of calls: [Ret r]
    returns, [Vis e k] makes the call [e] and goes on with its answer.  The
    other components are not fixed: a run of the tree is any sequence of
    answers, so what is proved of every run holds for every behaviour of the
    components, failures included.  A monitor reads the calls of a run in
    order and rejects it when a call comes at the wrong time; [safe] is the
    weakest precondition of a monitor. *)

From S2P Require Import Prelude.

Inductive prog (E : Type → Type) (R : Type) : Type :=
| Ret (r : R)
| Vis {X : Type} (e : E X) (k : X → prog E R).
Arguments Ret {E R} r.
Arguments Vis {E R X} e k.

Section prog.
Context {E : Type → Type}.

Fixpoint prog_bind {A B} (f : A → prog E B) (p : prog E A) : prog E B :=
  match p with
  | Ret r => f r
  | Vis e k => Vis e (λ x, prog_bind f (k x))
  end.

#[export] Instance prog_mret : MRet (prog E) := λ A a, Ret a.
#[export] Instance prog_mbind : MBind (prog E) := λ A B f p, prog_bind f p.

Definition trigger {X} (e : E X) : prog E X := Vis e Ret.

(** A call with its answer. *)
Inductive io : Type :=
| IO (X : Type) (e : E X) (x : X).
#[global] Arguments IO {X} e x.

(** [runs p tr r]: the program makes exactly the calls [tr] and returns [r]. *)
Fixpoint runs {R} (p : prog E R) (tr : list io) (r : R) : Prop :=
  match p with
  | Ret r' => tr = [] ∧ r = r'
  | Vis e k => ∃ x tr', tr = IO e x :: tr' ∧ runs (k x) tr' r
  end.

Lemma runs_bind {A B} (p : prog E A) (f : A → prog E B) tr r :
  runs (p ≫= f) tr r ↔ ∃ tr1 tr2 a, tr = tr1 ++ tr2 ∧ runs p tr1 a ∧ runs (f a) tr2 r.
Proof.
  unfold mbind, prog_mbind. revert tr. induction p as [a|X e k IH]; intros tr; simpl.
  - split; [intros H; by exists [], tr, a|]. by intros (? & ? & ? & -> & [-> ->] & ?).
  - split.
    + intros (x & tr' & -> & Hr). apply IH in Hr as (t1 & t2 & a & -> & H1 & H2).
      exists (IO e x :: t1), t2, a. split; [done|]. split; [|done]. by exists x, t1.
    + intros (t1 & t2 & a & -> & (x & t1' & -> & H1) & H2).
      exists x, (t1' ++ t2). split; [done|]. apply IH. by exists t1', t2, a.
Qed.

(** Two programs that make the same calls, and whose results are related. *)
Inductive same {A B} (R : A → B → Prop) : prog E A → prog E B → Prop :=
| same_ret a b : R a b → same R (Ret a) (Ret b)
| same_vis X (e : E X) k k' : (∀ x, same R (k x) (k' x)) → same R (Vis e k) (Vis e k').

Lemma same_refl {A} (p : prog E A) : same eq p p.
Proof. induction p; by constructor. Qed.

Lemma same_bind {A B C D} (R : A → B → Prop) (S : C → D → Prop) p q (f : A → prog E C) (g : B → prog E D) :
  same R p q → (∀ a b, R a b → same S (f a) (g b)) → same S (p ≫= f) (q ≫= g).
Proof. intros Hpq Hfg. induction Hpq as [a b Hab|X e k k' _ IH]; [by apply Hfg|]. constructor. exact IH. Qed.

(** The same first part, inside what follows it. *)
Lemma same_inside {A B C D G} (R : D → G → Prop) (p : prog E A) (f : A → prog E B) (g : B → prog E D)
    (f' : A → prog E C) (g' : C → prog E G) :
  (∀ a, same R (f a ≫= g) (f' a ≫= g')) → same R ((p ≫= f) ≫= g) ((p ≫= f') ≫= g').
Proof. intros Hfg. induction p as [a|X e k IH]; [apply Hfg|]. constructor. exact IH. Qed.

(** Every call of the program is one of those [P] allows. *)
Fixpoint only (P : ∀ X, E X → bool) {R} (p : prog E R) : Prop :=
  match p with
  | Ret _ => True
  | Vis e k => P _ e = true ∧ ∀ x, only P (k x)
  end.

Lemma only_bind P {A B} (p : prog E A) (f : A → prog E B) : only P p → (∀ a, only P (f a)) → only P (p ≫= f).
Proof.
  unfold mbind, prog_mbind. intros Hp Hf. induction p as [a|X e k IH]; simpl in *; [by apply Hf|].
  destruct Hp as [He Hk]. split; [done|]. intros x. by apply IH.
Qed.

(** [defer call; p] *)
Definition deferred {A} (p : prog E A) (call : E unit) : prog E A := a ← p; _ ← trigger call; Ret a.

(** What holds of every run: its calls and its result. *)
Definition traced {R} (p : prog E R) (Q : list io → R → Prop) : Prop := ∀ tr r, runs p tr r → Q tr r.

Lemma traced_ret {R} (r : R) (Q : list io → R → Prop) : Q [] r → traced (Ret r) Q.
Proof. by intros HQ tr r' [-> ->]. Qed.

Lemma traced_call {X R} (e : E X) (k : X → prog E R) Q :
  (∀ x, traced (k x) (λ tr, Q (IO e x :: tr))) → traced (trigger e ≫= k) Q.
Proof. intros Hk tr r (x & tr' & -> & Hr). exact (Hk x tr' r Hr). Qed.

Lemma traced_bind {A B} (p : prog E A) (f : A → prog E B) Q :
  traced p (λ t a, traced (f a) (λ t', Q (t ++ t'))) → traced (p ≫= f) Q.
Proof. intros Hp tr r (t1 & t2 & a & -> & H1 & H2)%runs_bind. exact (Hp t1 a H1 t2 r H2). Qed.

Lemma traced_mono {R} (p : prog E R) (Q Q' : list io → R → Prop) : (∀ tr r, Q tr r → Q' tr r) → traced p Q → traced p Q'.
Proof. intros HQ Hp tr r Hr. by apply HQ, Hp. Qed.

Lemma traced_True {R} (p : prog E R) : traced p (λ _ _, True).
Proof. done. Qed.

(** What holds before each call, of the calls before it: [P h e] at the call
    [e] after the calls [h]; and [Q] at the end. *)
Fixpoint audited (P : list io → ∀ X, E X → Prop) {R} (h : list io) (p : prog E R) (Q : list io → R → Prop) : Prop :=
  match p with
  | Ret r => Q h r
  | Vis e k => P h _ e ∧ ∀ x, audited P (h ++ [IO e x]) (k x) Q
  end.

Lemma audited_bind P {A B} h (p : prog E A) (f : A → prog E B) Q :
  audited P h p (λ h' a, audited P h' (f a) Q) → audited P h (p ≫= f) Q.
Proof.
  unfold mbind, prog_mbind. revert h. induction p as [a|X e k IH]; intros h; simpl; [done|].
  intros [He Hk]. split; [done|]. intros x. by apply IH.
Qed.

Lemma audited_mono P {R} h (p : prog E R) (Q Q' : list io → R → Prop) :
  (∀ h' r, Q h' r → Q' h' r) → audited P h p Q → audited P h p Q'.
Proof.
  intros HQ. revert h. induction p as [r|X e k IH]; intros h; simpl; [apply HQ|].
  intros [He Hk]. split; [done|]. intros x. by apply IH.
Qed.

(** A part whose calls [P] allows after [h] and anything more. *)
Lemma audited_only (P : list io → ∀ X, E X → Prop) C {R} h (p : prog E R) (Q : list io → R → Prop) :
  (∀ t X (e : E X), C X e = true → P (h ++ t) X e) → only C p →
  (∀ t r, runs p t r → Q (h ++ t) r) → audited P h p Q.
Proof.
  revert h Q. induction p as [r|X e k IH]; intros h Q HP; simpl.
  - intros _ HQ. rewrite <- (app_nil_r h). by apply HQ.
  - intros [He Hk] HQ. split; [rewrite <- (app_nil_r h); by apply HP|]. intros x. apply IH; [|done|].
    + intros t Y e' He'. rewrite <- (assoc_L (++)). by apply HP.
    + intros t r Hr. rewrite <- (assoc_L (++)). apply HQ. by exists x, t.
Qed.

(** An upper bound on the number of calls of every run. *)
Fixpoint bounded {R} (n : nat) (p : prog E R) {struct p} : Prop :=
  match p with
  | Ret _ => True
  | Vis e k => match n with O => False | S n' => ∀ x, bounded n' (k x) end
  end.

Lemma bounded_mono {R} n m (p : prog E R) : (n ≤ m)%nat → bounded n p → bounded m p.
Proof.
  revert n m. induction p as [r|X e k IH]; intros n m Hle; simpl; [done|].
  destruct n as [|n]; [done|]. destruct m as [|m]; [lia|]. intros H x. apply (IH x n); [lia|apply H].
Qed.

Lemma bounded_bind {A B} n m (p : prog E A) (f : A → prog E B) :
  bounded n p → (∀ a, bounded m (f a)) → bounded (n + m) (p ≫= f).
Proof.
  unfold mbind, prog_mbind. revert n. induction p as [a|X e k IH]; intros n; simpl.
  - intros _ Hf. eapply bounded_mono; [|apply Hf]. lia.
  - destruct n as [|n]; [done|]. intros Hp Hf x. by apply IH.
Qed.

Lemma runs_bounded {R} n (p : prog E R) tr r : bounded n p → runs p tr r → (length tr ≤ n)%nat.
Proof.
  revert n tr. induction p as [r'|X e k IH]; intros n tr; simpl; [intros _ [-> _]; simpl; lia|].
  destruct n as [|n]; [done|]. intros Hb (x & tr' & -> & Hr). simpl.
  specialize (IH x n tr' (Hb x) Hr). lia.
Qed.

(** The run in which every call gets one given answer. *)
Fixpoint answered_by (reply : ∀ X, E X → X) {R} (p : prog E R) : list io * R :=
  match p with
  | Ret r => ([], r)
  | Vis e k => let x := reply _ e in let '(tr, r) := answered_by reply (k x) in (IO e x :: tr, r)
  end.

Lemma answered_by_runs reply {R} (p : prog E R) : runs p (answered_by reply p).1 (answered_by reply p).2.
Proof.
  induction p as [r|X e k IH]; cbn [answered_by]; [done|]. specialize (IH (reply X e)).
  destruct (answered_by reply (k (reply X e))) as [tr r]. by exists (reply X e), tr.
Qed.

(** ** Monitors *)

(** The verdict of a monitor on one call and its answer: go on in a new state,
    reject the program, or give up because the answer breaks what the other
    component promises. *)
Inductive verdict (S : Type) := Next (s : S) | Reject | Broken.
#[global] Arguments Next {S} s.
#[global] Arguments Reject {S}.
#[global] Arguments Broken {S}.

Context {S : Type} (monitor : S → io → verdict S).

Fixpoint safe {R} (s : S) (p : prog E R) (Q : S → R → Prop) : Prop :=
  match p with
  | Ret r => Q s r
  | Vis e k => ∀ x,
      match monitor s (IO e x) with
      | Next s' => safe s' (k x) Q
      | Reject => False
      | Broken => True
      end
  end.

Fixpoint watch (s : S) (tr : list io) : verdict S :=
  match tr with
  | [] => Next s
  | e :: tr => match monitor s e with Next s' => watch s' tr | v => v end
  end.

(** A safe program is never rejected, and ends in a state of its postcondition
    unless a component broke its promise on the way. *)
Lemma safe_runs {R} s (p : prog E R) Q tr r :
  safe s p Q → runs p tr r →
  match watch s tr with Next s' => Q s' r | Reject => False | Broken => True end.
Proof.
  revert s tr. induction p as [r'|X e k IH]; intros s tr; simpl; [by intros ? [-> ->]|].
  intros Hs (x & tr' & -> & Hr). simpl. specialize (Hs x).
  destruct (monitor s (IO e x)); [exact (IH x _ _ Hs Hr)|done|done].
Qed.

(** The same for a run that is cut short: every prefix of the calls. *)
Fixpoint starts {R} (p : prog E R) (tr : list io) : Prop :=
  match tr with
  | [] => True
  | _ :: tr' =>
      match p with
      | Ret _ => False
      | Vis e k => ∃ x, tr = IO e x :: tr' ∧ starts (k x) tr'
      end
  end.

Lemma safe_starts {R} s (p : prog E R) Q tr :
  safe s p Q → starts p tr → watch s tr ≠ Reject.
Proof.
  revert s p. induction tr as [|e0 tr IH]; intros s p; simpl; [done|].
  destruct p as [r|X e k]; [done|]. intros Hs (x & [= ->] & Hr). specialize (Hs x).
  destruct (monitor s (IO e x)); [by eapply IH|done|done].
Qed.

Lemma runs_starts {R} (p : prog E R) tr r : runs p tr r → starts p tr.
Proof.
  revert tr. induction p as [r'|X e k IH]; intros tr; simpl; [by intros [-> _]|].
  intros (x & tr' & -> & Hr). exists x. split; [done|]. by eapply IH.
Qed.

(** Every call of every run, whole or cut short, finds before it what was
    asked. *)
Lemma audited_starts P {R} h (p : prog E R) Q tr t1 X (e : E X) x t2 :
  audited P h p Q → starts p tr → tr = t1 ++ IO e x :: t2 → P (h ++ t1) X e.
Proof.
  revert h p tr. induction t1 as [|a t1 IH]; intros h p tr Hp Hs ->; simpl in *.
  - destruct p as [r|Y e' k]; [done|]. destruct Hs as (y & Hio & _). destruct Hp as [He _]. rewrite app_nil_r.
    apply (f_equal (head (A := io))) in Hio. simpl in Hio.
    change (match IO e x with IO e _ => P h _ e end). by replace (IO e x) with (IO e' y) by congruence.
  - destruct p as [r|Y e' k]; [done|]. destruct Hs as (y & [= ->] & Hr). destruct Hp as [_ Hk].
    replace (h ++ IO e' y :: t1) with ((h ++ [IO e' y]) ++ t1) by by rewrite <- (assoc_L (++)).
    by eapply IH.
Qed.

Lemma safe_bind {A B} s (p : prog E A) (f : A → prog E B) Q :
  safe s p (λ s' a, safe s' (f a) Q) → safe s (p ≫= f) Q.
Proof.
  unfold mbind, prog_mbind. revert s. induction p as [a|X e k IH]; intros s; simpl; [done|].
  intros H x. specialize (H x). destruct (monitor s (IO e x)); [by apply IH|done|done].
Qed.

(** Calls that the monitor accepts in [s] and that leave it there. *)
Lemma safe_only (C : ∀ X, E X → bool) {R} s (p : prog E R) :
  (∀ X (e : E X) x, C X e = true → monitor s (IO e x) = Next s) → only C p → safe s p (λ s' _, s' = s).
Proof.
  intros HC. induction p as [r|X e k IH]; simpl; [done|]. intros [He Hk] x. rewrite HC by done. by apply IH.
Qed.

Lemma safe_mono {R} s (p : prog E R) (Q Q' : S → R → Prop) :
  (∀ s' r, Q s' r → Q' s' r) → safe s p Q → safe s p Q'.
Proof.
  intros HQ. revert s. induction p as [r|X e k IH]; intros s; simpl; [apply HQ|].
  intros H x. specialize (H x). destruct (monitor s (IO e x)); [by apply IH|done|done].
Qed.
End prog.

Arguments io : clear implicits.

(** A program inside one with more calls. *)
Fixpoint embed {E F : Type → Type} (inside : ∀ X, E X → F X) {R} (p : prog E R) : prog F R :=
  match p with Ret r => Ret r | Vis e k => Vis (inside _ e) (λ x, embed inside (k x)) end.

Lemma only_embed {E F : Type → Type} (inside : ∀ X, E X → F X) (C : ∀ X, E X → bool) (D : ∀ X, F X → bool) {R} (p : prog E R) :
  (∀ X e, C X e = true → D X (inside X e) = true) → only C p → only D (embed inside p).
Proof. intros HCD. induction p as [r|X e k IH]; simpl; [done|]. intros [He Hk]. auto. Qed.

(** ** Programs over a world

    When what the other side does is known, it is a state and an answer moves
    it: [answers w e x] is the state after the call [e] when it answers [x], and
    [None] when it cannot answer that. *)
Section world.
Context {E : Type → Type} {W : Type} (answers : ∀ X, W → E X → X → option W).

(** [I] holds after every call, and [Q] of the final state and result. *)
Fixpoint world_keeps {R} (I : W → Prop) (w : W) (p : prog E R) (Q : W → R → Prop) : Prop :=
  match p with
  | Ret r => Q w r
  | Vis e k => ∀ x w', answers _ w e x = Some w' → I w' ∧ world_keeps I w' (k x) Q
  end.

(** [p] runs from [w] to its end; it is cut short, or not, at [w']. *)
Fixpoint world_halts {R} (w : W) (p : prog E R) (w' : W) (r : R) : Prop :=
  match p with
  | Ret r' => w' = w ∧ r = r'
  | Vis e k => ∃ x w1, answers _ w e x = Some w1 ∧ world_halts w1 (k x) w' r
  end.

Fixpoint world_stops {R} (w : W) (p : prog E R) (w' : W) : Prop :=
  w' = w ∨
  match p with
  | Ret _ => False
  | Vis e k => ∃ x w1, answers _ w e x = Some w1 ∧ world_stops w1 (k x) w'
  end.

(** The same with its calls: [p] makes the calls [tr] on the way. *)
Fixpoint world_does {R} (w : W) (p : prog E R) (tr : list (io E)) (w' : W) (r : R) : Prop :=
  match p with
  | Ret r' => tr = [] ∧ w' = w ∧ r = r'
  | Vis e k => ∃ x w1 tr', tr = IO e x :: tr' ∧ answers _ w e x = Some w1 ∧ world_does w1 (k x) tr' w' r
  end.

Lemma does_bind {A B} w (p : prog E A) (f : A → prog E B) tr w' r : world_does w (p ≫= f) tr w' r →
  ∃ t1 w1 a t2, tr = t1 ++ t2 ∧ world_does w p t1 w1 a ∧ world_does w1 (f a) t2 w' r.
Proof.
  unfold mbind, prog_mbind. revert w tr. induction p as [a|X e k IH]; intros w tr; simpl; [intros H; by exists [], w, a, tr|].
  intros (x & w1 & tr' & -> & Ha & Hr). apply IH in Hr as (t1 & w2 & a & t2 & -> & H1 & H2).
  exists (IO e x :: t1), w2, a, t2. split; [done|]. split; [by exists x, w1, t1|done].
Qed.

Lemma does_halts {R} w (p : prog E R) tr w' r : world_does w p tr w' r → world_halts w p w' r.
Proof.
  revert w tr. induction p as [r'|X e k IH]; intros w tr; simpl; [by intros (_ & -> & ->)|].
  intros (x & w1 & tr' & _ & Ha & Hr). exists x, w1. split; [done|by eapply IH].
Qed.

Lemma does_runs {R} w (p : prog E R) tr w' r : world_does w p tr w' r → runs p tr r.
Proof.
  revert w tr. induction p as [r'|X e k IH]; intros w tr; simpl; [by intros (-> & _ & ->)|].
  intros (x & w1 & tr' & -> & Ha & Hr). exists x, tr'. split; [done|by eapply IH].
Qed.

(** Calls that leave the world as it is. *)
Lemma does_only (P : ∀ X, E X → bool) {R} w (p : prog E R) tr w' r :
  (∀ X (e : E X) x w', P X e = true → answers X w e x = Some w' → w' = w) → only P p → world_does w p tr w' r → w' = w.
Proof.
  intros HP. revert tr. induction p as [r'|X e k IH]; intros tr; simpl; [by intros _ (_ & -> & _)|].
  intros [He Hk] (x & w1 & tr' & _ & Ha & Hr). rewrite (HP _ _ _ _ He Ha) in Hr. by eapply IH.
Qed.

Lemma keeps_same {A B} (R : A → B → Prop) I w (p : prog E A) (q : prog E B) Q :
  same R p q → world_keeps I w q Q → world_keeps I w p (λ w' a, ∃ b, R a b ∧ Q w' b).
Proof.
  intros Hpq. revert w. induction Hpq as [a b Hab|X e k k' _ IH]; intros w; simpl; [by exists b|].
  intros H x w' Ha. destruct (H x w' Ha). split; [done|by apply IH].
Qed.

Section keeps.
Context (I : W → Prop).

Lemma keeps_bind {A B} w (p : prog E A) (f : A → prog E B) Q :
  world_keeps I w p (λ w' a, world_keeps I w' (f a) Q) → world_keeps I w (p ≫= f) Q.
Proof.
  unfold mbind, prog_mbind. revert w. induction p as [a|X e k IH]; intros w; simpl; [done|].
  intros H x w' Ha. destruct (H x w' Ha). split; [done|by apply IH].
Qed.

Lemma keeps_mono {R} w (p : prog E R) (Q Q' : W → R → Prop) :
  (∀ w' r, Q w' r → Q' w' r) → world_keeps I w p Q → world_keeps I w p Q'.
Proof.
  intros HQ. revert w. induction p as [r|X e k IH]; intros w; simpl; [apply HQ|].
  intros H x w' Ha. destruct (H x w' Ha). split; [done|by apply IH].
Qed.
End keeps.

(** Calls that leave the world as it is. *)
Lemma keeps_only (P : ∀ X, E X → bool) I w {R} (p : prog E R) :
  (∀ X (e : E X) x w', P X e = true → answers X w e x = Some w' → w' = w) →
  I w → only P p → world_keeps I w p (λ w' r, w' = w ∧ ∃ tr, runs p tr r).
Proof.
  intros HP Hi. induction p as [r|X e k IH]; simpl; [by intros _; split; [|exists []]|].
  intros [He Hk] x w' Ha. assert (w' = w) as -> by eauto. split; [done|].
  eapply keeps_mono; [|by apply IH]. intros w' r [-> (tr & Hr)]. split; [done|]. by exists (IO e x :: tr), x, tr.
Qed.

Lemma world_keeps_mono {R} (I I' : W → Prop) w (p : prog E R) (Q Q' : W → R → Prop) :
  (∀ w', I w' → I' w') → (∀ w' r, Q w' r → Q' w' r) → world_keeps I w p Q → world_keeps I' w p Q'.
Proof.
  intros HI HQ. revert w. induction p as [r|X e k IH]; intros w; simpl; [apply HQ|].
  intros H x w' Ha. destruct (H x w' Ha). split; [by apply HI|by apply IH].
Qed.

Lemma keeps_halts {R} I w (p : prog E R) Q w' r : world_keeps I w p Q → world_halts w p w' r → Q w' r.
Proof.
  revert w. induction p as [r'|X e k IH]; intros w; simpl; [by intros ? [-> ->]|].
  intros H (x & w1 & Ha & Hr). destruct (H x w1 Ha). by eapply IH.
Qed.

Lemma keeps_stops {R} (I : W → Prop) w (p : prog E R) Q w' :
  I w → world_keeps I w p Q → world_stops w p w' → I w'.
Proof.
  revert w. induction p as [r'|X e k IH]; intros w Hi; simpl; [by intros _ [->|[]]|].
  intros H [->|(x & w1 & Ha & Hr)]; [done|]. destruct (H x w1 Ha). by eapply IH.
Qed.

(** The run in which every call gets one given answer: the first [n] calls of
    a program, and all of them. *)
Context (reply : ∀ X, W → E X → X).

Fixpoint world_run_for {R} (n : nat) (w : W) (p : prog E R) {struct p} : option W :=
  match n, p with
  | O, _ => Some w
  | _, Ret _ => Some w
  | S n', Vis e k => w' ← answers _ w e (reply _ w e); world_run_for n' w' (k (reply _ w e))
  end.

Fixpoint world_run {R} (w : W) (p : prog E R) : option (W * R) :=
  match p with
  | Ret r => Some (w, r)
  | Vis e k => w' ← answers _ w e (reply _ w e); world_run w' (k (reply _ w e))
  end.

Lemma run_for_stops {R} n w (p : prog E R) w' : world_run_for n w p = Some w' → world_stops w p w'.
Proof.
  revert n w. induction p as [r|X e k IH]; intros n w; [destruct n; intros [= <-]; by left|].
  destruct n as [|n]; [intros [= <-]; by left|]. cbn [world_run_for]. intros (w1 & Ha & Hr)%bind_Some.
  right. exists (reply _ w e), w1. split; [done|]. by eapply IH.
Qed.

Lemma run_all_halts {R} w (p : prog E R) w' r : world_run w p = Some (w', r) → world_halts w p w' r.
Proof.
  revert w. induction p as [r'|X e k IH]; intros w; [by intros [= <- <-]|].
  cbn [world_run]. intros (w1 & Ha & Hr)%bind_Some. exists (reply _ w e), w1. split; [done|]. by apply IH.
Qed.

Lemma run_all_bind {A B} w (p : prog E A) (f : A → prog E B) :
  world_run w (p ≫= f) = '(w', a) ← world_run w p; world_run w' (f a).
Proof.
  unfold mbind at 1, prog_mbind. revert w. induction p as [a|X e k IH]; intros w; simpl; [done|].
  destruct (answers X w e (reply X w e)); simpl; [apply IH|done].
Qed.
End world.

Arguments run_for_stops {E W answers reply R}.
Arguments run_all_halts {E W answers reply R}.
Arguments run_all_bind {E W answers reply A B}.
Arguments keeps_same {E W answers A B}.
Arguments keeps_only {E W answers}.
Arguments keeps_bind {E W answers}.
Arguments keeps_mono {E W answers}.
Arguments world_keeps_mono {E W answers R}.
Arguments keeps_halts {E W answers R}.
Arguments keeps_stops {E W answers R}.

(** ** Programs that share a world

    Several programs, each with its own name, step one world in any order, and
    one may end at any call.  Each relies on a bound on what the others do;
    [guarded] is the weakest precondition under that bound, and it obliges the
    program to respect the bounds of the others. *)
Section shared.
Context {E : Type → Type} {W N : Type} (acts : N → ∀ X, W → E X → X → option W) (dies : N → W → W).
Context (rely : N → W → W → Prop).

Fixpoint guarded {R} (i : N) (w : W) (p : prog E R) (Q : W → R → Prop) : Prop :=
  match p with
  | Ret r => ∀ w', rely i w w' → Q w' r
  | Vis e k => ∀ w' x w'', rely i w w' → acts i _ w' e x = Some w'' →
      (∀ j, j ≠ i → rely j w' w'') ∧ guarded i w'' (k x) Q
  end.

Context (rely_refl : ∀ i w, rely i w w) (rely_trans : ∀ i w w' w'', rely i w w' → rely i w' w'' → rely i w w'').

Lemma guarded_rely {R} i w w' (p : prog E R) Q : rely i w w' → guarded i w p Q → guarded i w' p Q.
Proof. destruct p as [r|X e k]; simpl; eauto. Qed.

Lemma guarded_mono {R} i w (p : prog E R) (Q Q' : W → R → Prop) :
  (∀ w' r, Q w' r → Q' w' r) → guarded i w p Q → guarded i w p Q'.
Proof.
  intros HQ. revert w. induction p as [r|X e k IH]; intros w; simpl; [by eauto|].
  intros H w' x w'' Hr Ha. destruct (H w' x w'' Hr Ha). split; [done|by apply IH].
Qed.

(** The continuation may start after more interference. *)
Lemma guarded_bind {A B} i w (p : prog E A) (f : A → prog E B) Q :
  guarded i w p (λ w' a, guarded i w' (f a) Q) → guarded i w (p ≫= f) Q.
Proof.
  unfold mbind, prog_mbind. revert w. induction p as [a|X e k IH]; intros w; simpl.
  - intros H. by apply H.
  - intros H w' x w'' Hr Ha. destruct (H w' x w'' Hr Ha). split; [done|by apply IH].
Qed.

(** What a program knows and the others cannot take away; and triples. *)
Definition stable (i : N) (P : W → Prop) : Prop := ∀ w w', P w → rely i w w' → P w'.

Definition triple {R} (i : N) (P : W → Prop) (p : prog E R) (Q : R → W → Prop) : Prop :=
  ∀ w, P w → guarded i w p (λ w' r, Q r w').

Lemma triple_ret {R} i (P : W → Prop) (r : R) (Q : R → W → Prop) :
  stable i P → (∀ w, P w → Q r w) → triple i P (Ret r) Q.
Proof. intros HP HQ w Hw w' Hr. by eapply HQ, HP. Qed.

Lemma triple_bind {A B} i P (p : prog E A) (M : A → W → Prop) (f : A → prog E B) Q :
  triple i P p M → (∀ a, triple i (M a) (f a) Q) → triple i P (p ≫= f) Q.
Proof. intros Hp Hf w Hw. apply guarded_bind. eapply guarded_mono; [|by apply Hp]. intros w' a Ha. by apply Hf. Qed.

Lemma triple_call i P {X} (e : E X) (Q : X → W → Prop) :
  stable i P → (∀ x, stable i (Q x)) →
  (∀ w x w', P w → acts i X w e x = Some w' → (∀ j, j ≠ i → rely j w w') ∧ Q x w') → triple i P (trigger e) Q.
Proof.
  intros HP HQ Hact w Hw w1 x w2 Hr Ha. destruct (Hact w1 x w2 (HP _ _ Hw Hr) Ha) as [Hj Hq].
  split; [done|]. intros w3 Hr'. by eapply HQ.
Qed.

(** A call that leaves the world alone and says [says] of it. *)
Lemma triple_ask i P {X} (e : E X) (Q : X → W → Prop) :
  stable i P → (∀ x, stable i (Q x)) →
  (∀ w x w', P w → acts i X w e x = Some w' → w' = w ∧ Q x w) → triple i P (trigger e) Q.
Proof.
  intros HP HQ Hact. apply triple_call; [done|done|]. intros w x w' Hw Ha.
  destruct (Hact w x w' Hw Ha) as [-> Hq]. by split.
Qed.

Lemma triple_conseq {R} i (P P' : W → Prop) (p : prog E R) (Q Q' : R → W → Prop) :
  (∀ w, P' w → P w) → (∀ r w, Q r w → Q' r w) → triple i P p Q → triple i P' p Q'.
Proof. intros HP HQ Hp w Hw. eapply guarded_mono; [|by apply Hp, HP]. intros w' r. apply HQ. Qed.

Context `{Countable N} {R : Type}.

(** The programs that are running, what those that ended returned. *)
Record system := System {
  sy_world : W;
  sy_running : gmap N (prog E R);
  sy_ended : gmap N R }.

Inductive system_step : system → system → Prop :=
| system_call w ps rs i X (e : E X) k x w' : ps !! i = Some (Vis e k) → acts i X w e x = Some w' →
    system_step (System w ps rs) (System w' (<[i := k x]> ps) rs)
| system_ends w ps rs i r : ps !! i = Some (Ret r) →
    system_step (System w ps rs) (System w (delete i ps) (<[i := r]> rs))
| system_dies w ps rs i : is_Some (ps !! i) →
    system_step (System w ps rs) (System (dies i w) (delete i ps) rs)
| system_dies_later w ps rs i : is_Some (rs !! i) →
    system_step (System w ps rs) (System (dies i w) ps (delete i rs)).

(** One program may run to its end while the others wait. *)
Lemma halts_steps i w p w' r ps rs : ps !! i = Some p → world_halts (acts i) w p w' r →
  rtc system_step (System w ps rs) (System w' (delete i ps) (<[i := r]> rs)).
Proof.
  revert w ps. induction p as [r'|X e k IH]; intros w ps Hp; simpl.
  - intros [-> ->]. apply rtc_once. by apply system_ends.
  - intros (x & w1 & Ha & Hr). eapply rtc_l; [by eapply system_call|].
    rewrite <- (delete_insert_eq ps i (k x)). apply (IH x); [apply lookup_insert_eq|done].
Qed.

(** The run that a schedule names: a call, or the end, of a program each. *)
Fixpoint run_schedule (reply : N → ∀ X, W → E X → X) (schedule : list N) (s : system) : option system :=
  match schedule with
  | [] => Some s
  | i :: schedule =>
      match sy_running s !! i with
      | None => None
      | Some (Ret r) => run_schedule reply schedule (System (sy_world s) (delete i (sy_running s)) (<[i := r]> (sy_ended s)))
      | Some (Vis e k) =>
          let x := reply i _ (sy_world s) e in
          w' ← acts i _ (sy_world s) e x;
          run_schedule reply schedule (System w' (<[i := k x]> (sy_running s)) (sy_ended s))
      end
  end.

Lemma schedule_steps reply schedule s s' : run_schedule reply schedule s = Some s' → rtc system_step s s'.
Proof.
  revert s. induction schedule as [|i schedule IH]; intros [w ps rs]; cbn [run_schedule sy_running sy_world sy_ended]; [by intros [= <-]|].
  destruct (ps !! i) as [[r|X e k]|] eqn:Hi; [|intros (w' & Ha & Hr)%bind_Some|done].
  - intros Hr. eapply rtc_l; [by apply system_ends|by apply IH].
  - eapply rtc_l; [by eapply system_call|by apply IH].
Qed.

Context (dies_rely : ∀ i j w, j ≠ i → rely j w (dies i w)).

Record system_ok (Q : N → W → R → Prop) (s : system) : Prop := {
  so_running i p : sy_running s !! i = Some p → guarded i (sy_world s) p (Q i) ∧ sy_ended s !! i = None;
  so_ended i r : sy_ended s !! i = Some r → ∀ w', rely i (sy_world s) w' → Q i w' r }.

Lemma system_step_ok Q s s' : system_ok Q s → system_step s s' → system_ok Q s'.
Proof.
  intros Hok Hstep. destruct Hstep as [w ps rs i X e k x w' Hp Ha|w ps rs i r Hp|w ps rs i Hp|w ps rs i Hr];
    destruct Hok as [Hrun Hend]; simpl in *.
  - destruct (Hrun i _ Hp) as [Hg Hn]. destruct (Hg w x w' (rely_refl i w) Ha) as [Hothers Hk]. split; simpl.
    + intros j p. destruct (decide (j = i)) as [->|Hne].
      * rewrite lookup_insert_eq. intros [= <-]. by split.
      * rewrite lookup_insert_ne by done. intros [Hj Hjn]%Hrun. split; [|done]. eapply guarded_rely; [by apply Hothers|done].
    + intros j r Hj w1 Hw1. assert (j ≠ i) by congruence. eapply Hend; [done|]. eapply rely_trans; [by apply Hothers|done].
  - destruct (Hrun i _ Hp) as [Hg Hn]. split; simpl.
    + intros j p [Hne Hj]%lookup_delete_Some. rewrite lookup_insert_ne by done. by apply Hrun.
    + intros j r'. destruct (decide (j = i)) as [->|Hne].
      * rewrite lookup_insert_eq. intros [= <-]. apply Hg.
      * rewrite lookup_insert_ne by done. apply Hend.
  - destruct Hp as [p Hp]. destruct (Hrun i p Hp) as [_ Hn]. split; simpl.
    + intros j q [Hne Hj]%lookup_delete_Some. destruct (Hrun j q Hj) as [Hg Hjn]. split; [|done].
      eapply guarded_rely; [by apply dies_rely|done].
    + intros j r Hj w1 Hw1. assert (j ≠ i) by congruence. eapply Hend; [done|]. eapply rely_trans; [by apply dies_rely|done].
  - destruct Hr as [r Hr]. split; simpl.
    + intros j q Hj. destruct (Hrun j q Hj) as [Hg Hjn]. assert (j ≠ i) by congruence.
      split; [eapply guarded_rely; [by apply dies_rely|done]|]. by rewrite lookup_delete_ne.
    + intros j r' [Hne Hj]%lookup_delete_Some w1 Hw1. eapply Hend; [done|]. eapply rely_trans; [by apply dies_rely|done].
Qed.
End shared.
Arguments system : clear implicits.
Arguments triple_ret {E W N acts rely R}.
Arguments triple_bind {E W N acts rely} rely_refl {A B}.
Arguments triple_call {E W N acts rely}.
Arguments triple_ask {E W N acts rely} rely_refl.
Arguments triple_conseq {E W N acts rely R}.
Arguments schedule_steps {E W N acts dies EqDecision0 H R}.

(** ** Worker pools

    [n] goroutines that range over a channel of jobs: a job is taken by a free
    worker in order, the calls of the running jobs interleave in any way, and
    the result of a job is stored at its index. *)
Section pool.
Context {E : Type → Type} {R : Type}.

Record pool := {
  pl_pending : list (nat * prog E R);
  pl_active : list (nat * prog E R);
  pl_results : gmap nat R }.

Inductive pool_step (n : nat) : pool → option (nat * io E) → pool → Prop :=
| pool_take i p pending active results :
    (length active < n)%nat →
    pool_step n {| pl_pending := (i, p) :: pending; pl_active := active; pl_results := results |}
      None
      {| pl_pending := pending; pl_active := active ++ [(i, p)]; pl_results := results |}
| pool_call i X (e : E X) k x before after pending results :
    pool_step n
      {| pl_pending := pending; pl_active := before ++ (i, Vis e k) :: after; pl_results := results |}
      (Some (i, IO e x))
      {| pl_pending := pending; pl_active := before ++ (i, k x) :: after; pl_results := results |}
| pool_done i r before after pending results :
    pool_step n
      {| pl_pending := pending; pl_active := before ++ (i, Ret r) :: after; pl_results := results |}
      None
      {| pl_pending := pending; pl_active := before ++ after; pl_results := <[i := r]> results |}.

Inductive pool_steps (n : nat) : nat → pool → list (nat * io E) → pool → Prop :=
| pool_refl s : pool_steps n 0 s [] s
| pool_next m s l s' tr s'' :
    pool_step n s l s' → pool_steps n m s' tr s'' →
    pool_steps n (S m) s (option_list l ++ tr) s''.

Definition pool_init (jobs : list (prog E R)) : pool := {|
  pl_pending := imap pair jobs; pl_active := []; pl_results := ∅ |}.

Definition pool_finished (s : pool) : Prop := pl_pending s = [] ∧ pl_active s = [].

(** The calls of job [i]. *)
Definition calls_of (i : nat) (tr : list (nat * io E)) : list (io E) :=
  snd <$> filter (λ p, p.1 = i) tr.

(** What each job still has to do, against what it did: from here on, job [i]
    makes the calls [tr] and its result is [r]. *)
Definition pool_owes (s : pool) (i : nat) (tr : list (io E)) (r : R) : Prop :=
  (∃ p, (i, p) ∈ pl_pending s ++ pl_active s ∧ runs p tr r) ∨
  (i ∉ (pl_pending s ++ pl_active s).*1 ∧ pl_results s !! i = Some r ∧ tr = []).

Definition pool_ids (s : pool) : list nat := (pl_pending s ++ pl_active s).*1.

Lemma calls_of_cons i j e tr :
  calls_of i ((j, e) :: tr) = if decide (j = i) then e :: calls_of i tr else calls_of i tr.
Proof. unfold calls_of. rewrite filter_cons. simpl. by case_decide. Qed.

Lemma calls_of_app i tr1 tr2 : calls_of i (tr1 ++ tr2) = calls_of i tr1 ++ calls_of i tr2.
Proof. unfold calls_of. by rewrite filter_app, fmap_app. Qed.

Lemma pool_step_ids n s l s' :
  pool_step n s l s' → NoDup (pool_ids s) →
  NoDup (pool_ids s') ∧
  (∀ i, i ∈ pool_ids s ∨ is_Some (pl_results s !! i) → i ∈ pool_ids s' ∨ is_Some (pl_results s' !! i)).
Proof.
  unfold pool_ids.
  destruct 1 as [i p pend act res Hn|i X e k x bef aft pend res|i r bef aft pend res];
    simpl; rewrite ?fmap_app, ?fmap_cons, ?fmap_app; simpl; intros Hnd.
  - split; [|set_solver]. rewrite (assoc _), (Permutation_app_comm _ [i]). done.
  - split; [done|set_solver].
  - rewrite <- Permutation_middle, (Permutation_app_comm pend.*1), <- app_comm_cons in Hnd.
    inversion_clear Hnd as [|?? Hi Hnd']. split.
    + by rewrite (Permutation_app_comm pend.*1).
    + intros j Hj. destruct (decide (j = i)) as [->|Hne]; [right; rewrite lookup_insert_eq; eauto|].
      rewrite lookup_insert_ne by done. set_solver.
Qed.

Lemma pool_owes_step n s l s' i tr r :
  NoDup (pool_ids s) → pool_step n s l s' → pool_owes s' i tr r →
  pool_owes s i (calls_of i (option_list l) ++ tr) r.
Proof.
  unfold pool_owes. intros Hnd Hstep.
  destruct Hstep as [j p pend act res Hn|j X e k x bef aft pend res|j q bef aft pend res]; simpl in *.
  - intros [(p' & Hin & Hr)|(Hni & Hres & ->)].
    + left. exists p'. split; [set_solver|done].
    + right. split; [|done]. rewrite !fmap_app in *. set_solver.
  - rewrite calls_of_cons. unfold calls_of at 1. simpl.
    assert (∀ p', (j, p') ∉ pend ++ bef ++ aft) as Hj.
    { intros p' Hp'. unfold pool_ids in Hnd. simpl in Hnd. rewrite (assoc _) in Hnd, Hp'.
      rewrite <- Permutation_middle in Hnd. inversion_clear Hnd as [|?? Hni _].
      apply Hni. by apply (list_elem_of_fmap_2' fst _ (j, p') j). }
    intros [(p' & Hin & Hr)|(Hni & Hres & ->)].
    + left. rewrite (assoc _), elem_of_app, elem_of_cons in Hin.
      destruct Hin as [Hin|[[= -> ->]|Hin]].
      * assert (j ≠ i) by (intros ->; apply (Hj p'); set_solver).
        rewrite decide_False by done. exists p'. set_solver.
      * rewrite decide_True by done. exists (Vis e k). split; [set_solver|]. by exists x, tr.
      * assert (j ≠ i) by (intros ->; apply (Hj p'); set_solver).
        rewrite decide_False by done. exists p'. set_solver.
    + right. rewrite !fmap_app, fmap_cons in *. simpl in *.
      rewrite decide_False by set_solver. split; [set_solver|done].
  - intros [(p' & Hin & Hr)|(Hni & Hres & ->)].
    + left. exists p'. set_solver.
    + destruct (decide (i = j)) as [->|Hne].
      * rewrite lookup_insert_eq in Hres. simplify_eq. left. exists (Ret r). split; [set_solver|done].
      * rewrite lookup_insert_ne in Hres by done. right. rewrite !fmap_app, fmap_cons in *.
        simpl. split; [set_solver|done].
Qed.

Lemma pool_steps_owes n m s tr s' i r :
  pool_steps n m s tr s' → NoDup (pool_ids s) → pool_finished s' →
  pl_results s' !! i = Some r → pool_owes s i (calls_of i tr) r.
Proof.
  induction 1 as [s|m s l s1 tr s2 Hst Hsts IH]; intros Hnd Hfin Hres.
  - right. destruct Hfin as [Hp Ha]. rewrite Hp, Ha. split; [set_solver|done].
  - rewrite calls_of_app. eapply pool_owes_step; [done|done|].
    apply IH; [|done..]. by eapply pool_step_ids.
Qed.

Lemma pool_steps_ids n m s tr s' i :
  pool_steps n m s tr s' → NoDup (pool_ids s) →
  i ∈ pool_ids s ∨ is_Some (pl_results s !! i) → i ∈ pool_ids s' ∨ is_Some (pl_results s' !! i).
Proof.
  induction 1 as [s|m s l s1 tr s2 Hst Hsts IH]; [done|]. intros Hnd Hi.
  destruct (pool_step_ids _ _ _ _ Hst Hnd) as [Hnd' Hi']. by apply IH, Hi'.
Qed.

Lemma pool_init_ids (jobs : list (prog E R)) : pool_ids (pool_init jobs) = seq 0 (length jobs).
Proof.
  unfold pool_ids, pool_init. simpl. rewrite app_nil_r. apply list_eq. intros i.
  rewrite list_lookup_fmap, list_lookup_imap. destruct (decide (i < length jobs)%nat) as [Hlt|Hge].
  - rewrite lookup_seq_lt by done. destruct (lookup_lt_is_Some_2 jobs i Hlt) as [p ->]. done.
  - rewrite lookup_seq_ge by lia. rewrite lookup_ge_None_2 by lia. done.
Qed.

(** When the pool is done every job has run exactly once, to its end, and its
    result is at its index. *)
Lemma pool_sound n m (jobs : list (prog E R)) tr s :
  pool_steps n m (pool_init jobs) tr s → pool_finished s →
  ∀ i p, jobs !! i = Some p →
    ∃ r, pl_results s !! i = Some r ∧ runs p (calls_of i tr) r.
Proof.
  intros Hsteps Hfin i p Hp.
  assert (NoDup (pool_ids (pool_init jobs))) as Hnd.
  { rewrite pool_init_ids. apply NoDup_seq. }
  destruct (pool_steps_ids _ _ _ _ _ i Hsteps Hnd) as [Hi|[r Hr]].
  - left. rewrite pool_init_ids. apply elem_of_seq. apply lookup_lt_Some in Hp. lia.
  - destruct Hfin as [Hpe Hac]. unfold pool_ids in Hi. rewrite Hpe, Hac in Hi. set_solver.
  - exists r. split; [done|].
    destruct (pool_steps_owes _ _ _ _ _ i r Hsteps Hnd Hfin Hr) as [(p' & Hin & Hruns)|(_ & Hnone & _)];
      [|done].
    unfold pool_init in Hin. simpl in Hin. rewrite app_nil_r in Hin.
    apply elem_of_lookup_imap in Hin as (j & p2 & [= -> ->] & Hj). by simplify_eq.
Qed.

(** No more than [n] jobs run at a time. *)
Lemma pool_active_bound n m s tr s' :
  pool_steps n m s tr s' → (length (pl_active s) ≤ n)%nat → (length (pl_active s') ≤ n)%nat.
Proof.
  induction 1 as [|m s l s1 tr s2 Hst Hsts IH]; [done|]. intros Hle. apply IH.
  destruct Hst; simpl in *; rewrite ?length_app in *; simpl in *; lia.
Qed.

(** With at least one worker a pool that is not finished can go on, whatever
    the calls answer. *)
Lemma pool_progress n s (answer : ∀ X, E X → X) :
  (0 < n)%nat → (length (pl_active s) ≤ n)%nat → ¬ pool_finished s →
  ∃ l s', pool_step n s l s'.
Proof.
  intros Hn Hle Hnf. destruct s as [pend act res]. simpl in *.
  destruct act as [|[i p] act].
  - destruct pend as [|[i p] pend]; [by destruct Hnf|].
    do 2 eexists. by apply pool_take.
  - destruct p as [r|X e k].
    + do 2 eexists. apply (pool_done n i r []).
    + do 2 eexists. apply (pool_call n i X e k (answer X e) []).
Qed.

(** Every schedule is finite when the jobs are bounded. *)
Definition pool_budget (s : pool) (b : nat) : Prop :=
  ∃ bs : list nat, Forall2 (λ p n, bounded n p.2) (pl_pending s ++ pl_active s) bs ∧
    (sum_list bs + 2 * length (pl_pending s) + length (pl_active s) ≤ b)%nat.

Lemma pool_budget_step n s l s' b :
  pool_step n s l s' → pool_budget s b → ∃ b', (b' < b)%nat ∧ pool_budget s' b'.
Proof.
  unfold pool_budget.
  destruct 1 as [j p pend act res Hn|j X e k x bef aft pend res|j q bef aft pend res]; simpl;
    intros (bs & Hbs & Hsum).
  - exists (b - 1)%nat. split; [lia|].
    inversion Hbs as [|? c ? cs Hp Hcs]; subst. exists (cs ++ [c]).
    rewrite (assoc_L (++)). split; [apply Forall2_app; [done|by repeat constructor]|].
    rewrite sum_list_with_app, length_app. simpl in *. lia.
  - rewrite (assoc_L (++)) in Hbs. apply Forall2_app_inv_l in Hbs as (b1 & b2 & H1 & H2 & ->).
    inversion H2 as [|? c ? cs Hp Hcs]; subst. simpl in Hp. destruct c as [|c]; [done|].
    exists (b - 1)%nat. rewrite sum_list_with_app in Hsum. simpl in Hsum.
    split; [lia|]. exists (b1 ++ c :: cs). rewrite (assoc_L (++)).
    split; [apply Forall2_app; [done|]; constructor; [apply Hp|done]|].
    rewrite sum_list_with_app, !length_app in *. simpl in *. lia.
  - rewrite (assoc_L (++)) in Hbs. apply Forall2_app_inv_l in Hbs as (b1 & b2 & H1 & H2 & ->).
    inversion H2 as [|? c ? cs Hp Hcs]; subst.
    exists (b - 1)%nat. rewrite sum_list_with_app in Hsum.
    rewrite length_app in Hsum. simpl in Hsum.
    split; [lia|]. exists (b1 ++ cs). rewrite (assoc_L (++)).
    split; [by apply Forall2_app|].
    rewrite sum_list_with_app, !length_app in *. simpl in *. lia.
Qed.

Lemma pool_steps_budget n m s tr s' b : pool_steps n m s tr s' → pool_budget s b → (m ≤ b)%nat.
Proof.
  intros Hs. revert b. induction Hs as [|m s l s1 tr s2 Hst Hsts IH]; intros b Hb; [lia|].
  destruct (pool_budget_step _ _ _ _ _ Hst Hb) as (b' & Hlt & Hb').
  specialize (IH _ Hb'). lia.
Qed.

Lemma pool_terminates n m c (jobs : list (prog E R)) tr s :
  Forall (bounded c) jobs → pool_steps n m (pool_init jobs) tr s →
  (m ≤ (c + 2) * length jobs)%nat.
Proof.
  intros Hb Hs. eapply pool_steps_budget; [exact Hs|].
  exists (replicate (length jobs) c). unfold pool_init. simpl. rewrite app_nil_r. split.
  - apply Forall2_same_length_lookup_2; [by rewrite length_imap, length_replicate|].
    intros i [j p] b Hi Hr. apply lookup_replicate in Hr as [-> _].
    rewrite list_lookup_imap in Hi. destruct (jobs !! i) as [q|] eqn:Hq; simplify_eq/=.
    rewrite Forall_lookup in Hb. by eapply Hb.
  - rewrite length_imap.
    assert (sum_list_with id (replicate (length jobs) c) = length jobs * c)%nat as ->; [|lia].
    generalize (length jobs). intros k. induction k as [|k IH]; simpl; [done|]. rewrite IH. lia.
Qed.
End pool.
Arguments pool : clear implicits.
