(* ===== verification/Model.v ===== *)
(** * Shared vocabulary: [internal/model/model.go]

    Statuses, error codes, the coded errors and the request/result records the
    broker, its client and the MCP server exchange.  Go's string-typed
    enumerations stay strings, since values outside the constants travel over
    the wire. *)

From S2P Require Import Prelude GoStr.
Open Scope string_scope.
Open Scope list_scope.

(** ** Statuses and error codes *)

Definition Status := string.
Definition StatusReady : Status := "ready".
Definition StatusLocked : Status := "locked".
Definition StatusCompleted : Status := "completed".
Definition StatusRequiresApproval : Status := "requires_approval".
Definition StatusDenied : Status := "denied".
Definition StatusFailed : Status := "failed".

Definition ErrorCode := string.
Definition CodeAuthentication : ErrorCode := "authentication_failed".
Definition CodeConnection : ErrorCode := "connection_failed".
Definition CodeHostKey : ErrorCode := "host_key_verification_failed".
Definition CodeTimeout : ErrorCode := "timeout".
Definition CodeUnavailableDaemon : ErrorCode := "daemon_unavailable".
Definition CodeLockedVault : ErrorCode := "vault_locked".
Definition CodeValidation : ErrorCode := "validation_failed".
Definition CodeApproval : ErrorCode := "approval_failed".
Definition CodeAudit : ErrorCode := "audit_failed".

(** ** Coded errors *)

Record CodedError := { ce_code : ErrorCode; ce_message : string }.

#[export] Instance CodedError_eq_dec : EqDecision CodedError.
Proof. solve_decision. Defined.

Definition ErrAuthentication := {| ce_code := CodeAuthentication; ce_message := "authentication failed" |}.
Definition ErrConnection := {| ce_code := CodeConnection; ce_message := "remote connection failed" |}.
Definition ErrHostKey := {| ce_code := CodeHostKey; ce_message := "host key verification failed" |}.
Definition ErrTimeout := {| ce_code := CodeTimeout; ce_message := "operation timed out" |}.
Definition ErrUnavailableDaemon := {| ce_code := CodeUnavailableDaemon; ce_message := "broker daemon unavailable" |}.
Definition ErrLockedVault := {| ce_code := CodeLockedVault; ce_message := "credential vault is locked" |}.
Definition ErrValidation := {| ce_code := CodeValidation; ce_message := "request validation failed" |}.
Definition ErrApproval := {| ce_code := CodeApproval; ce_message := "request approval failed" |}.
Definition ErrAudit := {| ce_code := CodeAudit; ce_message := "audit operation failed" |}.

(** A [*CodedError] is a pointer.  The nine package variables live at fixed
    locations; [errors.Is] and [UnmarshalJSON] look at pointers, so the heap is
    explicit. *)
Definition ce_loc := nat.
Definition loc_ErrAuthentication : ce_loc := 0.
Definition loc_ErrConnection : ce_loc := 1.
Definition loc_ErrHostKey : ce_loc := 2.
Definition loc_ErrTimeout : ce_loc := 3.
Definition loc_ErrUnavailableDaemon : ce_loc := 4.
Definition loc_ErrLockedVault : ce_loc := 5.
Definition loc_ErrValidation : ce_loc := 6.
Definition loc_ErrApproval : ce_loc := 7.
Definition loc_ErrAudit : ce_loc := 8.

Abbreviation ce_heap := (gmap nat CodedError).

(** The heap at program start: the [var] block. *)
Definition initial_heap : ce_heap :=
  list_to_map
    [ (loc_ErrAuthentication, ErrAuthentication);
      (loc_ErrConnection, ErrConnection);
      (loc_ErrHostKey, ErrHostKey);
      (loc_ErrTimeout, ErrTimeout);
      (loc_ErrUnavailableDaemon, ErrUnavailableDaemon);
      (loc_ErrLockedVault, ErrLockedVault);
      (loc_ErrValidation, ErrValidation);
      (loc_ErrApproval, ErrApproval);
      (loc_ErrAudit, ErrAudit) ].

Definition codedErrorForCode (code : ErrorCode) : option ce_loc :=
  if String.eqb code CodeAuthentication then Some loc_ErrAuthentication
  else if String.eqb code CodeConnection then Some loc_ErrConnection
  else if String.eqb code CodeHostKey then Some loc_ErrHostKey
  else if String.eqb code CodeTimeout then Some loc_ErrTimeout
  else if String.eqb code CodeUnavailableDaemon then Some loc_ErrUnavailableDaemon
  else if String.eqb code CodeLockedVault then Some loc_ErrLockedVault
  else if String.eqb code CodeValidation then Some loc_ErrValidation
  else if String.eqb code CodeApproval then Some loc_ErrApproval
  else if String.eqb code CodeAudit then Some loc_ErrAudit
  else None.

Definition ErrorForCode (code : ErrorCode) : option ce_loc := codedErrorForCode code.

Definition isCanonicalCodedError (candidate : ce_loc) : bool :=
  Nat.eqb candidate loc_ErrAuthentication || Nat.eqb candidate loc_ErrConnection
  || Nat.eqb candidate loc_ErrHostKey || Nat.eqb candidate loc_ErrTimeout
  || Nat.eqb candidate loc_ErrUnavailableDaemon || Nat.eqb candidate loc_ErrLockedVault
  || Nat.eqb candidate loc_ErrValidation || Nat.eqb candidate loc_ErrApproval
  || Nat.eqb candidate loc_ErrAudit.

(** The methods take a pointer that may be nil. *)
Definition deref (h : ce_heap) (p : option ce_loc) : option CodedError := p ≫= (h !!.).

Definition CodedError_Error (h : ce_heap) (e : option ce_loc) : string :=
  match deref h e with Some v => ce_message v | None => "" end.

Definition CodedError_Code (h : ce_heap) (e : option ce_loc) : ErrorCode :=
  match deref h e with Some v => ce_code v | None => "" end.

(** [target] is [None] when it is not a [*CodedError]; [Some p] carries the
    possibly nil pointer. *)
Definition CodedError_Is (h : ce_heap) (e : option ce_loc) (target : option (option ce_loc)) : bool :=
  match target with
  | None => false
  | Some other =>
      match deref h e, deref h other with
      | Some a, Some b =>
          bool_decide (is_Some (codedErrorForCode (ce_code a)))
          && bool_decide (is_Some (codedErrorForCode (ce_code b)))
          && String.eqb (ce_code a) (ce_code b)
      | _, _ => false
      end
  end.

(** The fields [MarshalJSON] encodes. *)
Definition CodedError_MarshalJSON (h : ce_heap) (e : ce_loc) : option (ErrorCode * string) :=
  (λ v, (ce_code v, ce_message v)) <$> h !! e.

Inductive unmarshal_error := InvalidReceiver | SyntaxError | InvalidCodedError.

(** [wire] is the outcome of decoding the JSON object's [code] member: [None]
    when [json.Unmarshal] fails. *)
Definition CodedError_UnmarshalJSON (h : ce_heap) (e : option ce_loc) (wire : option ErrorCode)
  : result unmarshal_error ce_heap :=
  match e with
  | None => Fail InvalidReceiver
  | Some p =>
      if isCanonicalCodedError p then Fail InvalidReceiver
      else match wire with
      | None => Fail SyntaxError
      | Some code =>
          match codedErrorForCode code ≫= (h !!.) with
          | None => Fail InvalidCodedError
          | Some canonical => Ok (<[p := canonical]> h)
          end
      end
  end.

(** ** Requests and results *)

Record ExecuteRequest := {
  er_server_alias : string;
  er_command : string;
  er_timeout_seconds : Z;
  er_max_output_bytes : Z }.

Record BatchExecuteRequest := {
  br_server_aliases : list string;
  br_all : bool;
  br_command : string;
  br_concurrency : Z;
  br_timeout_seconds : Z;
  br_max_output_bytes : Z }.

Record ApprovedRequest := { ar_approval_id : string; ar_approval_code : string }.

Record ApprovalInfo := {
  ai_id : string;
  ai_code : string;
  ai_message : string;
  ai_expires_at : string }.

(** A slice that the wire may show to be nil is an [option]; so is a pointer. *)
Record ApprovalSummary := {
  as_id : string;
  as_server_aliases : option (list string);
  as_categories : option (list string);
  as_command : string;
  as_created_at : string;
  as_expires_at : string;
  as_state : string }.

Record RedactionSummary := { rs_applied : bool; rs_counts : gmap string Z }.

Record ExecuteResult := {
  res_status : Status;
  res_stdout : string;
  res_stderr : string;
  res_exit_code : Z;
  res_duration_ms : Z;
  res_truncated : bool;
  res_error : option CodedError;
  res_warnings : list (option CodedError);
  res_approval : option ApprovalInfo;
  res_redactions : RedactionSummary }.

Record ServerExecuteResult := { sr_server_alias : string; sr_result : ExecuteResult }.

Record BatchExecuteResult := {
  bres_status : Status;
  bres_results : list ServerExecuteResult;
  bres_duration_ms : Z;
  bres_approval : option ApprovalInfo;
  bres_error : option CodedError }.

Record ServerSummary := {
  ss_alias : string;
  ss_description : string;
  ss_available : bool }.

Record BrokerStatus := {
  bs_daemon_reachable : bool;
  bs_vault_locked : bool;
  bs_version : string;
  bs_policy_version : string;
  bs_audit_fail_closed : bool;
  bs_risk_policy : string;
  bs_log_level : string;
  bs_batch_concurrency : Z;
  bs_pid : Z;
  bs_started_at : string;
  bs_server_count : Z }.

(** The zero value of [ExecuteResult], completed by the constructors that set
    only some fields. *)
Definition zero_result : ExecuteResult := {|
  res_status := ""; res_stdout := ""; res_stderr := ""; res_exit_code := 0;
  res_duration_ms := 0; res_truncated := false; res_error := None; res_warnings := [];
  res_approval := None; res_redactions := {| rs_applied := false; rs_counts := ∅ |} |}.

(** ** Coded errors: the canonical table *)

(** A heap the package can reach: the nine canonical errors are in place. *)
Definition heap_ok (h : ce_heap) : Prop :=
  ∀ p, isCanonicalCodedError p = true → h !! p = initial_heap !! p.

Lemma codedErrorForCode_canonical code p :
  codedErrorForCode code = Some p → isCanonicalCodedError p = true.
Proof. unfold codedErrorForCode. intros. by repeat case_match; simplify_eq. Qed.

Lemma codedErrorForCode_code h code p :
  heap_ok h → codedErrorForCode code = Some p → ce_code <$> h !! p = Some code.
Proof.
  intros Hh Hp. rewrite (Hh p) by by eapply codedErrorForCode_canonical.
  revert Hp. unfold codedErrorForCode.
  repeat (case_match; bool_hyps; simplify_eq); intros; by simplify_eq.
Qed.

Lemma heap_ok_initial : heap_ok initial_heap.
Proof. done. Qed.

(** Decoding a coded error from the wire never changes a canonical error:
    every reachable heap keeps the nine package variables, a nil or canonical
    receiver is refused, and an accepted decode stores a canonical value with
    the code on the wire. *)
Theorem UnmarshalJSON_canonical_immutable h e wire h' :
  heap_ok h →
  CodedError_UnmarshalJSON h e wire = Ok h' →
  heap_ok h' ∧
  ∃ p code, e = Some p ∧ wire = Some code ∧ isCanonicalCodedError p = false ∧
    CodedError_Code h' e = code ∧ CodedError_Is h' e (Some (codedErrorForCode code)) = true.
Proof.
  intros Hh. unfold CodedError_UnmarshalJSON.
  destruct e as [p|]; [|done]. destruct (isCanonicalCodedError p) eqn:Hp; [done|].
  destruct wire as [code|]; [|done]. destruct (codedErrorForCode code) as [q|] eqn:Hq; [|done].
  simpl. destruct (h !! q) as [v|] eqn:Hv; [|done]. intros [= <-].
  pose proof (codedErrorForCode_code h code q Hh Hq) as Hc. rewrite Hv in Hc. simplify_eq/=.
  pose proof (codedErrorForCode_canonical _ _ Hq) as Hqc.
  assert (p ≠ q) by congruence.
  split.
  { intros r Hr. rewrite lookup_insert_ne by congruence. by apply Hh. }
  exists p, (ce_code v). repeat split; [done|..].
  - unfold CodedError_Code, deref. simpl. by rewrite lookup_insert_eq.
  - unfold CodedError_Is, deref. rewrite Hq. simpl.
    rewrite lookup_insert_eq, lookup_insert_ne, Hv, Hq, String.eqb_refl by done. done.
Qed.

Lemma UnmarshalJSON_canonical_immutable_witness :
  CodedError_UnmarshalJSON initial_heap (Some 9) (Some CodeTimeout)
    = Ok (<[9 := ErrTimeout]> initial_heap) ∧
  heap_ok (<[9 := ErrTimeout]> initial_heap).
Proof.
  split; [reflexivity|].
  refine (proj1 (UnmarshalJSON_canonical_immutable initial_heap (Some 9) (Some CodeTimeout) _ _ _));
    [exact heap_ok_initial|reflexivity].
Defined.

(** The wire codes and the canonical errors are in bijection: an error
    recovered by code has that code, and two known codes recover the same
    pointer only when they are the same code, so [errors.Is] against a
    canonical error tells exactly the code. *)
Theorem ErrorForCode_bijective h c1 c2 p1 p2 :
  heap_ok h →
  ErrorForCode c1 = Some p1 → ErrorForCode c2 = Some p2 →
  CodedError_Code h (Some p1) = c1 ∧
  (p1 = p2 ↔ c1 = c2) ∧
  CodedError_Is h (Some p1) (Some (Some p2)) = String.eqb c1 c2.
Proof.
  unfold ErrorForCode. intros Hh H1 H2.
  pose proof (codedErrorForCode_code h _ _ Hh H1) as Hc1.
  pose proof (codedErrorForCode_code h _ _ Hh H2) as Hc2.
  apply fmap_Some in Hc1 as (v1 & Hv1 & ->). apply fmap_Some in Hc2 as (v2 & Hv2 & ->).
  split; [unfold CodedError_Code, deref; simpl; by rewrite Hv1|]. split.
  - split; intros He; congruence.
  - unfold CodedError_Is, deref. simpl. by rewrite Hv1, Hv2, H1, H2.
Qed.

Lemma ErrorForCode_bijective_witness :
  CodedError_Is initial_heap (Some loc_ErrTimeout) (Some (Some loc_ErrAudit))
    = String.eqb CodeTimeout CodeAudit.
Proof.
  apply (ErrorForCode_bijective initial_heap CodeTimeout CodeAudit loc_ErrTimeout loc_ErrAudit);
    [exact heap_ok_initial|reflexivity|reflexivity].
Defined.
