(* ===== verification/Wire.v ===== *)
(** * Records on the wire

    How [encoding/json] writes and reads the records of
    [internal/model/model.go] and [internal/broker/protocol.go], from their
    struct tags.

    Decoding follows [encoding/json] where it is subtle: a member is matched to
    a field exactly or else with its case folded; a member that occurs twice is
    decoded twice into the same place, so a decoder takes the list of all the
    values its field was given, oldest first; [null] leaves a plain field alone
    and resets a pointer, a slice or a map; elements of a slice that is decoded
    again are decoded into the old elements; an unknown member fails a strict
    decoder.

    The class [Wire] is what one end of the socket promises the other: a value
    that travels unharmed decodes to itself. *)

From S2P Require Import Prelude GoStr Utf8 Base64 Model Json.
From Stdlib Require Import Ascii.
Open Scope Z_scope.
Open Scope string_scope.
Open Scope list_scope.

(** ** Writing members *)

(** A member that is always written, and one that [omitempty] may leave out. *)
Definition piece : Type := bool * string * json.
Definition req (k : string) (v : json) : piece := (false, k, v).
Definition opt (omit : bool) (k : string) (v : json) : piece := (omit, k, v).

Definition written (p : piece) : list (string * json) :=
  let '(omit, k, v) := p in if omit then [] else [(k, v)].

Fixpoint pieces (l : list piece) : list (string * json) :=
  match l with [] => [] | p :: l' => written p ++ pieces l' end.

Definition jint (n : Z) : json := JNum (itoa n).

(** Pointers and slices: nil is [null]. *)
Definition enc_ptr {A} (enc : A → json) (p : option A) : json :=
  match p with None => JNull | Some a => enc a end.

Definition is_nil {A} (l : list A) : bool := match l with [] => true | _ => false end.
Definition is_none {A} (p : option A) : bool := match p with None => true | _ => false end.

(** ** Reading members *)

Abbreviation dec A := (list json → option A).

(** [foldName]: letters to upper case, and the two other runes that fold to an
    ASCII letter. *)
Definition fold_rune (r : Z) : Z :=
  if in_range 97 122 r then r - 32
  else if Z.eqb r 8490 then 75 else if Z.eqb r 383 then 83 else r.

Definition foldName (s : string) : string := map_runes fold_rune (runes s).

(** The field a member's name selects. *)
Definition resolve (fields : list string) (k : string) : option string :=
  if existsb (String.eqb k) fields then Some k
  else List.find (λ f, String.eqb (foldName f) (foldName k)) fields.

(** The members of the values given to a struct, under their fields' names. *)
Definition resolve_members (strict : bool) (fields : list string) (ms : list (string * json))
  : option (list (string * json)) :=
  foldr (λ '(k, v) acc, acc ← acc;
         match resolve fields k with
         | Some f => Some ((f, v) :: acc)
         | None => if strict then None else Some acc
         end) (Some []) ms.

Fixpoint members (strict : bool) (fields : list string) (js : list json) : option (list (string * json)) :=
  match js with
  | [] => Some []
  | JNull :: js => members strict fields js
  | JObj ms :: js => ms ← resolve_members strict fields ms; rest ← members strict fields js; Some (ms ++ rest)
  | _ :: _ => None
  end.

Definition values_of (name : string) (ms : list (string * json)) : list json :=
  omap (λ m : string * json, if String.eqb (m.1) name then Some (m.2) else None) ms.

Definition dec_struct {A} (strict : bool) (fields : list string)
    (body : (string → list json) → option A) : dec A :=
  λ js, ms ← members strict fields js; body (λ name, values_of name ms).

(** Plain fields: each value replaces, [null] does nothing. *)
Definition dec_plain {A} (zero : A) (parse : json → option A) : dec A :=
  λ js, foldl (λ acc j, old ← acc; match j with JNull => Some old | _ => parse j end) (Some zero) js.

Definition dec_string : dec string :=
  dec_plain "" (λ j, match j with JStr s => Some s | _ => None end).

Definition dec_bool : dec bool :=
  dec_plain false (λ j, match j with JBool b => Some b | _ => None end).

Definition min_int64 : Z := - 2 ^ 63.

(** [strconv.ParseInt(text, 10, 64)], on a number of the JSON grammar. *)
Definition parse_int64 (text : string) : option Z :=
  match text with
  | String a d =>
      if Ascii.eqb a "-" then n ← parse_uint d (- min_int64); Some (- n)
      else parse_uint text max_int64
  | "" => None
  end.

Definition dec_int64 : dec Z :=
  dec_plain 0 (λ j, match j with JNum t => parse_int64 t | _ => None end).

(** A pointer: [null] makes it nil, a value is decoded into what it points to. *)
Definition dec_ptr {A} (d : dec A) : dec (option A) :=
  λ js,
    last ← foldl (λ acc j, old ← acc;
                  match j with
                  | JNull => Some None
                  | _ => let l := default [] old ++ [j] in _ ← d l; Some (Some l)
                  end) (Some None) js;
    match last with None => Some None | Some l => Some <$> d l end.

(** The values given to the elements of a slice's backing array. *)
Fixpoint assign (backing : list (list json)) (l : list json) : list (list json) :=
  match l with
  | [] => backing
  | x :: l' => match backing with
               | [] => [x] :: assign [] l'
               | b :: bs => (b ++ [x]) :: assign bs l'
               end
  end.

(** [None] for a nil slice, else the backing array and the length. *)
Definition slice_state : Type := option (list (list json) * nat).

Definition dec_slice {A} (d : dec A) : dec (option (list A)) :=
  λ js,
    last ← foldl (λ (acc : option slice_state) j, old ← acc;
                  match j with
                  | JNull => Some None
                  | JArr [] => Some (Some ([], O))
                  | JArr l =>
                      let backing := assign (match old with Some (b, _) => b | None => [] end) l in
                      _ ← mapM d (take (length l) backing); Some (Some (backing, length l))
                  | _ => None
                  end) (Some None) js;
    match last with
    | None => Some None
    | Some (backing, n) => Some <$> mapM d (take n backing)
    end.

Definition dec_list {A} (d : dec A) : dec (list A) := λ js, default [] <$> dec_slice d js.

(** A map with string keys: each element is decoded into a fresh value. *)
Definition dec_entries {A} (d : dec A) (m : gmap string A) (ms : list (string * json)) : option (gmap string A) :=
  foldl (λ acc kv, old ← acc; v ← d [kv.2]; Some (<[kv.1 := v]> old)) (Some m) ms.

Definition dec_map {A} (d : dec A) : dec (option (gmap string A)) :=
  λ js, foldl (λ acc j, old ← acc;
               match j with
               | JNull => Some None
               | JObj ms => Some <$> dec_entries d (default ∅ old) ms
               | _ => None
               end) (Some None) js.

(** [map[string]int] *)
Definition dec_counts : dec (gmap string Z) := λ js, default ∅ <$> dec_map dec_int64 js.

(** An unsigned integer of a narrower type. *)
Definition dec_uint (limit : Z) : dec Z :=
  dec_plain 0 (λ j, match j with JNum t => parse_uint t limit | _ => None end).

(** A [[]byte] is base64 text, or an array of numbers. *)
Definition dec_uint8 : dec Z := dec_uint 255.

Definition byte_values (s : string) : list (list json) := (λ a, [jint (byte_val a)]) <$> String.list_ascii_of_string s.

Definition dec_bytes : dec string :=
  λ js,
    last ← foldl (λ (acc : option slice_state) j, old ← acc;
                  match j with
                  | JNull => Some None
                  | JStr s => b ← base64_decode s; Some (Some (byte_values b, String.length b))
                  | JArr [] => Some (Some ([], O))
                  | JArr l =>
                      let backing := assign (match old with Some (b, _) => b | None => [] end) l in
                      _ ← mapM dec_uint8 (take (length l) backing); Some (Some (backing, length l))
                  | _ => None
                  end) (Some None) js;
    match last with
    | None => Some ""
    | Some (backing, n) =>
        l ← mapM dec_uint8 (take n backing); Some (String.string_of_list_ascii (byte_of <$> l))
    end.

(** ** Lemmas on members *)

Create HintDb wire.

Definition omitted (omit : bool) (v : json) : list json := if omit then [] else [v].

(** The values a struct's own members give to a field. *)
Fixpoint lookup_pieces (name : string) (l : list piece) : list json :=
  match l with
  | [] => []
  | (omit, k, v) :: l' => if String.eqb k name then omitted omit v ++ lookup_pieces name l' else lookup_pieces name l'
  end.

Lemma values_of_pieces name l : values_of name (pieces l) = lookup_pieces name l.
Proof.
  induction l as [|[[omit k] v] l IH]; [done|]. cbn [pieces lookup_pieces written].
  rewrite <-IH. unfold values_of. rewrite omap_app. unfold omitted.
  destruct omit; simpl; destruct (String.eqb k name); done.
Qed.

Definition keys_in (fields : list string) (ms : list (string * json)) : Prop :=
  Forall (λ m : string * json, existsb (String.eqb (m.1)) fields = true) ms.

Lemma members_exact strict fields ms :
  keys_in fields ms → members strict fields [JObj ms] = Some ms.
Proof.
  intros Hk. simpl. assert (resolve_members strict fields ms = Some ms) as ->; [|simpl; by rewrite app_nil_r].
  induction Hk as [|[k v] ms Hk Hms IH]; [done|]. cbn [resolve_members foldr].
  unfold resolve_members in IH. rewrite IH. simpl. unfold resolve. simpl in Hk. by rewrite Hk.
Qed.

Lemma dec_struct_exact {A} strict fields (body : (string → list json) → option A) ms :
  keys_in fields ms → dec_struct strict fields body [JObj ms] = body (λ name, values_of name ms).
Proof. intros Hk. unfold dec_struct. by rewrite members_exact. Qed.

(** ** Plain values read back *)

Definition int64_ok (n : Z) : Prop := (min_int64 ≤ n ≤ max_int64)%Z.

Lemma parse_int64_itoa n : int64_ok n → parse_int64 (itoa n) = Some n.
Proof.
  unfold int64_ok, parse_int64. intros Hn. unfold itoa. destruct (n <? 0)%Z eqn:H0; bool_hyps.
  - cbn [String.append]. change (Ascii.eqb "-" "-") with true. cbv iota.
    rewrite parse_uint_itoa by (unfold min_int64 in *; lia). simpl. f_equal. lia.
  - pose proof (itoa_nonneg_all n H0) as Ha. pose proof (parse_uint_itoa n max_int64) as Hp.
    destruct (itoa_nonneg n) as [|a d] eqn:Hd; [by destruct (itoa_nonneg_nonempty n)|].
    simpl in Ha. apply andb_true_iff in Ha as [Ha _].
    assert (Ascii.eqb a "-" = false) as ->; [apply Ascii.eqb_neq; by intros ->|]. apply Hp. lia.
Qed.

Lemma dec_string_omitted s : dec_string (omitted (str_is_empty s) (JStr s)) = Some s.
Proof. by destruct s. Qed.

Lemma dec_string_one s : dec_string [JStr s] = Some s.
Proof. done. Qed.

Lemma dec_bool_omitted b : dec_bool (omitted (negb b) (JBool b)) = Some b.
Proof. by destruct b. Qed.

Lemma dec_bool_one b : dec_bool [JBool b] = Some b.
Proof. done. Qed.

Lemma dec_int64_one n : int64_ok n → dec_int64 [jint n] = Some n.
Proof. intros. unfold dec_int64, dec_plain. simpl. by rewrite parse_int64_itoa. Qed.

Lemma dec_int64_omitted n : int64_ok n → dec_int64 (omitted (n =? 0)%Z (jint n)) = Some n.
Proof.
  intros. destruct (n =? 0)%Z eqn:Hn; bool_hyps; [by subst|]. by apply dec_int64_one.
Qed.

Lemma dec_ptr_omitted {A} (d : dec A) (enc : A → json) p :
  (∀ a, p = Some a → d [enc a] = Some a ∧ enc a ≠ JNull) →
  dec_ptr d (omitted (is_none p) (enc_ptr enc p)) = Some p.
Proof.
  intros Hp. destruct p as [a|]; [|done]. destruct (Hp a eq_refl) as [Ha Hne].
  unfold dec_ptr. simpl. destruct (enc a); simpl; try done; by rewrite Ha; simpl; rewrite Ha.
Qed.

Lemma dec_ptr_one {A} (d : dec A) (enc : A → json) p :
  (∀ a, p = Some a → d [enc a] = Some a ∧ enc a ≠ JNull) → dec_ptr d [enc_ptr enc p] = Some p.
Proof. intros Hp. destruct p as [a|]; [|done]. by apply (dec_ptr_omitted d enc (Some a)). Qed.

Lemma assign_nil l : assign [] l = (λ x, [x]) <$> l.
Proof. induction l as [|x l IH]; simpl; [done|by rewrite IH]. Qed.

Lemma mapM_singles {A} (d : dec A) (enc : A → json) l :
  Forall (λ a, d [enc a] = Some a) l → mapM d ((λ x, [x]) <$> (enc <$> l)) = Some l.
Proof. induction 1 as [|a l Ha Hl IH]; [done|].
  rewrite !fmap_cons. cbn [mapM]. rewrite Ha. cbn [mbind option_bind]. by rewrite IH.
Qed.

Lemma dec_slice_arr {A} (d : dec A) x js :
  dec_slice d [JArr (x :: js)] = l ← mapM d ((λ y, [y]) <$> (x :: js)); Some (Some l).
Proof.
  unfold dec_slice. cbn [foldl mbind option_bind]. rewrite assign_nil.
  rewrite take_ge by (rewrite length_fmap; done).
  destruct (mapM d _) as [l|] eqn:Hm; [|done]. cbn [mbind option_bind].
  by rewrite take_ge, Hm by (rewrite length_fmap; done).
Qed.

Lemma dec_slice_one {A} (d : dec A) (enc : A → json) p :
  (∀ l, p = Some l → Forall (λ a, d [enc a] = Some a) l) →
  dec_slice d [enc_ptr (λ l, JArr (enc <$> l)) p] = Some p.
Proof.
  intros Hp. destruct p as [l|]; [|done]. specialize (Hp l eq_refl). cbn [enc_ptr].
  destruct l as [|a l]; [done|]. rewrite fmap_cons, dec_slice_arr, <-fmap_cons.
  by rewrite mapM_singles.
Qed.

Lemma dec_list_omitted {A} (d : dec A) (enc : A → json) l :
  Forall (λ a, d [enc a] = Some a) l →
  dec_list d (omitted (is_nil l) (JArr (enc <$> l))) = Some l.
Proof.
  intros Hl. unfold dec_list. destruct l as [|a l]; [done|]. cbn [is_nil omitted].
  pose proof (dec_slice_one d enc (Some (a :: l))) as H. cbn [enc_ptr] in H. rewrite H; [done|].
  by intros ? [= <-].
Qed.

(** ** Structs

    What the file states of each struct: its field names, the members
    [json.Marshal] writes, and how the values of the fields make a record. *)

Class Struct (A : Type) := {
  fields : list string;
  members_of : A → list (string * json);
  body : (string → list json) → option A;
  (** The values that travel unharmed: valid UTF-8, integers of 64 bits. *)
  struct_ok : A → Prop;
  (** How deep the values of the members nest. *)
  levels : Z;
  members_keys a : keys_in fields (members_of a);
  members_wf a : Forall (λ m, json_wf (m.2)) (members_of a);
  members_levels a : Forall (λ m, (json_depth (m.2) ≤ levels)%Z) (members_of a);
  members_valid a : struct_ok a → Forall (λ m, valid_utf8 (m.1) = true ∧ json_valid (m.2)) (members_of a);
  body_members a : struct_ok a → body (λ name, values_of name (members_of a)) = Some a }.

Class Wire (A : Type) := {
  encode : A → json;
  decode : dec A;
  wire_ok : A → Prop;
  depth : Z;
  encode_wf a : json_wf (encode a);
  encode_depth a : (json_depth (encode a) ≤ depth)%Z;
  encode_valid a : wire_ok a → json_valid (encode a);
  decode_encode a : wire_ok a → decode [encode a] = Some a }.

Lemma max_list_le l n : (0 ≤ n)%Z → Forall (λ x, (x ≤ n)%Z) l → (max_list l ≤ n)%Z.
Proof. induction 2; simpl; [done|]. unfold max_list in *. lia. Qed.

#[export] Program Instance Wire_Struct {A} `{Struct A} : Wire A := {|
  encode a := JObj (members_of a);
  decode := dec_struct true fields body;
  wire_ok := struct_ok;
  depth := 1 + Z.max 0 levels |}.
Next Obligation. intros. simpl. rewrite Forall_fmap. apply members_wf. Qed.
Next Obligation.
  intros A HS a. simpl. assert (max_list ((λ m : string * json, json_depth (m.2)) <$> members_of a) ≤ Z.max 0 levels)%Z; [|lia].
  apply max_list_le; [lia|]. rewrite Forall_fmap. eapply Forall_impl; [apply members_levels|]. simpl. lia.
Qed.
Next Obligation. intros. simpl. rewrite Forall_fmap. by apply members_valid. Qed.
Next Obligation. intros A HS a Hok. cbn beta. rewrite dec_struct_exact by apply members_keys. by apply body_members. Qed.

(** *** Proof automation for the instances *)

Lemma Forall_pieces (P : string * json → Prop) l :
  Forall (λ p : piece, let '(omit, k, v) := p in omit = false → P (k, v)) l → Forall P (pieces l).
Proof.
  induction 1 as [|[[omit k] v] l Hp Hl IH]; [constructor|]. cbn [pieces written].
  apply Forall_app_2; [|done]. destruct omit; repeat constructor. by apply Hp.
Qed.

Ltac wire_members :=
  cbv beta; apply Forall_pieces; unfold req, opt;
  repeat lazymatch goal with
  | |- Forall _ (_ :: _) => apply Forall_cons_2; [intros|]
  | |- Forall _ [] => apply Forall_nil_2
  end; cbn [fst snd].

Ltac wire_keys := intros; unfold keys_in; wire_members; reflexivity.

(** Look every field up among the members. *)
Ltac wire_get :=
  cbv beta; rewrite !values_of_pieces;
  cbn [lookup_pieces req opt String.eqb Ascii.eqb Bool.eqb]; rewrite ?app_nil_r;
  change (omitted false ?v) with [v];
  rewrite ?dec_string_omitted, ?dec_string_one, ?dec_bool_omitted, ?dec_bool_one.

Ltac wire_read :=
  repeat (progress (cbn [mbind option_bind]; rewrite ?dec_int64_omitted, ?dec_int64_one by done)); try reflexivity.

(** Leaves of a record's members, when nothing but the form counts. *)
Ltac wire_leaf := first [done | by auto with wire].

(** ** Leaves of the records *)

Lemma jint_wf n : json_wf (jint n).
Proof. by exists n. Qed.

Lemma enc_ptr_all (P : json → Prop) {A} (enc : A → json) p :
  P JNull → (∀ a, p = Some a → P (enc a)) → P (enc_ptr enc p).
Proof. intros ? Hp. destruct p; [by apply Hp|done]. Qed.

Lemma arr_wf {A} (enc : A → json) l : (∀ a, json_wf (enc a)) → json_wf (JArr (enc <$> l)).
Proof. intros He. simpl. rewrite !Forall_fmap. apply Forall_forall. intros a _. apply He. Qed.

Lemma arr_depth {A} (enc : A → json) l n :
  (0 ≤ n)%Z → (∀ a, json_depth (enc a) ≤ n)%Z → (json_depth (JArr (enc <$> l)) ≤ 1 + n)%Z.
Proof.
  intros Hn He. simpl. apply Zplus_le_compat_l, max_list_le; [done|]. rewrite !Forall_fmap.
  apply Forall_forall. intros a _. apply He.
Qed.

Lemma arr_valid {A} (enc : A → json) l :
  Forall (λ a, json_valid (enc a)) l → json_valid (JArr (enc <$> l)).
Proof. intros. simpl. by rewrite !Forall_fmap. Qed.

#[export] Hint Resolve jint_wf : wire.

(** ** Coded errors *)

Definition canonical (c : CodedError) : Prop := codedErrorForCode (ce_code c) ≫= (initial_heap !!.) = Some c.

(** [MarshalJSON] *)
Definition CodedError_json (c : CodedError) : json :=
  JObj [("code", JStr (ce_code c)); ("message", JStr (ce_message c))].

(** [UnmarshalJSON]: the code selects the canonical error; other members are
    not looked at. *)
Definition unmarshal_CodedError (j : json) : option CodedError :=
  code ← dec_struct false ["code"] (λ get, dec_string (get "code")) [j];
  codedErrorForCode code ≫= (initial_heap !!.).

(** A [*CodedError] field: each value makes a new error or nil. *)
Definition dec_CodedError : dec (option CodedError) :=
  λ js, foldl (λ acc j, _ ← acc;
               match j with JNull => Some None | _ => Some <$> unmarshal_CodedError j end) (Some None) js.

Lemma canonical_valid c : canonical c → valid_utf8 (ce_code c) = true ∧ valid_utf8 (ce_message c) = true.
Proof.
  unfold canonical, codedErrorForCode. intros H.
  repeat (destruct (String.eqb (ce_code c) _); [vm_compute in H; injection H as <-; by vm_compute|]). done.
Qed.

Lemma dec_CodedError_one p :
  (∀ c, p = Some c → canonical c) → dec_CodedError [enc_ptr CodedError_json p] = Some p.
Proof.
  intros Hp. destruct p as [c|]; [|done]. specialize (Hp c eq_refl).
  unfold dec_CodedError. cbn [enc_ptr foldl CodedError_json mbind option_bind].
  unfold unmarshal_CodedError, dec_struct, CodedError_json. cbn [members].
  change (resolve_members false ["code"] _) with (Some [("code", JStr (ce_code c))]).
  cbn [mbind option_bind app]. change (values_of "code" _) with [JStr (ce_code c)].
  rewrite dec_string_one. cbn [mbind option_bind]. unfold canonical in Hp. cbn [mbind option_bind] in Hp.
  by rewrite Hp.
Qed.

Lemma dec_CodedError_omitted p :
  (∀ c, p = Some c → canonical c) →
  dec_CodedError (omitted (is_none p) (enc_ptr CodedError_json p)) = Some p.
Proof. intros Hp. destruct p as [c|]; [|done]. by apply (dec_CodedError_one (Some c)). Qed.

Lemma CodedError_ptr_valid p : (∀ c, p = Some c → canonical c) → json_valid (enc_ptr CodedError_json p).
Proof.
  intros Hp. apply enc_ptr_all; [done|]. intros c ->. destruct (canonical_valid c (Hp c eq_refl)).
  by repeat constructor.
Qed.

(** ** Requests *)

#[export] Program Instance ExecuteRequest_Struct : Struct ExecuteRequest := {|
  fields := ["server_alias"; "command"; "timeout_seconds"; "max_output_bytes"];
  members_of r :=
    pieces
      [ req "server_alias" (JStr (er_server_alias r)); req "command" (JStr (er_command r));
        opt (er_timeout_seconds r =? 0)%Z "timeout_seconds" (jint (er_timeout_seconds r));
        opt (er_max_output_bytes r =? 0)%Z "max_output_bytes" (jint (er_max_output_bytes r)) ];
  body get :=
    alias ← dec_string (get "server_alias"); command ← dec_string (get "command");
    timeout ← dec_int64 (get "timeout_seconds"); max ← dec_int64 (get "max_output_bytes");
    Some {| er_server_alias := alias; er_command := command;
            er_timeout_seconds := timeout; er_max_output_bytes := max |};
  struct_ok r :=
    valid_utf8 (er_server_alias r) = true ∧ valid_utf8 (er_command r) = true ∧
    int64_ok (er_timeout_seconds r) ∧ int64_ok (er_max_output_bytes r);
  levels := 0 |}.
Next Obligation. wire_keys. Qed.
Next Obligation. intros. wire_members; wire_leaf. Qed.
Next Obligation. intros. wire_members; done. Qed.
Next Obligation. intros r (? & ? & ? & ?). wire_members; done. Qed.
Next Obligation.
  intros r (? & ? & ? & ?). wire_get. wire_read. by destruct r.
Qed.

#[export] Program Instance BatchExecuteRequest_Struct : Struct BatchExecuteRequest := {|
  fields := ["server_aliases"; "all"; "command"; "concurrency"; "timeout_seconds"; "max_output_bytes"];
  members_of r :=
    pieces
      [ opt (is_nil (br_server_aliases r)) "server_aliases" (JArr (JStr <$> br_server_aliases r));
        opt (negb (br_all r)) "all" (JBool (br_all r));
        req "command" (JStr (br_command r));
        opt (br_concurrency r =? 0)%Z "concurrency" (jint (br_concurrency r));
        opt (br_timeout_seconds r =? 0)%Z "timeout_seconds" (jint (br_timeout_seconds r));
        opt (br_max_output_bytes r =? 0)%Z "max_output_bytes" (jint (br_max_output_bytes r)) ];
  body get :=
    aliases ← dec_list dec_string (get "server_aliases"); all ← dec_bool (get "all");
    command ← dec_string (get "command"); concurrency ← dec_int64 (get "concurrency");
    timeout ← dec_int64 (get "timeout_seconds"); max ← dec_int64 (get "max_output_bytes");
    Some {| br_server_aliases := aliases; br_all := all; br_command := command;
            br_concurrency := concurrency; br_timeout_seconds := timeout; br_max_output_bytes := max |};
  struct_ok r :=
    Forall (λ a, valid_utf8 a = true) (br_server_aliases r) ∧ valid_utf8 (br_command r) = true ∧
    int64_ok (br_concurrency r) ∧ int64_ok (br_timeout_seconds r) ∧ int64_ok (br_max_output_bytes r);
  levels := 1 |}.
Next Obligation. wire_keys. Qed.
Next Obligation. intros. wire_members; (wire_leaf || by apply arr_wf). Qed.
Next Obligation. intros. wire_members; (done || by apply (arr_depth JStr _ 0)). Qed.
Next Obligation. intros r (? & ? & ? & ? & ?). wire_members; first [done | split; [done|by apply arr_valid]]. Qed.
Next Obligation.
  intros r (? & ? & ? & ? & ?). wire_get.
  rewrite dec_list_omitted by by apply Forall_true. wire_read. by destruct r.
Qed.

#[export] Program Instance ApprovedRequest_Struct : Struct ApprovedRequest := {|
  fields := ["approval_id"; "approval_code"];
  members_of r :=
    pieces [ req "approval_id" (JStr (ar_approval_id r)); req "approval_code" (JStr (ar_approval_code r)) ];
  body get :=
    id ← dec_string (get "approval_id"); code ← dec_string (get "approval_code");
    Some {| ar_approval_id := id; ar_approval_code := code |};
  struct_ok r := valid_utf8 (ar_approval_id r) = true ∧ valid_utf8 (ar_approval_code r) = true;
  levels := 0 |}.
Next Obligation. wire_keys. Qed.
Next Obligation. intros. wire_members; wire_leaf. Qed.
Next Obligation. intros. wire_members; done. Qed.
Next Obligation. intros r (? & ?). wire_members; done. Qed.
Next Obligation. by intros []. Qed.

(** ** Results *)

#[export] Program Instance ApprovalInfo_Struct : Struct ApprovalInfo := {|
  fields := ["id"; "code"; "message"; "expires_at"];
  members_of r :=
    pieces
      [ req "id" (JStr (ai_id r));
        opt (str_is_empty (ai_code r)) "code" (JStr (ai_code r));
        opt (str_is_empty (ai_message r)) "message" (JStr (ai_message r));
        opt (str_is_empty (ai_expires_at r)) "expires_at" (JStr (ai_expires_at r)) ];
  body get :=
    id ← dec_string (get "id"); code ← dec_string (get "code");
    message ← dec_string (get "message"); expires ← dec_string (get "expires_at");
    Some {| ai_id := id; ai_code := code; ai_message := message; ai_expires_at := expires |};
  struct_ok r :=
    valid_utf8 (ai_id r) = true ∧ valid_utf8 (ai_code r) = true ∧
    valid_utf8 (ai_message r) = true ∧ valid_utf8 (ai_expires_at r) = true;
  levels := 0 |}.
Next Obligation. wire_keys. Qed.
Next Obligation. intros. wire_members; wire_leaf. Qed.
Next Obligation. intros. wire_members; done. Qed.
Next Obligation. intros r (? & ? & ? & ?). wire_members; done. Qed.
Next Obligation. intros r (? & ? & ? & ?). wire_get. wire_read. by destruct r. Qed.

(** ** Maps

    The keys of a map are written in order. *)
Section maps.
Context {A : Type} (enc : A → json) (d : dec A).

Definition key_le (a b : string * A) : Prop := String.le (a.1) (b.1).

#[export] Instance key_le_dec a b : Decision (key_le a b) := _.

Definition sorted_map (m : gmap string A) : list (string * A) := merge_sort key_le (map_to_list m).

Definition map_members (m : gmap string A) : list (string * json) :=
  (λ kv : string * A, (kv.1, enc (kv.2))) <$> sorted_map m.

Lemma sorted_map_perm m : sorted_map m ≡ₚ map_to_list m.
Proof. apply merge_sort_Permutation. Qed.

Lemma Forall_map_members (P : string * json → Prop) m :
  map_Forall (λ k v, P (k, enc v)) m → Forall P (map_members m).
Proof.
  intros Hm. unfold map_members. rewrite Forall_fmap, sorted_map_perm. apply Forall_forall.
  intros [k v] Hkv%elem_of_map_to_list. by apply (Hm k v).
Qed.

Lemma dec_entries_list l m :
  Forall (λ kv, d [enc (kv.2)] = Some (kv.2)) l →
  dec_entries d m ((λ kv : string * A, (kv.1, enc (kv.2))) <$> l) = Some (list_to_map (reverse l) ∪ m).
Proof.
  unfold dec_entries. revert m. induction l as [|[k v] l IH]; intros m Hl; [cbn; by rewrite (left_id_L ∅ (∪))|].
  apply Forall_cons_1 in Hl as [Hv Hl]. rewrite fmap_cons. cbn [foldl mbind option_bind fst snd] in *.
  rewrite Hv. cbn [mbind option_bind]. rewrite IH by done. f_equal.
  rewrite reverse_cons, list_to_map_app. rewrite <-(assoc_L (∪)). f_equal. simpl.
  by rewrite insert_empty, <-insert_union_singleton_l.
Qed.

Lemma dec_map_one p :
  (∀ m, p = Some m → map_Forall (λ _ v, d [enc v] = Some v) m) →
  dec_map d [enc_ptr (λ m, JObj (map_members m)) p] = Some p.
Proof.
  intros Hp. destruct p as [m|]; [|done]. specialize (Hp m eq_refl).
  unfold dec_map, map_members. cbn [enc_ptr foldl mbind option_bind default from_option].
  rewrite dec_entries_list.
  - rewrite (right_id_L ∅ (∪)). cbn [fmap option_fmap option_map]. do 2 f_equal.
    assert (reverse (sorted_map m) ≡ₚ map_to_list m) as Hr.
    { rewrite reverse_Permutation. apply sorted_map_perm. }
    rewrite <-(list_to_map_to_list m) at 2. apply list_to_map_proper; [|done].
    rewrite Hr. apply NoDup_fst_map_to_list.
  - rewrite sorted_map_perm. apply Forall_forall. intros [k v] Hkv%elem_of_map_to_list. by apply (Hp k).
Qed.

Lemma map_members_wf m : (∀ v, json_wf (enc v)) → json_wf (JObj (map_members m)).
Proof. intros He. simpl. rewrite Forall_fmap. apply Forall_map_members. intros k v _. apply He. Qed.

Lemma map_members_depth m n :
  (0 ≤ n)%Z → (∀ v, json_depth (enc v) ≤ n)%Z → (json_depth (JObj (map_members m)) ≤ 1 + n)%Z.
Proof.
  intros Hn He. simpl. apply Zplus_le_compat_l, max_list_le; [done|]. rewrite Forall_fmap.
  apply Forall_map_members. intros k v _. apply He.
Qed.

Lemma map_members_valid m :
  map_Forall (λ k v, valid_utf8 k = true ∧ json_valid (enc v)) m → json_valid (JObj (map_members m)).
Proof. intros He. simpl. rewrite Forall_fmap. by apply Forall_map_members. Qed.
End maps.

(** ** Bytes *)

Lemma dec_uint_one n limit : (0 ≤ n ≤ limit)%Z → dec_uint limit [jint n] = Some n.
Proof.
  intros Hn. unfold dec_uint, dec_plain, jint. cbn [foldl mbind option_bind].
  unfold itoa. rewrite (proj2 (Z.ltb_ge _ _)) by lia. by apply parse_uint_itoa.
Qed.

Lemma byte_values_read b :
  mapM dec_uint8 (byte_values b) = Some (byte_val <$> String.list_ascii_of_string b).
Proof.
  unfold byte_values. induction b as [|a b IH]; [done|]. cbn [String.list_ascii_of_string].
  rewrite !fmap_cons. cbn [mapM]. pose proof (byte_val_range a) as Ha.
  assert (dec_uint8 [jint (byte_val a)] = Some (byte_val a)) as -> by (apply dec_uint_one; lia). cbn [mbind option_bind]. by rewrite IH.
Qed.

Lemma dec_bytes_one b : dec_bytes [JStr (base64_encode b)] = Some b.
Proof.
  unfold dec_bytes. cbn [foldl mbind option_bind]. rewrite base64_roundtrip. cbn [mbind option_bind].
  assert (length (byte_values b) = String.length b) as Hl.
  { unfold byte_values. rewrite length_fmap. induction b as [|a b IH]; simpl; [done|by rewrite IH]. }
  rewrite take_ge, byte_values_read by (rewrite Hl; done). cbn [mbind option_bind]. f_equal.
  rewrite <-list_fmap_compose. rewrite <-(String.string_of_list_ascii_of_string b) at 2. f_equal.
  rewrite <-(list_fmap_id (String.list_ascii_of_string b)) at 2. apply list_fmap_ext.
  intros i a _. apply byte_of_val.
Qed.

Lemma base64_encode_valid b : valid_utf8 (base64_encode b) = true.
Proof.
  assert (∀ v s, (0 ≤ v < 64)%Z → valid_utf8 s = true → valid_utf8 (String (sextet_char v) s) = true) as Hsx.
  { intros v s Hv. apply valid_utf8_ascii_cons. unfold sextet_char. rewrite byte_val_of; repeat case_match; bool_hyps; lia. }
  assert (∀ s, valid_utf8 s = true → valid_utf8 (String pad s) = true) as Hpad by (intros; by apply valid_utf8_ascii_cons).
  induction b as [|a|a b|a b c r IH] using byte_ind3; [done|..]; cbn [base64_encode];
    pose proof (byte_val_range a) as Ha; try (pose proof (byte_val_range b) as Hb);
    try (pose proof (byte_val_range c) as Hc).
  - repeat (apply Hsx; [Z.to_euclidean_division_equations; lia|]). done.
  - repeat (apply Hsx; [Z.to_euclidean_division_equations; lia|]). done.
  - destruct (sextet_range (byte_val a * 65536 + byte_val b * 256 + byte_val c)) as (? & ? & ? & ?); [lia|].
    by repeat (apply Hsx; [done|]).
Qed.

Lemma dec_bytes_omitted b : dec_bytes (omitted (str_is_empty b) (JStr (base64_encode b))) = Some b.
Proof. destruct b as [|a b]; [done|]. apply dec_bytes_one. Qed.

(** ** Redactions *)

#[export] Program Instance RedactionSummary_Struct : Struct RedactionSummary := {|
  fields := ["applied"; "counts"];
  members_of r :=
    pieces
      [ req "applied" (JBool (rs_applied r));
        opt (bool_decide (rs_counts r = ∅)) "counts" (JObj (map_members jint (rs_counts r))) ];
  body get :=
    applied ← dec_bool (get "applied"); counts ← dec_counts (get "counts");
    Some {| rs_applied := applied; rs_counts := counts |};
  struct_ok r := map_Forall (λ k v, valid_utf8 k = true ∧ int64_ok v) (rs_counts r);
  levels := 1 |}.
Next Obligation. wire_keys. Qed.
Next Obligation. intros. wire_members; [done|]. apply map_members_wf, jint_wf. Qed.
Next Obligation. intros. wire_members; [done|]. by apply (map_members_depth jint _ 0). Qed.
Next Obligation.
  intros r Hr. wire_members; [done|]. split; [done|]. apply map_members_valid.
  intros k v Hkv. split; [|done]. by apply (Hr k v).
Qed.
Next Obligation.
  intros r Hr. wire_get. cbn [mbind option_bind].
  assert (dec_counts (omitted (bool_decide (rs_counts r = ∅)) (JObj (map_members jint (rs_counts r))))
          = Some (rs_counts r)) as ->; [|by destruct r].
  case_bool_decide as Hc; [by rewrite Hc|]. unfold dec_counts. cbn [omitted].
  pose proof (dec_map_one jint dec_int64 (Some (rs_counts r))) as Hm. cbn [enc_ptr] in Hm.
  rewrite Hm; [done|]. intros m [= <-] k v Hkv. apply dec_int64_one. by apply (Hr k v).
Qed.

(** *** [ExecuteResult], and the fields a [ServerExecuteResult] embeds *)

Definition result_fields : list string :=
  ["status"; "stdout"; "stderr"; "exit_code"; "duration_ms"; "truncated"; "error"; "warnings"; "approval"; "redactions"].

Definition result_pieces (r : ExecuteResult) : list piece :=
  [ req "status" (JStr (res_status r));
    opt (str_is_empty (res_stdout r)) "stdout" (JStr (res_stdout r));
    opt (str_is_empty (res_stderr r)) "stderr" (JStr (res_stderr r));
    req "exit_code" (jint (res_exit_code r));
    opt (res_duration_ms r =? 0)%Z "duration_ms" (jint (res_duration_ms r));
    req "truncated" (JBool (res_truncated r));
    opt (is_none (res_error r)) "error" (enc_ptr CodedError_json (res_error r));
    opt (is_nil (res_warnings r)) "warnings" (JArr (enc_ptr CodedError_json <$> res_warnings r));
    opt (is_none (res_approval r)) "approval" (enc_ptr encode (res_approval r));
    req "redactions" (encode (res_redactions r)) ].

Definition result_body (get : string → list json) : option ExecuteResult :=
  status ← dec_string (get "status"); stdout ← dec_string (get "stdout"); stderr ← dec_string (get "stderr");
  exit_code ← dec_int64 (get "exit_code"); duration ← dec_int64 (get "duration_ms");
  truncated ← dec_bool (get "truncated"); error ← dec_CodedError (get "error");
  warnings ← dec_list dec_CodedError (get "warnings"); approval ← dec_ptr decode (get "approval");
  redactions ← decode (get "redactions");
  Some {| res_status := status; res_stdout := stdout; res_stderr := stderr; res_exit_code := exit_code;
          res_duration_ms := duration; res_truncated := truncated; res_error := error;
          res_warnings := warnings; res_approval := approval; res_redactions := redactions |}.

Definition error_ok (p : option CodedError) : Prop := ∀ c, p = Some c → canonical c.

Record result_ok (r : ExecuteResult) : Prop := {
  ok_status : valid_utf8 (res_status r) = true;
  ok_stdout : valid_utf8 (res_stdout r) = true;
  ok_stderr : valid_utf8 (res_stderr r) = true;
  ok_exit_code : int64_ok (res_exit_code r);
  ok_duration : int64_ok (res_duration_ms r);
  ok_error : error_ok (res_error r);
  ok_warnings : Forall error_ok (res_warnings r);
  ok_approval : ∀ a, res_approval r = Some a → wire_ok a;
  ok_redactions : wire_ok (res_redactions r) }.

Lemma CodedError_ptr_wf p : json_wf (enc_ptr CodedError_json p).
Proof. apply enc_ptr_all; [done|]. intros c _. by repeat constructor. Qed.

Lemma CodedError_ptr_depth p : (json_depth (enc_ptr CodedError_json p) ≤ 1)%Z.
Proof. by apply enc_ptr_all. Qed.

Lemma enc_ptr_wf {A} `{Wire A} (p : option A) : json_wf (enc_ptr encode p).
Proof. apply enc_ptr_all; [done|]. intros; apply encode_wf. Qed.

#[export] Hint Resolve CodedError_ptr_wf enc_ptr_wf arr_wf encode_wf : wire.

Lemma result_pieces_keys r : keys_in result_fields (pieces (result_pieces r)).
Proof. unfold result_pieces. wire_keys. Qed.

Lemma result_pieces_wf r : Forall (λ m, json_wf (m.2)) (pieces (result_pieces r)).
Proof. unfold result_pieces. wire_members; wire_leaf. Qed.

Lemma result_pieces_levels r : Forall (λ m, (json_depth (m.2) ≤ 2)%Z) (pieces (result_pieces r)).
Proof.
  unfold result_pieces. wire_members; try done.
  - pose proof (CodedError_ptr_depth (res_error r)). lia.
  - apply (arr_depth _ _ 1); [done|apply CodedError_ptr_depth].
  - apply enc_ptr_all; [done|]. intros a _. pose proof (encode_depth a). simpl in *. lia.
  - exact (encode_depth (res_redactions r)).
Qed.

Lemma result_pieces_valid r :
  result_ok r → Forall (λ m, valid_utf8 (m.1) = true ∧ json_valid (m.2)) (pieces (result_pieces r)).
Proof.
  intros []. unfold result_pieces. wire_members; (split; [done|]); try done.
  - by apply CodedError_ptr_valid.
  - apply arr_valid. eapply Forall_impl; [done|]. intros. by apply CodedError_ptr_valid.
  - apply enc_ptr_all; [done|]. intros. by apply encode_valid, ok_approval0.
  - by apply encode_valid.
Qed.

Lemma result_body_members r :
  result_ok r → result_body (λ name, values_of name (pieces (result_pieces r))) = Some r.
Proof.
  intros []. unfold result_body, result_pieces. wire_get. wire_read.
  rewrite dec_CodedError_omitted by done. wire_read.
  rewrite dec_list_omitted by (eapply Forall_impl; [done|]; intros; by apply dec_CodedError_one). wire_read.
  rewrite dec_ptr_omitted by (intros a Ha; split; [by apply decode_encode, ok_approval0|done]). wire_read.
  rewrite decode_encode by done. by destruct r.
Qed.

#[export] Program Instance ExecuteResult_Struct : Struct ExecuteResult := {|
  fields := result_fields;
  members_of r := pieces (result_pieces r);
  body := result_body;
  struct_ok := result_ok;
  levels := 2 |}.
Next Obligation. apply result_pieces_keys. Qed.
Next Obligation. apply result_pieces_wf. Qed.
Next Obligation. apply result_pieces_levels. Qed.
Next Obligation. intros. by apply result_pieces_valid. Qed.
Next Obligation. intros. by apply result_body_members. Qed.

(** The fields of the embedded [ExecuteResult] are the record's own. *)
Lemma lookup_pieces_cons_ne name o k v l :
  String.eqb k name = false → lookup_pieces name ((o, k, v) :: l) = lookup_pieces name l.
Proof. cbn [lookup_pieces]. by intros ->. Qed.

#[export] Program Instance ServerExecuteResult_Struct : Struct ServerExecuteResult := {|
  fields := "server_alias" :: result_fields;
  members_of r := pieces (req "server_alias" (JStr (sr_server_alias r)) :: result_pieces (sr_result r));
  body get :=
    alias ← dec_string (get "server_alias"); r ← result_body get;
    Some {| sr_server_alias := alias; sr_result := r |};
  struct_ok r := valid_utf8 (sr_server_alias r) = true ∧ result_ok (sr_result r);
  levels := 2 |}.
Next Obligation. intros. unfold result_pieces. wire_keys. Qed.
Next Obligation. intros. apply (Forall_cons_2 _ (_, _)); [done|]. apply result_pieces_wf. Qed.
Next Obligation. intros. apply (Forall_cons_2 _ (_, _)); [done|]. apply result_pieces_levels. Qed.
Next Obligation. intros r [? ?]. apply (Forall_cons_2 _ (_, _)); [done|]. by apply result_pieces_valid. Qed.
Next Obligation.
  intros r [Ha Hr]. cbv beta. pose proof (result_body_members _ Hr) as Hb.
  unfold result_body in *. rewrite !values_of_pieces in *. change (req "server_alias" (JStr (sr_server_alias r))) with (false, "server_alias", JStr (sr_server_alias r)).
  rewrite !lookup_pieces_cons_ne by done. cbn [lookup_pieces String.eqb Ascii.eqb Bool.eqb omitted].
  assert (lookup_pieces "server_alias" (result_pieces (sr_result r)) = []) as -> by done.
  cbn [app]. rewrite dec_string_one. cbn [mbind option_bind]. rewrite Hb. by destruct r.
Qed.

#[export] Program Instance BatchExecuteResult_Struct : Struct BatchExecuteResult := {|
  fields := ["status"; "results"; "duration_ms"; "approval"; "error"];
  members_of r :=
    pieces
      [ req "status" (JStr (bres_status r));
        opt (is_nil (bres_results r)) "results" (JArr (encode <$> bres_results r));
        opt (bres_duration_ms r =? 0)%Z "duration_ms" (jint (bres_duration_ms r));
        opt (is_none (bres_approval r)) "approval" (enc_ptr encode (bres_approval r));
        opt (is_none (bres_error r)) "error" (enc_ptr CodedError_json (bres_error r)) ];
  body get :=
    status ← dec_string (get "status"); results ← dec_list decode (get "results");
    duration ← dec_int64 (get "duration_ms"); approval ← dec_ptr decode (get "approval");
    error ← dec_CodedError (get "error");
    Some {| bres_status := status; bres_results := results; bres_duration_ms := duration;
            bres_approval := approval; bres_error := error |};
  struct_ok r :=
    valid_utf8 (bres_status r) = true ∧ Forall wire_ok (bres_results r) ∧ int64_ok (bres_duration_ms r) ∧
    (∀ a, bres_approval r = Some a → wire_ok a) ∧ error_ok (bres_error r);
  levels := 4 |}.
Next Obligation. wire_keys. Qed.
Next Obligation. intros. wire_members; wire_leaf. Qed.
Next Obligation.
  intros. wire_members; try done.
  - apply (arr_depth _ _ 3); [done|]. intros x. exact (encode_depth x).
  - apply enc_ptr_all; [done|]. intros x _. pose proof (encode_depth x). simpl in *. lia.
  - pose proof (CodedError_ptr_depth (bres_error a)). lia.
Qed.
Next Obligation.
  intros r (? & Hr & ? & Ha & ?). wire_members; (split; [done|]); try done.
  - apply arr_valid. eapply Forall_impl; [done|]. intros. by apply encode_valid.
  - apply enc_ptr_all; [done|]. intros. by apply encode_valid, Ha.
  - by apply CodedError_ptr_valid.
Qed.
Next Obligation.
  intros r (? & Hr & ? & Ha & ?). wire_get. wire_read.
  rewrite dec_list_omitted by (eapply Forall_impl; [done|]; intros; by apply decode_encode). wire_read.
  rewrite dec_ptr_omitted by (intros x Hx; split; [by apply decode_encode, Ha|done]). wire_read.
  rewrite dec_CodedError_omitted by done. wire_read. by destruct r.
Qed.

#[export] Program Instance ServerSummary_Struct : Struct ServerSummary := {|
  fields := ["alias"; "description"; "available"];
  members_of r :=
    pieces
      [ req "alias" (JStr (ss_alias r));
        opt (str_is_empty (ss_description r)) "description" (JStr (ss_description r));
        req "available" (JBool (ss_available r)) ];
  body get :=
    alias ← dec_string (get "alias"); description ← dec_string (get "description");
    available ← dec_bool (get "available");
    Some {| ss_alias := alias; ss_description := description; ss_available := available |};
  struct_ok r := valid_utf8 (ss_alias r) = true ∧ valid_utf8 (ss_description r) = true;
  levels := 0 |}.
Next Obligation. wire_keys. Qed.
Next Obligation. intros. wire_members; wire_leaf. Qed.
Next Obligation. intros. wire_members; done. Qed.
Next Obligation. intros r (? & ?). wire_members; done. Qed.
Next Obligation. intros r (? & ?). wire_get. wire_read. by destruct r. Qed.

#[export] Program Instance BrokerStatus_Struct : Struct BrokerStatus := {|
  fields := ["daemon_reachable"; "vault_locked"; "version"; "policy_version"; "audit_fail_closed"; "risk_policy";
             "log_level"; "batch_concurrency"; "pid"; "started_at"; "server_count"];
  members_of r :=
    pieces
      [ req "daemon_reachable" (JBool (bs_daemon_reachable r));
        req "vault_locked" (JBool (bs_vault_locked r));
        req "version" (JStr (bs_version r));
        req "policy_version" (JStr (bs_policy_version r));
        req "audit_fail_closed" (JBool (bs_audit_fail_closed r));
        opt (str_is_empty (bs_risk_policy r)) "risk_policy" (JStr (bs_risk_policy r));
        opt (str_is_empty (bs_log_level r)) "log_level" (JStr (bs_log_level r));
        opt (bs_batch_concurrency r =? 0)%Z "batch_concurrency" (jint (bs_batch_concurrency r));
        opt (bs_pid r =? 0)%Z "pid" (jint (bs_pid r));
        opt (str_is_empty (bs_started_at r)) "started_at" (JStr (bs_started_at r));
        opt (bs_server_count r =? 0)%Z "server_count" (jint (bs_server_count r)) ];
  body get :=
    reachable ← dec_bool (get "daemon_reachable"); locked ← dec_bool (get "vault_locked");
    version ← dec_string (get "version"); policy ← dec_string (get "policy_version");
    closed ← dec_bool (get "audit_fail_closed"); risk ← dec_string (get "risk_policy");
    level ← dec_string (get "log_level"); concurrency ← dec_int64 (get "batch_concurrency");
    pid ← dec_int64 (get "pid"); started ← dec_string (get "started_at"); count ← dec_int64 (get "server_count");
    Some {| bs_daemon_reachable := reachable; bs_vault_locked := locked; bs_version := version;
            bs_policy_version := policy; bs_audit_fail_closed := closed; bs_risk_policy := risk;
            bs_log_level := level; bs_batch_concurrency := concurrency; bs_pid := pid;
            bs_started_at := started; bs_server_count := count |};
  struct_ok r :=
    valid_utf8 (bs_version r) = true ∧ valid_utf8 (bs_policy_version r) = true ∧
    valid_utf8 (bs_risk_policy r) = true ∧ valid_utf8 (bs_log_level r) = true ∧
    valid_utf8 (bs_started_at r) = true ∧
    int64_ok (bs_batch_concurrency r) ∧ int64_ok (bs_pid r) ∧ int64_ok (bs_server_count r);
  levels := 0 |}.
Next Obligation. wire_keys. Qed.
Next Obligation. intros. wire_members; wire_leaf. Qed.
Next Obligation. intros. wire_members; done. Qed.
Next Obligation. intros r (? & ? & ? & ? & ? & ? & ? & ?). wire_members; done. Qed.
Next Obligation. intros r (? & ? & ? & ? & ? & ? & ? & ?). wire_get. wire_read. by destruct r. Qed.

(** The aliases and the categories have no [omitempty]: a nil slice is [null]. *)
Definition enc_strings (p : option (list string)) : json := enc_ptr (λ l, JArr (JStr <$> l)) p.

Definition strings_ok (p : option (list string)) : Prop := ∀ l, p = Some l → Forall (λ s, valid_utf8 s = true) l.

Lemma enc_strings_wf p : json_wf (enc_strings p).
Proof. unfold enc_strings. apply enc_ptr_all; [done|]. intros. by apply arr_wf. Qed.

Lemma enc_strings_depth p : (json_depth (enc_strings p) ≤ 1)%Z.
Proof. unfold enc_strings. apply enc_ptr_all; [done|]. intros. by apply (arr_depth _ _ 0). Qed.

Lemma enc_strings_valid p : strings_ok p → json_valid (enc_strings p).
Proof. intros Hp. unfold enc_strings. apply enc_ptr_all; [done|]. intros l ->. by apply arr_valid, Hp. Qed.

Lemma dec_strings_one p : dec_slice dec_string [enc_strings p] = Some p.
Proof. apply dec_slice_one. intros. by apply Forall_true. Qed.

#[export] Hint Resolve enc_strings_wf : wire.

#[export] Program Instance ApprovalSummary_Struct : Struct ApprovalSummary := {|
  fields := ["id"; "server_aliases"; "categories"; "command"; "created_at"; "expires_at"; "state"];
  members_of r :=
    pieces
      [ req "id" (JStr (as_id r));
        req "server_aliases" (enc_strings (as_server_aliases r));
        req "categories" (enc_strings (as_categories r));
        opt (str_is_empty (as_command r)) "command" (JStr (as_command r));
        req "created_at" (JStr (as_created_at r));
        req "expires_at" (JStr (as_expires_at r));
        req "state" (JStr (as_state r)) ];
  body get :=
    id ← dec_string (get "id"); aliases ← dec_slice dec_string (get "server_aliases");
    categories ← dec_slice dec_string (get "categories"); command ← dec_string (get "command");
    created ← dec_string (get "created_at"); expires ← dec_string (get "expires_at");
    state ← dec_string (get "state");
    Some {| as_id := id; as_server_aliases := aliases; as_categories := categories; as_command := command;
            as_created_at := created; as_expires_at := expires; as_state := state |};
  struct_ok r :=
    valid_utf8 (as_id r) = true ∧ strings_ok (as_server_aliases r) ∧ strings_ok (as_categories r) ∧
    valid_utf8 (as_command r) = true ∧ valid_utf8 (as_created_at r) = true ∧
    valid_utf8 (as_expires_at r) = true ∧ valid_utf8 (as_state r) = true;
  levels := 1 |}.
Next Obligation. wire_keys. Qed.
Next Obligation. intros. wire_members; wire_leaf. Qed.
Next Obligation. intros. wire_members; first [done|apply enc_strings_depth]. Qed.
Next Obligation. intros r (? & ? & ? & ? & ? & ? & ?). wire_members; (split; [done|]); first [done|by apply enc_strings_valid]. Qed.
Next Obligation.
  intros r (? & ? & ? & ? & ? & ? & ?). wire_get. rewrite !dec_strings_one. wire_read. by destruct r.
Qed.

(** A slice as a whole result: nil or not. *)
#[export] Program Instance Wire_slice {A} `{Wire A} : Wire (option (list A)) := {|
  encode := enc_ptr (λ l, JArr (encode <$> l));
  decode := dec_slice decode;
  wire_ok p := ∀ l, p = Some l → Forall wire_ok l;
  depth := 1 + Z.max 0 depth |}.
Next Obligation. intros. apply enc_ptr_all; [done|]. intros. apply arr_wf. intros; apply encode_wf. Qed.
Next Obligation.
  intros A HA p. apply enc_ptr_all; [simpl; lia|]. intros l _. apply arr_depth; [lia|].
  intros a. pose proof (encode_depth a). lia.
Qed.
Next Obligation.
  intros A HA p Hp. apply enc_ptr_all; [done|]. intros l ->. apply arr_valid.
  eapply Forall_impl; [by apply Hp|]. intros. by apply encode_valid.
Qed.
Next Obligation.
  intros A HA p Hp. apply dec_slice_one. intros l ->. eapply Forall_impl; [by apply Hp|].
  intros. by apply decode_encode.
Qed.
