(* ===== verification/Protocol.v ===== *)
(** * The broker protocol: [internal/broker/protocol.go] and the encoding half
    of [internal/broker/server.go]

    Requests, responses and protocol errors, the strict decoder, and the
    functions that fit a result into one frame: [marshalExecuteResult],
    [marshalBatchExecuteResult], [fitExecuteOutput] and the JSON size
    functions they count with.

    The results: the size functions agree with the encoder byte for byte; a
    prefix is the longest that fits its budget; every response the server
    encodes fits one frame, and loses output only with [truncated] set. *)

From S2P Require Import Prelude GoStr Utf8 Model Frame Json Wire.
From Stdlib Require Import Ascii.
Open Scope Z_scope.
Open Scope string_scope.
Open Scope list_scope.

Definition ProtocolVersion : string := "2".
Definition maxRequestIDBytes : Z := 128.
Definition ErrorInvalidRequest : string := "invalid_request".
Definition ErrorMethodNotFound : string := "method_not_found".
Definition ErrorFrameTooLarge : string := "frame_too_large".
Definition ErrorInternal : string := "internal_error".
Definition ErrorUnavailable : string := "unavailable".

(** ** Messages

    A [json.RawMessage] is the value its bytes spell, [None] when empty: the
    program only asks whether it is empty, whether it is [null], and decodes it. *)

Record Request := {
  rq_version : string;
  rq_request_id : string;
  rq_method : string;
  rq_params : option json }.

Record RPCError := { rpc_code : string; rpc_message : string }.

Record Response := {
  rsp_version : string;
  rsp_request_id : string;
  rsp_result : option json;
  rsp_error : option RPCError }.

Definition RPCError_Error (err : option RPCError) : string :=
  match err with None => "" | Some e => rpc_code e +:+ ": " +:+ rpc_message e end.

Definition protocolError (requestID code message : string) : Response := {|
  rsp_version := ProtocolVersion; rsp_request_id := requestID; rsp_result := None;
  rsp_error := Some {| rpc_code := code; rpc_message := message |} |}.

#[export] Program Instance RPCError_Struct : Struct RPCError := {|
  fields := ["code"; "message"];
  members_of r := pieces [ req "code" (JStr (rpc_code r)); req "message" (JStr (rpc_message r)) ];
  body get :=
    code ← dec_string (get "code"); message ← dec_string (get "message");
    Some {| rpc_code := code; rpc_message := message |};
  struct_ok r := valid_utf8 (rpc_code r) = true ∧ valid_utf8 (rpc_message r) = true;
  levels := 0 |}.
Next Obligation. wire_keys. Qed.
Next Obligation. intros. wire_members; wire_leaf. Qed.
Next Obligation. intros. wire_members; done. Qed.
Next Obligation. intros r (? & ?). wire_members; done. Qed.
Next Obligation. by intros []. Qed.

(** A raw member is written as its value and read as the last value given. *)
Definition raw_member (k : string) (p : option json) : piece := opt (is_none p) k (default JNull p).

Definition dec_raw : dec (option json) := λ js, Some (last js).

Definition request_pieces (r : Request) : list piece :=
  [ req "version" (JStr (rq_version r)); req "request_id" (JStr (rq_request_id r));
    req "method" (JStr (rq_method r)); raw_member "params" (rq_params r) ].

Definition Request_json (r : Request) : json := JObj (pieces (request_pieces r)).

Definition dec_Request : dec Request :=
  dec_struct true ["version"; "request_id"; "method"; "params"] (λ get,
    version ← dec_string (get "version"); id ← dec_string (get "request_id");
    method ← dec_string (get "method"); params ← dec_raw (get "params");
    Some {| rq_version := version; rq_request_id := id; rq_method := method; rq_params := params |}).

Definition response_pieces (r : Response) : list piece :=
  [ req "version" (JStr (rsp_version r)); req "request_id" (JStr (rsp_request_id r));
    raw_member "result" (rsp_result r);
    opt (is_none (rsp_error r)) "error" (enc_ptr encode (rsp_error r)) ].

Definition Response_json (r : Response) : json := JObj (pieces (response_pieces r)).

Definition dec_Response : dec Response :=
  dec_struct true ["version"; "request_id"; "result"; "error"] (λ get,
    version ← dec_string (get "version"); id ← dec_string (get "request_id");
    result ← dec_raw (get "result"); error ← dec_ptr decode (get "error");
    Some {| rsp_version := version; rsp_request_id := id; rsp_result := result; rsp_error := error |}).

(** [decodeStrictJSON], of a frame and of a raw member. *)
Definition decodeStrictJSON {A} (d : dec A) (data : string) : option A :=
  j ← read_document data; d [j].

Definition decode_raw {A} (d : dec A) (data : option json) : option A :=
  j ← data; d [j].

(** [json.Marshal], which cannot fail on these types. *)
Definition Marshal (j : json) : option string := Some (print j).

(** ** Sizes *)

(** [normalizeUTF8] *)
Definition normalizeUTF8 (value : string) : string :=
  if valid_utf8 value then value else to_valid_utf8 value.

Definition stdoutFieldBytes : Z := 1 + slen (quote "stdout") + 1.
Definition stderrFieldBytes : Z := 1 + slen (quote "stderr") + 1.
Definition jsonStringQuotes : Z := 2.

Definition jsonRuneSize (character : Z) : Z :=
  if Z.eqb character 8 || Z.eqb character 12 || Z.eqb character 10 || Z.eqb character 13
     || Z.eqb character 9 || Z.eqb character 34 || Z.eqb character 92 then 2
  else if Z.eqb character 60 || Z.eqb character 62 || Z.eqb character 38
          || Z.eqb character 8232 || Z.eqb character 8233 then 6
  else if (character <? 32)%Z then 6
  else rune_len character.

Fixpoint escaped_size_from (l : list Z) (size limit : Z) : Z :=
  match l with
  | [] => size
  | character :: l' =>
      let size := (size + jsonRuneSize character)%Z in
      if (limit <? size)%Z then limit + 1 else escaped_size_from l' size limit
  end.

Definition jsonEscapedContentSize (value : string) (limit : Z) : Z :=
  escaped_size_from (rune_values value) 0 limit.

(** The loop of [jsonPrefix], over the runes of the value at their offsets. *)
Fixpoint prefix_from (l : list step) (offset end_ used budget : Z) : Z * Z :=
  match l with
  | [] => (end_, used)
  | x :: l' =>
      let cost := jsonRuneSize (st_rune x) in
      if (budget <? used + cost)%Z then (end_, used)
      else prefix_from l' (offset + slen (st_bytes x)) (offset + rune_len (st_rune x)) (used + cost) budget
  end.

Definition jsonPrefix (value : string) (budget : Z) : string * Z :=
  let '(end_, used) := prefix_from (runes value) 0 0 0 budget in
  (str_take (Z.to_nat end_) value, used).

(** ** [fitExecuteOutput] *)

Record output := { out_value : string; out_fieldSize : Z; out_isStdout : bool }.

Definition fitExecuteOutput (stdout stderr : string) (available : Z) : string * string :=
  let outputs :=
    (if str_is_empty stdout then []
     else [{| out_value := stdout; out_fieldSize := stdoutFieldBytes; out_isStdout := true |}])
    ++ (if str_is_empty stderr then []
        else [{| out_value := stderr; out_fieldSize := stderrFieldBytes; out_isStdout := false |}]) in
  let fixed := foldr (λ o n, out_fieldSize o + jsonStringQuotes + n)%Z 0%Z outputs in
  let contentBudget := (available - fixed)%Z in
  let fullSize o := jsonEscapedContentSize (out_value o) contentBudget in
  match outputs with
  | [] => ("", "")
  | o :: rest =>
      if (contentBudget <=? 0)%Z then ("", "")
      else match rest with
      | [] =>
          let p := fst (jsonPrefix (out_value o) (Z.min (fullSize o) contentBudget)) in
          if out_isStdout o then (p, "") else ("", p)
      | o' :: _ =>
          let half := (contentBudget / 2)%Z in
          let b0 := Z.min (fullSize o) half in
          let b1 := Z.min (fullSize o') half in
          let remaining := (contentBudget - b0 - b1)%Z in
          let added := if (b0 <? fullSize o)%Z then Z.min (fullSize o - b0) remaining else 0%Z in
          let b0 := (b0 + added)%Z in
          let remaining := (remaining - added)%Z in
          let b1 := if (b1 <? fullSize o')%Z then (b1 + Z.min (fullSize o' - b1) remaining)%Z else b1 in
          (fst (jsonPrefix (out_value o) b0), fst (jsonPrefix (out_value o') b1))
      end
  end.

(** ** Results into responses *)

Definition with_outputs (r : ExecuteResult) (stdout stderr : string) (truncated : bool) : ExecuteResult := {|
  res_status := res_status r; res_stdout := stdout; res_stderr := stderr;
  res_exit_code := res_exit_code r; res_duration_ms := res_duration_ms r; res_truncated := truncated;
  res_error := res_error r; res_warnings := res_warnings r; res_approval := res_approval r;
  res_redactions := res_redactions r |}.

Definition result_response (requestID : string) (data : json) : Response := {|
  rsp_version := ProtocolVersion; rsp_request_id := requestID; rsp_result := Some data; rsp_error := None |}.

(** [encodedResultResponse] and [encodedGenericResponse]: the response and the
    length of its encoding. *)
Definition encodedGenericResponse {A} `{Wire A} (requestID : string) (value : A) : option (Response * Z) :=
  let response := result_response requestID (encode value) in
  encoded ← Marshal (Response_json response); Some (response, slen encoded).

Definition encodedResultResponse (requestID : string) (result : ExecuteResult) : option (Response * Z) :=
  encodedGenericResponse requestID result.

Definition unavailable_response (requestID : string) : Response :=
  protocolError requestID ErrorInternal "response unavailable".

(** The part of [marshalExecuteResult] for a result that does not fit. *)
Definition marshal_truncated (requestID : string) (result : ExecuteResult) : Response :=
  let stdout := res_stdout result in
  let stderr := res_stderr result in
  let result := with_outputs result "" "" true in
  match encodedResultResponse requestID result with
  | None => unavailable_response requestID
  | Some (base, baseSize) =>
      if (MaxFrameBytes <? baseSize)%Z then unavailable_response requestID
      else
        let '(stdout, stderr) := fitExecuteOutput stdout stderr (MaxFrameBytes - baseSize) in
        if str_is_empty stdout && str_is_empty stderr then base
        else result_response requestID (encode (with_outputs result stdout stderr true))
  end.

Definition normalized_result (result : ExecuteResult) : ExecuteResult :=
  let stdout := normalizeUTF8 (res_stdout result) in
  let stderr := normalizeUTF8 (res_stderr result) in
  with_outputs result stdout stderr
    (if negb (String.eqb stdout (res_stdout result)) || negb (String.eqb stderr (res_stderr result))
     then true else res_truncated result).

Definition marshalExecuteResult (requestID : string) (result : ExecuteResult) : Response :=
  let result := normalized_result result in
  if (slen (res_stdout result) + slen (res_stderr result) <=? MaxFrameBytes)%Z then
    match encodedResultResponse requestID result with
    | Some (response, size) =>
        if (size <=? MaxFrameBytes)%Z then response else marshal_truncated requestID result
    | None => marshal_truncated requestID result
    end
  else marshal_truncated requestID result.

(** *** Batches *)

Definition with_results (b : BatchExecuteResult) (results : list ServerExecuteResult) : BatchExecuteResult := {|
  bres_status := bres_status b; bres_results := results; bres_duration_ms := bres_duration_ms b;
  bres_approval := bres_approval b; bres_error := bres_error b |}.

Definition on_result (f : ExecuteResult → ExecuteResult) (s : ServerExecuteResult) : ServerExecuteResult :=
  {| sr_server_alias := sr_server_alias s; sr_result := f (sr_result s) |}.

(** The outputs cleared, [truncated] where there were any. *)
Definition cleared (r : ExecuteResult) : ExecuteResult :=
  with_outputs r "" ""
    (if negb (str_is_empty (res_stdout r)) || negb (str_is_empty (res_stderr r)) then true else res_truncated r).

(** Give every result the prefixes of its own outputs that fit. *)
Definition refit (perResult : Z) (original : ExecuteResult) : ExecuteResult :=
  let '(stdout, stderr) := fitExecuteOutput (res_stdout original) (res_stderr original) perResult in
  with_outputs (cleared original) stdout stderr (res_truncated (cleared original)).

(** The retries, each with three quarters of the last share. *)
Fixpoint fit_attempts (attempts : nat) (requestID : string) (b : BatchExecuteResult)
    (original : list ServerExecuteResult) (perResult : Z) (base : Response) : Response :=
  match attempts with
  | O => base
  | S attempts' =>
      match encodedGenericResponse requestID (with_results b (on_result (refit perResult) <$> original)) with
      | Some (response, size) =>
          if (size <=? MaxFrameBytes)%Z then response
          else fit_attempts attempts' requestID b original (perResult * 3 / 4)%Z base
      | None => fit_attempts attempts' requestID b original (perResult * 3 / 4)%Z base
      end
  end.

Definition marshalBatchExecuteResult (requestID : string) (result : BatchExecuteResult) : Response :=
  let result := with_results result (on_result normalized_result <$> bres_results result) in
  let overflow :=
    let original := bres_results result in
    let stripped := with_results result (on_result cleared <$> original) in
    match encodedGenericResponse requestID stripped with
    | None => unavailable_response requestID
    | Some (base, baseSize) =>
        if (MaxFrameBytes <? baseSize)%Z then unavailable_response requestID
        else if is_nil original then base
        else
          let perResult := ((MaxFrameBytes - baseSize) / Z.of_nat (length original))%Z in
          if (perResult <=? 0)%Z then base
          else fit_attempts 8 requestID result original perResult base
    end in
  match encodedGenericResponse requestID result with
  | Some (response, size) => if (size <=? MaxFrameBytes)%Z then response else overflow
  | None => overflow
  end.

(** [marshalResult], of the other results. *)
Definition marshalResult {A} `{Wire A} (requestID : string) (value : A) : Response :=
  match Marshal (encode value) with
  | None => unavailable_response requestID
  | Some _ => result_response requestID (encode value)
  end.

(** ** Writing a response *)

Definition fits (data : option string) : option string :=
  d ← data; if (slen d <=? MaxFrameBytes)%Z then Some d else None.

(** The line [writeResponse] sends, without its newline. *)
Definition response_line (response : Response) : string :=
  match fits (Marshal (Response_json response)) with
  | Some data => data
  | None =>
      let requestID := rsp_request_id response in
      let requestID := if (maxRequestIDBytes <? slen requestID)%Z then "" else requestID in
      match fits (Marshal (Response_json (unavailable_response requestID))) with
      | Some data => data
      | None => print (Response_json (unavailable_response ""))
      end
  end.

(** ** The size functions agree with the encoder *)

(** The bytes between the quotes of an encoded string. *)
Definition content_size (s : string) : Z := slen (escape_steps (runes s)).

Lemma quote_slen s : slen (quote s) = (2 + content_size s)%Z.
Proof. unfold quote, content_size, slen. cbn [String.length]. rewrite str_length_app. simpl. lia. Qed.

Lemma escape_step_size a s :
  st_ok (decode1 a s) = true → slen (escape_step (decode1 a s)) = jsonRuneSize (st_rune (decode1 a s)).
Proof.
  intros Hok. unfold escape_step. rewrite Hok. pose proof (step_rune_len a s Hok) as Hl. revert Hl.
  generalize (st_bytes (decode1 a s)) (st_rune (decode1 a s)). intros b r Hl.
  unfold short_escape, needs_unicode, jsonRuneSize.
  repeat (match goal with |- context [Z.eqb r ?n] => destruct (Z.eqb r n) eqn:? end; bool_hyps; [by subst|]).
  cbn [orb]. rewrite !orb_false_r. by destruct (r <? 32)%Z.
Qed.

Fixpoint cost (l : list step) : Z :=
  match l with [] => 0 | x :: l' => jsonRuneSize (st_rune x) + cost l' end.

Lemma jsonRuneSize_pos r : (1 ≤ jsonRuneSize r)%Z.
Proof. unfold jsonRuneSize. pose proof (rune_len_pos r). repeat case_match; lia. Qed.

Lemma cost_nonneg l : (0 ≤ cost l)%Z.
Proof. induction l as [|x l IH]; simpl; [lia|]. pose proof (jsonRuneSize_pos (st_rune x)). lia. Qed.

Lemma cost_app l1 l2 : cost (l1 ++ l2) = (cost l1 + cost l2)%Z.
Proof. induction l1 as [|x l1 IH]; simpl; [done|]. lia. Qed.

Lemma content_size_cost s : valid_utf8 s = true → content_size s = cost (runes s).
Proof.
  unfold content_size, valid_utf8. induction s as [|a s u Hu Hr IH] using runes_ind; [done|].
  rewrite Hr. cbn [forallb cost escape_steps]. intros [Hok Hv]%andb_true_iff.
  by rewrite slen_app, escape_step_size, IH.
Qed.

Lemma escaped_size_spec l size limit :
  (0 ≤ size ≤ limit)%Z →
  escaped_size_from (st_rune <$> l) size limit = Z.min (size + cost l) (limit + 1).
Proof.
  revert size. induction l as [|x l IH]; intros size Hs; cbn [fmap list_fmap escaped_size_from cost]; [lia|].
  pose proof (jsonRuneSize_pos (st_rune x)). pose proof (cost_nonneg l).
  destruct (limit <? size + jsonRuneSize (st_rune x))%Z eqn:Hlt; bool_hyps; [lia|].
  fold (st_rune <$> l). rewrite IH by lia. lia.
Qed.

(** The size of a string's encoding, cut off one past the limit. *)
Lemma jsonEscapedContentSize_eq s limit :
  valid_utf8 s = true → (0 ≤ limit)%Z → jsonEscapedContentSize s limit = Z.min (content_size s) (limit + 1).
Proof.
  intros Hv Hl. unfold jsonEscapedContentSize, rune_values. rewrite escaped_size_spec by lia.
  by rewrite content_size_cost.
Qed.

(** The runes a budget pays for. *)
Fixpoint affordable (l : list step) (budget : Z) : list step :=
  match l with
  | [] => []
  | x :: l' => if (budget <? jsonRuneSize (st_rune x))%Z then []
               else x :: affordable l' (budget - jsonRuneSize (st_rune x))
  end.

Lemma affordable_app l budget : ∃ rest, l = affordable l budget ++ rest.
Proof.
  revert budget. induction l as [|x l IH]; intros budget; simpl; [by exists []|].
  case_match; [by exists (x :: l)|]. destruct (IH (budget - jsonRuneSize (st_rune x))%Z) as [rest Hr].
  exists rest. by rewrite Hr at 1.
Qed.

Lemma affordable_cost l budget : (0 ≤ budget)%Z → (cost (affordable l budget) ≤ budget)%Z.
Proof.
  revert budget. induction l as [|x l IH]; intros budget Hb; simpl; [done|].
  case_match; bool_hyps; simpl; [done|]. specialize (IH (budget - jsonRuneSize (st_rune x))%Z). lia.
Qed.

Lemma affordable_maximal l budget x rest :
  l = affordable l budget ++ x :: rest → (budget < cost (affordable l budget) + jsonRuneSize (st_rune x))%Z.
Proof.
  revert budget. induction l as [|y l IH]; intros budget; simpl; [done|].
  case_match; bool_hyps; simpl; [by intros [= -> ->]|].
  intros [= Hl]. specialize (IH _ Hl). lia.
Qed.

Lemma affordable_all l budget : (cost l ≤ budget)%Z → affordable l budget = l.
Proof.
  revert budget. induction l as [|x l IH]; intros budget Hb; simpl in *; [done|].
  pose proof (cost_nonneg l). rewrite (proj2 (Z.ltb_ge _ _)) by lia. by rewrite IH by lia.
Qed.

Lemma prefix_from_spec l offset used budget :
  forallb (λ x, Z.eqb (slen (st_bytes x)) (rune_len (st_rune x))) l = true →
  prefix_from l offset offset used budget =
  (offset + slen (concat_bytes (affordable l (budget - used))), used + cost (affordable l (budget - used)))%Z.
Proof.
  revert offset used. induction l as [|x l IH]; intros offset used Hl; cbn [prefix_from affordable].
  - unfold slen. simpl. f_equal; lia.
  - cbn [forallb] in Hl. apply andb_true_iff in Hl as [Hx Hl]. apply Z.eqb_eq in Hx.
    destruct (budget <? used + jsonRuneSize (st_rune x))%Z eqn:Hlt; bool_hyps.
    + rewrite (proj2 (Z.ltb_lt _ _)) by lia. unfold slen. simpl. f_equal; lia.
    + rewrite (proj2 (Z.ltb_ge _ _)) by lia. rewrite <-Hx, IH by done.
      replace (budget - (used + jsonRuneSize (st_rune x)))%Z with (budget - used - jsonRuneSize (st_rune x))%Z by lia.
      cbn [concat_bytes cost]. rewrite slen_app. f_equal; lia.
Qed.

Lemma valid_steps_len s :
  valid_utf8 s = true → forallb (λ x, Z.eqb (slen (st_bytes x)) (rune_len (st_rune x))) (runes s) = true.
Proof.
  unfold valid_utf8. induction s as [|a s u Hu Hr IH] using runes_ind; [done|].
  rewrite Hr. cbn [forallb]. intros [Hok Hv]%andb_true_iff. rewrite IH, step_rune_len by done.
  by rewrite Z.eqb_refl.
Qed.

Lemma jsonPrefix_eq s budget :
  valid_utf8 s = true →
  jsonPrefix s budget = (concat_bytes (affordable (runes s) budget), cost (affordable (runes s) budget)).
Proof.
  intros Hv. unfold jsonPrefix. rewrite prefix_from_spec by by apply valid_steps_len.
  rewrite Z.sub_0_r, !Z.add_0_l. f_equal. unfold slen. rewrite Nat2Z.id.
  destruct (affordable_app (runes s) budget) as [rest Hr].
  assert (s = concat_bytes (affordable (runes s) budget) +:+ concat_bytes rest) as Hs.
  { by rewrite <-concat_bytes_app, <-Hr, concat_runes. }
  rewrite Hs at 2. apply str_take_app.
Qed.

(** [jsonPrefix] of a valid string is its longest prefix of whole
    characters whose encoding takes at most [budget] bytes: it is valid UTF-8,
    the second result is exactly the size of its encoding, and one more
    character would exceed the budget. *)
Theorem jsonPrefix_maximal s budget :
  valid_utf8 s = true → (0 ≤ budget)%Z →
  let '(p, used) := jsonPrefix s budget in
  valid_utf8 p = true ∧ used = content_size p ∧ (used ≤ budget)%Z ∧
  ∃ rest, s = p +:+ rest ∧ valid_utf8 rest = true ∧
    match runes rest with
    | [] => True
    | x :: _ => (budget < content_size (p +:+ st_bytes x))%Z
    end.
Proof.
  intros Hv Hb. rewrite jsonPrefix_eq by done.
  destruct (affordable_app (runes s) budget) as [tail Htail].
  pose proof (valid_utf8_prefix_steps s _ _ Hv Htail) as [Hp Hrp].
  assert (s = concat_bytes (affordable (runes s) budget) +:+ concat_bytes tail) as Hs.
  { by rewrite <-concat_bytes_app, <-Htail, concat_runes. }
  assert (runes (concat_bytes tail) = tail) as Hrt.
  { pose proof (runes_valid_app (concat_bytes (affordable (runes s) budget)) (concat_bytes tail) Hp) as Happ.
    rewrite <-Hs, Hrp in Happ. rewrite Htail in Happ at 1. symmetry. revert Happ. apply app_inv_head. }
  split; [done|]. split; [by rewrite content_size_cost, Hrp|]. split; [by apply affordable_cost|].
  exists (concat_bytes tail). split; [done|].
  assert (valid_utf8 (concat_bytes tail) = true) as Hvt.
  { unfold valid_utf8 in Hv |- *. rewrite Htail, forallb_app in Hv. rewrite Hrt. by apply andb_true_iff in Hv as []. }
  split; [done|]. destruct (concat_bytes tail) as [|a u] eqn:Hct; [done|].
  destruct (runes_cons a u) as (v & _ & Hra). rewrite Hra in Hrt |- *.
  unfold valid_utf8 in Hvt. rewrite Hra in Hvt. cbn [forallb] in Hvt. apply andb_true_iff in Hvt as [Hok _].
  rewrite <-Hrt in Htail. pose proof (affordable_maximal _ _ _ _ Htail) as Hmax.
  pose proof (runes_ok_app a u "" Hok) as Hone. rewrite str_app_nil_r in Hone.
  rewrite content_size_cost by (apply valid_utf8_app; [done|by apply valid_utf8_step]).
  rewrite runes_valid_app, Hrp, Hone, cost_app by done. simpl. lia.
Qed.

Lemma jsonPrefix_maximal_witness : jsonPrefix ("a<" +:+ rune_error_str +:+ "b") 10 = ("a<" +:+ rune_error_str, 10%Z) ∧
  valid_utf8 ("a<" +:+ rune_error_str) = true.
Proof.
  split; [reflexivity|].
  exact (proj1 (jsonPrefix_maximal ("a<" +:+ rune_error_str +:+ "b") 10 eq_refl ltac:(lia))).
Defined.

(** ** [fitExecuteOutput] *)

Lemma content_size_nonneg s : (0 ≤ content_size s)%Z.
Proof. apply slen_nonneg. Qed.

Lemma content_size_pos s : str_is_empty s = false → (1 ≤ content_size s)%Z.
Proof.
  destruct s as [|a s]; [done|]. intros _. unfold content_size.
  destruct (runes_cons a s) as (u & _ & ->). cbn [escape_steps]. rewrite slen_app.
  pose proof (escape_step_pos _ (step_bytes_pos a s)). pose proof (slen_nonneg (escape_steps (runes u))).
  unfold slen in *. lia.
Qed.

(** Escaping never shortens a valid string. *)
Lemma content_size_ge s : valid_utf8 s = true → (slen s ≤ content_size s)%Z.
Proof.
  intros Hv. rewrite content_size_cost by done. revert Hv. unfold valid_utf8.
  induction s as [|a s u Hu Hr IH] using runes_ind; [done|].
  rewrite Hr. cbn [forallb cost]. intros [Hok Hv]%andb_true_iff. rewrite Hu, slen_app, step_rune_len by done.
  specialize (IH Hv). enough (rune_len (st_rune (decode1 a s)) ≤ jsonRuneSize (st_rune (decode1 a s)))%Z by lia.
  pose proof (rune_len_pos (st_rune (decode1 a s))). unfold jsonRuneSize.
  pose proof (step_rune_len a s Hok) as Hl. revert Hl. generalize (st_bytes (decode1 a s)) as b.
  generalize dependent (st_rune (decode1 a s)). intros r Hr4 b _.
  destruct (_ || _) eqn:Hset; [|repeat case_match; lia].
  enough (rune_len r = 1%Z) as -> by lia.
  repeat (apply orb_true_iff in Hset as [Hset|Hset]); apply Z.eqb_eq in Hset; by subst.
Qed.

Definition prefix_of (p s : string) : Prop := ∃ rest, s = p +:+ rest.

(** What [jsonPrefix] gives for a budget, in one line. *)
Lemma jsonPrefix_fits s budget :
  valid_utf8 s = true → (0 ≤ budget)%Z →
  let p := fst (jsonPrefix s budget) in
  valid_utf8 p = true ∧ prefix_of p s ∧ (content_size p ≤ budget)%Z ∧ ((content_size s ≤ budget)%Z → p = s).
Proof.
  intros Hv Hb. rewrite jsonPrefix_eq by done. cbn [fst].
  destruct (affordable_app (runes s) budget) as [tail Htail].
  pose proof (valid_utf8_prefix_steps s _ _ Hv Htail) as [Hp Hrp].
  split; [done|]. split.
  { exists (concat_bytes tail). by rewrite <-concat_bytes_app, <-Htail, concat_runes. }
  rewrite content_size_cost, Hrp by done. split; [by apply affordable_cost|].
  rewrite content_size_cost by done. intros Hc. rewrite affordable_all by done. apply concat_runes.
Qed.

(** What a non-empty output adds to the encoding. *)
Definition field_cost (fieldSize : Z) (s : string) : Z :=
  if str_is_empty s then 0 else (fieldSize + jsonStringQuotes + content_size s)%Z.

Definition outputs_cost (stdout stderr : string) : Z :=
  (field_cost stdoutFieldBytes stdout + field_cost stderrFieldBytes stderr)%Z.

Lemma field_cost_le fieldSize s budget :
  (0 ≤ budget)%Z → (0 ≤ fieldSize)%Z → (content_size s ≤ budget)%Z →
  (field_cost fieldSize s ≤ fieldSize + jsonStringQuotes + budget)%Z.
Proof. unfold field_cost, jsonStringQuotes. case_match; lia. Qed.

(** The two budgets of [fitExecuteOutput]: they share the content budget, each
    side has at least its half of it when it needs it, and both are whole when
    both fit. *)
Lemma fair_budgets full0 full1 content half b0 b1 remaining added b0' remaining' b1' :
  (0 ≤ content)%Z → (0 ≤ full0)%Z → (0 ≤ full1)%Z → half = (content / 2)%Z →
  b0 = Z.min full0 half → b1 = Z.min full1 half → remaining = (content - b0 - b1)%Z →
  added = (if (b0 <? full0)%Z then Z.min (full0 - b0) remaining else 0%Z) →
  b0' = (b0 + added)%Z → remaining' = (remaining - added)%Z →
  b1' = (if (b1 <? full1)%Z then (b1 + Z.min (full1 - b1) remaining')%Z else b1) →
  (0 ≤ b0')%Z ∧ (0 ≤ b1')%Z ∧ (b0' + b1' ≤ content)%Z ∧
  (Z.min full0 half ≤ b0')%Z ∧ (Z.min full1 half ≤ b1')%Z ∧
  ((full0 + full1 ≤ content)%Z → b0' = full0 ∧ b1' = full1).
Proof.
  intros Hc H0 H1 Hh. pose proof (Z.mul_div_le content 2). pose proof (Z.mul_succ_div_gt content 2).
  intros. destruct (b0 <? full0)%Z eqn:?, (b1 <? full1)%Z eqn:?; bool_hyps; subst; lia.
Qed.

Lemma fitExecuteOutput_spec stdout stderr available a b :
  valid_utf8 stdout = true → valid_utf8 stderr = true →
  fitExecuteOutput stdout stderr available = (a, b) →
  valid_utf8 a = true ∧ valid_utf8 b = true ∧ prefix_of a stdout ∧ prefix_of b stderr ∧
  (outputs_cost a b ≤ Z.max 0 available)%Z ∧
  ((outputs_cost stdout stderr ≤ available)%Z → a = stdout ∧ b = stderr).
Proof.
  intros Hvo Hve. unfold fitExecuteOutput, outputs_cost.
  assert (∀ s, prefix_of "" s) as Hnil by (intros s; by exists s).
  assert (outputs_cost "" "" = 0)%Z as H00 by done. unfold outputs_cost in H00.
  pose proof (content_size_nonneg stdout) as Hso. pose proof (content_size_nonneg stderr) as Hse.
  destruct (str_is_empty stdout) eqn:Heo, (str_is_empty stderr) eqn:Hee; cbn [app foldr out_fieldSize].
  - destruct stdout, stderr; try done. intros [= <- <-]. repeat (split; [done || apply Hnil || lia|]). done.
  - destruct stdout; [|done]. rewrite Z.add_0_r.
    destruct (_ <=? 0)%Z eqn:Hb; bool_hyps.
    + intros [= <- <-]. do 5 (split; [done || apply Hnil || lia|]).
      unfold field_cost. rewrite Hee. simpl. pose proof (content_size_pos stderr Hee). lia.
    + cbn [out_isStdout out_value]. set (cb := (available - (stderrFieldBytes + jsonStringQuotes))%Z) in *.
      rewrite jsonEscapedContentSize_eq by (done || lia).
      destruct (jsonPrefix_fits stderr (Z.min (Z.min (content_size stderr) (cb + 1)) cb)) as (H1 & H2 & H3 & H4); [done|lia|].
      intros [= <- <-]. repeat (split; [by auto|]). split.
      * pose proof (field_cost_le stderrFieldBytes _ cb ltac:(lia) ltac:(done) ltac:(etrans; [exact H3|lia])) as Hf.
        unfold field_cost at 1. simpl. lia.
      * intros Hall. split; [done|]. apply H4. unfold field_cost in Hall. rewrite Hee in Hall. simpl in Hall. lia.
  - destruct stderr; [|done]. rewrite Z.add_0_r.
    destruct (_ <=? 0)%Z eqn:Hb; bool_hyps.
    + intros [= <- <-]. do 5 (split; [done || apply Hnil || lia|]).
      unfold field_cost. rewrite Heo. simpl. pose proof (content_size_pos stdout Heo). lia.
    + cbn [out_isStdout out_value]. set (cb := (available - (stdoutFieldBytes + jsonStringQuotes))%Z) in *.
      rewrite jsonEscapedContentSize_eq by (done || lia).
      destruct (jsonPrefix_fits stdout (Z.min (Z.min (content_size stdout) (cb + 1)) cb)) as (H1 & H2 & H3 & H4); [done|lia|].
      intros [= <- <-]. repeat (split; [by auto|]). split.
      * pose proof (field_cost_le stdoutFieldBytes _ cb ltac:(lia) ltac:(done) ltac:(etrans; [exact H3|lia])) as Hf.
        unfold field_cost at 2. simpl. lia.
      * intros Hall. split; [|done]. apply H4. unfold field_cost in Hall. rewrite Heo in Hall. simpl in Hall. lia.
  - destruct (_ <=? 0)%Z eqn:Hb; bool_hyps.
    + intros [= <- <-]. do 5 (split; [done || apply Hnil || lia|]).
      unfold field_cost. rewrite Heo, Hee.
      pose proof (content_size_pos stdout Heo). pose proof (content_size_pos stderr Hee). lia.
    + cbn [out_isStdout out_value].
      set (cb := (available - (stdoutFieldBytes + jsonStringQuotes + (stderrFieldBytes + jsonStringQuotes + 0)))%Z) in *.
      rewrite !jsonEscapedContentSize_eq by (done || lia).
      set (f0 := Z.min (content_size stdout) (cb + 1)). set (f1 := Z.min (content_size stderr) (cb + 1)).
      edestruct (fair_budgets f0 f1 cb) as (B0 & B1 & Bs & _ & _ & Ball); [lia|lia|lia|reflexivity..|].
      intros [= <- <-].
      destruct (jsonPrefix_fits stdout _ Hvo B0) as (H1 & H2 & H3 & H4).
      destruct (jsonPrefix_fits stderr _ Hve B1) as (K1 & K2 & K3 & K4).
      repeat (split; [by auto|]). split.
      * pose proof (field_cost_le stdoutFieldBytes _ _ B0 ltac:(done) H3).
        pose proof (field_cost_le stderrFieldBytes _ _ B1 ltac:(done) K3). lia.
      * unfold field_cost. rewrite Heo, Hee. intros Hall. destruct Ball as [E0 E1]; [lia|].
        split; [apply H4; rewrite E0; lia|apply K4; rewrite E1; lia].
Qed.

(** ** Sizes of encoded records *)

Fixpoint pieces_size (l : list piece) : Z :=
  match l with
  | [] => 0
  | (omit, k, v) :: l' =>
      ((if omit then 0 else 1 + slen (quote k) + 1 + slen (print v)) + pieces_size l')%Z
  end.

Definition items_size (l : list string) : Z := foldr (λ s n, 1 + slen s + n)%Z 0%Z l.

Lemma join_slen x l : slen (str_join (x :: l) ",") = (slen x + items_size l)%Z.
Proof.
  revert x. induction l as [|y l IH]; intros x; [simpl; lia|].
  rewrite str_join_cons, !slen_app, IH. simpl. unfold slen. simpl. lia.
Qed.

Lemma items_pieces l : items_size (print_member <$> pieces l) = pieces_size l.
Proof.
  induction l as [|[[omit k] v] l IH]; [done|]. cbn [pieces written pieces_size].
  destruct omit; [done|]. cbn [app]. rewrite fmap_cons. cbn [items_size foldr].
  fold (items_size (print_member <$> pieces l)). rewrite IH. unfold print_member. cbn [fst snd].
  rewrite !slen_app. change (slen ":") with 1%Z. lia.
Qed.

Lemma print_pieces_slen l : pieces l ≠ [] → slen (print (JObj (pieces l))) = (1 + pieces_size l)%Z.
Proof.
  intros Hne. rewrite <-items_pieces, print_obj, !slen_app.
  destruct (pieces l) as [|m ms]; [done|]. rewrite fmap_cons, join_slen. cbn [items_size foldr].
  change (slen "{") with 1%Z. change (slen "}") with 1%Z. unfold items_size. lia.
Qed.

Lemma print_arr_slen {A} (enc : A → json) l :
  l ≠ [] → slen (print (JArr (enc <$> l))) = (1 + items_size (print <$> (enc <$> l)))%Z.
Proof.
  intros Hne. rewrite print_arr, !slen_app. destruct l as [|x l]; [done|].
  rewrite !fmap_cons, join_slen. cbn [items_size foldr].
  change (slen "[") with 1%Z. change (slen "]") with 1%Z. unfold items_size. lia.
Qed.

Lemma items_size_app l1 l2 : items_size (l1 ++ l2) = (items_size l1 + items_size l2)%Z.
Proof. induction l1 as [|x l1 IH]; simpl; [done|]. unfold items_size in *. lia. Qed.

(** The two outputs add exactly what [fitExecuteOutput] counts. *)
Lemma pieces_size_outputs r stdout stderr t :
  pieces_size (result_pieces (with_outputs r stdout stderr t)) =
  (pieces_size (result_pieces (with_outputs r "" "" t)) + outputs_cost stdout stderr)%Z.
Proof.
  unfold outputs_cost, field_cost, stdoutFieldBytes, stderrFieldBytes, jsonStringQuotes, result_pieces.
  cbn [pieces_size req opt with_outputs res_status res_stdout res_stderr res_exit_code res_duration_ms
       res_truncated res_error res_warnings res_approval res_redactions str_is_empty].
  cbn [print]. rewrite (quote_slen stdout), (quote_slen stderr).
  destruct (str_is_empty stdout), (str_is_empty stderr); lia.
Qed.

Lemma encode_result_slen r : slen (print (encode r)) = (1 + pieces_size (result_pieces r))%Z.
Proof. by apply print_pieces_slen. Qed.

Lemma encode_server_result_slen r :
  slen (print (encode r)) =
  (1 + (1 + slen (quote "server_alias") + 1 + slen (quote (sr_server_alias r))) + pieces_size (result_pieces (sr_result r)))%Z.
Proof.
  etrans; [exact (print_pieces_slen (req "server_alias" (JStr (sr_server_alias r)) :: result_pieces (sr_result r)) ltac:(done))|].
  cbn [pieces_size req print]. lia.
Qed.

(** The encoded response around a result. *)
Definition response_size (r : Response) : Z := slen (print (Response_json r)).

Definition response_overhead (requestID : string) : Z :=
  (1 + (1 + slen (quote "version") + 1 + slen (quote ProtocolVersion))
   + (1 + slen (quote "request_id") + 1 + slen (quote requestID)) + (1 + slen (quote "result") + 1))%Z.

Lemma result_response_size requestID j :
  response_size (result_response requestID j) = (response_overhead requestID + slen (print j))%Z.
Proof.
  unfold response_size, response_overhead, Response_json.
  rewrite print_pieces_slen by done. cbn [pieces_size response_pieces req opt raw_member rsp_version rsp_request_id
    rsp_result rsp_error result_response is_none from_option id]. cbn [print]. lia.
Qed.

Lemma encodedGenericResponse_eq {A} `{Wire A} requestID (value : A) :
  encodedGenericResponse requestID value =
  Some (result_response requestID (encode value), response_size (result_response requestID (encode value))).
Proof. done. Qed.

Lemma pieces_size_nonneg l : (0 ≤ pieces_size l)%Z.
Proof.
  induction l as [|[[omit k] v] l IH]; [done|]. cbn [pieces_size].
  pose proof (slen_nonneg (quote k)). pose proof (slen_nonneg (print v)). destruct omit; lia.
Qed.

Lemma response_overhead_pos requestID : (0 < response_overhead requestID)%Z.
Proof.
  unfold response_overhead. pose proof (slen_nonneg (quote requestID)).
  pose proof (slen_nonneg (quote "version")). pose proof (slen_nonneg (quote ProtocolVersion)).
  pose proof (slen_nonneg (quote "request_id")). pose proof (slen_nonneg (quote "result")). lia.
Qed.

(** An error response for a request id the protocol accepts is small. *)
Lemma escape_step_bound x :
  (slen (st_bytes x) ≤ 4)%Z → (slen (escape_step x) ≤ 6 * slen (st_bytes x))%Z ∨ slen (st_bytes x) = 0%Z.
Proof.
  unfold slen. intros Hb. destruct (st_bytes x) as [|a b] eqn:Hs; [by right|]. left.
  unfold escape_step, unicode_escape, hex4. rewrite Hs. simpl in *.
  repeat case_match; simpl; lia.
Qed.

Lemma st_bytes_le a s : (slen (st_bytes (decode1 a s)) ≤ 4)%Z.
Proof. unfold decode1, bad, slen. repeat case_match; simpl; lia. Qed.

Lemma content_size_bound s : (content_size s ≤ 6 * slen s)%Z.
Proof.
  unfold content_size. induction s as [|a s u Hu Hr IH] using runes_ind; [done|].
  rewrite Hr. cbn [escape_steps]. rewrite Hu, !slen_app.
  destruct (escape_step_bound (decode1 a s)) as [He|He]; [apply st_bytes_le|lia|].
  pose proof (step_bytes_pos a s). unfold slen in He. lia.
Qed.

Lemma unavailable_response_fits requestID :
  (slen requestID ≤ maxRequestIDBytes)%Z → (response_size (unavailable_response requestID) ≤ MaxFrameBytes)%Z.
Proof.
  intros Hid. unfold response_size, Response_json. rewrite print_pieces_slen by done.
  cbn [pieces_size response_pieces req opt raw_member rsp_version rsp_request_id
    rsp_result rsp_error unavailable_response protocolError is_none from_option id]. cbn [print].
  rewrite (quote_slen requestID). pose proof (content_size_bound requestID). rewrite MaxFrameBytes_eq.
  unfold maxRequestIDBytes in Hid.
  assert (slen (print (enc_ptr encode (Some {| rpc_code := ErrorInternal; rpc_message := "response unavailable" |}))) ≤ 100)%Z
    by (vm_compute; discriminate).
  assert (slen (quote "version") = 9 ∧ slen (quote ProtocolVersion) = 3 ∧ slen (quote "request_id") = 12
          ∧ slen (quote "error") = 7)%Z as (-> & -> & -> & ->) by done.
  lia.
Qed.

(** ** What the server makes of a result *)

Lemma normalizeUTF8_valid s : valid_utf8 (normalizeUTF8 s) = true.
Proof. unfold normalizeUTF8. destruct (valid_utf8 s) eqn:Hv; [done|]. apply to_valid_utf8_valid. Qed.

(** [r'] is [r] with prefixes of its outputs, marked when anything is missing. *)
Record cut_of (r r' : ExecuteResult) : Prop := {
  cut_rest : r' = with_outputs r (res_stdout r') (res_stderr r') (res_truncated r');
  cut_stdout : prefix_of (res_stdout r') (normalizeUTF8 (res_stdout r));
  cut_stderr : prefix_of (res_stderr r') (normalizeUTF8 (res_stderr r));
  cut_valid : valid_utf8 (res_stdout r') = true ∧ valid_utf8 (res_stderr r') = true;
  cut_marked : res_stdout r' ≠ res_stdout r ∨ res_stderr r' ≠ res_stderr r → res_truncated r' = true;
  cut_kept : res_truncated r = true → res_truncated r' = true }.

Lemma prefix_of_refl s : prefix_of s s.
Proof. exists "". by rewrite str_app_nil_r. Qed.

Lemma prefix_of_nil s : prefix_of "" s.
Proof. by exists s. Qed.

#[export] Hint Resolve prefix_of_refl prefix_of_nil normalizeUTF8_valid : wire.

Lemma normalized_result_cut r : cut_of r (normalized_result r).
Proof.
  split; unfold normalized_result; simpl; auto with wire.
  - intros [Hne|Hne]; apply String.eqb_neq in Hne; rewrite Hne; simpl; [done|].
    by rewrite orb_true_r.
  - intros ->. by destruct (_ || _).
Qed.

(** Prefixes of the outputs of the normalized result, marked as truncated. *)
Lemma cut_marked_prefix r stdout stderr :
  prefix_of stdout (res_stdout (normalized_result r)) → prefix_of stderr (res_stderr (normalized_result r)) →
  valid_utf8 stdout = true → valid_utf8 stderr = true →
  cut_of r (with_outputs (normalized_result r) stdout stderr true).
Proof. intros. split; simpl; auto. Qed.

(** The outcome of marshalling: a response within the frame that carries a cut
    of the result, or the internal error when not even the result without its
    outputs fits. *)
Definition bare_size (requestID : string) (r : ExecuteResult) : Z :=
  response_size (result_response requestID (encode (with_outputs r "" "" true))).

Lemma bare_size_eq requestID r :
  bare_size requestID r =
  (response_overhead requestID + (1 + pieces_size (result_pieces (with_outputs r "" "" true))))%Z.
Proof. unfold bare_size. by rewrite result_response_size, encode_result_slen. Qed.

Lemma marshal_truncated_spec requestID r :
  (slen requestID ≤ maxRequestIDBytes)%Z →
  let response := marshal_truncated requestID (normalized_result r) in
  (response_size response ≤ MaxFrameBytes)%Z ∧
  ((∃ r', response = result_response requestID (encode r') ∧ cut_of r r')
   ∨ response = unavailable_response requestID ∧ (MaxFrameBytes < bare_size requestID r)%Z).
Proof.
  intros Hid. unfold marshal_truncated, encodedResultResponse. rewrite encodedGenericResponse_eq.
  set (n := normalized_result r). change (with_outputs n "" "" true) with (with_outputs r "" "" true).
  fold (bare_size requestID r). cbv zeta.
  destruct (MaxFrameBytes <? bare_size requestID r)%Z eqn:Hbig; bool_hyps.
  { split; [by apply unavailable_response_fits|]. by right. }
  destruct (fitExecuteOutput _ _ _) as [stdout stderr] eqn:Hfit.
  apply fitExecuteOutput_spec in Hfit as (Hvo & Hve & Hpo & Hpe & Hcost & _);
    [|apply normalizeUTF8_valid..].
  change (with_outputs (with_outputs r "" "" true) stdout stderr true) with (with_outputs r stdout stderr true).
  destruct (str_is_empty stdout && str_is_empty stderr).
  - split; [done|]. left. exists (with_outputs n "" "" true). split; [done|].
    apply cut_marked_prefix; auto with wire.
  - split.
    + rewrite result_response_size, encode_result_slen.
      rewrite pieces_size_outputs, bare_size_eq in *. lia.
    + left. exists (with_outputs n stdout stderr true). split; [done|]. by apply cut_marked_prefix.
Qed.

Lemma marshalExecuteResult_fits requestID r :
  (slen requestID ≤ maxRequestIDBytes)%Z →
  let response := marshalExecuteResult requestID r in
  (response_size response ≤ MaxFrameBytes)%Z ∧
  ((∃ r', response = result_response requestID (encode r') ∧ cut_of r r' ∧
      ((response_size (result_response requestID (encode (normalized_result r))) ≤ MaxFrameBytes)%Z →
       r' = normalized_result r))
   ∨ response = unavailable_response requestID ∧ (MaxFrameBytes < bare_size requestID r)%Z).
Proof.
  intros Hid. unfold marshalExecuteResult, encodedResultResponse. rewrite encodedGenericResponse_eq.
  cbv zeta. set (n := normalized_result r).
  pose proof (marshal_truncated_spec requestID r Hid) as [Hsize Hcut].
  assert ((MaxFrameBytes < response_size (result_response requestID (encode n)))%Z →
    (∃ r', marshal_truncated requestID n = result_response requestID (encode r') ∧ cut_of r r' ∧
      ((response_size (result_response requestID (encode n)) ≤ MaxFrameBytes)%Z → r' = n))
    ∨ marshal_truncated requestID n = unavailable_response requestID ∧ (MaxFrameBytes < bare_size requestID r)%Z) as Hbig.
  { intros Hlt. destruct Hcut as [(r' & ? & ?)|?]; [left; exists r'|by right]. split; [done|]. split; [done|lia]. }
  destruct (_ <=? MaxFrameBytes)%Z eqn:Hsum; bool_hyps.
  - destruct (response_size _ <=? MaxFrameBytes)%Z eqn:Hfit; bool_hyps.
    + split; [done|]. left. exists n. split; [done|]. split; [apply normalized_result_cut|done].
    + split; [done|]. by apply Hbig.
  - split; [done|]. apply Hbig.
    rewrite result_response_size, encode_result_slen.
    change n with (with_outputs n (res_stdout n) (res_stderr n) (res_truncated n)).
    rewrite pieces_size_outputs. unfold outputs_cost, field_cost.
    pose proof (content_size_ge (res_stdout n) (normalizeUTF8_valid _)).
    pose proof (content_size_ge (res_stderr n) (normalizeUTF8_valid _)).
    pose proof (pieces_size_nonneg (result_pieces (with_outputs n "" "" (res_truncated n)))).
    pose proof (response_overhead_pos requestID).
    assert (0 ≤ stdoutFieldBytes ∧ 0 ≤ stderrFieldBytes ∧ 0 ≤ jsonStringQuotes)%Z as (? & ? & ?) by done.
    cbn [with_outputs res_stdout res_stderr] in *.
    pose proof MaxFrameBytes_eq.
    destruct (res_stdout n) as [|? ?], (res_stderr n) as [|? ?]; cbn [str_is_empty];
      change (slen "") with 0%Z in *; change (content_size "") with 0%Z in *; lia.
Qed.

(** C36: Whatever a command printed, the response [marshalExecuteResult] makes
    of its result fits in one frame, for every request id the protocol accepts.
    It carries the result with a prefix of each output, after invalid UTF-8 was
    repaired, every other field untouched, and [truncated] set whenever an
    output differs from what the service returned; the outputs are whole when
    the result fits.  The only other answer is the internal error, when the
    result would not fit even without outputs. *)
Theorem marshalExecuteResult_spec requestID r :
  (slen requestID ≤ maxRequestIDBytes)%Z →
  let response := marshalExecuteResult requestID r in
  (response_size response ≤ MaxFrameBytes)%Z ∧
  ((∃ r', response = result_response requestID (encode r') ∧ cut_of r r' ∧
      ((response_size (result_response requestID (encode (normalized_result r))) ≤ MaxFrameBytes)%Z →
       r' = normalized_result r))
   ∨ response = unavailable_response requestID ∧ (MaxFrameBytes < bare_size requestID r)%Z).
Proof. apply marshalExecuteResult_fits. Qed.

Lemma marshalExecuteResult_spec_witness :
  (response_size (marshalExecuteResult "client-1" (with_outputs zero_result "ok" "" false)) ≤ MaxFrameBytes)%Z.
Proof. exact (proj1 (marshalExecuteResult_spec "client-1" (with_outputs zero_result "ok" "" false) ltac:(by vm_compute))). Defined.

(** *** Batches *)

Definition batch_size (requestID : string) (b : BatchExecuteResult) : Z :=
  response_size (result_response requestID (encode b)).

Definition servers_size (l : list ServerExecuteResult) : Z := items_size (print <$> (encode <$> l)).

(** The size of an encoded batch depends on its results by their sizes only. *)
Lemma batch_size_results requestID b l1 l2 :
  l1 ≠ [] → l2 ≠ [] →
  (batch_size requestID (with_results b l1) - servers_size l1
   = batch_size requestID (with_results b l2) - servers_size l2)%Z.
Proof.
  intros H1 H2. unfold batch_size. rewrite !result_response_size.
  assert (∀ l, l ≠ [] → slen (print (encode (with_results b l))) =
    slen (print (encode (with_results b []))) + (1 + slen (quote "results") + 1 + 1) + servers_size l)%Z as H.
  { intros l Hl. unfold servers_size. cbn [encode Wire_Struct members_of BatchExecuteResult_Struct].
    rewrite !print_pieces_slen by done. cbn [pieces_size req opt with_results bres_results bres_status bres_duration_ms bres_approval bres_error is_nil].
    rewrite print_arr_slen by done. destruct l; [done|]. cbn [is_nil]. lia. }
  rewrite (H l1 H1), (H l2 H2). lia.
Qed.

Lemma with_outputs_twice r a b t c d u :
  with_outputs (with_outputs r a b t) c d u = with_outputs r c d u.
Proof. done. Qed.

Lemma refit_size per s :
  (0 ≤ per)%Z → valid_utf8 (res_stdout (sr_result s)) = true → valid_utf8 (res_stderr (sr_result s)) = true →
  (slen (print (encode (on_result (refit per) s))) ≤ slen (print (encode (on_result cleared s))) + per)%Z.
Proof.
  intros Hper Ho He. rewrite !encode_server_result_slen. cbn [on_result sr_result sr_server_alias].
  unfold refit. destruct (fitExecuteOutput _ _ per) as [a b] eqn:Hfit.
  apply fitExecuteOutput_spec in Hfit as (_ & _ & _ & _ & Hcost & _); [|done..].
  rewrite pieces_size_outputs. unfold cleared. rewrite with_outputs_twice.
  cbn [with_outputs res_truncated]. lia.
Qed.

Lemma refits_size per l :
  (0 ≤ per)%Z →
  Forall (λ s, valid_utf8 (res_stdout (sr_result s)) = true ∧ valid_utf8 (res_stderr (sr_result s)) = true) l →
  (servers_size (on_result (refit per) <$> l) ≤ servers_size (on_result cleared <$> l) + Z.of_nat (length l) * per)%Z.
Proof.
  intros Hper. unfold servers_size. induction 1 as [|s l [Ho He] Hl IH]; [simpl; lia|].
  rewrite !fmap_cons. cbn [items_size foldr length].
  pose proof (refit_size per s Hper Ho He).
  fold (items_size (print <$> (encode <$> (on_result (refit per) <$> l)))).
  fold (items_size (print <$> (encode <$> (on_result cleared <$> l)))).
  rewrite Nat2Z.inj_succ. lia.
Qed.

(** Prefixes of the outputs of the normalized result, marked when there were any. *)
Lemma cleared_prefix_cut r stdout stderr :
  prefix_of stdout (res_stdout (normalized_result r)) → prefix_of stderr (res_stderr (normalized_result r)) →
  valid_utf8 stdout = true → valid_utf8 stderr = true →
  cut_of r (with_outputs (cleared (normalized_result r)) stdout stderr (res_truncated (cleared (normalized_result r)))).
Proof.
  intros Hpo Hpe Hvo Hve. pose proof (normalized_result_cut r) as [_ _ _ _ Hm Hk].
  split; [done|exact Hpo|exact Hpe|done|..]; cbn [with_outputs cleared res_stdout res_stderr res_truncated];
    destruct (str_is_empty (res_stdout (normalized_result r))) eqn:Ho,
             (str_is_empty (res_stderr (normalized_result r))) eqn:He; cbn [negb orb]; try done.
  intros Hne. apply Hm.
  destruct (res_stdout (normalized_result r)) as [|? ?]; [|done].
  destruct (res_stderr (normalized_result r)) as [|? ?]; [|done].
  destruct Hpo as [? Hpo], Hpe as [? Hpe]. destruct stdout, stderr; done.
Qed.

Lemma refit_cut per r : cut_of r (refit per (normalized_result r)).
Proof.
  unfold refit. destruct (fitExecuteOutput _ _ per) as [a b] eqn:Hfit.
  apply fitExecuteOutput_spec in Hfit as (? & ? & ? & ? & _); [|apply normalizeUTF8_valid..].
  by apply cleared_prefix_cut.
Qed.

Lemma cleared_cut r : cut_of r (cleared (normalized_result r)).
Proof. by apply (cleared_prefix_cut r "" ""); auto with wire. Qed.

(** Alias by alias, a cut of each result. *)
Definition batch_cut (b b' : BatchExecuteResult) : Prop :=
  b' = with_results b (bres_results b') ∧
  Forall2 (λ s s', sr_server_alias s' = sr_server_alias s ∧ cut_of (sr_result s) (sr_result s'))
    (bres_results b) (bres_results b').

Lemma batch_cut_map b f :
  (∀ r, cut_of r (f (normalized_result r))) →
  batch_cut b (with_results b (on_result f <$> (on_result normalized_result <$> bres_results b))).
Proof.
  intros Hf. split; [done|]. cbn [with_results bres_results].
  induction (bres_results b) as [|s l IH]; constructor; [|done]. split; [done|apply Hf].
Qed.

Lemma normal_batch_cut b :
  batch_cut b (with_results b (on_result normalized_result <$> bres_results b)).
Proof.
  split; [done|]. cbn [with_results bres_results].
  induction (bres_results b) as [|s l IH]; constructor; [|done]. split; [done|apply normalized_result_cut].
Qed.

(** The response to a batch fits in one frame, for every request id the
    protocol accepts, whatever the commands printed and however many servers
    answered; it carries every server's result, in order, with prefixes of its
    outputs, marked as truncated where something is missing, and all outputs
    whole when the batch fits.  The first division of the frame always fits, so
    that the retries of the source are never needed.  The only other answer is
    the internal error, when the batch would not fit without any output. *)
Theorem marshalBatchExecuteResult_spec requestID b :
  (slen requestID ≤ maxRequestIDBytes)%Z →
  let response := marshalBatchExecuteResult requestID b in
  let normal := with_results b (on_result normalized_result <$> bres_results b) in
  let bare := with_results b (on_result cleared <$> (on_result normalized_result <$> bres_results b)) in
  (response_size response ≤ MaxFrameBytes)%Z ∧
  ((∃ b', response = result_response requestID (encode b') ∧ batch_cut b b' ∧
      ((batch_size requestID normal ≤ MaxFrameBytes)%Z → b' = normal))
   ∨ response = unavailable_response requestID ∧ (MaxFrameBytes < batch_size requestID bare)%Z).
Proof.
  intros Hid. cbv zeta. unfold marshalBatchExecuteResult.
  set (normal := with_results b (on_result normalized_result <$> bres_results b)).
  set (l := on_result normalized_result <$> bres_results b).
  change (bres_results normal) with l. change (with_results normal ?x) with (with_results b x).
  rewrite !encodedGenericResponse_eq. fold (batch_size requestID normal).
  fold (batch_size requestID (with_results b (on_result cleared <$> l))).
  set (bare := with_results b (on_result cleared <$> l)).
  destruct (batch_size requestID normal <=? MaxFrameBytes)%Z eqn:Hfit; bool_hyps.
  { split; [done|]. left. exists normal. split; [done|]. split; [apply normal_batch_cut|done]. }
  destruct (MaxFrameBytes <? batch_size requestID bare)%Z eqn:Hbig; bool_hyps.
  { split; [by apply unavailable_response_fits|by right]. }
  assert (∀ f, (∀ r, cut_of r (f (normalized_result r))) →
    (batch_size requestID (with_results b (on_result f <$> l)) ≤ MaxFrameBytes)%Z →
    let response := result_response requestID (encode (with_results b (on_result f <$> l))) in
    (response_size response ≤ MaxFrameBytes)%Z ∧
    ((∃ b', response = result_response requestID (encode b') ∧ batch_cut b b' ∧
      ((batch_size requestID normal ≤ MaxFrameBytes)%Z → b' = normal))
     ∨ response = unavailable_response requestID ∧ (MaxFrameBytes < batch_size requestID bare)%Z)) as Hok.
  { intros f Hf Hsize. split; [done|]. left. eexists; split; [done|]. split; [by apply batch_cut_map|lia]. }
  destruct (is_nil l) eqn:Hnil; [apply Hok; [apply cleared_cut|done]|].
  assert (l ≠ []) as Hl by by destruct l.
  destruct (_ <=? 0)%Z eqn:Hper; bool_hyps; [apply Hok; [apply cleared_cut|done]|].
  set (per := ((MaxFrameBytes - batch_size requestID bare) / Z.of_nat (length l))%Z) in *.
  assert (batch_size requestID (with_results b (on_result (refit per) <$> l)) ≤ MaxFrameBytes)%Z as Hsize.
  { pose proof (batch_size_results requestID b (on_result (refit per) <$> l) (on_result cleared <$> l)) as Heq.
    pose proof (refits_size per l ltac:(lia)) as Hs. fold bare in Heq.
    assert (Z.of_nat (length l) * per ≤ MaxFrameBytes - batch_size requestID bare)%Z.
    { apply Z.mul_div_le. destruct l; [done|simpl; lia]. }
    ospecialize (Heq _ _); [by destruct l|by destruct l|]. ospecialize (Hs _); [|lia].
    apply Forall_fmap, Forall_true. intros s. cbn. split; apply normalizeUTF8_valid. }
  cbn [fit_attempts]. change (with_results normal ?x) with (with_results b x).
  rewrite encodedGenericResponse_eq. fold (batch_size requestID (with_results b (on_result (refit per) <$> l))).
  rewrite (proj2 (Z.leb_le _ _) Hsize). by apply Hok; [apply refit_cut|].
Qed.

Lemma marshalBatchExecuteResult_spec_witness :
  (response_size (marshalBatchExecuteResult "client-1"
     {| bres_status := StatusCompleted; bres_results := [{| sr_server_alias := "a"; sr_result := zero_result |}];
        bres_duration_ms := 0; bres_approval := None; bres_error := None |}) ≤ MaxFrameBytes)%Z.
Proof.
  exact (proj1 (marshalBatchExecuteResult_spec "client-1"
     {| bres_status := StatusCompleted; bres_results := [{| sr_server_alias := "a"; sr_result := zero_result |}];
        bres_duration_ms := 0; bres_approval := None; bres_error := None |} ltac:(by vm_compute))).
Defined.

(** ** Messages read back *)

Lemma dec_raw_member p : dec_raw (omitted (is_none p) (default JNull p)) = Some p.
Proof. by destruct p. Qed.

Definition raw_ok (p : option json) : Prop :=
  ∀ j, p = Some j → json_wf j ∧ json_valid j ∧ (json_depth j < maxNestingDepth)%Z.

Record request_ok (r : Request) : Prop := {
  rq_ok_version : valid_utf8 (rq_version r) = true;
  rq_ok_id : valid_utf8 (rq_request_id r) = true;
  rq_ok_method : valid_utf8 (rq_method r) = true;
  rq_ok_params : raw_ok (rq_params r) }.

Record response_ok (r : Response) : Prop := {
  rsp_ok_version : valid_utf8 (rsp_version r) = true;
  rsp_ok_id : valid_utf8 (rsp_request_id r) = true;
  rsp_ok_result : raw_ok (rsp_result r);
  rsp_ok_error : ∀ e, rsp_error r = Some e → wire_ok e }.

(** Reading back a document whose members are given piece by piece. *)
Lemma decodeStrictJSON_pieces {A} (d : dec A) l :
  Forall (λ m, json_wf (m.2)) (pieces l) →
  Forall (λ m, valid_utf8 (m.1) = true ∧ json_valid (m.2)) (pieces l) →
  Forall (λ m, json_depth (m.2) < maxNestingDepth)%Z (pieces l) →
  decodeStrictJSON d (print (JObj (pieces l))) = d [JObj (pieces l)].
Proof.
  intros Hw Hv Hd. unfold decodeStrictJSON.
  rewrite read_document_print.
  - cbn [mbind option_bind]. rewrite json_sane_valid; [done|]. cbn [json_valid]. by rewrite Forall_fmap.
  - cbn [json_wf]. by rewrite Forall_fmap.
  - cbn [json_depth]. assert (max_list ((λ m : string * json, json_depth (m.2)) <$> pieces l) ≤ maxNestingDepth - 1)%Z; [|lia].
    apply max_list_le; [done|]. rewrite Forall_fmap. eapply Forall_impl; [exact Hd|]. simpl. lia.
Qed.

Lemma raw_member_all (P : json → Prop) p : (∀ j, p = Some j → P j) → is_none p = false → P (default JNull p).
Proof. destruct p; [|done]. intros HP _. by apply HP. Qed.

Lemma Request_roundtrip r :
  request_ok r → decodeStrictJSON dec_Request (print (Request_json r)) = Some r.
Proof.
  intros []. unfold Request_json. rewrite decodeStrictJSON_pieces.
  - unfold dec_Request. rewrite dec_struct_exact; [|unfold request_pieces, raw_member; wire_keys].
    unfold request_pieces, raw_member. wire_get. cbn [mbind option_bind].
    rewrite dec_raw_member. by destruct r.
  - unfold request_pieces, raw_member. wire_members; try done.
    apply raw_member_all; [|done]. intros. by apply rq_ok_params0.
  - unfold request_pieces, raw_member. wire_members; try done.
    split; [done|]. apply raw_member_all; [|done]. intros. by apply rq_ok_params0.
  - unfold request_pieces, raw_member. wire_members; try done.
    apply raw_member_all; [|done]. intros. by apply rq_ok_params0.
Qed.

Lemma response_wf r : (∀ j, rsp_result r = Some j → json_wf j) → json_wf (Response_json r).
Proof.
  intros Hj. unfold Response_json. cbn [json_wf]. rewrite Forall_fmap.
  unfold response_pieces, raw_member. change (id ∘ ?f) with f. wire_members; try done.
  - by apply raw_member_all.
  - apply enc_ptr_wf.
Qed.

Lemma Response_roundtrip r :
  response_ok r → decodeStrictJSON dec_Response (print (Response_json r)) = Some r.
Proof.
  intros []. unfold Response_json. rewrite decodeStrictJSON_pieces.
  - unfold dec_Response. rewrite dec_struct_exact; [|unfold response_pieces, raw_member; wire_keys].
    unfold response_pieces, raw_member. wire_get. cbn [mbind option_bind].
    rewrite dec_raw_member. cbn [mbind option_bind].
    rewrite dec_ptr_omitted by (intros e He; split; [by apply decode_encode, rsp_ok_error0|done]). by destruct r.
  - unfold response_pieces, raw_member. wire_members; try done; [|apply enc_ptr_wf].
    apply raw_member_all; [|done]. intros. by apply rsp_ok_result0.
  - unfold response_pieces, raw_member. wire_members; try done; (split; [done|]).
    + apply raw_member_all; [|done]. intros. by apply rsp_ok_result0.
    + apply enc_ptr_all; [done|]. intros. by apply encode_valid, rsp_ok_error0.
  - unfold response_pieces, raw_member. wire_members; try done.
    + apply raw_member_all; [|done]. intros. by apply rsp_ok_result0.
    + apply enc_ptr_all; [done|]. intros e _. pose proof (encode_depth e). simpl in *. unfold maxNestingDepth. lia.
Qed.

(** ** The line of a response *)

Lemma fits_spec data d : fits data = Some d ↔ data = Some d ∧ (slen d ≤ MaxFrameBytes)%Z.
Proof.
  unfold fits. destruct data as [d'|]; simpl; [|naive_solver].
  destruct (_ <=? _)%Z eqn:Hle; bool_hyps; split.
  - by intros [= <-].
  - by intros [[= ->] _].
  - done.
  - intros [[= ->] ?]. lia.
Qed.

Lemma response_line_fits r :
  (response_size r ≤ MaxFrameBytes)%Z → response_line r = print (Response_json r).
Proof.
  intros Hs. unfold response_line, Marshal.
  by rewrite (proj2 (fits_spec (Some (print (Response_json r))) _) (conj eq_refl Hs)).
Qed.

(** The three documents [writeResponse] may send. *)
Lemma response_line_cases r :
  response_line r = print (Response_json r) ∨
  ∃ requestID, response_line r = print (Response_json (unavailable_response requestID)).
Proof.
  unfold response_line. destruct (fits (Marshal (Response_json r))) as [d|] eqn:Hf.
  { left. by apply fits_spec in Hf as [[= <-] _]. }
  right. clear Hf. destruct (fits _) as [d|] eqn:Hf2; [|by exists ""].
  apply fits_spec in Hf2 as [[= <-] _]. by eexists.
Qed.

Lemma response_line_length r : (slen (response_line r) ≤ MaxFrameBytes)%Z.
Proof.
  unfold response_line. destruct (fits _) as [d|] eqn:Hf; [by apply fits_spec in Hf as []|].
  clear Hf. destruct (fits _) as [d|] eqn:Hf2; [by apply fits_spec in Hf2 as []|].
  by apply (unavailable_response_fits "").
Qed.

Lemma unavailable_response_wf requestID : json_wf (Response_json (unavailable_response requestID)).
Proof. by apply response_wf. Qed.

Lemma response_line_wf r :
  (∀ j, rsp_result r = Some j → json_wf j) → ∃ j, response_line r = print j ∧ json_wf j.
Proof.
  intros Hj. destruct (response_line_cases r) as [->|[id ->]]; eexists; (split; [done|]);
    [by apply response_wf|apply unavailable_response_wf].
Qed.
