(* ===== verification/BrokerServer.v ===== *)
(** * The broker server: [internal/broker/server.go]

    [readRequest], [dispatch] and [handle], as programs over the calls they
    make: to the connection, to the service behind the socket, and to the
    server's own bookkeeping.  The service is any service: its optional
    interfaces are a record of capabilities, its answers are arbitrary.

    The monitor [serves] states the protocol a connection follows; the theorem
    [handle_serves] proves it of every run: the service is called at most once,
    only for a request that arrived whole and well formed, with the arguments
    the request spelled; what is written is one frame that answers that call;
    [Lock] and [Stop] run only after their answer was written; the connection
    is always released; the type assertions after the answer never panic. *)

From S2P Require Import Prelude GoStr Utf8 Base64 Prog Model Frame Json Wire Protocol.
From Stdlib Require Import Ascii.
Open Scope Z_scope.
Open Scope string_scope.
Open Scope list_scope.

(** ** The inputs and the answer of the local methods *)

Record Accepted := { ac_accepted : bool }.
Record UnlockInput := { un_master : string }.
Record ListInput := { li_include_command : bool }.
Record DecideInput := { de_id : string; de_allow : bool }.
Record ConfigureInput := { co_key : string; co_value : string }.

#[export] Program Instance Accepted_Struct : Struct Accepted := {|
  fields := ["accepted"];
  members_of r := pieces [ req "accepted" (JBool (ac_accepted r)) ];
  body get := accepted ← dec_bool (get "accepted"); Some {| ac_accepted := accepted |};
  struct_ok _ := True;
  levels := 0 |}.
Next Obligation. wire_keys. Qed.
Next Obligation. intros. wire_members; wire_leaf. Qed.
Next Obligation. intros. wire_members; done. Qed.
Next Obligation. intros. wire_members; done. Qed.
Next Obligation. by intros []. Qed.

#[export] Program Instance UnlockInput_Struct : Struct UnlockInput := {|
  fields := ["master"];
  members_of r := pieces [ req "master" (JStr (base64_encode (un_master r))) ];
  body get := master ← dec_bytes (get "master"); Some {| un_master := master |};
  struct_ok _ := True;
  levels := 0 |}.
Next Obligation. wire_keys. Qed.
Next Obligation. intros. wire_members; wire_leaf. Qed.
Next Obligation. intros. wire_members; done. Qed.
Next Obligation. intros. wire_members. split; [done|apply base64_encode_valid]. Qed.
Next Obligation. intros [m] _. wire_get. by rewrite dec_bytes_one. Qed.

#[export] Program Instance ListInput_Struct : Struct ListInput := {|
  fields := ["include_command"];
  members_of r := pieces [ req "include_command" (JBool (li_include_command r)) ];
  body get := include ← dec_bool (get "include_command"); Some {| li_include_command := include |};
  struct_ok _ := True;
  levels := 0 |}.
Next Obligation. wire_keys. Qed.
Next Obligation. intros. wire_members; wire_leaf. Qed.
Next Obligation. intros. wire_members; done. Qed.
Next Obligation. intros. wire_members; done. Qed.
Next Obligation. by intros []. Qed.

#[export] Program Instance DecideInput_Struct : Struct DecideInput := {|
  fields := ["id"; "allow"];
  members_of r := pieces [ req "id" (JStr (de_id r)); req "allow" (JBool (de_allow r)) ];
  body get := id ← dec_string (get "id"); allow ← dec_bool (get "allow"); Some {| de_id := id; de_allow := allow |};
  struct_ok r := valid_utf8 (de_id r) = true;
  levels := 0 |}.
Next Obligation. wire_keys. Qed.
Next Obligation. intros. wire_members; wire_leaf. Qed.
Next Obligation. intros. wire_members; done. Qed.
Next Obligation. intros. wire_members; done. Qed.
Next Obligation. by intros []. Qed.

#[export] Program Instance ConfigureInput_Struct : Struct ConfigureInput := {|
  fields := ["key"; "value"];
  members_of r := pieces [ req "key" (JStr (co_key r)); req "value" (JStr (co_value r)) ];
  body get := key ← dec_string (get "key"); value ← dec_string (get "value"); Some {| co_key := key; co_value := value |};
  struct_ok r := valid_utf8 (co_key r) = true ∧ valid_utf8 (co_value r) = true;
  levels := 0 |}.
Next Obligation. wire_keys. Qed.
Next Obligation. intros. wire_members; wire_leaf. Qed.
Next Obligation. intros. wire_members; done. Qed.
Next Obligation. intros r [? ?]. wire_members; done. Qed.
Next Obligation. by intros []. Qed.

(** ** The calls of a handler *)

(** An error of the service: one with a [Code], or any other. *)
Inductive service_error := CodedBy (code : ErrorCode) | PlainError.

(** The optional interfaces the service implements. *)
Record capabilities := {
  can_execute_wait : bool;
  can_batch : bool;
  can_batch_wait : bool;
  can_lock : bool;
  can_stop : bool;
  can_unlock : bool;
  can_approvals : bool;
  can_configure : bool }.

Inductive effect : Type → Type :=
(* the connection *)
| ESetReadDeadline : effect bool
| ERead : effect conn
| EClearReadDeadline : effect unit
| EWrite (data : string) : effect unit
| ERelease : effect unit
(* the service *)
| EStatus : effect (result service_error BrokerStatus)
| EListServers : effect (result service_error (option (list ServerSummary)))
| EExecute (r : ExecuteRequest) : effect ExecuteResult
| EExecuteWait (r : ExecuteRequest) : effect ExecuteResult
| EExecuteApproved (r : ApprovedRequest) : effect ExecuteResult
| EExecuteBatch (r : BatchExecuteRequest) : effect BatchExecuteResult
| EExecuteBatchWait (r : BatchExecuteRequest) : effect BatchExecuteResult
| EUnlock (master : string) : effect (option service_error)
| EClearMaster : effect unit
| EApprovals (includeCommand : bool) : effect (option (list ApprovalSummary))
| EDecide (id : string) (allow : bool) : effect (option service_error)
| EConfigure (key value : string) : effect (option service_error)
| ELock : effect unit
| EStop : effect unit
(* a failed type assertion *)
| EPanic : effect unit.

Abbreviation handler := (prog effect).

(** ** [dispatch] *)

Definition protocolServiceError (requestID : string) (err : service_error) : Response :=
  match err with
  | CodedBy code => protocolError requestID code "broker request failed"
  | PlainError => protocolError requestID ErrorUnavailable "broker request unavailable"
  end.

Definition invalid (requestID message : string) : handler Response :=
  mret (protocolError requestID ErrorInvalidRequest message).

Definition unknown (requestID : string) : handler Response :=
  mret (protocolError requestID ErrorMethodNotFound "unknown method").

Definition accepted (requestID : string) : Response := marshalResult requestID {| ac_accepted := true |}.

(** [err != nil] of the methods that answer nothing else. *)
Definition accepted_unless (requestID : string) (err : option service_error) (failure : service_error → Response)
  : handler Response :=
  mret (match err with Some e => failure e | None => accepted requestID end).

Definition dispatch (caps : capabilities) (request : Request) : handler Response :=
  let requestID := rq_request_id request in
  let params := rq_params request in
  let no_params := is_none params in
  let method := rq_method request in
  if negb (String.eqb (rq_version request) ProtocolVersion) || str_is_empty requestID || str_is_empty method
  then invalid requestID "invalid request"
  else if (maxRequestIDBytes <? slen requestID)%Z then invalid "" "invalid request"
  else if String.eqb method "status" then
    if negb no_params then invalid requestID "status params must be empty"
    else
      answer ← trigger EStatus;
      mret (match answer with
            | Fail err => protocolServiceError requestID err
            | Ok r => marshalResult requestID r
            end)
  else if String.eqb method "list_servers" then
    if negb no_params then invalid requestID "list params must be empty"
    else
      answer ← trigger EListServers;
      mret (match answer with
            | Fail err => protocolServiceError requestID err
            | Ok r => marshalResult requestID r
            end)
  else if String.eqb method "execute" then
    match decode_raw (decode (A := ExecuteRequest)) params with
    | None => invalid requestID "invalid execute params"
    | Some r => answer ← trigger (EExecute r); mret (marshalExecuteResult requestID answer)
    end
  else if String.eqb method "execute_wait" then
    if negb (can_execute_wait caps) then unknown requestID
    else match decode_raw (decode (A := ExecuteRequest)) params with
    | None => invalid requestID "invalid execute params"
    | Some r => answer ← trigger (EExecuteWait r); mret (marshalExecuteResult requestID answer)
    end
  else if String.eqb method "execute_approved" then
    match decode_raw (decode (A := ApprovedRequest)) params with
    | None => invalid requestID "invalid approved params"
    | Some r => answer ← trigger (EExecuteApproved r); mret (marshalExecuteResult requestID answer)
    end
  else if String.eqb method "execute_batch" then
    if negb (can_batch caps) then unknown requestID
    else match decode_raw (decode (A := BatchExecuteRequest)) params with
    | None => invalid requestID "invalid batch params"
    | Some r => answer ← trigger (EExecuteBatch r); mret (marshalBatchExecuteResult requestID answer)
    end
  else if String.eqb method "execute_batch_wait" then
    if negb (can_batch_wait caps) then unknown requestID
    else match decode_raw (decode (A := BatchExecuteRequest)) params with
    | None => invalid requestID "invalid batch params"
    | Some r => answer ← trigger (EExecuteBatchWait r); mret (marshalBatchExecuteResult requestID answer)
    end
  else if String.eqb method "lock" then
    if negb no_params then invalid requestID "lock params must be empty"
    else if negb (can_lock caps) then unknown requestID
    else mret (accepted requestID)
  else if String.eqb method "stop" then
    if negb no_params then invalid requestID "stop params must be empty"
    else if negb (can_stop caps) then unknown requestID
    else mret (accepted requestID)
  else if String.eqb method "unlock" then
    if negb (can_unlock caps) then unknown requestID
    else match decode_raw (decode (A := UnlockInput)) params with
    | None => invalid requestID "invalid unlock params"
    | Some input =>
        if (slen (un_master input) =? 0)%Z then invalid requestID "invalid unlock params"
        else
          err ← trigger (EUnlock (un_master input));
          _ ← trigger EClearMaster;
          accepted_unless requestID err (protocolServiceError requestID)
    end
  else if String.eqb method "approval_list" then
    if negb (can_approvals caps) then unknown requestID
    else match decode_raw (decode (A := ListInput)) params with
    | None => invalid requestID "invalid approval params"
    | Some input => answer ← trigger (EApprovals (li_include_command input)); mret (marshalResult requestID answer)
    end
  else if String.eqb method "approval_decide" then
    if negb (can_approvals caps) then unknown requestID
    else match decode_raw (decode (A := DecideInput)) params with
    | None => invalid requestID "invalid approval params"
    | Some input =>
        if str_is_empty (de_id input) then invalid requestID "invalid approval params"
        else
          err ← trigger (EDecide (de_id input) (de_allow input));
          accepted_unless requestID err (λ _, protocolServiceError requestID (CodedBy CodeApproval))
    end
  else if String.eqb method "configure" then
    if negb (can_configure caps) then unknown requestID
    else match decode_raw (decode (A := ConfigureInput)) params with
    | None => invalid requestID "invalid configuration params"
    | Some input =>
        if str_is_empty (co_key input) then invalid requestID "invalid configuration params"
        else
          err ← trigger (EConfigure (co_key input) (co_value input));
          accepted_unless requestID err (λ _, protocolServiceError requestID (CodedBy CodeValidation))
    end
  else unknown requestID.

(** ** [readRequest] *)

Definition zero_request : Request :=
  {| rq_version := ""; rq_request_id := ""; rq_method := ""; rq_params := None |}.

Definition zero_response : Response :=
  {| rsp_version := ""; rsp_request_id := ""; rsp_result := None; rsp_error := None |}.

Definition readRequest (connection : conn) : Request * Response :=
  match readSingleFrame connection with
  | Fail ErrFrameTooLarge => (zero_request, protocolError "" ErrorFrameTooLarge "request frame too large")
  | Fail _ => (zero_request, protocolError "" ErrorInvalidRequest "invalid request")
  | Ok line =>
      match decodeStrictJSON dec_Request line with
      | None => (zero_request, protocolError "" ErrorInvalidRequest "invalid JSON")
      | Some request => (request, zero_response)
      end
  end.

(** ** [writeResponse] and [handle] *)

Definition writeResponse (response : Response) : handler unit :=
  trigger (EWrite (response_line response +:+ String newline "")).

(** [server.service.(lockService).Lock(parent)] *)
Definition assert_then (implemented : bool) (call : effect unit) : handler unit :=
  if implemented then trigger call else trigger EPanic.

Definition handle_body (caps : capabilities) : handler unit :=
  armed ← trigger ESetReadDeadline;
  if negb armed then mret tt
  else
    connection ← trigger ERead;
    let '(request, response) := readRequest connection in
    _ ← trigger EClearReadDeadline;
    if negb (is_none (rsp_error response)) then writeResponse response
    else
      response ← dispatch caps request;
      _ ← writeResponse response;
      _ ← (if String.eqb (rq_method request) "lock" && is_none (rsp_error response)
           then assert_then (can_lock caps) ELock else mret tt);
      if String.eqb (rq_method request) "stop" && is_none (rsp_error response)
      then assert_then (can_stop caps) EStop else mret tt.

(** The deferred release runs whatever happened. *)
Definition handle (caps : capabilities) : handler unit :=
  _ ← handle_body caps; _ ← trigger ERelease; mret tt.

(** ** The protocol of a connection *)

#[export] Instance ExecuteRequest_eq_dec : EqDecision ExecuteRequest.
Proof. solve_decision. Defined.
#[export] Instance BatchExecuteRequest_eq_dec : EqDecision BatchExecuteRequest.
Proof. solve_decision. Defined.
#[export] Instance ApprovedRequest_eq_dec : EqDecision ApprovedRequest.
Proof. solve_decision. Defined.
#[export] Instance UnlockInput_eq_dec : EqDecision UnlockInput.
Proof. solve_decision. Defined.
#[export] Instance ListInput_eq_dec : EqDecision ListInput.
Proof. solve_decision. Defined.
#[export] Instance DecideInput_eq_dec : EqDecision DecideInput.
Proof. solve_decision. Defined.
#[export] Instance ConfigureInput_eq_dec : EqDecision ConfigureInput.
Proof. solve_decision. Defined.

(** What arrived on a connection: by the bytes alone, not by how they came. *)
Inductive arrival :=
| Unreadable
| BadEnvelope (r : Request)
| Arrived (r : Request).

Definition envelope_ok (r : Request) : bool :=
  String.eqb (rq_version r) ProtocolVersion && negb (str_is_empty (rq_request_id r))
  && negb (str_is_empty (rq_method r)) && (slen (rq_request_id r) <=? maxRequestIDBytes)%Z.

Definition arrival_of (c : conn) : arrival :=
  match frame_spec c with
  | Fail _ => Unreadable
  | Ok line =>
      match decodeStrictJSON dec_Request line with
      | None => Unreadable
      | Some r => if envelope_ok r then Arrived r else BadEnvelope r
      end
  end.

(** The methods: the interface each needs and the parameters it takes. *)
Definition spells {A} `{Wire A} (good : A → bool) (params : option json) : bool :=
  match decode_raw decode params with Some a => good a | None => false end.

Definition any {A} (_ : A) : bool := true.

Definition methods (caps : capabilities) : list (string * bool * (option json → bool)) :=
  [ ("status", true, is_none);
    ("list_servers", true, is_none);
    ("execute", true, spells (A := ExecuteRequest) any);
    ("execute_wait", can_execute_wait caps, spells (A := ExecuteRequest) any);
    ("execute_approved", true, spells (A := ApprovedRequest) any);
    ("execute_batch", can_batch caps, spells (A := BatchExecuteRequest) any);
    ("execute_batch_wait", can_batch_wait caps, spells (A := BatchExecuteRequest) any);
    ("lock", can_lock caps, is_none);
    ("stop", can_stop caps, is_none);
    ("unlock", can_unlock caps, spells (λ i, negb (str_is_empty (un_master i))));
    ("approval_list", can_approvals caps, spells (A := ListInput) any);
    ("approval_decide", can_approvals caps, spells (λ i, negb (str_is_empty (de_id i))));
    ("configure", can_configure caps, spells (λ i, negb (str_is_empty (co_key i)))) ].

Definition served (caps : capabilities) (r : Request) : bool :=
  existsb (λ '(m, implemented, good), String.eqb (rq_method r) m && implemented && good (rq_params r)) (methods caps).

(** The call a request asks for: its method and the arguments it spelled. *)
Definition asks (r : Request) {X} (e : effect X) : bool :=
  let named m := String.eqb (rq_method r) m in
  match e with
  | EStatus => named "status"
  | EListServers => named "list_servers"
  | EExecute a => named "execute" && bool_decide (decode_raw decode (rq_params r) = Some a)
  | EExecuteWait a => named "execute_wait" && bool_decide (decode_raw decode (rq_params r) = Some a)
  | EExecuteApproved a => named "execute_approved" && bool_decide (decode_raw decode (rq_params r) = Some a)
  | EExecuteBatch a => named "execute_batch" && bool_decide (decode_raw decode (rq_params r) = Some a)
  | EExecuteBatchWait a => named "execute_batch_wait" && bool_decide (decode_raw decode (rq_params r) = Some a)
  | EUnlock m => named "unlock" && bool_decide (decode_raw decode (rq_params r) = Some {| un_master := m |})
  | EApprovals b => named "approval_list" && bool_decide (decode_raw decode (rq_params r) = Some {| li_include_command := b |})
  | EDecide id allow =>
      named "approval_decide" && bool_decide (decode_raw decode (rq_params r) = Some {| de_id := id; de_allow := allow |})
  | EConfigure k v =>
      named "configure" && bool_decide (decode_raw decode (rq_params r) = Some {| co_key := k; co_value := v |})
  | _ => false
  end.

Definition error_reply (id : string) (code : ErrorCode) : Response := protocolError id code "broker request failed".

Definition failure_reply (id : string) (e : service_error) : Response :=
  match e with
  | CodedBy code => error_reply id code
  | PlainError => protocolError id ErrorUnavailable "broker request unavailable"
  end.

(** The response that carries an answer. *)
Definition reply (id : string) {X} (e : effect X) : X → Response :=
  match e in effect X return X → Response with
  | EStatus => λ x, match x with Ok s => result_response id (encode s) | Fail e => failure_reply id e end
  | EListServers => λ x, match x with Ok s => result_response id (encode s) | Fail e => failure_reply id e end
  | EExecute _ => marshalExecuteResult id
  | EExecuteWait _ => marshalExecuteResult id
  | EExecuteApproved _ => marshalExecuteResult id
  | EExecuteBatch _ => marshalBatchExecuteResult id
  | EExecuteBatchWait _ => marshalBatchExecuteResult id
  | EUnlock _ => λ x, match x with None => accepted id | Some e => failure_reply id e end
  | EApprovals _ => λ x, result_response id (encode x)
  | EDecide _ _ => λ x, match x with None => accepted id | Some _ => error_reply id CodeApproval end
  | EConfigure _ _ => λ x, match x with None => accepted id | Some _ => error_reply id CodeValidation end
  | _ => λ _, zero_response
  end.

Definition is_unlock {X} (e : effect X) : bool := match e with EUnlock _ => true | _ => false end.

(** A refusal: an error response that names the request, or no request. *)
Definition refusal_messages : list (string * string) :=
  [ (ErrorInvalidRequest, "invalid request"); (ErrorInvalidRequest, "invalid JSON");
    (ErrorFrameTooLarge, "request frame too large"); (ErrorInvalidRequest, "status params must be empty");
    (ErrorInvalidRequest, "list params must be empty"); (ErrorInvalidRequest, "invalid execute params");
    (ErrorInvalidRequest, "invalid approved params"); (ErrorInvalidRequest, "invalid batch params");
    (ErrorInvalidRequest, "lock params must be empty"); (ErrorInvalidRequest, "stop params must be empty");
    (ErrorInvalidRequest, "invalid unlock params"); (ErrorInvalidRequest, "invalid approval params");
    (ErrorInvalidRequest, "invalid configuration params"); (ErrorMethodNotFound, "unknown method") ].

Definition frame_of (r : Response) : string := response_line r +:+ String newline "".

Definition refuses (ids : list string) (data : string) : bool :=
  existsb (λ id, existsb (λ '(code, message), String.eqb data (frame_of (protocolError id code message)))
                         refusal_messages) ids.

(** One line of at most [MaxFrameBytes] bytes. *)
Definition one_frame (data : string) : bool :=
  bool_decide (index_byte data newline = Some (String.length data - 1)%nat)
  && (slen data <=? MaxFrameBytes + 1)%Z.

Inductive phase :=
| Fresh
| Armed
| Received (a : arrival)
| Ready (a : arrival)
| Clearing (r : Request) (reply : Response)
| Answered (r : Request) (reply : Response)
| Accepting (r : Request)
| Over
| Released.

(** A request for the daemon itself, answered before it is carried out. *)
Definition is_local (r : Request) : bool := String.eqb (rq_method r) "lock" || String.eqb (rq_method r) "stop".

Definition expect_write (data : string) (ok : bool) (next : phase) : verdict phase :=
  if ok && one_frame data then Next next else Reject.

Definition serves (caps : capabilities) (p : phase) (i : io effect) : verdict phase :=
  match i with
  | @IO _ X e x =>
      match e in effect X return X → verdict phase with
      | ESetReadDeadline => λ ok, match p with Fresh => Next (if ok then Armed else Over) | _ => Reject end
      | ERead => λ c, match p with
                      | Armed => if decide (conn_ok c) then Next (Received (arrival_of c)) else Broken
                      | _ => Reject
                      end
      | EClearReadDeadline => λ _, match p with Received a => Next (Ready a) | _ => Reject end
      | EWrite data => λ _,
          match p with
          | Ready Unreadable => expect_write data (refuses [""] data) Over
          | Ready (BadEnvelope r) => expect_write data (refuses [""; rq_request_id r] data) Over
          | Ready (Arrived r) =>
              if served caps r
              then expect_write data (is_local r && String.eqb data (frame_of (accepted (rq_request_id r)))) (Accepting r)
              else expect_write data (refuses [rq_request_id r] data) Over
          | Answered r reply => expect_write data (String.eqb data (frame_of reply)) Over
          | _ => Reject
          end
      | ELock => λ _, match p with
                      | Accepting r => if String.eqb (rq_method r) "lock" && can_lock caps then Next Over else Reject
                      | _ => Reject
                      end
      | EStop => λ _, match p with
                      | Accepting r => if String.eqb (rq_method r) "stop" && can_stop caps then Next Over else Reject
                      | _ => Reject
                      end
      | EClearMaster => λ _, match p with Clearing r reply => Next (Answered r reply) | _ => Reject end
      | ERelease => λ _, match p with Over => Next Released | _ => Reject end
      | EPanic => λ _, Reject
      | e => λ x,
          match p with
          | Ready (Arrived r) =>
              if served caps r && asks r e then
                if is_unlock e then Next (Clearing r (reply (rq_request_id r) e x))
                else Next (Answered r (reply (rq_request_id r) e x))
              else Reject
          | _ => Reject
          end
      end x
  end.

(** ** The handler follows the protocol *)

Definition reply_wf (r : Response) : Prop := ∀ j, rsp_result r = Some j → json_wf j.

Lemma result_response_wf {A} `{Wire A} id (a : A) : reply_wf (result_response id (encode a)).
Proof. intros j [= <-]. apply encode_wf. Qed.

Lemma marshal_truncated_wf id r : reply_wf (marshal_truncated id r).
Proof.
  unfold marshal_truncated, encodedResultResponse. rewrite encodedGenericResponse_eq.
  destruct (_ <? _)%Z; [done|]. destruct (fitExecuteOutput _ _ _).
  destruct (_ && _); apply (result_response_wf (A := ExecuteResult)).
Qed.

Lemma marshalExecuteResult_wf id r : reply_wf (marshalExecuteResult id r).
Proof.
  unfold marshalExecuteResult, encodedResultResponse. rewrite encodedGenericResponse_eq.
  destruct (_ <=? _)%Z; [|apply marshal_truncated_wf].
  destruct (_ <=? _)%Z; [apply (result_response_wf (A := ExecuteResult))|apply marshal_truncated_wf].
Qed.

Lemma fit_attempts_wf n id b original per base :
  reply_wf base → reply_wf (fit_attempts n id b original per base).
Proof.
  intros Hb. revert per. induction n as [|n IH]; intros per; [done|]. cbn [fit_attempts].
  rewrite encodedGenericResponse_eq. destruct (_ <=? _)%Z; [|apply IH].
  apply (result_response_wf (A := BatchExecuteResult)).
Qed.

Lemma marshalBatchExecuteResult_wf id b : reply_wf (marshalBatchExecuteResult id b).
Proof.
  unfold marshalBatchExecuteResult. rewrite !encodedGenericResponse_eq.
  pose proof (result_response_wf (A := BatchExecuteResult) id) as Hr.
  repeat (match goal with |- context [if ?c then _ else _] => destruct c end); try apply Hr; try done.
  apply fit_attempts_wf, Hr.
Qed.

Lemma marshalResult_wf {A} `{Wire A} id (a : A) : reply_wf (marshalResult id a).
Proof. apply result_response_wf. Qed.

#[export] Hint Resolve result_response_wf marshalExecuteResult_wf marshalBatchExecuteResult_wf marshalResult_wf : wire.

Lemma one_frame_of r : reply_wf r → one_frame (frame_of r) = true.
Proof.
  intros Hr. unfold one_frame, frame_of. destruct (response_line_wf r Hr) as (j & Hj & Hw).
  pose proof (response_line_length r). rewrite slen_app, str_length_app.
  apply andb_true_iff. split.
  - apply bool_decide_eq_true. rewrite index_byte_snoc; [f_equal; simpl; lia|]. rewrite Hj. by apply print_no_newline.
  - apply Z.leb_le. change (slen (String newline "")) with 1%Z. lia.
Qed.

Lemma refuses_intro ids id code message :
  In id ids → In (code, message) refusal_messages →
  refuses ids (frame_of (protocolError id code message)) = true.
Proof.
  intros Hi Hm. unfold refuses. apply existsb_exists. exists id. split; [done|].
  apply existsb_exists. exists (code, message). split; [done|]. apply String.eqb_refl.
Qed.

(** How [dispatch] ends, and where that leaves the protocol. *)
Inductive dispatched (caps : capabilities) (r : Request) : phase → Response → Prop :=
| by_call resp : reply_wf resp → is_local r = false → dispatched caps r (Answered r resp) resp
| by_refusal resp : reply_wf resp → served caps r = false → rsp_error resp ≠ None →
    refuses [rq_request_id r] (frame_of resp) = true → dispatched caps r (Ready (Arrived r)) resp
| by_acceptance : served caps r = true → is_local r = true →
    dispatched caps r (Ready (Arrived r)) (accepted (rq_request_id r)).

(** A call the request asks for, answered. *)
Lemma safe_call {X} (e : effect X) caps r (k : X → handler Response) Q :
  served caps r = true → asks r e = true → is_unlock e = false →
  (∀ x, safe (serves caps) (Answered r (reply (rq_request_id r) e x)) (k x) Q) →
  safe (serves caps) (Ready (Arrived r)) (trigger e ≫= k) Q.
Proof.
  intros Hs Ha Hu Hk. destruct e; try discriminate Ha; try discriminate Hu;
    cbn [trigger mbind prog_mbind prog_bind safe serves]; intros x; rewrite Hs, Ha; apply Hk.
Qed.

Lemma safe_answer {X} (e : effect X) caps r (f : X → Response) :
  served caps r = true → asks r e = true → is_unlock e = false → is_local r = false →
  (∀ x, f x = reply (rq_request_id r) e x ∧ reply_wf (f x)) →
  safe (serves caps) (Ready (Arrived r)) (answer ← trigger e; mret (f answer)) (dispatched caps r).
Proof.
  intros Hs Ha Hu Hl Hf. apply safe_call; [done..|]. intros x. cbn [safe mret prog_mret].
  destruct (Hf x) as [<- Hw]. by constructor.
Qed.

Lemma safe_refusal caps r code message :
  served caps r = false → In (code, message) refusal_messages →
  safe (serves caps) (Ready (Arrived r)) (mret (protocolError (rq_request_id r) code message)) (dispatched caps r).
Proof.
  intros Hs Hm. cbn [safe mret prog_mret]. apply by_refusal; [done|done|done|].
  apply refuses_intro; [by left|done].
Qed.

(** [served], once the method is known. *)
Ltac use_method :=
  match goal with H : rq_method ?r = _ |- context [rq_method ?r] => rewrite H end;
  cbn [methods existsb String.eqb Ascii.eqb Bool.eqb andb orb]; rewrite ?orb_false_r; try reflexivity.

Ltac refuse := apply safe_refusal; [|by repeat ((by left) || right)].

(** The methods that decode their parameters. *)
Lemma safe_decoding {A X} `{Wire A} (bad : A → bool) caps r message implemented (e : A → effect X)
    (f : X → Response) :
  is_local r = false →
  served caps r = implemented && spells (λ a, negb (bad a)) (rq_params r) →
  In (ErrorInvalidRequest, message) refusal_messages →
  (∀ a, decode_raw decode (rq_params r) = Some a → asks r (e a) = true ∧ is_unlock (e a) = false) →
  (∀ a x, f x = reply (rq_request_id r) (e a) x ∧ reply_wf (f x)) →
  safe (serves caps) (Ready (Arrived r))
    (if negb implemented then unknown (rq_request_id r)
     else match decode_raw (decode (A := A)) (rq_params r) with
          | None => invalid (rq_request_id r) message
          | Some a =>
              if bad a then invalid (rq_request_id r) message
              else answer ← trigger (e a); mret (f answer)
          end) (dispatched caps r).
Proof.
  intros Hl Hs Hmsg Ha Hf. unfold spells in Hs. destruct implemented; cbn [negb andb] in *; [|refuse; done].
  destruct (decode_raw decode (rq_params r)) as [a|] eqn:Hd; [|by apply safe_refusal].
  destruct (bad a) eqn:Hg; cbn [negb] in *; [by apply safe_refusal|].
  destruct (Ha a eq_refl). apply safe_answer; [done..|]. intros x. apply Hf.
Qed.

Lemma safe_querying {X} caps r message (e : effect X) (f : X → Response) :
  is_local r = false → served caps r = is_none (rq_params r) →
  In (ErrorInvalidRequest, message) refusal_messages →
  asks r e = true → is_unlock e = false →
  (∀ x, f x = reply (rq_request_id r) e x ∧ reply_wf (f x)) →
  safe (serves caps) (Ready (Arrived r))
    (if negb (is_none (rq_params r)) then invalid (rq_request_id r) message
     else answer ← trigger e; mret (f answer)) (dispatched caps r).
Proof.
  intros Hl Hs Hmsg Ha Hu Hf. destruct (is_none (rq_params r)); cbn [negb].
  - by apply safe_answer.
  - by apply safe_refusal.
Qed.

Lemma safe_local caps r message implemented :
  is_local r = true → served caps r = implemented && is_none (rq_params r) →
  In (ErrorInvalidRequest, message) refusal_messages →
  safe (serves caps) (Ready (Arrived r))
    (if negb (is_none (rq_params r)) then invalid (rq_request_id r) message
     else if negb implemented then unknown (rq_request_id r)
     else mret (accepted (rq_request_id r))) (dispatched caps r).
Proof.
  intros Hl Hs Hmsg. destruct (is_none (rq_params r)); cbn [negb].
  - destruct implemented; cbn [negb]; [|refuse; done]. by apply by_acceptance.
  - apply safe_refusal; [|done]. by rewrite Hs, andb_false_r.
Qed.

Lemma safe_unlocking caps r :
  rq_method r = "unlock" →
  safe (serves caps) (Ready (Arrived r))
    (if negb (can_unlock caps) then unknown (rq_request_id r)
     else match decode_raw (decode (A := UnlockInput)) (rq_params r) with
     | None => invalid (rq_request_id r) "invalid unlock params"
     | Some input =>
         if (slen (un_master input) =? 0)%Z then invalid (rq_request_id r) "invalid unlock params"
         else
           err ← trigger (EUnlock (un_master input));
           _ ← trigger EClearMaster;
           accepted_unless (rq_request_id r) err (protocolServiceError (rq_request_id r))
     end) (dispatched caps r).
Proof.
  intros Hm.
  assert (served caps r = can_unlock caps && spells (λ i, negb (str_is_empty (un_master i))) (rq_params r)) as Hs
    by (unfold served, methods; use_method).
  unfold spells in Hs. destruct (can_unlock caps); cbn [negb andb] in *; [|refuse; done].
  destruct (decode_raw decode (rq_params r)) as [[m]|] eqn:Hd; [|refuse; done].
  cbn [un_master] in *. destruct m as [|a m].
  { change (slen "" =? 0)%Z with true. refuse. done. }
  change (slen (String a m) =? 0)%Z with false. cbn [str_is_empty negb] in Hs.
  cbn [trigger mbind prog_mbind prog_bind safe serves]. intros err.
  assert (asks r (EUnlock (String a m)) = true) as ->.
  { unfold asks. rewrite Hm, Hd. cbn [String.eqb Ascii.eqb Bool.eqb andb]. by apply bool_decide_eq_true. }
  rewrite Hs. cbn [andb is_unlock]. intros _. cbn [accepted_unless mret prog_mret safe reply].
  assert (is_local r = false) as Hl by (unfold is_local; by rewrite Hm).
  destruct err as [[code|]|]; apply by_call; done || apply marshalResult_wf.
Qed.

(** The obligations of one method. *)
Ltac method_facts :=
  first [ done
        | by (unfold served, methods; use_method)
        | by (unfold is_local; use_method)
        | by (unfold asks; use_method)
        | by repeat ((by left) || right)
        | intros; unfold asks; use_method; split; [by apply bool_decide_eq_true|done]
        | intros; split; [done|by auto with wire] ].

(** A request with a good envelope is called for, accepted or refused as the
    table of methods says. *)
Lemma safe_dispatch caps r :
  envelope_ok r = true → safe (serves caps) (Ready (Arrived r)) (dispatch caps r) (dispatched caps r).
Proof.
  unfold envelope_ok. intros Henv. apply andb_true_iff in Henv as [Henv Hlen].
  apply andb_true_iff in Henv as [Henv Hmne]. apply andb_true_iff in Henv as [Hv Hid].
  unfold dispatch. rewrite Hv, (proj1 (negb_true_iff _) Hid), (proj1 (negb_true_iff _) Hmne). cbn [negb orb].
  rewrite Z.ltb_antisym, Hlen. cbn [negb].
  repeat match goal with
  | |- safe _ _ (if String.eqb (rq_method r) ?m then _ else _) _ =>
      let Hm := fresh "Hm" in
      destruct (String.eqb (rq_method r) m) eqn:Hm; [apply String.eqb_eq in Hm|]
  end.
  - apply (safe_querying caps r _ EStatus (λ answer, match answer with
            | Fail err => protocolServiceError (rq_request_id r) err
            | Ok s => marshalResult (rq_request_id r) s
            end)); try method_facts.
    intros [s|[code|]]; (split; [done|]); done || apply marshalResult_wf.
  - apply (safe_querying caps r _ EListServers (λ answer, match answer with
            | Fail err => protocolServiceError (rq_request_id r) err
            | Ok s => marshalResult (rq_request_id r) s
            end)); try method_facts.
    intros [s|[code|]]; (split; [done|]); done || apply marshalResult_wf.
  - apply (safe_decoding (λ _, false) caps r _ true EExecute (marshalExecuteResult (rq_request_id r))); method_facts.
  - apply (safe_decoding (λ _, false) caps r _ (can_execute_wait caps) EExecuteWait
      (marshalExecuteResult (rq_request_id r))); method_facts.
  - apply (safe_decoding (λ _, false) caps r _ true EExecuteApproved (marshalExecuteResult (rq_request_id r))); method_facts.
  - apply (safe_decoding (λ _, false) caps r _ (can_batch caps) EExecuteBatch
      (marshalBatchExecuteResult (rq_request_id r))); method_facts.
  - apply (safe_decoding (λ _, false) caps r _ (can_batch_wait caps) EExecuteBatchWait
      (marshalBatchExecuteResult (rq_request_id r))); method_facts.
  - apply (safe_local caps r _ (can_lock caps)); method_facts.
  - apply (safe_local caps r _ (can_stop caps)); method_facts.
  - by apply safe_unlocking.
  - apply (safe_decoding (λ _, false) caps r _ (can_approvals caps) (λ i, EApprovals (li_include_command i))
      (marshalResult (rq_request_id r))); try method_facts.
    intros [b] Hd. unfold asks. use_method. cbn. split; [by apply bool_decide_eq_true|done].
  - apply (safe_decoding (λ i, str_is_empty (de_id i)) caps r _ (can_approvals caps)
      (λ i, EDecide (de_id i) (de_allow i))
      (λ err, match err with
              | Some _ => protocolServiceError (rq_request_id r) (CodedBy CodeApproval)
              | None => accepted (rq_request_id r)
              end)); try method_facts.
    + intros [id b] Hd. unfold asks. use_method. cbn. split; [by apply bool_decide_eq_true|done].
    + intros i [e|]; (split; [done|]); done || apply marshalResult_wf.
  - apply (safe_decoding (λ i, str_is_empty (co_key i)) caps r _ (can_configure caps)
      (λ i, EConfigure (co_key i) (co_value i))
      (λ err, match err with
              | Some _ => protocolServiceError (rq_request_id r) (CodedBy CodeValidation)
              | None => accepted (rq_request_id r)
              end)); try method_facts.
    + intros [k v] Hd. unfold asks. use_method. cbn. split; [by apply bool_decide_eq_true|done].
    + intros i [e|]; (split; [done|]); done || apply marshalResult_wf.
  - refuse. unfold served, methods. cbn [existsb].
    repeat match goal with H : String.eqb _ _ = false |- _ => rewrite H; clear H end. done.
Qed.

(** A request with a bad envelope is refused without a call. *)
Lemma dispatch_bad_envelope caps r :
  envelope_ok r = false →
  ∃ id, In id [""; rq_request_id r] ∧
    dispatch caps r = mret (protocolError id ErrorInvalidRequest "invalid request").
Proof.
  unfold envelope_ok, dispatch. intros Henv.
  destruct (String.eqb (rq_version r) ProtocolVersion), (str_is_empty (rq_request_id r)),
    (str_is_empty (rq_method r)); cbn [negb orb andb] in *;
    try (by exists (rq_request_id r); split; [right; left|]).
  rewrite Z.ltb_antisym, Henv. exists "". by split; [left|].
Qed.

Lemma expect_write_ok data ok next : ok = true → one_frame data = true → expect_write data ok next = Next next.
Proof. unfold expect_write. by intros -> ->. Qed.

(** What follows the dispatch. *)
Lemma safe_finish caps r resp p :
  dispatched caps r p resp →
  safe (serves caps) p
    (_ ← writeResponse resp;
     _ ← (if String.eqb (rq_method r) "lock" && is_none (rsp_error resp)
          then assert_then (can_lock caps) ELock else mret tt);
     if String.eqb (rq_method r) "stop" && is_none (rsp_error resp)
     then assert_then (can_stop caps) EStop else mret tt) (λ p _, p = Over).
Proof.
  unfold writeResponse. fold (frame_of resp). intros Hd.
  cbn [trigger mbind prog_mbind prog_bind safe serves]. intros _.
  destruct Hd as [resp Hw Hl|resp Hw Hs He Hr|Hs Hl].
  - rewrite expect_write_ok by (apply String.eqb_refl || by apply one_frame_of).
    unfold is_local in Hl. apply orb_false_iff in Hl as [-> ->]. done.
  - rewrite Hs, expect_write_ok by (done || by apply one_frame_of).
    destruct (rsp_error resp); [|done]. cbn [is_none]. by rewrite !andb_false_r.
  - rewrite Hs, Hl, String.eqb_refl. rewrite expect_write_ok by (done || apply one_frame_of, marshalResult_wf).
    cbn [is_none rsp_error accepted marshalResult Marshal result_response]. rewrite !andb_true_r.
    unfold is_local in Hl. destruct (String.eqb (rq_method r) "lock") eqn:Hlock.
    + apply String.eqb_eq in Hlock.
      assert (can_lock caps = true) as Hcan.
      { revert Hs. unfold served, methods. use_method. by intros [? _]%andb_true_iff. }
      unfold assert_then. rewrite Hcan.
      cbn [trigger mbind prog_mbind prog_bind safe serves]. intros _. rewrite Hlock, Hcan. done.
    + cbn [orb] in Hl. rewrite Hl. apply String.eqb_eq in Hl.
      assert (can_stop caps = true) as Hcan.
      { revert Hs. unfold served, methods. use_method. by intros [? _]%andb_true_iff. }
      unfold assert_then. rewrite Hcan.
      cbn [trigger mret prog_mret mbind prog_mbind prog_bind safe serves]. intros _. rewrite Hl, Hcan. done.
Qed.

Lemma readRequest_arrival c :
  conn_ok c →
  match arrival_of c with
  | Unreadable => ∃ code message, snd (readRequest c) = protocolError "" code message ∧ In (code, message) refusal_messages
  | BadEnvelope r => readRequest c = (r, zero_response) ∧ envelope_ok r = false
  | Arrived r => readRequest c = (r, zero_response) ∧ envelope_ok r = true
  end.
Proof.
  intros Hc. unfold arrival_of, readRequest. rewrite <-readSingleFrame_eq by done.
  destruct (readSingleFrame c) as [line|[]];
    try (by do 2 eexists; split; [done|repeat ((by left) || right)]).
  destruct (decodeStrictJSON dec_Request line) as [r|];
    [|by do 2 eexists; split; [done|repeat ((by left) || right)]].
  by destruct (envelope_ok r) eqn:Henv.
Qed.

Lemma safe_handle caps : safe (serves caps) Fresh (handle caps) (λ p _, p = Released).
Proof.
  unfold handle. apply safe_bind.
  apply (safe_mono _ _ _ (λ p _, p = Over)).
  { intros p _ ->. cbn [trigger mbind prog_mbind prog_bind safe serves]. done. }
  unfold handle_body. cbn [trigger mbind prog_mbind prog_bind safe serves]. intros [|]; cbn [negb]; [|done].
  cbn [prog_bind safe serves]. intros c. case_decide as Hc; [|done].
  pose proof (readRequest_arrival c Hc) as Ha. destruct (arrival_of c) as [|r|r].
  - destruct Ha as (code & message & Hresp & Hm). destruct (readRequest c) as [r resp]. cbn [snd] in Hresp. subst resp.
    cbn [trigger mbind prog_mbind prog_bind safe serves]. intros _.
    cbn [protocolError rsp_error is_none negb]. unfold writeResponse. fold (frame_of (protocolError "" code message)).
    cbn [trigger safe serves]. intros _. rewrite expect_write_ok; [done| |by apply one_frame_of].
    apply refuses_intro; [by left|done].
  - destruct Ha as [-> Henv]. cbn [trigger mbind prog_mbind prog_bind safe serves]. intros _.
    cbn [zero_response rsp_error is_none negb].
    destruct (dispatch_bad_envelope caps r Henv) as (id & Hid & ->).
    cbn [mret prog_mret prog_bind]. unfold writeResponse. fold (frame_of (protocolError id ErrorInvalidRequest "invalid request")).
    cbn [trigger mbind prog_mbind prog_bind safe serves]. intros []. cbn [serves]. fold (frame_of (protocolError id ErrorInvalidRequest "invalid request")).
    rewrite expect_write_ok; [|apply refuses_intro; [done|by left]|by apply one_frame_of].
    cbn [protocolError rsp_error is_none]. rewrite !andb_false_r. done.
  - destruct Ha as [-> Henv]. cbn [trigger mbind prog_mbind prog_bind safe serves]. intros _.
    cbn [zero_response rsp_error is_none negb].
    apply (safe_bind (serves caps) _ (dispatch caps r)).
    eapply safe_mono; [|by apply safe_dispatch]. intros p resp Hd. by apply safe_finish.
Qed.

(** C11: Every run of a connection's handler, complete or cut short, follows the
    protocol, whatever the client sends, the service answers and the network
    does: the service is called at most once, only for a request that arrived
    as one whole frame with a good envelope and that the table of methods
    serves, with exactly the arguments its parameters spell; exactly one frame
    is written, which carries the answer of that call, or refuses the request,
    in which case no call was made; a master password is cleared before it is
    answered; [Lock] and [Stop] run only for their own methods and after the
    answer was written; no type assertion panics; the connection is released
    last. *)
Theorem handle_serves caps tr r :
  runs (handle caps) tr r →
  (∀ tr', starts (handle caps) tr' → watch (serves caps) Fresh tr' ≠ Reject) ∧
  match watch (serves caps) Fresh tr with Next p => p = Released | Reject => False | Broken => True end.
Proof.
  intros Hr. split.
  - intros tr' Hs. by eapply safe_starts; [apply safe_handle|].
  - exact (safe_runs _ _ _ _ _ _ (safe_handle caps) Hr).
Qed.

(** A run: an [execute] request that arrives in two pieces. *)
Definition sample_caps : capabilities := {|
  can_execute_wait := true; can_batch := true; can_batch_wait := true; can_lock := true; can_stop := true;
  can_unlock := true; can_approvals := true; can_configure := true |}.

Definition sample_execute : ExecuteRequest := {|
  er_server_alias := "web"; er_command := "uptime"; er_timeout_seconds := 0; er_max_output_bytes := 0 |}.

Definition sample_line : string :=
  print (Request_json {| rq_version := "2"; rq_request_id := "client-1"; rq_method := "execute";
                         rq_params := Some (encode sample_execute) |}) +:+ String newline "".

Definition sample_connection : conn :=
  {| cn_pieces := [str_take 10 sample_line; str_drop 10 sample_line]; cn_end := EOF |}.

Definition sample_trace : list (io effect) :=
  [ IO ESetReadDeadline true; IO ERead sample_connection; IO EClearReadDeadline tt;
    IO (EExecute sample_execute) zero_result;
    IO (EWrite (frame_of (marshalExecuteResult "client-1" zero_result))) tt; IO ERelease tt ].

Lemma sample_handle_runs : runs (handle sample_caps) sample_trace tt.
Proof.
  unfold sample_trace, handle, handle_body. cbn [trigger mbind prog_mbind prog_bind runs].
  exists true; eexists; split; [reflexivity|]. cbn [negb prog_bind runs].
  exists sample_connection; eexists; split; [reflexivity|].
  assert (readRequest sample_connection =
    ({| rq_version := "2"; rq_request_id := "client-1"; rq_method := "execute";
        rq_params := Some (encode sample_execute) |}, zero_response)) as -> by (vm_compute; reflexivity).
  cbn [trigger mbind prog_mbind prog_bind runs]. exists tt; eexists; split; [reflexivity|].
  cbn [zero_response rsp_error is_none negb].
  assert (∀ r, dispatch sample_caps {| rq_version := "2"; rq_request_id := "client-1"; rq_method := "execute";
        rq_params := Some (encode sample_execute) |} = r → r =
    (answer ← trigger (EExecute sample_execute); mret (marshalExecuteResult "client-1" answer))) as H.
  { intros r <-. unfold dispatch. cbn [rq_version rq_request_id rq_method rq_params].
    assert (decode_raw (decode (A := ExecuteRequest)) (Some (encode sample_execute)) = Some sample_execute) as -> by (vm_compute; reflexivity).
    reflexivity. }
  rewrite (H _ eq_refl). clear H.
  cbn [trigger mret prog_mret mbind prog_mbind prog_bind runs writeResponse].
  exists zero_result; eexists; split; [reflexivity|]. exists tt; eexists; split; [reflexivity|].
  assert (rsp_error (marshalExecuteResult "client-1" zero_result) = None) as -> by (vm_compute; reflexivity).
  cbn. exists tt; eexists; split; [reflexivity|]. done.
Qed.

Lemma handle_serves_witness :
  match watch (serves sample_caps) Fresh sample_trace with Next p => p = Released | Reject => False | Broken => True end.
Proof. exact (proj2 (handle_serves sample_caps sample_trace tt sample_handle_runs)). Defined.
