(* ===== verification/BrokerClient.v ===== *)
(** * The broker client: [internal/broker/client.go]

    [Client.call] as a program over the calls it makes to the context, the
    clock and the connection, and its methods.  The results: request ids are
    the decimal counters the source means and never overrun their buffer; a
    call answers only with what a matching response carried; and, composed
    with the server, a request arrives as it was sent and its result comes
    back as the service returned it, up to the cut that fits it in a frame. *)

From S2P Require Import Prelude GoStr Utf8 GoTime Prog Model Frame Json Wire Protocol BrokerServer.
From Stdlib Require Import Ascii.
Open Scope Z_scope.
Open Scope string_scope.
Open Scope list_scope.

(** ** Request ids *)

(** The loop of [formatUint]: [index] counts the free bytes of the buffer;
    [None] is an index out of range. *)
Fixpoint format_loop (index : nat) (value : Z) (buffer : string) : option string :=
  if (value =? 0)%Z then Some buffer
  else match index with
       | O => None
       | S index' =>
           digit ← str_at "0123456789" (Z.to_nat (value mod 10));
           format_loop index' (value / 10) (String digit buffer)
       end.

Definition formatUint (value : Z) : option string :=
  if (value =? 0)%Z then Some "0" else format_loop 20 value "".

Definition nextID (sequence : Z) : string := "client-" +:+ default "" (formatUint sequence).

Lemma digit_at d : (0 ≤ d < 10)%Z → str_at "0123456789" (Z.to_nat d) = Some (digit_char d).
Proof.
  intros Hd.
  assert (d = 0 ∨ d = 1 ∨ d = 2 ∨ d = 3 ∨ d = 4 ∨ d = 5 ∨ d = 6 ∨ d = 7 ∨ d = 8 ∨ d = 9)%Z as Hc by lia.
  by repeat destruct Hc as [->|Hc]; [..|subst].
Qed.

Lemma format_loop_digits index value buffer fuel :
  (0 < value < 10 ^ Z.of_nat index)%Z → (value < 2 ^ Z.of_nat fuel)%Z →
  format_loop index value buffer = Some (digits_acc fuel value buffer).
Proof.
  revert value buffer fuel. induction index as [|index IH]; intros value buffer fuel Hv Hf.
  { simpl in Hv. lia. }
  cbn [format_loop]. rewrite (proj2 (Z.eqb_neq _ _)) by lia.
  rewrite digit_at by (apply Z.mod_pos_bound; lia). cbn [mbind option_bind].
  destruct fuel as [|fuel]; [simpl in Hf; lia|]. cbn [digits_acc].
  rewrite Nat2Z.inj_succ, Z.pow_succ_r in Hv by lia. rewrite Nat2Z.inj_succ, Z.pow_succ_r in Hf by lia.
  destruct (value <? 10)%Z eqn:H10; bool_hyps.
  - rewrite (Z.div_small value 10) by lia. by destruct index.
  - apply IH; [split; [apply Z.div_str_pos; lia|apply Z.div_lt_upper_bound; lia]|].
    apply Z.div_lt_upper_bound; lia.
Qed.

(** [formatUint] writes the decimal digits of every [uint64], zero included,
    and its twenty-byte buffer is never overrun. *)
Theorem formatUint_spec value :
  (0 ≤ value ≤ max_uint64)%Z → formatUint value = Some (itoa_nonneg value).
Proof.
  unfold formatUint, max_uint64. intros Hv. destruct (value =? 0)%Z eqn:H0; bool_hyps; [by subst|].
  apply (format_loop_digits 20 value "" (z_digits value)); [simpl; lia|]. unfold z_digits. rewrite Nat2Z.inj_succ, Z2Nat.id by apply Z.log2_nonneg.
  apply Z.log2_spec. lia.
Qed.

Lemma formatUint_spec_witness : formatUint max_uint64 = Some "18446744073709551615".
Proof. rewrite (formatUint_spec max_uint64 ltac:(unfold max_uint64; lia)). reflexivity. Defined.

(** ** The calls *)

Inductive ctx_error := Canceled | DeadlineExceeded.

Inductive client_error :=
| Broker (e : broker_error)
| Ctx (e : ctx_error)
| Canonical (e : CodedError)
| Remote (e : RPCError).

Definition ErrUnavailable : client_error := Canonical ErrUnavailableDaemon.

Inductive effect : Type → Type :=
| ECtxErr : effect (option ctx_error)
| ESequence : effect Z
| EDial (path : string) : effect bool
| EDeadline : effect (option Z)
| ENow : effect Z
| ESetWriteDeadline (t : Z) : effect bool
| ESend (data : string) : effect bool
| EClearWriteDeadline : effect unit
| EIsUnix : effect bool
| ECloseWrite : effect bool
| ESetReadDeadline (t : Z) : effect bool
| EReceive : effect conn
| EClose : effect unit.

Abbreviation program := (prog effect).

Definition defaultWriteTimeout : Z := 5 * second.
Definition defaultReadTimeout : Z := 31 * 60 * second.

Definition readResponseFrame (connection : conn) : result broker_error Response :=
  match readSingleFrame connection with
  | Fail e => Fail e
  | Ok line =>
      match decodeStrictJSON dec_Response line with
      | None => Fail ErrInvalidProtocol
      | Some response => Ok response
      end
  end.

Definition has_result (response : Response) : bool :=
  match rsp_result response with None | Some JNull => false | Some _ => true end.

(** The canonical error of a code, or the error as it came. *)
Definition remote_error (e : RPCError) : client_error :=
  match codedErrorForCode (rpc_code e) ≫= (initial_heap !!.) with
  | Some canonical => Canonical canonical
  | None => Remote e
  end.

(** The end of [call]: what a response means. *)
Definition check_response {A} (d : dec A) (requestID : string) (response : Response) : result client_error A :=
  if negb (String.eqb (rsp_request_id response) requestID) || negb (String.eqb (rsp_version response) ProtocolVersion)
  then Fail (Broker ErrInvalidProtocol)
  else
    let hasError := negb (is_none (rsp_error response)) in
    if Bool.eqb (has_result response) hasError then Fail (Broker ErrInvalidProtocol)
    else match rsp_error response with
    | Some e => Fail (remote_error e)
    | None =>
        match decode_raw d (rsp_result response) with
        | None => Fail (Broker ErrInvalidProtocol)
        | Some result => Ok result
        end
    end.

(** [hasContextDeadline && !time.Now().Before(contextDeadline)] *)
Definition or_expired (deadline : option Z) (e : client_error) : program client_error :=
  match deadline with
  | None => mret e
  | Some d => now ← trigger ENow; mret (if (now <? d)%Z then e else Ctx DeadlineExceeded)
  end.

Definition or_ctx (otherwise : program client_error) : program client_error :=
  err ← trigger ECtxErr;
  match err with Some e => mret (Ctx e) | None => otherwise end.

(** What follows the dial, up to the deferred close. *)
Definition exchange {A} (d : dec A) (requestID requestBytes : string) : program (result client_error A) :=
  deadline ← trigger EDeadline;
  now ← trigger ENow;
  ok ← trigger (ESetWriteDeadline (phaseDeadline now deadline defaultWriteTimeout));
  if negb ok then mret (Fail ErrUnavailable)
  else
  ok ← trigger (ESend (requestBytes +:+ String newline ""));
  if negb ok then e ← or_ctx (or_expired deadline ErrUnavailable); mret (Fail e)
  else
  _ ← trigger EClearWriteDeadline;
  ok ← trigger EIsUnix;
  if negb ok then mret (Fail (Broker ErrInvalidProtocol))
  else
  ok ← trigger ECloseWrite;
  if negb ok then e ← or_ctx (mret ErrUnavailable); mret (Fail e)
  else
  now ← trigger ENow;
  ok ← trigger (ESetReadDeadline (phaseDeadline now deadline defaultReadTimeout));
  if negb ok then mret (Fail (Broker ErrInvalidProtocol))
  else
  connection ← trigger EReceive;
  err ← trigger ECtxErr;
  match err with
  | Some e => mret (Fail (Ctx e))
  | None =>
      match readResponseFrame connection with
      | Fail e => e ← or_expired deadline (Broker e); mret (Fail e)
      | Ok response => mret (check_response d requestID response)
      end
  end.

Definition request_of (requestID method : string) (params : option json) : Request := {|
  rq_version := ProtocolVersion; rq_request_id := requestID; rq_method := method; rq_params := params |}.

(** [client] is the path of the socket, [None] for a nil client. *)
Definition call {A} (client : option string) (ctx_nil : bool) (method : string) (params : option json) (d : dec A)
  : program (result client_error A) :=
  match client with
  | None | Some "" => mret (Fail (Broker ErrInvalidProtocol))
  | Some path =>
      if ctx_nil then mret (Fail (Canonical ErrValidation))
      else
      err ← trigger ECtxErr;
      match err with
      | Some e => mret (Fail (Ctx e))
      | None =>
          sequence ← trigger ESequence;
          let requestID := nextID sequence in
          match Marshal (Request_json (request_of requestID method params)) with
          | None => mret (Fail (Broker ErrInvalidProtocol))
          | Some requestBytes =>
              if (MaxFrameBytes <? slen requestBytes)%Z then mret (Fail (Broker ErrFrameTooLarge))
              else
              ok ← trigger (EDial path);
              if negb ok then e ← or_ctx (mret ErrUnavailable); mret (Fail e)
              else
              r ← exchange d requestID requestBytes;
              _ ← trigger EClose;
              mret r
          end
      end
  end.

(** ** The methods *)

Section methods.
Context (client : option string) (ctx_nil : bool).

Definition Status : program (result client_error BrokerStatus) := call client ctx_nil "status" None decode.
Definition ListServers : program (result client_error (option (list ServerSummary))) :=
  call client ctx_nil "list_servers" None decode.
Definition Execute (request : ExecuteRequest) : program (result client_error ExecuteResult) :=
  call client ctx_nil "execute" (Some (encode request)) decode.
Definition ExecuteApproved (request : ApprovedRequest) : program (result client_error ExecuteResult) :=
  call client ctx_nil "execute_approved" (Some (encode request)) decode.
Definition ExecuteBatch (request : BatchExecuteRequest) : program (result client_error BatchExecuteResult) :=
  call client ctx_nil "execute_batch" (Some (encode request)) decode.
Definition ExecuteWait (request : ExecuteRequest) : program (result client_error ExecuteResult) :=
  call client ctx_nil "execute_wait" (Some (encode request)) decode.
Definition ExecuteBatchWait (request : BatchExecuteRequest) : program (result client_error BatchExecuteResult) :=
  call client ctx_nil "execute_batch_wait" (Some (encode request)) decode.
Definition ListApprovals (includeCommand : bool) : program (result client_error (option (list ApprovalSummary))) :=
  call client ctx_nil "approval_list" (Some (encode {| li_include_command := includeCommand |})) decode.

(** [if !result.Accepted { return ErrInvalidProtocol }] *)
Definition accepted_or_error (p : program (result client_error Accepted)) : program (option client_error) :=
  r ← p;
  mret (match r with
        | Fail e => Some e
        | Ok a => if ac_accepted a then None else Some (Broker ErrInvalidProtocol)
        end).

Definition Lock : program (option client_error) := accepted_or_error (call client ctx_nil "lock" None decode).
Definition Stop : program (option client_error) := accepted_or_error (call client ctx_nil "stop" None decode).

(** A nil [master] is [null] on the wire. *)
Definition unlock_params (master : option string) : json :=
  match master with
  | Some m => encode {| un_master := m |}
  | None => JObj [("master", JNull)]
  end.

Definition Unlock (master : option string) : program (option client_error) :=
  accepted_or_error (call client ctx_nil "unlock" (Some (unlock_params master)) decode).
Definition DecideApproval (id : string) (allow : bool) : program (option client_error) :=
  accepted_or_error (call client ctx_nil "approval_decide" (Some (encode {| de_id := id; de_allow := allow |})) decode).
Definition Configure (key value : string) : program (option client_error) :=
  accepted_or_error (call client ctx_nil "configure" (Some (encode {| co_key := key; co_value := value |})) decode).
End methods.

(** ** A call answers with what came back *)

(** The calls of [call], in order; the state is the request id and, at the
    end, the response that was read. *)
Inductive phase :=
| Idle
| Alive                     (* the context was not done *)
| Numbered (id : string)
| Dialed (id : string)
| Sent (id : string)        (* the whole request is out *)
| HalfClosed (id : string)
| Received (id : string) (c : conn)
| Current (id : string) (c : conn)  (* and the context is still not done *)
| Failed
| Closed (from : phase).

Definition request_frame (id method : string) (params : option json) : string :=
  print (Request_json (request_of id method params)) +:+ String newline "".

Definition calls (path method : string) (params : option json) (p : phase) (i : io effect) : verdict phase :=
  match i with
  | @IO _ X e x =>
      match e in effect X return X → verdict phase with
      | ECtxErr => λ err,
          match p, err with
          | Idle, None => Next Alive
          | Idle, Some _ => Next Failed
          | Received id c, None => Next (Current id c)
          | Closed _, _ => Reject
          | _, _ => Next Failed
          end
      | ESequence => λ n, match p with Alive => Next (Numbered (nextID n)) | _ => Reject end
      | EDial path' => λ ok,
          match p with
          | Numbered id => if String.eqb path' path then Next (if ok then Dialed id else Failed) else Reject
          | _ => Reject
          end
      | ESend data => λ ok,
          match p with
          | Dialed id =>
              if String.eqb data (request_frame id method params) && (slen data <=? MaxFrameBytes + 1)%Z
              then Next (if ok then Sent id else Failed) else Reject
          | _ => Reject
          end
      | ECloseWrite => λ ok, match p with Sent id => Next (if ok then HalfClosed id else Failed) | _ => Reject end
      | EReceive => λ c, match p with HalfClosed id => Next (Received id c) | _ => Reject end
      | EClose => λ _, match p with Closed _ | Idle | Alive | Numbered _ => Reject | _ => Next (Closed p) end
      | _ => λ _, match p with Closed _ => Reject | _ => Next p end
      end x
  end.

(** An answer of the callee, or an error. *)
Definition answered {A} (d : dec A) (p : phase) (r : result client_error A) : Prop :=
  match r with
  | Fail _ => True
  | Ok a => ∃ id c response, p = Closed (Current id c) ∧ readResponseFrame c = Ok response ∧
              rsp_request_id response = id ∧ rsp_version response = ProtocolVersion ∧
              rsp_error response = None ∧ decode_raw d (rsp_result response) = Some a
  end.

Lemma check_response_ok {A} (d : dec A) id response a :
  check_response d id response = Ok a →
  rsp_request_id response = id ∧ rsp_version response = ProtocolVersion ∧ rsp_error response = None ∧
  decode_raw d (rsp_result response) = Some a.
Proof.
  unfold check_response. destruct (_ || _) eqn:Hid; [done|]. bool_hyps.
  destruct (Bool.eqb _ _); [done|]. destruct (rsp_error response); [done|].
  destruct (decode_raw d _) eqn:Hd; [|done]. by intros [= ->].
Qed.

(** A connection is open: it was dialed and not closed yet. *)
Definition open (p : phase) : Prop :=
  match p with
  | Dialed _ | Sent _ | HalfClosed _ | Received _ _ | Current _ _ | Failed => True
  | _ => False
  end.

Definition exchanged {A} (d : dec A) (p : phase) (r : result client_error A) : Prop :=
  open p ∧
  match r with
  | Fail _ => True
  | Ok a => ∃ id c response, p = Current id c ∧ readResponseFrame c = Ok response ∧
              rsp_request_id response = id ∧ rsp_version response = ProtocolVersion ∧
              rsp_error response = None ∧ decode_raw d (rsp_result response) = Some a
  end.

Ltac step := cbn [trigger mret prog_mret mbind prog_mbind prog_bind safe calls].

Lemma safe_or_expired path method params deadline e p (Q : phase → client_error → Prop) :
  open p → (∀ e, Q p e) → safe (calls path method params) p (or_expired deadline e) Q.
Proof. intros Hp HQ. unfold or_expired. destruct deadline; step; [|done]. intros now. by destruct p. Qed.

Lemma safe_or_ctx path method params otherwise p (Q : phase → client_error → Prop) :
  p = Failed → (∀ e, Q Failed e) →
  safe (calls path method params) Failed otherwise Q →
  safe (calls path method params) p (or_ctx otherwise) Q.
Proof. intros -> HQ Ho. unfold or_ctx. step. intros [e|]; [apply HQ|done]. Qed.

Lemma safe_exchange {A} path method params (d : dec A) id :
  (slen (print (Request_json (request_of id method params))) ≤ MaxFrameBytes)%Z →
  safe (calls path method params) (Dialed id)
    (exchange d id (print (Request_json (request_of id method params)))) (exchanged d).
Proof.
  intros Hlen. unfold exchange. step. intros deadline now [|]; cbn [negb]; step; [|done].
  fold (request_frame id method params). intros ok. rewrite String.eqb_refl.
  assert (slen (request_frame id method params) <=? MaxFrameBytes + 1 = true)%Z as ->.
  { apply Z.leb_le. unfold request_frame. rewrite slen_app. change (slen (String newline "")) with 1%Z. lia. }
  destruct ok; cbn [negb andb].
  2:{ apply safe_bind, safe_or_ctx; [done|done|]. by apply safe_or_expired. }
  step. intros _ [|]; cbn [negb]; step; [|done].
  intros [|]; cbn [negb]; [|by apply safe_bind, safe_or_ctx].
  step. intros now' [|]; cbn [negb]; step; [|done].
  intros c [e|]; [done|].
  destruct (readResponseFrame c) as [response|e] eqn:Hread; [|by apply safe_bind, safe_or_expired].
  step. split; [done|]. destruct (check_response d id response) as [a|] eqn:Hc; [|done].
  apply check_response_ok in Hc as (? & ? & ? & ?). by exists id, c, response.
Qed.

Lemma safe_client_call {A} path method params (d : dec A) :
  path ≠ "" →
  safe (calls path method params) Idle (call (Some path) false method params d) (answered d).
Proof.
  intros Hp. unfold call. destruct path as [|ch path]; [done|]. step.
  intros [e|]; [done|]. step. intros n. cbn [Marshal].
  destruct (_ <? _)%Z eqn:Hlen; [done|]. bool_hyps. step.
  intros ok. rewrite String.eqb_refl. destruct ok; cbn [negb]; [|by apply safe_bind, safe_or_ctx].
  apply safe_bind. eapply safe_mono; [|by apply safe_exchange].
  intros p r [Ho Hr]. step. intros _. destruct p; try done; destruct r as [a|]; try done;
    destruct Hr as (id' & c' & response & Heq & Hr); try done.
  simplify_eq. by exists id', c', response.
Qed.

(** Every run of a client's call, complete or cut short, keeps the order of
    the protocol: a request is numbered only while the context lives, only the
    request of this method and these parameters is sent, once and within the
    frame limit, the stream is half closed before anything is read, and a
    connection that was dialed is closed last.  An answer other than an error
    is exactly what decodes from a response that was read after the whole
    request was sent, while the context was still alive, with the request's own
    id, the protocol's version and no error. *)
Theorem call_answers {A} path method params (d : dec A) tr r :
  path ≠ "" →
  runs (call (Some path) false method params d) tr r →
  (∀ tr', starts (call (Some path) false method params d) tr' → watch (calls path method params) Idle tr' ≠ Reject) ∧
  match watch (calls path method params) Idle tr with
  | Next p => answered d p r
  | Reject => False
  | Broken => True
  end.
Proof.
  intros Hp Hr. split.
  - intros tr' Hs. by eapply safe_starts; [apply (safe_client_call path method params d Hp)|].
  - exact (safe_runs _ _ _ _ _ _ (safe_client_call path method params d Hp) Hr).
Qed.

(** A call that finds no daemon. *)
Definition unreachable_trace : list (io effect) :=
  [IO ECtxErr None; IO ESequence 1%Z; IO (EDial "/run/aegis.sock") false; IO ECtxErr None].

Lemma unreachable_runs :
  runs (call (Some "/run/aegis.sock") false "status" None (decode (A := BrokerStatus)))
    unreachable_trace (Fail ErrUnavailable).
Proof.
  unfold call, unreachable_trace. cbn [trigger mbind prog_mbind prog_bind runs Marshal].
  exists None; eexists; split; [reflexivity|]. cbn [prog_bind runs].
  exists 1%Z; eexists; split; [reflexivity|].
  assert ((MaxFrameBytes <? slen (print (Request_json (request_of (nextID 1) "status" None))))%Z = false) as ->
    by (vm_compute; reflexivity).
  cbn [trigger prog_bind runs]. exists false; eexists; split; [reflexivity|].
  cbn. exists None; eexists; split; [reflexivity|]. done.
Qed.

Lemma call_answers_witness :
  match watch (calls "/run/aegis.sock" "status" None) Idle unreachable_trace with
  | Next p => answered (decode (A := BrokerStatus)) p (Fail ErrUnavailable)
  | Reject => False
  | Broken => True
  end.
Proof.
  refine (proj2 (call_answers "/run/aegis.sock" "status" None (decode (A := BrokerStatus))
            unreachable_trace (Fail ErrUnavailable) _ unreachable_runs)).
  discriminate.
Defined.

(** ** Client and server together *)

(** [c] delivers exactly [data], in any pieces, and then its end. *)
Definition delivers (c : conn) (data : string) : Prop :=
  conn_ok c ∧ str_concat (cn_pieces c) = data ∧ cn_end c = EOF.

Lemma nextID_spec n :
  (0 ≤ n ≤ max_uint64)%Z →
  valid_utf8 (nextID n) = true ∧ (slen (nextID n) ≤ maxRequestIDBytes)%Z ∧ nextID n ≠ "".
Proof.
  intros Hn. unfold nextID.
  assert (formatUint n = Some (itoa_nonneg n)) as ->.
  { unfold formatUint. destruct (n =? 0)%Z eqn:H0; bool_hyps; [by subst|]. unfold max_uint64 in Hn.
    apply (format_loop_digits 20 n "" (z_digits n)); [simpl; lia|]. unfold z_digits.
    rewrite Nat2Z.inj_succ, Z2Nat.id by apply Z.log2_nonneg. apply Z.log2_spec. lia. }
  change (default "" (Some (itoa_nonneg n))) with (itoa_nonneg n).
  assert (slen (itoa_nonneg n) ≤ 20)%Z as Hlen.
  { destruct (decide (itoa_nonneg n = "0")) as [->|Hne]; [done|].
    pose proof (canonical_digits_lower _ (itoa_nonneg_canonical n ltac:(lia)) Hne) as Hl.
    rewrite itoa_nonneg_val in Hl by lia. unfold max_uint64 in Hn.
    destruct (Z.le_gt_cases (slen (itoa_nonneg n)) 20); [done|].
    assert (2 ^ 64 - 1 < 10 ^ 20)%Z by done.
    assert (10 ^ 20 ≤ 10 ^ (slen (itoa_nonneg n) - 1))%Z by (apply Z.pow_le_mono_r; lia). lia. }
  split; [|split; [|done]].
  - apply valid_utf8_app; [done|]. apply valid_utf8_digits, itoa_nonneg_all. lia.
  - rewrite slen_app. change (slen "client-") with 7%Z. unfold maxRequestIDBytes. lia.
Qed.

(** A request the client sends is the request the server receives. *)
Lemma request_arrives n method params c :
  (0 ≤ n ≤ max_uint64)%Z → valid_utf8 method = true → method ≠ "" → raw_ok params →
  (slen (print (Request_json (request_of (nextID n) method params))) ≤ MaxFrameBytes)%Z →
  delivers c (request_frame (nextID n) method params) →
  arrival_of c = Arrived (request_of (nextID n) method params).
Proof.
  intros Hn Hm Hne Hp Hlen (Hc & Hs & He). destruct (nextID_spec n Hn) as (Hv & Hl & Hid).
  assert (json_wf (Request_json (request_of (nextID n) method params))) as Hwf.
  { unfold Request_json. cbn [json_wf]. rewrite Forall_fmap. change (id ∘ ?f) with f.
    unfold request_pieces, raw_member. wire_members; try done.
    apply raw_member_all; [|done]. intros. by apply Hp. }
  unfold arrival_of. rewrite (frame_spec_line c _ Hs He (print_no_newline _ Hwf) Hlen).
  rewrite Request_roundtrip by done. unfold envelope_ok. cbn [request_of rq_version rq_request_id rq_method].
  destruct (nextID n) as [|? ?]; [done|]. destruct method as [|? ?]; [done|].
  by rewrite (proj2 (Z.leb_le _ _) Hl).
Qed.

(** A response the server writes is the response the client reads. *)
Lemma response_arrives r c :
  response_ok r → (response_size r ≤ MaxFrameBytes)%Z → delivers c (frame_of r) → readResponseFrame c = Ok r.
Proof.
  intros Hr Hsize (Hc & Hs & He). unfold readResponseFrame.
  assert (json_wf (Response_json r)) as Hwf by (apply response_wf; intros j Hj; by apply Hr).
  unfold frame_of in Hs. rewrite response_line_fits in Hs by done.
  rewrite readSingleFrame_eq, (frame_spec_line c _ Hs He (print_no_newline _ Hwf) Hsize) by done.
  by rewrite Response_roundtrip.
Qed.

Definition nested_ok {A} `{Wire A} : Prop := (depth (A := A) < maxNestingDepth)%Z.

Lemma result_response_ok {A} `{Wire A} id (a : A) :
  valid_utf8 id = true → wire_ok a → nested_ok (A := A) → response_ok (result_response id (encode a)).
Proof.
  intros Hid Ha Hn. split; [done|done| |done]. intros j [= <-].
  split; [apply encode_wf|]. split; [by apply encode_valid|].
  pose proof (encode_depth a). unfold nested_ok in Hn. lia.
Qed.

(** A value that travels unharmed and is not [null] is what the caller gets. *)
Lemma check_result {A} `{Wire A} id (a : A) :
  wire_ok a → encode a ≠ JNull → check_response decode id (result_response id (encode a)) = Ok a.
Proof.
  intros Ha Hne. unfold check_response. cbn [result_response rsp_request_id rsp_version rsp_error rsp_result].
  rewrite !String.eqb_refl. cbn [negb orb is_none].
  assert (has_result (result_response id (encode a)) = true) as ->.
  { unfold has_result. cbn [result_response rsp_result]. by destruct (encode a). }
  cbn [Bool.eqb decode_raw mbind option_bind]. by rewrite decode_encode.
Qed.

(** The fields of a result that marshalling leaves alone travel unharmed. *)
Definition deliverable (r : ExecuteResult) : Prop := wire_ok (with_outputs r "" "" false).

Lemma cut_wire_ok r r' : deliverable r → cut_of r r' → wire_ok r'.
Proof.
  intros [] [Hrest _ _ [Ho He] _ _]. rewrite Hrest. by split.
Qed.

(** What a client makes of the response to an execution. *)
Definition execution_delivered (id : string) (x : ExecuteResult) (got : result client_error ExecuteResult) : Prop :=
  (∃ r', got = Ok r' ∧ cut_of x r' ∧
     ((response_size (result_response id (encode (normalized_result x))) ≤ MaxFrameBytes)%Z →
      r' = normalized_result x))
  ∨ got = Fail (Remote {| rpc_code := ErrorInternal; rpc_message := "response unavailable" |}) ∧
    (MaxFrameBytes < bare_size id x)%Z.

(** The response to an execution, in whatever pieces it comes. *)
Lemma marshalled_arrives id x c : valid_utf8 id = true → (slen id ≤ maxRequestIDBytes)%Z → deliverable x →
  delivers c (frame_of (marshalExecuteResult id x)) →
  ∃ response, readResponseFrame c = Ok response ∧ execution_delivered id x (check_response decode id response).
Proof.
  intros Hv Hl Hx Hc. exists (marshalExecuteResult id x).
  destruct (marshalExecuteResult_fits id x Hl) as [Hsize Hcases]. cbv zeta in Hsize, Hcases.
  destruct Hcases as [(r' & Heq & Hcut & Hwhole)|[Heq Hbig]].
  - assert (wire_ok r') as Hok by by eapply cut_wire_ok. split.
    + apply response_arrives; [|done|done]. rewrite Heq. by apply result_response_ok.
    + left. exists r'. split; [|done]. rewrite Heq. by apply check_result.
  - split.
    + apply response_arrives; [|done|done]. rewrite Heq. split; [done|done|done|]. by intros e [= <-].
    + right. split; [|done]. rewrite Heq. unfold check_response.
      cbn [unavailable_response protocolError rsp_request_id rsp_version rsp_error]. by rewrite !String.eqb_refl.
Qed.

(** The three methods that execute one command: what the client runs, what it
    means, and whether the service has it. *)
Inductive execution :=
| Asked (request : ExecuteRequest)
| AskedToWait (request : ExecuteRequest)
| AskedApproved (request : ApprovedRequest).

Definition client_program (path : string) (x : execution) : program (result client_error ExecuteResult) :=
  match x with
  | Asked request => Execute (Some path) false request
  | AskedToWait request => ExecuteWait (Some path) false request
  | AskedApproved request => ExecuteApproved (Some path) false request
  end.

Definition service_call (x : execution) : BrokerServer.effect ExecuteResult :=
  match x with
  | Asked request => EExecute request
  | AskedToWait request => EExecuteWait request
  | AskedApproved request => EExecuteApproved request
  end.

Definition supported (caps : capabilities) (x : execution) : bool :=
  match x with AskedToWait _ => can_execute_wait caps | _ => true end.

Definition sendable (x : execution) : Prop :=
  match x with
  | Asked request | AskedToWait request => wire_ok request
  | AskedApproved request => wire_ok request
  end.

Definition execution_method (x : execution) : string :=
  match x with Asked _ => "execute" | AskedToWait _ => "execute_wait" | AskedApproved _ => "execute_approved" end.

Definition execution_params (x : execution) : json :=
  match x with
  | Asked request | AskedToWait request => encode request
  | AskedApproved request => encode request
  end.

(** ** What a run of the client did *)

(** What it numbered its requests with, sent, received, and heard of the end of
    its context. *)
Definition numbers {X} (e : effect X) : X → list Z := match e in effect X return X → list Z with ESequence => λ n, [n] | _ => λ _, [] end.
Definition sends {X} (e : effect X) : X → list string :=
  match e in effect X return X → list string with ESend data => λ ok, if ok then [data] else [] | _ => λ _, [] end.
Definition receives {X} (e : effect X) : X → list conn := match e in effect X return X → list conn with EReceive => λ c, [c] | _ => λ _, [] end.
Definition ends {X} (e : effect X) : X → list ctx_error := match e in effect X return X → list ctx_error with ECtxErr => option_list | _ => λ _, [] end.

Definition noted {E : Type → Type} {A} (note : ∀ X, E X → X → list A) (tr : list (io E)) : list A :=
  mjoin ((λ i, match i with IO e x => note _ e x end) <$> tr).

Abbreviation numbered := (noted (@numbers)).
Abbreviation sent := (noted (@sends)).
Abbreviation received := (noted (@receives)).
Abbreviation ended := (noted (@ends)).

Lemma noted_cons {E : Type → Type} {A} (note : ∀ X, E X → X → list A) X (e : E X) x tr :
  noted note (IO e x :: tr) = note X e x ++ noted note tr.
Proof. done. Qed.

Lemma noted_app {E : Type → Type} {A} (note : ∀ X, E X → X → list A) t1 t2 : noted note (t1 ++ t2) = noted note t1 ++ noted note t2.
Proof. unfold noted. by rewrite fmap_app, join_app. Qed.

(** ** What a run of the server did *)

Definition reads {X} (e : BrokerServer.effect X) : X → list conn :=
  match e in BrokerServer.effect X return X → list conn with ERead => λ c, [c] | _ => λ _, [] end.
Definition writes {X} (e : BrokerServer.effect X) : X → list string :=
  match e in BrokerServer.effect X return X → list string with EWrite data => λ _, [data] | _ => λ _, [] end.

(** Every call to the service, and a panic. *)
Definition to_service {X} (e : BrokerServer.effect X) : bool :=
  match e with
  | BrokerServer.ESetReadDeadline | ERead | EClearReadDeadline | EWrite _ | ERelease | EClearMaster => false
  | _ => true
  end.
Definition service_calls {X} (e : BrokerServer.effect X) (x : X) : list (io BrokerServer.effect) :=
  if to_service e then [IO e x] else [].

Abbreviation arrived := (noted (@reads)).
Abbreviation written := (noted (@writes)).
Abbreviation asked := (noted (@service_calls)).

(** A socket between the two: each side reads what the other wrote, in any
    pieces, and then its end. *)
Record socket (client : list (io effect)) (server : list (io BrokerServer.effect)) : Prop := {
  so_request c : c ∈ arrived server → delivers c (str_concat (sent client));
  so_response c : c ∈ received client → delivers c (str_concat (written server)) }.

(** The ways out with an error neither number, nor send, nor receive. *)
Definition quiet (tr : list (io effect)) : Prop := numbered tr = [] ∧ sent tr = [] ∧ received tr = [].

Lemma quiet_or_expired deadline e tr e' : runs (or_expired deadline e) tr e' → quiet tr.
Proof. unfold or_expired. destruct deadline as [d|]; [|by intros [-> _]]. by intros (now & t & -> & [-> _]). Qed.

Lemma quiet_or_ctx deadline e tr e' : runs (or_ctx (or_expired deadline e)) tr e' → quiet tr.
Proof. intros (err & t & -> & H). destruct err as [err|]; [by destruct H as [-> _]|]. exact (quiet_or_expired _ _ _ _ H). Qed.

Lemma quiet_failing {A} (p : program client_error) tr (r : result client_error A) : (∀ t e, runs p t e → quiet t) →
  runs (e ← p; mret (Fail e)) tr r → quiet tr.
Proof. intros Hp (t1 & t2 & e & -> & H & [-> _])%runs_bind. rewrite app_nil_r. by eapply Hp. Qed.

Lemma quiet_failing_ctx {A} e tr (r : result client_error A) : runs (e ← or_ctx (mret e); mret (Fail e)) tr r → quiet tr.
Proof. apply quiet_failing. exact (quiet_or_ctx None e). Qed.

(** A run that came to read an answer: it sent one frame, and gave the caller
    what the answer means, or the error of its context. *)
Lemma exchange_run {A} (d : dec A) id bytes tr got : runs (exchange d id bytes) tr got → received tr ≠ [] →
  ∃ c, numbered tr = [] ∧ sent tr = [bytes +:+ String newline ""] ∧ received tr = [c] ∧
    ((∃ e, e ∈ ended tr ∧ got = Fail (Ctx e)) ∨ ∀ response, readResponseFrame c = Ok response → got = check_response d id response).
Proof.
  intros (deadline & t1 & -> & (now & t2 & -> & (ok & t3 & -> & H))). destruct ok; [|by destruct H as [-> _]].
  destruct H as (ok & t4 & -> & H). destruct ok; cbn [negb] in H.
  2: { intros Hr. destruct Hr. by apply (quiet_failing _ _ _ (quiet_or_ctx deadline _)) in H as (_ & _ & H). }
  destruct H as ([] & t5 & -> & (ok & t6 & -> & H)). destruct ok; [|by destruct H as [-> _]].
  destruct H as (ok & t7 & -> & H). destruct ok; cbn [negb] in H.
  2: { intros Hr. destruct Hr. by apply quiet_failing_ctx in H as (_ & _ & H). }
  destruct H as (now' & t8 & -> & (ok & t9 & -> & H)). destruct ok; [|by destruct H as [-> _]].
  destruct H as (c & t10 & -> & (err & t11 & -> & H)). intros _. exists c.
  assert (quiet t11 ∧ ((∃ e, err = Some e ∧ got = Fail (Ctx e)) ∨ ∀ response, readResponseFrame c = Ok response → got = check_response d id response))
    as [(Hn & Hs & Hc) Hgot].
  { destruct err as [e|]; [destruct H as [-> ->]; split; [done|]; left; by exists e|].
    destruct (readResponseFrame c) as [response|e].
    - destruct H as [-> ->]. split; [done|]. right. by intros r' [= <-].
    - split; [by apply (quiet_failing _ _ _ (quiet_or_expired deadline _)) in H|]. by right. }
  rewrite !noted_cons, Hn, Hs, Hc. cbn [numbers sends receives ends app]. split_and!; [done..|].
  destruct Hgot as [(e & -> & ->)|Hgot]; [left|by right]. exists e. split; [|done]. simpl. left.
Qed.

Lemma call_run {A} path method params (d : dec A) tr got : path ≠ "" →
  runs (call (Some path) false method params d) tr got → received tr ≠ [] →
  ∃ n c, numbered tr = [n] ∧ sent tr = [request_frame (nextID n) method params] ∧ received tr = [c] ∧
    (slen (print (Request_json (request_of (nextID n) method params))) ≤ MaxFrameBytes)%Z ∧
    ((∃ e, e ∈ ended tr ∧ got = Fail (Ctx e)) ∨ ∀ response, readResponseFrame c = Ok response → got = check_response d (nextID n) response).
Proof.
  intros Hp. unfold call. destruct path as [|ch path]; [done|]. intros (err & t1 & -> & H).
  destruct err as [e|]; [by destruct H as [-> _]|]. destruct H as (n & t2 & -> & H).
  cbn [mbind prog_mbind prog_bind Marshal] in H. destruct (_ <? _)%Z eqn:Hlen; [by destruct H as [-> _]|]. bool_hyps.
  destruct H as (ok & t3 & -> & H). destruct ok; cbn [negb] in H.
  2: { intros Hr. destruct Hr. by apply quiet_failing_ctx in H as (_ & _ & H). }
  change (runs (exchange d (nextID n) (print (Request_json (request_of (nextID n) method params)))
    ≫= (λ r, trigger EClose ≫= λ _, mret r)) t3 got) in H.
  apply runs_bind in H as (t4 & t5 & r & -> & Hx & ([] & t6 & -> & [-> ->])).
  rewrite !noted_cons, !noted_app. cbn [numbers sends receives ends app]. rewrite !app_nil_r. intros Hr.
  destruct (exchange_run _ _ _ _ _ Hx Hr) as (c & Hn & Hs & Hc & Hgot). exists n, c.
  rewrite Hn, Hs, Hc. split_and!; [done..|]. destruct Hgot as [(e & He & ->)|Hgot]; [left|by right].
  exists e. split; [set_solver|done].
Qed.

(** A connection that was read from and brought a request that the service has:
    the service is asked once, and its answer written. *)
Lemma server_run caps tr : runs (handle caps) tr tt → arrived tr ≠ [] →
  ∃ c, c ∈ arrived tr ∧ ∀ request (e : BrokerServer.effect ExecuteResult),
    readRequest c = (request, zero_response) → to_service e = true →
    (∀ x, writes e x = []) → is_local request = false →
    dispatch caps request = (answer ← trigger e; mret (marshalExecuteResult (rq_request_id request) answer)) →
    ∃ x, asked tr = [IO e x] ∧ written tr = [frame_of (marshalExecuteResult (rq_request_id request) x)].
Proof.
  intros (t1 & t2 & [] & -> & H & ([] & t3 & -> & [-> _]))%runs_bind Hread.
  destruct H as (armed & t4 & -> & H). destruct armed; [|by destruct H as [-> _]].
  destruct H as (c & t5 & -> & H). exists c. split; [rewrite noted_app, !noted_cons; set_solver|].
  intros request e Hreq He Hquiet Hlocal Hd. cbn [mbind prog_mbind prog_bind] in H. rewrite Hreq in H.
  destruct H as ([] & t6 & -> & H). cbn [zero_response rsp_error is_none negb] in H.
  unfold is_local in Hlocal. apply orb_false_iff in Hlocal as [Hlock Hstop].
  rewrite Hd in H. destruct H as (x & t7 & -> & H). destruct H as ([] & t8 & -> & H).
  rewrite Hlock, Hstop in H. destruct H as [-> _]. exists x.
  rewrite !noted_app, !noted_cons. cbn [service_calls to_service writes app noted mjoin list_join fmap list_fmap].
  rewrite Hquiet. unfold service_calls. by rewrite He.
Qed.

Lemma dispatch_execution caps n x : (0 ≤ n ≤ max_uint64)%Z → supported caps x = true → sendable x →
  dispatch caps (request_of (nextID n) (execution_method x) (Some (execution_params x))) =
  (answer ← trigger (service_call x); mret (marshalExecuteResult (nextID n) answer)).
Proof.
  intros Hn Hs Hx. destruct (nextID_spec n Hn) as (_ & Hl & Hne). unfold dispatch, request_of.
  cbn [rq_version rq_request_id rq_method rq_params]. rewrite String.eqb_refl.
  assert (str_is_empty (nextID n) = false) as -> by by destruct (nextID n).
  rewrite (proj2 (Z.ltb_ge _ _)) by done.
  destruct x as [request|request|request]; cbn [execution_method execution_params service_call supported sendable] in *;
    cbn [str_is_empty negb orb String.eqb Ascii.eqb Bool.eqb].
  - assert (decode_raw decode (Some (encode request)) = Some request) as -> by (by apply decode_encode). done.
  - rewrite Hs. cbn [negb]. assert (decode_raw decode (Some (encode request)) = Some request) as -> by (by apply decode_encode). done.
  - assert (decode_raw decode (Some (encode request)) = Some request) as -> by (by apply decode_encode). done.
Qed.

Lemma execution_params_ok x : sendable x → raw_ok (Some (execution_params x)).
Proof.
  assert (depth (A := ExecuteRequest) < 9999 ∧ depth (A := ApprovedRequest) < 9999)%Z as [H1 H2] by done.
  intros Hx j Hj. apply (inj Some) in Hj. subst j. unfold maxNestingDepth.
  destruct x as [request|request|request]; cbn [execution_params sendable] in *; pose proof (encode_depth request);
    (split; [exact (encode_wf request)|]; split; [exact (encode_valid request Hx)|lia]).
Qed.

Lemma readRequest_arrives n method params c : (0 ≤ n ≤ max_uint64)%Z → valid_utf8 method = true → method ≠ "" → raw_ok params →
  (slen (print (Request_json (request_of (nextID n) method params))) ≤ MaxFrameBytes)%Z →
  delivers c (request_frame (nextID n) method params) → readRequest c = (request_of (nextID n) method params, zero_response).
Proof.
  intros Hn Hm Hne Hp Hlen Hc. pose proof (readRequest_arrival c (proj1 Hc)) as H.
  rewrite (request_arrives n method params c) in H by done. by destruct H.
Qed.

(** C2: An execution goes through the socket.  The client runs [Execute],
    [ExecuteWait] or [ExecuteApproved]; the server handles one connection; the
    socket gives each side what the other wrote, in any pieces; the texts of the
    request and of the result are UTF-8.  When each side came to read, the client sent one request, numbered once; the server made one
    call to the service, the one the client meant with the very arguments, and
    nothing else; and the caller gets the result of that very call, cut to the
    frame as [marshalExecuteResult] promises and whole when it fits, or the
    server's internal error when it cannot fit even without its outputs, or the
    error of its own context, if it was done by then. *)
Theorem execute_over_the_socket caps path x client_trace server_trace got
    (path_set : path ≠ "") (has_method : supported caps x = true) (utf8 : sendable x)
    (uint64 : ∀ n, n ∈ numbered client_trace → (0 ≤ n ≤ max_uint64)%Z)
    (client : runs (client_program path x) client_trace got)
    (server : runs (handle caps) server_trace tt)
    (wire : socket client_trace server_trace)
    (server_read : arrived server_trace ≠ []) (client_read : received client_trace ≠ []) :
  ∃ n result, numbered client_trace = [n] ∧ asked server_trace = [IO (service_call x) result] ∧
    (deliverable result →
     (∃ e, e ∈ ended client_trace ∧ got = Fail (Ctx e)) ∨ execution_delivered (nextID n) result got).
Proof.
  assert (runs (call (Some path) false (execution_method x) (Some (execution_params x)) decode) client_trace got) as Hcall by (by destruct x).
  destruct (call_run _ _ _ _ _ _ path_set Hcall client_read) as (n & c' & Hn & Hsent & Hreceived & Hlen & Hgot).
  assert (0 ≤ n ≤ max_uint64)%Z as Hnum by (apply uint64; rewrite Hn; left).
  destruct (nextID_spec n Hnum) as (Hv & Hl & Hne).
  destruct (server_run caps server_trace server server_read) as (c & Hc & Hserve).
  apply (so_request _ _ wire) in Hc. rewrite Hsent in Hc. cbn [str_concat] in Hc. rewrite str_app_nil_r in Hc.
  assert (readRequest c = (request_of (nextID n) (execution_method x) (Some (execution_params x)), zero_response)) as Hreq.
  { apply readRequest_arrives; [done|by destruct x|by destruct x|by apply execution_params_ok|done|done]. }
  destruct (Hserve _ (service_call x) Hreq) as (result & Hasked & Hwritten);
    [by destruct x|by destruct x|by destruct x|by apply dispatch_execution|].
  exists n, result. split; [done|]. split; [done|]. intros Hdel.
  destruct Hgot as [He|Hgot]; [by left|right].
  assert (delivers c' (frame_of (marshalExecuteResult (nextID n) result))) as Hc'.
  { pose proof (so_response _ _ wire c') as H. rewrite Hreceived, Hwritten in H. cbn [str_concat request_of rq_request_id] in H.
    rewrite str_app_nil_r in H. apply H. left. }
  destruct (marshalled_arrives _ _ _ Hv Hl Hdel Hc') as (response & Hr & Hd). by rewrite (Hgot _ Hr).
Qed.
(** An empty server list does not go through the socket: the service clones
    its servers with [append] to a nil slice, so that no servers are a nil
    slice, [null] on the wire, and the client takes [null] for a response
    without a result: [ListServers] fails with the protocol error although the
    server answered correctly. *)
Theorem empty_server_list_refused id c :
  valid_utf8 id = true → (slen id ≤ maxRequestIDBytes)%Z →
  delivers c (frame_of (BrokerServer.reply id EListServers (Ok None))) →
  ∃ response, readResponseFrame c = Ok response ∧
    check_response (decode (A := option (list ServerSummary))) id response = Fail (Broker ErrInvalidProtocol).
Proof.
  intros Hv Hl Hc. exists (result_response id (encode (None : option (list ServerSummary)))). split.
  - apply response_arrives; [by apply result_response_ok| |done].
    rewrite result_response_size. unfold response_overhead. rewrite (quote_slen id).
    pose proof (content_size_bound id). unfold maxRequestIDBytes in Hl. rewrite MaxFrameBytes_eq.
    assert (slen (quote "version") = 9 ∧ slen (quote ProtocolVersion) = 3 ∧ slen (quote "request_id") = 12
          ∧ slen (quote "result") = 8 ∧ slen (print (encode (None : option (list ServerSummary)))) = 4)%Z
      as (-> & -> & -> & -> & ->) by done. lia.
  - unfold check_response. cbn [result_response rsp_request_id rsp_version rsp_error rsp_result].
    by rewrite !String.eqb_refl.
Qed.

Lemma delivers_one data : data ≠ "" → delivers {| cn_pieces := [data]; cn_end := EOF |} data.
Proof. intros Hne. split; [by repeat constructor|]. split; [apply str_app_nil_r|done]. Qed.

Definition sample_finished : ExecuteResult := with_outputs zero_result "ok" "" false.

Lemma sample_finished_deliverable : deliverable sample_finished.
Proof. by repeat split. Qed.

(** A client and a server that work, and a socket that cuts the request. *)
Definition client_reply (response : conn) (X : Type) (e : effect X) : X :=
  match e in effect X return X with
  | ECtxErr => None
  | ESequence => 1%Z
  | EDial _ => true
  | EDeadline => None
  | ENow => 0%Z
  | ESetWriteDeadline _ => true
  | ESend _ => true
  | EClearWriteDeadline => tt
  | EIsUnix => true
  | ECloseWrite => true
  | ESetReadDeadline _ => true
  | EReceive => response
  | EClose => tt
  end.

Definition sample_response : conn :=
  {| cn_pieces := [frame_of (marshalExecuteResult "client-1" sample_finished)]; cn_end := EOF |}.

Definition sample_client : list (io effect) * result client_error ExecuteResult :=
  answered_by (client_reply sample_response) (client_program "/run/aegis.sock" (Asked sample_execute)).

Definition no_batch : BatchExecuteResult :=
  {| bres_status := ""; bres_results := []; bres_duration_ms := 0; bres_approval := None; bres_error := None |}.

Definition service_reply (request : conn) (X : Type) (e : BrokerServer.effect X) : X :=
  match e in BrokerServer.effect X return X with
  | BrokerServer.ESetReadDeadline => true
  | ERead => request
  | EClearReadDeadline => tt
  | EWrite _ => tt
  | ERelease => tt
  | EStatus => Fail PlainError
  | EListServers => Fail PlainError
  | EExecute _ => sample_finished
  | EExecuteWait _ => sample_finished
  | EExecuteApproved _ => sample_finished
  | EExecuteBatch _ => no_batch
  | EExecuteBatchWait _ => no_batch
  | EUnlock _ => None
  | EClearMaster => tt
  | EApprovals _ => None
  | EDecide _ _ => None
  | EConfigure _ _ => None
  | ELock => tt
  | EStop => tt
  | EPanic => tt
  end.

Definition sample_server : list (io BrokerServer.effect) * unit :=
  answered_by (service_reply sample_connection) (handle sample_caps).

Lemma sample_traces :
  numbered sample_client.1 = [1%Z] ∧ received sample_client.1 = [sample_response] ∧ ended sample_client.1 = [] ∧
  sent sample_client.1 = [sample_line] ∧ arrived sample_server.1 = [sample_connection] ∧
  written sample_server.1 = [frame_of (marshalExecuteResult "client-1" sample_finished)] ∧ sample_client.2 = Ok sample_finished.
Proof. split_and!; vm_compute; reflexivity. Qed.

Lemma sample_socket : socket sample_client.1 sample_server.1.
Proof.
  destruct sample_traces as (_ & Hr & _ & Hs & Ha & Hw & _). split; intros c.
  - rewrite Ha, Hs, list_elem_of_singleton. intros ->. split; [by repeat constructor|]. split; [by vm_compute|done].
  - rewrite Hr, Hw, list_elem_of_singleton. intros ->. cbn [str_concat]. rewrite str_app_nil_r. by apply delivers_one.
Qed.

Lemma sample_sendable : sendable (Asked sample_execute).
Proof. by vm_compute. Qed.

Lemma execute_over_the_socket_witness :
  ∃ n result, numbered sample_client.1 = [n] ∧ asked sample_server.1 = [IO (EExecute sample_execute) result] ∧
    (deliverable result →
     (∃ e, e ∈ ended sample_client.1 ∧ sample_client.2 = Fail (Ctx e)) ∨ execution_delivered (nextID n) result sample_client.2).
Proof.
  destruct sample_traces as (Hn & Hr & _ & _ & Ha & _ & _).
  refine (execute_over_the_socket sample_caps "/run/aegis.sock" (Asked sample_execute) sample_client.1 sample_server.1 sample_client.2
    _ _ _ _ (answered_by_runs _ _) _ sample_socket _ _).
  - discriminate.
  - reflexivity.
  - exact sample_sendable.
  - intros n. rewrite Hn, list_elem_of_singleton. intros ->. clear. by vm_compute.
  - clear. replace tt with sample_server.2 by (by destruct sample_server.2). exact (answered_by_runs _ _).
  - by rewrite Ha.
  - by rewrite Hr.
Defined.

Lemma empty_server_list_refused_witness :
  ∃ response,
    readResponseFrame {| cn_pieces := [frame_of (BrokerServer.reply "client-1" EListServers (Ok None))]; cn_end := EOF |}
      = Ok response ∧
    check_response (decode (A := option (list ServerSummary))) "client-1" response = Fail (Broker ErrInvalidProtocol).
Proof.
  refine (empty_server_list_refused "client-1" _ _ _ _); [by vm_compute|by vm_compute|by apply delivers_one].
Defined.
