(* ===== verification/ServeLoop.v ===== *)
(** * The accept loop of the broker: [Server.Serve] of [internal/broker/server.go]

    The goroutines of a running server as one step relation: the loop that
    accepts, takes a slot and starts a handler; the handlers, each the program
    [handle_body] with its deferred clean-up; the goroutine that closes
    everything when the context ends; and the deferred shutdown.  Every
    interleaving is a run.  The results: never more than
    [maxProtocolConnections] handlers, every connection that is open is owned by
    somebody, and a server that has returned has no handler, no connection and
    no listener; once the listener is closed it returns in a bounded number of
    steps. *)

From S2P Require Import Prelude GoStr Utf8 Base64 Prog Model Frame Json Wire Protocol BrokerServer.
From stdpp Require Import relations gmap.
Close Scope Z_scope.
Open Scope nat_scope.
Open Scope list_scope.

Definition maxProtocolConnections : nat := 64.

(** What [Serve] returns from its loop. *)
Inductive serve_result := ServeNil | ServeSocketOperation.

(** Where the goroutine of [Serve] is.  A connection it holds is a parameter. *)
Inductive main_pc :=
| Accepting
| GotConn (c : nat)
| GotSlot (c : nat)
| Checked (c : nat)
| Registered (c : nat)
| Returning (r : serve_result)
| Closing (r : serve_result)
| Waiting (r : serve_result)
| Removing (r : serve_result)
| Finished (r : serve_result).

(** Where a handler is: its body, then the steps of its deferred function. *)
Inductive handler_pc :=
| Body (p : handler unit)
| Unlist
| CloseConn
| FreeSlot
| Leave.

(** [server.slots], [server.conns], [server.handlers] with the counter of the
    wait group, the listener, and the connections that are open. *)
Record server := Server {
  sv_main : main_pc;
  sv_cancelled : bool;
  sv_watched : bool;
  sv_listening : bool;
  sv_slots : nat;
  sv_waiting : nat;
  sv_conns : gset nat;
  sv_open : gset nat;
  sv_handlers : gmap nat handler_pc;
  sv_next : nat }.

Definition with_main (s : server) (m : main_pc) : server :=
  Server m (sv_cancelled s) (sv_watched s) (sv_listening s) (sv_slots s) (sv_waiting s) (sv_conns s) (sv_open s) (sv_handlers s) (sv_next s).

Definition with_handlers (s : server) (h : gmap nat handler_pc) : server :=
  Server (sv_main s) (sv_cancelled s) (sv_watched s) (sv_listening s) (sv_slots s) (sv_waiting s) (sv_conns s) (sv_open s) h (sv_next s).

(** [closeActive]: under the mutex, so one step. *)
Definition closeActive (s : server) : server :=
  Server (sv_main s) (sv_cancelled s) (sv_watched s) false (sv_slots s) (sv_waiting s) (sv_conns s)
         (sv_open s ∖ sv_conns s) (sv_handlers s) (sv_next s).

Definition cancel (s : server) : server :=
  Server (sv_main s) true (sv_watched s) (sv_listening s) (sv_slots s) (sv_waiting s) (sv_conns s) (sv_open s) (sv_handlers s) (sv_next s).

Definition serving : server := Server Accepting false false true 0 0 ∅ ∅ ∅ 0.

Section loop.
Context (caps : capabilities).

(** The steps of the goroutine of [Serve]. *)
Inductive main_step : server → server → Prop :=
(* connection, err := server.accept(listener) *)
| accept_ok s : sv_main s = Accepting → sv_listening s = true →
    main_step s (Server (GotConn (sv_next s)) (sv_cancelled s) (sv_watched s) true (sv_slots s) (sv_waiting s)
                        (sv_conns s) ({[sv_next s]} ∪ sv_open s) (sv_handlers s) (S (sv_next s)))
| accept_cancelled s : sv_main s = Accepting → sv_cancelled s = true → main_step s (with_main s (Returning ServeNil))
| accept_temporary s : sv_main s = Accepting → sv_cancelled s = false → sv_listening s = true → main_step s s
| accept_failed s : sv_main s = Accepting → sv_cancelled s = false → main_step s (with_main s (Returning ServeSocketOperation))
(* select on the slots *)
| slot_taken s c : sv_main s = GotConn c → sv_slots s < maxProtocolConnections →
    main_step s (Server (GotSlot c) (sv_cancelled s) (sv_watched s) (sv_listening s) (S (sv_slots s)) (sv_waiting s)
                        (sv_conns s) (sv_open s) (sv_handlers s) (sv_next s))
| slot_refused s c : sv_main s = GotConn c → sv_slots s = maxProtocolConnections →
    main_step s (Server Accepting (sv_cancelled s) (sv_watched s) (sv_listening s) (sv_slots s) (sv_waiting s)
                        (sv_conns s) (sv_open s ∖ {[c]}) (sv_handlers s) (sv_next s))
(* if serveCtx.Err() != nil *)
| slot_late s c : sv_main s = GotSlot c → sv_cancelled s = true →
    main_step s (Server Accepting (sv_cancelled s) (sv_watched s) (sv_listening s) (sv_slots s - 1) (sv_waiting s)
                        (sv_conns s) (sv_open s ∖ {[c]}) (sv_handlers s) (sv_next s))
| slot_checked s c : sv_main s = GotSlot c → sv_cancelled s = false → main_step s (with_main s (Checked c))
(* under the mutex: server.conns[connection], server.handlers.Add(1) *)
| register s c : sv_main s = Checked c →
    main_step s (Server (Registered c) (sv_cancelled s) (sv_watched s) (sv_listening s) (sv_slots s) (S (sv_waiting s))
                        ({[c]} ∪ sv_conns s) (sv_open s) (sv_handlers s) (sv_next s))
(* go server.handle(serveCtx, connection) *)
| spawn s c : sv_main s = Registered c →
    main_step s (with_main (with_handlers s (<[c := Body (handle_body caps)]> (sv_handlers s))) Accepting)
(* the deferred cancel, and [shutdown] *)
| defer_cancel s r : sv_main s = Returning r → main_step s (with_main (cancel s) (Closing r))
| defer_close s r : sv_main s = Closing r → main_step s (with_main (closeActive s) (Waiting r))
| defer_wait s r : sv_main s = Waiting r → sv_waiting s = 0 → main_step s (with_main s (Removing r))
(* the socket goes if it is still ours: [removeSocket] of ServerStart *)
| defer_remove s r : sv_main s = Removing r → main_step s (with_main s (Finished r)).

(** The steps of a handler. *)
Inductive handler_step : server → server → Prop :=
| handler_call s c X (e : effect X) k x : sv_handlers s !! c = Some (Body (Vis e k)) →
    handler_step s (with_handlers s (<[c := Body (k x)]> (sv_handlers s)))
| handler_returns s c : sv_handlers s !! c = Some (Body (Ret tt)) →
    handler_step s (with_handlers s (<[c := Unlist]> (sv_handlers s)))
| handler_unlists s c : sv_handlers s !! c = Some Unlist →
    handler_step s (Server (sv_main s) (sv_cancelled s) (sv_watched s) (sv_listening s) (sv_slots s) (sv_waiting s)
                           (sv_conns s ∖ {[c]}) (sv_open s) (<[c := CloseConn]> (sv_handlers s)) (sv_next s))
| handler_closes s c : sv_handlers s !! c = Some CloseConn →
    handler_step s (Server (sv_main s) (sv_cancelled s) (sv_watched s) (sv_listening s) (sv_slots s) (sv_waiting s)
                           (sv_conns s) (sv_open s ∖ {[c]}) (<[c := FreeSlot]> (sv_handlers s)) (sv_next s))
| handler_frees s c : sv_handlers s !! c = Some FreeSlot →
    handler_step s (Server (sv_main s) (sv_cancelled s) (sv_watched s) (sv_listening s) (sv_slots s - 1) (sv_waiting s)
                           (sv_conns s) (sv_open s) (<[c := Leave]> (sv_handlers s)) (sv_next s))
| handler_leaves s c : sv_handlers s !! c = Some Leave →
    handler_step s (Server (sv_main s) (sv_cancelled s) (sv_watched s) (sv_listening s) (sv_slots s) (sv_waiting s - 1)
                           (sv_conns s) (sv_open s) (delete c (sv_handlers s)) (sv_next s)).

(** The context ends, from outside or by a request to stop; the goroutine that
    waits for it closes everything. *)
Inductive context_step : server → server → Prop :=
| context_ends s : sv_cancelled s = false → context_step s (cancel s)
| watcher_closes s : sv_cancelled s = true → sv_watched s = false →
    context_step s (let s := closeActive s in
      Server (sv_main s) (sv_cancelled s) true (sv_listening s) (sv_slots s) (sv_waiting s) (sv_conns s) (sv_open s) (sv_handlers s) (sv_next s)).

Inductive step : server → server → Prop :=
| step_main s s' : main_step s s' → step s s'
| step_handler s s' : handler_step s s' → step s s'
| step_context s s' : context_step s s' → step s s'.

(** ** The invariant *)

(** Does the goroutine of [Serve] hold a slot, a place in the wait group, the
    connection [c]? *)
Definition main_conn (m : main_pc) : option nat :=
  match m with GotConn c | GotSlot c | Checked c | Registered c => Some c | _ => None end.

Definition main_slots (m : main_pc) : nat :=
  match m with GotSlot _ | Checked _ | Registered _ => 1 | _ => 0 end.

Definition main_waits (m : main_pc) : nat := match m with Registered _ => 1 | _ => 0 end.

Definition main_listed (m : main_pc) : option nat := match m with Registered c => Some c | _ => None end.

(** What a handler still holds, by how far its deferred function has come. *)
Definition keeps_listed (h : handler_pc) : bool := match h with Body _ | Unlist => true | _ => false end.
Definition keeps_open (h : handler_pc) : bool := match h with Body _ | Unlist | CloseConn => true | _ => false end.
Definition keeps_slot (h : handler_pc) : bool := match h with Leave => false | _ => true end.

Definition slot_holders (hs : gmap nat handler_pc) : nat := size (filter (λ kv, keeps_slot kv.2 = true) hs).

(** The loop has ended, and the steps of the deferred calls are behind it. *)
Definition main_closed (m : main_pc) : bool := match m with Waiting _ | Removing _ | Finished _ => true | _ => false end.
Definition main_done (m : main_pc) : bool := match m with Removing _ | Finished _ => true | _ => false end.
Definition main_leaving (m : main_pc) : bool :=
  match m with Closing _ | Waiting _ | Removing _ | Finished _ => true | _ => false end.

Record serving_ok (s : server) : Prop := {
  ok_slots : sv_slots s = main_slots (sv_main s) + slot_holders (sv_handlers s);
  ok_capacity : sv_slots s ≤ maxProtocolConnections;
  ok_waiting : sv_waiting s = main_waits (sv_main s) + size (sv_handlers s);
  ok_listed c : c ∈ sv_conns s ↔ main_listed (sv_main s) = Some c ∨ ∃ h, sv_handlers s !! c = Some h ∧ keeps_listed h = true;
  ok_open c : c ∈ sv_open s → main_conn (sv_main s) = Some c ∨ ∃ h, sv_handlers s !! c = Some h ∧ keeps_open h = true;
  ok_fresh c h : sv_handlers s !! c = Some h → c < sv_next s ∧ main_conn (sv_main s) ≠ Some c;
  ok_conn c : main_conn (sv_main s) = Some c → c < sv_next s;
  ok_leaving : main_leaving (sv_main s) = true → sv_cancelled s = true;
  ok_closed : main_closed (sv_main s) = true → sv_listening s = false;
  ok_done : main_done (sv_main s) = true → sv_waiting s = 0;
  ok_stopped : sv_listening s = false → sv_cancelled s = true }.

Lemma slot_holders_insert hs c h : hs !! c = None →
  slot_holders (<[c := h]> hs) = (if keeps_slot h then 1 else 0) + slot_holders hs.
Proof.
  intros Hc. unfold slot_holders. destruct (keeps_slot h) eqn:Hh.
  - rewrite map_filter_insert_True by done. rewrite map_size_insert_None; [done|].
    apply map_lookup_filter_None_2. by left.
  - rewrite map_filter_insert_False by (simpl; congruence). by rewrite delete_id.
Qed.

Lemma slot_holders_delete hs c h : hs !! c = Some h →
  slot_holders hs = (if keeps_slot h then 1 else 0) + slot_holders (delete c hs).
Proof.
  intros Hc. rewrite <- (insert_delete_id hs c h) at 1 by done. apply slot_holders_insert, lookup_delete_eq.
Qed.

Lemma slot_holders_replace hs c h h' : hs !! c = Some h →
  slot_holders (<[c := h']> hs) + (if keeps_slot h then 1 else 0) = (if keeps_slot h' then 1 else 0) + slot_holders hs.
Proof.
  intros Hc. rewrite (slot_holders_delete hs c h Hc), <- insert_delete_eq.
  rewrite slot_holders_insert by apply lookup_delete_eq. lia.
Qed.

Lemma serving_ok_start : serving_ok serving.
Proof. split; simpl; try (intros; set_solver || done || lia). Qed.

Ltac loop_solve :=
  try done; try lia;
  try (intros ?; rewrite ?elem_of_union, ?elem_of_difference, ?elem_of_singleton; naive_solver lia).

(** The handler that [Serve] starts takes over what the loop held for it. *)
Lemma spawn_keeps s c : serving_ok s → sv_main s = Registered c →
  serving_ok (with_main (with_handlers s (<[c := Body (handle_body caps)]> (sv_handlers s))) Accepting).
Proof.
  intros [Hsl Hcap Hw Hl Ho Hf Hc Hlv Hcl Hd Hst] Hm. rewrite Hm in *.
  assert (sv_handlers s !! c = None) as Hnone.
  { destruct (sv_handlers s !! c) as [h|] eqn:Hh; [|done]. by destruct (Hf c h Hh) as [_ []]. }
  split; simpl in *; try done; try lia.
  - rewrite Hsl, slot_holders_insert by done. done.
  - rewrite Hw, map_size_insert_None by done. done.
  - intros d. rewrite Hl. destruct (decide (d = c)) as [->|Hne].
    + rewrite lookup_insert_eq. naive_solver.
    + rewrite lookup_insert_ne by done. naive_solver.
  - intros d Hd'. right. destruct (decide (d = c)) as [->|Hne].
    + rewrite lookup_insert_eq. by eexists.
    + rewrite lookup_insert_ne by done. destruct (Ho d Hd'); [congruence|done].
  - intros d h. destruct (decide (d = c)) as [->|Hne].
    + intros _. split; [by apply Hc|done].
    + rewrite lookup_insert_ne by done. intros Hh. split; [by apply (Hf d h)|done].
Qed.

(** One step of the goroutine of [Serve] leaves the handlers alone, but for the
    one it starts. *)
Lemma main_keeps s s' : serving_ok s → main_step s s' → serving_ok s'.
Proof.
  intros Hok Hstep. pose proof Hok as [Hsl Hcap Hw Hl Ho Hf Hc Hlv Hcl Hd Hst].
  destruct Hstep as [s Hm Hg|s Hm Hx|s Hm Hx Hg|s Hm Hx|s c Hm Hx|s c Hm Hx|s c Hm Hx|s c Hm Hx|s c Hm|s c Hm|s r Hm|s r Hm|s r Hm Hx|s r Hm];
    try exact Hok; try (by apply spawn_keeps); clear Hok; rewrite Hm in *; split; simpl in *; loop_solve.
Qed.

Definition given_back (keeps : handler_pc → bool) (h h' : handler_pc) (c : nat) (X : gset nat) : gset nat :=
  if keeps h && negb (keeps h') then X ∖ {[c]} else X.

(** A handler that goes on from [h] to [h'] and gives back what lies between. *)
Lemma handler_moves s c h h' slots : serving_ok s → sv_handlers s !! c = Some h →
  slots + (if keeps_slot h then 1 else 0) = sv_slots s + (if keeps_slot h' then 1 else 0) → slots ≤ sv_slots s →
  (keeps_listed h' = true → keeps_listed h = true) → (keeps_open h' = true → keeps_open h = true) →
  serving_ok (Server (sv_main s) (sv_cancelled s) (sv_watched s) (sv_listening s) slots (sv_waiting s)
                     (given_back keeps_listed h h' c (sv_conns s)) (given_back keeps_open h h' c (sv_open s))
                     (<[c := h']> (sv_handlers s)) (sv_next s)).
Proof.
  intros [Hsl Hcap Hw Hl Ho Hf Hc Hlv Hcl Hd Hst] Hh Hslots Hle Hlm Hom.
  destruct (Hf c h Hh) as [Hlt Hnm].
  assert (main_listed (sv_main s) ≠ Some c) as Hnl by (destruct (sv_main s); simpl in *; congruence).
  pose proof (slot_holders_replace _ _ _ h' Hh) as Hrep.
  split; simpl; try done; try lia.
  - rewrite map_size_insert_Some; [done|by eexists].
  - intros d. unfold given_back. destruct (decide (d = c)) as [->|Hne].
    + rewrite lookup_insert_eq. trans (keeps_listed h' = true).
      * assert (c ∈ sv_conns s ↔ keeps_listed h = true) as Hin.
        { rewrite Hl, Hh. split; [by intros [?|(k & [= <-] & ?)]|]. intros ?. right. by exists h. }
        destruct (keeps_listed h), (keeps_listed h'); simpl; rewrite ?elem_of_difference, ?elem_of_singleton, Hin;
          clear - Hlm; naive_solver.
      * split; [intros ?; right; by exists h'|by intros [?|(k & [= <-] & ?)]].
    + rewrite lookup_insert_ne by done. rewrite <- Hl. destruct (_ && _); [|reflexivity].
      rewrite elem_of_difference, elem_of_singleton. tauto.
  - intros d Hin. unfold given_back in Hin. destruct (decide (d = c)) as [->|Hne].
    + right. rewrite lookup_insert_eq. exists h'. split; [done|].
      assert (c ∈ sv_open s → keeps_open h = true) as Hin'.
      { intros [?|(k & Hk & ?)]%Ho; [done|]. rewrite Hh in Hk. by injection Hk as <-. }
      destruct (keeps_open h), (keeps_open h'); simpl in *; rewrite ?elem_of_difference, ?elem_of_singleton in Hin;
        clear - Hin Hin' Hom; naive_solver.
    + rewrite lookup_insert_ne by done. apply Ho. destruct (_ && _); [|done]. by apply elem_of_difference in Hin as [? _].
  - intros d k. destruct (decide (d = c)) as [->|Hne]; [done|]. rewrite lookup_insert_ne by done. apply Hf.
Qed.

(** A handler that has given back everything leaves the wait group. *)
Lemma handler_leave s c : serving_ok s → sv_handlers s !! c = Some Leave →
  serving_ok (Server (sv_main s) (sv_cancelled s) (sv_watched s) (sv_listening s) (sv_slots s) (sv_waiting s - 1)
                     (sv_conns s) (sv_open s) (delete c (sv_handlers s)) (sv_next s)).
Proof.
  intros [Hsl Hcap Hw Hl Ho Hf Hc Hlv Hcl Hd Hst] Hh.
  pose proof (slot_holders_delete _ _ _ Hh) as Hdel. simpl in Hdel.
  assert (∀ d k (keeps : handler_pc → bool), keeps Leave = false →
    sv_handlers s !! d = Some k ∧ keeps k = true ↔ delete c (sv_handlers s) !! d = Some k ∧ keeps k = true) as Hsame.
  { intros d k keeps Hk. rewrite lookup_delete_Some. split; [|tauto]. intros [Hdk Hkk].
    split; [split; [|done]|done]. intros ->. rewrite Hh in Hdk. injection Hdk as <-. congruence. }
  split; simpl; try done; try lia.
  - rewrite map_size_delete_Some by (by eexists). assert (size (sv_handlers s) ≠ 0); [|lia].
    intros Hz. apply map_size_empty_inv in Hz. by rewrite Hz, lookup_empty in Hh.
  - intros d. rewrite Hl. by setoid_rewrite (Hsame d _ keeps_listed eq_refl).
  - intros d Hin. setoid_rewrite <- (Hsame d _ keeps_open eq_refl). by apply Ho.
  - intros d k Hdk. apply (Hf d k). by apply lookup_delete_Some in Hdk as [_ ?].
  - intros Hdone. apply Hd in Hdone. lia.
Qed.

Lemma handler_keeps s s' : serving_ok s → handler_step s s' → serving_ok s'.
Proof.
  intros Hok Hstep. destruct Hstep as [s c X e k x Hh|s c Hh|s c Hh|s c Hh|s c Hh|s c Hh].
  5: assert (sv_slots s ≠ 0) as Hne by (rewrite (ok_slots s Hok), (slot_holders_delete _ _ _ Hh); simpl; lia).
  - by refine (handler_moves s c _ (Body (k x)) _ Hok Hh _ _ _ _); simpl; try lia.
  - by refine (handler_moves s c _ Unlist _ Hok Hh _ _ _ _); simpl; try lia.
  - by refine (handler_moves s c _ CloseConn _ Hok Hh _ _ _ _); simpl; try lia.
  - by refine (handler_moves s c _ FreeSlot _ Hok Hh _ _ _ _); simpl; try lia.
  - by refine (handler_moves s c _ Leave _ Hok Hh _ _ _ _); simpl; try lia.
  - by apply handler_leave.
Qed.

(** Closing the listener and the connections that are listed. *)
Lemma closeActive_keeps s : serving_ok s → sv_cancelled s = true → serving_ok (closeActive s).
Proof.
  intros [Hsl Hcap Hw Hl Ho Hf Hc Hlv Hcl Hd Hst] Hx. split; simpl; try done.
  intros c Hin. apply elem_of_difference in Hin as [Hin _]. by apply Ho.
Qed.

Lemma context_keeps s s' : serving_ok s → context_step s s' → serving_ok s'.
Proof.
  intros Hok Hstep. destruct Hstep as [s Hx|s Hx Hw].
  - destruct Hok. by split.
  - destruct (closeActive_keeps s Hok Hx). by split.
Qed.

Lemma step_keeps s s' : serving_ok s → step s s' → serving_ok s'.
Proof.
  intros Hok Hs. destruct Hs as [s s' Hs|s s' Hs|s s' Hs];
    [exact (main_keeps _ _ Hok Hs)|exact (handler_keeps _ _ Hok Hs)|exact (context_keeps _ _ Hok Hs)].
Qed.

Lemma reachable_ok s : rtc step serving s → serving_ok s.
Proof. revert s. refine (rtc_ind_r serving_ok serving _ _); eauto using step_keeps, serving_ok_start. Qed.

(** ** Shutting down *)

(** An upper bound on the steps a handler has left. *)
Definition costs (h : handler_pc) (n : nat) : Prop :=
  match h with
  | Body p => ∃ b, bounded b p ∧ n = b + 5
  | Unlist => n = 4
  | CloseConn => n = 3
  | FreeSlot => n = 2
  | Leave => n = 1
  end.

Inductive owed : gmap nat handler_pc → nat → Prop :=
| owed_none : owed ∅ 0
| owed_some c h hs n b : hs !! c = None → costs h n → owed hs b → owed (<[c := h]> hs) (n + b).

Lemma owed_take hs b c h : owed hs b → hs !! c = Some h →
  ∃ n b', costs h n ∧ owed (delete c hs) b' ∧ b = n + b'.
Proof.
  intros Ho. revert c h. induction Ho as [|d k hs n b Hd Hk Ho IH]; intros c h Hc; [by rewrite lookup_empty in Hc|].
  destruct (decide (c = d)) as [->|Hne].
  - rewrite lookup_insert_eq in Hc. injection Hc as <-. exists n, b. by rewrite delete_insert_id.
  - rewrite lookup_insert_ne in Hc by done. destruct (IH c h Hc) as (m & b' & Hm & Ho' & ->).
    exists m, (n + b'). split; [done|]. split; [|lia]. rewrite delete_insert_ne by done.
    constructor; [by rewrite lookup_delete_ne|done|done].
Qed.

(** The steps that the goroutine of [Serve] has left once nothing more arrives:
    a handler that is still to be started counts as a whole. *)
Definition handler_calls : nat := 8.

Definition main_rank (m : main_pc) : nat :=
  match m with
  | Finished _ => 0 | Removing _ => 1 | Waiting _ => 2 | Closing _ => 3 | Returning _ => 4 | Accepting => 5
  | Registered _ => 6 + (handler_calls + 5) | Checked _ => 7 + (handler_calls + 5)
  | GotSlot _ => 8 + (handler_calls + 5) | GotConn _ => 9 + (handler_calls + 5)
  end.

Definition budget (s : server) (b : nat) : Prop :=
  ∃ n, owed (sv_handlers s) n ∧ b = main_rank (sv_main s) + (if sv_watched s then 0 else 1) + n.

Lemma dispatch_bounded r : bounded 2 (dispatch caps r).
Proof. unfold dispatch. repeat case_match; simpl; eauto. Qed.

Lemma assert_then_bounded (b implemented : bool) call :
  bounded 1 (if b then assert_then implemented call else mret tt).
Proof. by destruct b, implemented. Qed.

Lemma handle_body_bounded : bounded handler_calls (handle_body caps).
Proof.
  unfold handle_body. cbn. intros [] ; cbn; [|done]. intros c. destruct (readRequest c) as [q r]. cbn. intros _.
  destruct (is_none (rsp_error r)); cbn; [|done].
  apply (bounded_bind 2 3); [apply dispatch_bounded|]. intros a. cbn. intros _.
  apply (bounded_bind 1 1); [apply assert_then_bounded|]. intros _. apply assert_then_bounded.
Qed.

(** With the listener closed every step is one of those that were left. *)
Lemma main_spends s s' b : serving_ok s → sv_listening s = false → main_step s s' → budget s b →
  sv_listening s' = false ∧ ∃ b', b' < b ∧ budget s' b'.
Proof.
  intros Hok Hl Hstep (n & Hn & ->). pose proof (ok_stopped s Hok Hl) as Hx.
  destruct Hstep as [s Hm Hg|s Hm Hg|s Hm Hg Hg'|s Hm Hg|s c Hm Hg|s c Hm Hg|s c Hm Hg|s c Hm Hg|s c Hm|s c Hm|s r Hm|s r Hm|s r Hm Hg|s r Hm];
    try congruence; (split; [done|]); rewrite Hm.
  6: { refine (ex_intro _ _ (conj _ (ex_intro _ (handler_calls + 5 + n) (conj _ eq_refl)))); [simpl; lia|].
       apply owed_some; [|by exists handler_calls; split; [apply handle_body_bounded|]|done].
       destruct (sv_handlers s !! c) as [h|] eqn:Hh; [|done]. destruct (ok_fresh s Hok c h Hh) as [_ []]. by rewrite Hm. }
  all: refine (ex_intro _ _ (conj _ (ex_intro _ n (conj Hn eq_refl)))); simpl; lia.
Qed.

Lemma owed_replace hs b c h h' : owed hs b → hs !! c = Some h →
  (∀ m, costs h m → ∃ m', costs h' m' ∧ m' < m) → ∃ b', b' < b ∧ owed (<[c := h']> hs) b'.
Proof.
  intros Hb Hh Hless. destruct (owed_take _ _ _ _ Hb Hh) as (m & r & Hm & Hr & ->).
  destruct (Hless m Hm) as (m' & Hm' & Hlt). exists (m' + r). split; [lia|].
  rewrite <- insert_delete_eq. constructor; [apply lookup_delete_eq|done|done].
Qed.

Lemma handler_spends s s' b : handler_step s s' → budget s b →
  sv_listening s' = sv_listening s ∧ ∃ b', b' < b ∧ budget s' b'.
Proof.
  intros Hstep (n & Hn & ->).
  assert (∃ n', n' < n ∧ owed (sv_handlers s') n') as (n' & Hlt & Hn').
  { destruct Hstep as [s c X e k x Hh|s c Hh|s c Hh|s c Hh|s c Hh|s c Hh]; simpl.
    6: { destruct (owed_take _ _ _ _ Hn Hh) as (m & r & -> & Hr & ->). exists r. split; [lia|done]. }
    all: apply (owed_replace _ _ _ _ _ Hn Hh); intros m Hm; simpl in *.
    1: { destruct Hm as ([|b] & Hb & ->); [done|]. exists (b + 5). split; [exists b; by split; [apply Hb|]|lia]. }
    all: eexists; split; [reflexivity|]; try (destruct Hm as (? & _ & ->)); lia. }
  destruct Hstep; (split; [done|]); eexists; (split; [|exists n'; (split; [exact Hn'|reflexivity])]); simpl; lia.
Qed.

Lemma step_spends s s' b : serving_ok s → sv_listening s = false → step s s' → budget s b →
  sv_listening s' = false ∧ ∃ b', b' < b ∧ budget s' b'.
Proof.
  intros Hok Hl Hstep Hb. destruct Hstep as [s s' Hstep|s s' Hstep|s s' Hstep].
  - by eapply main_spends.
  - rewrite <- Hl. by apply handler_spends.
  - pose proof (ok_stopped s Hok Hl) as Hx. destruct Hb as (n & Hn & ->). destruct Hstep as [s Hg|s _ Hw]; [congruence|].
    split; [done|]. rewrite Hw. refine (ex_intro _ _ (conj _ (ex_intro _ n (conj Hn eq_refl)))). simpl. lia.
Qed.

Lemma steps_budget n s s' b : serving_ok s → sv_listening s = false → nsteps step n s s' → budget s b → n ≤ b.
Proof.
  intros Hok Hl Hs. revert b Hok Hl. induction Hs as [|n s s1 s2 H1 _ IH]; intros b Hok Hl Hb; [lia|].
  destruct (step_spends s s1 b Hok Hl H1 Hb) as (Hl' & b' & Hlt & Hb').
  specialize (IH b' (step_keeps _ _ Hok H1) Hl' Hb'). lia.
Qed.

(** Handlers that were started by [Serve] owe a constant each. *)
Definition short (s : server) : Prop :=
  ∀ c h, sv_handlers s !! c = Some h → ∃ n, costs h n ∧ n ≤ handler_calls + 5.

Lemma step_short s s' : short s → step s s' → short s'.
Proof.
  intros Hs Hstep. destruct Hstep as [s s' Hstep|s s' Hstep|s s' Hstep].
  - destruct Hstep; try exact Hs. intros d h. simpl. destruct (decide (d = c)) as [->|Hne].
    + rewrite lookup_insert_eq. intros [= <-]. exists (handler_calls + 5). split; [|done].
      exists handler_calls. split; [apply handle_body_bounded|done].
    + rewrite lookup_insert_ne by done. apply Hs.
  - destruct Hstep as [s c X e k x Hh|s c Hh|s c Hh|s c Hh|s c Hh|s c Hh]; intros d h; simpl;
      try (intros [_ ?]%lookup_delete_Some; by apply (Hs d h));
      (destruct (decide (d = c)) as [->|Hne]; [rewrite lookup_insert_eq; intros [= <-]|rewrite lookup_insert_ne by done; apply Hs]);
      destruct (Hs c _ Hh) as (n & Hn & Hle); simpl in *;
      try (eexists; split; [reflexivity|unfold handler_calls; lia]).
    destruct Hn as ([|b] & Hb & ->); [done|]. exists (b + 5). split; [exists b; by split; [apply Hb|]|lia].
  - by destruct Hstep.
Qed.

Lemma reachable_short s : rtc step serving s → short s.
Proof.
  revert s. refine (rtc_ind_r short serving _ _); [|by eauto using step_short].
  intros c h Hh. simpl in Hh. by rewrite lookup_empty in Hh.
Qed.

Lemma short_owed hs : (∀ c h, hs !! c = Some h → ∃ n, costs h n ∧ n ≤ handler_calls + 5) →
  ∃ b, owed hs b ∧ b ≤ (handler_calls + 5) * size hs.
Proof.
  induction hs as [|c h hs Hc IH] using map_ind; intros Hs; [by exists 0; split; [constructor|lia]|].
  destruct IH as (b & Hb & Hle).
  { intros d k Hd. apply (Hs d k). rewrite lookup_insert_ne; [done|]. intros ->. congruence. }
  destruct (Hs c h) as (n & Hn & Hle'); [apply lookup_insert_eq|].
  exists (n + b). split; [by constructor|]. rewrite map_size_insert_None by done. lia.
Qed.

Definition zero_result : ExecuteResult := {|
  res_status := ""; res_stdout := ""; res_stderr := ""; res_exit_code := 0%Z; res_duration_ms := 0%Z; res_truncated := false;
  res_error := None; res_warnings := []; res_approval := None; res_redactions := {| rs_applied := false; rs_counts := ∅ |} |}.

Definition zero_batch_result : BatchExecuteResult := {|
  bres_status := ""; bres_results := []; bres_duration_ms := 0%Z; bres_approval := None; bres_error := None |}.

(** Every call of a handler is answered: by the peer or its deadline, by the
    closed connection, by the service. *)
Definition call_answer {X} (e : effect X) : X :=
  match e with
  | ESetReadDeadline => false
  | ERead => {| cn_pieces := []; cn_end := ReadFailed |}
  | EClearReadDeadline | EWrite _ | ERelease | EClearMaster | ELock | EStop | EPanic => tt
  | EStatus => Fail PlainError
  | EListServers => Fail PlainError
  | EExecute _ | EExecuteWait _ | EExecuteApproved _ => zero_result
  | EExecuteBatch _ | EExecuteBatchWait _ => zero_batch_result
  | EUnlock _ | EDecide _ _ | EConfigure _ _ => None
  | EApprovals _ => None
  end.

Lemma handler_progress s c h : sv_handlers s !! c = Some h → ∃ s', handler_step s s'.
Proof.
  intros Hh. destruct h as [[[]|X e k]| | | |]; eexists.
  - by apply handler_returns.
  - exact (handler_call s c X e k (call_answer e) Hh).
  - by apply handler_unlists.
  - by apply handler_closes.
  - by apply handler_frees.
  - by apply handler_leaves.
Qed.

(** The loop always has something to do, unless it waits for the handlers. *)
Lemma main_progress s : serving_ok s → (∀ r, sv_main s ≠ Finished r) → sv_handlers s = ∅ → ∃ s', main_step s s'.
Proof.
  intros Hok Hnf Hh. destruct (sv_main s) as [|c|c|c|c|r|r|r|r|r] eqn:Hm.
  - destruct (sv_cancelled s) eqn:Hx; eexists; [by apply accept_cancelled|by apply accept_failed].
  - pose proof (ok_capacity s Hok). destruct (decide (sv_slots s = maxProtocolConnections)) as [He|Hne].
    + eexists. by eapply slot_refused.
    + eexists. eapply slot_taken; [done|]. lia.
  - destruct (sv_cancelled s) eqn:Hx; eexists; [by eapply slot_late|by eapply slot_checked].
  - eexists. by eapply register.
  - eexists. by eapply spawn.
  - eexists. by eapply defer_cancel.
  - eexists. by eapply defer_close.
  - eexists. eapply defer_wait; [done|]. by rewrite (ok_waiting s Hok), Hm, Hh.
  - eexists. by eapply defer_remove.
  - by destruct (Hnf r).
Qed.

Lemma finished_clean s r : serving_ok s → sv_main s = Finished r →
  sv_handlers s = ∅ ∧ sv_conns s = ∅ ∧ sv_open s = ∅ ∧ sv_slots s = 0 ∧ sv_listening s = false.
Proof.
  intros [Hsl Hcap Hw Hl Ho Hf Hc Hlv Hcl Hd Hst] Hm. rewrite Hm in *. simpl in *.
  assert (sv_handlers s = ∅) as He by (apply map_size_empty_inv; specialize (Hd eq_refl); lia).
  rewrite He in *. split_and!; [done| | |by rewrite Hsl|by apply Hcl]; apply set_eq; intros c; split; set_solver.
Qed.

(** A handler that is at work: before or in its body. *)
Definition working (hs : gmap nat handler_pc) : nat := size (filter (λ kv, keeps_listed kv.2 = true) hs).

Lemma working_slots hs : working hs ≤ slot_holders hs.
Proof.
  unfold working, slot_holders. apply map_subseteq_size. apply map_filter_subseteq_ext.
  intros c h _. by destruct h.
Qed.
End loop.

(** C25: Whatever the order of events, at most [maxProtocolConnections] requests are
    at work, every connection that is open belongs to the loop or to a handler
    that will close it, and [Serve] returns only when no handler runs, no
    connection is listed or open, every slot is free and the listener is
    closed. *)
Theorem serve_owns_its_connections caps s (reached : rtc (step caps) serving s) :
  working (sv_handlers s) ≤ maxProtocolConnections ∧
  (∀ c, c ∈ sv_open s → main_conn (sv_main s) = Some c ∨ ∃ h, sv_handlers s !! c = Some h ∧ keeps_open h = true) ∧
  (∀ c h, sv_handlers s !! c = Some h → keeps_listed h = true → c ∈ sv_conns s) ∧
  (∀ r, sv_main s = Finished r →
     sv_handlers s = ∅ ∧ sv_conns s = ∅ ∧ sv_open s = ∅ ∧ sv_slots s = 0 ∧ sv_listening s = false).
Proof.
  pose proof (reachable_ok caps s reached) as Hok. split_and!.
  - pose proof (working_slots (sv_handlers s)). pose proof (ok_slots s Hok). pose proof (ok_capacity s Hok). lia.
  - apply (ok_open s Hok).
  - intros c h Hh Hk. apply (ok_listed s Hok). right. by exists h.
  - intros r. by apply finished_clean.
Qed.

(** C26: Once the listener is closed, by the end of the context or by a failed
    accept, [Serve] returns: no schedule of the loop and of the handlers is
    longer than the bound, and none gets stuck before the end. *)
Theorem serve_returns caps s (reached : rtc (step caps) serving s) (closed : sv_listening s = false) :
  (∀ n s', nsteps (step caps) n s s' →
     n ≤ main_rank (sv_main s) + 1 + (handler_calls + 5) * size (sv_handlers s)) ∧
  (∀ s', rtc (step caps) s s' → (∃ r, sv_main s' = Finished r) ∨ ∃ s'', step caps s' s'').
Proof.
  pose proof (reachable_ok caps s reached) as Hok. split.
  - intros n s' Hs. destruct (short_owed _ (reachable_short caps s reached)) as (b & Hb & Hle).
    etrans; [apply (steps_budget caps n s s' _ Hok closed Hs); by exists b|]. destruct (sv_watched s); lia.
  - intros s' Hs. assert (serving_ok s') as Hok' by (apply (reachable_ok caps); by etrans).
    destruct (decide (sv_handlers s' = ∅)) as [He|Hne].
    + destruct (sv_main s') as [| | | | | | | | |r] eqn:Hm; [..|left; by exists r];
        right; (edestruct (main_progress caps s' Hok') as [s'' Hst]; [by rewrite Hm|done|exists s''; by apply step_main]).
    + right. apply map_choose in Hne as (c & h & Hh). destruct (handler_progress s' c h Hh) as [s'' Hst].
      exists s''. by apply step_handler.
Qed.

(** ** Witnesses *)

(** A connection that was accepted and has its handler; then the context ends
    and the listener is closed under it. *)
Definition one_handler (caps : capabilities) : server :=
  Server Accepting false false true 1 1 ({[0]} ∪ ∅) ({[0]} ∪ ∅) (<[0 := Body (handle_body caps)]> ∅) 1.

Definition one_cut_off (caps : capabilities) : server :=
  let s := closeActive (cancel (one_handler caps)) in
  Server (sv_main s) (sv_cancelled s) true (sv_listening s) (sv_slots s) (sv_waiting s) (sv_conns s) (sv_open s) (sv_handlers s) (sv_next s).

Lemma one_handler_reached caps : rtc (step caps) serving (one_handler caps).
Proof.
  eapply rtc_l; [by apply step_main, accept_ok|]. eapply rtc_l; [apply step_main, (slot_taken _ _ 0); [done|simpl; unfold maxProtocolConnections; lia]|].
  eapply rtc_l; [by apply step_main, (slot_checked _ _ 0)|]. eapply rtc_l; [by apply step_main, (register _ _ 0)|].
  eapply rtc_l; [by apply step_main, (spawn _ _ 0)|]. apply rtc_refl.
Qed.

Lemma one_cut_off_reached caps : rtc (step caps) serving (one_cut_off caps).
Proof.
  etrans; [apply one_handler_reached|]. eapply rtc_l; [by apply step_context, context_ends|].
  eapply rtc_l; [by apply step_context, watcher_closes|]. apply rtc_refl.
Qed.

Definition no_capabilities : capabilities :=
  {| can_execute_wait := false; can_batch := false; can_batch_wait := false; can_lock := false;
     can_stop := false; can_unlock := false; can_approvals := false; can_configure := false |}.

Lemma serve_owns_its_connections_witness : 0 ∈ sv_conns (one_handler no_capabilities).
Proof.
  exact (proj1 (proj2 (proj2 (serve_owns_its_connections no_capabilities _ (one_handler_reached _))))
    0 (Body (handle_body no_capabilities)) (lookup_insert_eq _ _ _) eq_refl).
Defined.

Lemma serve_returns_witness :
  (∃ r, sv_main (one_cut_off no_capabilities) = Finished r) ∨
  ∃ s, step no_capabilities (one_cut_off no_capabilities) s.
Proof.
  exact (proj2 (serve_returns no_capabilities _ (one_cut_off_reached _) eq_refl) _ (rtc_refl _ _)).
Defined.
