(* ===== verification/ServerStart.v ===== *)
(** * How the broker takes its socket: [Server.Serve] of [internal/broker/server.go]

    The start of [Serve], up to the moment it accepts: the checks on the
    directory, the start-up lock, a stale socket that is removed, the new
    socket; and the end of [shutdown], which removes it.  Several servers may
    start on one path, in any order of their calls, and die at any call.  The
    kernel's part is a world: what the path leads to, which sockets somebody
    listens on, who holds the lock.  The file of the lock is one file: nothing
    in the program removes it.

    The result: a server that has started keeps its socket while the others
    start or die, so at most one has started; each start leaves the lock free,
    and a failed one leaves nothing that listens.  [shutdown] does not take the
    lock, and a start that runs at the same time can lose its socket to it. *)

From S2P Require Import Prelude Prog.
Open Scope Z_scope.
Open Scope list_scope.

(** ** What the system calls say *)

(** The errors of the kernel the code tells apart, and where [net] puts them. *)
Inductive errno := ECONNREFUSED | ENOENT | EWOULDBLOCK | EAGAIN | OtherErrno.
Inductive dial_error := OpError (e : errno) | RawError (e : errno).

#[export] Instance errno_eq_dec : EqDecision errno.
Proof. solve_decision. Defined.

(** [os.FileInfo]: the file it is of, [Mode()], and the owner in [Sys()]. *)
Record FileInfo := {
  fi_file : nat;
  fi_symlink : bool;
  fi_dir : bool;
  fi_socket : bool;
  fi_regular : bool;
  fi_perm : Z;
  fi_stat : option Z }.

Inductive lstat_answer := LstatErr | LstatNotExist | LstatInfo (info : FileInfo).

(** [net.Listen]: it may bind the path and still fail; what it returns is a
    [net.UnixListener] or not. *)
Inductive listen_answer := ListenErr | ListenBoundErr | Listening (unix : bool).

Inductive sys_call : Type → Type :=
| Getuid : sys_call Z
| LstatParent : sys_call lstat_answer
| Umask : sys_call unit
| LstatLock : sys_call lstat_answer
| OpenLock : sys_call bool
| StatLock : sys_call (option FileInfo)
| FlockLock : sys_call (option errno)
| FlockUnlock : sys_call unit
| CloseLock : sys_call unit
| LstatSocket : sys_call lstat_answer
| DialSocket : sys_call (option dial_error)
| CloseDialed : sys_call unit
| RemoveSocket : sys_call bool
| ListenSocket : sys_call listen_answer
| KeepOnClose : sys_call unit
| ChmodSocket : sys_call bool
| CloseListener : sys_call unit.

Abbreviation sys := (prog sys_call).

(** ** The code *)

Inductive start_error := ErrUnsafeSocket | ErrSocketInUse | ErrSocketOperation.

Definition isConnectionRefused (err : dial_error) : bool :=
  match err with
  | OpError e => bool_decide (e = ECONNREFUSED) || bool_decide (e = ENOENT)
  | RawError e => bool_decide (e = ECONNREFUSED) || bool_decide (e = ENOENT)
  end.

Definition sameOwner (info : FileInfo) : sys bool :=
  match fi_stat info with
  | None => Ret false
  | Some owner => uid ← trigger Getuid; Ret (Z.eqb (owner mod 2 ^ 32) (uid mod 2 ^ 32))
  end.

(** The checks before [sameOwner] in a condition, which stops at the first. *)
Definition andalso (b : bool) (p : sys bool) : sys bool := if b then p else Ret false.

Definition safeLockInfo (info : FileInfo) : sys bool :=
  andalso (fi_regular info && negb (fi_symlink info) && Z.eqb (fi_perm info) 384) (sameOwner info).

Definition SameFile (a b : FileInfo) : bool := Nat.eqb (fi_file a) (fi_file b).

Definition validatePrivateSocketParent : sys (option start_error) :=
  parent ← trigger LstatParent;
  ok ← (match parent with
        | LstatInfo info => andalso (fi_dir info && negb (fi_symlink info) && Z.eqb (fi_perm info) 448) (sameOwner info)
        | _ => Ret false
        end);
  Ret (if (ok : bool) then None else Some ErrUnsafeSocket).

Definition setPermanentPrivateUmask : sys unit := trigger Umask.

(** What [acquireStartupLock] does once the file is open. *)
Definition lockOpened : sys (option start_error) :=
  info ← trigger StatLock;
  path ← trigger LstatLock;
  ok ← (match info, path with
        | Some info, LstatInfo pathInfo =>
            ok ← safeLockInfo info;
            ok ← andalso ok (safeLockInfo pathInfo);
            Ret (ok && SameFile info pathInfo)
        | _, _ => Ret false
        end);
  if negb ok then _ ← trigger CloseLock; Ret (Some ErrUnsafeSocket)
  else
    err ← trigger FlockLock;
    match (err : option errno) with
    | Some e =>
        _ ← trigger CloseLock;
        Ret (Some (if bool_decide (e = EWOULDBLOCK) || bool_decide (e = EAGAIN) then ErrSocketInUse else ErrSocketOperation))
    | None => Ret None
    end.

Definition acquireStartupLock : sys (option start_error) :=
  first ← trigger LstatLock;
  refused ← (match first with
             | LstatInfo info => ok ← safeLockInfo info; Ret (if (ok : bool) then None else Some ErrUnsafeSocket)
             | LstatNotExist => Ret None
             | LstatErr => Ret (Some ErrSocketOperation)
             end);
  match (refused : option start_error) with
  | Some e => Ret (Some e)
  | None =>
      opened ← trigger OpenLock;
      if (opened : bool) then lockOpened
      else
        again ← trigger LstatLock;
        match again with
        | LstatInfo info => ok ← safeLockInfo info; Ret (Some (if (ok : bool) then ErrSocketOperation else ErrUnsafeSocket))
        | _ => Ret (Some ErrSocketOperation)
        end
  end.

Definition releaseStartupLock : sys unit :=
  _ ← trigger FlockUnlock; trigger CloseLock.

Definition prepareSocketPath : sys (option start_error) :=
  first ← trigger LstatSocket;
  match first with
  | LstatNotExist => Ret None
  | LstatErr => Ret (Some ErrUnsafeSocket)
  | LstatInfo info =>
      owned ← andalso (negb (fi_symlink info) && fi_socket info) (sameOwner info);
      if negb (owned && Z.eqb (fi_perm info) 384) then Ret (Some ErrUnsafeSocket)
      else
        dialed ← trigger DialSocket;
        match (dialed : option dial_error) with
        | None => _ ← trigger CloseDialed; Ret (Some ErrSocketInUse)
        | Some err =>
            if negb (isConnectionRefused err) then Ret (Some ErrSocketOperation)
            else
              current ← trigger LstatSocket;
              match current with
              | LstatInfo current =>
                  if negb (SameFile info current) then Ret (Some ErrSocketInUse)
                  else
                    removed ← trigger RemoveSocket;
                    Ret (if (removed : bool) then None else Some ErrSocketOperation)
              | _ => Ret (Some ErrSocketInUse)
              end
        end
  end.

(** [_ = listener.Close(); _ = server.remove(server.path); return err] *)
Definition abandon (err : start_error) : sys (result start_error FileInfo) :=
  _ ← trigger CloseListener; _ ← trigger RemoveSocket; Ret (Fail err).

Definition listenPrivateUnix : sys (result start_error FileInfo) :=
  listener ← trigger ListenSocket;
  match listener with
  | ListenErr | ListenBoundErr => Ret (Fail ErrSocketOperation)
  | Listening false => abandon ErrSocketOperation
  | Listening true =>
      _ ← trigger KeepOnClose;
      changed ← trigger ChmodSocket;
      if negb changed then abandon ErrSocketOperation
      else
        answer ← trigger LstatSocket;
        match answer with
        | LstatInfo info =>
            owned ← andalso (Z.eqb (fi_perm info) 384 && fi_socket info) (sameOwner info);
            if (owned : bool) then Ret (Ok info) else abandon ErrUnsafeSocket
        | _ => abandon ErrUnsafeSocket
        end
  end.

(** The start of [Serve]; the deferred function releases the lock when the
    start fails. *)
Definition start : sys (result start_error FileInfo) :=
  unsafe ← validatePrivateSocketParent;
  match (unsafe : option start_error) with
  | Some e => Ret (Fail e)
  | None =>
      _ ← setPermanentPrivateUmask;
      locked ← acquireStartupLock;
      match (locked : option start_error) with
      | Some e => Ret (Fail e)
      | None =>
          prepared ← prepareSocketPath;
          match (prepared : option start_error) with
          | Some e => _ ← releaseStartupLock; Ret (Fail e)
          | None => result ← listenPrivateUnix; _ ← releaseStartupLock; Ret result
          end
      end
  end.

(** The end of [shutdown]: [info] is what the start returned. *)
Definition removeOwnSocket (info : FileInfo) : sys unit :=
  current ← trigger LstatSocket;
  match current with
  | LstatInfo current => if SameFile info current then _ ← trigger RemoveSocket; Ret tt else Ret tt
  | _ => Ret tt
  end.

(** ** The kernel *)

(** A file at the path of the socket: whether it is a socket, its permission
    bits, its owner, and the server that listens on it. *)
Record inode := {
  i_symlink : bool;
  i_socket : bool;
  i_perm : Z;
  i_owner : Z;
  i_live : option nat }.

#[export] Instance inode_eq_dec : EqDecision inode.
Proof. solve_decision. Defined.

(** [k_path] is the file the path leads to; [k_lock] the server that holds the
    lock; [k_uid] the user all of them run as. *)
Record kernel := Kernel {
  k_path : option nat;
  k_inodes : gmap nat inode;
  k_next : nat;
  k_lock : option nat;
  k_uid : Z }.

Definition with_path (w : kernel) (p : option nat) : kernel := Kernel p (k_inodes w) (k_next w) (k_lock w) (k_uid w).
Definition with_lock (w : kernel) (l : option nat) : kernel := Kernel (k_path w) (k_inodes w) (k_next w) l (k_uid w).
Definition with_inodes (w : kernel) (m : gmap nat inode) : kernel := Kernel (k_path w) m (k_next w) (k_lock w) (k_uid w).

Definition at_path (w : kernel) : option inode := n ← k_path w; k_inodes w !! n.

(** [lstat] of the path says what is there, or fails. *)
Definition lstat_says (w : kernel) (a : lstat_answer) : bool :=
  match a with
  | LstatErr => true
  | LstatNotExist => bool_decide (k_path w = None)
  | LstatInfo info =>
      bool_decide (k_path w = Some (fi_file info)) &&
      match k_inodes w !! fi_file info with
      | Some v =>
          Bool.eqb (fi_symlink info) (i_symlink v) && Bool.eqb (fi_socket info) (i_socket v)
          && Z.eqb (fi_perm info) (i_perm v) && bool_decide (fi_stat info = Some (i_owner v))
      | None => false
      end
  end.

(** A socket bound with the private umask. *)
Definition bound (w : kernel) (live : option nat) : kernel :=
  Kernel (Some (k_next w))
    (<[k_next w := {| i_symlink := false; i_socket := true; i_perm := 448; i_owner := k_uid w; i_live := live |}]> (k_inodes w))
    (S (k_next w)) (k_lock w) (k_uid w).

Definition chmod_600 (v : inode) : inode :=
  {| i_symlink := i_symlink v; i_socket := i_socket v; i_perm := 384; i_owner := i_owner v; i_live := i_live v |}.

Definition not_live (i : nat) (v : inode) : inode :=
  {| i_symlink := i_symlink v; i_socket := i_socket v; i_perm := i_perm v; i_owner := i_owner v;
     i_live := if decide (i_live v = Some i) then None else i_live v |}.

Definition close_live (i : nat) (w : kernel) : kernel := with_inodes w (not_live i <$> k_inodes w).

Definition unlock (i : nat) (w : kernel) : kernel :=
  if decide (k_lock w = Some i) then with_lock w None else w.

Definition live_at_path (w : kernel) : bool :=
  match at_path w with Some v => bool_decide (is_Some (i_live v)) | None => false end.

Definition when (b : bool) (w : kernel) : option kernel := if b then Some w else None.

(** [acts i w e x]: the kernel after the server [i] calls [e] and is answered
    [x]; [None] when it cannot answer that. *)
Definition acts (i : nat) {X} (w : kernel) (e : sys_call X) : X → option kernel :=
  match e in sys_call X return X → option kernel with
  | Getuid => λ uid, when (Z.eqb uid (k_uid w)) w
  | FlockLock => λ r,
      match r with
      | None => when (bool_decide (k_lock w = None)) (with_lock w (Some i))
      | Some _ => Some w
      end
  | FlockUnlock => λ _, Some (unlock i w)
  | CloseLock => λ _, Some (unlock i w)
  | LstatSocket => λ a, when (lstat_says w a) w
  | DialSocket => λ r,
      match r with
      | None => when (live_at_path w) w
      | Some err => when (negb (isConnectionRefused err && live_at_path w)) w
      end
  | RemoveSocket => λ ok, if ok then when (bool_decide (is_Some (k_path w))) (with_path w None) else Some w
  | ListenSocket => λ r,
      match r with
      | ListenErr => Some w
      | ListenBoundErr => when (bool_decide (k_path w = None)) (bound w None)
      | Listening _ => when (bool_decide (k_path w = None)) (bound w (Some i))
      end
  | ChmodSocket => λ ok,
      if ok then n ← k_path w; v ← k_inodes w !! n; Some (with_inodes w (<[n := chmod_600 v]> (k_inodes w)))
      else Some w
  | CloseListener => λ _, Some (close_live i w)
  | _ => λ _, Some w
  end.

(** A server that dies stops listening and loses the lock. *)
Definition dies (i : nat) (w : kernel) : kernel := unlock i (close_live i w).

(** ** What a server relies on *)

Definition fresh (w : kernel) : Prop := ∀ n v, k_inodes w !! n = Some v → (n < k_next w)%nat.

(** While it holds the lock, nothing happens at the path but that others stop
    listening; nobody gives it the lock, or a socket; its own socket stays
    where it is. *)
Record rely (i : nat) (w w' : kernel) : Prop := {
  rely_lock : k_lock w = Some i → k_lock w' = Some i ∧ k_path w' = k_path w ∧
    ∀ n v, k_inodes w' !! n = Some v → is_Some (i_live v) → k_inodes w !! n = Some v;
  rely_unlocked : k_lock w ≠ Some i → k_lock w' ≠ Some i;
  rely_own n v : k_inodes w !! n = Some v → i_live v = Some i →
    k_inodes w' !! n = Some v ∧ (k_path w = Some n → k_path w' = Some n);
  rely_new n v : k_inodes w' !! n = Some v → i_live v = Some i → k_inodes w !! n = Some v;
  rely_fresh : fresh w → fresh w';
  rely_uid : k_uid w' = k_uid w }.

Lemma rely_refl i w : rely i w w.
Proof. by split. Qed.

Lemma rely_trans i w w' w'' : rely i w w' → rely i w' w'' → rely i w w''.
Proof.
  intros [L U O N F I] [L' U' O' N' F' I']. split.
  - intros Hl. destruct (L Hl) as (Hl' & Hp & Hn). destruct (L' Hl') as (Hl'' & Hp' & Hn').
    split; [done|]. split; [congruence|]. eauto.
  - auto.
  - intros n v Hv Hi. destruct (O n v Hv Hi) as [Hv' Hp]. destruct (O' n v Hv' Hi) as [Hv'' Hp']. auto.
  - eauto.
  - auto.
  - congruence.
Qed.

(** ** What a server does to the others *)

Lemma unlock_rely i j w : j ≠ i → rely j w (unlock i w).
Proof.
  intros Hne. unfold unlock. destruct (decide _) as [Hl|Hl]; [|apply rely_refl].
  split; simpl; try done. intros Hj. congruence.
Qed.

Lemma lookup_close_live i w n v : k_inodes (close_live i w) !! n = Some v →
  ∃ v', k_inodes w !! n = Some v' ∧ v = not_live i v'.
Proof. simpl. rewrite lookup_fmap_Some. naive_solver. Qed.

Lemma not_live_other i v : is_Some (i_live (not_live i v)) → not_live i v = v.
Proof. unfold not_live. destruct v as [a b c d l]. simpl. destruct (decide (l = Some i)); [by intros []|done]. Qed.

Lemma not_live_own i v : i_live (not_live i v) ≠ Some i.
Proof. unfold not_live. simpl. by destruct (decide (i_live v = Some i)). Qed.

Lemma close_live_rely i j w : j ≠ i → rely j w (close_live i w).
Proof.
  intros Hne. split; try done.
  - intros Hl. split; [done|]. split; [done|]. intros n v (v' & Hv & ->)%lookup_close_live Hi. by rewrite not_live_other.
  - intros n v Hv Hi. split; [|done]. simpl. rewrite lookup_fmap, Hv. simpl. f_equal.
    unfold not_live. destruct v as [a b c d l]. simpl in *. subst l. by rewrite decide_False by congruence.
  - intros n v (v' & Hv & ->)%lookup_close_live Hi. by rewrite not_live_other by (by eexists).
  - intros Hf n v (v' & Hv & ->)%lookup_close_live. by eapply Hf.
Qed.

Lemma dies_rely i j w : j ≠ i → rely j w (dies i w).
Proof. intros Hne. eapply rely_trans; [by apply close_live_rely|by apply unlock_rely]. Qed.

Lemma bound_rely i j w live : j ≠ i → k_lock w = Some i → k_path w = None → fresh w → live ≠ Some j → rely j w (bound w live).
Proof.
  intros Hne Hl Hp Hf Hlive. split; simpl; try done.
  - intros Hj. congruence.
  - intros n v Hv Hi. pose proof (Hf n v Hv). split; [|congruence]. by rewrite lookup_insert_ne by lia.
  - intros n v. destruct (decide (n = k_next w)) as [->|Hn]; [|by rewrite lookup_insert_ne by done].
    rewrite lookup_insert_eq. intros [= <-]. simpl. congruence.
  - intros _ n v. simpl. destruct (decide (n = k_next w)) as [->|Hn]; [lia|].
    rewrite lookup_insert_ne by done. intros Hv. pose proof (Hf n v Hv). lia.
Qed.

Lemma remove_rely i j w : j ≠ i → k_lock w = Some i →
  (∀ n v, k_path w = Some n → k_inodes w !! n = Some v → i_live v = None) → rely j w (with_path w None).
Proof.
  intros Hne Hl Hdead. split; simpl; try done.
  - intros Hj. congruence.
  - intros n v Hv Hi. split; [done|]. intros Hp. specialize (Hdead n v Hp Hv). congruence.
Qed.

Lemma chmod_rely i j w n v : j ≠ i → k_lock w = Some i → k_inodes w !! n = Some v → i_live v = Some i →
  rely j w (with_inodes w (<[n := chmod_600 v]> (k_inodes w))).
Proof.
  intros Hne Hl Hv Hi. split; simpl; try done.
  - intros Hj. congruence.
  - intros m u Hu Hj. split; [|done]. rewrite lookup_insert_ne; [done|]. intros <-. congruence.
  - intros m u. destruct (decide (m = n)) as [->|Hn]; [|by rewrite lookup_insert_ne by done].
    rewrite lookup_insert_eq. intros [= <-]. simpl. congruence.
  - intros Hf m u. simpl. destruct (decide (m = n)) as [->|Hn]; [intros _; by eapply Hf|].
    rewrite lookup_insert_ne by done. apply Hf.
Qed.

(** ** What a server knows on its way *)

(** Nothing listens for it. *)
Definition quiet (i : nat) (w : kernel) : Prop := ∀ n v, k_inodes w !! n = Some v → i_live v ≠ Some i.

Definition outside (i : nat) (w : kernel) : Prop := k_lock w ≠ Some i ∧ fresh w ∧ quiet i w.
Definition holding (i : nat) (w : kernel) : Prop := k_lock w = Some i ∧ fresh w ∧ quiet i w.

(** It holds the lock and the path leads to [p], where nobody listens. *)
Definition dead_path (i : nat) (p : option nat) (w : kernel) : Prop :=
  holding i w ∧ k_path w = p ∧ ∀ n v, p = Some n → k_inodes w !! n = Some v → i_live v = None.

(** Its socket [n] is at the path, and it is the only one it listens on. *)
Definition own_socket (i : nat) (perm : option Z) (n : nat) (w : kernel) : Prop :=
  fresh w ∧ k_path w = Some n ∧
  (∃ v, k_inodes w !! n = Some v ∧ i_live v = Some i ∧ i_symlink v = false ∧ i_socket v = true ∧ i_owner v = k_uid w ∧
        (if perm is Some p then i_perm v = p else True)) ∧
  ∀ m v, k_inodes w !! m = Some v → i_live v = Some i → m = n.

Definition started (i : nat) (perm : option Z) (n : nat) (w : kernel) : Prop := k_lock w = Some i ∧ own_socket i perm n w.
Definition serving (i : nat) (n : nat) (w : kernel) : Prop := k_lock w ≠ Some i ∧ own_socket i (Some 384) n w.

Abbreviation steady := (stable rely).

Lemma quiet_rely i w w' : quiet i w → rely i w w' → quiet i w'.
Proof. intros Hq Hr n v Hv Hi. by apply (Hq n v (rely_new _ _ _ Hr n v Hv Hi)). Qed.

Lemma outside_stable i : steady i (outside i).
Proof. intros w w' (Hl & Hf & Hq) Hr. split_and!; [by eapply rely_unlocked|by eapply rely_fresh|by eapply quiet_rely]. Qed.

Lemma holding_stable i : steady i (holding i).
Proof.
  intros w w' (Hl & Hf & Hq) Hr. split_and!; [by eapply rely_lock|by eapply rely_fresh|by eapply quiet_rely].
Qed.

Lemma dead_path_stable i p : steady i (dead_path i p).
Proof.
  intros w w' (Hh & Hp & Hd) Hr. split; [by eapply holding_stable|].
  destruct (rely_lock _ _ _ Hr (proj1 Hh)) as (_ & Hp' & Hn). split; [congruence|].
  intros n v Hpn Hv. destruct (i_live v) as [j|] eqn:Hj; [|done].
  specialize (Hn n v Hv ltac:(by rewrite Hj)). specialize (Hd n v Hpn Hn). congruence.
Qed.

Lemma own_socket_stable i perm n : steady i (own_socket i perm n).
Proof.
  intros w w' (Hf & Hp & (v & Hv & Hi & Hs & Hk & Ho & Hperm) & Hu) Hr.
  destruct (rely_own _ _ _ Hr n v Hv Hi) as [Hv' Hp']. split_and!.
  - by eapply rely_fresh.
  - by apply Hp'.
  - exists v. rewrite (rely_uid _ _ _ Hr). by split_and!.
  - intros m u Hm Hi'. apply (Hu m u); [|done]. by eapply rely_new.
Qed.

Lemma started_stable i perm n : steady i (started i perm n).
Proof. intros w w' [Hl Ho] Hr. split; [by eapply rely_lock|by eapply own_socket_stable]. Qed.

Lemma serving_stable i n : steady i (serving i n).
Proof. intros w w' [Hl Ho] Hr. split; [by eapply rely_unlocked|by eapply own_socket_stable]. Qed.

Create HintDb start.
#[export] Hint Resolve outside_stable holding_stable dead_path_stable started_stable serving_stable : start.

Abbreviation tri := (triple (@acts) rely).

(** Calls that only ask: any answer, and the world stays. *)
Definition asks {X} (e : sys_call X) : Prop := ∀ i w x w', acts i w e x = Some w' → w' = w.

Lemma asking i P {X} (e : sys_call X) : steady i P → asks e → tri i P (trigger e) (λ _, P).
Proof. intros HP He. apply (triple_ask rely_refl); [done..|]. intros w x w' Hw Ha. split; [by eapply He|done]. Qed.

Lemma when_Some b w w' : when b w = Some w' → b = true ∧ w' = w.
Proof. destruct b; [by intros [= ->]|done]. Qed.

Ltac asks := intros ? ? ? ? Ha; simpl in Ha; repeat case_match; try apply when_Some in Ha as [_ ->]; congruence.

Lemma sameOwner_asks i P info : steady i P → tri i P (sameOwner info) (λ _, P).
Proof.
  intros HP. unfold sameOwner. destruct (fi_stat info) as [o|]; [|by apply triple_ret].
  eapply (triple_bind rely_refl); [by apply asking; [|asks]|]. intros uid. by apply triple_ret.
Qed.

Lemma andalso_asks i P b p : steady i P → tri i P p (λ _, P) → tri i P (andalso b p) (λ _, P).
Proof. intros HP Hp. destruct b; [done|]. by apply triple_ret. Qed.

Lemma safeLockInfo_asks i P info : steady i P → tri i P (safeLockInfo info) (λ _, P).
Proof. intros HP. apply andalso_asks; [done|]. by apply sameOwner_asks. Qed.

Ltac tri_bind := eapply (triple_bind rely_refl).
Ltac tri_via M := refine (triple_bind rely_refl _ _ _ M _ _ _ _).

(** The parts of [start], each with what it leaves. *)

Lemma validatePrivateSocketParent_ok i P : steady i P → tri i P validatePrivateSocketParent (λ _, P).
Proof.
  intros HP. tri_bind; [by apply asking; [|asks]|]. intros a. tri_via (λ _ : bool, P); [|intros ok; by apply triple_ret].
  destruct a as [| |info]; [by apply triple_ret..|]. apply andalso_asks; [done|]. by apply sameOwner_asks.
Qed.

(** Closing the lock's file drops the lock, if it was held. *)
Lemma closes_lock i P Q (e : sys_call unit) : (∀ w x, acts i w e x = Some (unlock i w)) → steady i P → steady i Q →
  (∀ w, P w → Q (unlock i w)) → tri i P (trigger e) (λ _, Q).
Proof.
  intros He HP HQ HPQ. apply triple_call; [done..|]. intros w x w' Hw. rewrite He. intros [= <-].
  split; [intros j Hj; by apply unlock_rely|by apply HPQ].
Qed.

Lemma unlock_outside i w : outside i w → unlock i w = w.
Proof. intros [Hl _]. unfold unlock. by rewrite decide_False. Qed.

(** The lock is held unless there is an error. *)
Definition lock_left (i : nat) {A} (r : option A) : kernel → Prop := if r is Some _ then outside i else holding i.

Lemma lock_left_stable i {A} (r : option A) : steady i (lock_left i r).
Proof. destruct r; simpl; eauto with start. Qed.
#[export] Hint Resolve lock_left_stable : start.

Lemma lockOpened_ok i : tri i (outside i) lockOpened (lock_left i).
Proof.
  assert (∀ e : start_error, tri i (outside i) (_ ← trigger CloseLock; Ret (Some e)) (lock_left i)) as Hclose.
  { intros e. tri_bind; [apply (closes_lock i (outside i) (outside i)); eauto with start|].
    - intros w Hw. by rewrite unlock_outside.
    - intros u. apply triple_ret; eauto with start. }
  tri_bind; [apply asking; [eauto with start|asks]|]. intros info.
  tri_bind; [apply asking; [eauto with start|asks]|]. intros path.
  tri_via (λ _ : bool, outside i).
  { destruct info as [info|]; [|apply triple_ret; eauto with start].
    destruct path as [| |path]; [apply triple_ret; eauto with start..|].
    tri_bind; [apply safeLockInfo_asks; eauto with start|]. intros ok. simpl.
    tri_bind; [apply andalso_asks; [eauto with start|apply safeLockInfo_asks; eauto with start]|].
    intros ok'. apply triple_ret; eauto with start. }
  intros ok. destruct (negb ok); [apply Hclose|].
  tri_via (lock_left i (A := errno));
    [|intros [e|]; [apply Hclose|apply triple_ret; eauto with start]].
  apply triple_call; [eauto with start..|].
  intros w [e|] w' Hw; simpl; [by intros [= <-]|].
  intros [Hl ->]%when_Some. apply bool_decide_eq_true in Hl. destruct Hw as (Hn & Hf & Hq). split; [|done].
  intros j Hj. split; simpl; try done; congruence.
Qed.

Lemma acquireStartupLock_ok i : tri i (outside i) acquireStartupLock (lock_left i).
Proof.
  tri_bind; [apply asking; [eauto with start|asks]|]. intros first.
  tri_via (λ _ : option start_error, outside i); [destruct first as [| |info]; [apply triple_ret; eauto with start..|]|].
  { tri_bind; [apply safeLockInfo_asks; eauto with start|]. intros ok. apply triple_ret; eauto with start. }
  intros [e|]; [apply triple_ret; eauto with start|].
  tri_bind; [apply asking; [eauto with start|asks]|]. intros [|]; [apply lockOpened_ok|].
  tri_bind; [apply asking; [eauto with start|asks]|]. intros [| |info]; [apply triple_ret; eauto with start..|].
  tri_bind; [apply safeLockInfo_asks; eauto with start|]. intros ok. apply triple_ret; eauto with start.
Qed.

(** Under the lock: the path is free, or nothing changed for us. *)
Definition prepared (i : nat) (r : option start_error) : kernel → Prop :=
  if r is Some _ then holding i else dead_path i None.

Lemma prepared_stable i r : steady i (prepared i r).
Proof. destruct r; simpl; eauto with start. Qed.
#[export] Hint Resolve prepared_stable : start.

(** Holding the lock with the path at [p]. *)
Definition holding_at (i : nat) (p : option nat) (w : kernel) : Prop := holding i w ∧ k_path w = p.

Lemma holding_at_stable i p : steady i (holding_at i p).
Proof.
  intros w w' [Hh Hp] Hr. split; [by eapply holding_stable|].
  destruct (rely_lock _ _ _ Hr (proj1 Hh)) as (_ & Hp' & _). congruence.
Qed.
#[export] Hint Resolve holding_at_stable : start.

(** What one [lstat] of the path, and one call of it, tell the holder. *)
Definition seen (i : nat) (a : lstat_answer) : kernel → Prop :=
  match a with
  | LstatErr => holding i
  | LstatNotExist => dead_path i None
  | LstatInfo info => holding_at i (Some (fi_file info))
  end.

Lemma seen_stable i a : steady i (seen i a).
Proof. destruct a; simpl; eauto with start. Qed.
#[export] Hint Resolve seen_stable : start.

Lemma lstat_seen i : tri i (holding i) (trigger LstatSocket) (seen i).
Proof.
  apply (triple_ask rely_refl); [eauto with start..|]. intros w a w' Hw [Hs ->]%when_Some. split; [done|].
  destruct a as [| |info]; simpl in *; [done| |]; bool_hyps; split; done.
Qed.

Definition refused (i : nat) (file : nat) (r : option dial_error) : kernel → Prop :=
  match r with
  | Some err => if isConnectionRefused err then dead_path i (Some file) else holding i
  | None => holding i
  end.

Lemma refused_stable i file r : steady i (refused i file r).
Proof. unfold refused. repeat case_match; eauto with start. Qed.
#[export] Hint Resolve refused_stable : start.

Lemma dial_refused i file : tri i (holding_at i (Some file)) (trigger DialSocket) (refused i file).
Proof.
  apply (triple_ask rely_refl); [eauto with start..|]. intros w [err|] w' [Hw Hp]; simpl.
  - intros [Hs ->]%when_Some. split; [done|]. destruct (isConnectionRefused err); [|done]. simpl in Hs.
    split; [done|]. split; [done|]. intros n v [= <-] Hv. bool_hyps.
    unfold live_at_path, at_path in Hs. rewrite Hp in Hs. simpl in Hs. rewrite Hv in Hs. bool_hyps.
    destruct (i_live v); [|done]. by destruct Hs.
  - intros [_ ->]%when_Some. by split.
Qed.

(** Removing the path, where nobody listens. *)
Lemma remove_dead i p : tri i (dead_path i p) (trigger RemoveSocket) (λ ok, if ok : bool then dead_path i None else dead_path i p).
Proof.
  apply triple_call; [eauto with start|intros []; eauto with start|]. intros w [|] w' Hw; simpl; [|by intros [= <-]].
  intros [_ ->]%when_Some. destruct Hw as ((Hl & Hf & Hq) & Hp & Hd). split; [|done].
  intros j Hj. apply (remove_rely i); [done..|]. intros n v Hn Hv. apply (Hd n v); congruence.
Qed.

Lemma dead_prepared i p e w : dead_path i p w → prepared i (Some e) w.
Proof. by intros [? _]. Qed.
#[export] Hint Resolve dead_prepared : start.

Lemma prepareSocketPath_ok i : tri i (holding i) prepareSocketPath (prepared i).
Proof.
  tri_bind; [apply lstat_seen|]. intros [| |info]; [apply triple_ret; eauto with start..|].
  tri_via (λ _ : bool, holding_at i (Some (fi_file info))).
  { apply andalso_asks; [|apply sameOwner_asks]; eauto with start. }
  intros owned. destruct (negb _); [apply triple_ret; [eauto with start|by intros w [? _]]|].
  tri_bind; [apply dial_refused|]. intros [err|].
  2: { tri_bind; [apply asking; [eauto with start|asks]|]. intros u. by apply triple_ret; eauto with start. }
  unfold refused. destruct (isConnectionRefused err); [|apply triple_ret; eauto with start].
  tri_via (λ _ : lstat_answer, dead_path i (Some (fi_file info))); [apply asking; [eauto with start|asks]|].
  intros [| |current]; [apply triple_ret; eauto with start..|].
  destruct (negb _); [apply triple_ret; eauto with start|].
  tri_bind; [apply remove_dead|]. intros [|]; apply triple_ret; eauto with start.
Qed.

(** ** The socket of one's own *)

Lemma own_started_dead i perm n w : started i perm n w → dead_path i (Some n) (close_live i w).
Proof.
  intros (Hl & Hf & Hp & (v & Hv & Hi & _) & Hu). unfold dead_path, holding. split_and!; try done.
  - intros m u (u' & Hu' & ->)%lookup_close_live. by eapply Hf.
  - intros m u (u' & Hu' & ->)%lookup_close_live. apply not_live_own.
  - intros m u [= <-] (u' & Hu' & ->)%lookup_close_live. rewrite Hv in Hu'. injection Hu' as <-.
    unfold not_live. simpl. by rewrite decide_True.
Qed.

Definition listening (i : nat) (r : result start_error FileInfo) : kernel → Prop :=
  match r with Ok info => started i (Some 384) (fi_file info) | Fail _ => holding i end.

Lemma listening_stable i r : steady i (listening i r).
Proof. destruct r; simpl; eauto with start. Qed.
#[export] Hint Resolve listening_stable : start.

Lemma abandon_ok i perm n err : tri i (started i perm n) (abandon err) (listening i).
Proof.
  tri_via (λ _ : unit, dead_path i (Some n)).
  - apply triple_call; [eauto with start..|]. intros w x w' Hw [= <-].
    split; [intros j Hj; by apply close_live_rely|by apply (own_started_dead i perm)].
  - intros u. tri_bind; [apply remove_dead|]. intros ok.
    apply triple_ret; [destruct ok; eauto with start|]. destruct ok; by intros w [? _].
Qed.

Lemma bound_own i w : dead_path i None w → started i None (k_next w) (bound w (Some i)).
Proof.
  intros ((Hl & Hf & Hq) & Hp & _). split; [done|]. split_and!; simpl.
  - intros m v. simpl. destruct (decide (m = k_next w)) as [->|Hm]; [lia|].
    rewrite lookup_insert_ne by done. intros Hv. pose proof (Hf m v Hv). lia.
  - done.
  - eexists. rewrite lookup_insert_eq. by split_and!.
  - intros m v. destruct (decide (m = k_next w)) as [->|Hm]; [done|]. rewrite lookup_insert_ne by done.
    intros Hv Hi. by destruct (Hq m v Hv).
Qed.

(** A socket that was bound and is not listened on. *)
Lemma bound_holding i w : holding i w → holding i (bound w None).
Proof.
  intros (Hl & Hf & Hq). unfold holding. split_and!; [done| |]; intros m v; simpl; (destruct (decide (m = k_next w)) as [->|Hm];
    [rewrite lookup_insert_eq; intros [= <-]; simpl; try lia; done|rewrite lookup_insert_ne by done; intros Hv]).
  - pose proof (Hf m v Hv). lia.
  - by apply (Hq m v).
Qed.

Definition listened (i : nat) (r : listen_answer) (w : kernel) : Prop :=
  match r with Listening _ => ∃ n, started i None n w | _ => holding i w end.

Lemma listened_stable i r : steady i (listened i r).
Proof.
  intros w w' Hw Hr. destruct r; simpl in *; [by eapply holding_stable..|].
  destruct Hw as [n Hw]. exists n. by eapply started_stable.
Qed.
#[export] Hint Resolve listened_stable : start.

Lemma listen_listened i : tri i (dead_path i None) (trigger ListenSocket) (listened i).
Proof.
  apply triple_call; [eauto with start..|]. intros w r w' Hw Ha. pose proof Hw as ((Hl & Hf & Hq) & Hp & _).
  destruct r as [| |unix]; simpl in Ha; [injection Ha as <-; split; [intros j _; apply rely_refl|exact (proj1 Hw)]|..];
    apply when_Some in Ha as [_ ->]; (split; [intros j Hj; apply (bound_rely i); try done; congruence|]).
  - by apply bound_holding.
  - exists (k_next w). by apply bound_own.
Qed.

Lemma chmod_started i n : tri i (started i None n) (trigger ChmodSocket)
  (λ ok, if ok : bool then started i (Some 384) n else started i None n).
Proof.
  apply triple_call; [eauto with start|intros []; eauto with start|]. intros w [|] w' Hw; simpl; [|by intros [= <-]].
  destruct Hw as (Hl & Hf & Hp & (v & Hv & Hi & Hs & Hk & Ho & _) & Hu). rewrite Hp. simpl. rewrite Hv. simpl. intros [= <-].
  split; [intros j Hj; by apply (chmod_rely i)|]. split; [done|]. split_and!; simpl.
  - intros m u. simpl. destruct (decide (m = n)) as [->|Hm]; [intros _; by eapply Hf|].
    rewrite lookup_insert_ne by done. apply Hf.
  - done.
  - eexists. rewrite lookup_insert_eq. by split_and!.
  - intros m u. destruct (decide (m = n)) as [->|Hm]; [done|]. rewrite lookup_insert_ne by done. apply Hu.
Qed.

(** Looking at the path finds the socket. *)
Lemma lstat_started i n : tri i (started i (Some 384) n) (trigger LstatSocket)
  (λ a, if a is LstatInfo info then started i (Some 384) (fi_file info) else started i (Some 384) n).
Proof.
  apply (triple_ask rely_refl); [eauto with start|intros []; eauto with start|].
  intros w a w' Hw [Hs ->]%when_Some. split; [done|]. destruct a as [| |info]; [done..|]. simpl in Hs. bool_hyps.
  pose proof Hw as (_ & _ & Hp & _). by assert (n = fi_file info) as <- by congruence.
Qed.

Lemma listenPrivateUnix_ok i : tri i (dead_path i None) listenPrivateUnix (listening i).
Proof.
  tri_bind; [apply listen_listened|]. intros [| |unix]; [apply triple_ret; eauto with start..|].
  intros w [n Hw]. revert w Hw. change (tri i (started i None n)
    (if unix then _ ← trigger KeepOnClose; changed ← trigger ChmodSocket;
      if negb changed then abandon ErrSocketOperation else answer ← trigger LstatSocket;
        match answer with
        | LstatInfo info =>
            owned ← andalso (Z.eqb (fi_perm info) 384 && fi_socket info) (sameOwner info);
            if (owned : bool) then Ret (Ok info) else abandon ErrUnsafeSocket
        | _ => abandon ErrUnsafeSocket
        end else abandon ErrSocketOperation) (listening i)).
  destruct unix; [|apply abandon_ok].
  tri_bind; [apply asking; [eauto with start|asks]|]. intros u.
  tri_bind; [apply chmod_started|]. intros [|]; [|apply abandon_ok].
  tri_bind; [apply lstat_started|]. intros [| |info]; [apply abandon_ok..|].
  tri_bind; [apply andalso_asks; [|apply sameOwner_asks]; eauto with start|].
  intros [|]; [apply triple_ret; eauto with start|apply abandon_ok].
Qed.

(** What a start leaves: the lock is free of it, and it listens on the socket
    at the path or nowhere. *)
Definition settled (i : nat) (r : result start_error FileInfo) : kernel → Prop :=
  match r with Ok info => serving i (fi_file info) | Fail _ => outside i end.

Lemma settled_stable i r : steady i (settled i r).
Proof. destruct r; simpl; eauto with start. Qed.
#[export] Hint Resolve settled_stable : start.

Lemma unlock_holding i w : holding i w → outside i (unlock i w).
Proof. intros (Hl & Hf & Hq). unfold unlock. rewrite decide_True by done. by split_and!. Qed.

Lemma unlock_settled i r w : settled i r w → unlock i w = w.
Proof. intros Hw. unfold unlock. destruct r as [info|e], Hw as [Hl _]; by rewrite decide_False. Qed.

Lemma unlock_listening i r w : listening i r w → settled i r (unlock i w).
Proof.
  destruct r as [info|e]; simpl; [|apply unlock_holding]. intros [Hl Ho]. unfold unlock. rewrite decide_True by done.
  by split.
Qed.

Lemma release_ok i r : tri i (listening i r) releaseStartupLock (λ _, settled i r).
Proof.
  tri_via (λ _ : unit, settled i r).
  - apply (closes_lock i (listening i r) (settled i r)); eauto using unlock_listening with start.
  - intros u. apply (closes_lock i (settled i r) (settled i r)); eauto with start.
    intros w Hw. by rewrite (unlock_settled i r).
Qed.

Lemma start_ok i : tri i (outside i) start (settled i).
Proof.
  tri_bind; [apply validatePrivateSocketParent_ok; eauto with start|].
  intros [e|]; [apply triple_ret; eauto with start|].
  tri_bind; [apply asking; [eauto with start|asks]|]. intros u.
  tri_bind; [apply acquireStartupLock_ok|]. intros [e|]; [apply triple_ret; eauto with start|].
  tri_bind; [apply prepareSocketPath_ok|]. intros [e|].
  - tri_bind; [apply (release_ok i (Fail e))|]. intros v. apply triple_ret; eauto with start.
  - tri_bind; [apply listenPrivateUnix_ok|]. intros r.
    tri_bind; [apply release_ok|]. intros v. apply triple_ret; eauto with start.
Qed.

(** ** Servers that start on one path *)

Abbreviation servers := (system sys_call kernel nat _ _ (result start_error FileInfo)).
Abbreviation server_step := (system_step (@acts) dies).

Definition starting (w : kernel) (ids : gset nat) : servers := System w (gset_to_gmap start ids) ∅.

(** C24: Any number of servers start on one path, their calls in any order, and each
    may die at any call or later.  A server that has started keeps the socket
    at the path: private, its own, and nobody else's, so no other server has
    started; every start leaves the lock, and one that failed listens nowhere. *)
Theorem starts_are_exclusive w ids s (before : ∀ i, i ∈ ids → outside i w) (reached : rtc server_step (starting w ids) s) :
  (∀ i info, sy_ended s !! i = Some (Ok info) →
     k_path (sy_world s) = Some (fi_file info) ∧
     at_path (sy_world s) = Some {| i_symlink := false; i_socket := true; i_perm := 384; i_owner := k_uid (sy_world s); i_live := Some i |}) ∧
  (∀ i j a b, sy_ended s !! i = Some (Ok a) → sy_ended s !! j = Some (Ok b) → i = j) ∧
  (∀ i r, sy_ended s !! i = Some r → k_lock (sy_world s) ≠ Some i) ∧
  (∀ i e, sy_ended s !! i = Some (Fail e) → quiet i (sy_world s)).
Proof.
  assert (system_ok (@acts) rely (λ i w r, settled i r w) s) as Hok.
  { revert s reached. refine (rtc_ind_r _ _ _ _).
    - split; simpl; [|by intros i r; rewrite lookup_empty]. intros i p [Hi <-]%lookup_gset_to_gmap_Some.
      split; [by apply start_ok, before|apply lookup_empty].
    - intros s s' _ Hstep Hok. by eapply (system_step_ok _ _ _ rely_refl rely_trans dies_rely). }
  assert (∀ i r, sy_ended s !! i = Some r → settled i r (sy_world s)) as Hsettled.
  { intros i r Hr. apply (so_ended _ _ _ _ Hok i r Hr), rely_refl. }
  assert (∀ i info, sy_ended s !! i = Some (Ok info) → k_path (sy_world s) = Some (fi_file info) ∧
     at_path (sy_world s) = Some {| i_symlink := false; i_socket := true; i_perm := 384; i_owner := k_uid (sy_world s); i_live := Some i |}) as Hown.
  { intros i info Hr. destruct (Hsettled i _ Hr) as (_ & _ & Hp & (v & Hv & Hi & Hs & Hk & Ho & Hm) & _).
    split; [done|]. unfold at_path. rewrite Hp. simpl. rewrite Hv. destruct v; simpl in *. congruence. }
  split_and!; [done| | |].
  - intros i j a b Hi Hj. apply Hown in Hi as [_ Hi], Hj as [_ Hj]. congruence.
  - intros i [info|e] Hr; by apply Hsettled in Hr as [? _].
  - intros i e Hr. by apply Hsettled in Hr as (_ & _ & ?).
Qed.

(** ** Concrete runs *)

Definition a_user : Z := 1000.
Definition lock_info : FileInfo :=
  {| fi_file := 0; fi_symlink := false; fi_dir := false; fi_socket := false; fi_regular := true; fi_perm := 384; fi_stat := Some a_user |}.
Definition parent_info : FileInfo :=
  {| fi_file := 0; fi_symlink := false; fi_dir := true; fi_socket := false; fi_regular := false; fi_perm := 448; fi_stat := Some a_user |}.

Definition info_of (n : nat) (v : inode) : FileInfo :=
  {| fi_file := n; fi_symlink := i_symlink v; fi_dir := false; fi_socket := i_socket v; fi_regular := false;
     fi_perm := i_perm v; fi_stat := Some (i_owner v) |}.

(** Every call does what it can do. *)
Definition obliging {X} (w : kernel) (e : sys_call X) : X :=
  match e with
  | Getuid => k_uid w
  | LstatParent => LstatInfo parent_info
  | LstatLock => LstatInfo lock_info
  | OpenLock => true
  | StatLock => Some lock_info
  | FlockLock => if k_lock w is Some _ then Some EWOULDBLOCK else None
  | LstatSocket =>
      match k_path w with
      | Some n => match k_inodes w !! n with Some v => LstatInfo (info_of n v) | None => LstatErr end
      | None => LstatNotExist
      end
  | DialSocket => if live_at_path w then None else Some (OpError ECONNREFUSED)
  | RemoveSocket => bool_decide (is_Some (k_path w))
  | ListenSocket => if k_path w is Some _ then ListenErr else Listening true
  | ChmodSocket => if at_path w is Some _ then true else false
  | Umask | FlockUnlock | CloseLock | CloseDialed | KeepOnClose | CloseListener => tt
  end.

Definition stale : inode := {| i_symlink := false; i_socket := true; i_perm := 384; i_owner := a_user; i_live := None |}.

(** A socket left behind by a server that is gone. *)
Definition stale_kernel : kernel := Kernel (Some 0%nat) {[0%nat := stale]} 1 None a_user.

Definition run_start (i : nat) (w : kernel) : option (kernel * result start_error FileInfo) :=
  world_run (@acts i) (@obliging) w start.

Example start_over_stale : (λ x, (snd x, k_path (fst x), k_lock (fst x))) <$> run_start 1 stale_kernel =
  Some (Ok (info_of 1 {| i_symlink := false; i_socket := true; i_perm := 384; i_owner := a_user; i_live := Some 1%nat |}), Some 1%nat, None).
Proof. vm_compute. reflexivity. Qed.

Example second_start : (run_start 1 stale_kernel ≫= λ x, snd <$> run_start 2 (fst x)) = Some (Fail ErrSocketInUse).
Proof. vm_compute. reflexivity. Qed.

(** Two servers start, one after the other, over the stale socket: the first
    has it, the second was turned away. *)
Lemma starts_are_exclusive_witness :
  ∃ s : servers, rtc server_step (starting stale_kernel {[1%nat; 2%nat]}) s ∧
    (λ v, i_live v) <$> at_path (sy_world s) = Some (Some 1%nat) ∧
    is_Some (sy_ended s !! 2%nat).
Proof.
  destruct (run_start 1 stale_kernel) as [[w1 r1]|] eqn:H1; [|by vm_compute in H1].
  destruct (run_start 2 w1) as [[w2 r2]|] eqn:H2; [|by vm_compute in H1; simplify_eq; vm_compute in H2].
  assert (∃ info, r1 = Ok info) as [info Hr1] by (vm_compute in H1; simplify_eq; by eexists).
  assert (rtc server_step (starting stale_kernel {[1%nat; 2%nat]})
    (System w2 (delete 2%nat (delete 1%nat (gset_to_gmap start {[1%nat; 2%nat]}))) (<[2%nat := r2]> (<[1%nat := r1]> ∅)))) as Hs.
  { etrans; (eapply halts_steps; [|by eapply run_all_halts]).
    - by apply lookup_gset_to_gmap_Some; split; [set_solver|].
    - rewrite lookup_delete_ne by done. by apply lookup_gset_to_gmap_Some; split; [set_solver|]. }
  eexists. split; [exact Hs|]. split; [|by eexists].
  refine (f_equal (fmap _) (proj2 (proj1 (starts_are_exclusive _ _ _ _ Hs) 1%nat info _))).
  - intros i _. split; [done|]. split; intros n v; cbn [stale_kernel k_inodes];
    intros [<- <-]%lookup_singleton_Some; [simpl; lia|done].
  - simpl. by rewrite Hr1.
Defined.

(** [shutdown] looks at the path and removes it without the start-up lock.
    Between the two calls another server can replace the stale socket by its
    own: it is then listening, and nobody can reach it. *)
Lemma shutdown_race :
  ∃ s : system sys_call kernel nat _ _ unit,
    rtc (system_step (@acts) dies)
      (System stale_kernel (<[0%nat := removeOwnSocket (info_of 0 stale)]> {[1%nat := _ ← start; Ret tt]}) ∅) s ∧
    sy_running s = ∅ ∧ k_path (sy_world s) = None ∧
    i_live <$> k_inodes (sy_world s) !! 1%nat = Some (Some 1%nat).
Proof.
  destruct (world_run (@acts 1) (@obliging) stale_kernel (_ ← start; Ret tt)) as [[w1 []]|] eqn:H1; [|by vm_compute in H1].
  pose proof H1 as Hr. apply run_all_halts in Hr.
  assert (k_path w1 = Some 1%nat ∧ i_live <$> k_inodes w1 !! 1%nat = Some (Some 1%nat)) as [Hp Hi]
    by (vm_compute in H1; injection H1 as <-; by vm_compute).
  eexists. split.
  - unfold removeOwnSocket. cbn [mbind prog_mbind prog_bind trigger].
    eapply rtc_l; [eapply (system_call (@acts) dies _ _ _ 0%nat _ LstatSocket _ (LstatInfo (info_of 0 stale)) stale_kernel); [apply lookup_insert_eq|by vm_compute]|].
    etrans; [eapply (halts_steps _ _ 1%nat); [by rewrite !lookup_insert_ne, lookup_singleton_eq by done|exact Hr]|].
    eapply rtc_l; [eapply (system_call (@acts) dies _ _ _ 0%nat _ RemoveSocket _ true (with_path w1 None))|].
    + rewrite lookup_delete_ne, lookup_insert_eq by done. reflexivity.
    + simpl. by rewrite Hp.
    + simpl. eapply rtc_l; [apply (system_ends (@acts) dies _ _ _ 0%nat tt); apply lookup_insert_eq|]. apply rtc_refl.
  - simpl. split; [|by split]. apply map_eq. intros i.
    rewrite lookup_empty. destruct (decide (i = 0%nat)) as [->|H0]; [apply lookup_delete_eq|].
    rewrite lookup_delete_ne, lookup_insert_ne by done. destruct (decide (i = 1%nat)) as [->|H2]; [apply lookup_delete_eq|].
    by rewrite lookup_delete_ne, !lookup_insert_ne, lookup_singleton_ne by done.
Qed.
