(* ===== verification/McpServer.v ===== *)
(** * The MCP server: [internal/mcpserver/server.go]

    The four tools an agent calls, as functions of the broker client they are
    given: what they ask of it, and what they answer.  The MCP library checks
    the input against its schema and writes the result; it is outside.  The
    results: a tool call is one call of the client; no answer holds an approval
    code; an error's text is one of eleven fixed ones; what is shown as an
    error is exactly what did not complete. *)

From S2P Require Import Prelude GoStr Prog Model BrokerClient.
Open Scope string_scope.
Open Scope list_scope.

(** ** The client *)

(** [BrokerClient], and the methods the tools look for with a type assertion;
    the programs are over the calls [E] the client makes. *)
Record McpClient (E : Type → Type) := {
  mc_Status : prog E (result client_error BrokerStatus);
  mc_ListServers : prog E (result client_error (option (list ServerSummary)));
  mc_Execute : ExecuteRequest → prog E (result client_error ExecuteResult);
  mc_ExecuteWait : option (ExecuteRequest → prog E (result client_error ExecuteResult));
  mc_ExecuteBatch : option (BatchExecuteRequest → prog E (result client_error BatchExecuteResult));
  mc_ExecuteBatchWait : option (BatchExecuteRequest → prog E (result client_error BatchExecuteResult)) }.
Arguments mc_Status {E}.
Arguments mc_ListServers {E}.
Arguments mc_Execute {E}.
Arguments mc_ExecuteWait {E}.
Arguments mc_ExecuteBatch {E}.
Arguments mc_ExecuteBatchWait {E}.

(** The client the application hands over has every method. *)
Definition broker_client (path : string) : McpClient BrokerClient.effect := {|
  mc_Status := Status (Some path) false;
  mc_ListServers := ListServers (Some path) false;
  mc_Execute := Execute (Some path) false;
  mc_ExecuteWait := Some (ExecuteWait (Some path) false);
  mc_ExecuteBatch := Some (ExecuteBatch (Some path) false);
  mc_ExecuteBatchWait := Some (ExecuteBatchWait (Some path) false) |}.

(** ** Data *)

Record executeInput := {
  in_server_alias : string;
  in_command : string;
  in_timeout_seconds : Z;
  in_max_output_bytes : Z }.

Record batchInput := {
  bi_server_aliases : list string;
  bi_all : bool;
  bi_command : string;
  bi_concurrency : Z;
  bi_timeout_seconds : Z;
  bi_max_output_bytes : Z }.

Record statusOutput := {
  so_daemon_reachable : bool;
  so_vault_locked : bool;
  so_version : string;
  so_policy_version : string;
  so_audit_fail_closed : bool }.

Record serverOutput := { sv_alias : string; sv_description : string; sv_available : bool }.
Record listOutput := { lo_servers : list serverOutput }.

Record errorOutput := { eo_code : ErrorCode; eo_message : string }.

Record approvalOutput := {
  ao_id : string;
  ao_code : string;
  ao_message : string;
  ao_expires_at : string }.

Record redactionOutput := { ro_applied : bool; ro_counts : gmap string Z }.

Record executeOutput := {
  xo_status : Model.Status;
  xo_stdout : string;
  xo_stderr : string;
  xo_exit_code : Z;
  xo_duration_ms : Z;
  xo_truncated : bool;
  xo_error : option errorOutput;
  xo_warnings : list (option errorOutput);
  xo_approval : option approvalOutput;
  xo_redactions : redactionOutput }.

(** [mcp.CallToolResult] with its one text. *)
Record CallToolResult := { tr_text : string; tr_is_error : bool }.

Definition textResult (message : string) (isError : bool) : CallToolResult :=
  {| tr_text := message; tr_is_error := isError |}.

(** ** Errors *)

Inductive target := IsCoded (e : CodedError) | IsCanceled | IsDeadlineExceeded.

(** [errors.Is] on the errors of the client: a coded error is one by its code,
    when the code is known. *)
Definition errors_is (err : client_error) (t : target) : bool :=
  match err, t with
  | Canonical e, IsCoded c =>
      bool_decide (is_Some (codedErrorForCode (ce_code e))) && String.eqb (ce_code e) (ce_code c)
  | Ctx Canceled, IsCanceled => true
  | Ctx DeadlineExceeded, IsDeadlineExceeded => true
  | _, _ => false
  end.

(** The text of the error a tool returns. *)
Definition safeBrokerError (err : client_error) : string :=
  if errors_is err (IsCoded ErrLockedVault) then "SSH broker is locked; start and unlock the daemon before retrying"
  else if errors_is err (IsCoded ErrUnavailableDaemon) then "SSH broker is unavailable; start and unlock the daemon before retrying"
  else if errors_is err IsCanceled then "SSH broker request was canceled"
  else if errors_is err IsDeadlineExceeded || errors_is err (IsCoded ErrTimeout) then "SSH broker request timed out"
  else if errors_is err (IsCoded ErrAuthentication) then "SSH authentication failed"
  else if errors_is err (IsCoded ErrConnection) then "SSH connection failed"
  else if errors_is err (IsCoded ErrHostKey) then "SSH host-key verification failed"
  else if errors_is err (IsCoded ErrApproval) then "SSH approval failed"
  else if errors_is err (IsCoded ErrAudit) then "SSH audit operation failed"
  else if errors_is err (IsCoded ErrValidation) then "SSH broker rejected the request"
  else "SSH broker request failed".

(** ** Results *)

Definition publicError (err : option CodedError) : option errorOutput :=
  (λ e, {| eo_code := ce_code e; eo_message := ce_message e |}) <$> err.

(** The copy of the approval leaves its code out. *)
Definition publicApproval (a : ApprovalInfo) : approvalOutput :=
  {| ao_id := ai_id a; ao_code := ""; ao_message := ai_message a; ao_expires_at := ai_expires_at a |}.

Definition publicExecuteOutput (r : ExecuteResult) : executeOutput := {|
  xo_status := res_status r; xo_stdout := res_stdout r; xo_stderr := res_stderr r;
  xo_exit_code := res_exit_code r; xo_duration_ms := res_duration_ms r; xo_truncated := res_truncated r;
  xo_error := publicError (res_error r);
  xo_warnings := publicError <$> res_warnings r;
  xo_approval := publicApproval <$> res_approval r;
  xo_redactions := {| ro_applied := rs_applied (res_redactions r); ro_counts := rs_counts (res_redactions r) |} |}.

(** The text and whether it is an error. *)
Definition execute_message (r : ExecuteResult) : string * bool :=
  if String.eqb (res_status r) StatusRequiresApproval then
    match res_approval r with
    | Some a =>
        if str_is_empty (ai_message a) then ("SSH command requires user approval, but approval details are unavailable.", true)
        else (ai_message a, false)
    | None => ("SSH command requires user approval, but approval details are unavailable.", true)
    end
  else if String.eqb (res_status r) StatusDenied then ("SSH command was denied by policy.", true)
  else if String.eqb (res_status r) StatusFailed then
    (match res_error r with
     | Some e => "SSH command failed: " +:+ ce_message e +:+ "."
     | None => "SSH command failed."
     end, true)
  else if String.eqb (res_status r) StatusCompleted then
    (match res_warnings r with
     | [] => "SSH command completed. See structured output for stdout and stderr."
     | _ => "SSH command completed with warnings. See structured output for details."
     end, false)
  else ("SSH broker returned an invalid execution status.", true).

Definition executeToolResult (r : ExecuteResult) : CallToolResult * executeOutput :=
  (textResult (fst (execute_message r)) (snd (execute_message r)), publicExecuteOutput r).

(** ** Tools *)

Section tools.
Context {E : Type → Type} (client : option (McpClient E)).

(** [if client == nil { return ..., safeBrokerError(broker.ErrUnavailable) }] *)
Definition with_client {A} (k : McpClient E → prog E (result string A)) : prog E (result string A) :=
  match client with None => Ret (Fail (safeBrokerError ErrUnavailable)) | Some c => k c end.

(** [if err != nil { return ..., safeBrokerError(err) }] *)
Definition answered {A B} (p : prog E (result client_error A)) (k : A → B) : prog E (result string B) :=
  r ← p; Ret (match r with Fail err => Fail (safeBrokerError err) | Ok a => Ok (k a) end).

Definition status_message (s : BrokerStatus) : string :=
  if bs_vault_locked s then "SSH broker is locked. Start and unlock the daemon before running SSH tools."
  else if negb (bs_daemon_reachable s) then "SSH broker is not reachable. Start the daemon before running SSH tools."
  else "SSH broker is ready.".

Definition statusTool : prog E (result string (CallToolResult * statusOutput)) :=
  with_client (λ c, answered (mc_Status c) (λ s,
    (textResult (status_message s) false,
     {| so_daemon_reachable := bs_daemon_reachable s; so_vault_locked := bs_vault_locked s;
        so_version := bs_version s; so_policy_version := bs_policy_version s;
        so_audit_fail_closed := bs_audit_fail_closed s |}))).

Definition listTool : prog E (result string (CallToolResult * listOutput)) :=
  with_client (λ c, answered (mc_ListServers c) (λ servers,
    let servers := default [] servers in
    (textResult ("Found " +:+ itoa (Z.of_nat (length servers)) +:+ " configured SSH server aliases.") false,
     {| lo_servers := (λ s, {| sv_alias := ss_alias s; sv_description := ss_description s; sv_available := ss_available s |})
                      <$> servers |}))).

Definition execute_request (i : executeInput) : ExecuteRequest := {|
  er_server_alias := in_server_alias i; er_command := in_command i;
  er_timeout_seconds := in_timeout_seconds i; er_max_output_bytes := in_max_output_bytes i |}.

Definition execute_call (c : McpClient E) (request : ExecuteRequest) : prog E (result client_error ExecuteResult) :=
  match mc_ExecuteWait c with Some wait => wait request | None => mc_Execute c request end.

Definition executeTool (input : executeInput) : prog E (result string (CallToolResult * executeOutput)) :=
  with_client (λ c, answered (execute_call c (execute_request input)) executeToolResult).

Definition batch_request (i : batchInput) : BatchExecuteRequest := {|
  br_server_aliases := bi_server_aliases i; br_all := bi_all i; br_command := bi_command i;
  br_concurrency := bi_concurrency i; br_timeout_seconds := bi_timeout_seconds i;
  br_max_output_bytes := bi_max_output_bytes i |}.

Definition batch_message (r : BatchExecuteResult) : string * bool :=
  if String.eqb (bres_status r) StatusRequiresApproval then ("Batch SSH command is waiting for local approval.", false)
  else if negb (String.eqb (bres_status r) StatusCompleted) then ("Batch SSH command failed.", true)
  else ("Batch SSH command completed.", false).

Definition batchTool (input : batchInput) : prog E (result string (CallToolResult * BatchExecuteResult)) :=
  with_client (λ c,
    match mc_ExecuteBatch c with
    | None => Ret (Fail (safeBrokerError ErrUnavailable))
    | Some execute =>
        let run := match mc_ExecuteBatchWait c with Some wait => wait | None => execute end in
        answered (run (batch_request input)) (λ r, (textResult (fst (batch_message r)) (snd (batch_message r)), r))
    end).
End tools.

(** ** What the agent can see *)

(** The result with another code in its approval. *)
Definition with_code (r : ExecuteResult) (code : string) : ExecuteResult := {|
  res_status := res_status r; res_stdout := res_stdout r; res_stderr := res_stderr r;
  res_exit_code := res_exit_code r; res_duration_ms := res_duration_ms r; res_truncated := res_truncated r;
  res_error := res_error r; res_warnings := res_warnings r;
  res_approval := (λ a, {| ai_id := ai_id a; ai_code := code; ai_message := ai_message a; ai_expires_at := ai_expires_at a |})
                  <$> res_approval r;
  res_redactions := res_redactions r |}.

(** The texts an error can have. *)
Definition error_texts : list string :=
  ["SSH broker is locked; start and unlock the daemon before retrying";
   "SSH broker is unavailable; start and unlock the daemon before retrying";
   "SSH broker request was canceled"; "SSH broker request timed out"; "SSH authentication failed";
   "SSH connection failed"; "SSH host-key verification failed"; "SSH approval failed";
   "SSH audit operation failed"; "SSH broker rejected the request"; "SSH broker request failed"].

Lemma safeBrokerError_fixed err : safeBrokerError err ∈ error_texts.
Proof. unfold safeBrokerError, error_texts. repeat case_match; set_solver. Qed.

(** A result that is not an error: completed, or held with a message. *)
Definition succeeded (r : ExecuteResult) : Prop :=
  res_status r = StatusCompleted ∨
  (res_status r = StatusRequiresApproval ∧ ∃ a, res_approval r = Some a ∧ ai_message a ≠ "").

Lemma message_is_error r : snd (execute_message r) = false ↔ succeeded r.
Proof.
  unfold execute_message, succeeded, StatusRequiresApproval, StatusDenied, StatusFailed, StatusCompleted.
  destruct (String.eqb_spec (res_status r) "requires_approval") as [->|H1].
  - destruct (res_approval r) as [a|].
    + destruct (ai_message a) as [|c m] eqn:Hm; cbn [str_is_empty snd].
      * split; [done|]. intros [?|(_ & a' & [= <-] & Hne)]; done.
      * split; [|done]. intros _. right. split; [done|]. exists a. by rewrite Hm.
    + split; [done|]. by intros [?|(_ & a & ? & _)].
  - destruct (String.eqb_spec (res_status r) "denied") as [->|H2]; [by naive_solver|].
    destruct (String.eqb_spec (res_status r) "failed") as [->|H3]; [by naive_solver|].
    destruct (String.eqb_spec (res_status r) "completed") as [->|H4]; simpl; naive_solver.
Qed.

Lemma tool_result_code_free r code : executeToolResult (with_code r code) = executeToolResult r.
Proof.
  unfold executeToolResult, publicExecuteOutput, execute_message, with_code. cbn.
  destruct (res_approval r) as [a|]; reflexivity.
Qed.

Lemma runs_answered {E A B} (p : prog E (result client_error A)) (k : A → B) tr out :
  runs (answered p k) tr out →
  ∃ r, runs p tr r ∧ out = match r with Fail err => Fail (safeBrokerError err) | Ok a => Ok (k a) end.
Proof.
  intros (t1 & t2 & r & -> & Hr & [-> ->])%runs_bind. exists r. by rewrite app_nil_r.
Qed.

(** C29: Executing a command for an agent makes the calls of one call of the client,
    the one that waits when there is one, with the input as it came.  An error
    has one of eleven fixed texts, whatever the broker said.  A result shows
    nothing of an approval code: another code gives the same answer, and the
    field is empty; it is marked as an error exactly when the command neither
    completed nor is held for an approval the user can find. *)
Theorem execute_tool_safe {E} (c : McpClient E) input tr out :
  runs (executeTool (Some c) input) tr out →
  ∃ r, runs (execute_call c (execute_request input)) tr r ∧
    match r, out with
    | Fail err, Fail t => t = safeBrokerError err ∧ t ∈ error_texts
    | Ok res, Ok (shown, output) =>
        (∀ code, executeToolResult (with_code res code) = (shown, output)) ∧
        (∀ a, xo_approval output = Some a → ao_code a = "") ∧
        (tr_is_error shown = false ↔ succeeded res) ∧
        xo_stdout output = res_stdout res ∧ xo_stderr output = res_stderr res
    | _, _ => False
    end.
Proof.
  intros (r & Hr & ->)%runs_answered. exists r. split; [done|]. destruct r as [res|err].
  - destruct (executeToolResult res) as [shown output] eqn:He. split; [intros code; by rewrite tool_result_code_free|].
    unfold executeToolResult in He. injection He as <- <-. cbn. split; [|split; [apply message_is_error|done]].
    intros a. destruct (res_approval res) as [b|]; [|done]. by intros [= <-].
  - split; [done|apply safeBrokerError_fixed].
Qed.

(** A client that answers with one held command. *)
Inductive sample_effect : Type → Type := SampleCall : sample_effect ExecuteResult.

Definition held_result : ExecuteResult := {|
  res_status := StatusRequiresApproval; res_stdout := ""; res_stderr := ""; res_exit_code := 0; res_duration_ms := 0;
  res_truncated := false; res_error := None; res_warnings := [];
  res_approval := Some {| ai_id := "a1"; ai_code := "123456"; ai_message := "local approval required"; ai_expires_at := "t" |};
  res_redactions := {| rs_applied := false; rs_counts := ∅ |} |}.

Definition sample_client : McpClient sample_effect := {|
  mc_Status := Ret (Fail ErrUnavailable); mc_ListServers := Ret (Ok None);
  mc_Execute := λ _, r ← trigger SampleCall; Ret (Ok r); mc_ExecuteWait := None;
  mc_ExecuteBatch := None; mc_ExecuteBatchWait := None |}.

Definition sample_input : executeInput :=
  {| in_server_alias := "web"; in_command := "reboot"; in_timeout_seconds := 0; in_max_output_bytes := 0 |}.

Lemma execute_tool_safe_witness :
  ∃ r, runs (execute_call sample_client (execute_request sample_input)) [IO SampleCall held_result] r ∧
    ∃ res, r = Ok res ∧ ∀ code, executeToolResult (with_code res code) = executeToolResult held_result.
Proof.
  destruct (execute_tool_safe sample_client sample_input [IO SampleCall held_result] (Ok (executeToolResult held_result)))
    as (r & Hr & Hout).
  - exists held_result, []. split; [reflexivity|split; reflexivity].
  - exists r. split; [exact Hr|]. destruct r as [res|err]; [|destruct Hout].
    exists res. split; [reflexivity|]. exact (proj1 Hout).
Defined.
