(* ===== verification/AnalyzerRules.v ===== *)
(** * Risk rules: [internal/policy/analyzer_findings.go], [analyzer_rules.go]
    and the data types of [analyzer.go]

    The classification of one call's static arguments and of one static path. *)

From S2P Require Import Prelude GoStr Utf8.
From Stdlib Require Import Ascii.
Open Scope string_scope.
Open Scope list_scope.

(** ** Categories, findings and labels *)

Definition Category := string.
Definition SSHSecret : Category := "ssh_secret".
Definition CloudCredential : Category := "cloud_credential".
Definition ProcessEnvironment : Category := "process_environment".
Definition DatabaseCredential : Category := "database_credential".
Definition KubernetesSecret : Category := "kubernetes_secret".
Definition PrivateKey : Category := "private_key".
Definition NetworkIdentity : Category := "network_identity".

Definition allCategories : list Category :=
  [SSHSecret; CloudCredential; ProcessEnvironment; DatabaseCredential; KubernetesSecret;
   PrivateKey; NetworkIdentity].

Record Finding := { f_category : Category; f_rule : string; f_evidence : string }.

#[export] Instance Finding_eq_dec : EqDecision Finding.
Proof. solve_decision. Defined.

Record Analysis := { an_categories : list Category; an_findings : list Finding }.

Record staticArg := { sa_value : string; sa_known : bool }.

Record findingLabel := { fl_rule : string; fl_evidence : string }.

#[export] Instance findingLabel_eq_dec : EqDecision findingLabel.
Proof. solve_decision. Defined.

Definition ruleApplicationCredentialPath := "application_credential_path".
Definition evidenceApplicationCredential := "application credential path".
Definition ruleCloudCredentialPath := "cloud_credential_path".
Definition evidenceCloudCredentialPath := "cloud credential path".
Definition ruleCloudEnvironment := "cloud_environment".
Definition evidenceCloudEnvironment := "cloud credential environment".
Definition ruleDatabaseCredentialPath := "database_credential_path".
Definition evidenceDatabaseCredential := "database credential path".
Definition ruleEnvironmentCommand := "environment_command".
Definition evidenceEnvironmentCommand := "environment listing command".
Definition ruleKubernetesSensitivePath := "kubernetes_sensitive_path".
Definition evidenceKubernetesPath := "kubernetes sensitive path".
Definition ruleNetworkCommand := "network_command".
Definition evidenceNetworkCommand := "network identity command".
Definition ruleNetworkIdentityPath := "network_identity_path".
Definition evidenceNetworkIdentityPath := "network identity path".
Definition rulePrivateKeyInput := "private_key_input".
Definition evidencePrivateKeyInput := "private key input".
Definition rulePrivateKeyPath := "private_key_path".
Definition evidencePrivateKeyPath := "private key path".
Definition ruleProcessEnvironmentPath := "process_environment_path".
Definition evidenceProcessEnvironment := "process environment path".
Definition rulePublicIPLookup := "public_ip_lookup".
Definition evidencePublicIPLookup := "public IP lookup command".
Definition ruleSSHSensitivePath := "ssh_sensitive_path".
Definition evidenceSSHPath := "ssh sensitive path".

Definition labelApplicationCredentialPath :=
  {| fl_rule := ruleApplicationCredentialPath; fl_evidence := evidenceApplicationCredential |}.
Definition labelCloudCredentialPath :=
  {| fl_rule := ruleCloudCredentialPath; fl_evidence := evidenceCloudCredentialPath |}.
Definition labelCloudEnvironment :=
  {| fl_rule := ruleCloudEnvironment; fl_evidence := evidenceCloudEnvironment |}.
Definition labelDatabaseCredentialPath :=
  {| fl_rule := ruleDatabaseCredentialPath; fl_evidence := evidenceDatabaseCredential |}.
Definition labelEnvironmentCommand :=
  {| fl_rule := ruleEnvironmentCommand; fl_evidence := evidenceEnvironmentCommand |}.
Definition labelKubernetesSensitivePath :=
  {| fl_rule := ruleKubernetesSensitivePath; fl_evidence := evidenceKubernetesPath |}.
Definition labelNetworkCommand :=
  {| fl_rule := ruleNetworkCommand; fl_evidence := evidenceNetworkCommand |}.
Definition labelNetworkIdentityPath :=
  {| fl_rule := ruleNetworkIdentityPath; fl_evidence := evidenceNetworkIdentityPath |}.
Definition labelPrivateKeyInput :=
  {| fl_rule := rulePrivateKeyInput; fl_evidence := evidencePrivateKeyInput |}.
Definition labelPrivateKeyPath :=
  {| fl_rule := rulePrivateKeyPath; fl_evidence := evidencePrivateKeyPath |}.
Definition labelProcessEnvironmentPath :=
  {| fl_rule := ruleProcessEnvironmentPath; fl_evidence := evidenceProcessEnvironment |}.
Definition labelPublicIPLookup :=
  {| fl_rule := rulePublicIPLookup; fl_evidence := evidencePublicIPLookup |}.
Definition labelSSHSensitivePath :=
  {| fl_rule := ruleSSHSensitivePath; fl_evidence := evidenceSSHPath |}.

Definition allFindingLabels : list findingLabel :=
  [ labelApplicationCredentialPath; labelCloudCredentialPath; labelCloudEnvironment;
    labelDatabaseCredentialPath; labelEnvironmentCommand; labelKubernetesSensitivePath;
    labelNetworkCommand; labelNetworkIdentityPath; labelPrivateKeyInput; labelPrivateKeyPath;
    labelProcessEnvironmentPath; labelPublicIPLookup; labelSSHSensitivePath ].

Definition labeledFinding (category : Category) (label : findingLabel) : Finding :=
  {| f_category := category; f_rule := fl_rule label; f_evidence := fl_evidence label |}.

(** ** Names and assignments *)

Definition is_lower_alpha (r : Z) : bool := in_range 97 122 r.
Definition is_upper_alpha (r : Z) : bool := in_range 65 90 r.
Definition is_digit_rune (r : Z) : bool := in_range 48 57 r.

Fixpoint environmentNameRunes (first : bool) (l : list Z) : bool :=
  match l with
  | [] => true
  | char :: l' =>
      (Z.eqb char 95 || is_lower_alpha char || is_upper_alpha char
       || (negb first && is_digit_rune char))
      && environmentNameRunes false l'
  end.

Definition isEnvironmentName (value : string) : bool :=
  if str_is_empty value then false else environmentNameRunes true (rune_values value).

Definition isEnvironmentAssignment (value : string) : bool :=
  match index_byte value "=" with
  | None | Some O => false
  | Some equals => isEnvironmentName (str_take equals value)
  end.

Fixpoint isEnvironmentListing (args : list staticArg) : bool :=
  match args with
  | [] => true
  | arg :: rest =>
      if negb (sa_known arg) then false
      else
        let v := sa_value arg in
        if String.eqb v "-0" || String.eqb v "-i" || String.eqb v "--ignore-environment"
        then isEnvironmentListing rest
        else if String.eqb v "--" then match rest with [] => true | _ => false end
        else if String.eqb v "-u" || String.eqb v "--unset" then
          match rest with
          | [] => false
          | next :: rest' =>
              if negb (sa_known next) || negb (isEnvironmentName (sa_value next)) then false
              else isEnvironmentListing rest'
          end
        else if has_prefix v "--unset=" then
          if negb (isEnvironmentName (trim_prefix v "--unset=")) then false
          else isEnvironmentListing rest
        else if isEnvironmentAssignment v then isEnvironmentListing rest
        else false
  end.

(** ** Paths *)

Definition isApplicationCredentialPath (path : string) : bool :=
  let base := path_base path in
  if String.eqb base ".git-credentials" || String.eqb base ".netrc"
     || String.eqb base ".npmrc" || String.eqb base ".pypirc"
  then true
  else
    String.eqb path "~/.docker/config.json" || has_suffix path "/.docker/config.json"
    || String.eqb path "~/.config/gh/hosts.yml" || has_suffix path "/.config/gh/hosts.yml"
    || String.eqb path "~/.cargo/credentials" || has_suffix path "/.cargo/credentials"
    || String.eqb path "~/.cargo/credentials.toml" || has_suffix path "/.cargo/credentials.toml"
    || String.eqb path "~/.config/git/credentials" || has_suffix path "/.config/git/credentials".

Definition isSSHPath (path : string) : bool :=
  let base := path_base path in
  if String.eqb base "authorized_keys" || String.eqb base "known_hosts" then true
  else if String.eqb path "~/.ssh" || has_prefix path "~/.ssh/"
          || str_contains path "/.ssh/" || has_suffix path "/.ssh" then true
  else if has_prefix path "/etc/ssh/" then
    if has_prefix path "/etc/ssh/ssh_config.d/" || has_prefix path "/etc/ssh/sshd_config.d/"
    then has_suffix path ".conf"
    else
      String.eqb base "ssh_config" || String.eqb base "sshd_config"
      || (has_prefix base "ssh_host_" && negb (has_suffix base ".pub"))
      || (String.eqb base "id_rsa" || String.eqb base "id_dsa"
          || String.eqb base "id_ecdsa" || String.eqb base "id_ed25519")
  else false.

Definition isCloudPath (path : string) : bool :=
  String.eqb path "~/.aws" || has_prefix path "~/.aws/"
  || has_suffix path "/.aws" || str_contains path "/.aws/"
  || String.eqb path "~/.config/gcloud" || has_prefix path "~/.config/gcloud/"
  || str_contains path "/.config/gcloud/" || has_suffix path "/.config/gcloud"
  || String.eqb path "~/.azure" || has_prefix path "~/.azure/"
  || str_contains path "/.azure/" || has_suffix path "/.azure".

Definition isProcessEnvironmentPath (path : string) : bool :=
  has_prefix path "/proc/" && has_suffix path "/environ".

(** [strings.NewReplacer("-", "_", ".", "_").Replace] *)
Fixpoint underscore_dashes_dots (s : string) : string :=
  match s with
  | "" => ""
  | String a s' =>
      String (if Ascii.eqb a "-" || Ascii.eqb a "." then "_"%char else a) (underscore_dashes_dots s')
  end.

Definition isDatabasePath (path : string) : bool :=
  let base := path_base path in
  if String.eqb base ".pgpass" || String.eqb base ".my.cnf" then true
  else
    let compact := underscore_dashes_dots base in
    str_contains compact "database_credential" || str_contains compact "db_credential".

Definition isKubernetesPath (path : string) : bool :=
  String.eqb path "~/.kube/config" || has_suffix path "/.kube/config"
  || String.eqb path "/etc/kubernetes" || has_prefix path "/etc/kubernetes/"
  || String.eqb path "/var/run/secrets/kubernetes.io/serviceaccount"
  || has_prefix path "/var/run/secrets/kubernetes.io/serviceaccount/".

Definition isNetworkPath (path : string) : bool :=
  String.eqb path "/proc/net" || has_prefix path "/proc/net/"
  || String.eqb path "/etc/hosts" || String.eqb path "/etc/resolv.conf".

Definition isPrivateKeyPath (path : string) : bool :=
  let base := path_base path in
  has_suffix base ".key"
  || (has_suffix base ".pem"
      && (str_contains base "private" || str_contains base "private-key"
          || str_contains path "/private/")).

Definition classifyPath (value : string) : list Finding :=
  let normalized := to_lower (trim_suffix value "/") in
  if isSSHPath normalized then [labeledFinding SSHSecret labelSSHSensitivePath]
  else if isApplicationCredentialPath normalized
  then [labeledFinding CloudCredential labelApplicationCredentialPath]
  else if isCloudPath normalized then [labeledFinding CloudCredential labelCloudCredentialPath]
  else if isProcessEnvironmentPath normalized
  then [labeledFinding ProcessEnvironment labelProcessEnvironmentPath]
  else if isDatabasePath normalized
  then [labeledFinding DatabaseCredential labelDatabaseCredentialPath]
  else if isKubernetesPath normalized
  then [labeledFinding KubernetesSecret labelKubernetesSensitivePath]
  else if isNetworkPath normalized
  then [labeledFinding NetworkIdentity labelNetworkIdentityPath]
  else if isPrivateKeyPath normalized then [labeledFinding PrivateKey labelPrivateKeyPath]
  else [].

(** ** Calls *)

Definition isCloudEnvironment (name : string) : bool :=
  let upper := to_upper name in
  (has_prefix upper "AWS_"
   && (str_contains upper "KEY" || str_contains upper "TOKEN" || str_contains upper "CREDENTIAL"))
  || String.eqb upper "GOOGLE_APPLICATION_CREDENTIALS"
  || (has_prefix upper "AZURE_"
      && (str_contains upper "SECRET" || str_contains upper "TOKEN"
          || str_contains upper "CREDENTIAL")).

Definition containsCloudEnvironment (args : list staticArg) : bool :=
  existsb (λ arg, sa_known arg && isCloudEnvironment (sa_value arg)) args.

(** The second loop: the first [-in] followed by a known value decides. *)
Fixpoint opensslInputIsPrivate (args : list staticArg) : bool :=
  match args with
  | a :: ((b :: _) as rest) =>
      if negb (sa_known a) || negb (String.eqb (sa_value a) "-in") || negb (sa_known b)
      then opensslInputIsPrivate rest
      else
        let path := to_lower (sa_value b) in
        let base := path_base path in
        isPrivateKeyPath path || (has_suffix base ".pem" && str_contains path "/private/")
  | _ => false
  end.

Definition isOpenSSLPrivateKeyInput (args : list staticArg) : bool :=
  let privateSubcommand :=
    existsb (λ arg, sa_known arg &&
      (String.eqb (sa_value arg) "pkey" || String.eqb (sa_value arg) "rsa"
       || String.eqb (sa_value arg) "ec" || String.eqb (sa_value arg) "dsa"
       || String.eqb (sa_value arg) "pkcs8")) args in
  if negb privateSubcommand then false else opensslInputIsPrivate args.

Fixpoint containsIPSubcommand (args : list staticArg) : bool :=
  match args with
  | [] => false
  | arg :: rest =>
      if negb (sa_known arg) then false
      else if has_prefix (sa_value arg) "-" then containsIPSubcommand rest
      else
        let v := sa_value arg in
        String.eqb v "addr" || String.eqb v "address" || String.eqb v "route"
        || String.eqb v "link" || String.eqb v "neigh" || String.eqb v "neighbor"
  end.

Definition containsWord (args : list staticArg) (target : string) : bool :=
  existsb (λ arg, sa_known arg && String.eqb (sa_value arg) target) args.

Definition isPublicIPLookup (command : string) (args : list staticArg) : bool :=
  if negb (String.eqb command "curl") && negb (String.eqb command "wget")
     && negb (String.eqb command "dig") && negb (String.eqb command "host")
  then false
  else
    existsb (λ arg, sa_known arg &&
      let lower := to_lower (sa_value arg) in
      (str_contains lower "api.ipify.org" || str_contains lower "ifconfig.me"
       || str_contains lower "icanhazip.com" || str_contains lower "checkip.amazonaws.com"
       || str_contains lower "myip.opendns.com")) args.

Definition classifyCall (args : list staticArg) : list Finding :=
  match args with
  | [] => []
  | arg0 :: commandArgs =>
      if negb (sa_known arg0) then []
      else
        let command := path_base (sa_value arg0) in
        (if String.eqb command "openssl" && isOpenSSLPrivateKeyInput commandArgs
         then [labeledFinding PrivateKey labelPrivateKeyInput] else [])
        ++
        (if String.eqb command "env" && isEnvironmentListing commandArgs
         then [labeledFinding ProcessEnvironment labelEnvironmentCommand]
         else if String.eqb command "printenv"
         then [labeledFinding ProcessEnvironment labelEnvironmentCommand]
              ++ (if containsCloudEnvironment commandArgs
                  then [labeledFinding CloudCredential labelCloudEnvironment] else [])
         else if String.eqb command "set" && (match commandArgs with [] => true | _ => false end)
         then [labeledFinding ProcessEnvironment labelEnvironmentCommand]
         else if String.eqb command "ip" && containsIPSubcommand commandArgs
         then [labeledFinding NetworkIdentity labelNetworkCommand]
         else if String.eqb command "ifconfig" || String.eqb command "ss"
                 || String.eqb command "netstat" || String.eqb command "route"
         then [labeledFinding NetworkIdentity labelNetworkCommand]
         else if String.eqb command "hostname" && containsWord commandArgs "-I"
         then [labeledFinding NetworkIdentity labelNetworkCommand]
         else if isPublicIPLookup command commandArgs
         then [labeledFinding NetworkIdentity labelPublicIPLookup]
         else [])
  end.

(** ** The rules report only fixed labels *)

(** The findings any rule can report: a category with one of its labels. *)
Definition knownFindings : list Finding :=
  [ labeledFinding SSHSecret labelSSHSensitivePath;
    labeledFinding CloudCredential labelApplicationCredentialPath;
    labeledFinding CloudCredential labelCloudCredentialPath;
    labeledFinding CloudCredential labelCloudEnvironment;
    labeledFinding ProcessEnvironment labelProcessEnvironmentPath;
    labeledFinding ProcessEnvironment labelEnvironmentCommand;
    labeledFinding DatabaseCredential labelDatabaseCredentialPath;
    labeledFinding KubernetesSecret labelKubernetesSensitivePath;
    labeledFinding NetworkIdentity labelNetworkIdentityPath;
    labeledFinding NetworkIdentity labelNetworkCommand;
    labeledFinding NetworkIdentity labelPublicIPLookup;
    labeledFinding PrivateKey labelPrivateKeyPath;
    labeledFinding PrivateKey labelPrivateKeyInput ].

Lemma knownFindings_labelled f :
  f ∈ knownFindings →
  f_category f ∈ allCategories ∧
  ∃ l, l ∈ allFindingLabels ∧ f = labeledFinding (f_category f) l.
Proof.
  intros Hf. assert (forallb (λ f, bool_decide (f_category f ∈ allCategories ∧
      Exists (λ l, f = labeledFinding (f_category f) l) allFindingLabels)) knownFindings = true)
    as Hall by by vm_compute.
  rewrite forallb_forall in Hall. specialize (Hall f).
  rewrite <-list_elem_of_In, bool_decide_eq_true in Hall.
  destruct (Hall Hf) as [? He]. split; [done|]. by apply Exists_exists in He.
Qed.

(** Membership of a branch of the rule tables, decided by computation. *)
Ltac known_finding :=
  repeat case_match;
  repeat match goal with
  | H : _ ∈ [] |- _ => by apply not_elem_of_nil in H
  | H : _ ∈ _ ++ _ |- _ => apply elem_of_app in H as [H|H]
  | H : _ ∈ [_] |- _ => apply list_elem_of_singleton in H as ->
  end;
  try (refine (bool_decide_eq_true_1 _ _); vm_compute; reflexivity).

Lemma classifyPath_known value f : f ∈ classifyPath value → f ∈ knownFindings.
Proof. unfold classifyPath. intros. known_finding. Qed.

Lemma classifyCall_known args f : f ∈ classifyCall args → f ∈ knownFindings.
Proof. unfold classifyCall. intros. known_finding. Qed.

(** A path is sensitive whatever its case and with or without one trailing
    slash: the slash and case are dropped before the rules run. *)
Lemma classifyPath_trailing_slash value :
  has_suffix value "/" = false → classifyPath (value +:+ "/") = classifyPath value.
Proof.
  intros Hs. unfold classifyPath. by rewrite trim_suffix_app, trim_suffix_none.
Qed.

#[export] Hint Resolve classifyPath_known classifyCall_known : aegis.
