(* ===== verification/Analyzer.v ===== *)
(** * Command analyzer: [internal/policy/analyzer.go] and [analyzer_shell.go]

    The shell parser is the third-party package [mvdan.cc/sh/v3/syntax].  The
    model takes it as a parameter [parse]: a command gives a file, seen as its
    number of statements and the nodes [syntax.Walk] visits, in visiting order
    (the callback always returns [true], so every node is visited).  The node
    types below are the fields of the package's syntax tree that the analyzer
    reads; a word carries an identity because the walk compares word pointers. *)

From S2P Require Import Prelude GoStr Utf8 AnalyzerRules.
From Stdlib Require Import Ascii.
Open Scope string_scope.
Open Scope list_scope.

(** ** The syntax tree, as far as the analyzer reads it *)

Record ParamExp := {
  pe_param : option string;        (* Param.Value; None for a nil Param *)
  pe_flags : bool;                 (* Flags != nil *)
  pe_excl : bool; pe_length : bool; pe_width : bool; pe_is_set : bool;
  pe_nested_param : bool;          (* != nil *)
  pe_index : bool;                 (* != nil *)
  pe_modifiers : nat;              (* len(Modifiers) *)
  pe_slice : bool;                 (* != nil *)
  pe_repl : bool;                  (* != nil *)
  pe_names : Z;
  pe_exp : bool }.                 (* != nil *)

Inductive WordPart :=
| Lit (value : string)
| SglQuoted (value : string)
| DblQuoted (parts : list WordPart)
| ParamExpPart (p : ParamExp)
| OtherPart.

Record Word := { w_id : nat; w_parts : list WordPart }.

Inductive Node :=
| CallExpr (args : list Word)
| WordNode (w : Word)
| DeclClause (variant : string) (args : list (option Word))  (* Assign.Value *)
| ParamExpNode (p : ParamExp)
| OtherNode.

Record File := { file_stmts : nat; file_walk : list Node }.

(** ** Static words *)

Definition simpleParameterName (param : ParamExp) : option string :=
  match pe_param param with
  | None => None
  | Some value =>
      if pe_flags param || pe_excl param || pe_length param || pe_width param || pe_is_set param
         || pe_nested_param param || pe_index param || negb (Nat.eqb (pe_modifiers param) 0)
         || pe_slice param || pe_repl param || negb (Z.eqb (pe_names param) 0) || pe_exp param
      then None
      else Some value
  end.

(** [None] is the [false] result, after which the builder's value is unused. *)
Fixpoint writeStaticPart (value : string) (part : WordPart) : option string :=
  match part with
  | Lit v | SglQuoted v => Some (value +:+ v)
  | DblQuoted parts =>
      (fix loop (value : string) (parts : list WordPart) : option string :=
         match parts with
         | [] => Some value
         | nested :: rest =>
             match writeStaticPart value nested with
             | Some value' => loop value' rest
             | None => None
             end
         end) value parts
  | ParamExpPart p =>
      match simpleParameterName p with
      | Some name => if String.eqb name "HOME" then Some (value +:+ "~") else None
      | None => None
      end
  | OtherPart => None
  end.

Fixpoint staticWord_from (value : string) (parts : list WordPart) : option string :=
  match parts with
  | [] => Some value
  | part :: rest =>
      match writeStaticPart value part with
      | Some value' => staticWord_from value' rest
      | None => None
      end
  end.

Definition staticWord (word : Word) : option string := staticWord_from "" (w_parts word).

Definition makeStaticArgs (words : list Word) : list staticArg :=
  (λ word, match staticWord word with
           | Some v => {| sa_value := v; sa_known := true |}
           | None => {| sa_value := ""; sa_known := false |}
           end) <$> words.

Definition declHasOption (args : list (option Word)) (option_ : string) : bool :=
  existsb (λ arg, match arg with
                  | None => false
                  | Some w => match staticWord w with
                              | Some value => String.eqb value option_
                              | None => false
                              end
                  end) args.

(** ** Shell invocations *)

Record shellInvocation := {
  si_commandStringIndex : Z;
  si_commandString : string;
  si_commandStringKnown : bool;
  si_positionalStart : nat }.

Record shellOptionSpec := {
  so_shortOptions : string;
  so_clusterValueOptions : string;
  so_valueOptions : gset string;
  so_attachedNamedOptions : gset string;
  so_flagOptions : gset string;
  so_prefixOptions : list string;
  so_allowPlusShort : bool }.

Definition stringSet (values : list string) : gset string := list_to_set values.

Definition bashOptionSpec : shellOptionSpec := {|
  so_shortOptions := "abefhkmnptuvxBCEHPTDilsr";
  so_clusterValueOptions := "oO";
  so_valueOptions := stringSet ["-O"; "-o"; "+O"; "+o"; "--rcfile"; "--init-file"];
  so_attachedNamedOptions := ∅;
  so_flagOptions := stringSet ["--noprofile"; "--norc"; "--posix"; "--restricted"; "--verbose";
                               "--debugger"; "--noediting"; "--login"];
  so_prefixOptions := ["--rcfile="; "--init-file="];
  so_allowPlusShort := true |}.

Definition posixShellOptionSpec : shellOptionSpec := {|
  so_shortOptions := "abefkmnptuvxilsr";
  so_clusterValueOptions := "o";
  so_valueOptions := stringSet ["-o"; "+o"];
  so_attachedNamedOptions := ∅;
  so_flagOptions := ∅;
  so_prefixOptions := [];
  so_allowPlusShort := true |}.

Definition zshOptionSpec : shellOptionSpec := {|
  so_shortOptions := "abefhkmnptuvxDilsrdy";
  so_clusterValueOptions := "o";
  so_valueOptions := stringSet ["-o"; "+o"];
  so_attachedNamedOptions := stringSet ["norcs"; "rcs"; "noglobalrcs"; "globalrcs";
                                        "norcexpandparam"; "rcexpandparam"];
  so_flagOptions := stringSet ["--no-rcs"; "--no-globalrcs"; "--rcs"; "--globalrcs";
                               "--no-rcexpandparam"; "--rcexpandparam"];
  so_prefixOptions := [];
  so_allowPlusShort := true |}.

(** [strings.ContainsRune] *)
Definition contains_rune (s : string) (r : Z) : bool := existsb (Z.eqb r) (rune_values s).

Record clusterResult := { cl_hasCommandString : bool; cl_consumesValue : bool; cl_valid : bool }.

Fixpoint parseCluster_loop (options : list Z) (supported valueOptions : string)
    (hasCommandString consumesValue nonempty : bool) : clusterResult :=
  match options with
  | [] => {| cl_hasCommandString := hasCommandString; cl_consumesValue := consumesValue;
             cl_valid := nonempty |}
  | option_ :: rest =>
      if contains_rune valueOptions option_
      then parseCluster_loop rest supported valueOptions hasCommandString true nonempty
      else if Z.eqb option_ 99
      then parseCluster_loop rest supported valueOptions true consumesValue nonempty
      else if negb (contains_rune supported option_)
      then {| cl_hasCommandString := false; cl_consumesValue := false; cl_valid := false |}
      else parseCluster_loop rest supported valueOptions hasCommandString consumesValue nonempty
  end.

Definition parseShortOptionCluster (cluster supported valueOptions : string) : clusterResult :=
  parseCluster_loop (rune_values cluster) supported valueOptions false false
    (negb (str_is_empty cluster)).

(** [(matched, valid)] *)
Definition parseAttachedNamedOption (option_ : string) (supported : gset string) : bool * bool :=
  if Nat.eqb (size supported) 0 || (slen option_ <=? 2)%Z
     || (negb (String.eqb (str_take 2 option_) "-o") && negb (String.eqb (str_take 2 option_) "+o"))
  then (false, false)
  else (true, bool_decide (str_drop 2 option_ ∈ supported)).

Definition hasOptionPrefix (option_ : string) (prefixes : list string) : bool :=
  existsb (λ prefix, has_prefix option_ prefix) prefixes.

(** The loop from index [i], with [rest] the words from there on and [n] their
    total number. *)
Fixpoint parseShellOptions_loop (n : nat) (spec : shellOptionSpec) (i : nat) (rest : list Word)
  : shellInvocation :=
  let stop start :=
    {| si_commandStringIndex := -1; si_commandString := ""; si_commandStringKnown := false;
       si_positionalStart := start |} in
  match rest with
  | [] => stop n
  | w :: rest1 =>
    match staticWord w with
    | None => stop i
    | Some option_ =>
      if String.eqb option_ "--" then stop (Nat.min (i + 2) n)
      else if bool_decide (option_ ∈ so_valueOptions spec) then
        match rest1 with
        | [] => stop n
        | _ :: rest2 => parseShellOptions_loop n spec (i + 2) rest2
        end
      else
        let (matched, valid) := parseAttachedNamedOption option_ (so_attachedNamedOptions spec) in
        if matched then
          if negb valid then stop i else parseShellOptions_loop n spec (i + 1) rest1
        else if bool_decide (option_ ∈ so_flagOptions spec)
        then parseShellOptions_loop n spec (i + 1) rest1
        else if hasOptionPrefix option_ (so_prefixOptions spec)
        then parseShellOptions_loop n spec (i + 1) rest1
        else if (slen option_ <? 2)%Z
                || (negb (Z.eqb (byte_at option_ 0) 45)
                    && (negb (so_allowPlusShort spec) || negb (Z.eqb (byte_at option_ 0) 43)))
        then stop (i + 1)%nat
        else
          let c := parseShortOptionCluster (str_drop 1 option_) (so_shortOptions spec)
                     (so_clusterValueOptions spec) in
          if negb (cl_valid c) then stop i
          else if cl_consumesValue c then
            match rest1 with
            | [] => stop n
            | _ :: rest2 =>
                if cl_hasCommandString c then
                  match rest2 with
                  | [] => stop n
                  | s :: _ =>
                      {| si_commandStringIndex := Z.of_nat i + 2;
                         si_commandString := default "" (staticWord s);
                         si_commandStringKnown := bool_decide (is_Some (staticWord s));
                         si_positionalStart := i + 2 |}
                  end
                else parseShellOptions_loop n spec (i + 2) rest2
            end
          else if cl_hasCommandString c then
            match rest1 with
            | [] => stop n
            | s :: _ =>
                {| si_commandStringIndex := Z.of_nat i + 1;
                   si_commandString := default "" (staticWord s);
                   si_commandStringKnown := bool_decide (is_Some (staticWord s));
                   si_positionalStart := i + 1 |}
            end
          else parseShellOptions_loop n spec (i + 1) rest1
    end
  end.

(** [words] is non-empty; the loop starts at index 1. *)
Definition parseShellOptions (words : list Word) (spec : shellOptionSpec) : shellInvocation :=
  parseShellOptions_loop (length words) spec 1 (tail words).

Definition parseShellInvocation (words : list Word) : option shellInvocation :=
  match words with
  | [] => None
  | w :: _ =>
      match staticWord w with
      | None => None
      | Some command =>
          let base := path_base command in
          if String.eqb base "bash" then Some (parseShellOptions words bashOptionSpec)
          else if String.eqb base "sh" || String.eqb base "dash"
          then Some (parseShellOptions words posixShellOptionSpec)
          else if String.eqb base "zsh" then Some (parseShellOptions words zshOptionSpec)
          else None
      end
  end.

(** ** Building the analysis *)

Definition finding_le (a b : Finding) : Prop :=
  if String.eqb (f_category a) (f_category b) then
    if String.eqb (f_rule a) (f_rule b) then String.le (f_evidence a) (f_evidence b)
    else String.le (f_rule a) (f_rule b)
  else String.le (f_category a) (f_category b).

#[export] Instance finding_le_dec : RelDecision finding_le.
Proof. intros a b. unfold finding_le. repeat case_match; apply _. Defined.

Definition buildAnalysis (findings : list Finding) : Analysis :=
  let unique := merge_sort finding_le (dedup findings) in
  {| an_categories := compact (f_category <$> unique); an_findings := unique |}.

(** ** The walk *)

Definition maxCommandBytes : Z := Z.shiftl 128 10.
Definition maxShellDepth : nat := 4.

Inductive shell_error := ErrInvalidShell | ErrParse.

Section analyzer.
(** [syntax.NewParser(syntax.Variant(syntax.LangBash)).Parse] followed by the
    visiting order of [syntax.Walk]. *)
Context (parse : string → option File).

(** Findings so far and the words to skip. *)
Definition walk_state : Type := list Finding * gset nat.

(** One callback of the walk; [nested] is the recursive analysis of a command
    string, absent when [depth] has reached [maxShellDepth]. *)
Definition walk_node (nested : option (string → result shell_error (list Finding)))
    (st : walk_state) (node : Node) : walk_state :=
  let (findings, excluded) := st in
  match node with
  | CallExpr words =>
      let args := makeStaticArgs words in
      if Nat.eqb (length args) 0 then st
      else
        let findings := findings ++ classifyCall args in
        match parseShellInvocation words with
        | None => (findings, excluded)
        | Some invocation =>
            let excluded :=
              excluded ∪ list_to_set (w_id <$> drop (si_positionalStart invocation) words) in
            match nested with
            | Some analyze =>
                if (0 <=? si_commandStringIndex invocation)%Z
                   && si_commandStringKnown invocation
                then match analyze (si_commandString invocation) with
                     | Ok more => (findings ++ more, excluded)
                     | Fail _ => (findings, excluded)
                     end
                else (findings, excluded)
            | None => (findings, excluded)
            end
        end
  | WordNode w =>
      if bool_decide (w_id w ∈ excluded) then st
      else match staticWord w with
           | Some value => (findings ++ classifyPath value, excluded)
           | None => st
           end
  | DeclClause variant args =>
      if String.eqb variant "export" && (Nat.eqb (length args) 0 || declHasOption args "-p")
      then (findings ++ [labeledFinding ProcessEnvironment labelEnvironmentCommand], excluded)
      else st
  | ParamExpNode p =>
      match simpleParameterName p with
      | Some name =>
          if isCloudEnvironment name
          then (findings ++ [labeledFinding CloudCredential labelCloudEnvironment], excluded)
          else st
      | None => st
      end
  | OtherNode => st
  end.

(** [analyze(command, depth)], with [left = maxShellDepth - depth]. *)
Fixpoint analyze (left : nat) (command : string) : result shell_error (list Finding) :=
  match parse command with
  | None => Fail ErrParse
  | Some file =>
      if Nat.eqb (file_stmts file) 0 then Fail ErrInvalidShell
      else
        let nested := match left with O => None | S left' => Some (analyze left') end in
        Ok (fst (fold_left (walk_node nested) (file_walk file) ([], ∅)))
  end.

Definition Analyze (command : string) : result shell_error Analysis :=
  if str_is_empty (trim_space command) || (maxCommandBytes <? slen command)%Z
  then Fail ErrInvalidShell
  else match analyze maxShellDepth command with
       | Fail _ => Fail ErrInvalidShell
       | Ok findings => Ok (buildAnalysis findings)
       end.
End analyzer.

(** ** The order on findings *)

#[export] Instance finding_le_trans : Transitive finding_le.
Proof.
  intros [c1 r1 e1] [c2 r2 e2] [c3 r3 e3]. unfold finding_le. simpl.
  destruct (String.eqb_spec c1 c2), (String.eqb_spec c2 c3), (String.eqb_spec c1 c3),
    (String.eqb_spec r1 r2), (String.eqb_spec r2 r3), (String.eqb_spec r1 r3); subst;
    intros H1 H2; try congruence; try done; try (eapply (transitivity (R := String.le)); eassumption);
    exfalso;
    match goal with H : ?x ≠ _ |- _ => apply H; by apply (anti_symm String.le) end.
Qed.

#[export] Instance finding_le_total : Total finding_le.
Proof.
  intros [c1 r1 e1] [c2 r2 e2]. unfold finding_le. simpl.
  destruct (String.eqb_spec c1 c2), (String.eqb_spec c2 c1),
    (String.eqb_spec r1 r2), (String.eqb_spec r2 r1); subst; try congruence; apply (total String.le).
Qed.

#[export] Instance finding_le_antisymm : AntiSymm (=) finding_le.
Proof.
  intros [c1 r1 e1] [c2 r2 e2]. unfold finding_le. simpl.
  destruct (String.eqb_spec c1 c2), (String.eqb_spec c2 c1),
    (String.eqb_spec r1 r2), (String.eqb_spec r2 r1); subst; try congruence; intros H1 H2;
    try (f_equal; by apply (anti_symm String.le));
    exfalso;
    match goal with H : ?x ≠ _ |- _ => apply H; by apply (anti_symm String.le) end.
Qed.

Lemma finding_le_category a b : finding_le a b → String.le (f_category a) (f_category b).
Proof.
  unfold finding_le. destruct (String.eqb_spec (f_category a) (f_category b)) as [->|]; done.
Qed.

(** ** Properties of [buildAnalysis] *)

Lemma buildAnalysis_findings fs f : f ∈ an_findings (buildAnalysis fs) ↔ f ∈ fs.
Proof. simpl. by rewrite merge_sort_Permutation, elem_of_dedup. Qed.

Lemma buildAnalysis_categories fs c :
  c ∈ an_categories (buildAnalysis fs) ↔ ∃ f, f ∈ fs ∧ f_category f = c.
Proof.
  simpl. rewrite elem_of_compact, list_elem_of_fmap.
  setoid_rewrite merge_sort_Permutation. setoid_rewrite elem_of_dedup. naive_solver.
Qed.

Lemma StronglySorted_fmap_category (l : list Finding) :
  StronglySorted finding_le l → StronglySorted String.le (f_category <$> l).
Proof.
  induction 1 as [|x l ? IH Hf]; simpl; constructor; [done|].
  apply Forall_fmap. eapply Forall_impl; [exact Hf|]. intros y. apply finding_le_category.
Qed.

(** [buildAnalysis] reports every finding exactly once, in strictly
    increasing (category, rule, evidence) order, and lists as categories exactly
    those of the findings, each once and in increasing order; in particular the
    categories are empty only when there is no finding. *)
Theorem buildAnalysis_spec fs :
  let a := buildAnalysis fs in
  (∀ f, f ∈ an_findings a ↔ f ∈ fs) ∧
  StronglySorted (λ x y, finding_le x y ∧ x ≠ y) (an_findings a) ∧
  (∀ c, c ∈ an_categories a ↔ ∃ f, f ∈ fs ∧ f_category f = c) ∧
  StronglySorted (λ x y, String.le x y ∧ x ≠ y) (an_categories a) ∧
  (an_categories a = [] ↔ fs = []).
Proof.
  simpl. pose proof (StronglySorted_merge_sort finding_le (dedup fs)) as Hs.
  assert (NoDup (merge_sort finding_le (dedup fs))) as Hnd.
  { rewrite merge_sort_Permutation. apply NoDup_dedup. }
  split; [apply buildAnalysis_findings|]. split.
  { clear -Hs Hnd. induction Hs as [|x l ? IH Hf]; constructor.
    - inversion_clear Hnd. auto.
    - inversion_clear Hnd. rewrite Forall_forall in Hf |- *. intros y Hy. split; [auto|].
      by intros ->. }
  split; [apply buildAnalysis_categories|].
  split; [apply Sorted_compact; [apply _..|]; by apply StronglySorted_fmap_category|].
  split; [|by intros ->].
  intros Hnil. destruct fs as [|f fs]; [done|exfalso].
  assert (f_category f ∈ an_categories (buildAnalysis (f :: fs))) as Hin.
  { apply buildAnalysis_categories. exists f. split; [set_solver|done]. }
  simpl in Hin. rewrite Hnil in Hin. by apply not_elem_of_nil in Hin.
Qed.

(** ** Shell option parsing *)

(** What an invocation promises about its [n] words. *)
Definition invocation_ok (words : list Word) (inv : shellInvocation) : Prop :=
  (si_positionalStart inv ≤ length words)%nat ∧
  (si_commandStringIndex inv = -1
   ∨ si_commandStringIndex inv = Z.of_nat (si_positionalStart inv) ∧
     ∃ w, words !! si_positionalStart inv = Some w ∧
       si_commandStringKnown inv = bool_decide (is_Some (staticWord w)) ∧
       si_commandString inv = default "" (staticWord w)).

Lemma parseShellOptions_loop_ok words spec i rest :
  rest = drop i words → (1 ≤ i ≤ length words)%nat →
  invocation_ok words (parseShellOptions_loop (length words) spec i rest).
Proof.
  (* stopping with a start within the words *)
  assert (∀ k, (k ≤ length words)%nat → invocation_ok words
    {| si_commandStringIndex := -1; si_commandString := ""; si_commandStringKnown := false;
       si_positionalStart := k |}) as Hstop by (intros; by split; [|left]).
  assert (∀ j k w r, j = Z.of_nat k → w :: r = drop k words → invocation_ok words
    {| si_commandStringIndex := j; si_commandString := default "" (staticWord w);
       si_commandStringKnown := bool_decide (is_Some (staticWord w));
       si_positionalStart := k |}) as Hcmd.
  { intros j k w r -> Hw. apply (f_equal (.!! 0%nat)) in Hw as Hl.
    rewrite lookup_drop, Nat.add_0_r in Hl. symmetry in Hl. split; simpl.
    - apply lookup_lt_Some in Hl. lia.
    - right. split; [done|]. by exists w. }
  assert (∀ m i rest, (length rest ≤ m)%nat → rest = drop i words → (1 ≤ i ≤ length words)%nat →
    invocation_ok words (parseShellOptions_loop (length words) spec i rest)) as Hloop; [|eauto].
  intros m. induction m as [|m IH]; intros k r Hm Hr Hk.
  { destruct r; [|simpl in Hm; lia]. simpl. apply Hstop; lia. }
  (* a suffix at [k] gives the suffixes at [k+1] and [k+2] *)
  assert (∀ w r1, r = w :: r1 → r1 = drop (k + 1) words ∧ (k + 1 ≤ length words)%nat) as Hnext.
  { intros w r1 ->. assert (length (drop k words) = S (length r1)) as Hl by by rewrite <-Hr.
    rewrite length_drop in Hl. split; [|lia]. by rewrite <-drop_drop, <-Hr. }
  destruct r as [|w r1]; cbn [parseShellOptions_loop]; [apply Hstop; lia|].
  destruct (Hnext w r1) as [Hr1 Hk1]; [done|].
  assert (∀ w' r2, r1 = w' :: r2 → r2 = drop (k + 2) words ∧ (k + 2 ≤ length words)%nat) as Hnext2.
  { intros w' r2 ->. assert (length (drop (k + 1) words) = S (length r2)) as Hl by by rewrite <-Hr1.
    rewrite length_drop in Hl. split; [|lia].
    replace (k + 2)%nat with ((k + 1) + 1)%nat by lia. by rewrite <-drop_drop, <-Hr1. }
  simpl in Hm. clear Hnext.
  repeat first
    [ progress (cbv zeta)
    | apply Hstop; lia
    | match goal with |- invocation_ok _ (match ?x with _ => _ end) => destruct x eqn:? end
    | match goal with |- invocation_ok _ (parseShellOptions_loop _ _ (k + 1) _) =>
        apply IH; [lia|done|lia] end
    | match goal with H : ∀ w' r2, ?a :: ?b = w' :: r2 → _ |- _ =>
        destruct (H a b eq_refl); clear H; simpl in Hm end
    | match goal with |- invocation_ok _ (parseShellOptions_loop _ _ (k + 2) _) =>
        apply IH; [lia|done|lia] end
    | eapply Hcmd; [lia|eassumption] ].
Qed.

(** Parsing a shell invocation never goes out of bounds: the start of the
    positional words is at most the number of words, so the slice
    [node.Args[positionalStart:]] is always defined, and a reported command
    string is the static value of the word at that very position, which exists. *)
Theorem parseShellInvocation_in_bounds words inv :
  parseShellInvocation words = Some inv → invocation_ok words inv.
Proof.
  unfold parseShellInvocation. destruct words as [|w words]; [done|].
  assert (∀ spec, invocation_ok (w :: words) (parseShellOptions (w :: words) spec)) as Hok.
  { intros spec. apply parseShellOptions_loop_ok; [done|simpl; lia]. }
  intros. repeat (case_match; simplify_eq); apply Hok.
Qed.

(** A word of literal text, for the witnesses. *)
Definition lit_word (i : nat) (s : string) : Word := {| w_id := i; w_parts := [Lit s] |}.

Lemma parseShellInvocation_in_bounds_witness :
  let words := [lit_word 0 "/bin/bash"; lit_word 1 "-o"; lit_word 2 "pipefail"; lit_word 3 "-ec";
                lit_word 4 "env"] in
  ∃ inv, parseShellInvocation words = Some inv ∧
    si_commandStringIndex inv = 4 ∧ si_commandString inv = "env" ∧ invocation_ok words inv.
Proof.
  eexists. split; [vm_compute; reflexivity|]. split; [reflexivity|]. split; [reflexivity|].
  apply (parseShellInvocation_in_bounds
    [lit_word 0 "/bin/bash"; lit_word 1 "-o"; lit_word 2 "pipefail"; lit_word 3 "-ec";
     lit_word 4 "env"]). vm_compute; reflexivity.
Defined.

(** ** The walk *)

(** Everything the walk collects satisfies a predicate the rules establish. *)
Lemma walk_node_forall (P : Finding → Prop) nested st node :
  (∀ f, f ∈ knownFindings → P f) →
  (∀ g cmd fs, nested = Some g → g cmd = Ok fs → Forall P fs) →
  Forall P st.1 → Forall P (walk_node nested st node).1.
Proof.
  intros HP Hn Hst. destruct st as [fs ex]. simpl in Hst.
  assert (∀ l, (∀ f, f ∈ l → f ∈ knownFindings) → Forall P (fs ++ l)) as Happ.
  { intros l Hl. apply Forall_app. split; [done|]. apply Forall_forall. auto. }
  destruct node; cbn [walk_node]; repeat case_match; simpl; try done;
    try (apply Forall_app; split; [|by eapply Hn]);
    apply Happ; intros f Hf; eauto with aegis;
    apply list_elem_of_singleton in Hf as ->; refine (bool_decide_eq_true_1 _ _); reflexivity.
Qed.

Lemma walk_forall (P : Finding → Prop) nested nodes st :
  (∀ f, f ∈ knownFindings → P f) →
  (∀ g cmd fs, nested = Some g → g cmd = Ok fs → Forall P fs) →
  Forall P st.1 → Forall P (fold_left (walk_node nested) nodes st).1.
Proof.
  intros HP Hn. revert st. induction nodes as [|n nodes IH]; intros st Hst; simpl; [done|].
  apply IH. by apply walk_node_forall.
Qed.

(** The walk only ever appends findings. *)
Lemma walk_node_mono nested st node : st.1 ⊆ (walk_node nested st node).1.
Proof.
  destruct st as [fs ex]. destruct node; cbn [walk_node]; repeat case_match; simpl; set_solver.
Qed.

Lemma walk_mono nested nodes st : st.1 ⊆ (fold_left (walk_node nested) nodes st).1.
Proof.
  revert st. induction nodes as [|n nodes IH]; intros st; simpl; [done|].
  etrans; [apply (walk_node_mono nested st n)|apply IH].
Qed.

(** What one visited node contributes ends up in the result. *)
Lemma walk_visits nested nodes st node :
  node ∈ nodes →
  ∃ st', (walk_node nested st' node).1 ⊆ (fold_left (walk_node nested) nodes st).1.
Proof.
  revert st. induction nodes as [|n nodes IH]; intros st Hin; simpl.
  { by apply not_elem_of_nil in Hin. }
  apply elem_of_cons in Hin as [->|Hin]; [|by apply IH].
  exists st. apply walk_mono.
Qed.

Lemma analyze_known parse left cmd fs :
  analyze parse left cmd = Ok fs → Forall (λ f, f ∈ knownFindings) fs.
Proof.
  revert cmd fs. induction left as [|left IH]; intros cmd fs; simpl;
    destruct (parse cmd) as [file|]; try done; case_match; try done; intros [= <-];
    apply walk_forall; try done; naive_solver.
Qed.

Lemma Analyze_ok parse cmd a :
  Analyze parse cmd = Ok a →
  (slen cmd ≤ maxCommandBytes)%Z ∧ trim_space cmd ≠ "" ∧
  ∃ fs, analyze parse maxShellDepth cmd = Ok fs ∧ a = buildAnalysis fs.
Proof.
  unfold Analyze. case_match eqn:Hg; [done|]. apply orb_false_iff in Hg as [He Hl].
  bool_hyps. destruct (analyze _ _ _) as [fs|]; [|done]. intros [= <-].
  split; [done|]. split; [|by eexists]. intros Ht. by rewrite Ht in He.
Qed.

(** C40: an analysis never carries text of the command: whatever the parser and
    the command, every reported finding is one of the thirteen constant
    (category, rule, evidence) triples, and every reported category is one of
    the seven declared ones. *)
Theorem Analyze_reports_only_labels parse cmd a :
  Analyze parse cmd = Ok a →
  (∀ f, f ∈ an_findings a → f ∈ knownFindings ∧
     ∃ l, l ∈ allFindingLabels ∧ f = labeledFinding (f_category f) l) ∧
  (∀ c, c ∈ an_categories a → c ∈ allCategories).
Proof.
  intros (_ & _ & fs & Hfs & ->)%Analyze_ok. apply analyze_known in Hfs.
  rewrite Forall_forall in Hfs. split.
  - intros f Hf. rewrite buildAnalysis_findings in Hf. split; [by apply Hfs|].
    apply (proj2 (knownFindings_labelled f (Hfs f Hf))).
  - intros c (f & Hf & <-)%buildAnalysis_categories.
    apply (proj1 (knownFindings_labelled f (Hfs f Hf))).
Qed.

(** The file [cat ~/.ssh/id_rsa] parses to, for the witnesses. *)
Definition cat_key_file : File := {|
  file_stmts := 1;
  file_walk := [ OtherNode; CallExpr [lit_word 0 "cat"; lit_word 1 "~/.ssh/id_rsa"];
                 WordNode (lit_word 0 "cat"); WordNode (lit_word 1 "~/.ssh/id_rsa") ] |}.

(** The file [bash -c 'cat ~/.ssh/id_rsa'] parses to. *)
Definition bash_cat_file : File := {|
  file_stmts := 1;
  file_walk := [ OtherNode;
    CallExpr [lit_word 0 "bash"; lit_word 1 "-c"; lit_word 2 "cat ~/.ssh/id_rsa"];
    WordNode (lit_word 0 "bash"); WordNode (lit_word 1 "-c");
    WordNode (lit_word 2 "cat ~/.ssh/id_rsa") ] |}.

Definition sample_parse (cmd : string) : option File :=
  if String.eqb cmd "cat ~/.ssh/id_rsa" then Some cat_key_file
  else if String.eqb cmd "bash -c 'cat ~/.ssh/id_rsa'" then Some bash_cat_file
  else None.

Lemma Analyze_reports_only_labels_witness :
  Analyze sample_parse "bash -c 'cat ~/.ssh/id_rsa'"
    = Ok {| an_categories := [SSHSecret];
            an_findings := [labeledFinding SSHSecret labelSSHSensitivePath] |} ∧
  SSHSecret ∈ allCategories.
Proof.
  split; [vm_compute; reflexivity|].
  refine (proj2 (Analyze_reports_only_labels sample_parse "bash -c 'cat ~/.ssh/id_rsa'"
    {| an_categories := [SSHSecret];
       an_findings := [labeledFinding SSHSecret labelSSHSensitivePath] |} _) _ _);
    [vm_compute; reflexivity|]. by left.
Defined.

(** The analyzer sees through nested shells: when the walk of a command
    visits a call to bash, sh, dash or zsh whose command string is static, every
    finding of the analysis of that string one level deeper is a finding of the
    outer command, together with the call's own findings. *)
Theorem analyze_nested_shell parse left cmd file words inv fs :
  parse cmd = Some file →
  file_stmts file ≠ 0%nat →
  CallExpr words ∈ file_walk file →
  parseShellInvocation words = Some inv →
  (0 ≤ si_commandStringIndex inv)%Z →
  si_commandStringKnown inv = true →
  analyze parse left (si_commandString inv) = Ok fs →
  ∃ gs, analyze parse (S left) cmd = Ok gs ∧
    fs ⊆ gs ∧ classifyCall (makeStaticArgs words) ⊆ gs.
Proof.
  intros Hp Hst Hin Hinv Hi Hk Hfs. cbn [analyze]. rewrite Hp.
  rewrite (proj2 (Nat.eqb_neq _ _)) by done. eexists. split; [done|].
  destruct (walk_visits (Some (analyze parse left)) (file_walk file) ([], ∅) _ Hin)
    as [[gs ex] Hsub].
  assert (length (makeStaticArgs words) ≠ 0)%nat as Hlen.
  { unfold makeStaticArgs. rewrite length_fmap. by destruct words. }
  cbn [walk_node] in Hsub. rewrite (proj2 (Nat.eqb_neq _ _)) in Hsub by done.
  rewrite Hinv, (proj2 (Z.leb_le _ _)), Hk in Hsub by done. simpl in Hsub.
  rewrite Hfs in Hsub. simpl in Hsub. split; (etrans; [|exact Hsub]); set_solver.
Qed.

Lemma analyze_nested_shell_witness :
  ∃ gs, analyze sample_parse 4 "bash -c 'cat ~/.ssh/id_rsa'" = Ok gs ∧
    [labeledFinding SSHSecret labelSSHSensitivePath] ⊆ gs ∧
    classifyCall (makeStaticArgs [lit_word 0 "bash"; lit_word 1 "-c"; lit_word 2 "cat ~/.ssh/id_rsa"]) ⊆ gs.
Proof.
  apply (analyze_nested_shell sample_parse 3 "bash -c 'cat ~/.ssh/id_rsa'" bash_cat_file
    [lit_word 0 "bash"; lit_word 1 "-c"; lit_word 2 "cat ~/.ssh/id_rsa"]
    {| si_commandStringIndex := 2; si_commandString := "cat ~/.ssh/id_rsa";
       si_commandStringKnown := true; si_positionalStart := 2 |}).
  - reflexivity.
  - discriminate.
  - right. by left.
  - vm_compute; reflexivity.
  - done.
  - reflexivity.
  - vm_compute; reflexivity.
Defined.
