(* ===== verification/Approval.v ===== *)
(** * The approval store: [internal/approval/store.go]

    One-time approvals of risky commands.  Command bytes live in buffers: a Go
    [[]byte] is a reference into the store's heap, so copies ([cloneApproval])
    and wiping ([zeroBytes]) are visible.  Each public method runs under the
    store's mutex and is one function from store to store; [Wait] releases the
    mutex around its [select] and is two functions with the outcome of the
    [select] between them.  The clock ([s.now]) is an argument of every reading
    and the random source ([s.random]) is the sequence of bytes it will yield.
    The receiver and the two dependencies are not nil, as in every store the
    broker builds; times and durations are nanoseconds. *)

From S2P Require Import Prelude GoStr AnalyzerRules.
From Stdlib Require Import Ascii.
Open Scope string_scope.
Open Scope list_scope.

(** ** Constants and errors *)

Definition minute : Z := 60 * 1000000000.
Definition defaultTTL : Z := 5 * minute.
Definition maxStoreEntries : nat := 256.
Definition maxCommandBytes : Z := Z.shiftl 128 10.
Definition maxTimeout : Z := 30 * minute.
Definition maxOutputBytes : Z := Z.shiftl 4 20.
Definition approvalCodeSize : nat := 4.

Inductive approval_error :=
| ErrInvalidInput | ErrCapacity | ErrRandom | ErrNotFound | ErrCode | ErrUsed | ErrExpired
| ErrContext.

(** ** Data *)

Record ExecutionLimits := { lim_timeout : Z; lim_max_output : Z }.
#[export] Instance ExecutionLimits_eq_dec : EqDecision ExecutionLimits.
Proof. solve_decision. Defined.

(** A [[]byte]: nil, or a buffer of the heap. *)
Abbreviation buffer := (option nat).

Record Approval := {
  ap_id : string;
  ap_code : string;
  ap_server_alias : string;
  ap_server_aliases : list string;
  ap_command : buffer;
  ap_categories : list Category;
  ap_limits : ExecutionLimits;
  ap_created_at : Z;
  ap_expires_at : Z;
  ap_used : bool }.

(** [it_done] is the channel [Decide] closes; the tombstone has none. *)
Record storedApproval := {
  it_approval : Approval;
  it_used : bool;
  it_decision : string;
  it_done : option nat }.

Record Store := {
  s_items : gmap string storedApproval;
  s_random : string;
  s_heap : gmap nat string;
  s_next_buffer : nat;
  s_next_chan : nat;
  s_closed : gset nat }.

(** The zero value of [Approval], with the fields of the tombstone. *)
Definition tombstone (id : string) (expires : Z) : storedApproval := {|
  it_approval := {|
    ap_id := id; ap_code := ""; ap_server_alias := ""; ap_server_aliases := [];
    ap_command := None; ap_categories := []; ap_limits := {| lim_timeout := 0; lim_max_output := 0 |};
    ap_created_at := 0; ap_expires_at := expires; ap_used := true |};
  it_used := true; it_decision := ""; it_done := None |}.

Definition NewStore (random : string) : Store := {|
  s_items := ∅; s_random := random; s_heap := ∅; s_next_buffer := 0;
  s_next_chan := 0; s_closed := ∅ |}.

Definition with_items (s : Store) (items : gmap string storedApproval) : Store := {|
  s_items := items; s_random := s_random s; s_heap := s_heap s;
  s_next_buffer := s_next_buffer s; s_next_chan := s_next_chan s; s_closed := s_closed s |}.

Definition with_random (s : Store) (random : string) : Store := {|
  s_items := s_items s; s_random := random; s_heap := s_heap s;
  s_next_buffer := s_next_buffer s; s_next_chan := s_next_chan s; s_closed := s_closed s |}.

Definition with_heap (s : Store) (h : gmap nat string) : Store := {|
  s_items := s_items s; s_random := s_random s; s_heap := h;
  s_next_buffer := s_next_buffer s; s_next_chan := s_next_chan s; s_closed := s_closed s |}.

(** ** Buffers *)

Definition read_buffer (s : Store) (b : buffer) : string :=
  match b with Some l => default "" (s_heap s !! l) | None => "" end.

(** [append([]byte(nil), data...)]: nil when there is nothing to append. *)
Definition copy_bytes (s : Store) (data : string) : Store * buffer :=
  if str_is_empty data then (s, None)
  else
    ({| s_items := s_items s; s_random := s_random s;
        s_heap := <[s_next_buffer s := data]> (s_heap s);
        s_next_buffer := S (s_next_buffer s);
        s_next_chan := s_next_chan s; s_closed := s_closed s |},
     Some (s_next_buffer s)).

Definition zero_string (data : string) : string :=
  str_repeat (String (byte_of 0) "") (String.length data).

Definition zeroBytes (s : Store) (b : buffer) : Store :=
  match b with
  | Some l => with_heap s (alter zero_string l (s_heap s))
  | None => s
  end.

(** [make(chan struct{})] *)
Definition make_chan (s : Store) : Store * option nat :=
  ({| s_items := s_items s; s_random := s_random s; s_heap := s_heap s;
      s_next_buffer := s_next_buffer s;
      s_next_chan := S (s_next_chan s); s_closed := s_closed s |},
   Some (s_next_chan s)).

(** [close(c)] panics on a nil or closed channel. *)
Definition close_chan (s : Store) (c : option nat) : option Store :=
  match c with
  | None => None
  | Some n =>
      if decide (n ∈ s_closed s) then None
      else Some {| s_items := s_items s; s_random := s_random s; s_heap := s_heap s;
                   s_next_buffer := s_next_buffer s; s_next_chan := s_next_chan s;
                   s_closed := {[n]} ∪ s_closed s |}
  end.

Definition set_command (a : Approval) (b : buffer) : Approval := {|
  ap_id := ap_id a; ap_code := ap_code a; ap_server_alias := ap_server_alias a;
  ap_server_aliases := ap_server_aliases a; ap_command := b; ap_categories := ap_categories a;
  ap_limits := ap_limits a; ap_created_at := ap_created_at a; ap_expires_at := ap_expires_at a;
  ap_used := ap_used a |}.

Definition set_used (a : Approval) (used : bool) : Approval := {|
  ap_id := ap_id a; ap_code := ap_code a; ap_server_alias := ap_server_alias a;
  ap_server_aliases := ap_server_aliases a; ap_command := ap_command a; ap_categories := ap_categories a;
  ap_limits := ap_limits a; ap_created_at := ap_created_at a; ap_expires_at := ap_expires_at a;
  ap_used := used |}.

Definition set_decision (it : storedApproval) (d : string) : storedApproval := {|
  it_approval := it_approval it; it_used := it_used it; it_decision := d; it_done := it_done it |}.

(** The category and alias slices are never written through, so copying them
    is not visible; the command buffer is. *)
Definition cloneApproval (s : Store) (a : Approval) : Store * Approval :=
  let '(s, b) := copy_bytes s (read_buffer s (ap_command a)) in (s, set_command a b).

(** [zeroBytes(item.Command); delete(s.items, id)] *)
Definition wipe_item (s : Store) (id : string) (it : storedApproval) : Store :=
  let s := zeroBytes s (ap_command (it_approval it)) in with_items s (delete id (s_items s)).

(** ** Codes, categories and aliases *)

Definition codeAlphabet : string := "ABCDEFGHJKMNPQRSTUVWXYZ23456789".

Definition unbiasedLimit : Z := 256 - 256 mod slen codeAlphabet.

(** [io.ReadFull(random, buf)]: fails when fewer bytes are left. *)
Definition read_full (n : nat) (random : string) : option (string * string) :=
  if Nat.ltb (String.length random) n then None
  else Some (str_take n random, str_drop n random).

(** One iteration reads one byte, so the recursion is on the random bytes.
    [need] is [approvalCodeSize - len(code)]. *)
Fixpoint generateCode_loop (need : nat) (random : string) : option (string * string) :=
  match need with
  | O => Some ("", random)
  | S need' =>
      match random with
      | "" => None
      | String raw rest =>
          if (unbiasedLimit <=? byte_val raw)%Z then generateCode_loop need rest
          else
            match str_at codeAlphabet (Z.to_nat (byte_val raw mod slen codeAlphabet)) with
            | Some letter =>
                match generateCode_loop need' rest with
                | Some (code, remaining) => Some (String letter code, remaining)
                | None => None
                end
            | None => None
            end
      end
  end.

Definition generateCode (random : string) : option (string * string) :=
  generateCode_loop approvalCodeSize random.

Definition hex_digit (n : Z) : ascii :=
  if (n <? 10)%Z then byte_of (48 + n) else byte_of (87 + n).

(** [hex.EncodeToString] *)
Fixpoint hex_encode (s : string) : string :=
  match s with
  | "" => ""
  | String a s' =>
      String (hex_digit (byte_val a / 16)) (String (hex_digit (byte_val a mod 16)) (hex_encode s'))
  end.

Definition normalizeCategories (categories : list Category) : list Category :=
  compact (merge_sort String.le categories).

Definition normalizeAliases (aliases : list string) : list string :=
  dedup (filter (λ a, a ≠ "") aliases).

(** ** Operations *)

Definition cleanupLocked (s : Store) (now : Z) (except : string) : Store :=
  foldl (λ s '(id, it),
           if negb (String.eqb id except) && (ap_expires_at (it_approval it) <=? now)%Z
           then wipe_item s id it else s)
        s (map_to_list (s_items s)).

(** [cleanupAt] and [createdAt] are the two clock readings. *)
Definition CreateBatch (s : Store) (serverAliases : list string) (command : string)
    (categories : list Category) (limits : ExecutionLimits) (cleanupAt createdAt : Z)
  : Store * result approval_error Approval :=
  let serverAliases := normalizeAliases serverAliases in
  match serverAliases with
  | [] => (s, Fail ErrInvalidInput)
  | alias0 :: _ =>
      if (slen command =? 0)%Z || (maxCommandBytes <? slen command)%Z
         || (lim_timeout limits <=? 0)%Z || (maxTimeout <? lim_timeout limits)%Z
         || (lim_max_output limits <=? 0)%Z || (maxOutputBytes <? lim_max_output limits)%Z
      then (s, Fail ErrInvalidInput)
      else
        let s := cleanupLocked s cleanupAt "" in
        if Nat.leb maxStoreEntries (size (s_items s)) then (s, Fail ErrCapacity)
        else match read_full 16 (s_random s) with
        | None => (with_random s "", Fail ErrRandom)
        | Some (idBytes, rest) =>
            let s := with_random s rest in
            let id := hex_encode idBytes in
            if decide (is_Some (s_items s !! id)) then (s, Fail ErrRandom)
            else match generateCode (s_random s) with
            | None => (with_random s "", Fail ErrRandom)
            | Some (code, rest) =>
                let s := with_random s rest in
                let '(s, local) := copy_bytes s command in
                let approval := {|
                  ap_id := id; ap_code := code; ap_server_alias := alias0;
                  ap_server_aliases := serverAliases; ap_command := local;
                  ap_categories := normalizeCategories categories; ap_limits := limits;
                  ap_created_at := createdAt; ap_expires_at := createdAt + defaultTTL;
                  ap_used := false |} in
                let '(s, stored) := cloneApproval s approval in
                let '(s, done) := make_chan s in
                let s := with_items s (<[id := {| it_approval := stored; it_used := false;
                                                 it_decision := ""; it_done := done |}]> (s_items s)) in
                let '(s, returned) := cloneApproval s approval in
                (s, Ok returned)
            end
        end
  end.

Definition Create (s : Store) (serverAlias command : string) (categories : list Category)
    (limits : ExecutionLimits) (cleanupAt createdAt : Z) : Store * result approval_error Approval :=
  CreateBatch s [serverAlias] command categories limits cleanupAt createdAt.

Definition created_le (a b : Approval) : Prop := (ap_created_at a ≤ ap_created_at b)%Z.
#[export] Instance created_le_dec : RelDecision created_le.
Proof. intros a b. unfold created_le. apply _. Defined.

(** One iteration of the loop of [List]. *)
Definition list_item (includeCommand : bool) (acc : Store * list Approval) (it : storedApproval)
  : Store * list Approval :=
  let '(s, result) := acc in
  if it_used it then (s, result)
  else
    let '(s, copy) := cloneApproval s (it_approval it) in
    let '(s, copy) :=
      if includeCommand then (s, copy)
      else (zeroBytes s (ap_command copy), set_command copy None) in
    (s, result ++ [set_used copy (negb (String.eqb (it_decision it) ""))]).

(** Go ranges over the map in an unspecified order; [map_to_list] is one. *)
Definition List (s : Store) (includeCommand : bool) (now : Z) : Store * list Approval :=
  let s := cleanupLocked s now "" in
  let '(s, result) :=
    foldl (list_item includeCommand) (s, []) (snd <$> map_to_list (s_items s)) in
  (s, merge_sort created_le result).

Definition Get (s : Store) (id : string) : Store * result approval_error (Approval * string) :=
  if str_is_empty id then (s, Fail ErrInvalidInput)
  else match s_items s !! id with
  | None => (s, Fail ErrNotFound)
  | Some it =>
      let '(s, copy) := cloneApproval s (it_approval it) in (s, Ok (copy, it_decision it))
  end.

(** [None] is the panic of closing a nil or closed channel. *)
Definition Decide (s : Store) (id : string) (allow : bool) (now : Z)
  : option (Store * result approval_error unit) :=
  if str_is_empty id then Some (s, Fail ErrInvalidInput)
  else match s_items s !! id with
  | None => Some (s, Fail ErrNotFound)
  | Some it =>
      if negb (now <? ap_expires_at (it_approval it))%Z then Some (wipe_item s id it, Fail ErrExpired)
      else if negb (String.eqb (it_decision it) "") || it_used it then Some (s, Fail ErrUsed)
      else
        let it := set_decision it (if allow then "approved" else "denied") in
        match close_chan s (it_done it) with
        | None => None
        | Some s => Some (with_items s (<[id := it]> (s_items s)), Ok tt)
        end
  end.

(** What the first critical section of [Wait] keeps. *)
Record waiter := { w_id : string; w_done : option nat; w_expires_at : Z }.

Definition Wait_begin (s : Store) (id : string) : result approval_error waiter :=
  match s_items s !! id with
  | None => Fail ErrNotFound
  | Some it => Ok {| w_id := id; w_done := it_done it; w_expires_at := ap_expires_at (it_approval it) |}
  end.

Inductive wait_outcome := CtxDone | DecisionMade | TimerFired.

(** The rest of [Wait] for the branch the [select] takes. *)
Definition Wait_finish (s : Store) (w : waiter) (o : wait_outcome)
  : Store * result approval_error (option Approval) :=
  match o with
  | CtxDone => (s, Fail ErrContext)
  | TimerFired =>
      match s_items s !! w_id w with
      | Some expired => (wipe_item s (w_id w) expired, Fail ErrExpired)
      | None => (s, Fail ErrExpired)
      end
  | DecisionMade =>
      match s_items s !! w_id w with
      | None => (s, Fail ErrNotFound)
      | Some it =>
          if String.eqb (it_decision it) "denied" then (wipe_item s (w_id w) it, Ok None)
          else if negb (String.eqb (it_decision it) "approved") then (s, Fail ErrNotFound)
          else
            let '(s, approved) := cloneApproval s (it_approval it) in
            (wipe_item s (w_id w) it, Ok (Some (set_used approved true)))
      end
  end.

(** [copy(supplied[:], code)]: cut or padded with zero bytes to four. *)
Definition supplied_code (code : string) : string :=
  str_take approvalCodeSize code +:+
  str_repeat (String (byte_of 0) "") (approvalCodeSize - String.length code).

(** [int32(len(code))] *)
Definition int32 (n : Z) : Z := (n + 2 ^ 31) mod 2 ^ 32 - 2 ^ 31.

Definition code_matches (expected code : string) : bool :=
  String.eqb expected (supplied_code code) && (int32 (slen code) =? int32 (slen expected))%Z.

Definition Consume (s : Store) (id code : string) (now : Z) : Store * result approval_error Approval :=
  if str_is_empty id then (s, Fail ErrInvalidInput)
  else
    let item := s_items s !! id in
    match item with
    | Some it =>
        if negb (now <? ap_expires_at (it_approval it))%Z then (wipe_item s id it, Fail ErrExpired)
        else
          let s := cleanupLocked s now id in
          if it_used it then (s, Fail ErrUsed)
          else if negb (code_matches (ap_code (it_approval it)) code) then (s, Fail ErrCode)
          else
            let '(s, consumed) := cloneApproval s (it_approval it) in
            let s := zeroBytes s (ap_command (it_approval it)) in
            (with_items s (<[id := tombstone (ap_id (it_approval it)) (ap_expires_at (it_approval it))]>
                             (s_items s)),
             Ok (set_used consumed true))
    | None => (cleanupLocked s now id, Fail ErrNotFound)
    end.

Definition Revoke (s : Store) (id : string) : Store * result approval_error unit :=
  if str_is_empty id then (s, Fail ErrInvalidInput)
  else match s_items s !! id with
  | None => (s, Ok tt)
  | Some it =>
      if it_used it then (s, Fail ErrUsed) else (wipe_item s id it, Ok tt)
  end.

(** ** The store among its callers

    A world is the store with the buffers it has lent to callers (who may
    write to them at any time), the buffers its records have ever owned, and
    the calls to [Wait] that are blocked in their [select]. *)
Record World := {
  wd_store : Store;
  wd_lent : gset nat;
  wd_stored : gset nat;
  wd_waiters : list waiter }.

Definition initial_world (random : string) : World := {|
  wd_store := NewStore random; wd_lent := ∅; wd_stored := ∅; wd_waiters := [] |}.

(** What an approval grants, with the command read from its buffer. *)
Record grant := {
  g_code : string;
  g_aliases : list string;
  g_command : string;
  g_categories : list Category;
  g_limits : ExecutionLimits;
  g_expires_at : Z }.

#[export] Instance grant_eq_dec : EqDecision grant.
Proof. solve_decision. Defined.

Definition grant_of (s : Store) (a : Approval) : grant := {|
  g_code := ap_code a; g_aliases := ap_server_aliases a; g_command := read_buffer s (ap_command a);
  g_categories := ap_categories a; g_limits := ap_limits a; g_expires_at := ap_expires_at a |}.

Inductive authority := ByCode (code : string) (now : Z) | ByDecision.

Inductive event :=
| EvCreated (id : string) (g : grant)
| EvDecided (id : string) (allow : bool) (now : Z)
| EvDelivered (id : string) (g : grant) (how : authority).

Inductive call :=
| CallCreate (aliases : list string) (command : string) (categories : list Category)
    (limits : ExecutionLimits) (cleanupAt createdAt : Z)
| CallList (includeCommand : bool) (now : Z)
| CallGet (id : string)
| CallDecide (id : string) (allow : bool) (now : Z)
| CallWait (id : string)
| CallSelect (n : nat) (o : wait_outcome) (now : Z)
| CallConsume (id code : string) (now : Z)
| CallRevoke (id : string)
| CallerWrites (l : nat) (data : string).

Definition buffer_set (b : buffer) : gset nat := match b with Some l => {[l]} | None => ∅ end.

Definition lend (w : World) (s : Store) (l : list Approval) : World := {|
  wd_store := s; wd_lent := ⋃ ((λ a, buffer_set (ap_command a)) <$> l) ∪ wd_lent w;
  wd_stored := wd_stored w; wd_waiters := wd_waiters w |}.

Definition with_store (w : World) (s : Store) : World := {|
  wd_store := s; wd_lent := wd_lent w; wd_stored := wd_stored w; wd_waiters := wd_waiters w |}.

Definition with_waiters (w : World) (l : list waiter) : World := {|
  wd_store := wd_store w; wd_lent := wd_lent w; wd_stored := wd_stored w; wd_waiters := l |}.

Definition note_stored (w : World) (it : option storedApproval) : World := {|
  wd_store := wd_store w; wd_lent := wd_lent w;
  wd_stored := match it with Some it => buffer_set (ap_command (it_approval it)) | None => ∅ end
               ∪ wd_stored w;
  wd_waiters := wd_waiters w |}.

(** When the [select] of a blocked [Wait] can take a branch. *)
Definition select_ready (s : Store) (wt : waiter) (o : wait_outcome) (now : Z) : bool :=
  match o with
  | CtxDone => true
  | DecisionMade => match w_done wt with Some c => bool_decide (c ∈ s_closed s) | None => false end
  | TimerFired => (w_expires_at wt <=? now)%Z
  end.

(** One atomic step; [None] when it cannot be taken. *)
Definition call_step (w : World) (c : call) : option (World * list event) :=
  let s := wd_store w in
  match c with
  | CallCreate aliases command categories limits t1 t2 =>
      match CreateBatch s aliases command categories limits t1 t2 with
      | (s', Ok a) =>
          Some (note_stored (lend w s' [a]) (s_items s' !! ap_id a), [EvCreated (ap_id a) (grant_of s' a)])
      | (s', Fail _) => Some (with_store w s', [])
      end
  | CallList includeCommand now =>
      let '(s', l) := List s includeCommand now in Some (lend w s' l, [])
  | CallGet id =>
      match Get s id with
      | (s', Ok (a, _)) => Some (lend w s' [a], [])
      | (s', Fail _) => Some (with_store w s', [])
      end
  | CallDecide id allow now =>
      match Decide s id allow now with
      | Some (s', Ok _) => Some (with_store w s', [EvDecided id allow now])
      | Some (s', Fail _) => Some (with_store w s', [])
      | None => None
      end
  | CallWait id =>
      match Wait_begin s id with
      | Ok wt => Some (with_waiters w (wt :: wd_waiters w), [])
      | Fail _ => Some (w, [])
      end
  | CallSelect n o now =>
      match wd_waiters w !! n with
      | None => None
      | Some wt =>
          if select_ready s wt o now then
            let w := with_waiters w (delete n (wd_waiters w)) in
            match Wait_finish s wt o with
            | (s', Ok (Some a)) => Some (lend w s' [a], [EvDelivered (w_id wt) (grant_of s' a) ByDecision])
            | (s', _) => Some (with_store w s', [])
            end
          else None
      end
  | CallConsume id code now =>
      match Consume s id code now with
      | (s', Ok a) => Some (lend w s' [a], [EvDelivered id (grant_of s' a) (ByCode code now)])
      | (s', Fail _) => Some (with_store w s', [])
      end
  | CallRevoke id => let '(s', _) := Revoke s id in Some (with_store w s', [])
  | CallerWrites l data =>
      if decide (l ∈ wd_lent w) then Some (with_store w (with_heap s (<[l := data]> (s_heap s))), [])
      else None
  end.

Fixpoint run_calls (w : World) (l : list call) : option (World * list event) :=
  match l with
  | [] => Some (w, [])
  | c :: l =>
      match call_step w c with
      | None => None
      | Some (w, ev) =>
          match run_calls w l with
          | None => None
          | Some (w, ev') => Some (w, ev ++ ev')
          end
      end
  end.

(** ** The promise of the store

    An abstract approval book: a grant is entered when it is created, may be
    decided once while it has not expired, and is struck out when it is
    delivered, which needs its code before it expires or an approving
    decision. *)
Abbreviation book := (gmap string (grant * string)).

Definition book_step (b : book) (e : event) : option book :=
  match e with
  | EvCreated id g => Some (<[id := (g, "")]> b)
  | EvDecided id allow now =>
      match b !! id with
      | Some (g, "") =>
          if (now <? g_expires_at g)%Z
          then Some (<[id := (g, if allow then "approved" else "denied")]> b) else None
      | _ => None
      end
  | EvDelivered id g how =>
      match b !! id with
      | Some (g', d) =>
          if decide (g = g') then
            match how with
            | ByCode code now =>
                if code_matches (g_code g) code && (now <? g_expires_at g)%Z then Some (delete id b) else None
            | ByDecision => if String.eqb d "approved" then Some (delete id b) else None
            end
          else None
      | None => None
      end
  end.

Fixpoint book_run (b : book) (l : list event) : option book :=
  match l with
  | [] => Some b
  | e :: l => match book_step b e with Some b => book_run b l | None => None end
  end.

(** ** Codes *)

Lemma str_at_contains s i a : str_at s i = Some a → str_contains s (String a "") = true.
Proof.
  intros H. apply str_contains_spec. revert i H.
  induction s as [|b s IH]; intros i H; [by destruct i|].
  destruct i as [|i]; simpl in H.
  - simplify_eq. by exists "", s.
  - destruct (IH _ H) as (x & y & ->). by exists (String b x), y.
Qed.

Lemma generateCode_loop_spec n r c r' :
  generateCode_loop n r = Some (c, r') →
  String.length c = n ∧ str_all (λ a, str_contains codeAlphabet (String a "")) c = true.
Proof.
  revert n c r'. induction r as [|raw r IH]; intros [|n] c r' Hg;
    cbn [generateCode_loop] in Hg; simplify_eq; [done..|].
  case_match; [by apply (IH (S n) c r')|].
  destruct (str_at _ _) as [letter|] eqn:Hat; [|done].
  destruct (generateCode_loop n r) as [[c' rest]|] eqn:Hl; [|done].
  simplify_eq. destruct (IH _ _ _ Hl) as [Hlen Hall].
  cbn [String.length str_all]. by rewrite Hlen, Hall, (str_at_contains _ _ _ Hat).
Qed.

(** An approval code is drawn without bias: a generated code has four
    letters of the alphabet, and of the byte values below the rejection limit
    exactly as many are mapped to each letter of the alphabet. *)
Theorem generateCode_unbiased random code rest :
  generateCode random = Some (code, rest) →
  String.length code = approvalCodeSize ∧
  str_all (λ a, str_contains codeAlphabet (String a "")) code = true ∧
  ∀ letter, str_contains codeAlphabet (String letter "") = true →
    length (filter (λ z, (z < unbiasedLimit)%Z ∧
                         str_at codeAlphabet (Z.to_nat (z mod slen codeAlphabet)) = Some letter)
                   (seqZ 0 256)) = 8.
Proof.
  intros Hg. destruct (generateCode_loop_spec _ _ _ _ Hg) as [Hlen Hall].
  split; [done|]. split; [done|].
  intros letter Hc. apply str_contains_spec in Hc as (a & b & Heq).
  assert (letter ∈ String.list_ascii_of_string codeAlphabet) as Hin.
  { rewrite Heq. clear Heq Hg. induction a as [|x a IH]; simpl; [left|]. by right. }
  clear - Hin. revert letter Hin. apply Forall_forall.
  repeat (apply Forall_cons; split; [by vm_compute|]). by apply Forall_nil.
Qed.

Lemma generateCode_unbiased_witness :
  generateCode "Az09zz" = Some ("D8U5", "zz") ∧ String.length "D8U5" = approvalCodeSize.
Proof.
  split; [vm_compute; reflexivity|].
  exact (proj1 (generateCode_unbiased "Az09zz" "D8U5" "zz" eq_refl)).
Defined.

(** A supplied code is accepted exactly when it is the stored one: the
    comparison through a four-byte array and the 32-bit lengths decides string
    equality, for every code short enough for its length to fit in an [int32]. *)
Theorem code_matches_spec expected code :
  String.length expected = approvalCodeSize → (slen code < 2 ^ 31)%Z →
  code_matches expected code = true ↔ code = expected.
Proof.
  unfold code_matches, supplied_code, approvalCodeSize. intros He Hc.
  assert (int32 (slen expected) = 4)%Z as -> by (unfold slen; by rewrite He).
  assert (int32 (slen code) = slen code)%Z as ->.
  { unfold int32. pose proof (slen_nonneg code). rewrite Z.mod_small; lia. }
  rewrite andb_true_iff, String.eqb_eq, Z.eqb_eq. unfold slen.
  assert (String.length code = 4 → str_take 4 code +:+
    str_repeat (String (byte_of 0) "") (4 - String.length code) = code) as Hs.
  { intros Hl. rewrite Hl, Nat.sub_diag. cbn [str_repeat]. rewrite str_app_nil_r. apply str_take_all. lia. }
  split.
  - intros [-> Hl]. symmetry. apply Hs. lia.
  - intros ->. by rewrite Hs, He.
Qed.

Lemma code_matches_spec_witness : code_matches "ABCD" "ABCD" = true.
Proof. apply (code_matches_spec "ABCD" "ABCD"); reflexivity. Defined.

(** ** The invariant *)

(** An undecided or decided, not yet consumed record, against the book. *)
Definition live (s : Store) (stored : gset nat) (b : book) (id : string) (it : storedApproval) : Prop :=
  ap_id (it_approval it) = id ∧ ap_used (it_approval it) = false ∧
  String.length (ap_code (it_approval it)) = approvalCodeSize ∧
  (∃ l, ap_command (it_approval it) = Some l ∧ l ∈ stored) ∧
  (∃ c, it_done it = Some c ∧ (c < s_next_chan s)%nat ∧ (c ∈ s_closed s ↔ it_decision it ≠ "")) ∧
  it_decision it ∈ [""; "approved"; "denied"] ∧
  b !! id = Some (grant_of s (it_approval it), it_decision it).

Definition wiped (s : Store) (l : nat) : Prop :=
  read_buffer s (Some l) = zero_string (read_buffer s (Some l)).

Record Inv (s : Store) (lent stored : gset nat) (b : book) : Prop := {
  inv_live id it : s_items s !! id = Some it → it_used it = false → live s stored b id it;
  inv_dead id it : s_items s !! id = Some it → it_used it = true → ∃ e, it = tombstone id e;
  inv_sep id1 it1 id2 it2 :
    s_items s !! id1 = Some it1 → s_items s !! id2 = Some it2 →
    it_used it1 = false → it_used it2 = false → id1 ≠ id2 →
    ap_command (it_approval it1) ≠ ap_command (it_approval it2) ∧ it_done it1 ≠ it_done it2;
  inv_disjoint : stored ## lent;
  inv_below l : l ∈ stored ∪ lent → (l < s_next_buffer s)%nat;
  inv_wiped l : l ∈ stored →
    wiped s l ∨ ∃ id it, s_items s !! id = Some it ∧ it_used it = false ∧ ap_command (it_approval it) = Some l;
  inv_chans c : c ∈ s_closed s → (c < s_next_chan s)%nat;
  inv_size : (size (s_items s) ≤ maxStoreEntries)%nat }.

(** The parts of the store the invariant reads. *)
Record same_records (s s' : Store) (stored : gset nat) : Prop := {
  sr_items : s_items s' = s_items s;
  sr_chan : s_next_chan s' = s_next_chan s;
  sr_closed : s_closed s' = s_closed s;
  sr_next : (s_next_buffer s ≤ s_next_buffer s')%nat;
  sr_heap l : l ∈ stored → s_heap s' !! l = s_heap s !! l }.

Lemma Inv_same_records s s' lent stored b :
  same_records s s' stored → Inv s lent stored b → Inv s' lent stored b.
Proof.
  intros [Hi Hc Hcl Hn Hh] [Hl Hd Hs Hdj Hb Hw Hch Hsz].
  split; try (rewrite ?Hi, ?Hc, ?Hcl; done).
  - intros id it. rewrite Hi. intros Hit Hu.
    destruct (Hl id it Hit Hu) as (?&?&?&(l & Hcmd & Hin)&?&?&Hbk).
    repeat split; try done; [by exists l|by rewrite Hc, Hcl|].
    rewrite Hbk. unfold grant_of. by rewrite Hcmd; simpl; rewrite Hh.
  - intros l Hin. specialize (Hb l Hin). lia.
  - intros l Hin. rewrite Hi. destruct (Hw l Hin) as [Hz|?]; [left|by right].
    unfold wiped. simpl. by rewrite Hh.
Qed.

Lemma same_records_refl s stored : same_records s s stored.
Proof. by split. Qed.

Lemma same_records_trans s1 s2 s3 stored :
  same_records s1 s2 stored → same_records s2 s3 stored → same_records s1 s3 stored.
Proof.
  intros [???? Hh1] [???? Hh2]. split; [congruence..|lia|].
  intros l Hl. by rewrite Hh2, Hh1.
Qed.

Lemma copy_bytes_spec s data s' c stored :
  (∀ l, l ∈ stored → (l < s_next_buffer s)%nat) →
  copy_bytes s data = (s', c) →
  same_records s s' stored ∧ read_buffer s' c = data ∧
  (∀ l, c = Some l → (s_next_buffer s ≤ l < s_next_buffer s')%nat).
Proof.
  unfold copy_bytes. intros Hb. destruct (str_is_empty data) eqn:He; intros [= <- <-].
  - split; [apply same_records_refl|]. by destruct data.
  - split; [|split; simpl; [by rewrite lookup_insert_eq|intros ? [= <-]; lia]].
    split; simpl; try done; [lia|]. intros l Hl. apply lookup_insert_ne.
    specialize (Hb l Hl). lia.
Qed.

Lemma cloneApproval_spec s a s' a' stored :
  (∀ l, l ∈ stored → (l < s_next_buffer s)%nat) →
  cloneApproval s a = (s', a') →
  same_records s s' stored ∧ grant_of s' a' = grant_of s a ∧ ap_id a' = ap_id a ∧
  a' = set_command a (ap_command a') ∧
  (∀ l, ap_command a' = Some l → (s_next_buffer s ≤ l < s_next_buffer s')%nat).
Proof.
  unfold cloneApproval. intros Hb. destruct (copy_bytes _ _) as [s1 c] eqn:Hc. intros [= <- <-].
  destruct (copy_bytes_spec _ _ _ _ stored Hb Hc) as (? & Hr & ?).
  unfold grant_of. simpl. by rewrite Hr.
Qed.

Lemma zeroBytes_other s c stored :
  (∀ l, c = Some l → l ∉ stored) → same_records s (zeroBytes s c) stored.
Proof.
  intros Hc. destruct c as [l|]; [|apply same_records_refl].
  split; simpl; try done. intros l' Hl'. apply lookup_alter_ne. intros ->. by apply (Hc l').
Qed.

Lemma Inv_lend s lent stored b c :
  (∀ l, c = Some l → l ∉ stored ∧ (l < s_next_buffer s)%nat) →
  Inv s lent stored b → Inv s (buffer_set c ∪ lent) stored b.
Proof.
  intros Hc [???? Hb ???]. split; try done.
  - destruct c as [l|]; simpl; [destruct (Hc l eq_refl)|]; set_solver.
  - intros l Hl. destruct c as [l'|]; simpl in Hl; [|set_solver].
    destruct (Hc l' eq_refl). set_solver.
Qed.

Lemma zero_string_idem data : zero_string (zero_string data) = zero_string data.
Proof.
  unfold zero_string. f_equal. induction data as [|a data IH]; simpl; [done|]. by rewrite IH.
Qed.

Lemma zeroBytes_wiped s l : wiped (zeroBytes s (Some l)) l.
Proof.
  unfold wiped. simpl. rewrite lookup_alter_eq. destruct (s_heap s !! l) as [d|]; [|done].
  simpl. by rewrite zero_string_idem.
Qed.

Lemma zeroBytes_keeps_wiped s c l : wiped s l → wiped (zeroBytes s c) l.
Proof.
  destruct c as [l'|]; [|done]. destruct (decide (l = l')) as [->|]; [intros; apply zeroBytes_wiped|].
  unfold wiped. simpl. by rewrite lookup_alter_ne.
Qed.

(** Zeroing the buffer of one record leaves every other record alone. *)
Lemma live_zero_other s lent stored b id it id' it' :
  Inv s lent stored b →
  s_items s !! id = Some it → s_items s !! id' = Some it' → id ≠ id' →
  it_used it' = false →
  live (zeroBytes s (ap_command (it_approval it))) stored b id' it'.
Proof.
  intros HI Hit Hit' Hne Hu'.
  pose proof (inv_live _ _ _ _ HI _ _ Hit' Hu') as (?&?&?&(l' & Hc' & Hin')&?&?&Hbk).
  destruct (ap_command (it_approval it)) as [l|] eqn:Hc; [|by repeat split; eauto].
  repeat split; try done; [by exists l'|]. rewrite Hbk. unfold grant_of. rewrite Hc'. simpl.
  rewrite lookup_alter_ne; [done|]. intros ->.
  destruct (it_used it) eqn:Hu.
  - by destruct (inv_dead _ _ _ _ HI _ _ Hit Hu) as [e ->].
  - destruct (inv_sep _ _ _ _ HI _ _ _ _ Hit Hit' Hu Hu' Hne). congruence.
Qed.

Lemma wipe_item_Inv s lent stored b id it :
  s_items s !! id = Some it → Inv s lent stored b → Inv (wipe_item s id it) lent stored b.
Proof.
  intros Hit HI.
  assert (∀ c, s_items (zeroBytes s c) = s_items s) as Hz by by intros [].
  split; simpl; rewrite ?Hz.
  - intros id' it' Hit' Hu'. apply lookup_delete_Some in Hit' as [Hne Hit'].
    by apply (live_zero_other s lent stored b id it).
  - intros id' it' Hit' Hu'. apply lookup_delete_Some in Hit' as [Hne Hit'].
    by apply (inv_dead _ _ _ _ HI id').
  - intros id1 it1 id2 it2 H1 H2. apply lookup_delete_Some in H1, H2.
    destruct H1, H2. by apply (inv_sep _ _ _ _ HI).
  - apply (inv_disjoint _ _ _ _ HI).
  - intros l Hl. apply (inv_below _ _ _ _ HI) in Hl. by destruct (ap_command _).
  - intros l Hl. destruct (inv_wiped _ _ _ _ HI l Hl) as [Hw|(id' & it' & Hit' & Hu' & Hc')].
    + left. by apply (zeroBytes_keeps_wiped s).
    + destruct (decide (id = id')) as [<-|Hne].
      * left. simplify_eq. unfold wipe_item; rewrite Hc'. apply (zeroBytes_wiped s).
      * right. exists id', it'. by rewrite lookup_delete_ne.
  - intros c. pose proof (inv_chans _ _ _ _ HI c). by destruct (ap_command _).
  - pose proof (inv_size _ _ _ _ HI).
    assert (size (delete id (s_items s)) ≤ size (s_items s))%nat; [|lia].
    apply map_subseteq_size, delete_subseteq.
Qed.

Definition cleanup_step (now : Z) (except : string) (s : Store) (p : string * storedApproval) : Store :=
  let '(id, it) := p in
  if negb (String.eqb id except) && (ap_expires_at (it_approval it) <=? now)%Z
  then wipe_item s id it else s.

Lemma wipe_item_items s id it : s_items (wipe_item s id it) = delete id (s_items s).
Proof. unfold wipe_item. by destruct (ap_command _). Qed.

Lemma cleanup_fold_Inv now except (l : list (string * storedApproval)) s lent stored b :
  NoDup l.*1 → (∀ id it, (id, it) ∈ l → s_items s !! id = Some it) →
  Inv s lent stored b → Inv (foldl (cleanup_step now except) s l) lent stored b.
Proof.
  revert s. induction l as [|[id it] l IH]; intros s Hnd Hin HI; simpl; [done|].
  inversion_clear Hnd as [|?? Hid Hnd'].
  apply IH; [done| |].
  - intros id' it' Hl. case_match; [|by apply Hin; right].
    rewrite wipe_item_items, lookup_delete_ne; [by apply Hin; right|].
    intros <-. apply Hid. by apply (list_elem_of_fmap_2' fst _ (id, it') id).
  - case_match; [|done]. apply wipe_item_Inv; [by apply Hin; left|done].
Qed.

Lemma cleanupLocked_Inv s now except lent stored b :
  Inv s lent stored b → Inv (cleanupLocked s now except) lent stored b.
Proof.
  apply (cleanup_fold_Inv now except); [apply NoDup_fst_map_to_list|].
  intros id it. by rewrite elem_of_map_to_list.
Qed.

Lemma cleanup_fold_items now except (l : list (string * storedApproval)) s id it :
  NoDup l.*1 → (∀ id it, (id, it) ∈ l → s_items s !! id = Some it) →
  s_items (foldl (cleanup_step now except) s l) !! id = Some it ↔
  s_items s !! id = Some it ∧
  ((id, it) ∉ l ∨ id = except ∨ (now < ap_expires_at (it_approval it))%Z).
Proof.
  revert s. induction l as [|[id' it'] l IH]; intros s Hnd Hin; simpl; [set_solver|].
  inversion_clear Hnd as [|?? Hid Hnd'].
  assert (∀ it, (id', it) ∉ l) as Hid'.
  { intros it'' Hl. apply Hid. by apply (list_elem_of_fmap_2' fst _ (id', it'') id'). }
  rewrite IH; [|done|].
  - pose proof (Hin id' it' ltac:(left)) as Hit'. case_match eqn:Hc; bool_hyps.
    + rewrite wipe_item_items. destruct (decide (id = id')) as [->|Hne].
      * rewrite lookup_delete_eq, elem_of_cons. split; [naive_solver|].
        intros [Hit [Hnl|[->|Hlt]]]; [|done|]; simplify_eq; [set_solver|lia].
      * rewrite lookup_delete_ne by done. set_solver.
    + destruct (decide (id = id')) as [->|Hne]; [|set_solver].
      split; [intros [Hit _]; split; [done|]; right|intros [Hit _]; split; [done|left; apply Hid']].
      simplify_eq. apply andb_false_iff in Hc as [Hc|Hc]; bool_hyps; [by left|by right].
  - intros id2 it2 Hl. case_match; [|by apply Hin; right].
    rewrite wipe_item_items, lookup_delete_ne; [by apply Hin; right|].
    intros <-. by apply (Hid' it2).
Qed.

(** [cleanupLocked] removes exactly the expired records but the excepted one. *)
Lemma cleanupLocked_items s now except id it :
  s_items (cleanupLocked s now except) !! id = Some it ↔
  s_items s !! id = Some it ∧ (id = except ∨ (now < ap_expires_at (it_approval it))%Z).
Proof.
  unfold cleanupLocked.
  rewrite (cleanup_fold_items now except (map_to_list (s_items s)) s id it).
  - rewrite elem_of_map_to_list. naive_solver.
  - apply NoDup_fst_map_to_list.
  - intros ??. by rewrite elem_of_map_to_list.
Qed.

Lemma cleanupLocked_size s now except :
  (size (s_items (cleanupLocked s now except)) ≤ size (s_items s))%nat.
Proof.
  apply map_subseteq_size, map_subseteq_spec. intros id it. rewrite cleanupLocked_items. naive_solver.
Qed.

Lemma with_random_Inv s r lent stored b : Inv s lent stored b → Inv (with_random s r) lent stored b.
Proof. by apply Inv_same_records. Qed.

(** Entering a record whose buffer is fresh, with a new channel. *)
Lemma enter_Inv s lent stored b id a l :
  Inv s lent stored b → s_items s !! id = None →
  (size (s_items s) < maxStoreEntries)%nat →
  ap_id a = id → ap_used a = false → String.length (ap_code a) = approvalCodeSize →
  ap_command a = Some l → (l < s_next_buffer s)%nat → l ∉ stored ∪ lent →
  let it := {| it_approval := a; it_used := false; it_decision := "";
               it_done := Some (s_next_chan s) |} in
  Inv (with_items (fst (make_chan s)) (<[id := it]> (s_items s))) lent ({[l]} ∪ stored)
      (<[id := (grant_of s a, "")]> b).
Proof.
  intros HI Hnone Hsz Hid Hu Hcode Hc Hl Hnew it.
  assert (s_next_chan s ∉ s_closed s) as Hch.
  { intros Hin. apply (inv_chans _ _ _ _ HI) in Hin. lia. }
  split; simpl.
  - intros id' it' Hit' Hu'. destruct (decide (id = id')) as [<-|Hne].
    + rewrite lookup_insert_eq in Hit'. injection Hit' as <-. unfold it.
      repeat split; simpl; try done; [exists l; split; [done|set_solver]| |set_solver|].
      * exists (s_next_chan s). repeat split; [lia|done..].
      * by rewrite lookup_insert_eq.
    + rewrite lookup_insert_ne in Hit' by done.
      destruct (inv_live _ _ _ _ HI _ _ Hit' Hu') as (?&?&?&(l' & Hc' & Hin')&(c & ?&?&?)&?&Hbk).
      repeat split; try done; [exists l'; set_solver| |].
      * exists c. repeat split; simpl; [done|lia|naive_solver..].
      * by rewrite lookup_insert_ne.
  - intros id' it' Hit' Hu'. destruct (decide (id = id')) as [<-|Hne].
    + rewrite lookup_insert_eq in Hit'. by simplify_eq.
    + rewrite lookup_insert_ne in Hit' by done. by apply (inv_dead _ _ _ _ HI id').
  - assert (∀ id' it', s_items s !! id' = Some it' → it_used it' = false →
      Some l ≠ ap_command (it_approval it') ∧ Some (s_next_chan s) ≠ it_done it') as Hfresh.
    { intros id' it' Hit' Hu'.
      destruct (inv_live _ _ _ _ HI _ _ Hit' Hu') as (?&?&?&(l' & -> & Hin')&(c & ->&?&?)&?).
      split; [set_solver|]. intros [= <-]. lia. }
    intros id1 it1 id2 it2 H1 H2 Hu1 Hu2 Hne.
    apply lookup_insert_Some in H1 as [[<- <-]|[? H1]], H2 as [[<- <-]|[? H2]]; [done|..].
    + subst it. simpl. rewrite Hc. by apply (Hfresh id2).
    + subst it. simpl. rewrite Hc. destruct (Hfresh id1 it1); naive_solver.
    + by apply (inv_sep _ _ _ _ HI id1 it1 id2 it2).
  - pose proof (inv_disjoint _ _ _ _ HI). set_solver.
  - intros l' Hl'. destruct (decide (l' = l)) as [->|]; [done|].
    apply (inv_below _ _ _ _ HI). set_solver.
  - intros l' Hl'. destruct (decide (l' = l)) as [->|].
    + right. exists id, it. by rewrite lookup_insert_eq.
    + destruct (inv_wiped _ _ _ _ HI l') as [?|(id' & it' & Hit' & ?)]; [set_solver|by left|].
      right. exists id', it'. rewrite lookup_insert_ne; [done|]. by intros ->; simplify_eq.
  - intros c Hin. apply (inv_chans _ _ _ _ HI) in Hin. lia.
  - rewrite map_size_insert_None by done. lia.
Qed.

(** ** Operations preserve the invariant *)

Definition below (s : Store) (stored : gset nat) : Prop := ∀ l, l ∈ stored → (l < s_next_buffer s)%nat.

Lemma Inv_below_stored s lent stored b : Inv s lent stored b → below s stored.
Proof. intros HI l Hl. apply (inv_below _ _ _ _ HI). set_solver. Qed.

(** Cloning a record for a caller and lending the copy. *)
Lemma clone_lend_Inv s a s' a' u lent stored b :
  Inv s lent stored b → cloneApproval s a = (s', a') →
  Inv s' (buffer_set (ap_command (set_used a' u)) ∪ lent) stored b ∧
  grant_of s' (set_used a' u) = grant_of s a ∧ ap_id a' = ap_id a ∧
  same_records s s' stored.
Proof.
  intros HI Hc. pose proof (Inv_below_stored _ _ _ _ HI) as Hb.
  destruct (cloneApproval_spec _ _ _ _ stored Hb Hc) as (Hsr & Hg & Hid & _ & Hl).
  split; [|done]. apply Inv_lend; [|by apply (Inv_same_records s)].
  simpl. intros l Hcl. specialize (Hl l Hcl). split; [|lia].
  intros Hin. specialize (Hb l Hin). lia.
Qed.

(** Storing one clone of a new approval and lending another. *)
Lemma record_new_Inv s lent stored b a id s1 a1 s3 a3 it :
  Inv s lent stored b → s_items s !! id = None → (size (s_items s) < maxStoreEntries)%nat →
  ap_id a = id → ap_used a = false → String.length (ap_code a) = approvalCodeSize →
  read_buffer s (ap_command a) ≠ "" →
  (∀ l, ap_command a = Some l → (l < s_next_buffer s)%nat ∧ l ∉ stored ∪ lent) →
  cloneApproval s a = (s1, a1) →
  it = {| it_approval := a1; it_used := false; it_decision := "";
          it_done := Some (s_next_chan s1) |} →
  cloneApproval (with_items (fst (make_chan s1)) (<[id := it]> (s_items s1))) a = (s3, a3) →
  s_items s3 !! id = Some it ∧ ap_id a3 = id ∧
  Inv s3 (buffer_set (ap_command a3) ∪ lent) (buffer_set (ap_command a1) ∪ stored)
    (<[id := (grant_of s3 a3, "")]> b).
Proof.
  intros HI Hnone Hsz Hid Hu Hcode Hne Hl Hc1 Hit Hc3.
  assert (below s ({[default 0 (ap_command a)]} ∪ (stored ∪ lent))) as Hbel.
  { intros l Hin. apply elem_of_union in Hin as [Hin|Hin]; [|by apply (inv_below _ _ _ _ HI)].
    destruct (ap_command a) as [l'|] eqn:Hca; [|done].
    destruct (Hl l' eq_refl). set_solver. }
  destruct (cloneApproval_spec _ _ _ _ _ Hbel Hc1) as (Hsr & Hg & Hid1 & Ha1 & Hl1).
  assert (Inv s1 lent stored b) as HI1.
  { apply (Inv_same_records s); [|done]. destruct Hsr as [???? Hh].
    split; try done. intros l Hin. apply Hh. set_solver. }
  destruct (ap_command a1) as [l1|] eqn:Hca1.
  2:{ apply (f_equal g_command) in Hg. unfold grant_of in Hg. simpl in Hg. by rewrite Hca1 in Hg. }
  destruct (Hl1 l1 eq_refl) as [Hl1a Hl1b].
  pose proof (sr_items _ _ _ Hsr) as Hit1.
  assert (ap_used a1 = false ∧ ap_code a1 = ap_code a) as [Hu1 Hcode1] by by rewrite Ha1.
  assert (Inv (with_items (fst (make_chan s1)) (<[id := it]> (s_items s1))) lent ({[l1]} ∪ stored)
      (<[id := (grant_of s1 a1, "")]> b)) as HI2.
  { rewrite Hit. apply enter_Inv; rewrite ?Hit1; try done; [congruence..|].
    intros Hin. assert (l1 < s_next_buffer s)%nat; [apply Hbel; set_solver|lia]. }
  destruct (clone_lend_Inv _ _ _ _ (ap_used a3) _ _ _ HI2 Hc3) as (HI3 & Hg3 & Hid3 & Hsr3).
  rewrite (sr_items _ _ _ Hsr3). simpl. rewrite lookup_insert_eq.
  split; [done|]. split; [congruence|].
  replace (grant_of s3 a3) with (grant_of s1 a1); [done|].
  rewrite Hg. change (grant_of s3 a3) with (grant_of s3 (set_used a3 (ap_used a3))). rewrite Hg3.
  unfold grant_of. f_equal. simpl. destruct (ap_command a) as [l|] eqn:Hca; [|done].
  simpl. rewrite (sr_heap _ _ _ Hsr) by set_solver. done.
Qed.

Lemma CreateBatch_Inv s aliases command categories limits t1 t2 s' r lent stored b :
  Inv s lent stored b →
  CreateBatch s aliases command categories limits t1 t2 = (s', r) →
  match r with
  | Fail _ => Inv s' lent stored b
  | Ok a =>
      ∃ it, s_items s' !! ap_id a = Some it ∧
        Inv s' (buffer_set (ap_command a) ∪ lent)
          (buffer_set (ap_command (it_approval it)) ∪ stored)
          (<[ap_id a := (grant_of s' a, "")]> b)
  end.
Proof.
  intros HI. unfold CreateBatch. destruct (normalizeAliases aliases) as [|alias0 al]; [by intros [= <- <-]|].
  case_match eqn:Hguard; [by intros [= <- <-]|].
  assert (command ≠ "") as Hne by (intros ->; done). clear Hguard.
  apply (cleanupLocked_Inv s t1 "") in HI. revert HI. generalize (cleanupLocked s t1 ""). clear s. intros s HI.
  case_match eqn:Hsz; [by intros [= <- <-]|]. bool_hyps.
  destruct (read_full 16 _) as [[idb rest]|]; [|intros [= <- <-]; by apply with_random_Inv].
  apply (with_random_Inv s rest) in HI. simpl s_items. case_decide as Hex; [by intros [= <- <-]|].
  apply eq_None_not_Some in Hex.
  destruct (generateCode _) as [[code rest2]|] eqn:Hcode; [|intros [= <- <-]; by apply with_random_Inv].
  apply (with_random_Inv _ rest2) in HI. apply generateCode_loop_spec in Hcode as [Hlen _].
  set (s0 := with_random _ rest2) in *.
  assert (s_items s0 !! hex_encode idb = None) as Hnone by done.
  assert ((size (s_items s0) < maxStoreEntries)%nat) as Hsz0 by done.
  clearbody s0. clear s rest Hex Hsz.
  destruct (copy_bytes s0 command) as [s1 local] eqn:Hc1.
  destruct (copy_bytes_spec _ _ _ _ (stored ∪ lent) (inv_below _ _ _ _ HI) Hc1) as (Hsr1 & Hr1 & Hl1).
  assert (Inv s1 lent stored b) as HI1.
  { apply (Inv_same_records s0); [|done]. destruct Hsr1 as [???? Hh].
    split; try done. intros l Hin. apply Hh. set_solver. }
  set (a := {| ap_id := _ |}). destruct (cloneApproval s1 a) as [s2 a2] eqn:Hc2.
  cbn [make_chan]. destruct (cloneApproval (with_items _ _) a) as [s3 a3] eqn:Hc3. intros [= <- <-].
  assert (ap_id a = hex_encode idb) as Hid by done.
  edestruct (record_new_Inv s1 lent stored b a (hex_encode idb) s2 a2 s3 a3)
    as (Hit3 & Hid3 & HI3); [..|exact Hc2|reflexivity|exact Hc3|]; try done.
  - by rewrite (sr_items _ _ _ Hsr1).
  - by rewrite (sr_items _ _ _ Hsr1).
  - unfold a; cbn [ap_command]; by rewrite Hr1.
  - unfold a; cbn [ap_command]; intros l ->. destruct (Hl1 l eq_refl) as [Hla Hlb]. split; [lia|].
    intros Hin. apply (inv_below _ _ _ _ HI) in Hin. lia.
  - rewrite Hid3. by eexists.
Qed.

Lemma Decide_Inv s id allow now lent stored b :
  Inv s lent stored b →
  ∃ s' r, Decide s id allow now = Some (s', r) ∧
    match r with
    | Fail _ => Inv s' lent stored b
    | Ok _ => ∃ b', book_step b (EvDecided id allow now) = Some b' ∧ Inv s' lent stored b'
    end.
Proof.
  intros HI. unfold Decide. case_match; [by do 2 eexists|].
  destruct (s_items s !! id) as [it|] eqn:Hit; [|by do 2 eexists].
  destruct (now <? _)%Z eqn:Hnow; simpl negb; cbn match.
  2:{ do 2 eexists. split; [done|]. by apply wipe_item_Inv. }
  case_match eqn:Hused; [by do 2 eexists|]. bool_hyps. rename select (it_used it = false) into Hu.
  destruct (inv_live _ _ _ _ HI _ _ Hit Hu) as (Hid&Hau&Hcode&(l & Hl & Hin)&(c & Hc & Hlt & Hcl)&_&Hbk).
  cbn [it_done set_decision]. rewrite Hc. simpl close_chan.
  assert (it_decision it = "") as Hd by done. rewrite Hd in *.
  rewrite decide_False by naive_solver. do 2 eexists. split; [done|].
  unfold book_step. rewrite Hbk. cbn [grant_of g_expires_at]. rewrite (proj2 (Z.ltb_lt _ _) Hnow). eexists. split; [done|].
  set (d := if allow then _ else _). assert (d ≠ "" ∧ d ∈ [""; "approved"; "denied"]) as [Hd1 Hd2].
  { unfold d. destruct allow; set_solver. }
  destruct HI as [Hlive Hdead Hsep Hdj Hb Hw Hch Hsz]. split; simpl; try done.
  - intros id' it' Hit' Hu'. apply lookup_insert_Some in Hit' as [[<- <-]|[Hne Hit']].
    + repeat split; simpl; try done; [by exists l|exists c; set_solver|].
      by rewrite lookup_insert_eq.
    + destruct (Hlive _ _ Hit' Hu') as (?&?&?&?&(c' & Hc' & ? & ?)&?&?).
      repeat split; try done; [|by rewrite lookup_insert_ne].
      exists c'. repeat split; try done; simpl; [|set_solver].
      assert (c' ≠ c); [|set_solver]. intros ->.
      destruct (Hsep _ _ _ _ Hit' Hit Hu' Hu) as [_ ?]; congruence.
  - intros id' it' Hit' Hu'. apply lookup_insert_Some in Hit' as [[<- <-]|[Hne Hit']].
    + simpl in Hu'. congruence.
    + by apply (Hdead id').
  - intros id1 it1 id2 it2 H1 H2 Hu1 Hu2 Hne12.
    apply lookup_insert_Some in H1 as [[<- <-]|[? H1]], H2 as [[<- <-]|[? H2]]; [done|..].
    + by apply (Hsep id it id2 it2).
    + by apply (Hsep id1 it1 id it).
    + by apply (Hsep id1 it1 id2 it2).
  - intros l' Hl'. destruct (Hw l' Hl') as [?|(id' & it' & Hit' & Hu' & Hc')]; [by left|right].
    destruct (decide (id = id')) as [<-|].
    + rewrite Hit in Hit'. injection Hit' as <-. eexists id, _. by rewrite lookup_insert_eq.
    + exists id', it'. by rewrite lookup_insert_ne.
  - intros c' Hc'. apply elem_of_union in Hc' as [Hc'|]; [|by apply Hch]. set_solver.
  - rewrite map_size_insert_Some by done. done.
Qed.

(** Striking a record out of the book once its item is gone. *)
Lemma Inv_delete s lent stored b id :
  (∀ it, s_items s !! id = Some it → it_used it = true) →
  Inv s lent stored b → Inv s lent stored (delete id b).
Proof.
  intros Hid [Hlive ???????]. split; try done. intros id' it' Hit' Hu'.
  destruct (Hlive _ _ Hit' Hu') as (?&?&?&?&?&?&?). repeat split; try done.
  rewrite lookup_delete_ne; [done|]. intros <-. apply Hid in Hit'. congruence.
Qed.

Lemma grant_of_same s s' a stored :
  same_records s s' stored → (∀ l, ap_command a = Some l → l ∈ stored) → grant_of s' a = grant_of s a.
Proof.
  intros Hsr Hl. unfold grant_of. f_equal. destruct (ap_command a) as [l|]; [|done].
  simpl. by rewrite (sr_heap _ _ _ Hsr) by auto.
Qed.

(** The copy made for a caller still reads the same after the record is wiped. *)
Lemma grant_of_wiped s a c l :
  (∀ l', ap_command a = Some l' → l' ≠ l) → c = Some l →
  grant_of (zeroBytes s c) a = grant_of s a.
Proof.
  intros Hl ->. unfold grant_of. f_equal. destruct (ap_command a) as [l'|]; [|done].
  simpl. rewrite lookup_alter_ne; [done|]. specialize (Hl l' eq_refl). congruence.
Qed.

Lemma tombstone_Inv s lent stored b id it :
  s_items s !! id = Some it → it_used it = false → Inv s lent stored b →
  Inv (with_items (zeroBytes s (ap_command (it_approval it)))
         (<[id := tombstone (ap_id (it_approval it)) (ap_expires_at (it_approval it))]> (s_items s)))
      lent stored (delete id b).
Proof.
  intros Hit Hu HI.
  destruct (inv_live _ _ _ _ HI _ _ Hit Hu) as (Hid&_&_&(l & Hl & Hin)&_).
  apply Inv_delete; simpl; [intros ?; rewrite lookup_insert_eq; by intros [= <-]|].
  split; simpl.
  - intros id' it' Hit' Hu'. apply lookup_insert_Some in Hit' as [[<- <-]|[Hne Hit']]; [done|].
    by apply (live_zero_other s lent stored b id it).
  - intros id' it' Hit' Hu'. apply lookup_insert_Some in Hit' as [[<- <-]|[Hne Hit']].
    + rewrite Hid. by eexists.
    + by apply (inv_dead _ _ _ _ HI id').
  - intros id1 it1 id2 it2 H1 H2 Hu1 Hu2 Hne12.
    apply lookup_insert_Some in H1 as [[<- <-]|[? H1]], H2 as [[<- <-]|[? H2]]; try done.
    by eapply (inv_sep _ _ _ _ HI).
  - apply (inv_disjoint _ _ _ _ HI).
  - intros l' Hl'. apply (inv_below _ _ _ _ HI) in Hl'. by destruct (ap_command _).
  - intros l' Hl'. destruct (inv_wiped _ _ _ _ HI l' Hl') as [Hw|(id' & it' & Hit' & Hu' & Hc')].
    + left. by apply (zeroBytes_keeps_wiped s).
    + destruct (decide (id = id')) as [<-|Hne].
      * left. rewrite Hit in Hit'; injection Hit' as <-; rewrite Hc'. apply (zeroBytes_wiped s).
      * right. exists id', it'. by rewrite lookup_insert_ne.
  - intros c. pose proof (inv_chans _ _ _ _ HI c). by destruct (ap_command _).
  - rewrite map_size_insert_Some by done. apply (inv_size _ _ _ _ HI).
Qed.

(** A delivery: the record is copied for the caller, then wiped. *)
Lemma deliver_Inv s lent stored b id it s1 a1 :
  s_items s !! id = Some it → it_used it = false → Inv s lent stored b →
  cloneApproval s (it_approval it) = (s1, a1) →
  let s2 := zeroBytes s1 (ap_command (it_approval it)) in
  grant_of s2 (set_used a1 true) = grant_of s (it_approval it) ∧
  Inv (wipe_item s1 id it) (buffer_set (ap_command a1) ∪ lent) stored (delete id b) ∧
  Inv (with_items s2 (<[id := tombstone (ap_id (it_approval it)) (ap_expires_at (it_approval it))]> (s_items s2)))
    (buffer_set (ap_command a1) ∪ lent) stored (delete id b).
Proof.
  intros Hit Hu HI Hc s2.
  destruct (clone_lend_Inv _ _ _ _ true _ _ _ HI Hc) as (HI1 & Hg & _ & Hsr). simpl in HI1.
  destruct (inv_live _ _ _ _ HI _ _ Hit Hu) as (_&_&_&(l & Hl & Hin)&_).
  assert (s_items s1 !! id = Some it) as Hit1 by by rewrite (sr_items _ _ _ Hsr).
  split; [|split].
  - rewrite <- Hg. unfold s2. eapply (grant_of_wiped _ _ _ l); [|done].
    simpl. intros l' Hl' ->. pose proof (inv_disjoint _ _ _ _ HI1) as Hdj.
    rewrite Hl' in Hdj. simpl in Hdj. set_solver.
  - apply Inv_delete; [rewrite wipe_item_items; intros ?; by rewrite lookup_delete_eq|].
    by apply wipe_item_Inv.
  - unfold s2. assert (s_items (zeroBytes s1 (ap_command (it_approval it))) = s_items s1) as ->
      by by destruct (ap_command _).
    by apply tombstone_Inv.
Qed.

Lemma Wait_finish_Inv s w o s' r lent stored b :
  Inv s lent stored b → Wait_finish s w o = (s', r) →
  match r with
  | Ok (Some a) => ∃ b', book_step b (EvDelivered (w_id w) (grant_of s' a) ByDecision) = Some b' ∧
      Inv s' (buffer_set (ap_command a) ∪ lent) stored b'
  | _ => Inv s' lent stored b
  end.
Proof.
  intros HI. unfold Wait_finish. destruct o; [by intros [= <- <-]| |].
  - destruct (s_items s !! w_id w) as [it|] eqn:Hit; [|by intros [= <- <-]].
    case_match; [intros [= <- <-]; by apply wipe_item_Inv|].
    case_match; [by intros [= <- <-]|]. bool_hyps.
    destruct (it_used it) eqn:Hu; [by destruct (inv_dead _ _ _ _ HI _ _ Hit Hu) as [e ->]|].
    destruct (inv_live _ _ _ _ HI _ _ Hit Hu) as (_&_&_&_&_&_&Hbk).
    destruct (cloneApproval s _) as [s1 a1] eqn:Hc. intros [= <- <-].
    destruct (deliver_Inv _ _ _ _ _ _ _ _ Hit Hu HI Hc) as (Hg & HI' & _).
    exists (delete (w_id w) b). split; [|done]. unfold book_step. rewrite Hbk.
    change (grant_of (wipe_item _ _ _)) with (grant_of (zeroBytes s1 (ap_command (it_approval it)))).
    rewrite Hg, decide_True by done.
    by rename select (it_decision it = _) into Hd; rewrite Hd.
  - destruct (s_items s !! w_id w) as [it|] eqn:Hit; intros [= <- <-]; [by apply wipe_item_Inv|done].
Qed.

Lemma Consume_Inv s id code now s' r lent stored b :
  Inv s lent stored b → Consume s id code now = (s', r) →
  match r with
  | Ok a => ∃ b', book_step b (EvDelivered id (grant_of s' a) (ByCode code now)) = Some b' ∧
      Inv s' (buffer_set (ap_command a) ∪ lent) stored b'
  | Fail _ => Inv s' lent stored b
  end.
Proof.
  intros HI. unfold Consume. case_match; [by intros [= <- <-]|].
  destruct (s_items s !! id) as [it|] eqn:Hit; [|intros [= <- <-]; by apply cleanupLocked_Inv].
  destruct (now <? _)%Z eqn:Hnow; cbn [negb]; [|intros [= <- <-]; by apply wipe_item_Inv].
  assert (s_items (cleanupLocked s now id) !! id = Some it) as Hit'.
  { apply cleanupLocked_items. by split; [|left]. }
  apply (cleanupLocked_Inv s now id) in HI. revert HI Hit'. generalize (cleanupLocked s now id).
  clear s Hit. intros s HI Hit.
  destruct (it_used it) eqn:Hu; [by intros [= <- <-]|].
  destruct (code_matches _ code) eqn:Hm; cbn [negb]; [|by intros [= <- <-]].
  destruct (inv_live _ _ _ _ HI _ _ Hit Hu) as (_&_&_&_&_&_&Hbk).
  destruct (cloneApproval s _) as [s1 a1] eqn:Hc. intros [= <- <-].
  destruct (deliver_Inv _ _ _ _ _ _ _ _ Hit Hu HI Hc) as (Hg & _ & HI').
  exists (delete id b). split; [|done]. unfold book_step. rewrite Hbk.
  change (grant_of (with_items _ _)) with (grant_of (zeroBytes s1 (ap_command (it_approval it)))).
  rewrite Hg, decide_True by done. cbn [grant_of g_code g_expires_at]. by rewrite Hm, Hnow.
Qed.

Lemma Revoke_Inv s id s' r lent stored b :
  Inv s lent stored b → Revoke s id = (s', r) → Inv s' lent stored b.
Proof.
  intros HI. unfold Revoke. repeat case_match; intros [= <- <-]; try done. by apply wipe_item_Inv.
Qed.

Definition lent_by (l : list Approval) : gset nat := ⋃ ((λ a, buffer_set (ap_command a)) <$> l).

Lemma lent_by_spec l x : x ∈ lent_by l ↔ ∃ a, a ∈ l ∧ ap_command a = Some x.
Proof.
  unfold lent_by. rewrite elem_of_union_list. setoid_rewrite list_elem_of_fmap. split.
  - intros (X & (a & -> & Ha) & Hx). exists a. destruct (ap_command a); set_solver.
  - intros (a & Ha & Hc). eexists. split; [by exists a|]. rewrite Hc. set_solver.
Qed.

Lemma list_fold_Inv include l s acc s' res lent stored b :
  Inv s (lent_by acc ∪ lent) stored b →
  foldl (list_item include) (s, acc) l = (s', res) →
  Inv s' (lent_by res ∪ lent) stored b.
Proof.
  revert s acc. induction l as [|it l IH]; intros s acc HI; simpl; [by intros [= <- <-]|].
  destruct (it_used it); [by apply IH|].
  destruct (cloneApproval s _) as [s1 c] eqn:Hc.
  destruct (clone_lend_Inv _ _ _ _ (negb (String.eqb (it_decision it) "")) _ _ _ HI Hc)
    as (HI1 & _ & _ & Hsr).
  assert (∀ c', lent_by (acc ++ [c']) = buffer_set (ap_command c') ∪ lent_by acc) as Hla.
  { intros c'. apply set_eq. intros x. rewrite elem_of_union, !lent_by_spec.
    setoid_rewrite elem_of_app. setoid_rewrite list_elem_of_singleton.
    destruct (ap_command c') eqn:Hcc; set_solver. }
  destruct include; apply IH; rewrite Hla; simpl.
  - by rewrite <- (assoc_L _).
  - rewrite (left_id_L ∅ (∪)).
    apply (Inv_same_records s1); [apply zeroBytes_other|by apply (Inv_same_records s)].
    intros x Hx. pose proof (inv_disjoint _ _ _ _ HI1) as Hdj. simpl in Hdj. rewrite Hx in Hdj.
    simpl in Hdj. set_solver.
Qed.

Lemma List_Inv s include now s' res lent stored b :
  Inv s lent stored b → List s include now = (s', res) → Inv s' (lent_by res ∪ lent) stored b.
Proof.
  intros HI. unfold List. destruct (foldl _ _ _) as [s1 r1] eqn:Hf. intros [= <- <-].
  assert (lent_by (merge_sort created_le r1) = lent_by r1) as ->.
  { apply set_eq. intros x. rewrite !lent_by_spec. by setoid_rewrite merge_sort_Permutation. }
  eapply list_fold_Inv; [|exact Hf]. unfold lent_by. simpl. rewrite (left_id_L ∅ (∪)).
  by apply cleanupLocked_Inv.
Qed.

Lemma Get_Inv s id s' r lent stored b :
  Inv s lent stored b → Get s id = (s', r) →
  match r with
  | Ok (a, _) => Inv s' (buffer_set (ap_command a) ∪ lent) stored b
  | Fail _ => Inv s' lent stored b
  end.
Proof.
  intros HI. unfold Get. case_match; [by intros [= <- <-]|].
  case_match; [|by intros [= <- <-]]. destruct (cloneApproval s _) as [s1 c] eqn:Hc.
  intros [= <- <-]. by destruct (clone_lend_Inv _ _ _ _ (ap_used c) _ _ _ HI Hc).
Qed.

Definition WInv (w : World) (b : book) : Prop := Inv (wd_store w) (wd_lent w) (wd_stored w) b.

Lemma WInv_initial random : WInv (initial_world random) ∅.
Proof.
  split; simpl; try (intros *; rewrite lookup_empty; done); try set_solver.
  rewrite map_size_empty. unfold maxStoreEntries. lia.
Qed.

Lemma union_list_single (X : gset nat) : ⋃ [X] = X.
Proof. simpl. apply (right_id_L ∅ (∪)). Qed.

Lemma call_step_Inv w c w' ev b :
  WInv w b → call_step w c = Some (w', ev) → ∃ b', book_run b ev = Some b' ∧ WInv w' b'.
Proof.
  unfold WInv. intros HI. destruct c; cbn [call_step].
  - destruct (CreateBatch _ _ _ _ _ _ _) as [s' r] eqn:Hc.
    pose proof (CreateBatch_Inv _ _ _ _ _ _ _ _ _ _ _ _ HI Hc) as Hr.
    destruct r as [a|e]; intros [= <- <-]; [|by exists b].
    destruct Hr as (it & -> & Hr). eexists. split; [done|].
    cbn [note_stored lend wd_store wd_lent wd_stored fmap list_fmap]. by rewrite union_list_single.
  - destruct (List _ _ _) as [s' l] eqn:Hl. intros [= <- <-]. exists b. split; [done|].
    by eapply List_Inv.
  - destruct (Get _ _) as [s' r] eqn:Hg. pose proof (Get_Inv _ _ _ _ _ _ _ HI Hg) as Hr.
    destruct r as [[a d]|e]; intros [= <- <-]; exists b; (split; [done|]); [|done].
    cbn [lend wd_store wd_lent wd_stored fmap list_fmap]. by rewrite union_list_single.
  - destruct (Decide_Inv _ id allow now _ _ _ HI) as (s' & r & -> & Hr).
    destruct r as [u|e]; intros [= <- <-]; [|by exists b].
    destruct Hr as (b' & Hb & HI'). exists b'. cbn [book_run]. by rewrite Hb.
  - destruct (Wait_begin _ _); intros [= <- <-]; by exists b.
  - destruct (wd_waiters w !! n) as [wt|]; [|done]. destruct (select_ready _ _ _ _); [|done].
    destruct (Wait_finish _ _ _) as [s' r] eqn:Hw.
    pose proof (Wait_finish_Inv _ _ _ _ _ _ _ _ HI Hw) as Hr.
    destruct r as [[a|]|e]; intros [= <- <-]; [|by exists b..].
    destruct Hr as (b' & Hb & HI'). exists b'. cbn [book_run]. rewrite Hb. split; [done|].
    cbn [lend wd_store wd_lent wd_stored fmap list_fmap with_waiters]. by rewrite union_list_single.
  - destruct (Consume _ _ _ _) as [s' r] eqn:Hc.
    pose proof (Consume_Inv _ _ _ _ _ _ _ _ _ HI Hc) as Hr.
    destruct r as [a|e]; intros [= <- <-]; [|by exists b].
    destruct Hr as (b' & Hb & HI'). exists b'. cbn [book_run]. rewrite Hb. split; [done|].
    cbn [lend wd_store wd_lent wd_stored fmap list_fmap]. by rewrite union_list_single.
  - destruct (Revoke _ _) as [s' r] eqn:Hr. intros [= <- <-]. exists b. split; [done|].
    by eapply Revoke_Inv.
  - case_decide as Hl; [|done]. intros [= <- <-]. exists b. split; [done|].
    eapply Inv_same_records; [|exact HI]. split; simpl; try done.
    intros l' Hl'. apply lookup_insert_ne. intros <-.
    pose proof (inv_disjoint _ _ _ _ HI). set_solver.
Qed.

Lemma book_run_app b l1 l2 b1 :
  book_run b l1 = Some b1 → book_run b (l1 ++ l2) = book_run b1 l2.
Proof.
  revert b. induction l1 as [|e l1 IH]; intros b; simpl; [by intros [= ->]|].
  destruct (book_step b e); [apply IH|done].
Qed.

Lemma run_calls_Inv w l w' ev b :
  WInv w b → run_calls w l = Some (w', ev) → ∃ b', book_run b ev = Some b' ∧ WInv w' b'.
Proof.
  revert w ev b. induction l as [|c l IH]; intros w ev b HI; simpl; [intros [= <- <-]; by exists b|].
  destruct (call_step w c) as [[w1 ev1]|] eqn:Hc; [|done].
  destruct (run_calls w1 l) as [[w2 ev2]|] eqn:Hr; [|done]. intros [= <- <-].
  destruct (call_step_Inv _ _ _ _ _ HI Hc) as (b1 & Hb1 & HI1).
  destruct (IH _ _ _ HI1 Hr) as (b2 & Hb2 & HI2). exists b2. split; [|done].
  by rewrite (book_run_app _ _ _ _ Hb1).
Qed.

(** ** What callers can rely on *)

(** A sample run: two approvals, one consumed with its code, one approved and
    waited for; the first caller scribbles over the bytes it was given. *)
Definition sample_random : string :=
  "0123456789abcdefABCD" +:+ "fedcba9876543210WXYZ".

Definition sample_limits : ExecutionLimits := {| lim_timeout := minute; lim_max_output := 1024 |}.

Definition sample_code (n : nat) : string :=
  match generateCode (str_drop n sample_random) with Some (c, _) => c | None => "" end.

Definition sample_id (n : nat) : string := hex_encode (str_take 16 (str_drop n sample_random)).

Definition sample_calls : list call :=
  [ CallCreate ["web"; ""; "web"; "db"] "rm -rf /srv" [] sample_limits 0 10;
    CallerWrites 2 "scribble";
    CallCreate ["db"] "cat /etc/shadow" [SSHSecret] sample_limits 20 20;
    CallWait (sample_id 20);
    CallConsume (sample_id 0) "XXXX" 30;
    CallConsume (sample_id 0) (sample_code 16) 30;
    CallConsume (sample_id 0) (sample_code 16) 31;
    CallDecide (sample_id 20) true 40;
    CallList true 41;
    CallSelect 0 DecisionMade 50 ].

(** C3: refinement of the approval book: whatever calls are interleaved, in
    whatever order and at whatever times, with callers writing into every
    buffer they were given, the creations, decisions and deliveries of the
    store are a run of the abstract book: each delivery strikes out one grant
    entered before, with exactly the command bytes, servers and limits it was
    created with, and needs the grant's code before its expiry or an approving
    decision taken before its expiry. *)
Theorem store_refines_book random calls w ev :
  run_calls (initial_world random) calls = Some (w, ev) →
  is_Some (book_run ∅ ev).
Proof.
  intros Hr. destruct (run_calls_Inv _ _ _ _ _ (WInv_initial random) Hr) as (b & Hb & _).
  by exists b.
Qed.

Definition sample_world : World * list event :=
  default (initial_world "", []) (run_calls (initial_world sample_random) sample_calls).

Lemma sample_run :
  run_calls (initial_world sample_random) sample_calls = Some (fst sample_world, snd sample_world).
Proof. vm_compute. reflexivity. Qed.

Lemma store_refines_book_witness :
  length (snd sample_world) = 5 ∧ is_Some (book_run ∅ (snd sample_world)).
Proof.
  split; [vm_compute; reflexivity|].
  exact (store_refines_book sample_random sample_calls _ _ sample_run).
Defined.

Definition delivered_id (e : event) : option string :=
  match e with EvDelivered id _ _ => Some id | _ => None end.
Definition created_id (e : event) : option string :=
  match e with EvCreated id _ => Some id | _ => None end.

Definition count_id (f : event → option string) (id : string) (l : list event) : nat :=
  length (filter (λ e, f e = Some id) l).

Lemma book_run_count b l b' id :
  book_run b l = Some b' →
  (count_id delivered_id id l ≤ count_id created_id id l + (if b !! id then 1 else 0))%nat.
Proof.
  unfold count_id. revert b. induction l as [|e l IH]; intros b; simpl; [lia|].
  destruct (book_step b e) as [b1|] eqn:He; [|done]. intros Hr. specialize (IH _ Hr).
  rewrite !filter_cons.
  destruct e as [id' g|id' al t|id' g how]; cbn [delivered_id created_id book_step] in He |- *.
  - rewrite decide_False by done. simplify_eq. case_decide as Hid; simplify_eq/=.
    + rewrite lookup_insert_eq in IH. simpl in *. lia.
    + rewrite lookup_insert_ne in IH by congruence. lia.
  - rewrite !decide_False by done.
    destruct (b !! id') as [[g []]|] eqn:Hb; simplify_eq. case_match; simplify_eq.
    destruct (decide (id' = id)) as [->|Hne].
    + rewrite lookup_insert_eq in IH. by rewrite Hb.
    + by rewrite lookup_insert_ne in IH.
  - destruct (b !! id') as [[g' d]|] eqn:Hb; [|done].
    assert (b1 = delete id' b) as -> by (repeat case_match; by simplify_eq).
    repeat case_decide; simplify_eq/=.
    + rewrite lookup_delete_eq in IH. rewrite Hb. simpl in *. lia.
    + rewrite lookup_delete_ne in IH by congruence. lia.
Qed.

(** C8: single use: an approval is delivered at most as many times as it was
    created, so a replayed code, a second waiter, or a code used after an
    approving decision never releases the command again. *)
Theorem approval_single_use random calls w ev id :
  run_calls (initial_world random) calls = Some (w, ev) →
  (count_id delivered_id id ev ≤ count_id created_id id ev)%nat.
Proof.
  intros Hr. destruct (run_calls_Inv _ _ _ _ _ (WInv_initial random) Hr) as (b & Hb & _).
  apply (book_run_count _ _ _ id) in Hb. rewrite lookup_empty in Hb. lia.
Qed.

Lemma approval_single_use_witness :
  count_id delivered_id (sample_id 0) (snd sample_world) = 1 ∧
  (count_id delivered_id (sample_id 0) (snd sample_world)
     ≤ count_id created_id (sample_id 0) (snd sample_world))%nat.
Proof.
  split; [vm_compute; reflexivity|].
  exact (approval_single_use sample_random sample_calls _ _ (sample_id 0) sample_run).
Defined.

(** C34: the store keeps at most 256 records, and no command outlives its
    record: every buffer a record ever owned is all zero unless a record that
    is not yet used still owns it, and no such buffer was ever lent. *)
Theorem store_bounded_and_wiped random calls w ev :
  run_calls (initial_world random) calls = Some (w, ev) →
  (size (s_items (wd_store w)) ≤ 256)%nat ∧
  wd_stored w ## wd_lent w ∧
  ∀ l, l ∈ wd_stored w →
    wiped (wd_store w) l ∨
    ∃ id it, s_items (wd_store w) !! id = Some it ∧ it_used it = false ∧
             ap_command (it_approval it) = Some l.
Proof.
  intros Hr. destruct (run_calls_Inv _ _ _ _ _ (WInv_initial random) Hr) as (b & _ & HI).
  split; [apply (inv_size _ _ _ _ HI)|]. split; [apply (inv_disjoint _ _ _ _ HI)|].
  apply (inv_wiped _ _ _ _ HI).
Qed.

Lemma store_bounded_and_wiped_witness :
  wd_stored (fst sample_world) ## wd_lent (fst sample_world).
Proof. exact (proj1 (proj2 (store_bounded_and_wiped sample_random sample_calls _ _ sample_run))). Defined.

(** [Decide] never panics: in every reachable store the channel of a
    record that can still be decided exists and is open. *)
Theorem Decide_never_panics random calls w ev id allow now :
  run_calls (initial_world random) calls = Some (w, ev) →
  is_Some (Decide (wd_store w) id allow now).
Proof.
  intros Hr. destruct (run_calls_Inv _ _ _ _ _ (WInv_initial random) Hr) as (b & _ & HI).
  destruct (Decide_Inv _ id allow now _ _ _ HI) as (s' & r & -> & _). by eexists.
Qed.

Lemma Decide_never_panics_witness :
  is_Some (Decide (wd_store (fst sample_world)) (sample_id 0) true 35).
Proof. exact (Decide_never_panics sample_random sample_calls _ _ (sample_id 0) true 35 sample_run). Defined.

(** The outcome of [Consume] in every case, expiry first: an expired
    record is removed and reported expired whatever the code, a used one is
    reported used, a wrong code changes nothing of a live record, and the right
    code leaves a tombstone, so that the next attempt before the expiry is
    reported as a replay. *)
Theorem Consume_outcomes s id code now s' r :
  id ≠ "" → Consume s id code now = (s', r) →
  match s_items s !! id with
  | None => r = Fail ErrNotFound
  | Some it =>
      let e := ap_expires_at (it_approval it) in
      if (e <=? now)%Z then r = Fail ErrExpired ∧ s_items s' !! id = None
      else if it_used it then r = Fail ErrUsed ∧ s_items s' !! id = Some it
      else if code_matches (ap_code (it_approval it)) code
      then (∃ a, r = Ok a ∧ ap_used a = true ∧ ap_server_aliases a = ap_server_aliases (it_approval it)) ∧
           s_items s' !! id = Some (tombstone (ap_id (it_approval it)) e) ∧
           ∀ code' now', (now' < e)%Z → snd (Consume s' id code' now') = Fail ErrUsed
      else r = Fail ErrCode ∧ s_items s' !! id = Some it
  end.
Proof.
  unfold Consume. intros Hid. assert (str_is_empty id = false) as -> by (by destruct id).
  destruct (s_items s !! id) as [it|] eqn:Hit; [|by intros [= <- <-]]. cbn zeta.
  rewrite Z.leb_antisym. destruct (now <? _)%Z eqn:Hnow; cbn [negb].
  2:{ intros [= <- <-]. by rewrite wipe_item_items, lookup_delete_eq. }
  assert (s_items (cleanupLocked s now id) !! id = Some it) as Hit'.
  { apply cleanupLocked_items. by split; [|left]. }
  destruct (it_used it); [by intros [= <- <-]|].
  destruct (code_matches _ code); cbn [negb]; [|by intros [= <- <-]].
  unfold cloneApproval. destruct (copy_bytes _ _) as [s1 c]. intros [= <- <-].
  split; [by eexists|]. cbn [with_items s_items]. rewrite lookup_insert_eq. split; [done|].
  intros code' now' Hlt. cbn [with_items s_items tombstone it_approval ap_expires_at it_used].
  apply Z.ltb_lt in Hlt. by rewrite Hlt.
Qed.

Lemma Consume_outcomes_witness :
  snd (Consume (wd_store (fst sample_world)) (sample_id 0) "ABCD" 60) = Fail ErrUsed.
Proof.
  pose proof (Consume_outcomes (wd_store (fst sample_world)) (sample_id 0) "ABCD" 60 _ _
    ltac:(vm_compute; discriminate) (surjective_pairing _)) as H.
  assert (s_items (wd_store (fst sample_world)) !! sample_id 0
          = Some (tombstone (sample_id 0) (10 + defaultTTL))) as Hl by (vm_compute; reflexivity).
  rewrite Hl in H. exact (proj1 H).
Defined.

(** [Consume] does not look at a decision: an approval that was explicitly
    denied still releases its command to whoever presents its code, until it
    expires or is revoked. *)
Theorem Consume_ignores_denial s id it code now :
  id ≠ "" → s_items s !! id = Some it → it_used it = false → it_decision it = "denied" →
  (now < ap_expires_at (it_approval it))%Z → code_matches (ap_code (it_approval it)) code = true →
  ∃ s' a, Consume s id code now = (s', Ok a) ∧ ap_server_aliases a = ap_server_aliases (it_approval it).
Proof.
  intros Hid Hit Hu _ Hnow Hm. destruct (Consume s id code now) as [s' r] eqn:Hc.
  pose proof (Consume_outcomes _ _ _ _ _ _ Hid Hc) as H. rewrite Hit in H. cbn zeta in H.
  assert ((ap_expires_at (it_approval it) <=? now)%Z = false) as He by (apply Z.leb_gt; lia).
  rewrite He, Hu, Hm in H. destruct H as ((a & -> & _ & ?) & _). by exists s', a.
Qed.

Definition denied_store : Store :=
  match run_calls (initial_world sample_random)
    [CallCreate ["web"] "id" [] sample_limits 0 0; CallDecide (sample_id 0) false 5] with
  | Some (w, _) => wd_store w
  | None => NewStore ""
  end.

Lemma Consume_ignores_denial_witness :
  ∃ s' a, Consume denied_store (sample_id 0) (sample_code 16) 10 = (s', Ok a) ∧ ap_server_aliases a = ["web"].
Proof.
  destruct (s_items denied_store !! sample_id 0) as [it|] eqn:Hit; [|by vm_compute in Hit].
  destruct (Consume_ignores_denial denied_store (sample_id 0) it (sample_code 16) 10)
    as (s' & a & H1 & H2); [|exact Hit|..|exists s', a; split; [exact H1|rewrite H2]];
    try (vm_compute in Hit; injection Hit as <-; vm_compute; reflexivity).
  by vm_compute.
Defined.

(** A request within the limits is granted when there is room and enough
    randomness: it gets the fresh identifier and code drawn from the random
    bytes, its distinct non-blank servers in order, sorted categories, and five
    minutes; a request outside the limits is refused before anything changes. *)
Theorem CreateBatch_outcome s aliases command categories limits t1 t2 idb rest code rest' :
  let valid := negb (Nat.eqb (length (normalizeAliases aliases)) 0)
    && (0 <? slen command)%Z && (slen command <=? maxCommandBytes)%Z
    && (0 <? lim_timeout limits)%Z && (lim_timeout limits <=? maxTimeout)%Z
    && (0 <? lim_max_output limits)%Z && (lim_max_output limits <=? maxOutputBytes)%Z in
  (valid = false →
   CreateBatch s aliases command categories limits t1 t2 = (s, Fail ErrInvalidInput)) ∧
  (valid = true →
   (size (s_items (cleanupLocked s t1 "")) < maxStoreEntries)%nat →
   read_full 16 (s_random (cleanupLocked s t1 "")) = Some (idb, rest) →
   s_items (cleanupLocked s t1 "") !! hex_encode idb = None →
   generateCode rest = Some (code, rest') →
   ∃ s' a, CreateBatch s aliases command categories limits t1 t2 = (s', Ok a) ∧
     ap_id a = hex_encode idb ∧ ap_code a = code ∧
     ap_server_aliases a = normalizeAliases aliases ∧
     ap_categories a = normalizeCategories categories ∧ ap_limits a = limits ∧
     ap_created_at a = t2 ∧ ap_expires_at a = (t2 + defaultTTL)%Z ∧ s_random s' = rest').
Proof.
  intros valid. unfold CreateBatch, valid. clear valid.
  destruct (normalizeAliases aliases) as [|alias0 al]; [done|]. cbn [length Nat.eqb negb andb].
  pose proof (slen_nonneg command).
  split.
  - intros Hv. replace (_ || _) with true; [done|]. symmetry. apply not_false_iff_true. intros Hf.
    bool_hyps. repeat (apply andb_false_iff in Hv as [Hv|Hv]; bool_hyps; [|lia]). lia.
  - intros Hv Hsz Hid Hfresh Hcode. bool_hyps. replace (_ || _) with false.
    2:{ symmetry. repeat (apply orb_false_iff; split); lia. }
    rewrite (proj2 (Nat.leb_gt _ _)) by done. rewrite Hid. cbn [with_random s_items s_random].
    rewrite decide_False by (by rewrite Hfresh; intros []). rewrite Hcode.
    unfold cloneApproval, copy_bytes, make_chan, with_items.
    repeat (case_match; simplify_eq/=); by do 2 eexists.
Qed.

Lemma CreateBatch_outcome_witness :
  snd (CreateBatch (NewStore sample_random) ["web"] "" [] sample_limits 0 0) = Fail ErrInvalidInput ∧
  ∃ s' a, CreateBatch (NewStore sample_random) ["web"] "id" [] sample_limits 0 0 = (s', Ok a) ∧
    ap_code a = sample_code 16.
Proof.
  split.
  - rewrite (proj1 (CreateBatch_outcome (NewStore sample_random) ["web"] "" [] sample_limits 0 0 "" "" "" "")
      eq_refl). reflexivity.
  - destruct (proj2 (CreateBatch_outcome (NewStore sample_random) ["web"] "id" [] sample_limits 0 0
      (str_take 16 sample_random) (str_drop 16 sample_random) (sample_code 16)
      (str_drop 20 sample_random))) as (s' & a & H1 & _ & H2 & _); try (vm_compute; reflexivity).
    { vm_compute. lia. }
    by exists s', a.
Defined.
