(* ===== verification/Regexp.v ===== *)
(** * Regular expressions

    The part of Go's [regexp] that [internal/policy/redactor.go] uses: rune
    classes, concatenation, ordered choice, greedy and lazy repetition, one
    capture group, the ASCII word boundary and the end of text.  Matching
    prefers what a backtracking search meets first, leftmost start first, as
    the package documents; invalid bytes are matched as U+FFFD. *)

From S2P Require Import Prelude GoStr Utf8.
From Stdlib Require Import Ascii.
Open Scope string_scope.
Open Scope list_scope.

(** ** Syntax *)

Inductive re : Type :=
| Eps
| Cls (p : Z → bool)
| Cat (a b : re)
| Alt (a b : re)
| Star (greedy : bool) (a : re)
| Group (a : re)
| WordB
| EndText.

Definition opt (a : re) : re := Alt a Eps.

(** [a{n}], [a{0,n}] and [a{n,m}]; [a{n,}] is [Cat (times n a) (Star true a)]. *)
Fixpoint times (n : nat) (a : re) : re :=
  match n with O => Eps | S O => a | S n' => Cat a (times n' a) end.

Fixpoint up_to (n : nat) (a : re) : re :=
  match n with O => Eps | S n' => opt (Cat a (up_to n' a)) end.

Definition between (n m : nat) (a : re) : re := Cat (times n a) (up_to (m - n) a).

Definition plus (a : re) : re := Cat a (Star true a).

Fixpoint cats (l : list re) : re :=
  match l with [] => Eps | [a] => a | a :: l' => Cat a (cats l') end.

Fixpoint alts (l : list re) : re :=
  match l with [] => Cls (λ _, false) | [a] => a | a :: l' => Alt a (alts l') end.

(** ** Classes *)

Definition is_upper (r : Z) : bool := in_range 65 90 r.
Definition is_lower (r : Z) : bool := in_range 97 122 r.
Definition is_num (r : Z) : bool := in_range 48 57 r.
Definition is_alpha (r : Z) : bool := is_upper r || is_lower r.
Definition is_alnum (r : Z) : bool := is_alpha r || is_num r.
Definition is_word (r : Z) : bool := is_alnum r || Z.eqb r 95.

(** [\s] *)
Definition is_blank (r : Z) : bool :=
  Z.eqb r 9 || Z.eqb r 10 || Z.eqb r 12 || Z.eqb r 13 || Z.eqb r 32.

(** [[a-z]] under [(?i)]: Unicode folds U+017F and U+212A to [s] and [k]. *)
Definition is_alpha_fold (r : Z) : bool := is_alpha r || Z.eqb r 383 || Z.eqb r 8490.

Definition one_of (s : string) (r : Z) : bool := bool_decide (r ∈ rune_values s).

Definition lit_rune (c r : Z) : bool := Z.eqb c r.

(** A literal ASCII letter or character under [(?i)]. *)
Definition fold_rune (c r : Z) : bool :=
  Z.eqb (lower_rune c) (lower_rune r) && (is_alpha r || negb (is_lower (lower_rune c)) || Z.eqb r 8490)
  || (Z.eqb (lower_rune c) 115 && Z.eqb r 383).

Definition lit (s : string) : re := cats ((λ c, Cls (lit_rune c)) <$> rune_values s).
Definition lit_fold (s : string) : re := cats ((λ c, Cls (fold_rune c)) <$> rune_values s).

(** ** Matching *)

(** A position: the rune before it, what follows, its byte offset, and the
    bounds of the capture group. *)
Record pos := Pos {
  p_prev : option Z;
  p_rest : list step;
  p_off : nat;
  p_group : option (nat * nat) }.

Definition advance (s : pos) (x : step) (l : list step) : pos :=
  Pos (Some (st_rune x)) l (p_off s + String.length (st_bytes x)) (p_group s).

Definition word_at (r : option Z) : bool := match r with Some r => is_word r | None => false end.

Definition at_boundary (s : pos) : bool :=
  xorb (word_at (p_prev s)) (word_at (st_rune <$> head (p_rest s))).

Definition set_group (s : pos) (g : option (nat * nat)) : pos :=
  Pos (p_prev s) (p_rest s) (p_off s) g.

(** The repetitions of [body]: one more, or on with [k], in the order of
    preference; a repetition stops when its body consumes nothing. *)
Fixpoint star_loop (body : pos → (pos → option pos) → option pos) (greedy : bool)
    (k : pos → option pos) (n : nat) (s : pos) : option pos :=
  match n with
  | O => k s
  | S n' =>
      let more := body s (λ s',
        if Nat.ltb (length (p_rest s')) (length (p_rest s)) then star_loop body greedy k n' s' else None) in
      if greedy then match more with Some t => Some t | None => k s end
      else match k s with Some t => Some t | None => more end
  end.

(** The backtracking search, with what is still to match as a continuation. *)
Fixpoint search (r : re) (s : pos) (k : pos → option pos) : option pos :=
  match r with
  | Eps => k s
  | Cls p =>
      match p_rest s with
      | [] => None
      | x :: l => if p (st_rune x) then k (advance s x l) else None
      end
  | Cat a b => search a s (λ s', search b s' k)
  | Alt a b => match search a s k with Some t => Some t | None => search b s k end
  | Star greedy a => star_loop (search a) greedy k (length (p_rest s)) s
  | Group a => search a s (λ s', k (set_group s' (Some (p_off s, p_off s'))))
  | WordB => if at_boundary s then k s else None
  | EndText => match p_rest s with [] => k s | _ => None end
  end.

Definition match_at (r : re) (s : pos) : option pos := search r s Some.

(** ** What a match is *)

(** [matches r s t]: the expression can take the text from [s] to [t]. *)
Inductive matches : re → pos → pos → Prop :=
| m_eps s : matches Eps s s
| m_cls p s x l : p_rest s = x :: l → p (st_rune x) = true → matches (Cls p) s (advance s x l)
| m_cat a b s t u : matches a s t → matches b t u → matches (Cat a b) s u
| m_alt_l a b s t : matches a s t → matches (Alt a b) s t
| m_alt_r a b s t : matches b s t → matches (Alt a b) s t
| m_star_nil g a s : matches (Star g a) s s
| m_star_cons g a s t u :
    matches a s t → (length (p_rest t) < length (p_rest s))%nat →
    matches (Star g a) t u → matches (Star g a) s u
| m_group a s t : matches a s t → matches (Group a) s (set_group t (Some (p_off s, p_off t)))
| m_wordb s : at_boundary s = true → matches WordB s s
| m_end s : p_rest s = [] → matches EndText s s.

Lemma star_loop_sound g a k n s t :
  (∀ s k t, search a s k = Some t → ∃ u, matches a s u ∧ k u = Some t) →
  star_loop (search a) g k n s = Some t → ∃ u, matches (Star g a) s u ∧ k u = Some t.
Proof.
  intros Ha. revert s t.
  induction n as [|n IH]; intros s t Hs; [exists s; split; [constructor|done]|].
  assert (∀ t, search a s (λ s', if Nat.ltb (length (p_rest s')) (length (p_rest s))
    then star_loop (search a) g k n s' else None) = Some t →
    ∃ u, matches (Star g a) s u ∧ k u = Some t) as Hmore.
  { intros t' Hm. apply Ha in Hm as (u & Hu & Hk). case_match eqn:Hlt; [|done].
    apply Nat.ltb_lt in Hlt. apply IH in Hk as (v & Hv & Hkv).
    exists v. split; [by eapply m_star_cons|done]. }
  cbn [star_loop] in Hs. destruct g.
  - destruct (search a s _) as [t'|] eqn:Hm; [|by exists s; split; [constructor|]].
    simplify_eq. by apply Hmore.
  - destruct (k s) as [t'|] eqn:Hk; [simplify_eq; by exists s; split; [constructor|]|].
    by apply Hmore.
Qed.

Lemma star_loop_complete g a k n s u :
  (∀ s u k, matches a s u → is_Some (k u) → is_Some (search a s k)) →
  matches (Star g a) s u → is_Some (k u) → (length (p_rest s) ≤ n)%nat →
  is_Some (star_loop (search a) g k n s).
Proof.
  intros Ha. revert s u. induction n as [|n IH]; intros s u Hm Hk Hn; cbn [star_loop].
  - inversion Hm; subst; [done|lia].
  - inversion Hm as [| | | | |?|? ? ? t ? Hst Hlt Htu| | |]; subst.
    + destruct g; [case_match; [by eexists|done]|]. by destruct Hk as [v ->]; eexists.
    + assert (is_Some (search a s (λ s', if Nat.ltb (length (p_rest s')) (length (p_rest s))
        then star_loop (search a) g k n s' else None))) as [v Hv].
      { eapply Ha; [exact Hst|]. rewrite (proj2 (Nat.ltb_lt _ _)) by done.
        eapply IH; [exact Htu|done|lia]. }
      rewrite Hv. destruct g; [by eexists|]. destruct (k s); by eexists.
Qed.

(** The search only finds matches. *)
Lemma search_sound r s k t :
  search r s k = Some t → ∃ u, matches r s u ∧ k u = Some t.
Proof.
  revert s k t. induction r as [|p|a IHa b IHb|a IHa b IHb|g a IHa|a IHa| |]; intros s k t.
  - intros Hk. exists s. split; [constructor|done].
  - cbn [search]. destruct (p_rest s) as [|x l] eqn:Hr; [done|]. case_match eqn:Hp; [|done].
    intros Hk. eexists. split; [by eapply m_cls|done].
  - cbn [search]. intros Hk. apply IHa in Hk as (u & Hu & Hk). apply IHb in Hk as (v & Hv & Hk).
    exists v. split; [by eapply m_cat|done].
  - cbn [search]. destruct (search a s k) as [t'|] eqn:Ha.
    + intros [= <-]. apply IHa in Ha as (u & Hu & Hk). exists u. split; [by apply m_alt_l|done].
    + intros Hb. apply IHb in Hb as (u & Hu & Hk). exists u. split; [by apply m_alt_r|done].
  - by apply star_loop_sound.
  - cbn [search]. intros Hk. apply IHa in Hk as (u & Hu & Hk).
    eexists. split; [by eapply m_group|done].
  - cbn [search]. case_match eqn:Hb; [|done]. intros Hk. exists s. split; [by constructor|done].
  - cbn [search]. destruct (p_rest s) eqn:Hr; [|done]. intros Hk. exists s. split; [by constructor|done].
Qed.

Lemma matches_rest r s t : matches r s t → (length (p_rest t) ≤ length (p_rest s))%nat.
Proof.
  induction 1 as [|p s x l Hr|????? _ IH1 _ IH2| | | |????? _ IH1 ? _ IH2|???  _ IH| |]; simpl; try lia.
  rewrite Hr. simpl. lia.
Qed.

(** And misses none: when some way to match lets the rest succeed, the search
    succeeds. *)
Lemma search_complete r s u k :
  matches r s u → is_Some (k u) → is_Some (search r s k).
Proof.
  revert s u k. induction r as [|p|a IHa b IHb|a IHa b IHb|g a IHa|a IHa| |]; intros s u k Hm Hk;
    cbn [search].
  - by inversion Hm; subst.
  - inversion Hm as [|? ? x l Hr Hp| | | | | | | |]; subst. by rewrite Hr, Hp.
  - inversion Hm; subst. eapply IHa; [done|]. by eapply IHb.
  - inversion Hm; subst.
    + edestruct (IHa s u k) as [v ->]; [done..|]. by eexists.
    + destruct (search a s k); [by eexists|]. by eapply IHb.
  - by eapply star_loop_complete.
  - inversion Hm; subst. eapply IHa; [done|]. done.
  - inversion Hm as [| | | | | | | |? Hb|]; subst. by rewrite Hb.
  - inversion Hm as [| | | | | | | | |? Hr]; subst. by rewrite Hr.
Qed.

Lemma match_at_sound r s t : match_at r s = Some t → matches r s t.
Proof. intros H. apply search_sound in H as (u & Hu & [= <-]). done. Qed.

Lemma match_at_complete r s : match_at r s = None ↔ ∀ u, ¬ matches r s u.
Proof.
  split.
  - intros Hn u Hu. destruct (search_complete r s u Some Hu) as [v Hv]; [by eexists|].
    unfold match_at in Hn. congruence.
  - intros Hno. destruct (match_at r s) as [t|] eqn:Hm; [|done].
    destruct (Hno t). by apply match_at_sound.
Qed.

(** ** Finding *)

(** The leftmost match, with its bounds and its group. *)
Record found := { f_start : nat; f_end : nat; f_group : option (nat * nat) }.

Fixpoint find_from (r : re) (prev : option Z) (l : list step) (off : nat) : option (found * pos) :=
  match match_at r (Pos prev l off None) with
  | Some t => Some ({| f_start := off; f_end := p_off t; f_group := p_group t |}, t)
  | None =>
      match l with
      | [] => None
      | x :: l' => find_from r (Some (st_rune x)) l' (off + String.length (st_bytes x))
      end
  end.

(** [FindStringIndex] and [FindStringSubmatchIndex]. *)
Definition find (r : re) (text : string) : option found := fst <$> find_from r None (runes text) 0.

(** [FindAllStringIndex(text, -1)] and the matches of [ReplaceAllStringFunc]:
    the next search starts where the last match ended; after an empty match one
    rune is skipped ([fuel] counts the runes left). *)
Fixpoint find_all_from (fuel : nat) (r : re) (prev : option Z) (l : list step) (off : nat) : list found :=
  match fuel with
  | O => []
  | S fuel' =>
      match find_from r prev l off with
      | None => []
      | Some (f, t) =>
          f :: (if Nat.eqb (f_start f) (f_end f) then
                  match p_rest t with
                  | [] => []
                  | x :: l' => find_all_from fuel' r (Some (st_rune x)) l' (p_off t + String.length (st_bytes x))
                  end
                else find_all_from fuel' r (p_prev t) (p_rest t) (p_off t))
      end
  end.

Definition find_all (r : re) (text : string) : list found :=
  find_all_from (S (length (runes text))) r None (runes text) 0.

(** [text[i:j]] *)
Definition slice (text : string) (i j : nat) : string := str_take (j - i) (str_drop i text).

(** ** The leftmost match *)

(** The positions of a text: the steps split in two. *)
Definition position (text : string) (before after : list step) : pos :=
  Pos (st_rune <$> last before) after (String.length (concat_bytes before)) None.

Lemma find_from_spec r text before after :
  runes text = before ++ after →
  match find_from r (st_rune <$> last before) after (String.length (concat_bytes before)) with
  | None => ∀ skipped l u, after = skipped ++ l → ¬ matches r (position text (before ++ skipped) l) u
  | Some (f, t) =>
      ∃ skipped l, after = skipped ++ l ∧
        f_start f = String.length (concat_bytes (before ++ skipped)) ∧ f_end f = p_off t ∧
        matches r (position text (before ++ skipped) l) t ∧
        ∀ sk1 sk2 u, skipped = sk1 ++ sk2 → sk2 ≠ [] →
          ¬ matches r (position text (before ++ sk1) (sk2 ++ l)) u
  end.
Proof.
  revert before. induction after as [|x after IH]; intros before Hr; cbn [find_from].
  - destruct (match_at r _) as [t|] eqn:Hm.
    + exists [], []. rewrite !app_nil_r. split; [done|]. split; [done|]. split; [done|].
      split; [by apply match_at_sound|]. intros [|] ? ? ?; destruct sk2; done.
    + intros skipped l u He. symmetry in He. apply app_nil in He as [-> ->]. rewrite app_nil_r.
      by apply match_at_complete.
  - destruct (match_at r _) as [t|] eqn:Hm.
    + exists [], (x :: after). rewrite !app_nil_r. split; [done|]. split; [done|]. split; [done|].
      split; [by apply match_at_sound|]. intros [|] ? ? ?; destruct sk2; done.
    + rewrite match_at_complete in Hm.
      specialize (IH (before ++ [x])). rewrite last_snoc, concat_bytes_app, str_length_app in IH.
      simpl in IH. rewrite str_app_nil_r in IH.
      assert (runes text = (before ++ [x]) ++ after) as Hr' by (rewrite <- (assoc_L (++)); done).
      specialize (IH Hr'). destruct (find_from r _ after _) as [[f t]|].
      * destruct IH as (skipped & l & -> & Hs & He & Hmt & Hno).
        exists (x :: skipped), l. rewrite <- (assoc_L (++)) in Hs, Hmt. simpl in Hs, Hmt.
        split; [done|]. split; [done|]. split; [done|]. split; [done|].
        intros [|y sk1] sk2 u Heq Hne.
        -- simpl in Heq. subst sk2. rewrite app_nil_r. apply Hm.
        -- simplify_eq/=. specialize (Hno sk1 sk2 u eq_refl Hne).
           by rewrite <- (assoc_L (++)) in Hno.
      * intros [|y skipped] l u Heq.
        -- simpl in Heq. subst l. rewrite app_nil_r. apply Hm.
        -- simplify_eq/=. specialize (IH skipped l u eq_refl).
           by rewrite <- (assoc_L (++)) in IH.
Qed.

(** The search is right: [find] returns a match exactly when the expression
    matches somewhere in the text, and then it is a match that starts as far to
    the left as any. *)
Lemma find_leftmost r text :
  match find r text with
  | None => ∀ before after u, runes text = before ++ after → ¬ matches r (position text before after) u
  | Some f =>
      ∃ before after t, runes text = before ++ after ∧
        f_start f = String.length (concat_bytes before) ∧ f_end f = p_off t ∧
        matches r (position text before after) t ∧
        ∀ b1 b2 u, before = b1 ++ b2 → b2 ≠ [] → ¬ matches r (position text b1 (b2 ++ after)) u
  end.
Proof.
  unfold find. pose proof (find_from_spec r text [] (runes text) eq_refl) as H. simpl in H.
  destruct (find_from r None (runes text) 0) as [[f t]|]; simpl.
  - destruct H as (before & after & Hr & Hs & He & Hm & Hno). exists before, after, t.
    split; [done|]. split; [done|]. split; [done|]. split; [done|]. exact Hno.
  - intros before after u Hr. by apply H.
Qed.

(** ** All the matches *)

(** [s] is the position of [text] after [before]. *)
Definition at_split (text : string) (before : list step) (s : pos) : Prop :=
  runes text = before ++ p_rest s ∧ p_prev s = st_rune <$> last before ∧
  p_off s = String.length (concat_bytes before).

Lemma at_split_position text before after :
  runes text = before ++ after → at_split text before (position text before after).
Proof. done. Qed.

Lemma matches_at_split r s t text before :
  matches r s t → at_split text before s → ∃ mid, p_rest s = mid ++ p_rest t ∧ at_split text (before ++ mid) t.
Proof.
  intros Hm. revert before.
  induction Hm as [s|p s x l Hr Hp|a b s t u _ IH1 _ IH2|a b s t _ IH|a b s t _ IH|g a s
    |g a s t u _ IH1 _ _ IH2|a s t _ IH|s Hb|s Hr]; intros before Hs.
  1,6,9,10: exists []; rewrite app_nil_r; done.
  - exists [x]. destruct Hs as (Ht & Hpr & Ho). rewrite Hr. split; [done|]. split; simpl; [by rewrite <- (assoc_L (++)), Ht, Hr|].
    rewrite last_snoc, concat_bytes_app, str_length_app, Ho. simpl. by rewrite str_app_nil_r.
  - destruct (IH1 _ Hs) as (m1 & H1 & Hs1). destruct (IH2 _ Hs1) as (m2 & H2 & Hs2).
    exists (m1 ++ m2). rewrite <- (assoc_L (++)) in Hs2. by rewrite H1, H2, (assoc_L (++)).
  - by apply IH.
  - by apply IH.
  - destruct (IH1 _ Hs) as (m1 & H1 & Hs1). destruct (IH2 _ Hs1) as (m2 & H2 & Hs2).
    exists (m1 ++ m2). rewrite <- (assoc_L (++)) in Hs2. by rewrite H1, H2, (assoc_L (++)).
  - destruct (IH _ Hs) as (m1 & H1 & Hs1). by exists m1.
Qed.

Lemma find_from_at_split r text before after f t :
  runes text = before ++ after →
  find_from r (st_rune <$> last before) after (String.length (concat_bytes before)) = Some (f, t) →
  ∃ skipped mid, after = skipped ++ mid ++ p_rest t ∧
    f_start f = String.length (concat_bytes (before ++ skipped)) ∧
    f_end f = String.length (concat_bytes (before ++ skipped ++ mid)) ∧
    at_split text (before ++ skipped ++ mid) t ∧
    matches r (position text (before ++ skipped) (mid ++ p_rest t)) t ∧
    ∀ sk1 sk2 u, skipped = sk1 ++ sk2 → sk2 ≠ [] →
      ¬ matches r (position text (before ++ sk1) (sk2 ++ mid ++ p_rest t)) u.
Proof.
  intros Hr Hf. pose proof (find_from_spec r text before after Hr) as H. rewrite Hf in H.
  destruct H as (skipped & l & -> & Hs & He & Hm & Hno).
  edestruct (matches_at_split _ _ _ text (before ++ skipped) Hm) as (mid & Hl & Ht).
  { apply at_split_position. by rewrite <- (assoc_L (++)). }
  simpl in Hl. subst l. rewrite <- (assoc_L (++)) in Ht. exists skipped, mid.
  split; [done|]. split; [done|]. split; [|done]. rewrite He. apply Ht.
Qed.

(** The spans of the matches are in order and within the text. *)
Fixpoint spans (n last : nat) (l : list found) : Prop :=
  match l with
  | [] => (last ≤ n)%nat
  | f :: l' => (last ≤ f_start f ≤ f_end f)%nat ∧ spans n (f_end f) l'
  end.

Lemma spans_weaken n i j l : (i ≤ j)%nat → spans n j l → spans n i l.
Proof. intros H. destruct l; simpl; [lia|]. intros [? ?]. split; [lia|done]. Qed.

Lemma offset_app before mid :
  (String.length (concat_bytes before) ≤ String.length (concat_bytes (before ++ mid)))%nat.
Proof. rewrite concat_bytes_app, str_length_app. lia. Qed.

Lemma offset_bound text before after :
  runes text = before ++ after → (String.length (concat_bytes before) ≤ String.length text)%nat.
Proof.
  intros H. rewrite <- (concat_runes text), H, concat_bytes_app, str_length_app. lia.
Qed.

Lemma find_all_from_spans fuel r text before after :
  runes text = before ++ after →
  spans (String.length text) (String.length (concat_bytes before))
    (find_all_from fuel r (st_rune <$> last before) after (String.length (concat_bytes before))).
Proof.
  revert before after. induction fuel as [|fuel IH]; intros before after Hr; cbn [find_all_from].
  - by eapply offset_bound.
  - destruct (find_from r _ after _) as [[f t]|] eqn:Hf; [|by eapply offset_bound].
    destruct (find_from_at_split _ _ _ _ _ _ Hr Hf) as (skipped & mid & -> & Hs & He & (Ht & Hp & Ho) & _ & _).
    simpl. rewrite Hs, He. split; [rewrite !(assoc_L (++)); split; apply offset_app|].
    case_match.
    + destruct (p_rest t) as [|x l'] eqn:Hrest; [by eapply offset_bound|]. rewrite Ho.
      pose proof (IH ((before ++ skipped ++ mid) ++ [x]) l') as IH'.
      rewrite last_snoc, concat_bytes_app, str_length_app in IH'. simpl in IH'. rewrite str_app_nil_r in IH'.
      eapply spans_weaken; [|apply IH'; by rewrite Ht, <- !(assoc_L (++))]. lia.
    + rewrite Hp, Ho. apply IH. done.
Qed.

Lemma runes_nonempty text x : x ∈ runes text → (0 < String.length (st_bytes x))%nat.
Proof.
  induction text as [|a s u _ Hr IH] using runes_ind; [by intros ?%elem_of_nil|].
  rewrite Hr. intros [->|Hx]%elem_of_cons; [apply step_bytes_pos|by apply IH].
Qed.

(** Wherever the expression matches, a match that was found starts there or
    covers the place. *)
Definition covered (l : list found) (off : nat) : Prop :=
  ∃ f, f ∈ l ∧ (f_start f ≤ off)%nat ∧ ((off < f_end f)%nat ∨ f_start f = off).

Lemma covered_cons f l off : covered l off → covered (f :: l) off.
Proof. intros (g & Hg & H). exists g. split; [by right|done]. Qed.

Lemma find_all_from_covers fuel r text before after sk l u :
  runes text = before ++ after → (length after < fuel)%nat → after = sk ++ l →
  matches r (position text (before ++ sk) l) u →
  covered (find_all_from fuel r (st_rune <$> last before) after (String.length (concat_bytes before)))
    (String.length (concat_bytes (before ++ sk))).
Proof.
  revert before after sk l. induction fuel as [|fuel IH]; intros before after sk l Hr Hl Ha Hm; [lia|].
  cbn [find_all_from]. destruct (find_from r _ after _) as [[f t]|] eqn:Hf.
  2:{ pose proof (find_from_spec r text before after Hr) as H. rewrite Hf in H. by destruct (H sk l u Ha). }
  destruct (find_from_at_split _ _ _ _ _ _ Hr Hf) as (skipped & mid & Hafter & Hs & He & (Ht & Hp & Ho) & _ & Hno).
  (* the place is not before the match *)
  assert (∃ sk', sk = skipped ++ sk') as [sk' ->].
  { rewrite Ha in Hafter. apply app_eq_inv in Hafter as [(k & -> & _)|(k & Hk & Hkl)]; [by exists k|].
    destruct k as [|x k]; [exists []; by rewrite !app_nil_r in *|].
    exfalso. eapply (Hno sk (x :: k)); [done|done|]. rewrite <- Hkl. exact Hm. }
  assert (sk' ++ l = mid ++ p_rest t) as Hsplit.
  { rewrite Ha, <- (assoc_L (++)) in Hafter. by apply app_inv_head in Hafter. }
  assert ((∃ k, sk' = mid ++ k ∧ p_rest t = k ++ l) ∨ ∃ x k, mid = sk' ++ x :: k) as [(k & -> & Hk)|(x & k & Hk)].
  { destruct (app_eq_inv _ _ _ _ Hsplit) as [(k & Hk & Hkl)|([|x k] & Hk & Hkl)];
      [left; by exists k| |right; by exists x, k].
    left. exists []. rewrite app_nil_r in *. done. }
  - (* at the end of the match or after it *)
    case_match eqn:Hemp; bool_hyps.
    + destruct k as [|x k].
      { exists f. split; [left|]. rewrite !app_nil_r, <- He, <- Hemp. split; [lia|by right]. }
      rewrite Hk. apply covered_cons. rewrite Ho.
      pose proof (IH ((before ++ skipped ++ mid) ++ [x]) (k ++ l) k l) as IH'.
      rewrite last_snoc, concat_bytes_app, str_length_app in IH'. simpl in IH'. rewrite str_app_nil_r in IH'.
      rewrite <- ?(assoc_L (++)) in IH'. simpl in IH'. rewrite <- ?(assoc_L (++)). apply IH'.
      * rewrite Ht, Hk. rewrite <- ?(assoc_L (++)). done.
      * rewrite Hafter, Hk, !length_app in Hl. simpl in Hl. rewrite length_app in *. lia.
      * done.
      * rewrite <- ?(assoc_L (++)) in Hm. done.
    + apply covered_cons. rewrite Hp, Ho.
      pose proof (IH (before ++ skipped ++ mid) (p_rest t) k l) as IH'. rewrite <- ?(assoc_L (++)) in IH'.
      rewrite <- ?(assoc_L (++)). apply IH'; [by rewrite Hr, Hafter| |done|by rewrite <- ?(assoc_L (++)) in Hm].
      destruct mid as [|y mid]; [rewrite app_nil_r in He; congruence|].
      rewrite Hafter, !length_app in Hl. simpl in Hl. lia.
  - (* within the match *)
    exists f. split; [left|]. rewrite Hs, He, Hk, !(assoc_L (++)). split; [apply offset_app|]. left.
    rewrite (concat_bytes_app (_ ++ sk')), str_length_app. simpl. rewrite str_length_app.
    assert (x ∈ runes text) as Hx by (rewrite Hr, Hafter, Hk; set_solver).
    apply runes_nonempty in Hx. lia.
Qed.

Lemma find_all_spans r text : spans (String.length text) 0 (find_all r text).
Proof. apply (find_all_from_spans _ r text [] (runes text)). done. Qed.

Lemma find_all_covers r text before after u :
  runes text = before ++ after → matches r (position text before after) u →
  covered (find_all r text) (String.length (concat_bytes before)).
Proof.
  intros Hr Hm. apply (find_all_from_covers _ r text [] (runes text) before after u); [done|lia|done|done].
Qed.
