(* ===== verification/Redaction.v ===== *)
(** * What a redactor promises: the data of [internal/policy/redactor.go]

    The redaction categories and results, the cut to a byte budget, and the
    interface [OutputRedactor] of [internal/broker/service.go] as a type class:
    the broker's theorems use the class, [Redactor.v] gives the instance. *)

From S2P Require Import Prelude GoStr Utf8.
Open Scope string_scope.
Open Scope list_scope.

Definition defaultRedactionMaxBytes : Z := Z.shiftl 4 20.
Definition redactionLookaheadBytes : Z := 256.

Definition RedactionCategory := string.
Definition IPAddress : RedactionCategory := "ip_address".
Definition PrivateKeyBlock : RedactionCategory := "private_key_block".
Definition BearerToken : RedactionCategory := "bearer_token".
Definition AccessKey : RedactionCategory := "access_key".
Definition URLCredential : RedactionCategory := "url_credential".
Definition CredentialAssignment : RedactionCategory := "credential_assignment".

Definition allRedactionCategories : list RedactionCategory :=
  [IPAddress; PrivateKeyBlock; BearerToken; AccessKey; URLCredential; CredentialAssignment].

Record RedactionResult := {
  rr_text : string;
  rr_counts : gmap string Z;
  rr_truncated : bool }.

(** [int] is 64 bits wide. *)
Definition redactionInspectionLimit (maxBytes : Z) : Z :=
  if (max_int64 - redactionLookaheadBytes <? maxBytes)%Z then maxBytes
  else (maxBytes + redactionLookaheadBytes)%Z.

Definition redactionMarker (category : RedactionCategory) : string :=
  "[REDACTED:" +:+ to_upper category +:+ "]".

(** [value = value[:n]; for !utf8.ValidString(value) { value = value[:len(value)-1] }] *)
Fixpoint longest_valid (n : nat) (value : string) : string :=
  let cut := str_take n value in
  if valid_utf8 cut then cut
  else match n with O => cut | S n' => longest_valid n' value end.

Definition truncateValidUTF8 (value : string) (maxBytes : Z) : string :=
  if (maxBytes <=? 0)%Z then ""
  else if (slen value <=? maxBytes)%Z then value
  else longest_valid (Z.to_nat maxBytes) value.

(** ** The interface *)

(** [Redact input allowed maxBytes]; a category is allowed when it is in the
    set the map holds as [true]. *)
Class OutputRedactor := {
  Redact : string → gset RedactionCategory → Z → RedactionResult;
  Redact_bounded input allowed maxBytes :
    (slen (rr_text (Redact input allowed maxBytes)) ≤ Z.max 0 maxBytes)%Z }.

(** ** Cutting at a byte budget *)

Lemma longest_valid_spec n value :
  valid_utf8 (longest_valid n value) = true ∧
  (String.length (longest_valid n value) ≤ n)%nat ∧
  (∃ rest, value = longest_valid n value +:+ rest) ∧
  ∀ m, (String.length (longest_valid n value) < m ≤ n)%nat → (m ≤ String.length value)%nat →
    valid_utf8 (str_take m value) = false.
Proof.
  induction n as [|n IH].
  - assert (longest_valid 0 value = "") as -> by (simpl; by destruct value).
    split; [done|]. split; [done|]. split; [by exists value|]. intros m Hm. lia.
  - cbn [longest_valid]. destruct (valid_utf8 (str_take (S n) value)) eqn:Hv.
    + rewrite str_length_take. split; [done|]. split; [lia|].
      split; [exists (str_drop (S n) value); by rewrite str_take_drop|]. intros m Hm Hl. lia.
    + destruct IH as (IH1 & IH2 & IH3 & IH4). split; [done|]. split; [lia|]. split; [done|].
      intros m Hm Hl. destruct (decide (m = S n)) as [->|]; [done|]. apply IH4; lia.
Qed.

Lemma longest_valid_all n value :
  valid_utf8 value = true → (String.length value ≤ n)%nat → longest_valid n value = value.
Proof.
  intros Hv Hl. destruct n; cbn [longest_valid]; rewrite str_take_all, Hv by done; done.
Qed.

Lemma truncateValidUTF8_bounded value maxBytes :
  (slen (truncateValidUTF8 value maxBytes) ≤ Z.max 0 maxBytes)%Z.
Proof.
  unfold truncateValidUTF8. case_match; bool_hyps; [simpl; unfold slen; simpl; lia|].
  case_match; bool_hyps; [lia|].
  destruct (longest_valid_spec (Z.to_nat maxBytes) value) as (_ & ? & _). unfold slen. lia.
Qed.

Lemma truncateValidUTF8_valid value maxBytes :
  valid_utf8 value = true → valid_utf8 (truncateValidUTF8 value maxBytes) = true.
Proof.
  intros Hv. unfold truncateValidUTF8. repeat case_match; [done..|]. apply longest_valid_spec.
Qed.
