(* ===== verification/AuditEvent.v ===== *)
(** * Audit events: the data of [internal/audit/logger.go]

    The event the broker hands to the auditor, and the pure functions of the
    logger: the bounds put on every field of a record, the rotation test, and
    the names of the log's files. *)

From S2P Require Import Prelude GoStr Utf8 AnalyzerRules Redaction.
From Stdlib Require Import Ascii.
Open Scope string_scope.
Open Scope list_scope.

Definition auditFilename : string := "audit.jsonl".
Definition lockFilename : string := "audit.lock".
Definition defaultMaxBytes : Z := Z.shiftl 10 20.
Definition maxMaxBytes : Z := Z.shiftl 64 20.
Definition maxCommandBytes : Z := Z.shiftl 128 10.
Definition maxCommandPreviewBytes : Z := 160.
Definition maxEventStringBytes : Z := 256.
Definition maxCategoryBytes : Z := 64.
Definition maxRedactionKeyBytes : Z := 64.
Definition maxRiskCategories : nat := 32.
Definition maxRedactionCounts : nat := 32.
Definition maxBackups : nat := 100.

Record Event := {
  ev_timestamp : Z;
  ev_request_id : string;
  ev_interface : string;
  ev_server_alias : string;
  ev_command : string;
  ev_decision : string;
  ev_risk_categories : list Category;
  ev_approval_state : string;
  ev_duration_ms : Z;
  ev_exit_code : Z;
  ev_timed_out : bool;
  ev_truncated : bool;
  ev_redactions : gmap string Z;
  ev_require_sync : bool }.

(** The serialized form; the command is only there as digest and preview. *)
Record record := {
  rec_timestamp : Z;
  rec_request_id : string;
  rec_interface : string;
  rec_server_alias : string;
  rec_command_sha256 : string;
  rec_command_preview : string;
  rec_decision : string;
  rec_risk_categories : list Category;
  rec_approval_state : string;
  rec_duration_ms : Z;
  rec_exit_code : Z;
  rec_timed_out : bool;
  rec_truncated : bool;
  rec_redactions : gmap string Z }.

(** ** Bounded fields *)

Definition truncateUTF8 (value : string) (maxBytes : Z) : string :=
  if (maxBytes <=? 0)%Z then ""
  else if (slen value <=? maxBytes)%Z && valid_utf8 value then value
  else
    let value := if (maxBytes <? slen value)%Z then str_take (Z.to_nat maxBytes) value else value in
    let value := to_valid_utf8 value in
    let value := if (maxBytes <? slen value)%Z then str_take (Z.to_nat maxBytes) value else value in
    longest_valid (String.length value) value.

Definition boundedCategories (categories : list Category) : list Category :=
  (λ c, truncateUTF8 c maxCategoryBytes) <$> take maxRiskCategories categories.

(** [sort.Search] over the sorted keys: the first position whose key is not
    below [key]. *)
Fixpoint search_key (selected : list (string * Z)) (key : string) : nat :=
  match selected with
  | [] => 0
  | (k, _) :: l => if decide (String.le key k) then 0 else S (search_key l key)
  end.

(** One iteration over the counts: a bounded sorted insertion. *)
Definition select_candidate (selected : list (string * Z)) (c : string * Z) : list (string * Z) :=
  let '(key, count) := c in
  let position := search_key selected key in
  if Nat.eqb (length selected) maxRedactionCounts && Nat.eqb position (length selected) then selected
  else
    let selected :=
      if Nat.ltb (length selected) maxRedactionCounts then selected ++ [("", 0%Z)] else selected in
    if Nat.ltb position (length selected) then
      take position selected ++ (key, count) :: take (length selected - 1 - position) (drop position selected)
    else selected.

Definition bound_key (result : gmap string Z) (item : string * Z) : gmap string Z :=
  let '(key, count) := item in
  let boundedKey := truncateUTF8 key maxRedactionKeyBytes in
  if str_is_empty boundedKey then result else <[boundedKey := count]> result.

(** [counts] in the order the map is ranged over; an absent and an empty map
    are both serialized as nothing. *)
Definition boundedRedactions_of (counts : list (string * Z)) : gmap string Z :=
  foldl bound_key ∅ (foldl select_candidate [] counts).

Definition boundedRedactions (counts : gmap string Z) : gmap string Z :=
  boundedRedactions_of (map_to_list counts).

(** ** Rotation and file names *)

(** [currentSize], [lineLength] and [maxBytes] are [int64]. *)
Definition rotationNeeded (currentSize lineLength maxBytes : Z) : bool :=
  if (currentSize <=? 0)%Z then false
  else if (maxBytes <? currentSize)%Z then true
  else (maxBytes - currentSize <? lineLength)%Z.

Definition numericBackupIndex (name : string) : option Z :=
  let prefix := auditFilename +:+ "." in
  if negb (has_prefix name prefix) then None
  else
    let suffix := trim_prefix name prefix in
    if str_is_empty suffix then None
    else if negb (forallb (λ r, in_range 48 57 r) (rune_values suffix)) then None
    else if (byte_at suffix 0 =? 48)%Z then Some max_uint64
    else match parse_uint suffix max_uint64 with
         | None => Some max_uint64
         | Some index => if (0 <? index)%Z then Some index else None
         end.

Definition backupPath (path : string) (index : Z) : string := path +:+ "." +:+ itoa index.

Definition canonicalPath (path : string) (index : Z) : string :=
  if (index =? 0)%Z then path else backupPath path index.

Definition rotationSourcePath (path : string) (index : Z) : string := path +:+ ".rotate.source." +:+ itoa index.
Definition rotationMissingPath (path : string) (index : Z) : string := path +:+ ".rotate.missing." +:+ itoa index.
Definition rotationWorkPath (path : string) (index : Z) : string := path +:+ ".rotate.work." +:+ itoa index.
Definition rotationNewPath (path : string) : string := path +:+ ".rotate.new".
Definition rotationProofPath (path : string) : string := path +:+ ".rotate.newproof".
Definition rotationMarkerPath (path : string) : string := path +:+ ".rotate.marker".

(** ** Bounds *)

(** A string put in a record fits its budget and is valid UTF-8 whatever
    bytes it came from, and a valid string within the budget is kept as is. *)
Theorem truncateUTF8_spec value maxBytes :
  (slen (truncateUTF8 value maxBytes) ≤ Z.max 0 maxBytes)%Z ∧
  valid_utf8 (truncateUTF8 value maxBytes) = true ∧
  (valid_utf8 value = true → (slen value ≤ maxBytes)%Z → truncateUTF8 value maxBytes = value).
Proof.
  unfold truncateUTF8. case_match eqn:H0; bool_hyps.
  { split; [unfold slen; simpl; lia|]. split; [done|].
    intros _ Hl. symmetry. apply slen_empty. pose proof (slen_nonneg value). lia. }
  destruct ((slen value <=? maxBytes)%Z && valid_utf8 value) eqn:Hs.
  { bool_hyps. split; [lia|]. by split. }
  set (v2 := to_valid_utf8 _).
  set (v3 := if (maxBytes <? slen v2)%Z then str_take (Z.to_nat maxBytes) v2 else v2).
  destruct (longest_valid_spec (String.length v3) v3) as (Hv & Hl & _).
  assert (slen v3 ≤ maxBytes)%Z as Hv3.
  { unfold v3. case_match; bool_hyps; [|done]. unfold slen. rewrite str_length_take. lia. }
  split; [unfold slen in *; lia|]. split; [done|].
  intros Hval Hle. rewrite Hval, andb_true_r in Hs. bool_hyps. lia.
Qed.

Lemma truncateUTF8_spec_witness : truncateUTF8 "audit" 5 = "audit".
Proof. apply (truncateUTF8_spec "audit" 5); [reflexivity|vm_compute; discriminate]. Defined.

(** *** The 32 smallest keys *)

Definition key_le (a b : string * Z) : Prop := String.le (fst a) (fst b).

#[export] Instance key_le_dec : RelDecision key_le.
Proof. intros a b. unfold key_le. apply _. Defined.

(** Insertion into the sorted selection, without a bound. *)
Definition insert_key (l : list (string * Z)) (c : string * Z) : list (string * Z) :=
  take (search_key l (fst c)) l ++ c :: drop (search_key l (fst c)) l.

Lemma search_key_le l key : (search_key l key ≤ length l)%nat.
Proof. induction l as [|[k v] l IH]; simpl; [done|]. case_decide; lia. Qed.

Lemma take_insert_key n l c :
  take n (insert_key (take n l) c) = take n (insert_key l c).
Proof.
  unfold insert_key. revert n. induction l as [|[k v] l IH]; intros n; [by rewrite take_nil|].
  destruct n as [|n]; [done|]. simpl. case_decide; simpl.
  - f_equal. destruct n as [|n]; [done|]. simpl. f_equal. rewrite take_take. f_equal. lia.
  - f_equal. apply IH.
Qed.

Lemma select_candidate_insert l c :
  (length l ≤ maxRedactionCounts)%nat →
  select_candidate l c = take maxRedactionCounts (insert_key l c).
Proof.
  destruct c as [key count]. unfold select_candidate, insert_key. cbn [fst]. intros Hl.
  pose proof (search_key_le l key) as Hp. set (p := search_key l key) in *. clearbody p.
  destruct (Nat.eqb_spec (length l) maxRedactionCounts) as [He|He]; cbn [andb].
  - destruct (Nat.eqb_spec p (length l)) as [->|Hne].
    + rewrite firstn_all, drop_all, <-He. symmetry. apply take_app_length.
    + rewrite He, Nat.ltb_irrefl. rewrite (proj2 (Nat.ltb_lt _ _)) by lia.
      rewrite take_app_ge by (rewrite length_take; lia). f_equal.
      rewrite length_take, (Nat.min_l p) by lia.
      replace (maxRedactionCounts - p)%nat with (S (length l - 1 - p)) by lia. done.
  - assert (length l < maxRedactionCounts)%nat by lia.
    assert ((length l <? maxRedactionCounts)%nat = true) as -> by by apply Nat.ltb_lt.
    rewrite length_app. simpl length.
    assert ((p <? length l + 1)%nat = true) as -> by (apply Nat.ltb_lt; lia).
    rewrite (take_ge (take p l ++ _)) by (rewrite length_app, length_take; simpl; rewrite length_drop; lia).
    rewrite take_app_le, drop_app_le by lia. f_equal. f_equal.
    rewrite take_app_le by (rewrite length_drop; lia). apply take_ge. rewrite length_drop. lia.
Qed.

Lemma foldl_select_take l l0 :
  foldl select_candidate (take maxRedactionCounts l0) l = take maxRedactionCounts (foldl insert_key l0 l).
Proof.
  revert l0. induction l as [|c l IH]; intros l0; [done|]. cbn [foldl].
  rewrite select_candidate_insert by (rewrite length_take; lia).
  by rewrite take_insert_key, IH.
Qed.

Lemma insert_key_perm l c : insert_key l c ≡ₚ c :: l.
Proof. unfold insert_key. by rewrite <- Permutation_middle, take_drop. Qed.

Lemma insert_key_sorted l c : StronglySorted key_le l → StronglySorted key_le (insert_key l c).
Proof.
  unfold insert_key. induction l as [|[k v] l IH]; intros Hs; [by repeat constructor|].
  inversion_clear Hs as [|?? Hs' Hf]. simpl. case_decide as Hle; simpl.
  - constructor; [by constructor|]. constructor; [done|].
    eapply Forall_impl; [exact Hf|]. intros x Hx. unfold key_le in *. simpl in *. by trans k.
  - constructor; [by apply IH|].
    pose proof (insert_key_perm l c) as Hperm. unfold insert_key in Hperm. rewrite Hperm.
    constructor; [|done]. unfold key_le. simpl. destruct (total String.le k (fst c)); done.
Qed.

Lemma foldl_insert_spec l l0 :
  StronglySorted key_le l0 →
  StronglySorted key_le (foldl insert_key l0 l) ∧ foldl insert_key l0 l ≡ₚ l0 ++ l.
Proof.
  revert l0. induction l as [|c l IH]; intros l0 Hs; simpl; [by rewrite app_nil_r|].
  destruct (IH (insert_key l0 c)) as [H1 H2]; [by apply insert_key_sorted|].
  split; [done|]. rewrite H2, insert_key_perm. by rewrite <- Permutation_middle.
Qed.

Lemma key_sorted_unique (l1 l2 : list (string * Z)) :
  NoDup l1.*1 → StronglySorted key_le l1 → StronglySorted key_le l2 → l1 ≡ₚ l2 → l1 = l2.
Proof.
  intros Hnd Hs1 Hs2 Hp. apply (StronglySorted_unique_strong key_le); [|done..].
  intros [k1 v1] [k2 v2] Hin1 Hin2 Hle1 Hle2. rewrite <- Hp in Hin2.
  assert (k1 = k2) as -> by by apply (anti_symm String.le).
  apply (elem_of_list_to_map_1 (M := gmap string) _ _ _ Hnd) in Hin1, Hin2. congruence.
Qed.

#[export] Instance key_le_trans : Transitive key_le.
Proof. intros a b c. unfold key_le. apply transitivity. Qed.

#[export] Instance key_le_total : Total key_le.
Proof. intros a b. unfold key_le. apply (total String.le). Qed.

Lemma select_fold_sort l :
  NoDup l.*1 → foldl select_candidate [] l = take maxRedactionCounts (merge_sort key_le l).
Proof.
  intros Hnd. change [] with (take maxRedactionCounts (@nil (string * Z))) at 1. rewrite foldl_select_take.
  destruct (foldl_insert_spec l []) as [Hs Hp]; [constructor|]. simpl in Hp. f_equal.
  apply key_sorted_unique; [by rewrite Hp|done|apply StronglySorted_merge_sort; apply _|].
  by rewrite Hp, merge_sort_Permutation.
Qed.

Lemma bound_key_keys l result :
  (∀ key, is_Some (result !! key) → (slen key ≤ maxRedactionKeyBytes)%Z ∧ valid_utf8 key = true ∧ key ≠ "") →
  (∀ key, is_Some (foldl bound_key result l !! key) →
     (slen key ≤ maxRedactionKeyBytes)%Z ∧ valid_utf8 key = true ∧ key ≠ "") ∧
  (size (foldl bound_key result l) ≤ size result + length l)%nat.
Proof.
  revert result. induction l as [|[k v] l IH]; intros result Hr; simpl; [split; [done|lia]|].
  destruct (str_is_empty _) eqn:He.
  { destruct (IH result Hr) as [? ?]. split; [done|lia]. }
  destruct (IH (<[truncateUTF8 k maxRedactionKeyBytes := v]> result)) as [IH1 IH2].
  - intros key [x Hx]. apply lookup_insert_Some in Hx as [[<- <-]|[? Hx]]; [|by apply Hr].
    destruct (truncateUTF8_spec k maxRedactionKeyBytes) as (Hb & Hv & _).
    split; [exact Hb|]. split; [done|]. by intros Hk; rewrite Hk in He.
  - split; [done|]. rewrite map_size_insert in IH2. case_match; simpl in *; lia.
Qed.

(** The redaction counts kept in a record do not depend on the order Go
    ranges over the map in: they are the counts of the 32 smallest keys, taken
    in sorted order, each under its key cut to 64 bytes of valid UTF-8. *)
Theorem boundedRedactions_order_independent counts order :
  order ≡ₚ map_to_list counts →
  boundedRedactions_of order = boundedRedactions counts ∧
  boundedRedactions counts =
    foldl bound_key ∅ (take maxRedactionCounts (merge_sort key_le (map_to_list counts))) ∧
  (size (boundedRedactions counts) ≤ maxRedactionCounts)%nat ∧
  ∀ key, is_Some (boundedRedactions counts !! key) →
    (slen key ≤ maxRedactionKeyBytes)%Z ∧ valid_utf8 key = true ∧ key ≠ "".
Proof.
  intros Hperm. assert (NoDup (map_to_list counts).*1) as Hnd by apply NoDup_fst_map_to_list.
  assert (NoDup order.*1) as Hndo by by rewrite Hperm.
  unfold boundedRedactions, boundedRedactions_of. rewrite !select_fold_sort by done.
  assert (merge_sort key_le order = merge_sort key_le (map_to_list counts)) as ->.
  { apply key_sorted_unique; [by rewrite merge_sort_Permutation|
      apply StronglySorted_merge_sort; apply _..|by rewrite !merge_sort_Permutation]. }
  split; [done|]. split; [done|].
  destruct (bound_key_keys (take maxRedactionCounts (merge_sort key_le (map_to_list counts))) ∅)
    as [H1 H2].
  { intros key [x Hx]. by rewrite lookup_empty in Hx. }
  split; [|done]. rewrite map_size_empty, length_take in H2. lia.
Qed.

Lemma boundedRedactions_order_independent_witness :
  boundedRedactions_of [("token", 2%Z); ("ip_address", 1%Z)]
    = boundedRedactions {[ "ip_address" := 1%Z; "token" := 2%Z ]}.
Proof.
  refine (proj1 (boundedRedactions_order_independent {[ "ip_address" := 1%Z; "token" := 2%Z ]} _ _)).
  vm_compute. first [apply Permutation_refl | apply perm_swap].
Defined.

(** The rotation test never overflows and is exact: a non-empty file is
    rotated exactly when the line would not fit in the configured size. *)
Theorem rotationNeeded_spec currentSize lineLength maxBytes :
  (0 ≤ currentSize ≤ max_int64)%Z → (0 ≤ lineLength ≤ max_int64)%Z → (0 < maxBytes ≤ maxMaxBytes)%Z →
  (rotationNeeded currentSize lineLength maxBytes = true ↔
     (0 < currentSize ∧ maxBytes < currentSize + lineLength)%Z ∨ (maxBytes < currentSize)%Z) ∧
  ((0 < currentSize ≤ maxBytes)%Z → (- 2 ^ 63 ≤ maxBytes - currentSize ≤ max_int64)%Z).
Proof.
  change maxMaxBytes with 67108864%Z. unfold rotationNeeded, max_int64. intros. split; [|lia].
  repeat case_match; bool_hyps; rewrite ?Z.ltb_lt; split; try done; lia.
Qed.

Lemma rotationNeeded_spec_witness : rotationNeeded 100 30 120 = true.
Proof.
  refine (proj2 (proj1 (rotationNeeded_spec 100 30 120 _ _ _)) _); [| | |left];
    vm_compute; split; first [reflexivity|discriminate].
Defined.

Lemma itoa_nonneg_eq n : (0 ≤ n)%Z → itoa n = itoa_nonneg n.
Proof. intros. unfold itoa. rewrite (proj2 (Z.ltb_ge _ _)) by done. done. Qed.

Lemma digit_string_runes s :
  str_all is_digit s = true → forallb (λ r, in_range 48 57 r) (rune_values s) = true.
Proof.
  unfold rune_values. induction s as [|a s IH]; [done|]. cbn [str_all]. intros [Ha Hs]%andb_true_iff.
  destruct (runes_cons a s) as (u & Hu & ->).
  assert (decode1 a s = Step (byte_val a) (String a "") true) as Hd.
  { unfold decode1. unfold is_digit in Ha. bool_hyps. rewrite (proj2 (Z.ltb_lt _ _)); [done|lia]. }
  rewrite Hd in Hu |- *. cbn in Hu. simplify_eq. cbn [fmap list_fmap forallb st_rune].
  apply andb_true_iff. split; [exact Ha|by apply IH].
Qed.

Lemma itoa_nonneg_first n : (0 < n)%Z → byte_at (itoa_nonneg n) 0 ≠ 48%Z.
Proof.
  intros Hn H. assert (∀ fuel m acc, (0 < m)%Z → (Z.of_nat fuel > Z.log2 m)%Z →
    byte_at (digits_acc fuel m acc) 0 ≠ 48%Z) as Hd.
  { clear. induction fuel as [|fuel IH]; intros m acc Hm Hf.
    { pose proof (Z.log2_nonneg m). lia. }
    cbn [digits_acc]. case_match; bool_hyps.
    - unfold byte_at, str_at. cbn [String.get]. unfold digit_char.
      rewrite Z.mod_small by lia. rewrite byte_val_of by lia. lia.
    - apply IH; [apply Z.div_str_pos; lia|].
      assert (Z.log2 (m / 10) < Z.log2 m)%Z; [|lia].
      apply Z.log2_lt_pow2; [apply Z.div_str_pos; lia|].
      apply Z.div_lt_upper_bound; [lia|]. pose proof (Z.log2_spec m Hm) as [_ Hs].
      rewrite Z.pow_succ_r in Hs by apply Z.log2_nonneg. lia. }
  apply (Hd (z_digits n) n ""); [done| |done]. unfold z_digits.
  pose proof (Z.log2_nonneg n). lia.
Qed.

(** The number in a backup's name is read back: the name written for
    backup [i] parses to [i], so the cleanup of excess backups never takes a
    wanted backup for an excess one. *)
Theorem numericBackupIndex_backupPath i :
  (0 < i ≤ max_uint64)%Z → numericBackupIndex (backupPath auditFilename i) = Some i.
Proof.
  intros Hi. unfold numericBackupIndex, backupPath.
  rewrite <- str_app_assoc, has_prefix_app. cbn [negb]. rewrite trim_prefix_app.
  rewrite itoa_nonneg_eq by lia. pose proof (itoa_nonneg_all i ltac:(lia)) as Hall.
  pose proof (itoa_nonneg_nonempty i) as Hne.
  assert (str_is_empty (itoa_nonneg i) = false) as -> by by destruct (itoa_nonneg i).
  rewrite digit_string_runes by done. cbn [negb].
  rewrite (proj2 (Z.eqb_neq _ _)) by (apply itoa_nonneg_first; lia).
  rewrite parse_uint_itoa by lia. by rewrite (proj2 (Z.ltb_lt _ _)) by lia.
Qed.

Lemma numericBackupIndex_backupPath_witness :
  numericBackupIndex (backupPath auditFilename 12) = Some 12%Z.
Proof. apply numericBackupIndex_backupPath. vm_compute. split; [reflexivity|discriminate]. Defined.
