(* ===== verification/AuditLog.v ===== *)
(** * The audit log's files: [internal/audit/logger.go]

    The rotation of the log as a program over the calls it makes on the
    directory, any of which may fail, and which may stop anywhere.  The
    directory maps names to files, so that hard links and the rename of two
    links to one file behave as POSIX says.  The theorems: wherever a rotation
    stops, recovery ends with all the old files or all the new ones; a rotation
    that reports success shifted the files; recovery fails only when a call on
    the directory fails. *)

From S2P Require Import Prelude GoStr AuditEvent Prog.
Open Scope string_scope.
Open Scope list_scope.

(** ** Names and the directory *)

(** [canonicalPath(i)], [rotationSourcePath(i)] and the rest; [path_of] gives
    the paths. *)
Inductive name : Type :=
| Canon (i : nat)
| Source (i : nat)
| Missing (i : nat)
| Work (i : nat)
| New
| Proof_
| Marker.

#[export] Instance name_eq_dec : EqDecision name.
Proof. solve_decision. Defined.

Definition name_code (n : name) : nat * nat :=
  match n with
  | Canon i => (0, i) | Source i => (1, i) | Missing i => (2, i) | Work i => (3, i)
  | New => (4, 0) | Proof_ => (5, 0) | Marker => (6, 0)
  end%nat.

Definition name_decode (c : nat * nat) : option name :=
  match c with
  | (0, i) => Some (Canon i) | (1, i) => Some (Source i) | (2, i) => Some (Missing i) | (3, i) => Some (Work i)
  | (4, _) => Some New | (5, _) => Some Proof_ | (6, _) => Some Marker
  | _ => None
  end%nat.

#[export] Instance name_countable : Countable name.
Proof. refine (inj_countable name_code name_decode _). by intros []. Defined.

Definition path_of (path : string) (n : name) : string :=
  match n with
  | Canon i => canonicalPath path (Z.of_nat i)
  | Source i => rotationSourcePath path (Z.of_nat i)
  | Missing i => rotationMissingPath path (Z.of_nat i)
  | Work i => rotationWorkPath path (Z.of_nat i)
  | New => rotationNewPath path
  | Proof_ => rotationProofPath path
  | Marker => rotationMarkerPath path
  end.

(** The directory: which file a name is a link to, what the files hold, the
    next fresh file, and whether some call failed that could have succeeded. *)
Record disk := Disk {
  d_dir : gmap name nat;
  d_files : gmap nat string;
  d_next : nat;
  d_fault : bool }.

Definition with_dir (d : disk) (m : gmap name nat) : disk := Disk m (d_files d) (d_next d) (d_fault d).
Definition fault (d : disk) : disk := Disk (d_dir d) (d_files d) (d_next d) true.

(** ** Errors and file modes *)

Inductive audit_error := ErrIO | ErrNotExist | ErrUnsafePath | ErrUnsafePermissions | ErrUnsafeOwner | ErrUnsafeFile | ErrShortWrite
| ErrInvalidOptions | ErrInvalidEvent | ErrEncode.

(** What [os.FileInfo] says: the type and permission bits of [Mode()], and
    whether [Sys()] is a [Stat_t] whose owner is this user. *)
Record file_mode := {
  fm_symlink : bool;
  fm_dir : bool;
  fm_regular : bool;
  fm_perm : Z;
  fm_owned : bool }.

Definition validateOwner (m : file_mode) : option audit_error :=
  if fm_owned m then None else Some ErrUnsafeOwner.

Definition validatePrivateFile (m : file_mode) : option audit_error :=
  if negb (fm_regular m) then Some ErrUnsafePath
  else if negb (Z.eqb (fm_perm m) 384) then Some ErrUnsafePermissions
  else validateOwner m.

Definition validatePrivateDirectory (m : file_mode) : option audit_error :=
  if fm_symlink m || negb (fm_dir m) then Some ErrUnsafePath
  else if negb (Z.eqb (fm_perm m) 448) then Some ErrUnsafePermissions
  else validateOwner m.

(** ** Calls *)

(** What [os.Lstat] and the permission checks say: an error, no such file, or a
    file with its identity and whether [validatePrivateFile] accepts it. *)
Inductive stat_answer := StatErr | StatNone | StatInfo (file : nat) (private : bool).

Inductive open_answer := OpenOk | OpenNotExist | OpenExist | OpenErr.

Inductive dir_answer := DirErr | DirNotExist | DirInfo (m : file_mode).

(** Calls that leave the log's files alone: on the directory itself, on the lock
    file and on the logger's mutex.  [ReadDir] gives the batches of names an
    enumeration of the directory will give, and whether it ends without an
    error. *)
Inductive place_op : Type → Type :=
| LstatDir : place_op dir_answer
| MkdirDir : place_op open_answer
| ChmodDir : place_op bool
| OpenDir : place_op bool
| StatDir : place_op (option file_mode)
| SyncDir : place_op bool
| CloseDir : place_op bool
| ReadDir : place_op (list (list string) * bool)
| LockMutex : place_op unit
| UnlockMutex : place_op unit
| OpenLock (create : bool) : place_op open_answer
| ChmodLock : place_op bool
| StatLock : place_op (option (Z * file_mode))
| LockIsSymlink : place_op bool
| FlockExclusive : place_op bool
| FlockUnlock : place_op bool
| CloseLock : place_op bool
| LogIsSymlink : place_op bool
| GetPending : place_op bool
| SetPending (b : bool) : place_op unit.

Inductive fs_op : Type → Type :=
| Lstat (n : name) : fs_op stat_answer
| LinkOp (a b : name) : fs_op bool
| RenameOp (a b : name) : fs_op bool
| RemoveOp (a : name) : fs_op bool
| OpenOp (a : name) : fs_op open_answer
| CreateExcl (a : name) : fs_op open_answer
| WriteOp (a : name) (data : string) : fs_op (Z * bool)
| FStat (a : name) : fs_op (option (Z * file_mode))
| ReadAtOp (a : name) (offset len : Z) : fs_op (option string)
| TruncateOp (a : name) (size : Z) : fs_op bool
| ChmodOp (a : name) : fs_op bool
| SyncFileOp (a : name) : fs_op bool
| CloseOp (a : name) : fs_op bool
| LstatEntry (path : string) : fs_op stat_answer
| RemoveEntry (path : string) : fs_op bool
| At {X} (e : place_op X) : fs_op X.

(** A call that only succeeds or fails, and succeeds into [next] when it can. *)
Definition outcome (d : disk) (next : option disk) (ok : bool) : option disk :=
  if ok then next else Some (match next with Some _ => fault d | None => d end).

Definition contents (d : disk) (n : name) : option string := x ← d_dir d !! n; d_files d !! x.

Definition set_contents (d : disk) (n : name) (s : string) : option disk :=
  x ← d_dir d !! n; Some (Disk (d_dir d) (<[x := s]> (d_files d)) (d_next d) (d_fault d)).

Definition link_next (d : disk) (a b : name) : option disk :=
  match d_dir d !! a, d_dir d !! b with
  | Some x, None => Some (with_dir d (<[b := x]> (d_dir d)))
  | _, _ => None
  end.

(** Renaming one link of a file to another link of it does nothing. *)
Definition rename_next (d : disk) (a b : name) : option disk :=
  match d_dir d !! a with
  | Some x => Some (if decide (d_dir d !! b = Some x) then d else with_dir d (<[b := x]> (delete a (d_dir d))))
  | None => None
  end.

Definition drop (n : name) (d : disk) : disk := with_dir d (delete n (d_dir d)).

Definition remove_next (d : disk) (a : name) : option disk :=
  match d_dir d !! a with Some _ => Some (drop a d) | None => None end.

Definition created (d : disk) (a : name) : disk :=
  Disk (<[a := d_next d]> (d_dir d)) (<[d_next d := ""]> (d_files d)) (S (d_next d)) (d_fault d).

(** The log file an entry of the directory is, if it is one. *)
Definition entry_of (entry : string) : option name :=
  i ← numericBackupIndex entry;
  if String.eqb entry (backupPath auditFilename i) then Some (Canon (Z.to_nat i)) else None.

Definition lstat_answers (d : disk) (n : name) (a : stat_answer) : option disk :=
  match a, d_dir d !! n with
  | StatErr, _ => Some (fault d)
  | StatNone, None => Some d
  | StatInfo x private, Some y => if Nat.eqb x y then Some (if private then d else fault d) else None
  | _, _ => None
  end.

(** The answers of a call on the directory that are failures. *)
Definition place_fails {X} (e : place_op X) : X → bool :=
  match e in place_op X return X → bool with
  | LstatDir => λ a, match a with DirInfo m => bool_decide (is_Some (validatePrivateDirectory m)) | _ => true end
  | MkdirDir => λ a, match a with OpenErr => true | _ => false end
  | StatDir => λ a, match a with Some m => bool_decide (is_Some (validatePrivateDirectory m)) | None => true end
  | OpenLock _ => λ a, match a with OpenErr => true | _ => false end
  | StatLock => λ a, match a with Some (n, m) => bool_decide (is_Some (validatePrivateFile m)) || negb (Z.eqb n 0) | None => true end
  | ReadDir => λ a, negb (snd a)
  | ChmodDir | OpenDir | SyncDir | CloseDir | ChmodLock | FlockExclusive | FlockUnlock | CloseLock => negb
  | _ => λ _, false
  end.

(** [answers d e x]: the directory after the call [e] when it answers [x];
    [None] when it cannot answer that.  What was written stays, synced or not: a
    process that stops here has died, and the machine has not; what a loss of
    power could undo is the subject of [AuditSync]. *)
Definition answers {X} (d : disk) (e : fs_op X) : X → option disk :=
  match e in fs_op X return X → option disk with
  | Lstat n => lstat_answers d n
  | LinkOp a b => outcome d (link_next d a b)
  | RenameOp a b => outcome d (rename_next d a b)
  | RemoveOp a => outcome d (remove_next d a)
  | OpenOp a => λ r,
      match r, d_dir d !! a with
      | OpenOk, Some _ => Some d
      | OpenNotExist, None => Some d
      | OpenErr, _ => Some (fault d)
      | _, _ => None
      end
  | CreateExcl a => λ r,
      match r, d_dir d !! a with
      | OpenOk, None => Some (created d a)
      | OpenExist, Some _ => Some d
      | OpenErr, _ => Some (fault d)
      | _, _ => None
      end
  | WriteOp a data => λ r,
      s ← contents d a;
      let '(written, ok) := r in
      if (0 <=? written)%Z && (written <=? slen data)%Z then
        let d := if ok && (0 <? written)%Z then d else fault d in
        set_contents d a (s +:+ str_take (Z.to_nat written) data)
      else Some (fault d)
  | FStat a => λ r,
      match r, contents d a with
      | Some (n, m), Some s =>
          if Z.eqb n (slen s) then Some (if decide (validatePrivateFile m = None) then d else fault d) else None
      | None, _ => Some (fault d)
      | _, _ => None
      end
  | ReadAtOp a offset len => λ r,
      match r, contents d a with
      | Some bytes, Some s => if String.eqb bytes (str_take (Z.to_nat len) (str_drop (Z.to_nat offset) s)) then Some d else None
      | None, _ => Some (fault d)
      | _, _ => None
      end
  | TruncateOp a size => outcome d (s ← contents d a; set_contents d a (str_take (Z.to_nat size) s))
  | ChmodOp a => outcome d (Some d)
  | SyncFileOp a => outcome d (Some d)
  | CloseOp a => outcome d (Some d)
  | LstatEntry path => λ a,
      match entry_of path with
      | Some n => lstat_answers d n a
      | None => Some (match a with StatErr | StatInfo _ false => fault d | _ => d end)
      end
  | RemoveEntry path =>
      outcome d (match entry_of path with Some n => remove_next d n | None => Some d end)
  | At e => λ x, Some (if place_fails e x then fault d else d)
  end.

(** ** Runs and invariants over the directory *)

Abbreviation keeps := (world_keeps (@answers)).
Abbreviation halts := (world_halts (@answers)).
Abbreviation stops := (world_stops (@answers)).

(** ** Functions that return an error *)

(** A function that returns only an [error]; [None] is [nil]. *)
Definition action := prog fs_op (option audit_error).

(** [if err := p; err != nil { return err }; k] *)
Definition check (p k : action) : action :=
  e ← p; match e with Some e => Ret (Some e) | None => k end.

(** [exists, err := p; if err != nil { return err }; k exists] *)
Definition asking {A} (p : prog fs_op (result audit_error A)) (k : A → action) : action :=
  r ← p; match r with Fail e => Ret (Some e) | Ok a => k a end.

Definition call (e : fs_op bool) : action :=
  ok ← trigger e; Ret (if ok : bool then None else Some ErrIO).

(** [errors.Join] *)
Definition join_errors (a b : option audit_error) : option audit_error :=
  match a with Some e => Some e | None => b end.

(** [closeWithError(file, err)] *)
Definition closeWithError (a : name) (e : audit_error) : action :=
  _ ← trigger (CloseOp a); Ret (Some e).

(** [if err := p; err != nil { return closeWithError(file, err) }; k] *)
Definition check_close (a : name) (p k : action) : action :=
  e ← p; match e with Some e => closeWithError a e | None => k end.

(** ** Small operations *)

Definition at_place (e : place_op bool) : action := call (At e).

(** [closeWithError(dir, err)] *)
Definition close_dir_with (e : audit_error) : action := _ ← at_place CloseDir; Ret (Some e).

(** The default of [syncDir]. *)
Definition syncDirectory : action :=
  check (at_place OpenDir)
  (a ← trigger (At StatDir);
   match (a : option file_mode) with
   | None => close_dir_with ErrIO
   | Some m =>
       match validatePrivateDirectory m with
       | Some e => close_dir_with e
       | None =>
           e ← at_place SyncDir;
           match e with Some e => close_dir_with e | None => at_place CloseDir end
       end
   end).

Definition syncMetadata : action :=
  e ← syncDirectory;
  _ ← trigger (At (SetPending (bool_decide (is_Some e))));
  Ret e.

Definition inspectPrivateFileIfExists (n : name) : prog fs_op (result audit_error bool) :=
  a ← trigger (Lstat n);
  Ret match (a : stat_answer) with
      | StatNone => Ok false
      | StatErr => Fail ErrIO
      | StatInfo _ true => Ok true
      | StatInfo _ false => Fail ErrUnsafeFile
      end.

Definition linkMetadata (a b : name) : action := check (call (LinkOp a b)) syncMetadata.
Definition renameMetadata (a b : name) : action := check (call (RenameOp a b)) syncMetadata.

Definition removeMetadataIfExists (n : name) : action :=
  asking (inspectPrivateFileIfExists n) (λ ex,
    if ex : bool then check (call (RemoveOp n)) syncMetadata else Ret None).

Definition create (n : name) : action :=
  r ← trigger (CreateExcl n); Ret (match r with OpenOk => None | _ => Some ErrIO end).

Definition createEmptyMetadataFile (n : name) : action :=
  check (create n) (check_close n (call (ChmodOp n)) (check (call (CloseOp n)) syncMetadata)).

(** A write takes a byte at least or fails: [length data] turns are enough. *)
Fixpoint write_all_with (fuel : nat) (a : name) (data : string) : action :=
  match fuel with
  | O => Ret None
  | S fuel' =>
      if str_is_empty data then Ret None else
      r ← trigger (WriteOp a data);
      let '(written, ok) := r in
      if (written <? 0)%Z || (slen data <? written)%Z then Ret (Some ErrShortWrite)
      else if negb ok then Ret (Some ErrIO)
      else if Z.eqb written 0 then Ret (Some ErrShortWrite)
      else write_all_with fuel' a (str_drop (Z.to_nat written) data)
  end.

Definition writeAllWith (a : name) (data : string) : action := write_all_with (S (String.length data)) a data.

Definition createRotationNewFile (line : string) (durable : bool) : action :=
  check (create New)
  (check_close New (call (ChmodOp New))
  (check_close New (writeAllWith New line)
  (check_close New (if durable then call (SyncFileOp New) else Ret None)
  (check (call (CloseOp New)) syncMetadata)))).

(** ** Recovery *)

(** Remove each of the names, in order. *)
Fixpoint remove_all (names : list name) : action :=
  match names with
  | [] => Ret None
  | n :: names' => check (removeMetadataIfExists n) (remove_all names')
  end.

Definition staging_of (i : nat) : list name := [Work i; Source i; Missing i].

Definition staged_names : list name := flat_map staging_of (seq 0 (S maxBackups)).

Definition cleanupRotationStaging : action := remove_all (staged_names ++ [Proof_; New; Marker]).

(** One turn of the loop of [rollbackRotation]. *)
Definition rollback_index (i : nat) : action :=
  asking (inspectPrivateFileIfExists (Source i)) (λ ex,
    if ex : bool then
      check (removeMetadataIfExists (Work i))
      (check (linkMetadata (Source i) (Work i))
             (renameMetadata (Work i) (Canon i)))
    else
      asking (inspectPrivateFileIfExists (Missing i)) (λ ex,
        if ex : bool then removeMetadataIfExists (Canon i) else Ret None)).

Fixpoint rollback_loop (indices : list nat) : action :=
  match indices with
  | [] => Ret None
  | i :: indices' => check (rollback_index i) (rollback_loop indices')
  end.

(** The loop stops at the first error and returns it, else cleans up. *)
Definition rollbackRotation (limit : nat) : action :=
  check (rollback_loop (seq 0 (S limit))) cleanupRotationStaging.

(** [rotationLimit]: the greatest index with a source or a missing file, and
    whether anything is staged. *)
Fixpoint scan_indices (indices : list nat) (limit : nat) (staged : bool) : prog fs_op (result audit_error (nat * bool)) :=
  match indices with
  | [] => Ret (Ok (limit, staged))
  | i :: indices' =>
      r1 ← inspectPrivateFileIfExists (Source i);
      match r1 with Fail e => Ret (Fail e) | Ok source =>
        r2 ← inspectPrivateFileIfExists (Missing i);
        match r2 with Fail e => Ret (Fail e) | Ok missing =>
          r3 ← inspectPrivateFileIfExists (Work i);
          match r3 with Fail e => Ret (Fail e) | Ok work =>
            scan_indices indices' (if source || missing then Nat.max limit i else limit)
              (staged || source || missing || work)
          end
        end
      end
  end.

(** [limit] starts at [-1] and ends at [0] at least: it starts at [0] here. *)
Definition rotationLimit : prog fs_op (result audit_error (nat * bool)) :=
  r ← scan_indices (seq 0 (S maxBackups)) 0 false;
  match r with Fail e => Ret (Fail e) | Ok (limit, staged) =>
    r1 ← inspectPrivateFileIfExists New;
    match r1 with Fail e => Ret (Fail e) | Ok new =>
      r2 ← inspectPrivateFileIfExists Proof_;
      match r2 with Fail e => Ret (Fail e) | Ok proof => Ret (Ok (limit, staged || new || proof)) end
    end
  end.

(** The check of [recoverRotation] that the current file is the proven one. *)
Definition same_as_proof (k : action) : action :=
  current ← trigger (Lstat (Canon 0));
  match current with
  | StatErr => Ret (Some ErrIO)
  | StatNone => Ret (Some ErrNotExist)
  | StatInfo x private =>
      proof ← trigger (Lstat Proof_);
      match proof with
      | StatErr => Ret (Some ErrIO)
      | StatNone => Ret (Some ErrNotExist)
      | StatInfo y _ =>
          if negb private then Ret (Some ErrUnsafeFile)
          else if negb (Nat.eqb x y) then Ret (Some ErrUnsafePath)
          else k
      end
  end.

Definition recoverRotation : action :=
  asking (inspectPrivateFileIfExists Marker) (λ marker,
    if negb marker then Ret None else
    asking rotationLimit (λ '(limit, staged),
      if negb staged then cleanupRotationStaging else
      asking (inspectPrivateFileIfExists New) (λ new,
      asking (inspectPrivateFileIfExists Proof_) (λ proof,
        if new : bool then rollbackRotation limit
        else if proof : bool then same_as_proof cleanupRotationStaging
        else cleanupRotationStaging)))).

(** ** Rotation *)

(** The preflight of [rotate]: which canonical files are present, and the
    highest that is. *)
Fixpoint preflight (indices : list nat) (present : list bool) (highest : nat)
    (k : list bool → nat → action) : action :=
  match indices with
  | [] => k present highest
  | i :: indices' =>
      asking (inspectPrivateFileIfExists (Canon i)) (λ ex,
        if Nat.eqb i 0 && negb ex then Ret (Some ErrNotExist)
        else preflight indices' (present ++ [ex]) (if ex then i else highest) k)
  end.

Fixpoint stage_sources (i : nat) (present : list bool) : action :=
  match present with
  | [] => Ret None
  | ex :: present' =>
      check (if ex : bool then linkMetadata (Canon i) (Source i) else createEmptyMetadataFile (Missing i))
            (stage_sources (S i) present')
  end.

Definition prepareRotation (present : list bool) (line : string) (durable : bool) : action :=
  check (createEmptyMetadataFile Marker)
  (check (stage_sources 0 present)
  (check (createRotationNewFile line durable)
         (linkMetadata New Proof_))).

(** The loop of [applyRotation], from [target] down to 1. *)
Fixpoint apply_targets (target : nat) : action :=
  match target with
  | O => Ret None
  | S previous =>
      check
        (asking (inspectPrivateFileIfExists (Source previous)) (λ ex,
           if ex : bool then
             check (linkMetadata (Source previous) (Work target)) (renameMetadata (Work target) (Canon target))
           else removeMetadataIfExists (Canon target)))
        (apply_targets previous)
  end.

(** [published] and the error. *)
Definition applyRotation (limit : nat) : prog fs_op (bool * option audit_error) :=
  e ← apply_targets limit;
  match e with
  | Some e => Ret (false, Some e)
  | None =>
      ok ← trigger (RenameOp New (Canon 0));
      if ok : bool then (e ← syncMetadata; Ret (true, e)) else Ret (false, Some ErrIO)
  end.

(** [logger.backups] is [backups]. *)
Definition rotate (backups : nat) (line : string) (durable : bool) : action :=
  check recoverRotation
  (preflight (seq 0 (S backups)) [] 0 (λ present highest,
    let limit := Nat.min backups (S highest) in
    e ← prepareRotation (take (S limit) present) line durable;
    match e with
    | Some e => e' ← recoverRotation; Ret (join_errors (Some e) e')
    | None =>
        r ← applyRotation limit;
        match r with
        | (true, Some e) => Ret (Some e)
        | (false, Some e) => e' ← rollbackRotation limit; Ret (join_errors (Some e) e')
        | (_, None) => cleanupRotationStaging
        end
    end)).

(** ** Rules for the small operations *)

Lemma with_dir_id d : with_dir d (d_dir d) = d.
Proof. by destruct d. Qed.

Lemma outcome_fault d nxt ok d' :
  outcome d nxt ok = Some d' →
  if ok then nxt = Some d' else (nxt = None ∧ d' = d) ∨ (is_Some nxt ∧ d' = fault d).
Proof. unfold outcome. destruct ok; [done|]. destruct nxt; intros [= <-]; [right; split; [by eexists|done]|by left]. Qed.

Lemma fault_fault d : fault (fault d) = fault d.
Proof. done. Qed.

Section rules.
Context (I : disk → Prop).

Lemma keeps_check d (p k : action) Q :
  keeps I d p (λ d' e, match e with Some e => Q d' (Some e) | None => keeps I d' k Q end) →
  keeps I d (check p k) Q.
Proof. intros H. apply keeps_bind. eapply keeps_mono; [|exact H]. by intros d' [e|] He. Qed.

Lemma keeps_asking {A} d (p : prog fs_op (result audit_error A)) (k : A → action) Q :
  keeps I d p (λ d' r, match r with Fail e => Q d' (Some e) | Ok a => keeps I d' (k a) Q end) →
  keeps I d (asking p k) Q.
Proof. intros H. apply keeps_bind. eapply keeps_mono; [|exact H]. by intros d' [a|e] He. Qed.

(** Once a call has failed the disk remembers it. *)
Lemma answers_fault {X} d (e : fs_op X) x d' : answers d e x = Some d' → d_fault d = true → d_fault d' = true.
Proof.
  destruct e; simpl; unfold lstat_answers, outcome, link_next, rename_next, remove_next, set_contents, mbind, option_bind;
    intros H Hf; repeat case_match; simplify_eq/=; done.
Qed.

Lemma keeps_fault {R} d (p : prog fs_op R) Q :
  keeps I d p Q → d_fault d = true → keeps I d p (λ d' r, Q d' r ∧ d_fault d' = true).
Proof.
  revert d. induction p as [r|X e k IH]; intros d; simpl; [done|]. intros H Hf x d' Ha.
  destruct (H x d' Ha). split; [done|]. apply IH; [done|]. by eapply answers_fault.
Qed.

Context (I_fault : ∀ d, I d → I (fault d)).

Lemma keeps_outcome d (e : fs_op bool) nxt :
  answers d e = outcome d nxt → I d → (∀ d1, nxt = Some d1 → I d1) →
  keeps I d (call e) (λ d' r, match r with
    | None => nxt = Some d'
    | Some _ => (d' = fault d ∧ is_Some nxt) ∨ (d' = d ∧ nxt = None) end).
Proof.
  intros He Hd Hn. unfold call. simpl. intros ok d' Ha. rewrite He in Ha. apply outcome_fault in Ha.
  destruct ok; [by split; [apply Hn|]|]. destruct Ha as [[? ->]|[? ->]]; (split; [auto|]); simpl; auto.
Qed.

(** A call on the directory itself. *)
Lemma keeps_place {R X} d (e : place_op X) (k : X → prog fs_op R) Q :
  I d → (∀ x, keeps I (if place_fails e x then fault d else d) (k x) Q) → keeps I d (x ← trigger (At e); k x) Q.
Proof.
  intros Hd Hk. simpl. intros x d' [= <-]. split; [destruct (place_fails e x); auto|]. apply Hk.
Qed.

Lemma keeps_at_place d (e : place_op bool) Q :
  (∀ x, place_fails e x = negb x) → I d → Q d None → Q (fault d) (Some ErrIO) → keeps I d (at_place e) Q.
Proof.
  intros He Hd H1 H2. apply keeps_place; [done|]. intros x. rewrite He. by destruct x.
Qed.

Lemma keeps_syncDirectory d :
  I d → keeps I d syncDirectory (λ d' r, match r with None => d' = d | Some _ => d' = fault d end).
Proof.
  intros Hd. pose proof (I_fault d Hd) as Hf.
  assert (∀ e, keeps I (fault d) (close_dir_with e) (λ d' r, match r with None => d' = d | Some _ => d' = fault d end)) as Hclose.
  { intros e. apply keeps_bind. by apply keeps_at_place. }
  apply keeps_check. apply keeps_at_place; [done|done| |done].
  apply keeps_place; [done|]. intros [m|]; simpl place_fails; [|apply Hclose].
  destruct (validatePrivateDirectory m) as [e|]; [apply Hclose|]. rewrite bool_decide_eq_false_2 by (by intros [? ?]).
  apply keeps_bind. apply keeps_at_place; [done|done| |apply Hclose]. by apply keeps_at_place.
Qed.

Lemma keeps_sync d :
  I d → keeps I d syncMetadata (λ d' r, match r with None => d' = d | Some _ => d_fault d' = true ∧ d' = fault d end).
Proof.
  intros Hd. apply keeps_bind. eapply keeps_mono; [|by apply keeps_syncDirectory].
  intros d' [e|] ->; (apply keeps_place; [auto|]); intros []; by simpl.
Qed.

(** A call on the directory followed by its sync. *)
Lemma keeps_meta d (e : fs_op bool) nxt :
  answers d e = outcome d nxt → I d → (∀ d1, nxt = Some d1 → I d1) →
  keeps I d (check (call e) syncMetadata) (λ d' r, match r with
    | None => nxt = Some d'
    | Some _ => d_fault d' = true ∨ nxt = None end).
Proof.
  intros He Hd Hn. apply keeps_check. eapply keeps_mono; [|by apply keeps_outcome].
  intros d' [e'|]; [intros [[-> _]|[-> ->]]; auto|]. intros Hd'.
  eapply keeps_mono; [|by apply keeps_sync, Hn]. intros d2 [e2|]; [by intros [? _]; left|]. by intros ->.
Qed.

Lemma keeps_inspect d n :
  I d → keeps I d (inspectPrivateFileIfExists n) (λ d' r, match r with
    | Ok b => d' = d ∧ (if b then is_Some (d_dir d !! n) else d_dir d !! n = None)
    | Fail _ => d_fault d' = true end).
Proof.
  intros Hd. simpl. unfold lstat_answers. intros a d'. destruct a as [| |x []], (d_dir d !! n) as [y|] eqn:Hn; intros Ha; simplify_eq.
  - split; [auto|done].
  - split; [auto|done].
  - done.
  - case_match; simplify_eq. split; [done|]. by split; [|eexists].
  - case_match; simplify_eq. split; [auto|done].
Qed.

Lemma drop_absent d n : d_dir d !! n = None → drop n d = d.
Proof. intros H. unfold drop. by rewrite delete_id, with_dir_id. Qed.

Lemma keeps_remove d n :
  I d → I (drop n d) →
  keeps I d (removeMetadataIfExists n) (λ d' r, match r with
    | None => d' = drop n d
    | Some _ => d_fault d' = true end).
Proof.
  intros Hd Hn. apply keeps_asking. eapply keeps_mono; [|by apply keeps_inspect].
  intros d' [[]|e]; [|..|done]; intros [-> Hex].
  - eapply keeps_mono; [|apply (keeps_meta d (RemoveOp n) (remove_next d n)); [done|done|]].
    + unfold remove_next. destruct Hex as [x ->]. intros d' [e|]; [by intros [?|?]|]. by intros [= <-].
    + unfold remove_next. destruct Hex as [x ->]. by intros d1 [= <-].
  - simpl. by rewrite drop_absent.
Qed.

Fixpoint drop_all (names : list name) (d : disk) : disk :=
  match names with [] => d | n :: names' => drop_all names' (drop n d) end.

Lemma keeps_remove_all d names :
  (∀ k, I (drop_all (take k names) d)) →
  keeps I d (remove_all names) (λ d' r, match r with
    | None => d' = drop_all names d
    | Some _ => d_fault d' = true end).
Proof.
  revert d. induction names as [|n names IH]; intros d Hk; [done|]. cbn [remove_all].
  apply keeps_check. eapply keeps_mono; [|apply keeps_remove; [apply (Hk 0%nat)|apply (Hk 1%nat)]].
  intros d' [e|]; [done|]. intros ->. apply IH. intros k. apply (Hk (S k)).
Qed.

Lemma keeps_with_inv {R} d (p : prog fs_op R) Q :
  I d → keeps I d p Q → keeps I d p (λ d' r, I d' ∧ Q d' r).
Proof.
  revert d. induction p as [r|X e k IH]; intros d Hd; simpl; [by split|]. intros H x d' Ha.
  destruct (H x d' Ha). split; [done|by apply IH].
Qed.

(** A failed call on an open file, which is then closed. *)
Lemma keeps_check_close d n (p k : action) (P : disk → Prop) Q :
  I d →
  keeps I d p (λ d' e, match e with Some _ => d_fault d' = true | None => P d' end) →
  (∀ d' e, d_fault d' = true → Q d' (Some e)) →
  (∀ d', I d' → P d' → keeps I d' k Q) →
  keeps I d (check_close n p k) Q.
Proof.
  intros Hd Hp He Hk. apply keeps_bind. eapply keeps_mono; [|by apply keeps_with_inv].
  intros d' [e|]; [|intros [? ?]; by apply Hk]. intros [Hi Hf]. simpl. intros ok d2 Ha.
  unfold outcome in Ha. destruct ok; simplify_eq; [by split; [|apply He]|].
  split; [by apply I_fault|by apply He].
Qed.

Lemma keeps_call d (e : fs_op bool) :
  answers d e = outcome d (Some d) → I d →
  keeps I d (call e) (λ d' r, match r with Some _ => d_fault d' = true | None => d' = d end).
Proof.
  intros He Hd. eapply keeps_mono;
    [|apply keeps_outcome with (nxt := Some d); [done|done|by intros ? [= <-]]].
  intros d' [e'|]; [by intros [[-> _]|[_ ?]]|]. by intros [= <-].
Qed.

Lemma keeps_create d n :
  I d → d_dir d !! n = None → I (created d n) →
  keeps I d (create n) (λ d' r, match r with Some _ => d_fault d' = true | None => d' = created d n end).
Proof.
  intros Hd Hn Hc. simpl. intros r d'. rewrite Hn. destruct r; intros [= <-]; (split; [done || by apply I_fault|done]).
Qed.

(** Writing all of [data], when [P] says how far it is: what is left to write. *)
Lemma keeps_write_all n (P : disk → string → Prop) fuel d data :
  (∀ d rest, P d rest → I d) → (∀ d rest, P d rest → P (fault d) rest) →
  (∀ d rest k, P d rest → ∃ s d', contents d n = Some s ∧ set_contents d n (s +:+ str_take k rest) = Some d' ∧
     P d' (str_drop k rest) ∧ d_fault d' = d_fault d) →
  P d data → (String.length data < fuel)%nat →
  keeps I d (write_all_with fuel n data)
    (λ d' r, match r with Some _ => d_fault d' = true ∧ ∃ rest, P d' rest | None => P d' "" end).
Proof.
  intros HI HF HW. revert d data. induction fuel as [|fuel IH]; intros d data HP Hl; [lia|]. cbn [write_all_with].
  destruct data as [|a data]; cbn [str_is_empty]; [done|].
  set (bytes := String a data) in *. cbn [world_keeps mbind prog_mbind prog_bind trigger].
  intros [written ok] d' Ha. cbn [answers] in Ha. destruct (HW d bytes 0%nat HP) as (s & _ & Hs & _).
  rewrite Hs in Ha. cbn [mbind option_bind] in Ha.
  destruct ((0 <=? written)%Z && (written <=? slen bytes)%Z) eqn:Hr.
  - set (d0 := if ok && (0 <? written)%Z then d else fault d) in *.
    assert (P d0 bytes) as HP0 by (unfold d0; case_match; auto).
    destruct (HW d0 bytes (Z.to_nat written) HP0) as (s' & d1 & Hs' & H1 & HP1 & Hfl).
    assert (s' = s) as -> by (unfold d0 in Hs'; case_match; unfold contents in *; simpl in *; congruence).
    rewrite H1 in Ha. simplify_eq. split; [by eapply HI|]. bool_hyps.
    rewrite (proj2 (Z.ltb_ge written 0)) by done. rewrite (proj2 (Z.ltb_ge (slen bytes) written)) by done. cbn [orb].
    destruct ok; cbn [negb]; [|simpl; rewrite Hfl; unfold d0; simpl; eauto].
    destruct (Z.eqb_spec written 0) as [->|Hne]; [simpl; rewrite Hfl; unfold d0; simpl; eauto|].
    eapply IH; [exact HP1|]. rewrite str_length_drop. unfold slen in *. lia.
  - simplify_eq. split; [by eapply HI, HF|].
    assert ((written <? 0)%Z || (slen bytes <? written)%Z = true) as ->; [|simpl; eauto].
    apply andb_false_iff in Hr. apply orb_true_iff. rewrite !Z.ltb_lt, !Z.leb_gt in *. done.
Qed.

End rules.

Lemma drop_all_dir names d n : d_dir (drop_all names d) !! n = if decide (n ∈ names) then None else d_dir d !! n.
Proof.
  revert d. induction names as [|m names IH]; intros d; cbn [drop_all].
  - by rewrite decide_False by set_solver.
  - rewrite IH. unfold drop. simpl. destruct (decide (n ∈ names)); [by rewrite decide_True by set_solver|].
    destruct (decide (n = m)) as [->|]; [by rewrite lookup_delete_eq, decide_True by set_solver|].
    rewrite lookup_delete_ne by done. by rewrite decide_False by set_solver.
Qed.

Lemma drop_all_frame names d :
  d_files (drop_all names d) = d_files d ∧ d_next (drop_all names d) = d_next d ∧ d_fault (drop_all names d) = d_fault d.
Proof. revert d. induction names as [|n names IH]; intros d; [done|]. apply (IH (drop n d)). Qed.

(** ** The invariant of a rotation *)

(** The names the rotation works with. *)
Definition is_staging (n : name) : bool := match n with Canon _ => false | _ => true end.

(** No rotation is in progress. *)
Definition clean (d : disk) : Prop := ∀ n, is_staging n → d_dir d !! n = None.

Section invariant.
(** The old files: the file at each index and what it holds; the rotation moves
    the first [limit] of them up and puts [line] first. *)
Context (old : nat → option nat) (held : nat → option string) (limit : nat) (line : string).

Record frame (d : disk) : Prop := {
  f_guard n : is_staging n → is_Some (d_dir d !! n) → is_Some (d_dir d !! Marker);
  f_bound i : is_Some (d_dir d !! Source i) ∨ is_Some (d_dir d !! Missing i) ∨ is_Some (d_dir d !! Work i) → (i ≤ maxBackups)%nat;
  f_old i x : old i = Some x → d_files d !! x = held x ∧ (x < d_next d)%nat;
  f_fresh n x : d_dir d !! n = Some x → (x < d_next d)%nat }.

(** The index can be restored: what was there is staged, and the new file has
    not been published. *)
Definition in_place (d : disk) (i : nat) : Prop :=
  is_Some (d_dir d !! New) ∧ (is_Some (d_dir d !! Source i) ∨ is_Some (d_dir d !! Missing i)).

(** Not published: the old files are in their places, or can be put back. *)
Record uncommitted (d : disk) : Prop := {
  u_frame : frame d;
  u_source i x : d_dir d !! Source i = Some x → old i = Some x;
  u_missing i : is_Some (d_dir d !! Missing i) → old i = None;
  u_new x : d_dir d !! New = Some x → ∀ i, old i ≠ Some x;
  u_proof x : d_dir d !! Proof_ = Some x → d_dir d !! New = Some x;
  u_canon i : d_dir d !! Canon i = old i ∨ in_place d i }.

(** Where the old files are after the rotation. *)
Definition moved (i : nat) : option nat := if Nat.leb i limit then old (i - 1) else old i.

(** Published: the new file is first and the others have moved. *)
Record committed (d : disk) : Prop := {
  c_frame : frame d;
  c_new : d_dir d !! New = None;
  c_first : contents d (Canon 0) = Some line;
  c_fresh x : d_dir d !! Canon 0 = Some x → ∀ i, old i ≠ Some x;
  c_moved i : (0 < i)%nat → d_dir d !! Canon i = moved i;
  c_proof x : d_dir d !! Proof_ = Some x → d_dir d !! Canon 0 = Some x }.

Definition rotation_inv (d : disk) : Prop := uncommitted d ∨ committed d.

Lemma frame_fault d : frame d → frame (fault d).
Proof. intros [? ? ? ?]. by split. Qed.

Lemma uncommitted_fault d : uncommitted d → uncommitted (fault d).
Proof. intros [? ? ? ? ? ?]. split; try done. by apply frame_fault. Qed.

Lemma committed_fault d : committed d → committed (fault d).
Proof. intros [? ? ? ? ? ?]. split; try done. by apply frame_fault. Qed.

Lemma rotation_inv_fault d : rotation_inv d → rotation_inv (fault d).
Proof. intros [?|?]; [left; by apply uncommitted_fault|right; by apply committed_fault]. Qed.

Local Notation keeps_inv := (keeps rotation_inv).

(** *** Changes before publication *)

(** The two directories agree on everything but the canonical and work names. *)
Definition same_stage (d d' : disk) : Prop :=
  ∀ n, match n with Canon _ | Work _ => True | _ => d_dir d' !! n = d_dir d !! n end.

(** A change that only touches canonical names that can be restored, and work names. *)
Lemma uncommitted_step d d' :
  uncommitted d → d_files d' = d_files d → d_next d' = d_next d → same_stage d d' →
  (∀ i, d_dir d' !! Canon i = d_dir d !! Canon i ∨ d_dir d' !! Canon i = old i ∨ in_place d i) →
  (∀ i, is_Some (d_dir d' !! Work i) → is_Some (d_dir d !! Work i) ∨ ((i ≤ maxBackups)%nat ∧ is_Some (d_dir d !! Marker))) →
  (∀ n x, d_dir d' !! n = Some x → (x < d_next d)%nat) →
  uncommitted d'.
Proof.
  intros [[Hg Hb Ho Hf] Hs Hm Hn Hp Hc] Hfi Hnx Hst Hca Hwo Hfr.
  pose proof (Hst Marker) as Emk. pose proof (Hst New) as En. pose proof (Hst Proof_) as Ep. cbv beta iota in Emk, En, Ep.
  assert (∀ i, d_dir d' !! Source i = d_dir d !! Source i) as Es by (intros i; apply (Hst (Source i))).
  assert (∀ i, d_dir d' !! Missing i = d_dir d !! Missing i) as Emi by (intros i; apply (Hst (Missing i))).
  split; [split|..].
  - intros n Hn' Hx. rewrite Emk. destruct n; try done; rewrite ?Es, ?Emi, ?En, ?Ep, ?Emk in Hx; try (by eapply Hg; [|exact Hx]).
    destruct (Hwo _ Hx) as [Hw|[_ ?]]; [by eapply Hg; [|exact Hw]|done].
  - intros i [Hx|[Hx|Hx]]; rewrite ?Es, ?Emi in Hx; [apply Hb; auto..|].
    destruct (Hwo _ Hx) as [Hw|[? _]]; [apply Hb; auto|done].
  - intros i x Hx. rewrite Hfi, Hnx. by apply (Ho i).
  - intros n x Hx. rewrite Hnx. by eapply Hfr.
  - intros i x. rewrite Es. apply Hs.
  - intros i. rewrite Emi. apply Hm.
  - intros x. rewrite En. apply Hn.
  - intros x. rewrite Ep, En. apply Hp.
  - intros i. unfold in_place. rewrite Es, Emi, En. destruct (Hca i) as [->|[?|?]]; auto.
Qed.

(** *** Cleaning up *)

Lemma elem_of_staged_names n : n ∈ staged_names ↔ match n with Source i | Missing i | Work i => (i ≤ maxBackups)%nat | _ => False end.
Proof.
  unfold staged_names. rewrite list_elem_of_In, in_flat_map. setoid_rewrite <- list_elem_of_In. split.
  - intros (i & Hi & Hn). apply elem_of_seq in Hi. unfold staging_of in Hn.
    repeat (apply elem_of_cons in Hn as [->|Hn]; [lia|]). by apply elem_of_nil in Hn.
  - intros Hn. destruct n as [i|i|i|i| | |]; try done; exists i; unfold staging_of;
      (split; [apply elem_of_seq; lia|set_solver]).
Qed.

Lemma elem_of_take_l {A} k (l : list A) x : x ∈ take k l → x ∈ l.
Proof. rewrite elem_of_take. intros (i & Hi & _). by eapply list_elem_of_lookup_2. Qed.

(** What a cleanup has removed, wherever it stops. *)
Lemma cleanup_prefix k :
  let ns := take k (staged_names ++ [Proof_; New; Marker]) in
  (∀ i, Canon i ∉ ns) ∧ (New ∈ ns → Proof_ ∈ ns) ∧
  (Marker ∈ ns → ∀ n, n ∈ staged_names ++ [Proof_; New; Marker] → n ∈ ns).
Proof.
  cbn zeta. set (ns := take k _).
  assert (∀ n, n ∈ ns → n ∈ staged_names ++ [Proof_; New; Marker]) as Hsub.
  { intros n Hn. by apply elem_of_take_l in Hn. }
  split.
  { intros i Hi%Hsub. apply elem_of_app in Hi as [Hi|Hi]; [by rewrite elem_of_staged_names in Hi|].
    by repeat (apply elem_of_cons in Hi as [?|Hi]; [done|]); apply elem_of_nil in Hi. }
  unfold ns in *. rewrite take_app in *.
  assert (∀ n, n ∈ take k staged_names → n ∈ staged_names) as Hst by (intros n Hn; by apply elem_of_take_l in Hn).
  assert (New ∉ take k staged_names ∧ Marker ∉ take k staged_names) as [Hn1 Hn2]
    by (split; intros Hn%Hst; by rewrite elem_of_staged_names in Hn).
  destruct (k - length staged_names)%nat as [|[|[|r]]] eqn:Hk; simpl.
  - rewrite !app_nil_r. split; [done|]. done.
  - split; [intros [?|?%list_elem_of_singleton]%elem_of_app; done|].
    intros [?|?%list_elem_of_singleton]%elem_of_app; done.
  - split; [intros _; apply elem_of_app; right; left|].
    intros [?|[?|[?|?%elem_of_nil]%elem_of_cons]%elem_of_cons]%elem_of_app; done.
  - rewrite take_nil, (take_ge staged_names) by lia.
    split; [intros _; apply elem_of_app; right; left|]. by intros _.
Qed.

Lemma staging_listed d n :
  (∀ i, is_Some (d_dir d !! Source i) ∨ is_Some (d_dir d !! Missing i) ∨ is_Some (d_dir d !! Work i) → (i ≤ maxBackups)%nat) →
  is_staging n → is_Some (d_dir d !! n) → n ∈ staged_names ++ [Proof_; New; Marker].
Proof.
  intros Hb Hn Hx. apply elem_of_app. destruct n as [i|i|i|i| | |]; [done|..];
    try (left; apply elem_of_staged_names, Hb; auto; fail); right; [right; left|left|right; right; left].
Qed.

(** Some of the staging names removed, the marker last and the proof before the
    new file. *)
Lemma frame_drop_all d ns :
  frame d → (Marker ∈ ns → ∀ n, n ∈ staged_names ++ [Proof_; New; Marker] → n ∈ ns) → frame (drop_all ns d).
Proof.
  intros [Hg Hb Ho Hf] Hm. destruct (drop_all_frame ns d) as (Hfi & Hnx & _). split.
  - intros n Hn. rewrite !drop_all_dir. case_decide as Hin; [by intros [? ?]|]. intros Hx.
    rewrite decide_False; [by eapply Hg|]. intros Hmk. apply Hin, Hm; [done|].
    by eapply staging_listed.
  - intros i Hx. apply Hb. rewrite !drop_all_dir in Hx. destruct Hx as [Hx|[Hx|Hx]]; case_decide; try (by destruct Hx); auto.
  - intros i x Hx. rewrite Hfi, Hnx. by apply (Ho i).
  - intros n x. rewrite drop_all_dir, Hnx. case_decide; [done|]. apply Hf.
Qed.

(** The old files are in their places. *)
Definition restored (d : disk) : Prop := uncommitted d ∧ ∀ i, d_dir d !! Canon i = old i.

Lemma restored_drop d k : restored d → restored (drop_all (take k (staged_names ++ [Proof_; New; Marker])) d).
Proof.
  destruct (cleanup_prefix k) as (Hc & Hn & Hm). cbv zeta in Hc, Hn, Hm. set (ns := take k _) in *.
  intros [[Hf Hs Hmi Hne Hp Hca] Ho].
  assert (∀ i, d_dir (drop_all ns d) !! Canon i = old i) as Ho'.
  { intros i. rewrite drop_all_dir, decide_False by apply Hc. apply Ho. }
  split; [|done]. split; [by apply frame_drop_all|..].
  - intros i x. rewrite drop_all_dir. case_decide; [done|]. apply Hs.
  - intros i. rewrite drop_all_dir. case_decide; [by intros [? ?]|]. apply Hmi.
  - intros x. rewrite drop_all_dir. case_decide; [done|]. apply Hne.
  - intros x. rewrite !drop_all_dir. case_decide as HP; [done|]. intros Hx.
    rewrite decide_False by auto. by apply Hp.
  - intros i. by left.
Qed.

Lemma committed_drop d k : committed d → committed (drop_all (take k (staged_names ++ [Proof_; New; Marker])) d).
Proof.
  destruct (cleanup_prefix k) as (Hc & Hn & Hm). cbv zeta in Hc, Hn, Hm. set (ns := take k _) in *.
  destruct (drop_all_frame ns d) as (Hfi & _ & _). intros [Hf Hne Hfs Hfr Hmo Hp]. split; [by apply frame_drop_all|..].
  - rewrite drop_all_dir. by case_decide.
  - unfold contents in *. rewrite drop_all_dir, decide_False by apply Hc. by rewrite Hfi.
  - intros x. rewrite drop_all_dir, decide_False by apply Hc. apply Hfr.
  - intros i Hi. rewrite drop_all_dir, decide_False by apply Hc. by apply Hmo.
  - intros x. rewrite !drop_all_dir, (decide_False (P := Canon 0 ∈ ns)) by apply Hc. case_decide; [done|]. apply Hp.
Qed.

Lemma drop_all_clean d : frame d → clean (drop_all (staged_names ++ [Proof_; New; Marker]) d).
Proof.
  intros [_ Hb _ _] n Hn. rewrite drop_all_dir. case_decide as Hin; [done|].
  destruct (d_dir d !! n) as [x|] eqn:Hx; [|done]. exfalso. by eapply Hin, staging_listed.
Qed.

Lemma keeps_weaken {R} (J K : disk → Prop) d (p : prog fs_op R) Q :
  (∀ d, J d → K d) → J d → keeps J d p Q → keeps K d p (λ d' r, J d' ∧ Q d' r).
Proof.
  intros HJ. revert d. induction p as [r|X e k IH]; intros d Hd; simpl; [by split|].
  intros H x d' Ha. destruct (H x d' Ha). split; [by apply HJ|by apply IH].
Qed.

(** Published or not, in the course of a rotation and at rest. *)
Definition side (published : bool) (d : disk) : Prop := if published then committed d else uncommitted d.
Definition at_rest (published : bool) (d : disk) : Prop := if published then committed d else restored d.

Lemma side_fault b d : side b d → side b (fault d).
Proof. destruct b; [apply committed_fault|apply uncommitted_fault]. Qed.

Lemma side_inv b d : side b d → rotation_inv d.
Proof. by destruct b; [right|left]. Qed.

Lemma side_frame b d : side b d → frame d.
Proof. destruct b; by intros []. Qed.

Lemma at_rest_side b d : at_rest b d → side b d.
Proof. destruct b; [done|]. by intros [? _]. Qed.

(** A cleanup leaves the canonical files as they are, and when it succeeds,
    nothing else. *)
Lemma keeps_cleanup b d : at_rest b d →
  keeps (side b) d cleanupRotationStaging (λ d' r, match r with
    | None => clean d' ∧ at_rest b d'
    | Some _ => d_fault d' = true end).
Proof.
  intros Hd.
  assert (∀ k, at_rest b (drop_all (take k (staged_names ++ [Proof_; New; Marker])) d)) as Hk.
  { intros k. destruct b; [by apply committed_drop|by apply restored_drop]. }
  eapply keeps_mono; [|apply keeps_remove_all; [apply side_fault|intros k; by apply at_rest_side]].
  intros d' [e|]; [done|]. intros ->. split; [by eapply drop_all_clean, side_frame, at_rest_side|].
  specialize (Hk (length (staged_names ++ [Proof_; New; Marker]))). by rewrite firstn_all in Hk.
Qed.

(** *** Rolling back *)

Lemma uncommitted_inv d : uncommitted d → rotation_inv d.
Proof. by left. Qed.

Lemma same_stage_refl d : same_stage d d.
Proof. by intros []. Qed.

Lemma same_stage_trans d1 d2 d3 : same_stage d1 d2 → same_stage d2 d3 → same_stage d1 d3.
Proof. intros H1 H2 n. specialize (H1 n). specialize (H2 n). destruct n; congruence || done. Qed.

(** What one turn of a rollback does to the directory. *)
Record rolled (d d' : disk) : Prop := {
  r_inv : uncommitted d';
  r_stage : same_stage d d';
  r_canon i : d_dir d' !! Canon i = d_dir d !! Canon i ∨ d_dir d' !! Canon i = old i }.

Lemma rolled_refl d : uncommitted d → rolled d d.
Proof. intros H. split; [done|apply same_stage_refl|by left]. Qed.

Lemma rolled_trans d1 d2 d3 : rolled d1 d2 → rolled d2 d3 → rolled d1 d3.
Proof.
  intros [_ Hs1 Hc1] [Hi Hs2 Hc2]. split; [done|by eapply same_stage_trans|].
  intros i. destruct (Hc2 i) as [->|?]; auto.
Qed.

Lemma rolled_step d d' :
  uncommitted d → d_files d' = d_files d → d_next d' = d_next d → same_stage d d' →
  (∀ i, d_dir d' !! Canon i = d_dir d !! Canon i ∨ d_dir d' !! Canon i = old i) →
  (∀ i, is_Some (d_dir d' !! Work i) → is_Some (d_dir d !! Work i) ∨ ((i ≤ maxBackups)%nat ∧ is_Some (d_dir d !! Marker))) →
  (∀ n x, d_dir d' !! n = Some x → (x < d_next d)%nat) →
  rolled d d'.
Proof.
  intros Hu Hf Hn Hs Hc Hw Hfr. split; [|done|done]. eapply uncommitted_step; [done..| |done|done].
  intros i. destruct (Hc i); auto.
Qed.

(** Removing a name the invariant does not need. *)
Lemma rolled_drop d n :
  uncommitted d → match n with Work _ => True | Canon i => old i = None | _ => False end → rolled d (drop n d).
Proof.
  intros Hu Hn. apply rolled_step; [done..| | | |].
  - intros m. unfold drop. simpl. destruct n; try done; destruct m; try done; by rewrite lookup_delete_ne.
  - intros i. unfold drop. simpl. rewrite lookup_delete. case_decide; [|by left]. subst. right. by rewrite Hn.
  - intros i. unfold drop. simpl. rewrite lookup_delete. case_decide; [by intros [? ?]|by left].
  - intros m x. unfold drop. simpl. rewrite lookup_delete_Some. intros [_ Hx]. by eapply (f_fresh d (u_frame d Hu)).
Qed.

Lemma rolled_link d a i d' :
  uncommitted d → (i ≤ maxBackups)%nat → is_Some (d_dir d !! Marker) → link_next d a (Work i) = Some d' → rolled d d'.
Proof.
  intros Hu Hi Hm. unfold link_next. destruct (d_dir d !! a) as [x|] eqn:Ha; [|done].
  destruct (d_dir d !! Work i); [done|]. intros [= <-]. pose proof (f_fresh d (u_frame d Hu)) as Hfr.
  apply rolled_step; [done..| | | |]; simpl.
  - intros m. destruct m; try done; simpl; by rewrite lookup_insert_ne.
  - intros j. left. by rewrite lookup_insert_ne.
  - intros j. rewrite lookup_insert. case_decide; [|by left]. simplify_eq. by right.
  - intros m y. rewrite lookup_insert. case_decide; [intros [= <-]|]; by eapply Hfr.
Qed.

Lemma rolled_rename d i j d' :
  uncommitted d → d_dir d !! Work i = old j → rename_next d (Work i) (Canon j) = Some d' →
  rolled d d' ∧ d_dir d' !! Canon j = old j.
Proof.
  intros Hu Hw. unfold rename_next. destruct (d_dir d !! Work i) as [x|] eqn:Ha; [|done]. intros [= <-].
  case_decide as Hx; [split; [by apply rolled_refl|congruence]|].
  pose proof (f_fresh d (u_frame d Hu)) as Hfr. split; [|simpl; by rewrite lookup_insert_eq].
  apply rolled_step; [done..| | | |]; simpl.
  - intros m. destruct m; try done; simpl; rewrite lookup_insert_ne, lookup_delete_ne by done; done.
  - intros k. rewrite lookup_insert. case_decide; [simplify_eq; by right|left; by rewrite lookup_delete_ne].
  - intros k. rewrite lookup_insert_ne by done. rewrite lookup_delete. case_decide; [by intros [? ?]|by left].
  - intros m y. rewrite lookup_insert. case_decide; [intros [= <-]; by eapply Hfr|].
    rewrite lookup_delete_Some. intros [_ ?]. by eapply Hfr.
Qed.

Definition staged_at (d : disk) (i : nat) : Prop := is_Some (d_dir d !! Source i) ∨ is_Some (d_dir d !! Missing i).

Lemma same_stage_staged d d' i : same_stage d d' → staged_at d' i ↔ staged_at d i.
Proof.
  intros Hs. unfold staged_at. pose proof (Hs (Source i)) as H1. pose proof (Hs (Missing i)) as H2.
  cbv beta iota in H1, H2. by rewrite H1, H2.
Qed.

(** Putting an old file back: link it at the work name, rename that into place. *)
Lemma keeps_restore d i :
  uncommitted d → is_Some (d_dir d !! Source i) →
  keeps (side false) d (check (removeMetadataIfExists (Work i))
      (check (linkMetadata (Source i) (Work i)) (renameMetadata (Work i) (Canon i))))
    (λ d' r, match r with None => rolled d d' ∧ d_dir d' !! Canon i = old i | Some _ => d_fault d' = true end).
Proof.
  intros Hu [x Hx]. pose proof (rolled_drop d (Work i) Hu I) as H1.
  apply keeps_check. eapply keeps_mono;
    [|apply keeps_remove; [apply side_fault|done|apply H1]].
  intros d' [e|]; [done|]. intros ->. set (d1 := drop (Work i) d) in *.
  assert (d_dir d1 !! Source i = Some x) as Hx1 by (unfold d1, drop; simpl; by rewrite lookup_delete_ne).
  assert (link_next d1 (Source i) (Work i) = Some (with_dir d1 (<[Work i := x]> (d_dir d1)))) as Hl.
  { unfold link_next. rewrite Hx1. unfold d1, drop. simpl. by rewrite lookup_delete_eq. }
  assert (rolled d1 (with_dir d1 (<[Work i := x]> (d_dir d1)))) as H2.
  { eapply rolled_link; [apply H1| |  |exact Hl].
    - apply (f_bound d (u_frame d Hu)). left. rewrite Hx. by eexists.
    - apply (f_guard d1 (u_frame d1 (r_inv _ _ H1)) (Source i)); [done|]. rewrite Hx1. by eexists. }
  apply keeps_check. eapply keeps_mono;
    [|apply keeps_meta with (nxt := link_next d1 (Source i) (Work i)); [apply side_fault|done|apply H1|]].
  2:{ rewrite Hl. intros d2 [= <-]. apply H2. }
  intros d2 [e|]; [intros [?|?]; [done|congruence]|]. rewrite Hl. intros [= <-].
  set (d2 := with_dir d1 (<[Work i := x]> (d_dir d1))) in *.
  assert (d_dir d2 !! Work i = Some x) as Hw by (unfold d2; simpl; by rewrite lookup_insert_eq).
  assert (old i = Some x) as Ho by (by apply (u_source d Hu)).
  assert (∀ d3, rename_next d2 (Work i) (Canon i) = Some d3 → rolled d2 d3 ∧ d_dir d3 !! Canon i = old i) as H3.
  { intros d3 Hd3. eapply rolled_rename; [apply H2| |exact Hd3]. by rewrite Hw, Ho. }
  eapply keeps_mono; [|apply keeps_meta with (nxt := rename_next d2 (Work i) (Canon i));
    [apply side_fault|done|apply H2|intros d3 Hd3; by apply (H3 d3)]].
  intros d3 [e|].
  - intros [?|Hn]; [done|]. unfold rename_next in Hn. by rewrite Hw in Hn.
  - intros [? ?]%H3. split; [|done]. eapply rolled_trans; [exact H1|]. by eapply rolled_trans.
Qed.

Lemma keeps_rollback_index d i :
  uncommitted d →
  keeps (side false) d (rollback_index i)
    (λ d' r, match r with None => rolled d d' ∧ (staged_at d i → d_dir d' !! Canon i = old i) | Some _ => d_fault d' = true end).
Proof.
  intros Hu. apply keeps_asking. eapply keeps_mono; [|apply keeps_inspect; [apply side_fault|done]].
  intros d' [[]|e]; [| |done]; intros [-> Hs].
  - eapply keeps_mono; [|by apply keeps_restore]. intros d' [e|]; [done|]. by intros [? ?].
  - apply keeps_asking. eapply keeps_mono; [|apply keeps_inspect; [apply side_fault|done]].
    intros d' [[]|e]; [| |done]; intros [-> Hm].
    + pose proof (rolled_drop d (Canon i) Hu (u_missing d Hu i Hm)) as H1.
      eapply keeps_mono; [|apply keeps_remove; [apply side_fault|done|apply H1]].
      intros d' [e|]; [done|]. intros ->. split; [done|]. intros _. unfold drop. simpl.
      rewrite lookup_delete_eq. symmetry. by apply (u_missing d Hu).
    + split; [by apply rolled_refl|]. intros [[? ?]|[? ?]]; congruence.
Qed.

Lemma keeps_rollback_loop d indices :
  uncommitted d →
  keeps (side false) d (rollback_loop indices)
    (λ d' r, match r with
      | None => rolled d d' ∧ ∀ i, i ∈ indices → staged_at d i → d_dir d' !! Canon i = old i
      | Some _ => d_fault d' = true end).
Proof.
  revert d. induction indices as [|i indices IH]; intros d Hu; cbn [rollback_loop].
  - split; [by apply rolled_refl|]. by intros i ?%elem_of_nil.
  - apply keeps_check. eapply keeps_mono; [|by apply keeps_rollback_index].
    intros d1 [e|]; [done|]. intros [H1 Hi1]. eapply keeps_mono; [|apply IH; apply H1].
    intros d2 [e|]; [done|]. intros [H2 Hi2]. split; [by eapply rolled_trans|].
    intros j [->|Hj]%elem_of_cons Hst.
    + destruct (r_canon _ _ H2 i) as [->|?]; auto.
    + apply Hi2; [done|]. eapply same_stage_staged; [apply H1|done].
Qed.

(** A rollback over every staged index puts everything back. *)
Lemma keeps_rollback d n :
  uncommitted d → (∀ i, staged_at d i → (i ≤ n)%nat) →
  keeps (side false) d (rollbackRotation n)
    (λ d' r, match r with None => clean d' ∧ restored d' | Some _ => d_fault d' = true end).
Proof.
  intros Hu Hn. apply keeps_check. eapply keeps_mono; [|by apply keeps_rollback_loop].
  intros d' [e|]; [done|]. intros [Hr Hst]. apply (keeps_cleanup false). split; [apply Hr|].
  intros i. destruct (u_canon d Hu i) as [Hc|[_ Hs]].
  - destruct (r_canon _ _ Hr i) as [->|?]; done.
  - apply Hst; [|done]. apply elem_of_seq. specialize (Hn i Hs). lia.
Qed.

(** *** Recovery *)

Lemma keeps_scan b d indices n staged :
  side b d →
  keeps (side b) d (scan_indices indices n staged)
    (λ d' r, match r with
      | Ok (n', staged') => d' = d ∧ (n ≤ n')%nat ∧ (∀ i, i ∈ indices → staged_at d i → (i ≤ n')%nat) ∧
          (staged' = false → staged = false ∧ ∀ i, i ∈ indices → ¬ staged_at d i ∧ d_dir d !! Work i = None)
      | Fail _ => d_fault d' = true end).
Proof.
  intros Hd. revert n staged. induction indices as [|i indices IH]; intros n staged; cbn [scan_indices].
  { split; [done|]. split; [lia|]. split; [by intros i ?%elem_of_nil|]. intros ->. split; [done|]. by intros i ?%elem_of_nil. }
  apply keeps_bind. eapply keeps_mono; [|apply keeps_inspect; [apply side_fault|done]].
  intros d1 [b1|e]; [|done]. intros [-> H1].
  apply keeps_bind. eapply keeps_mono; [|apply keeps_inspect; [apply side_fault|done]].
  intros d1 [b2|e]; [|done]. intros [-> H2].
  apply keeps_bind. eapply keeps_mono; [|apply keeps_inspect; [apply side_fault|done]].
  intros d1 [b3|e]; [|done]. intros [-> H3].
  eapply keeps_mono; [|apply IH]. intros d' [[n' staged']|e]; [|done]. intros (-> & Hle & Hin & Hst).
  assert (staged_at d i → b1 || b2 = true) as Hs.
  { intros [[? ?]|[? ?]]; destruct b1, b2; try done; congruence. }
  split; [done|]. split; [case_match; lia|]. split.
  - intros j [->|Hj]%elem_of_cons Hj2; [|by apply Hin]. rewrite (Hs Hj2) in Hle. lia.
  - intros ->. destruct (Hst eq_refl) as [Hb Hno]. destruct staged, b1, b2, b3; try done. split; [done|].
    intros j [->|Hj]%elem_of_cons; [|by apply Hno]. split; [|done]. intros Hs'. by specialize (Hs Hs').
Qed.

Lemma keeps_rotationLimit b d :
  side b d → frame d →
  keeps (side b) d rotationLimit
    (λ d' r, match r with
      | Ok (n, staged) => d' = d ∧ (∀ i, staged_at d i → (i ≤ n)%nat) ∧
          (staged = false → ∀ m, is_staging m → m ≠ Marker → d_dir d !! m = None)
      | Fail _ => d_fault d' = true end).
Proof.
  intros Hd Hf. apply keeps_bind. eapply keeps_mono; [|by apply keeps_scan].
  intros d1 [[n staged]|e]; [|done]. intros (-> & _ & Hin & Hst).
  apply keeps_bind. eapply keeps_mono; [|apply keeps_inspect; [apply side_fault|done]].
  intros d1 [b1|e]; [|done]. intros [-> H1].
  apply keeps_bind. eapply keeps_mono; [|apply keeps_inspect; [apply side_fault|done]].
  intros d1 [b2|e]; [|done]. intros [-> H2].
  assert (∀ i, (i ≤ maxBackups)%nat → i ∈ seq 0 (S maxBackups)) as Hseq by (intros i Hi; apply elem_of_seq; lia).
  split; [done|]. split.
  - intros i Hi. apply Hin; [|done]. apply Hseq, (f_bound d Hf). destruct Hi; auto.
  - intros Hfa. destruct staged, b1, b2; try done. destruct (Hst eq_refl) as [_ Hno].
    intros m Hm Hmk. destruct (d_dir d !! m) as [x|] eqn:Hx; [|done]. exfalso.
    destruct m as [i|i|i|i| | |]; try done; try congruence;
      (destruct (Hno i) as [Hns Hw]; [apply Hseq, (f_bound d Hf); rewrite Hx; auto|]);
      first [by apply Hns; left; eexists|by apply Hns; right; eexists|congruence].
Qed.

Lemma keeps_same_as_proof d x :
  committed d → d_dir d !! Proof_ = Some x →
  keeps (side true) d (same_as_proof cleanupRotationStaging)
    (λ d' r, match r with None => clean d' ∧ at_rest true d' | Some _ => d_fault d' = true end).
Proof.
  intros Hc Hx. pose proof (c_proof d Hc x Hx) as H0. unfold same_as_proof. simpl. unfold lstat_answers.
  intros a d'. rewrite H0. destruct a as [| |y p]; [intros [= <-]; split; [by apply committed_fault|done]|done|].
  case_match eqn:Hy; [|done]. bool_hyps. subst y. intros Hd'.
  assert (committed d' ∧ d_dir d' = d_dir d ∧ (if p then d' = d else d_fault d' = true)) as (Hi & Hdir & Hp).
  { destruct p; simplify_eq; (split; [try done; by apply committed_fault|done]). }
  split; [done|]. cbn [world_keeps answers]. unfold lstat_answers. intros a d2. rewrite Hdir, Hx. destruct a as [| |z q].
  - intros [= <-]. split; [by apply committed_fault|done].
  - done.
  - destruct (Nat.eqb z x) eqn:Hz; [|done]. bool_hyps. subst z. intros [= <-].
    destruct p; cbn [negb]; [|split; [by destruct q; [|apply committed_fault]|by destruct q]].
    rewrite Nat.eqb_refl. cbn [negb]. subst d'. destruct q.
    + split; [done|]. by apply (keeps_cleanup true).
    + split; [by apply committed_fault|].
      eapply keeps_mono; [|apply keeps_fault; [by apply (keeps_cleanup true), committed_fault|done]].
      intros d' [e|]; [by intros [? _]|]. by intros [? _].
Qed.

(** What a recovery leaves, by what it found. *)
Definition recovered (d d' : disk) : Prop :=
  clean d' ∧ ((uncommitted d ∧ restored d') ∨ (committed d ∧ committed d')).

(** With nothing new to publish, an unpublished rotation has changed nothing. *)
Lemma side_without_new b d : side b d → d_dir d !! New = None → at_rest b d.
Proof.
  destruct b; [done|]. intros Hu Hn. split; [done|]. intros i.
  destruct (u_canon d Hu i) as [?|[[x Hx] _]]; [done|congruence].
Qed.

(** A recovery stays on its side: it never publishes and never takes back what
    was published. *)
Lemma keeps_recover_side b d :
  side b d →
  keeps (side b) d recoverRotation
    (λ d' r, match r with None => clean d' ∧ at_rest b d' | Some _ => d_fault d' = true end).
Proof.
  intros Hd. pose proof (side_frame b d Hd) as Hf.
  apply keeps_asking. eapply keeps_mono; [|apply keeps_inspect; [apply side_fault|done]].
  intros d1 [mk|e]; [|done]. intros [-> Hmk]. destruct mk; cbn [negb].
  2:{ assert (clean d) as Hcl.
      { intros n Hn. destruct (d_dir d !! n) as [x|] eqn:Hx; [|done].
        destruct (f_guard d Hf n Hn) as [y Hy]; [rewrite Hx; by eexists|congruence]. }
      split; [done|]. apply side_without_new; [done|]. by apply Hcl. }
  apply keeps_asking. eapply keeps_mono; [|by apply keeps_rotationLimit].
  intros d1 [[n staged]|e]; [|done]. intros (-> & Hn & Hst). destruct staged; cbn [negb].
  2:{ apply keeps_cleanup, side_without_new; [done|]. by apply Hst. }
  apply keeps_asking. eapply keeps_mono; [|apply keeps_inspect; [apply side_fault|done]].
  intros d1 [new|e]; [|done]. intros [-> Hnew].
  apply keeps_asking. eapply keeps_mono; [|apply keeps_inspect; [apply side_fault|done]].
  intros d1 [proof|e]; [|done]. intros [-> Hproof].
  destruct new.
  - (* not published *)
    destruct b; [destruct Hnew as [x Hx]; rewrite (c_new d Hd) in Hx; done|]. by apply keeps_rollback.
  - pose proof (side_without_new b d Hd Hnew) as Hr. destruct proof; [|by apply keeps_cleanup].
    (* published: the proof is the current file *)
    destruct Hproof as [x Hx]. destruct b; [|rewrite (u_proof d Hd x Hx) in Hnew; done].
    by apply keeps_same_as_proof with x.
Qed.

Lemma keeps_recover d :
  rotation_inv d →
  keeps_inv d recoverRotation
    (λ d' r, match r with None => recovered d d' | Some _ => d_fault d' = true end).
Proof.
  intros [Hd|Hd].
  - eapply keeps_mono; [|apply (keeps_weaken (side false)); [apply side_inv|done|by apply keeps_recover_side]].
    intros d' [e|]; [by intros [_ ?]|]. intros [_ [? ?]]. split; auto.
  - eapply keeps_mono; [|apply (keeps_weaken (side true)); [apply side_inv|done|by apply keeps_recover_side]].
    intros d' [e|]; [by intros [_ ?]|]. intros [_ [? ?]]. split; auto.
Qed.

(** *** Preparing a rotation *)

Lemma keeps_create_empty d n :
  rotation_inv d → d_dir d !! n = None → rotation_inv (created d n) →
  keeps_inv d (createEmptyMetadataFile n) (λ d' r, match r with Some _ => d_fault d' = true | None => d' = created d n end).
Proof.
  intros Hd Hn Hc. apply keeps_check. eapply keeps_mono; [|apply keeps_create; [apply rotation_inv_fault|done..]].
  intros d' [e|]; [done|]. intros ->.
  eapply keeps_check_close; [apply rotation_inv_fault|done|apply keeps_call; [apply rotation_inv_fault|done..]|done|]. intros d' _ ->.
  apply keeps_check. eapply keeps_mono; [|apply keeps_call; [apply rotation_inv_fault|done..]]. intros d' [e|]; [done|]. intros ->.
  eapply keeps_mono; [|apply keeps_sync; [apply rotation_inv_fault|done]]. intros d' [e|]; [by intros [? _]|done].
Qed.

(** The first [k] files are staged and nothing else is. *)
Record staging (d : disk) (k : nat) : Prop := {
  s_restored : restored d;
  s_marker : is_Some (d_dir d !! Marker);
  s_new : d_dir d !! New = None;
  s_proof : d_dir d !! Proof_ = None;
  s_work i : d_dir d !! Work i = None;
  s_done j : (j < k)%nat → staged_at d j;
  s_todo j : (k ≤ j)%nat → d_dir d !! Source j = None ∧ d_dir d !! Missing j = None }.

Lemma restored_inv d : restored d → rotation_inv d.
Proof. by intros [? _]; left. Qed.

Lemma frame_created d n :
  frame d → n = Marker ∨ is_Some (d_dir d !! Marker) → is_staging n →
  (∀ i, n = Source i ∨ n = Missing i ∨ n = Work i → (i ≤ maxBackups)%nat) → frame (created d n).
Proof.
  intros [Hg Hb Ho Hf] Hm Hs Hi. split; simpl.
  - intros m Hst Hx. rewrite lookup_insert. case_decide; [by eexists|]. destruct Hm as [?|Hm]; done.
  - intros i. rewrite !lookup_insert. intros Hx. destruct Hx as [Hx|[Hx|Hx]]; case_decide; try (apply Hi; auto; fail); apply Hb; auto.
  - intros i x Hx. destruct (Ho i x Hx) as [H1 H2]. rewrite lookup_insert_ne by lia. split; [done|lia].
  - intros m x. rewrite lookup_insert. case_decide; [intros [= <-]; lia|]. intros Hx. apply Hf in Hx. lia.
Qed.

Lemma restored_created d n :
  restored d → n = Marker ∨ is_Some (d_dir d !! Marker) →
  match n with Marker => True | New => d_dir d !! Proof_ = None | Missing i => (i ≤ maxBackups)%nat ∧ old i = None | _ => False end →
  restored (created d n).
Proof.
  intros [[Hf Hs Hm Hn Hp Hc] Ho] Hmk Hcase.
  assert (frame (created d n)) as Hf'.
  { apply frame_created; [done..| |].
    - by destruct n.
    - intros i [-> | [-> | ->]]; [done|apply Hcase|done]. }
  split; [split; [done|..]|]; simpl.
  - intros i x. rewrite lookup_insert_ne; [apply Hs|]. by destruct n.
  - intros i. rewrite lookup_insert. case_decide; [subst; intros _; apply Hcase|apply Hm].
  - intros x. rewrite lookup_insert. case_decide; [|apply Hn]. intros [= <-] i Hi.
    destruct (f_old d Hf i _ Hi). lia.
  - intros x. rewrite lookup_insert_ne by (by destruct n; naive_solver). intros Hx. rewrite lookup_insert_ne; [by apply Hp|].
    intros ->. congruence.
  - intros i. left. rewrite lookup_insert_ne; [done|]. by destruct n.
  - intros i. rewrite lookup_insert_ne; [done|]. by destruct n.
Qed.

Lemma restored_source d k x :
  restored d → is_Some (d_dir d !! Marker) → (k ≤ maxBackups)%nat → old k = Some x → d_dir d !! Canon k = Some x →
  restored (with_dir d (<[Source k := x]> (d_dir d))).
Proof.
  intros [[[Hg Hb Hof Hfr] Hs Hm Hn Hp Hc] Ho] Hmk Hk Hx Hcx.
  split; [split; [split|..]|]; simpl.
  - intros n Hn' _. by rewrite lookup_insert_ne.
  - intros i. rewrite lookup_insert, !(lookup_insert_ne _ (Source k)) by done. case_decide; [simplify_eq; done|apply Hb].
  - done.
  - intros n y. rewrite lookup_insert. case_decide; [intros [= <-]; by eapply Hfr|apply Hfr].
  - intros i y. rewrite lookup_insert. case_decide; [simplify_eq; by intros [= <-]|apply Hs].
  - intros i. rewrite lookup_insert_ne by done. apply Hm.
  - intros y. rewrite lookup_insert_ne by done. apply Hn.
  - intros y. rewrite !lookup_insert_ne by done. apply Hp.
  - intros i. left. by rewrite lookup_insert_ne.
  - intros i. by rewrite lookup_insert_ne.
Qed.

Definition presence (i n : nat) : list bool := (λ j, bool_decide (is_Some (old j))) <$> seq i n.

Lemma staging_source d k x :
  staging d k → (k ≤ maxBackups)%nat → old k = Some x →
  link_next d (Canon k) (Source k) = Some (with_dir d (<[Source k := x]> (d_dir d))) ∧
  staging (with_dir d (<[Source k := x]> (d_dir d))) (S k).
Proof.
  intros [Hr Hmk Hn Hp Hw Hd Ht] Hk Hx. destruct Hr as [Hu Ho].
  destruct (Ht k) as [Hs Hm]; [lia|]. split; [unfold link_next; by rewrite Ho, Hx, Hs|].
  assert (d_dir d !! Canon k = Some x) as Hcx by (by rewrite Ho).
  split; simpl.
  - by apply restored_source.
  - by rewrite lookup_insert_ne.
  - by rewrite lookup_insert_ne.
  - by rewrite lookup_insert_ne.
  - intros i. by rewrite lookup_insert_ne.
  - intros j Hj. unfold staged_at. simpl. rewrite lookup_insert. case_decide; [left; by eexists|].
    rewrite lookup_insert_ne by done. apply Hd. assert (k ≠ j) by congruence. lia.
  - intros j Hj. rewrite !lookup_insert_ne by (intros [= ?]; lia). apply Ht. lia.
Qed.

Lemma staging_missing d k :
  staging d k → (k ≤ maxBackups)%nat → old k = None →
  d_dir d !! Missing k = None ∧ staging (created d (Missing k)) (S k).
Proof.
  intros [Hr Hmk Hn Hp Hw Hd Ht] Hk Hx. destruct (Ht k) as [Hs Hm]; [lia|]. split; [done|].
  split; simpl.
  - apply restored_created; auto.
  - by rewrite lookup_insert_ne.
  - by rewrite lookup_insert_ne.
  - by rewrite lookup_insert_ne.
  - intros i. by rewrite lookup_insert_ne.
  - intros j Hj. unfold staged_at. simpl. rewrite lookup_insert_ne by done. rewrite lookup_insert.
    case_decide; [right; by eexists|]. apply Hd. assert (k ≠ j) by congruence. lia.
  - intros j Hj. rewrite !lookup_insert_ne by (intros [= ?]; lia). apply Ht. lia.
Qed.

Lemma keeps_stage_sources d i n :
  staging d i → (i + n ≤ S maxBackups)%nat →
  keeps_inv d (stage_sources i (presence i n))
    (λ d' r, match r with Some _ => d_fault d' = true | None => staging d' (i + n) end).
Proof.
  revert d i. induction n as [|n IH]; intros d i Hst Hn; unfold presence; cbn [seq fmap list_fmap stage_sources].
  { by rewrite Nat.add_0_r. }
  assert (rotation_inv d) as Hi by apply restored_inv, Hst.
  assert (∀ d', staging d' (S i) → keeps_inv d' (stage_sources (S i) (presence (S i) n))
    (λ d' r, match r with Some _ => d_fault d' = true | None => staging d' (i + S n) end)) as Hnext.
  { intros d' Hd'. replace (i + S n)%nat with (S i + n)%nat by lia. apply IH; [done|lia]. }
  apply keeps_check. case_bool_decide as Hx.
  - destruct Hx as [x Hx]. destruct (staging_source d i x Hst) as [Hl Hs]; [lia|done|].
    eapply keeps_mono; [|apply keeps_meta with (nxt := link_next d (Canon i) (Source i));
      [apply rotation_inv_fault|done|done|]].
    + intros d' [e|]; [intros [?|?]; [done|congruence]|]. rewrite Hl. intros [= <-]. by apply Hnext.
    + rewrite Hl. intros d1 [= <-]. apply restored_inv, Hs.
  - destruct (staging_missing d i Hst) as [Hm Hs]; [lia|by destruct (old i); [destruct Hx; eexists|]|].
    eapply keeps_mono; [|apply keeps_create_empty; [done|done|apply restored_inv, Hs]].
    intros d' [e|]; [done|]. intros ->. by apply Hnext.
Qed.

(** The new file holds [s]; [proof] says whether its proof is linked. *)
Record filling (d : disk) (k : nat) (s : string) (proof : bool) : Prop := {
  fl_restored : restored d;
  fl_marker : is_Some (d_dir d !! Marker);
  fl_new : contents d New = Some s;
  fl_proof : d_dir d !! Proof_ = if proof then d_dir d !! New else None;
  fl_work i : d_dir d !! Work i = None;
  fl_done j : (j < k)%nat → staged_at d j;
  fl_todo j : (k ≤ j)%nat → d_dir d !! Source j = None ∧ d_dir d !! Missing j = None }.

Lemma filling_created d k : staging d k → filling (created d New) k "" false.
Proof.
  intros [Hr Hmk Hn Hp Hw Hd Ht]. split; simpl.
  - apply restored_created; auto.
  - by rewrite lookup_insert_ne.
  - unfold contents. simpl. rewrite lookup_insert_eq. simpl. by rewrite lookup_insert_eq.
  - by rewrite lookup_insert_ne.
  - intros i. by rewrite lookup_insert_ne.
  - intros j Hj. unfold staged_at. simpl. rewrite !lookup_insert_ne by done. by apply Hd.
  - intros j Hj. rewrite !lookup_insert_ne by done. by apply Ht.
Qed.

Lemma filling_fault d k s proof : filling d k s proof → filling (fault d) k s proof.
Proof. intros [[Hu Ho] ? ? ? ? ? ?]. split; try done. split; [by apply uncommitted_fault|done]. Qed.

(** Writing to the new file touches no other file. *)
Lemma filling_written d k s t proof :
  filling d k s proof → ∃ d', set_contents d New t = Some d' ∧ filling d' k t proof ∧ d_fault d' = d_fault d.
Proof.
  intros [[[[Hg Hb Hof Hfr] Hs Hm Hn Hp Hc] Ho] Hmk Hc1 Hpr Hw Hd Ht]. unfold contents in Hc1. unfold set_contents.
  destruct (d_dir d !! New) as [x|] eqn:Hx; [|done]. simpl in *.
  eexists. split; [done|]. split; [|done]. split; simpl; try done.
  - split; [|done]. split; simpl; try done; [|by rewrite Hx|by rewrite Hx].
    split; simpl; try done. intros i y Hy. rewrite lookup_insert_ne; [by apply (Hof i)|].
    intros ->. by apply (Hn y eq_refl i).
  - unfold contents. simpl. rewrite Hx. simpl. by rewrite lookup_insert_eq.
  - by rewrite Hx.
Qed.

Lemma filling_inv d k s proof : filling d k s proof → rotation_inv d.
Proof. intros H. apply restored_inv, H. Qed.

Lemma keeps_new_file d k durable :
  staging d k →
  keeps_inv d (createRotationNewFile line durable)
    (λ d' r, match r with Some _ => d_fault d' = true | None => filling d' k line false end).
Proof.
  intros Hs. pose proof (filling_created d k Hs) as Hc.
  assert (rotation_inv d) as Hi by apply restored_inv, Hs.
  apply keeps_check. eapply keeps_mono; [|apply keeps_create; [apply rotation_inv_fault|done|apply Hs|by eapply filling_inv]].
  intros d' [e|]; [done|]. intros ->.
  eapply keeps_check_close; [apply rotation_inv_fault|by eapply filling_inv|apply keeps_call; [apply rotation_inv_fault|done|by eapply filling_inv]|done|].
  intros d' _ ->.
  eapply keeps_check_close with (P := λ d', filling d' k line false);
    [apply rotation_inv_fault|by eapply filling_inv| |done|].
  { eapply keeps_mono; [|apply (keeps_write_all _ New (λ d' rest, ∃ s, filling d' k s false ∧ s +:+ rest = line))].
    - intros d' [e|]; [by intros [? _]|]. intros (s & H & <-). by rewrite str_app_nil_r.
    - intros d' rest (s & H & _). by eapply filling_inv.
    - intros d' rest (s & H & He). exists s. split; [by apply filling_fault|done].
    - intros d' rest n (s & H & He). destruct (filling_written d' k s (s +:+ str_take n rest) false H) as (d1 & H1 & Hf1 & Hfl).
      exists s, d1. split; [apply H|]. split; [done|]. split; [|done]. eexists. split; [exact Hf1|].
      by rewrite str_app_assoc, str_take_drop.
    - by exists "".
    - lia. }
  intros d1 _ H1.
  eapply keeps_check_close with (P := λ d', filling d' k line false); [apply rotation_inv_fault|by eapply filling_inv| |done|].
  { destruct durable; [|done]. eapply keeps_mono; [|apply keeps_call; [apply rotation_inv_fault|done|by eapply filling_inv]].
    intros d' [e|]; [done|]. by intros ->. }
  intros d2 _ H2. apply keeps_check. eapply keeps_mono; [|apply keeps_call; [apply rotation_inv_fault|done|by eapply filling_inv]].
  intros d' [e|]; [done|]. intros ->.
  eapply keeps_mono; [|apply keeps_sync; [apply rotation_inv_fault|by eapply filling_inv]].
  intros d' [e|]; [by intros [? _]|]. by intros ->.
Qed.

Lemma filling_proof d k s x :
  filling d k s false → d_dir d !! New = Some x →
  link_next d New Proof_ = Some (with_dir d (<[Proof_ := x]> (d_dir d))) ∧
  filling (with_dir d (<[Proof_ := x]> (d_dir d))) k s true.
Proof.
  intros [[[[Hg Hb Hof Hfr] Hs Hm Hn Hp Hc] Ho] Hmk Hc1 Hpr Hw Hd Ht] Hx.
  split; [unfold link_next; by rewrite Hx, Hpr|].
  split; simpl.
  - split; [|intros i; simpl; by rewrite lookup_insert_ne]. split; simpl.
    + split; simpl; [|intros i; rewrite !lookup_insert_ne by done; apply Hb|done|].
      * intros n _ _. by rewrite lookup_insert_ne.
      * intros n y. rewrite lookup_insert. case_decide; [intros [= <-]; by eapply Hfr|apply Hfr].
    + intros i y. rewrite lookup_insert_ne by done. apply Hs.
    + intros i. rewrite lookup_insert_ne by done. apply Hm.
    + intros y. rewrite lookup_insert_ne by done. apply Hn.
    + intros y. rewrite lookup_insert_eq, lookup_insert_ne by done. by intros [= <-].
    + intros i. left. by rewrite lookup_insert_ne.
  - by rewrite lookup_insert_ne.
  - unfold contents in *. simpl. by rewrite lookup_insert_ne.
  - by rewrite lookup_insert_eq, lookup_insert_ne.
  - intros i. by rewrite lookup_insert_ne.
  - intros j Hj. unfold staged_at. simpl. rewrite !lookup_insert_ne by done. by apply Hd.
  - intros j Hj. rewrite !lookup_insert_ne by done. by apply Ht.
Qed.

Lemma staging_start d : restored d → clean d → staging (created d Marker) 0.
Proof.
  intros Hr Hc. split; simpl.
  - apply restored_created; auto.
  - rewrite lookup_insert_eq. by eexists.
  - rewrite lookup_insert_ne by done. by apply Hc.
  - rewrite lookup_insert_ne by done. by apply Hc.
  - intros i. rewrite lookup_insert_ne by done. by apply Hc.
  - intros j Hj. lia.
  - intros j _. rewrite !lookup_insert_ne by done. split; by apply Hc.
Qed.

Lemma keeps_prepare d k durable :
  restored d → clean d → (k ≤ S maxBackups)%nat →
  keeps_inv d (prepareRotation (presence 0 k) line durable)
    (λ d' r, match r with Some _ => d_fault d' = true | None => filling d' k line true end).
Proof.
  intros Hr Hc Hk. pose proof (staging_start d Hr Hc) as Hs.
  apply keeps_check. eapply keeps_mono;
    [|apply keeps_create_empty; [by apply restored_inv|by apply Hc|apply restored_inv, Hs]].
  intros d' [e|]; [done|]. intros ->.
  apply keeps_check. eapply keeps_mono; [|by apply keeps_stage_sources].
  intros d1 [e|]; [done|]. cbn [Nat.add]. intros H1.
  apply keeps_check. eapply keeps_mono; [|by apply keeps_new_file].
  intros d2 [e|]; [done|]. intros H2.
  pose proof (fl_new _ _ _ _ H2) as Hn. unfold contents in Hn.
  destruct (d_dir d2 !! New) as [x|] eqn:Hx; [|done]. destruct (filling_proof d2 k line x H2 Hx) as [Hl H3].
  eapply keeps_mono; [|apply keeps_meta with (nxt := link_next d2 New Proof_);
    [apply rotation_inv_fault|done|by eapply filling_inv|rewrite Hl; intros d3 [= <-]; by eapply filling_inv]].
  intros d3 [e|]; [intros [?|?]; [done|congruence]|]. rewrite Hl. by intros [= <-].
Qed.

(** *** Publishing *)

(** The indices above [t] have moved, the others have not. *)
Record applying (d : disk) (t : nat) : Prop := {
  a_inv : uncommitted d;
  a_new : contents d New = Some line;
  a_marker : is_Some (d_dir d !! Marker);
  a_staged j : (j ≤ limit)%nat → staged_at d j;
  a_only j : staged_at d j → (j ≤ limit)%nat;
  a_work i : (i ≤ t)%nat → d_dir d !! Work i = None;
  a_moved j : (t < j)%nat → d_dir d !! Canon j = moved j;
  a_rest j : (j ≤ t)%nat → d_dir d !! Canon j = old j }.

Lemma applying_start d : filling d (S limit) line true → applying d limit.
Proof.
  intros [[Hu Ho] Hmk Hc Hp Hw Hd Ht]. split; try done.
  - intros j Hj. apply Hd. lia.
  - intros j Hj. destruct (decide (j ≤ limit)%nat); [done|]. destruct (Ht j) as [H1 H2]; [lia|].
    destruct Hj as [[? ?]|[? ?]]; congruence.
  - intros j Hj. unfold moved. rewrite (proj2 (Nat.leb_gt _ _)) by done. apply Ho.
Qed.

Lemma applying_in_place d t i : applying d t → (i ≤ limit)%nat → in_place d i.
Proof.
  intros [_ Hn _ Hs _ _ _ _] Hi. split; [|by apply Hs]. unfold contents in Hn.
  destruct (d_dir d !! New); [by eexists|done].
Qed.

(** A change that puts index [S t] where it belongs. *)
Lemma applying_next d d' t :
  applying d (S t) → (S t ≤ limit)%nat → d_files d' = d_files d → d_next d' = d_next d → same_stage d d' →
  (∀ i, i ≠ S t → d_dir d' !! Canon i = d_dir d !! Canon i) → d_dir d' !! Canon (S t) = old t →
  (∀ i, i ≠ S t → d_dir d' !! Work i = d_dir d !! Work i) →
  (∀ n x, d_dir d' !! n = Some x → (x < d_next d)%nat) →
  applying d' t.
Proof.
  intros Ha Hl Hfi Hnx Hst Hc Hct Hw Hfr. pose proof (applying_in_place d (S t)) as Hip.
  destruct Ha as [Hu Hn Hmk Hs Hon Hwo Hmo Hre] eqn:Heq. clear Heq.
  split.
  - apply (uncommitted_step d d'); [done..| | |done].
    + intros i. destruct (decide (i = S t)) as [->|Hi]; [right; right; by apply Hip|left; by apply Hc].
    + intros i Hi. destruct (decide (i = S t)) as [->|Hne]; [right|left; by rewrite <- Hw].
      split; [|done]. apply (f_bound d (u_frame d Hu)). destruct (Hs (S t) Hl); auto.
  - unfold contents in *. pose proof (Hst New) as En. cbv beta iota in En. by rewrite En, Hfi.
  - pose proof (Hst Marker) as Em. cbv beta iota in Em. by rewrite Em.
  - intros j Hj. apply (same_stage_staged d d' j Hst). by apply Hs.
  - intros j Hj. apply Hon. by apply (same_stage_staged d d' j Hst).
  - intros i Hi. rewrite Hw by lia. apply Hwo. lia.
  - intros j Hj. destruct (decide (j = S t)) as [->|Hne].
    + rewrite Hct. unfold moved. rewrite (proj2 (Nat.leb_le _ _)) by done. f_equal. lia.
    + rewrite Hc by done. apply Hmo. lia.
  - intros j Hj. rewrite Hc by lia. apply Hre. lia.
Qed.

Lemma applying_inv d t : applying d t → rotation_inv d.
Proof. intros H. left. apply H. Qed.

(** What the loop keeps while it publishes, so that it can be rolled back. *)
Definition revocable (d : disk) : Prop := uncommitted d ∧ ∀ i, staged_at d i → (i ≤ limit)%nat.

Lemma revocable_fault d : revocable d → revocable (fault d).
Proof. intros [Hu Hs]. split; [by apply uncommitted_fault|done]. Qed.

Lemma applying_revocable d t : applying d t → revocable d.
Proof. intros H. split; apply H. Qed.

(** One turn of the loop of [applyRotation]. *)
Lemma keeps_apply_target d t :
  applying d (S t) → (S t ≤ limit)%nat → (limit ≤ maxBackups)%nat →
  keeps revocable d
    (asking (inspectPrivateFileIfExists (Source t)) (λ ex,
       if ex : bool then
         check (linkMetadata (Source t) (Work (S t))) (renameMetadata (Work (S t)) (Canon (S t)))
       else removeMetadataIfExists (Canon (S t))))
    (λ d' r, match r with None => applying d' t | Some _ => d_fault d' = true end).
Proof.
  intros Ha Hl Hmax. pose proof (applying_revocable d _ Ha) as Hd. pose proof (a_inv _ _ Ha) as Hu.
  pose proof (f_fresh d (u_frame d Hu)) as Hfr.
  apply keeps_asking. eapply keeps_mono; [|apply keeps_inspect; [apply revocable_fault|done]].
  intros d' [[]|e]; [| |done]; intros [-> Hs].
  - destruct Hs as [x Hx]. assert (old t = Some x) as Ho by (by apply (u_source d Hu)).
    set (d1 := with_dir d (<[Work (S t) := x]> (d_dir d))).
    assert (link_next d (Source t) (Work (S t)) = Some d1) as Hl1.
    { unfold link_next. by rewrite Hx, (a_work _ _ Ha) by lia. }
    assert (rolled d d1) as H1.
    { eapply rolled_link; [done| |apply Ha|exact Hl1]. lia. }
    assert (revocable d1) as Hd1.
    { split; [apply H1|]. intros i Hi. apply (a_only _ _ Ha). by apply (same_stage_staged d d1 i (r_stage _ _ H1)). }
    apply keeps_check. eapply keeps_mono; [|apply keeps_meta with (nxt := link_next d (Source t) (Work (S t)));
      [apply revocable_fault|done|done|by rewrite Hl1; intros ? [= <-]]].
    intros d2 [e|]; [intros [?|?]; [done|congruence]|]. rewrite Hl1. intros [= <-].
    assert (d_dir d1 !! Work (S t) = Some x) as Hw by (unfold d1; simpl; by rewrite lookup_insert_eq).
    assert (∀ d3, rename_next d1 (Work (S t)) (Canon (S t)) = Some d3 → applying d3 t) as H3.
    { intros d3. unfold rename_next. rewrite Hw. intros [= <-]. case_decide as Hc.
      - apply (applying_next d d1); [done..|apply H1| | | |]; unfold d1 in *; simpl in *.
        + intros i _. by rewrite lookup_insert_ne.
        + by rewrite Hc.
        + intros i Hi. rewrite lookup_insert_ne by congruence. done.
        + intros n y. rewrite lookup_insert. case_decide; [intros [= <-]; by eapply Hfr|apply Hfr].
      - apply (applying_next d _); unfold d1; simpl; [done..| | | | |].
        + intros [| | | | | |]; try done; simpl; by rewrite lookup_insert_ne, lookup_delete_ne, lookup_insert_ne by done.
        + intros i Hi. by rewrite lookup_insert_ne, lookup_delete_ne, lookup_insert_ne by congruence.
        + by rewrite lookup_insert_eq.
        + intros i Hi. by rewrite lookup_insert_ne, lookup_delete_ne, lookup_insert_ne by congruence.
        + intros n y. rewrite lookup_insert. case_decide; [intros [= <-]; by eapply Hfr|].
          rewrite lookup_delete_Some, lookup_insert_Some. intros [_ [[_ <-]|[_ ?]]]; by eapply Hfr. }
    eapply keeps_mono; [|apply keeps_meta with (nxt := rename_next d1 (Work (S t)) (Canon (S t)));
      [apply revocable_fault|done|done|intros d3 Hd3; by eapply applying_revocable, H3]].
    intros d3 [e|]; [|by apply H3]. intros [?|Hn]; [done|]. unfold rename_next in Hn. by rewrite Hw in Hn.
  - assert (old t = None) as Ho.
    { apply (u_missing d Hu). destruct (a_staged _ _ Ha t) as [[? ?]|?]; [lia|congruence|done]. }
    assert (applying (drop (Canon (S t)) d) t) as H1.
    { apply (applying_next d _); unfold drop; simpl; [done..| | | | |].
      - intros [| | | | | |]; try done; simpl; by rewrite lookup_delete_ne by done.
      - intros i Hi. by rewrite lookup_delete_ne by congruence.
      - by rewrite lookup_delete_eq, Ho.
      - intros i Hi. by rewrite lookup_delete_ne by done.
      - intros n y. rewrite lookup_delete_Some. intros [_ ?]. by eapply Hfr. }
    eapply keeps_mono; [|apply keeps_remove; [apply revocable_fault|done|by eapply applying_revocable]].
    intros d' [e|]; [done|]. by intros ->.
Qed.

Lemma keeps_apply_targets d t :
  applying d t → (t ≤ limit)%nat → (limit ≤ maxBackups)%nat →
  keeps revocable d (apply_targets t)
    (λ d' r, match r with None => applying d' 0 | Some _ => d_fault d' = true end).
Proof.
  revert d. induction t as [|t IH]; intros d Ha Hl Hmax; [done|]. cbn [apply_targets].
  apply keeps_check. eapply keeps_mono; [|by apply keeps_apply_target].
  intros d' [e|]; [done|]. intros Ha'. apply IH; [done|lia|done].
Qed.

(** Publishing: the new file becomes the current one. *)
Lemma applying_committed d d' :
  applying d 0 → rename_next d New (Canon 0) = Some d' → committed d'.
Proof.
  intros [Hu Hn Hmk _ _ _ Hmo Hre] Hd. unfold contents in Hn. unfold rename_next in Hd.
  destruct (d_dir d !! New) as [x|] eqn:Hx; [|done]. simpl in Hn.
  rewrite decide_False in Hd; [|rewrite Hre by lia; apply (u_new d Hu x Hx)]. simplify_eq.
  destruct Hu as [[Hg Hb Hof Hfr] Hs Hm Hne Hp Hc].
  split; [split|..]; simpl.
  - intros n Hst _. by rewrite lookup_insert_ne, lookup_delete_ne.
  - intros i. rewrite !lookup_insert_ne, !lookup_delete_ne by done. apply Hb.
  - done.
  - intros n y. rewrite lookup_insert. case_decide; [intros [= <-]; by eapply Hfr|].
    rewrite lookup_delete_Some. intros [_ ?]. by eapply Hfr.
  - by rewrite lookup_insert_ne, lookup_delete_eq.
  - unfold contents. simpl. by rewrite lookup_insert_eq.
  - intros y. rewrite lookup_insert_eq. intros [= <-]. by apply Hne.
  - intros i Hi. rewrite lookup_insert_ne, lookup_delete_ne by (done || (intros [= ?]; lia)). by apply Hmo.
  - intros y. rewrite lookup_insert_ne, lookup_delete_ne by done. rewrite lookup_insert_eq.
    intros Hy. apply Hp in Hy. congruence.
Qed.

Lemma keeps_apply d :
  applying d limit → (limit ≤ maxBackups)%nat →
  keeps_inv d (applyRotation limit)
    (λ d' r, match r with
      | (_, None) => committed d'
      | (true, Some _) => d_fault d' = true
      | (false, Some _) => revocable d' ∧ d_fault d' = true end).
Proof.
  intros Ha Hmax. apply keeps_bind. eapply keeps_mono;
    [|apply (keeps_weaken revocable); [by intros d' [? _]; left|by eapply applying_revocable|by apply keeps_apply_targets]].
  intros d' [e|]; [done|]. intros [Hrv H0]. cbn [keeps mbind prog_mbind prog_bind trigger answers].
  intros ok d2 Hok. apply outcome_fault in Hok. destruct ok.
  - pose proof (applying_committed d' d2 H0 Hok) as Hc. split; [by right|].
    apply keeps_bind. eapply keeps_mono; [|apply keeps_sync; [apply rotation_inv_fault|by right]].
    intros d3 [e|]; [by intros [? _]|]. by intros ->.
  - destruct Hok as [[Hn ->]|[_ ->]].
    + exfalso. unfold rename_next in Hn. pose proof (a_new _ _ H0) as Hne. unfold contents in Hne.
      by destruct (d_dir d' !! New).
    + split; [left; by apply revocable_fault|]. split; [by apply revocable_fault|done].
Qed.

(** *** Rotating *)

(** The highest index present among [indices], or [h]. *)
Definition highest (indices : list nat) (h : nat) : nat :=
  fold_left (λ h i, if bool_decide (is_Some (old i)) then i else h) indices h.

Lemma highest_le n h i : (h ≤ i)%nat → (h ≤ highest (seq i n) h ≤ Nat.max h (i + n - 1))%nat.
Proof.
  revert h i. induction n as [|n IH]; intros h i Hle; cbn [seq highest fold_left]; [lia|].
  change (fold_left _ (seq (S i) n) ?x) with (highest (seq (S i) n) x). case_match.
  - specialize (IH i (S i)). lia.
  - specialize (IH h (S i)). lia.
Qed.

Lemma highest_spec n h i j :
  (h ≤ i)%nat → (i ≤ j < i + n)%nat → is_Some (old j) → (j ≤ highest (seq i n) h)%nat.
Proof.
  revert h i. induction n as [|n IH]; intros h i Hle Hj Ho; [lia|]. cbn [seq highest fold_left].
  change (fold_left _ (seq (S i) n) ?x) with (highest (seq (S i) n) x).
  destruct (decide (j = i)) as [->|Hne].
  - rewrite bool_decide_eq_true_2 by done. pose proof (highest_le n i (S i)). lia.
  - case_match; apply IH; (done || lia).
Qed.

Lemma keeps_preflight d indices present h (k : list bool → nat → action) Q :
  restored d → is_Some (old 0) →
  keeps_inv d (k (present ++ ((λ j, bool_decide (is_Some (old j))) <$> indices)) (highest indices h)) Q →
  (∀ d' e, d_fault d' = true → Q d' (Some e)) →
  keeps_inv d (preflight indices present h k) Q.
Proof.
  intros Hr H0 Hk HQ. revert present h Hk. induction indices as [|i indices IH]; intros present h Hk; cbn [preflight].
  { cbn [fmap list_fmap] in Hk. by rewrite app_nil_r in Hk. }
  apply keeps_asking. eapply keeps_mono; [|apply keeps_inspect; [apply rotation_inv_fault|by apply restored_inv]].
  intros d' [b|e]; [|by apply HQ]. intros [-> Hb]. rewrite (proj2 Hr i) in Hb.
  assert (b = bool_decide (is_Some (old i))) as ->.
  { destruct b; [by rewrite bool_decide_eq_true_2|]. rewrite bool_decide_eq_false_2; [done|]. rewrite Hb. by intros [? ?]. }
  assert (Nat.eqb i 0 && negb (bool_decide (is_Some (old i))) = false) as ->.
  { destruct (Nat.eqb_spec i 0) as [->|]; [|done]. by rewrite bool_decide_eq_true_2. }
  apply IH. by rewrite <- (assoc_L (++)).
Qed.

Lemma take_presence n k : (k ≤ n)%nat → take k (presence 0 n) = presence 0 k.
Proof.
  intros H. unfold presence. rewrite <- fmap_take. f_equal.
  replace n with (k + (n - k))%nat by lia. rewrite seq_app, take_app_le by (rewrite length_seq; lia).
  apply take_ge. rewrite length_seq. lia.
Qed.

Lemma keeps_recover_clean d :
  rotation_inv d → clean d →
  keeps_inv d recoverRotation (λ d' r, match r with None => d' = d | Some _ => d_fault d' = true end).
Proof.
  intros Hd Hcl. apply keeps_asking. eapply keeps_mono; [|apply keeps_inspect; [apply rotation_inv_fault|done]].
  intros d1 [mk|e]; [|done]. intros [-> Hm]. destruct mk; cbn [negb].
  - exfalso. destruct Hm as [x Hx]. rewrite (Hcl Marker) in Hx; done.
  - reflexivity.
Qed.

(** With [limit] the one the code computes. *)
Lemma keeps_rotate d backups durable :
  restored d → clean d → is_Some (old 0) → (backups ≤ maxBackups)%nat →
  limit = Nat.min backups (S (highest (seq 0 (S backups)) 0)) →
  keeps_inv d (rotate backups line durable)
    (λ d' r, match r with None => clean d' ∧ committed d' | Some _ => d_fault d' = true end).
Proof.
  intros Hr Hcl H0 Hmax Hlim. assert (limit ≤ backups)%nat as Hlb by lia.
  apply keeps_check. eapply keeps_mono; [|apply keeps_recover_clean; [by apply restored_inv|done]].
  intros d1 [e|]; [done|]. intros ->.
  apply keeps_preflight; [done|done| |done]. cbn [app]. cbv zeta. rewrite <- Hlim.
  change ((λ j, bool_decide (is_Some (old j))) <$> seq 0 (S backups)) with (presence 0 (S backups)).
  rewrite take_presence by lia.
  apply keeps_bind. eapply keeps_mono; [|apply keeps_with_inv; [by apply restored_inv|apply keeps_prepare; [done|done|lia]]].
  intros d1 [e|]; intros [Hi1 H1].
  { apply keeps_bind. eapply keeps_mono; [|apply keeps_fault; [by apply keeps_recover|done]].
    by intros d' e' [_ ?]. }
  apply keeps_bind. eapply keeps_mono; [|apply keeps_with_inv; [done|apply keeps_apply; [by apply applying_start|lia]]].
  intros d2 [published e] [Hi2 H2]. destruct e as [e|].
  - destruct published; [exact H2|]. destruct H2 as [[Hu Hs] Hf].
    apply keeps_bind.
    eapply keeps_mono; [|apply (keeps_weaken (side false)); [apply side_inv|exact Hu|apply keeps_fault; [by apply keeps_rollback|done]]].
    by intros d' e' (_ & _ & ?).
  - assert (committed d2) as Hc by (by destruct published).
    assert (keeps_inv d2 cleanupRotationStaging
      (λ d' r, match r with None => clean d' ∧ committed d' | Some _ => d_fault d' = true end)) as Hk.
    { eapply keeps_mono; [|apply (keeps_weaken (side true)); [apply side_inv|done|by apply (keeps_cleanup true)]].
      intros d' [e|]; by intros [_ ?]. }
    by destruct published.
Qed.
End invariant.

(** ** The rotation of a log *)

Definition old_files (d : disk) (i : nat) : option nat := d_dir d !! Canon i.

(** How many files move: the code's [limit]. *)
Definition rotation_limit (d : disk) (backups : nat) : nat :=
  Nat.min backups (S (highest (old_files d) (seq 0 (S backups)) 0)).

(** No rotation in progress, every name a file that was allocated. *)
Definition log_disk (d : disk) : Prop :=
  clean d ∧ (∀ n x, d_dir d !! n = Some x → (x < d_next d)%nat) ∧ is_Some (d_dir d !! Canon 0).

Lemma clean_restored d :
  clean d → (∀ n x, d_dir d !! n = Some x → (x < d_next d)%nat) → restored (old_files d) (λ x, d_files d !! x) d.
Proof.
  intros Hc Hf. split; [|done]. split; [split|..].
  - intros n Hn Hx. rewrite Hc in Hx by done. by destruct Hx.
  - intros i Hx. rewrite !Hc in Hx by done. destruct Hx as [[? ?]|[[? ?]|[? ?]]]; done.
  - intros i x Hx. split; [done|]. by eapply Hf.
  - done.
  - intros i x Hx. by rewrite Hc in Hx.
  - intros i Hx. rewrite Hc in Hx by done. by destruct Hx.
  - intros x Hx. by rewrite Hc in Hx.
  - intros x Hx. by rewrite Hc in Hx.
  - intros i. by left.
Qed.

Lemma log_disk_restored d : log_disk d → restored (old_files d) (λ x, d_files d !! x) d.
Proof. intros (Hc & Hf & _). by apply clean_restored. Qed.

(** What a reader of the log sees at an index. *)
Definition view (d : disk) (i : nat) : option string := contents d (Canon i).

(** All the old files, or the new line first and the old files moved up, the
    last of [backups] gone. *)
Definition unrotated (d d' : disk) : Prop := ∀ i, view d' i = view d i.

Definition rotated (backups : nat) (line : string) (d d' : disk) : Prop :=
  ∀ i, view d' i = if Nat.eqb i 0 then Some line else if Nat.leb i backups then view d (i - 1) else view d i.

Lemma restored_view d d' : restored (old_files d) (λ x, d_files d !! x) d' → unrotated d d'.
Proof.
  intros [[[_ _ Hof _] _ _ _ _ _] Ho] i. unfold view, contents. rewrite Ho. unfold old_files.
  destruct (d_dir d !! Canon i) as [x|] eqn:Hx; [|done]. simpl. by apply (Hof i).
Qed.

(** What the files that moved held. *)
Lemma moved_view d backups i :
  (0 < i)%nat →
  (x ← moved (old_files d) (rotation_limit d backups) i; d_files d !! x)
  = if Nat.leb i backups then view d (i - 1) else view d i.
Proof.
  intros Hi. unfold moved, rotation_limit. pose proof (highest_spec (old_files d) (S backups) 0 0) as Hh.
  assert (∀ j, (highest (old_files d) (seq 0 (S backups)) 0 < j ≤ backups)%nat → old_files d j = None) as Hnone.
  { intros j Hj. destruct (old_files d j) eqn:Ho; [|done]. exfalso. specialize (Hh j). rewrite Ho in Hh.
    specialize (Hh ltac:(lia) ltac:(lia) ltac:(by eexists)). lia. }
  unfold view, contents. change (d_dir d !! Canon ?j) with (old_files d j).
  repeat case_match; bool_hyps; try done; try lia.
  by rewrite !Hnone by lia.
Qed.

Lemma committed_view d d' backups line :
  (backups ≤ maxBackups)%nat →
  committed (old_files d) (λ x, d_files d !! x) (rotation_limit d backups) line d' → rotated backups line d d'.
Proof.
  intros Hmax [[_ _ Hof _] _ Hfirst _ Hmo _] i. destruct (Nat.eqb_spec i 0) as [->|Hi]; [done|].
  rewrite <- moved_view by lia. unfold view, contents. rewrite Hmo by lia.
  assert (∀ j, (x ← old_files d j; d_files d' !! x) = (x ← old_files d j; d_files d !! x)) as Hj.
  { intros j. destruct (old_files d j) as [x|] eqn:Hx; [|done]. simpl. by apply (Hof j). }
  unfold moved. case_match; apply Hj.
Qed.

(** The same directory, no call having failed yet. *)
Definition calm (d : disk) : disk := Disk (d_dir d) (d_files d) (d_next d) false.

Lemma rotation_inv_calm old held limit line d :
  rotation_inv old held limit line d → rotation_inv old held limit line (calm d).
Proof.
  intros [[[? ? ? ?] ? ? ? ? ?]|[[? ? ? ?] ? ? ? ? ?]]; [left|right]; split; try done; by split.
Qed.

(** Any number of recoveries, each cut short anywhere. *)
Inductive recoveries : disk → disk → Prop :=
| rec_none d : recoveries d d
| rec_more d d1 d2 : stops d recoverRotation d1 → recoveries d1 d2 → recoveries d d2.

Section rotation.
Context (d : disk) (backups : nat) (line : string) (durable : bool).
Context (Hlog : log_disk d) (Hmax : (backups ≤ maxBackups)%nat).

Local Notation inv := (rotation_inv (old_files d) (λ x, d_files d !! x) (rotation_limit d backups) line).

Lemma log_inv : inv d.
Proof. left. by apply log_disk_restored. Qed.

Lemma rotate_keeps :
  keeps inv d (rotate backups line durable)
    (λ d' r, match r with
      | None => clean d' ∧ committed (old_files d) (λ x, d_files d !! x) (rotation_limit d backups) line d'
      | Some _ => d_fault d' = true end).
Proof.
  apply keeps_rotate; [by apply log_disk_restored|apply Hlog|apply Hlog|done|done].
Qed.

Lemma recoveries_inv d1 d2 : inv d1 → recoveries d1 d2 → inv d2.
Proof.
  intros Hi. induction 1 as [|d1 d2 d3 Hs _ IH]; [done|]. apply IH.
  eapply keeps_stops; [exact Hi|by apply keeps_recover|exact Hs].
Qed.
End rotation.

(** C4: A rotation is all or nothing: wherever it stops, and wherever the
    recoveries after it stop, a recovery that succeeds leaves no staging file
    and either every old log file, unchanged, or the new line first and the old
    files moved up by one. *)
Theorem rotation_crash_safe d backups line durable d1 d2 d3 :
  log_disk d → (backups ≤ maxBackups)%nat →
  stops d (rotate backups line durable) d1 → recoveries d1 d2 → halts d2 recoverRotation d3 None →
  clean d3 ∧ (unrotated d d3 ∨ rotated backups line d d3).
Proof.
  intros Hlog Hmax Hs Hr Hh. pose proof (log_inv d backups line Hlog) as Hi.
  assert (rotation_inv (old_files d) (λ x, d_files d !! x) (rotation_limit d backups) line d2) as Hi2.
  { eapply recoveries_inv; [|exact Hr]. eapply keeps_stops; [exact Hi|by apply rotate_keeps|exact Hs]. }
  pose proof (keeps_halts _ _ _ _ _ _ (keeps_recover _ _ _ _ _ Hi2) Hh) as [Hc Hd]. split; [done|].
  destruct Hd as [[_ Hd]|[_ Hd]]; [left; by apply restored_view|right; by eapply committed_view].
Qed.

(** A rotation that reports success has rotated: the line is the whole of
    the current file, each backup holds what was before it, and no staging file
    is left.  It reports an error only when a call on the directory failed. *)
Theorem rotate_outcome d backups line durable d' r :
  log_disk d → (backups ≤ maxBackups)%nat → halts d (rotate backups line durable) d' r →
  match r with
  | None => clean d' ∧ rotated backups line d d'
  | Some _ => d_fault d' = true
  end.
Proof.
  intros Hlog Hmax Hh. pose proof (keeps_halts _ _ _ _ _ _ (rotate_keeps d backups line durable Hlog Hmax) Hh) as H.
  destruct r; [done|]. destruct H as [Hc H]. split; [done|]. by eapply committed_view.
Qed.

(** *** When nothing fails *)

Definition private_mode : file_mode :=
  {| fm_symlink := false; fm_dir := false; fm_regular := true; fm_perm := 384; fm_owned := true |}.
Definition private_directory : file_mode :=
  {| fm_symlink := false; fm_dir := true; fm_regular := false; fm_perm := 448; fm_owned := true |}.

Definition honest_place {X} (e : place_op X) : X :=
  match e in place_op X return X with
  | LstatDir => DirInfo private_directory
  | MkdirDir => OpenExist
  | StatDir => Some private_directory
  | ReadDir => ([], true)
  | OpenLock _ => OpenOk
  | StatLock => Some (0%Z, private_mode)
  | LockMutex | UnlockMutex | SetPending _ => tt
  | LockIsSymlink | LogIsSymlink | GetPending => false
  | ChmodDir | OpenDir | SyncDir | CloseDir | ChmodLock | FlockExclusive | FlockUnlock | CloseLock => true
  end.

(** The answer of a directory on which no call fails. *)
Definition honest {X} (d : disk) (e : fs_op X) : X :=
  match e in fs_op X return X with
  | Lstat n => match d_dir d !! n with Some x => StatInfo x true | None => StatNone end
  | LinkOp a b => match link_next d a b with Some _ => true | None => false end
  | RenameOp a b => match rename_next d a b with Some _ => true | None => false end
  | RemoveOp a => match remove_next d a with Some _ => true | None => false end
  | OpenOp a => match d_dir d !! a with Some _ => OpenOk | None => OpenNotExist end
  | CreateExcl a => match d_dir d !! a with Some _ => OpenExist | None => OpenOk end
  | WriteOp a data => (slen data, true)
  | FStat a => (λ s, (slen s, private_mode)) <$> contents d a
  | ReadAtOp a offset len => (λ s, str_take (Z.to_nat len) (str_drop (Z.to_nat offset) s)) <$> contents d a
  | TruncateOp a size => match contents d a with Some _ => true | None => false end
  | ChmodOp _ => true
  | SyncFileOp _ => true
  | CloseOp _ => true
  | LstatEntry path =>
      match n ← entry_of path; d_dir d !! n with Some x => StatInfo x true | None => StatNone end
  | RemoveEntry path =>
      match (match entry_of path with Some n => remove_next d n | None => Some d end) with Some _ => true | None => false end
  | At e => honest_place e
  end.

Abbreviation run_for := (world_run_for (@answers) (@honest)).
Abbreviation run_all := (world_run (@answers) (@honest)).

(** A program all of whose calls can succeed, whatever the directory. *)
Definition quiet {R} (p : prog fs_op R) : Prop :=
  ∀ d, ∃ d' r, run_all d p = Some (d', r) ∧ d_fault d' = d_fault d.

Lemma quiet_ret {R} (r : R) : quiet (Ret r).
Proof. intros d. by exists d, r. Qed.

Lemma quiet_bind {A B} (p : prog fs_op A) (f : A → prog fs_op B) :
  quiet p → (∀ a, quiet (f a)) → quiet (p ≫= f).
Proof.
  intros Hp Hf d. destruct (Hp d) as (d1 & a & H1 & Hd1). destruct (Hf a d1) as (d2 & r & H2 & Hd2).
  exists d2, r. rewrite run_all_bind, H1. simpl. split; [done|]. by rewrite Hd2.
Qed.

Lemma quiet_lstat n : quiet (trigger (Lstat n)).
Proof.
  intros d. simpl. unfold lstat_answers. destruct (d_dir d !! n) as [x|] eqn:Hx; simpl; [rewrite Nat.eqb_refl|]; eexists _, _; done.
Qed.

Lemma quiet_outcome (e : fs_op bool) (next : disk → option disk) :
  (∀ d, answers d e = outcome d (next d)) →
  (∀ d, honest d e = match next d with Some _ => true | None => false end) →
  (∀ d d', next d = Some d' → d_fault d' = d_fault d) → quiet (call e).
Proof.
  intros Ha Hh Hf d. unfold call. cbn [mbind prog_mbind prog_bind trigger run_all]. rewrite Ha, Hh.
  specialize (Hf d). destruct (next d) as [d'|]; simpl; eexists _, _; (split; [done|auto]).
Qed.

Lemma quiet_link a b : quiet (call (LinkOp a b)).
Proof.
  eapply quiet_outcome; [done|done|]. intros d d'. unfold link_next. repeat case_match; by intros [= <-].
Qed.

Lemma quiet_rename a b : quiet (call (RenameOp a b)).
Proof.
  eapply quiet_outcome; [done|done|]. intros d d'. unfold rename_next. repeat case_match; by intros [= <-].
Qed.

Lemma quiet_unlink a : quiet (call (RemoveOp a)).
Proof.
  eapply quiet_outcome; [done|done|]. intros d d'. unfold remove_next. repeat case_match; by intros [= <-].
Qed.

Lemma quiet_inspect n : quiet (inspectPrivateFileIfExists n).
Proof. apply quiet_bind; [apply quiet_lstat|]. intros a. apply quiet_ret. Qed.

Lemma quiet_sync : quiet syncMetadata.
Proof. intros d. by eexists _, _. Qed.

Lemma quiet_check p k : quiet p → quiet k → quiet (check p k).
Proof. intros Hp Hk. apply quiet_bind; [done|]. intros [e|]; [apply quiet_ret|done]. Qed.

Lemma quiet_asking {A} (p : prog fs_op (result audit_error A)) (k : A → action) :
  quiet p → (∀ a, quiet (k a)) → quiet (asking p k).
Proof. intros Hp Hk. apply quiet_bind; [done|]. intros [a|e]; [done|apply quiet_ret]. Qed.

Create HintDb quiet.
#[local] Hint Resolve quiet_ret quiet_lstat quiet_inspect quiet_sync quiet_link quiet_rename quiet_unlink quiet_check quiet_asking quiet_bind : quiet.

Lemma quiet_remove n : quiet (removeMetadataIfExists n).
Proof. apply quiet_asking; [auto with quiet|]. intros []; auto with quiet. Qed.

Lemma quiet_remove_all names : quiet (remove_all names).
Proof. induction names as [|n names IH]; cbn [remove_all]; [apply quiet_ret|]. apply quiet_check; [apply quiet_remove|done]. Qed.

Lemma quiet_rollback_index i : quiet (rollback_index i).
Proof.
  apply quiet_asking; [auto with quiet|]. intros [].
  - apply quiet_check; [apply quiet_remove|]. apply quiet_check; apply quiet_check; auto with quiet.
  - apply quiet_asking; [auto with quiet|]. intros []; [apply quiet_remove|auto with quiet].
Qed.

Lemma quiet_rollback n : quiet (rollbackRotation n).
Proof.
  apply quiet_check; [|apply quiet_remove_all].
  induction (seq 0 (S n)) as [|i l IH]; cbn [rollback_loop]; [apply quiet_ret|].
  apply quiet_check; [apply quiet_rollback_index|done].
Qed.

Lemma quiet_limit : quiet rotationLimit.
Proof.
  apply quiet_bind.
  - generalize (seq 0 (S maxBackups)). intros l. generalize 0%nat, false.
    induction l as [|i l IH]; intros n staged; cbn [scan_indices]; [apply quiet_ret|].
    repeat (apply quiet_bind; [apply quiet_inspect|]; intros [?|?]; [|apply quiet_ret]). apply IH.
  - intros [[n staged]|e]; [|apply quiet_ret].
    repeat (apply quiet_bind; [apply quiet_inspect|]; intros [?|?]; [|apply quiet_ret]). apply quiet_ret.
Qed.

Lemma quiet_recover : quiet recoverRotation.
Proof.
  apply quiet_asking; [auto with quiet|]. intros []; cbn [negb]; [|apply quiet_ret].
  apply quiet_asking; [apply quiet_limit|]. intros [n []]; cbn [negb]; [|apply quiet_remove_all].
  apply quiet_asking; [auto with quiet|]. intros new. apply quiet_asking; [auto with quiet|]. intros proof.
  destruct new; [apply quiet_rollback|]. destruct proof; [|apply quiet_remove_all].
  apply quiet_bind; [apply quiet_lstat|]. intros [| |x p]; [apply quiet_ret..|].
  apply quiet_bind; [apply quiet_lstat|]. intros [| |y q]; [apply quiet_ret..|].
  repeat case_match; [apply quiet_ret..|apply quiet_remove_all].
Qed.

(** C33: Recovery gets through: after a rotation that stopped anywhere, and any
    recoveries that stopped anywhere, a recovery in which no call fails comes to
    an end, and any that does without a failed call reports success. *)
Theorem recovery_succeeds d backups line durable d1 d2 :
  log_disk d → (backups ≤ maxBackups)%nat →
  stops d (rotate backups line durable) d1 → recoveries d1 d2 →
  (∃ d3, halts (calm d2) recoverRotation d3 None ∧ d_fault d3 = false) ∧
  ∀ d3 r, halts (calm d2) recoverRotation d3 r → d_fault d3 = false → r = None.
Proof.
  intros Hlog Hmax Hs Hr. pose proof (log_inv d backups line Hlog) as Hi.
  assert (rotation_inv (old_files d) (λ x, d_files d !! x) (rotation_limit d backups) line (calm d2)) as Hi2.
  { apply rotation_inv_calm. eapply recoveries_inv; [|exact Hr].
    eapply keeps_stops; [exact Hi|by apply rotate_keeps|exact Hs]. }
  assert (∀ d3 r, halts (calm d2) recoverRotation d3 r → d_fault d3 = false → r = None) as Hok.
  { intros d3 r Hh Hf. pose proof (keeps_halts _ _ _ _ _ _ (keeps_recover _ _ _ _ _ Hi2) Hh) as H.
    destruct r; [congruence|done]. }
  split; [|done]. destruct (quiet_recover (calm d2)) as (d3 & r & Hrun & Hf). apply run_all_halts in Hrun.
  exists d3. split; [|done]. by rewrite (Hok d3 r Hrun Hf) in Hrun.
Qed.

(** ** Sample runs *)

Definition sample_log : disk :=
  Disk (<[Canon 0 := 0%nat]> (<[Canon 1 := 1%nat]> ∅)) (<[0%nat := "a"]> (<[1%nat := "b"]> ∅)) 2 false.

Lemma sample_log_disk : log_disk sample_log.
Proof.
  split; [|split].
  - intros n Hn. destruct n; [done|..]; unfold sample_log; simpl; rewrite !lookup_insert_ne by done; apply lookup_empty.
  - intros n x. unfold sample_log. simpl. rewrite !lookup_insert. repeat case_decide; intros [= <-]; lia.
  - by eexists.
Qed.

(** The rotation stopped after 40 calls, with the backups moved and the new
    file not published, and the recovery after it. *)
Definition stopped_log : disk := default sample_log (run_for 40 sample_log (rotate 3 "c" true)).
Definition recovered_log : disk := fst (default (sample_log, None) (run_all (calm stopped_log) recoverRotation)).

Lemma rotation_crash_safe_witness :
  clean recovered_log ∧ (unrotated sample_log recovered_log ∨ rotated 3 "c" sample_log recovered_log).
Proof.
  apply (rotation_crash_safe sample_log 3 "c" true stopped_log stopped_log recovered_log).
  - exact sample_log_disk.
  - unfold maxBackups. lia.
  - apply (run_for_stops (reply := @honest) 40). vm_compute. reflexivity.
  - apply rec_none.
  - apply (run_all_halts (reply := @honest)). vm_compute. reflexivity.
Defined.

Lemma rotate_outcome_witness : ∃ d', clean d' ∧ rotated 3 "c" sample_log d'.
Proof.
  exists (fst (default (sample_log, None) (run_all sample_log (rotate 3 "c" true)))).
  apply (rotate_outcome sample_log 3 "c" true (fst (default (sample_log, None) (run_all sample_log (rotate 3 "c" true)))) None).
  - exact sample_log_disk.
  - unfold maxBackups. lia.
  - apply (run_all_halts (reply := @honest)). vm_compute. reflexivity.
Defined.

Lemma recovery_succeeds_witness :
  ∃ d3, halts (calm stopped_log) recoverRotation d3 None ∧ d_fault d3 = false.
Proof.
  apply (recovery_succeeds sample_log 3 "c" true stopped_log stopped_log).
  - exact sample_log_disk.
  - unfold maxBackups. lia.
  - apply (run_for_stops (reply := @honest) 40). vm_compute. reflexivity.
  - apply rec_none.
Defined.
