(* ===== verification/AuditRecord.v ===== *)
(** * One record of the audit log: [encodeEvent] of [internal/audit/logger.go]

    An event becomes a record with bounded fields, the command only as its
    digest and a redacted preview; the record is printed as one line of JSON.
    That a line holds exactly one newline, at its end, is what makes an append
    to the log recoverable ([AuditWrite]). *)

From S2P Require Import Prelude GoStr Utf8 Json GoTime Model Wire Frame AnalyzerRules Redaction Redactor AuditEvent AuditLog.
From Stdlib Require Import Ascii.
Open Scope string_scope.
Open Scope list_scope.

(** [encoding/json] writes maps with their keys sorted; empty slices and maps
    are left out, like nil ones. *)
Definition record_json (timestamp : string) (r : record) : json :=
  JObj (pieces
    [ req "timestamp" (JStr timestamp);
      req "request_id" (JStr (rec_request_id r));
      req "interface" (JStr (rec_interface r));
      req "server_alias" (JStr (rec_server_alias r));
      req "command_sha256" (JStr (rec_command_sha256 r));
      req "command_preview" (JStr (rec_command_preview r));
      req "decision" (JStr (rec_decision r));
      opt (is_nil (rec_risk_categories r)) "risk_categories" (JArr (JStr <$> rec_risk_categories r));
      opt (str_is_empty (rec_approval_state r)) "approval_state" (JStr (rec_approval_state r));
      req "duration_ms" (jint (rec_duration_ms r));
      req "exit_code" (jint (rec_exit_code r));
      req "timed_out" (JBool (rec_timed_out r));
      req "truncated" (JBool (rec_truncated r));
      opt (is_nil (map_to_list (rec_redactions r))) "redactions" (JObj (map_members jint (rec_redactions r))) ]).

Definition newline_str : string := String newline "".

Section encode.
(** [sha256.Sum256] *)
Context (sha256 : string → string).

Definition preview (command : string) : string :=
  rr_text (@Redact (redactor_output sha256) command ∅ maxCommandPreviewBytes).

Definition record_of (event : Event) : record := {|
  rec_timestamp := ev_timestamp event;
  rec_request_id := truncateUTF8 (ev_request_id event) maxEventStringBytes;
  rec_interface := truncateUTF8 (ev_interface event) maxEventStringBytes;
  rec_server_alias := truncateUTF8 (ev_server_alias event) maxEventStringBytes;
  rec_command_sha256 := hex_encode (sha256 (ev_command event));
  rec_command_preview := preview (ev_command event);
  rec_decision := truncateUTF8 (ev_decision event) maxEventStringBytes;
  rec_risk_categories := boundedCategories (ev_risk_categories event);
  rec_approval_state := truncateUTF8 (ev_approval_state event) maxEventStringBytes;
  rec_duration_ms := ev_duration_ms event;
  rec_exit_code := ev_exit_code event;
  rec_timed_out := ev_timed_out event;
  rec_truncated := ev_truncated event;
  rec_redactions := boundedRedactions (ev_redactions event) |}.

Definition with_command (e : Event) (command : string) : Event := {|
  ev_timestamp := ev_timestamp e; ev_request_id := ev_request_id e; ev_interface := ev_interface e;
  ev_server_alias := ev_server_alias e; ev_command := command; ev_decision := ev_decision e;
  ev_risk_categories := ev_risk_categories e; ev_approval_state := ev_approval_state e;
  ev_duration_ms := ev_duration_ms e; ev_exit_code := ev_exit_code e; ev_timed_out := ev_timed_out e;
  ev_truncated := ev_truncated e; ev_redactions := ev_redactions e; ev_require_sync := ev_require_sync e |}.

(** The line and whether it must be synced. *)
Definition encodeEvent (event : Event) : Prelude.result audit_error (string * bool) :=
  if (maxCommandBytes <? slen (ev_command event))%Z then Fail ErrInvalidEvent
  else
    let entry := record_of event in
    match marshal_time (rec_timestamp entry) with
    | None => Fail ErrEncode
    | Some timestamp =>
        let encoded := print (record_json timestamp entry) +:+ newline_str in
        Ok (encoded, negb (str_is_empty (ev_approval_state event)) || ev_require_sync event)
    end.

(** ** Lines *)

(** A line of the log: no newline but the last byte. *)
Definition one_line (line : string) : Prop :=
  ∃ body, line = body +:+ newline_str ∧ index_byte body newline = None.

Lemma record_json_wf timestamp r : json_wf (record_json timestamp r).
Proof.
  unfold record_json, pieces, written, req, opt. cbn [app json_wf].
  repeat case_match; cbn [app fmap list_fmap fst snd];
    repeat (apply Forall_cons; split; [cbn [fst snd id]; first [done | apply jint_wf | apply (arr_wf JStr); done | by apply map_members_wf; intros; apply jint_wf]|]);
    by apply Forall_nil.
Qed.

Lemma encodeEvent_Ok event line durable :
  encodeEvent event = Ok (line, durable) →
  ∃ timestamp, marshal_time (ev_timestamp event) = Some timestamp ∧ (slen (ev_command event) ≤ maxCommandBytes)%Z ∧
    line = print (record_json timestamp (record_of event)) +:+ newline_str ∧
    durable = negb (str_is_empty (ev_approval_state event)) || ev_require_sync event.
Proof.
  unfold encodeEvent. destruct (_ <? _)%Z eqn:Hc; [done|]. cbn zeta. cbn [record_of rec_timestamp].
  destruct (marshal_time _) as [t|]; [|done]. remember (print (record_json t (record_of event)) +:+ newline_str) as encoded eqn:He.
  intros [= <- <-]. bool_hyps. exists t. by rewrite He.
Qed.

Lemma encodeEvent_one_line event line durable : encodeEvent event = Ok (line, durable) → one_line line.
Proof.
  intros (t & _ & _ & -> & _)%encodeEvent_Ok. exists (print (record_json t (record_of event))). split; [done|].
  apply print_no_newline, record_json_wf.
Qed.

(** The fields of a record are within their bounds and, but for the preview,
    valid UTF-8. *)
Definition record_bounded (r : record) : Prop :=
  Forall (λ x, (slen x ≤ maxEventStringBytes)%Z ∧ valid_utf8 x = true)
    [rec_request_id r; rec_interface r; rec_server_alias r; rec_decision r; rec_approval_state r] ∧
  (slen (rec_command_preview r) ≤ maxCommandPreviewBytes)%Z ∧
  (length (rec_risk_categories r) ≤ maxRiskCategories)%nat ∧
  Forall (λ x, (slen x ≤ maxCategoryBytes)%Z ∧ valid_utf8 x = true) (rec_risk_categories r).

Lemma truncated_bounded x n : (0 ≤ n)%Z → (slen (truncateUTF8 x n) ≤ n)%Z ∧ valid_utf8 (truncateUTF8 x n) = true.
Proof. intros Hn. destruct (truncateUTF8_spec x n) as (H1 & H2 & _). split; [lia|done]. Qed.

Lemma record_of_bounded event : record_bounded (record_of event).
Proof.
  split; [|split; [|split]]; cbn [record_of rec_request_id rec_interface rec_server_alias rec_decision rec_approval_state
    rec_command_preview rec_risk_categories].
  - repeat (apply Forall_cons; split; [by apply truncated_bounded|]). by apply Forall_nil.
  - apply (Redact_bounded (OutputRedactor := redactor_output sha256)).
  - unfold boundedCategories. rewrite length_fmap, length_take. lia.
  - unfold boundedCategories. apply Forall_fmap, Forall_forall. intros c _. by apply truncated_bounded.
Qed.

Lemma record_json_depth timestamp r : (json_depth (record_json timestamp r) ≤ 2)%Z.
Proof.
  pose proof (arr_depth JStr (rec_risk_categories r) 0 ltac:(lia) ltac:(intros; simpl; lia)) as H1.
  pose proof (map_members_depth jint (rec_redactions r) 0 ltac:(lia) ltac:(intros; simpl; lia)) as H2.
  unfold record_json, pieces, written, req, opt. cbn [app].
  repeat case_match; cbn [app json_depth fmap list_fmap fst snd max_list foldr jint] in *; unfold max_list in *; lia.
Qed.

End encode.

(** A record of the log is one line of JSON that reads back as the record, with
    every field within its bound; of the command it holds the digest and the
    preview and nothing else: a command with the same digest and preview gives
    the same line.  Encoding fails only on a command over the limit or a year
    that RFC 3339 cannot write. *)
Theorem encodeEvent_spec (sha256 : string → string) event line durable :
  encodeEvent sha256 event = Ok (line, durable) →
  (slen (ev_command event) ≤ maxCommandBytes)%Z ∧
  ∃ timestamp body, marshal_time (ev_timestamp event) = Some timestamp ∧
    line = body +:+ newline_str ∧ index_byte body newline = None ∧
    read_document body = Some (json_sane (record_json timestamp (record_of sha256 event))) ∧
    record_bounded (record_of sha256 event) ∧
    ∀ command, (slen command ≤ maxCommandBytes)%Z → sha256 command = sha256 (ev_command event) →
      preview sha256 command = preview sha256 (ev_command event) →
      encodeEvent sha256 (with_command event command) = Ok (line, durable).
Proof.
  intros (t & Ht & Hc & -> & ->)%encodeEvent_Ok. split; [done|]. exists t, (print (record_json t (record_of sha256 event))).
  split; [done|]. split; [done|]. split; [apply print_no_newline, record_json_wf|].
  split. { apply read_document_print; [apply record_json_wf|]. pose proof (record_json_depth t (record_of sha256 event)).
    unfold maxNestingDepth. lia. }
  split; [apply record_of_bounded|]. intros command Hlen Hsha Hpre. unfold encodeEvent.
  cbn [with_command ev_command ev_timestamp ev_approval_state ev_require_sync record_of rec_timestamp].
  rewrite (proj2 (Z.ltb_ge _ _)) by done. cbn zeta. rewrite Ht.
  assert (record_of sha256 (with_command event command) = record_of sha256 event) as ->; [|done].
  unfold record_of. cbn [with_command ev_command]. by rewrite Hsha, Hpre.
Qed.

Definition sample_event : Event := {|
  ev_timestamp := 951827696 * second; ev_request_id := "r1"; ev_interface := "cli"; ev_server_alias := "web";
  ev_command := "uptime"; ev_decision := "allowed"; ev_risk_categories := ["read"]; ev_approval_state := "";
  ev_duration_ms := 12; ev_exit_code := 0; ev_timed_out := false; ev_truncated := false; ev_redactions := ∅;
  ev_require_sync := false |}.

Definition event_line (r : Prelude.result audit_error (string * bool)) : string :=
  match r with Ok (line, _) => line | Fail _ => "" end.

Lemma encodeEvent_spec_witness :
  ∃ body, event_line (encodeEvent sample_sha sample_event) = body +:+ newline_str ∧ index_byte body newline = None.
Proof.
  destruct (encodeEvent_spec sample_sha sample_event (event_line (encodeEvent sample_sha sample_event)) false)
    as (_ & t & body & _ & H1 & H2 & _).
  - vm_compute. reflexivity.
  - exists body. split; [exact H1|exact H2].
Defined.
