(* ===== verification/AuditWrite.v ===== *)
(** * Appending to the audit log: [internal/audit/logger.go]

    [New] and [Write] with everything they do on the directory: the lock, the
    recovery of a rotation, the repair of a torn last line, the append with its
    rollback, the rotation, the removal of excess backups.  The theorems:
    wherever a write stops, the log holds what it held or that and the line; the
    log is an append-only text; the files are only touched under the lock, which
    is always released.  What is synced when is in [AuditSync]. *)

From S2P Require Import Redactor Prelude GoStr Frame AuditEvent Prog AuditLog AuditRecord.
From Stdlib Require Import Ascii.
Open Scope string_scope.
Open Scope list_scope.

(** ** The current file *)

Definition log_file : name := Canon 0.

(** [bytes.LastIndexByte] *)
Fixpoint last_index_byte (s : string) (a : ascii) : option nat :=
  match s with
  | "" => None
  | String b s' =>
      match last_index_byte s' a with
      | Some i => Some (S i)
      | None => if Ascii.eqb b a then Some O else None
      end
  end.

(** [return false, closeWithError(file, err)] *)
Definition fail_closing {A} (file : name) (e : audit_error) : prog fs_op (result audit_error A) :=
  _ ← trigger (CloseOp file); Ret (Fail e).

(** The file just opened: its permissions set when it is new, then checked. *)
Definition secure_opened (path : name) (created : bool) : prog fs_op (result audit_error bool) :=
  ok ← (if created then trigger (ChmodOp path) else Ret true);
  if negb ok then fail_closing path ErrIO
  else
    a ← trigger (FStat path);
    match a with
    | None => fail_closing path ErrIO
    | Some (_, m) =>
        match validatePrivateFile m with
        | Some e => fail_closing path e
        | None => Ret (Ok created)
        end
    end.

Definition open_refused : prog fs_op (result audit_error bool) :=
  symlink ← trigger (At LogIsSymlink); Ret (Fail (if symlink : bool then ErrUnsafePath else ErrIO)).

(** The answer is whether the file was created. *)
Definition openAuditFile (path : name) : prog fs_op (result audit_error bool) :=
  a ← trigger (OpenOp path);
  match (a : open_answer) with
  | OpenOk => secure_opened path false
  | OpenNotExist =>
      a ← trigger (CreateExcl path);
      match (a : open_answer) with
      | OpenOk => secure_opened path true
      | OpenExist =>
          a ← trigger (OpenOp path);
          match (a : open_answer) with
          | OpenOk => secure_opened path false
          | _ => open_refused
          end
      | _ => open_refused
      end
  | _ => open_refused
  end.

(** ** Repairing the last line *)

Definition scanBytes : Z := 4096.

(** The scan's buffer after a read: a short read leaves what was behind. *)
Definition fill (buffer bytes : string) : string := bytes +:+ str_drop (String.length bytes) buffer.

(** The loop over the chunks from the end: where to cut the file. *)
Fixpoint scan_tail (fuel : nat) (file : name) (buffer : string) (end_ : Z) : prog fs_op (result audit_error Z) :=
  match fuel with
  | O => Ret (Ok 0%Z)
  | S fuel' =>
      if (end_ <=? 0)%Z then Ret (Ok 0%Z)
      else
        let start := if (end_ - scanBytes <? 0)%Z then 0%Z else (end_ - scanBytes)%Z in
        a ← trigger (ReadAtOp file start (end_ - start));
        match (a : option string) with
        | None => Ret (Fail ErrIO)
        | Some bytes =>
            let buffer := fill buffer bytes in
            let chunk := str_take (Z.to_nat (end_ - start)) buffer in
            match last_index_byte chunk newline with
            | Some index => Ret (Ok (start + Z.of_nat index + 1)%Z)
            | None => scan_tail fuel' file buffer start
            end
        end
  end.

(** A turn takes [scanBytes] off: [S (size / scanBytes)] turns are enough
    ([keeps_scan_tail]). *)
Definition scan_turns (size : Z) : nat := S (S (Z.to_nat (size / scanBytes))).

Definition empty_buffer : string := str_repeat (String "000" "") 4096.

Definition repairTrailingPartialLine (file : name) : action :=
  a ← trigger (FStat file);
  match (a : option (Z * file_mode)) with
  | None => Ret (Some ErrIO)
  | Some (size, _) =>
      if (size =? 0)%Z then Ret None
      else
        a ← trigger (ReadAtOp file (size - 1) 1);
        match (a : option string) with
        | Some (String last _) =>
            if Ascii.eqb last newline then Ret None
            else
              asking (scan_tail (scan_turns size) file empty_buffer size) (λ truncateTo,
                check (call (TruncateOp file truncateTo)) (call (SyncFileOp file)))
        | _ => Ret (Some ErrIO)
        end
  end.

(** ** Writing a line *)

Definition inspectPrivateDirectory : action :=
  a ← trigger (At LstatDir);
  Ret match (a : dir_answer) with
      | DirErr => Some ErrIO
      | DirNotExist => Some ErrNotExist
      | DirInfo m => validatePrivateDirectory m
      end.

(** [info, err := file.Stat(); if err != nil { return closeWithError(file, err) }] *)
Definition with_size (file : name) (k : Z → action) : action :=
  a ← trigger (FStat file);
  match (a : option (Z * file_mode)) with
  | None => closeWithError file ErrIO
  | Some (size, _) => k size
  end.

(** A failed write is taken back, as far as that works. *)
Definition append_line (file : name) (line : string) (durable : bool) (size : Z) : action :=
  e ← writeAllWith file line;
  match e with
  | Some e =>
      ok ← trigger (TruncateOp file size);
      rollbackErr ← (if ok : bool then call (SyncFileOp file) else Ret (Some ErrIO));
      _ ← trigger (CloseOp file);
      Ret (join_errors (Some e) rollbackErr)
  | None =>
      check_close file (if durable then call (SyncFileOp file) else Ret None) (call (CloseOp file))
  end.

Record Logger := { lg_max_bytes : Z; lg_backups : nat }.

Definition writeLocked (logger : Logger) (line : string) (durable : bool) : action :=
  check inspectPrivateDirectory
  (check recoverRotation
  (asking (openAuditFile log_file) (λ created,
   check_close log_file (repairTrailingPartialLine log_file)
   (with_size log_file (λ size,
    if rotationNeeded size (slen line) (lg_max_bytes logger) then
      check (call (CloseOp log_file)) (rotate (lg_backups logger) line durable)
    else
      check_close log_file (if created : bool then syncMetadata else Ret None)
      (with_size log_file (λ before, append_line log_file line durable before))))))).

(** ** The lock *)

Definition fail_closing_lock {A} (e : audit_error) : prog fs_op (result audit_error A) :=
  _ ← at_place CloseLock; Ret (Fail e).

Definition secure_lock (created : bool) : prog fs_op (result audit_error bool) :=
  ok ← (if created then trigger (At ChmodLock) else Ret true);
  if negb ok then fail_closing_lock ErrIO
  else
    a ← trigger (At StatLock);
    match (a : option (Z * file_mode)) with
    | None => fail_closing_lock ErrIO
    | Some (size, m) =>
        match validatePrivateFile m with
        | Some e => fail_closing_lock e
        | None => if (size =? 0)%Z then Ret (Ok created) else fail_closing_lock ErrUnsafePath
        end
    end.

Definition lock_refused : prog fs_op (result audit_error bool) :=
  symlink ← trigger (At LockIsSymlink); Ret (Fail (if symlink : bool then ErrUnsafePath else ErrIO)).

Definition openLockFile : prog fs_op (result audit_error bool) :=
  a ← trigger (At (OpenLock false));
  match (a : open_answer) with
  | OpenOk => secure_lock false
  | OpenNotExist =>
      a ← trigger (At (OpenLock true));
      match (a : open_answer) with
      | OpenOk => secure_lock true
      | OpenExist =>
          a ← trigger (At (OpenLock false));
          match (a : open_answer) with
          | OpenOk => secure_lock false
          | _ => lock_refused
          end
      | _ => lock_refused
      end
  | _ => lock_refused
  end.

(** Unlock and close, and join the errors. *)
Definition release_lock (e : option audit_error) : action :=
  unlockErr ← at_place FlockUnlock;
  closeErr ← at_place CloseLock;
  Ret (join_errors e (join_errors unlockErr closeErr)).

Definition withExclusiveLock (operation : action) : action :=
  asking openLockFile (λ created,
    ok ← trigger (At FlockExclusive);
    if negb ok then (_ ← at_place CloseLock; Ret (Some ErrIO))
    else
      e ← (if created : bool then syncMetadata else Ret None);
      match e with
      | Some e => release_lock (Some e)
      | None => e ← operation; release_lock e
      end).

(** ** [Write] *)

Definition write_under_lock (logger : Logger) (line : string) (durable : bool) : action :=
  pending ← trigger (At GetPending);
  check (if pending : bool then syncMetadata else Ret None) (writeLocked logger line durable).

(** A nil logger is [None]. *)
Definition Write (sha256 : string → string) (logger : option Logger) (event : Event) : action :=
  match logger with
  | None => Ret (Some ErrInvalidEvent)
  | Some logger =>
      match encodeEvent sha256 event with
      | Fail e => Ret (Some e)
      | Ok (line, durable) =>
          _ ← trigger (At LockMutex);
          e ← withExclusiveLock (write_under_lock logger line durable);
          _ ← trigger (At UnlockMutex);
          Ret e
      end
  end.

(** ** [New] *)

Definition remove_entry (backups : nat) (entry : string) : action :=
  match numericBackupIndex entry with
  | None => Ret None
  | Some index =>
      if (index <=? Z.of_nat backups)%Z then Ret None
      else
        a ← trigger (LstatEntry entry);
        match (a : stat_answer) with
        | StatErr => Ret (Some ErrIO)
        | StatInfo _ false => Ret (Some ErrUnsafeFile)
        | StatNone => Ret None
        | StatInfo _ true => check (call (RemoveEntry entry)) syncMetadata
        end
  end.

Fixpoint remove_entries (backups : nat) (entries : list string) : action :=
  match entries with
  | [] => Ret None
  | entry :: entries' => check (remove_entry backups entry) (remove_entries backups entries')
  end.

(** Every batch of the enumeration, and then its error. *)
Definition remove_listed (backups : nat) (listing : list (list string) * bool) : action :=
  check (remove_entries backups (concat (fst listing))) (Ret (if snd listing then None else Some ErrIO)).

Definition cleanupExcessBackups (backups : nat) : action :=
  check (at_place OpenDir)
  (a ← trigger (At StatDir);
   r ← match (a : option file_mode) with
       | None => Ret (Some ErrIO)
       | Some m =>
           match validatePrivateDirectory m with
           | Some e => Ret (Some e)
           | None =>
               listing ← trigger (At ReadDir);
               remove_listed backups listing
           end
       end;
   _ ← at_place CloseDir;
   Ret r).

Definition initializeLocked (logger : Logger) : action :=
  check syncMetadata
  (check recoverRotation
  (asking (openAuditFile log_file) (λ created,
   check_close log_file (repairTrailingPartialLine log_file)
   (check (call (CloseOp log_file))
   (check (if created : bool then syncMetadata else Ret None)
   (check (cleanupExcessBackups (lg_backups logger)) syncMetadata)))))).

Definition ensurePrivateDirectory : action :=
  let inspect := inspectPrivateDirectory in
  a ← trigger (At LstatDir);
  match (a : dir_answer) with
  | DirErr => Ret (Some ErrIO)
  | DirInfo m => Ret (validatePrivateDirectory m)
  | DirNotExist =>
      a ← trigger (At MkdirDir);
      match (a : open_answer) with
      | OpenOk => check (at_place ChmodDir) inspect
      | OpenExist => inspect
      | _ => Ret (Some ErrIO)
      end
  end.

Record Options := { op_max_bytes : Z; op_backups : Z }.

(** [New] *)
Definition NewLogger (dir : string) (options : Options) : prog fs_op (result audit_error Logger) :=
  if str_is_empty dir || (op_max_bytes options <? 0)%Z || (maxMaxBytes <? op_max_bytes options)%Z
     || (op_backups options <? 0)%Z || (Z.of_nat maxBackups <? op_backups options)%Z
  then Ret (Fail ErrInvalidOptions)
  else
    let logger := {| lg_max_bytes := if (op_max_bytes options =? 0)%Z then defaultMaxBytes else op_max_bytes options;
                     lg_backups := Z.to_nat (op_backups options) |} in
    e ← ensurePrivateDirectory;
    match e with
    | Some e => Ret (Fail e)
    | None =>
        e ← withExclusiveLock (initializeLocked logger);
        Ret (match e with Some e => Fail e | None => Ok logger end)
    end.

(** ** The state of a log *)

(** What the files hold, on either side of a rotation. *)
Definition holding (old : nat → option nat) (held : nat → option string) (limit : nat) (line : string)
    (published : bool) (i : nat) : option string :=
  if published && Nat.eqb i 0 then Some line
  else x ← (if published then moved old limit i else old i); held x.

(** No file is at two indices. *)
Definition distinct (old : nat → option nat) : Prop := ∀ i j x, old i = Some x → old j = Some x → i = j.

(** The log's files hold [v], once a rotation that may be in progress has been
    recovered. *)
Definition log_state (d : disk) (v : nat → option string) : Prop :=
  ∃ old held limit line b, distinct old ∧ side old held limit line b d ∧ ∀ i, v i = holding old held limit line b i.

(** No rotation is in progress. *)
Definition ready (d : disk) (v : nat → option string) : Prop :=
  clean d ∧ (∀ n x, d_dir d !! n = Some x → (x < d_next d)%nat) ∧ distinct (old_files d) ∧ ∀ i, view d i = v i.

Lemma ready_fault d v : ready d v → ready (fault d) v.
Proof. done. Qed.

Lemma log_state_fault d v : log_state d v → log_state (fault d) v.
Proof. intros (old & held & limit & line & b & ? & ? & ?). exists old, held, limit, line, b. by split; [|split; [apply side_fault|]]. Qed.

Lemma ready_state d v : ready d v → log_state d v.
Proof.
  intros (Hc & Hf & Hd & Hv). exists (old_files d), (λ x, d_files d !! x), 0%nat, "", false.
  split; [done|]. split; [by apply clean_restored|]. intros i. by rewrite <- Hv.
Qed.

Lemma moved_distinct old limit i j x :
  distinct old → moved old limit i = Some x → moved old limit j = Some x → (0 < i)%nat → (0 < j)%nat → i = j.
Proof.
  intros Hd Hi Hj ? ?. unfold moved in *. repeat case_match; bool_hyps; specialize (Hd _ _ _ Hi Hj); lia.
Qed.

Lemma moved_old old limit i x : moved old limit i = Some x → ∃ j, old j = Some x.
Proof. unfold moved. case_match; eauto. Qed.

Lemma rest_ready old held limit line b d v :
  at_rest old held limit line b d → clean d → distinct old → (∀ i, v i = holding old held limit line b i) → ready d v.
Proof.
  intros Hr Hc Hd Hv. pose proof (side_frame _ _ _ _ _ _ (at_rest_side _ _ _ _ _ _ Hr)) as [_ _ Ho Hf].
  split; [done|]. split; [done|].
  assert (∀ (o : option nat) j, o = old j → (x ← o; d_files d !! x) = (x ← o; held x)) as Hh.
  { intros o j ->. destruct (old j) as [x|] eqn:Hx; [|done]. simpl. by apply (Ho j). }
  destruct b.
  - destruct Hr as [_ _ Hfirst Hfresh Hmo _]. split.
    + intros i j x Hi Hj. unfold old_files in *.
      destruct i as [|i], j as [|j]; [done|..|].
      * rewrite Hmo in Hj by lia. apply moved_old in Hj as [k Hk]. by apply (Hfresh x Hi k) in Hk.
      * rewrite Hmo in Hi by lia. apply moved_old in Hi as [k Hk]. by apply (Hfresh x Hj k) in Hk.
      * rewrite Hmo in Hi, Hj by lia. apply (moved_distinct old limit _ _ x); done || lia.
    + intros i. rewrite Hv. unfold holding, view. cbn [andb]. destruct (Nat.eqb_spec i 0) as [->|Hi]; [done|].
      unfold contents. rewrite Hmo by lia. unfold moved. case_match; by eapply Hh.
  - destruct Hr as [_ Hca]. split.
    + intros i j x. unfold old_files. rewrite !Hca. apply Hd.
    + intros i. rewrite Hv. unfold holding, view, contents. cbn [andb]. rewrite Hca. by eapply Hh.
Qed.

Lemma keeps_recover_state d v :
  log_state d v →
  keeps (λ d', log_state d' v) d recoverRotation (λ d' r, match r with None => ready d' v | Some _ => True end).
Proof.
  intros (old & held & limit & line & b & Hd & Hs & Hv).
  eapply keeps_mono; [|apply (keeps_weaken (side old held limit line b)); [|done|by apply keeps_recover_side]].
  - intros d' [e|]; [done|]. intros [_ [Hc Hr]]. by eapply rest_ready.
  - intros d' Hs'. exists old, held, limit, line, b. done.
Qed.

(** ** Complete lines *)

(** What a repair leaves of a file: up to its last newline. *)
Definition complete (s : string) : string :=
  match last_index_byte s newline with Some i => str_take (S i) s | None => "" end.

Lemma last_index_app s t a :
  last_index_byte (s +:+ t) a =
  match last_index_byte t a with Some i => Some (String.length s + i)%nat | None => last_index_byte s a end.
Proof.
  induction s as [|b s IH]; [cbn; by destruct (last_index_byte t a)|]. cbn [String.append last_index_byte String.length].
  rewrite IH. by destruct (last_index_byte t a).
Qed.

Lemma last_index_lt s a i : last_index_byte s a = Some i → (i < String.length s)%nat.
Proof.
  revert i. induction s as [|b s IH]; intros i; [done|]. cbn [last_index_byte String.length].
  destruct (last_index_byte s a) as [j|]; [intros [= <-]; specialize (IH j eq_refl); lia|].
  case_match; [|done]. intros [= <-]. lia.
Qed.

Lemma last_index_none s a : last_index_byte s a = None ↔ index_byte s a = None.
Proof.
  induction s as [|b s IH]; [done|]. cbn [last_index_byte]. rewrite index_byte_cons.
  destruct (Ascii.eqb b a); destruct (last_index_byte s a), (index_byte s a); simpl; naive_solver.
Qed.

Lemma complete_app s t :
  complete (s +:+ t) = match last_index_byte t newline with Some i => s +:+ str_take (S i) t | None => complete s end.
Proof.
  unfold complete. rewrite last_index_app. destruct (last_index_byte t newline) as [i|] eqn:Ht.
  - rewrite str_take_app_r by lia. do 2 f_equal. lia.
  - destruct (last_index_byte s newline) as [i|] eqn:Hs; [|done]. apply last_index_lt in Hs.
    by rewrite str_take_app_l by lia.
Qed.

Lemma complete_line s line : one_line line → complete (s +:+ line) = s +:+ line.
Proof.
  intros (body & -> & _). unfold newline_str. rewrite <- str_app_assoc, complete_app. reflexivity.
Qed.

Lemma complete_torn s line k : one_line line → (k < String.length line)%nat → complete (s +:+ str_take k line) = complete s.
Proof.
  intros (body & -> & Hb) Hk. rewrite str_length_app in Hk. cbn [newline_str String.length] in Hk.
  rewrite complete_app, str_take_app_l by lia.
  assert (last_index_byte (str_take k body) newline = None) as ->; [|done].
  apply last_index_none, index_byte_take_None. intros i. by rewrite Hb.
Qed.

Lemma complete_split s : ∃ t, s = complete s +:+ t ∧ last_index_byte t newline = None.
Proof.
  unfold complete. destruct (last_index_byte s newline) as [i|] eqn:Hs; [|by exists s].
  exists (str_drop (S i) s). split; [by rewrite str_take_drop|]. pose proof (last_index_lt _ _ _ Hs) as Hi.
  assert (String.length (str_take (S i) s) = S i) as Hl by (rewrite str_length_take; lia).
  rewrite <- (str_take_drop (S i) s), last_index_app, Hl in Hs. destruct (last_index_byte (str_drop (S i) s) newline) as [j|]; [|done].
  injection Hs. lia.
Qed.

(** ** The text of a log *)

Definition held_at (v : nat → option string) (i : nat) : string := default "" (v i).

(** The backups from the [n]th down to the first. *)
Fixpoint older (n : nat) (v : nat → option string) : string :=
  match n with O => "" | S m => held_at v n +:+ older m v end.

(** All the complete lines, the oldest first. *)
Definition text (n : nat) (v : nat → option string) : string := older n v +:+ complete (held_at v 0).

(** What a rotation drops. *)
Definition oldest (n : nat) (v : nat → option string) : string :=
  match n with O => complete (held_at v 0) | S _ => held_at v n end.

(** The log after [line]: its text and the line, less the oldest file if it was
    rotated. *)
Definition appended (n : nat) (line : string) (v v' : nat → option string) : Prop :=
  ∃ dropped, text n v +:+ line = dropped +:+ text n v' ∧ (dropped = "" ∨ dropped = oldest n v).

Definition with_current (v : nat → option string) (s : string) (i : nat) : option string :=
  if Nat.eqb i 0 then Some s else v i.

Lemma older_ext n v v' : (∀ i, (0 < i ≤ n)%nat → v' i = v i) → older n v' = older n v.
Proof.
  intros Hv. induction n as [|n IH]; [done|]. cbn [older].
  assert (held_at v' (S n) = held_at v (S n)) as -> by (unfold held_at; by rewrite Hv by lia).
  by rewrite IH by (intros; apply Hv; lia).
Qed.

Lemma text_ext n v v' : (∀ i, (i ≤ n)%nat → v' i = v i) → text n v' = text n v.
Proof.
  intros Hv. unfold text. rewrite (older_ext n v v') by (intros; apply Hv; lia). unfold held_at. by rewrite Hv by lia.
Qed.

Lemma oldest_ext n v v' : (∀ i, (i ≤ n)%nat → v' i = v i) → oldest n v' = oldest n v.
Proof. intros Hv. destruct n; unfold oldest, held_at; by rewrite Hv by lia. Qed.

Lemma text_current n v s : text n (with_current v s) = older n v +:+ complete s.
Proof. unfold text. by rewrite (older_ext n v) by (intros [|i] ?; [lia|done]). Qed.

Lemma text_same n v s : complete s = complete (held_at v 0) → text n (with_current v s) = text n v.
Proof. intros Hs. by rewrite text_current, Hs. Qed.

(** What a reader sees after a rotation. *)
Definition shifted (n : nat) (line : string) (v : nat → option string) (i : nat) : option string :=
  if Nat.eqb i 0 then Some line else if Nat.leb i n then v (i - 1)%nat else v i.

Lemma older_shifted n m line v :
  (m < n)%nat → older (S m) (shifted n line v) = older m v +:+ held_at v 0.
Proof.
  induction m as [|m IH]; intros Hm.
  - cbn [older]. unfold held_at, shifted. cbn [Nat.eqb]. rewrite (proj2 (Nat.leb_le 1 n)) by lia. by rewrite str_app_nil_r.
  - change (older (S (S m)) ?w) with (held_at w (S (S m)) +:+ older (S m) w). rewrite IH by lia. cbn [older].
    unfold held_at at 1, shifted. cbn [Nat.eqb]. rewrite (proj2 (Nat.leb_le (S (S m)) n)) by lia.
    by rewrite str_app_assoc.
Qed.

Lemma complete_one_line line : one_line line → complete line = line.
Proof. apply (complete_line ""). Qed.

Lemma appended_shifted n line v :
  one_line line → complete (held_at v 0) = held_at v 0 → appended n line v (shifted n line v).
Proof.
  intros Hl Hc. exists (oldest n v). split; [|by right]. unfold text at 2.
  assert (held_at (shifted n line v) 0 = line) as -> by done. rewrite complete_one_line by done.
  destruct n as [|n]; [done|]. rewrite older_shifted by lia. unfold text, oldest. cbn [older].
  by rewrite Hc, !str_app_assoc.
Qed.

Lemma appended_current n line v s :
  one_line line → held_at v 0 = s → complete s = s → appended n line v (with_current v (s +:+ line)).
Proof.
  intros Hl Hs Hc. exists "". split; [|by left]. rewrite text_current, complete_line by done. unfold text.
  by rewrite Hs, Hc, str_app_assoc.
Qed.

Lemma appended_of n line v v1 v' :
  text n v1 = text n v → oldest n v1 = oldest n v → appended n line v1 v' → appended n line v v'.
Proof. intros Ht Ho (dropped & H1 & H2). exists dropped. by rewrite <- Ht, <- Ho. Qed.

(** ** Changes of the current file *)

Lemma ready_current d v s t :
  ready d v → v 0%nat = Some s →
  ∃ d', set_contents d log_file t = Some d' ∧ ready d' (with_current v t) ∧ d_fault d' = d_fault d.
Proof.
  intros (Hc & Hf & Hd & Hv) Hs. rewrite <- Hv in Hs. unfold view, contents in Hs. unfold set_contents, log_file.
  destruct (d_dir d !! Canon 0) as [x|] eqn:Hx; [|done]. simpl. eexists. split; [done|]. split; [|done].
  split; [done|]. split; [done|]. split; [done|].
  intros i. unfold view, contents, with_current. simpl. destruct (Nat.eqb_spec i 0) as [->|Hi].
  - rewrite Hx. simpl. by rewrite lookup_insert_eq.
  - rewrite <- Hv. unfold view, contents. destruct (d_dir d !! Canon i) as [y|] eqn:Hy; [|done]. simpl.
    rewrite lookup_insert_ne; [done|]. intros ->. by specialize (Hd _ _ _ Hx Hy).
Qed.

Lemma ready_created d v :
  ready d v → d_dir d !! log_file = None → ready (created d log_file) (with_current v "").
Proof.
  intros (Hc & Hf & Hd & Hv) Hn. unfold log_file in *. split; [|split; [|split]]; simpl.
  - intros n Hst. simpl. rewrite lookup_insert_ne by (by intros <-). by apply Hc.
  - intros n x. rewrite lookup_insert. case_decide; [intros [= <-]; lia|]. intros Hx. specialize (Hf _ _ Hx). lia.
  - intros i j x. unfold old_files. simpl. rewrite !lookup_insert.
    repeat case_decide; simplify_eq; [done|..|apply Hd].
    + intros [= <-] Hx. specialize (Hf _ _ Hx). lia.
    + intros Hx [= <-]. specialize (Hf _ _ Hx). lia.
  - intros i. unfold view, contents, with_current. simpl. destruct (Nat.eqb_spec i 0) as [->|Hi].
    + rewrite lookup_insert_eq. simpl. by rewrite lookup_insert_eq.
    + rewrite lookup_insert_ne by congruence. rewrite <- Hv. unfold view, contents.
      destruct (d_dir d !! Canon i) as [y|] eqn:Hy; [|done]. simpl. specialize (Hf _ _ Hy).
      by rewrite lookup_insert_ne by lia.
Qed.

Definition without (v : nat → option string) (k i : nat) : option string := if Nat.eqb i k then None else v i.

Lemma ready_drop d v k : ready d v → ready (drop (Canon k) d) (without v k).
Proof.
  intros (Hc & Hf & Hd & Hv). split; [|split; [|split]]; unfold drop; simpl.
  - intros n Hst. simpl. rewrite lookup_delete_ne by (by intros <-). by apply Hc.
  - intros n x. rewrite lookup_delete_Some. intros [_ Hx]. by eapply Hf.
  - intros i j x. unfold old_files. simpl. rewrite !lookup_delete_Some. intros [_ Hi] [_ Hj]. by eapply Hd.
  - intros i. unfold view, contents, without. simpl. destruct (Nat.eqb_spec i k) as [->|Hi].
    + by rewrite lookup_delete_eq.
    + rewrite lookup_delete_ne by congruence. apply Hv.
Qed.

Lemma complete_idem s : complete (complete s) = complete s.
Proof.
  destruct (complete_split s) as (t & Hs & Ht). pose proof (complete_app (complete s) t) as H.
  by rewrite <- Hs, Ht in H.
Qed.

Definition same_log (n : nat) (v v' : nat → option string) : Prop :=
  text n v' = text n v ∧ oldest n v' = oldest n v.

Lemma same_log_refl n v : same_log n v v.
Proof. done. Qed.

Lemma same_log_current n v0 v s :
  same_log n v0 v → complete s = complete (held_at v 0) → same_log n v0 (with_current v s).
Proof.
  intros [Ht Ho] Hs. split; [by rewrite text_same|]. rewrite <- Ho. by destruct n.
Qed.

Section operations.
(** [I] is kept as long as the log is what it was, up to its torn last line. *)
Context (I : disk → Prop) (n : nat) (v0 : nat → option string).
Context (I_fault : ∀ d, I d → I (fault d)).
Context (I_log : ∀ d v, log_state d v → same_log n v0 v → I d).

Definition ready_as (d : disk) (v : nat → option string) : Prop := ready d v ∧ same_log n v0 v.

Lemma ready_as_inv d v : ready_as d v → I d.
Proof. intros [Hr Hs]. by eapply I_log; [apply ready_state|]. Qed.

(** A call that changes nothing. *)
Lemma keeps_look {X R} d (e : fs_op X) (k : X → prog fs_op R) Q :
  I d → (∀ x d', answers d e x = Some d' → d' = d ∨ d' = fault d) →
  (∀ x d', answers d e x = Some d' → d' = d ∨ d' = fault d → keeps I d' (k x) Q) →
  keeps I d (x ← trigger e; k x) Q.
Proof.
  intros Hd He Hk. simpl. intros x d' Ha. split; [|by eauto].
  destruct (He x d' Ha) as [->| ->]; auto.
Qed.

Lemma looked (P : disk → Prop) d d' : d' = d ∨ d' = fault d → P d → P (fault d) → P d'.
Proof. by intros [->| ->]. Qed.

Lemma ready_as_look d d' v : d' = d ∨ d' = fault d → ready_as d v → ready_as d' v.
Proof. by intros [->| ->]. Qed.

Lemma contents_look d d' m : d' = d ∨ d' = fault d → contents d' m = contents d m.
Proof. by intros [->| ->]. Qed.

Lemma outcome_look d ok d' : outcome d (Some d) ok = Some d' → d' = d ∨ d' = fault d.
Proof. unfold outcome. destruct ok; intros [= <-]; auto. Qed.

Lemma stat_look d m a d' : answers d (FStat m) a = Some d' → d' = d ∨ d' = fault d.
Proof. simpl. repeat case_match; intros; simplify_eq; auto. Qed.

Lemma open_look d m a d' : answers d (OpenOp m) a = Some d' → d' = d ∨ d' = fault d.
Proof. simpl. repeat case_match; intros; simplify_eq; auto. Qed.

Lemma read_look d m o l a d' : answers d (ReadAtOp m o l) a = Some d' → d' = d ∨ d' = fault d.
Proof. simpl. repeat case_match; intros; simplify_eq; auto. Qed.

Lemma place_look {X} d (e : place_op X) x d' : answers d (At e) x = Some d' → d' = d ∨ d' = fault d.
Proof. simpl. case_match; intros [= <-]; auto. Qed.

Lemma stat_size d m size mode d' :
  answers d (FStat m) (Some (size, mode)) = Some d' → ∃ s, contents d m = Some s ∧ size = slen s.
Proof. simpl. destruct (contents d m) as [s|]; [|done]. case_match; [|done]. bool_hyps. by exists s. Qed.

Lemma keeps_fail_closing {A} d m e (Q : disk → result audit_error A → Prop) :
  I d → (∀ d', Q d' (Fail e)) → keeps I d (fail_closing m e) Q.
Proof. intros Hd HQ. apply keeps_look; [done|apply outcome_look|]. intros x d' _ _. apply HQ. Qed.

Lemma keeps_close_with d m e (Q : disk → option audit_error → Prop) :
  I d → (∀ d' e, Q d' (Some e)) → keeps I d (closeWithError m e) Q.
Proof. intros Hd HQ. apply keeps_look; [done|apply outcome_look|]. intros x d' _ _. apply HQ. Qed.

Lemma keeps_checked_close d m (p k : action) (P : disk → Prop) Q :
  I d → keeps I d p (λ d' e, match e with Some _ => True | None => P d' end) →
  (∀ d' e, Q d' (Some e)) → (∀ d', P d' → keeps I d' k Q) → keeps I d (check_close m p k) Q.
Proof.
  intros Hd Hp He Hk. apply keeps_bind. eapply keeps_mono; [|by apply keeps_with_inv].
  intros d' [e|] [Hi H]; [by apply keeps_close_with|by apply Hk].
Qed.

(** *** Opening *)

Lemma keeps_secure_opened d v b :
  ready_as d v →
  keeps I d (secure_opened log_file b) (λ d' r, match r with Ok _ => ready_as d' v ∧ is_Some (v 0%nat) | Fail _ => True end).
Proof.
  intros Hr. assert (keeps I d (if b then trigger (ChmodOp log_file) else Ret true) (λ d' _, ready_as d' v)) as Hchmod.
  { destruct b; [|done]. intros x d' Ha%outcome_look. split; [|by eapply ready_as_look].
    by eapply ready_as_inv, ready_as_look. }
  apply keeps_bind. eapply keeps_mono; [|exact Hchmod]. intros d1 ok H1.
  pose proof (ready_as_inv _ _ H1) as Hi1. destruct ok; cbn [negb]; [|by apply keeps_fail_closing].
  apply keeps_look; [done|apply stat_look|]. intros a d2 Ha H2. pose proof (ready_as_look _ _ _ H2 H1) as Hr2.
  pose proof (ready_as_inv _ _ Hr2) as Hi2. destruct a as [[size m]|]; [|by apply keeps_fail_closing].
  destruct (validatePrivateFile m); [by apply keeps_fail_closing|]. split; [done|].
  apply stat_size in Ha as (s & Hs & _). destruct H1 as [(_ & _ & _ & Hv) _]. rewrite <- Hv. by exists s.
Qed.

Lemma keeps_refused d (Q : disk → result audit_error bool → Prop) :
  I d → (∀ d' e, Q d' (Fail e)) → keeps I d open_refused Q.
Proof. intros Hd HQ. apply keeps_look; [done|apply place_look|]. intros [] d' _ _; apply HQ. Qed.

Lemma keeps_open d v :
  ready_as d v →
  keeps I d (openAuditFile log_file)
    (λ d' r, match r with Ok _ => ∃ v', ready_as d' v' ∧ is_Some (v' 0%nat) | Fail _ => True end).
Proof.
  intros Hr. set (Q := λ d' (r : result audit_error bool), match r with Ok _ => ∃ v', ready_as d' v' ∧ is_Some (v' 0%nat) | Fail _ => True end).
  assert (∀ d' v b, ready_as d' v → keeps I d' (secure_opened log_file b) Q) as Hsec.
  { intros d' w b Hw. eapply keeps_mono; [|by apply keeps_secure_opened]. intros d2 [c|e]; [|done]. by exists w. }
  assert (∀ d', I d' → keeps I d' open_refused Q) as Href by (intros; by apply keeps_refused).
  apply keeps_look; [by eapply ready_as_inv|apply open_look|]. intros a d1 Ha H1.
  pose proof (ready_as_look _ _ _ H1 Hr) as Hr1. pose proof (ready_as_inv _ _ Hr1) as Hi1.
  destruct a; [by eapply Hsec| |by apply Href|by apply Href].
  intros b d2 Hb. cbn [answers] in Hb.
  assert (b = OpenOk ∧ ready_as d2 (with_current v "") ∨ b ≠ OpenOk ∧ ready_as d2 v) as Hcase.
  { destruct b; destruct (d_dir d1 !! log_file) eqn:Hx; simplify_eq; auto. left. split; [done|].
    destruct Hr1 as [Hr1 Hs1]. split; [by apply ready_created|]. apply same_log_current; [done|].
    unfold held_at. destruct Hr1 as (_ & _ & _ & Hv). rewrite <- Hv. unfold view, contents. fold log_file. by rewrite Hx. }
  assert (I d2) as Hi2 by (destruct Hcase as [[_ ?]|[_ ?]]; by eapply ready_as_inv).
  split; [done|]. destruct Hcase as [[-> H2]|[Hne H2]]; [by eapply Hsec|].
  destruct b; [done|by apply Href| |by apply Href].
  apply keeps_look; [done|apply open_look|]. intros c d3 _ H3. pose proof (ready_as_look _ _ _ H3 H2) as Hr3.
  destruct c; [by eapply Hsec|..]; by eapply Href, ready_as_inv.
Qed.

(** *** Repairing *)

Lemma fill_chunk buffer bytes : str_take (String.length bytes) (fill buffer bytes) = bytes.
Proof. apply str_take_app. Qed.

(** The bytes between two offsets, and where the last newline before the second
    one is. *)
Lemma complete_scan s a b :
  (a ≤ b ≤ String.length s)%nat → last_index_byte (str_drop b s) newline = None →
  let chunk := str_take (b - a) (str_drop a s) in
  String.length chunk = (b - a)%nat ∧
  match last_index_byte chunk newline with
  | Some i => slen (complete s) = (Z.of_nat a + Z.of_nat i + 1)%Z
  | None => last_index_byte (str_drop a s) newline = None
  end.
Proof.
  intros Hab Hb. cbn zeta. set (chunk := str_take (b - a) (str_drop a s)).
  assert (String.length chunk = (b - a)%nat) as Hl by (unfold chunk; rewrite str_length_take, str_length_drop; lia).
  assert (str_drop a s = chunk +:+ str_drop b s) as Hd.
  { unfold chunk. rewrite <- (str_take_drop (b - a) (str_drop a s)) at 1. rewrite str_drop_drop. do 2 f_equal. lia. }
  split; [done|]. destruct (last_index_byte chunk newline) as [i|] eqn:Hi; [|by rewrite Hd, last_index_app, Hb].
  pose proof (last_index_lt _ _ _ Hi). rewrite <- (str_take_drop a s), Hd, complete_app, last_index_app, Hb, Hi.
  rewrite slen_app. unfold slen. rewrite !str_length_take, str_length_app, str_length_drop. lia.
Qed.

Lemma keeps_scan_tail d m s fuel buffer end_ :
  I d → contents d m = Some s → (0 ≤ end_ ≤ slen s)%Z → last_index_byte (str_drop (Z.to_nat end_) s) newline = None →
  (end_ ≤ scanBytes * (Z.of_nat fuel - 1))%Z →
  keeps I d (scan_tail fuel m buffer end_)
    (λ d' r, (d' = d ∨ d' = fault d) ∧ match r with Ok x => x = slen (complete s) | Fail _ => True end).
Proof.
  revert buffer end_. induction fuel as [|fuel IH]; intros buffer end_ Hd Hs He Hl Hf; [unfold scanBytes in Hf; lia|].
  cbn [scan_tail]. destruct (end_ <=? 0)%Z eqn:H0; bool_hyps.
  { split; [by left|]. replace (Z.to_nat end_) with 0%nat in Hl by lia. cbn [str_drop] in Hl.
    unfold complete. by rewrite Hl. }
  set (start := if (end_ - scanBytes <? 0)%Z then 0%Z else (end_ - scanBytes)%Z).
  assert (0 ≤ start < end_ ∧ start ≤ Z.max 0 (end_ - scanBytes))%Z as [Hst Hst2]
    by (unfold start, scanBytes; case_match; bool_hyps; lia).
  intros a d' Ha. pose proof (read_look _ _ _ _ _ _ Ha) as Hlook.
  assert (I d') as Hd' by (destruct Hlook as [->| ->]; auto). split; [done|].
  destruct a as [bytes|]; [|by split]. cbn [answers] in Ha. rewrite Hs in Ha. case_match eqn:Hb; [|done]. bool_hyps. simplify_eq.
  destruct (complete_scan s (Z.to_nat start) (Z.to_nat end_)) as [Hlen Hc]; [unfold slen in He; lia|done|]. cbn zeta in Hlen, Hc.
  replace (Z.to_nat (end_ - start)) with (Z.to_nat end_ - Z.to_nat start)%nat by lia.
  set (chunk := str_take (Z.to_nat end_ - Z.to_nat start) (str_drop (Z.to_nat start) s)) in *.
  cbn [prog_mbind prog_bind].
  assert (str_take (Z.to_nat end_ - Z.to_nat start) (fill buffer chunk) = chunk) as -> by (rewrite <- Hlen; apply fill_chunk).
  destruct (last_index_byte chunk newline) as [i|].
  - split; [by left|]. rewrite Hc. lia.
  - apply IH; [done|done|lia|done|]. unfold scanBytes in *. lia.
Qed.

Lemma complete_ended s last t :
  (0 < slen s)%Z → str_take 1 (str_drop (Z.to_nat (slen s - 1)) s) = String last t → Ascii.eqb last newline = true →
  complete s = s.
Proof.
  intros Hs Ht ->%Ascii.eqb_eq. rewrite <- (str_take_drop (Z.to_nat (slen s - 1)) s) at 1 2.
  assert (str_drop (Z.to_nat (slen s - 1)) s = newline_str) as Hd.
  { assert (String.length (str_drop (Z.to_nat (slen s - 1)) s) = 1%nat) as Hl by (rewrite str_length_drop; unfold slen in *; lia).
    rewrite str_take_all in Ht by lia. rewrite Ht in Hl |- *. by destruct t. }
  rewrite Hd, complete_app. reflexivity.
Qed.

Lemma scan_turns_enough size : (0 ≤ size)%Z → (size ≤ scanBytes * (Z.of_nat (scan_turns size) - 1))%Z.
Proof. intros Hs. unfold scan_turns, scanBytes. pose proof (Z.div_mod size 4096 ltac:(done)).
  pose proof (Z.mod_pos_bound size 4096 ltac:(lia)). pose proof (Z.div_pos size 4096 ltac:(done) ltac:(lia)). lia. Qed.

(** A repair cuts the file to its complete lines, and nothing else. *)
Lemma keeps_repair d v s :
  ready_as d v → v 0%nat = Some s →
  keeps I d (repairTrailingPartialLine log_file)
    (λ d' r, match r with None => ∃ v', ready_as d' v' ∧ v' 0%nat = Some (complete s) ∧ (∀ i, (0 < i)%nat → v' i = v i) | Some _ => True end).
Proof.
  intros Hr Hs. pose proof (ready_as_inv _ _ Hr) as Hi.
  apply keeps_look; [done|apply stat_look|]. intros a d1 Ha H1. pose proof (ready_as_look _ _ _ H1 Hr) as Hr1.
  pose proof (ready_as_inv _ _ Hr1) as Hi1. destruct a as [[size m]|]; [|done].
  assert (contents d log_file = Some s) as Hc by (destruct Hr as [(_ & _ & _ & Hv) _]; by rewrite <- Hs, <- Hv).
  apply stat_size in Ha as (s' & Hs' & ->). assert (s' = s) as -> by congruence.
  destruct (slen s =? 0)%Z eqn:H0; bool_hyps.
  { apply slen_empty in H0 as ->. by exists v. }
  pose proof (slen_nonneg s). apply keeps_look; [done|apply read_look|]. intros a d2 Ha H2.
  pose proof (ready_as_look _ _ _ H2 Hr1) as Hr2. pose proof (ready_as_inv _ _ Hr2) as Hi2.
  assert (contents d2 log_file = Some s) as Hc2 by (by rewrite (contents_look _ _ _ H2), (contents_look _ _ _ H1)).
  destruct a as [[|last t]|]; [done| |done]. destruct (Ascii.eqb last newline) eqn:Hn.
  { exists v. split; [done|]. split; [|done]. rewrite Hs. f_equal. symmetry. cbn [answers] in Ha.
    rewrite (contents_look _ _ _ H1), Hc in Ha. case_match eqn:Hb; [|done]. bool_hyps. simplify_eq.
    change (Z.to_nat 1) with 1%nat in Hb. eapply complete_ended; [lia|by symmetry|done]. }
  apply keeps_asking. eapply keeps_mono; [|apply keeps_scan_tail; [done|exact Hc2|lia| |by apply scan_turns_enough]].
  2:{ rewrite str_drop_all; [done|]. unfold slen. lia. }
  intros d3 [x|e] [H3 Hx]; [|done]. subst x. pose proof (ready_as_look _ _ _ H3 Hr2) as Hr3.
  destruct Hr3 as [Hr3 Hsame]. destruct (ready_current _ _ _ (complete s) Hr3 Hs) as (d4 & Hd4 & Hr4 & _).
  assert (ready_as d4 (with_current v (complete s))) as Hra4.
  { split; [done|]. apply same_log_current; [done|]. unfold held_at. by rewrite Hs, complete_idem. }
  assert (str_take (Z.to_nat (slen (complete s))) s = complete s) as Hcut.
  { destruct (complete_split s) as (t' & Ht & _). rewrite Ht at 2. unfold slen. rewrite Nat2Z.id. apply str_take_app. }
  apply keeps_check. eapply keeps_mono; [|apply keeps_outcome with (nxt := Some d4)].
  - intros d' [e|]; [done|]. intros [= <-]. eapply keeps_mono; [|apply keeps_call; [done|done|by eapply ready_as_inv]].
    intros d' [e|]; [done|]. intros ->. exists (with_current v (complete s)). split; [done|]. split; [done|]. by intros [|i] ?; [lia|].
  - exact I_fault.
  - cbn [answers]. rewrite (contents_look _ _ _ H3), Hc2. cbn [mbind option_bind]. by rewrite Hcut, Hd4.
  - by eapply ready_as_inv.
  - intros d' [= <-]. by eapply ready_as_inv.
Qed.
End operations.

(** ** Appending a line *)

Lemma ready_ext d v v' : (∀ i, v' i = v i) → ready d v → ready d v'.
Proof. intros Hv (Hc & Hf & Hd & Hw). do 3 (split; [done|]). intros i. by rewrite Hv. Qed.

Lemma ready_contents d v : ready d v → contents d log_file = v 0%nat.
Proof. intros (_ & _ & _ & Hv). by rewrite <- Hv. Qed.

Section writing.
Context (logger : Logger) (line : string) (durable : bool) (v0 : nat → option string).
Context (Hline : one_line line) (Hmax : (lg_backups logger ≤ maxBackups)%nat).

Local Notation n := (lg_backups logger).

(** What a write leaves wherever it stops. *)
Definition growing (d : disk) : Prop := ∃ v, log_state d v ∧ (same_log n v0 v ∨ appended n line v0 v).

(** What a write that reports success leaves. *)
Definition written (d : disk) : Prop :=
  ∃ v, ready d v ∧ appended n line v0 v ∧ (slen (held_at v 0) ≤ Z.max (lg_max_bytes logger) (slen line))%Z.

Lemma growing_fault d : growing d → growing (fault d).
Proof. intros (v & ? & ?). exists v. split; [by apply log_state_fault|done]. Qed.

Lemma growing_log d v : log_state d v → same_log n v0 v → growing d.
Proof. intros ? ?. exists v. auto. Qed.

Lemma written_growing d : written d → growing d.
Proof. intros (v & Hr & Ha & _). exists v. split; [by apply ready_state|by right]. Qed.

Lemma written_look d d' : d' = d ∨ d' = fault d → written d → written d'.
Proof. by intros [->| ->]. Qed.

Local Notation ready_as := (ready_as n v0).
#[local] Hint Resolve growing_fault growing_log : core.

(** Part of the line is in the file. *)
Definition partly (v : nat → option string) (s : string) (d : disk) (rest : string) : Prop :=
  ∃ put, put +:+ rest = line ∧ ready d (with_current v (s +:+ put)).

Lemma partly_growing v s d rest :
  same_log n v0 v → v 0%nat = Some s → complete s = s → partly v s d rest → growing d.
Proof.
  intros Hs H0 Hc (put & Hp & Hr). exists (with_current v (s +:+ put)). split; [by apply ready_state|].
  destruct rest as [|a rest].
  - rewrite str_app_nil_r in Hp. subst put. right. eapply appended_of; [apply Hs..|]. apply appended_current; [done| |done].
    unfold held_at. by rewrite H0.
  - left. apply same_log_current; [done|]. unfold held_at. rewrite H0. simpl.
    rewrite <- (str_take_app put (String a rest)), Hp. apply complete_torn; [done|].
    rewrite <- Hp, str_length_app. simpl. lia.
Qed.

Lemma partly_step v s d rest k :
  partly v s d rest → ∃ t d', contents d log_file = Some t ∧ set_contents d log_file (t +:+ str_take k rest) = Some d' ∧
    partly v s d' (str_drop k rest) ∧ d_fault d' = d_fault d.
Proof.
  intros (put & Hp & Hr). exists (s +:+ put). rewrite (ready_contents _ _ Hr).
  destruct (ready_current d _ _ ((s +:+ put) +:+ str_take k rest) Hr eq_refl) as (d' & Hd' & Hr' & Hf).
  exists d'. split; [done|]. split; [done|]. split; [|done]. exists (put +:+ str_take k rest).
  split; [by rewrite str_app_assoc, str_take_drop|]. eapply ready_ext; [|exact Hr'].
  intros [|i]; [|done]. unfold with_current. simpl. by rewrite str_app_assoc.
Qed.

(** A failed append is cut off, as far as that works. *)
Lemma keeps_rollback_append v s d rest e :
  same_log n v0 v → v 0%nat = Some s → complete s = s → partly v s d rest →
  keeps growing d
    (ok ← trigger (TruncateOp log_file (slen s));
     rollbackErr ← (if ok : bool then call (SyncFileOp log_file) else Ret (Some ErrIO));
     _ ← trigger (CloseOp log_file);
     Ret (join_errors (Some e) rollbackErr))
    (λ d' r, match r with None => written d' | Some _ => True end).
Proof.
  intros Hs H0 Hc Hp. pose proof (partly_growing _ _ _ _ Hs H0 Hc Hp) as Hg. destruct Hp as (put & Hput & Hr).
  destruct (ready_current d _ _ s Hr eq_refl) as (d1 & Hd1 & Hr1 & _).
  assert (growing d1) as Hg1.
  { apply growing_log with v; [|done]. apply ready_state. eapply ready_ext; [|exact Hr1]. intros [|i]; [|done].
    unfold with_current. simpl. done. }
  intros ok d' Ha. cbn [answers] in Ha. rewrite (ready_contents _ _ Hr) in Ha. unfold with_current in Ha at 1.
  cbn [Nat.eqb mbind option_bind] in Ha. unfold slen in Ha. rewrite Nat2Z.id, str_take_app, Hd1 in Ha.
  assert (growing d') as Hg' by (unfold outcome in Ha; destruct ok; simplify_eq; auto).
  split; [done|]. apply keeps_bind.
  assert (keeps growing d' (if ok : bool then call (SyncFileOp log_file) else Ret (Some ErrIO)) (λ d2 _, growing d2)) as Hsync.
  { destruct ok; [|done]. eapply keeps_mono; [|apply keeps_with_inv; [done|by apply keeps_call; [exact growing_fault|..]]]. by intros d2 r [? _]. }
  eapply keeps_mono; [|exact Hsync]. intros d2 r H2.
  apply keeps_look; [exact growing_fault|done|apply outcome_look|]. by intros x d3 _ _.
Qed.

(** A call on the file once the line is in it. *)
Lemma keeps_written_call d e :
  (∀ d, answers d e = outcome d (Some d)) → written d →
  keeps growing d (call e) (λ d' r, match r with None => written d' | Some _ => True end).
Proof.
  intros He Hw. eapply keeps_mono; [|apply keeps_call; [exact growing_fault|apply He|by apply written_growing]].
  intros d' [e'|]; [done|]. by intros ->.
Qed.

Lemma keeps_append d v s :
  ready_as d v → v 0%nat = Some s → complete s = s → rotationNeeded (slen s) (slen line) (lg_max_bytes logger) = false →
  keeps growing d (append_line log_file line durable (slen s)) (λ d' r, match r with None => written d' | Some _ => True end).
Proof.
  intros [Hr Hs] H0 Hc Hrot. apply keeps_bind.
  assert (partly v s d line) as Hp.
  { exists "". split; [done|]. eapply ready_ext; [|exact Hr]. intros [|i]; [|done]. unfold with_current. simpl. by rewrite str_app_nil_r. }
  eapply keeps_mono; [|apply (keeps_write_all growing log_file (partly v s)); [| |intros; by apply partly_step|exact Hp|lia]].
  2:{ intros d' rest. by apply partly_growing. }
  2:{ by intros d' rest (put & ? & ?); exists put. }
  intros d1 [e|].
  { intros [_ [rest Hrest]]. by eapply keeps_rollback_append. }
  intros (put & Hput & Hr1). rewrite str_app_nil_r in Hput. subst put.
  assert (written d1) as Hw.
  { exists (with_current v (s +:+ line)). split; [done|]. split.
    - eapply appended_of; [apply Hs..|]. apply appended_current; [done| |done]. unfold held_at. by rewrite H0.
    - change (held_at _ 0) with (s +:+ line). rewrite slen_app. unfold rotationNeeded in Hrot.
      pose proof (slen_nonneg s). repeat case_match; bool_hyps; try done; lia. }
  apply keeps_checked_close with (P := written); [exact growing_fault|by apply written_growing| |done|].
  - destruct durable; [by apply keeps_written_call|done].
  - intros d2 H2. by apply keeps_written_call.
Qed.

(** *** Rotating *)

Lemma keeps_shift d v s :
  ready_as d v → v 0%nat = Some s → complete s = s →
  keeps growing d (rotate n line durable) (λ d' r, match r with None => written d' | Some _ => True end).
Proof.
  intros [Hr Hs] H0 Hc. pose proof (ready_contents _ _ Hr) as Hcur. rewrite H0 in Hcur.
  assert (log_disk d) as Hlog.
  { destruct Hr as (? & ? & _). split; [done|]. split; [done|]. unfold contents, log_file in Hcur.
    destruct (d_dir d !! Canon 0) as [x|]; [by exists x|done]. }
  pose proof (log_inv d n line Hlog) as Hinv.
  destruct Hr as (_ & _ & Hd & Hv).
  assert (∀ i, shifted n line v i = holding (old_files d) (λ x, d_files d !! x) (rotation_limit d n) line true i) as Hshift.
  { intros i. unfold shifted, holding. cbn [andb]. destruct (Nat.eqb_spec i 0) as [->|Hi]; [done|].
    rewrite moved_view by lia. by rewrite !Hv. }
  assert (appended n line v0 (shifted n line v)) as Happ.
  { eapply appended_of; [apply Hs..|]. apply appended_shifted; [done|]. unfold held_at. by rewrite H0. }
  assert (∀ d', rotation_inv (old_files d) (λ x, d_files d !! x) (rotation_limit d n) line d' → growing d') as Hgrow.
  { intros d' [Hu|Hco].
    - exists v. split; [|by left]. exists (old_files d), (λ x, d_files d !! x), 0%nat, "", false.
      split; [done|]. split; [done|]. intros i. by rewrite <- Hv.
    - exists (shifted n line v). split; [|by right].
      by exists (old_files d), (λ x, d_files d !! x), (rotation_limit d n), line, true. }
  eapply keeps_mono; [|exact (keeps_weaken _ _ _ _ _ Hgrow Hinv (rotate_keeps d n line durable Hlog Hmax))].
  intros d' [e|]; [done|]. intros [_ [Hcl Hco]]. exists (shifted n line v). split; [|split; [done|]].
  - by eapply (rest_ready _ _ _ _ true).
  - change (held_at _ 0) with line. lia.
Qed.

(** *** The whole write *)

Lemma keeps_with_size d v s (k : Z → action) Q :
  ready_as d v → v 0%nat = Some s → (∀ d' e, Q d' (Some e)) →
  (∀ d', ready_as d' v → keeps growing d' (k (slen s)) Q) →
  keeps growing d (with_size log_file k) Q.
Proof.
  intros Hr H0 He Hk. pose proof (ready_as_inv _ _ _ growing_log _ _ Hr) as Hg.
  apply keeps_look; [exact growing_fault|done|apply stat_look|]. intros a d' Ha Hl.
  pose proof (ready_as_look _ _ _ _ _ Hl Hr) as Hr'.
  destruct a as [[size m]|]; [|apply keeps_close_with; [exact growing_fault|by eapply ready_as_inv; [exact growing_log|]|done]].
  apply stat_size in Ha as (t & Ht & ->). rewrite (ready_contents _ _ (proj1 Hr)), H0 in Ht. simplify_eq. by apply Hk.
Qed.

Lemma keeps_inspect_directory (I : disk → Prop) d (Q : disk → option audit_error → Prop) :
  (∀ d, I d → I (fault d)) → I d → (∀ d' r, d' = d ∨ d' = fault d → Q d' r) → keeps I d inspectPrivateDirectory Q.
Proof. intros Hf Hd HQ. apply keeps_look; [done|done|apply place_look|]. intros x d' _ Hl. by apply HQ. Qed.

Lemma keeps_sync_look (I : disk → Prop) d (Q : disk → option audit_error → Prop) :
  (∀ d, I d → I (fault d)) → I d → (∀ d' r, d' = d ∨ d' = fault d → Q d' r) → keeps I d syncMetadata Q.
Proof.
  intros Hf Hd HQ. eapply keeps_mono; [|by apply keeps_sync]. intros d' [e|]; [intros [_ ->]|intros ->]; apply HQ; auto.
Qed.

Lemma log_state_ext d v v' : (∀ i, v' i = v i) → log_state d v → log_state d v'.
Proof.
  intros Hv (old & held & limit & l & b & Hd & Hs & Hw). exists old, held, limit, l, b.
  split; [done|]. split; [done|]. intros i. by rewrite Hv.
Qed.

Lemma keeps_writeLocked d :
  log_state d v0 →
  keeps growing d (writeLocked logger line durable) (λ d' r, match r with None => written d' | Some _ => True end).
Proof.
  intros H0. assert (growing d) as Hg by (exists v0; split; [done|left; apply same_log_refl]).
  apply keeps_check, keeps_inspect_directory; [exact growing_fault|done|]. intros d1 [e|] Hl; [done|].
  assert (log_state d1 v0) as H1 by (destruct Hl as [->| ->]; [done|by apply log_state_fault]). clear Hl H0 Hg.
  apply keeps_check. eapply keeps_mono; [|apply (keeps_weaken (λ d', log_state d' v0)); [|done|by apply keeps_recover_state]].
  2:{ intros d' Hd'. exists v0. split; [done|left; apply same_log_refl]. }
  intros d2 [e|]; [done|]. intros [_ H2]. assert (ready_as d2 v0) as Hr2 by (split; [done|apply same_log_refl]).
  apply keeps_asking. eapply keeps_mono; [|apply (keeps_open growing n v0 growing_fault growing_log _ _ Hr2)].
  intros d3 [created|e]; [|done]. intros (v & Hr3 & [s Hs]).
  pose proof (ready_as_inv _ _ _ growing_log) as Hinv.
  apply keeps_checked_close with (P := λ d', ∃ v', ready_as d' v' ∧ v' 0%nat = Some (complete s));
    [exact growing_fault|by eapply Hinv| |done|].
  { eapply keeps_mono; [|apply (keeps_repair growing n v0 growing_fault growing_log _ _ _ Hr3 Hs)].
    intros d' [e|]; [done|]. intros (v' & ? & ? & _). by exists v'. }
  intros d4 (w & Hr4 & Hw). pose proof (complete_idem s) as Hc. set (t := complete s) in *. clearbody t.
  eapply keeps_with_size; [exact Hr4|done|done|]. intros d5 Hr5.
  destruct (rotationNeeded _ _ _) eqn:Hrot.
  - apply keeps_check. eapply keeps_mono; [|apply keeps_call; [exact growing_fault|done|by eapply Hinv]].
    intros d' [e|]; [done|]. intros ->. by eapply keeps_shift.
  - apply keeps_checked_close with (P := λ d', ready_as d' w); [exact growing_fault|by eapply Hinv| |done|].
    { destruct created; [|done]. apply keeps_sync_look; [exact growing_fault|by eapply Hinv|].
      intros d' [e|] Hl; [done|]. by eapply ready_as_look. }
    intros d6 Hr6. eapply keeps_with_size; [exact Hr6|done|done|]. intros d7 Hr7. by eapply keeps_append.
Qed.
End writing.

(** ** Under the lock *)

Section locked.
(** [Pre] holds before the operation, [Post] after it when it succeeds; none of
    the three minds a failed call on the lock. *)
Context (I Pre : disk → Prop) (Post : disk → Prop).
Context (I_fault : ∀ d, I d → I (fault d)) (Pre_fault : ∀ d, Pre d → Pre (fault d)) (Post_fault : ∀ d, Post d → Post (fault d)).
Context (Pre_I : ∀ d, Pre d → I d) (Post_I : ∀ d, Post d → I d).

Definition post (d : disk) (r : option audit_error) : Prop := match r with None => Post d | Some _ => I d end.

Lemma post_I d r : post d r → I d.
Proof. destruct r; [done|apply Post_I]. Qed.

Lemma post_look d d' r : d' = d ∨ d' = fault d → post d r → post d' r.
Proof. destruct r; intros [->| ->]; simpl; auto. Qed.

Lemma keeps_release d r : post d r → keeps I d (release_lock r) post.
Proof.
  intros Hp. apply keeps_bind. apply keeps_look; [done|by eapply post_I|apply place_look|]. intros a d1 _ H1.
  pose proof (post_look _ _ _ H1 Hp) as Hp1. apply keeps_bind.
  apply keeps_look; [done|by eapply post_I|apply place_look|]. intros b d2 _ H2.
  pose proof (post_look _ _ _ H2 Hp1) as Hp2. pose proof (post_I _ _ Hp2).
  destruct r as [e|]; [done|]. destruct a, b; done.
Qed.

Lemma keeps_openLockFile d (Q : disk → result audit_error bool → Prop) :
  Pre d → (∀ d' r, Pre d' → Q d' r) → keeps I d openLockFile Q.
Proof.
  intros Hd HQ.
  assert (∀ {X} (e : place_op X) (k : X → prog fs_op (result audit_error bool)) d, Pre d →
    (∀ x d', Pre d' → keeps I d' (k x) Q) → keeps I d (x ← trigger (At e); k x) Q) as Hstep.
  { intros X e k d0 H0 Hk. apply keeps_look; [done|auto|apply place_look|]. intros x d' _ Hl. apply Hk.
    destruct Hl as [->| ->]; auto. }
  assert (∀ e d, Pre d → keeps I d (fail_closing_lock e) Q) as Hclose.
  { intros e d0 H0. apply keeps_bind, Hstep; [done|]. intros x d1 H1. by apply HQ. }
  assert (∀ d, Pre d → keeps I d lock_refused Q) as Href.
  { intros d0 H0. apply Hstep; [done|]. intros x d1 H1. by apply HQ. }
  assert (∀ b d, Pre d → keeps I d (secure_lock b) Q) as Hsec.
  { intros b d0 H0. apply keeps_bind.
    assert (keeps I d0 (if b then trigger (At ChmodLock) else Ret true) (λ d' _, Pre d')) as Hchmod.
    { destruct b; [|done]. intros x d' Hl%place_look. destruct Hl as [->| ->]; (split; [auto|]); simpl; auto. }
    eapply keeps_mono; [|exact Hchmod]. intros d1 ok H1. destruct ok; cbn [negb]; [|by apply Hclose].
    apply Hstep; [done|]. intros [[size m]|] d2 H2; [|by apply Hclose].
    destruct (validatePrivateFile m); [by apply Hclose|]. destruct (size =? 0)%Z; [by apply HQ|by apply Hclose]. }
  apply Hstep; [done|]. intros [] d1 H1; [by apply Hsec| |by apply Href|by apply Href].
  apply Hstep; [done|]. intros [] d2 H2; [by apply Hsec|by apply Href| |by apply Href].
  apply Hstep; [done|]. intros [] d3 H3; [by apply Hsec|by apply Href..].
Qed.

Lemma keeps_withExclusiveLock d op :
  Pre d → (∀ d', Pre d' → keeps I d' op post) → keeps I d (withExclusiveLock op) post.
Proof.
  intros Hd Hop. apply keeps_asking. apply keeps_openLockFile; [done|]. intros d1 [created|e] H1; [|by apply Pre_I].
  assert (∀ d2, d2 = d1 ∨ d2 = fault d1 → Pre d2) as Hl1 by (intros d2 [->| ->]; auto).
  apply keeps_look; [done|auto|apply place_look|]. intros ok d2 _ H2%Hl1. clear H1 Hl1.
  destruct ok; cbn [negb].
  - apply keeps_bind.
    assert (keeps I d2 (if created : bool then syncMetadata else Ret None) (λ d' _, Pre d')) as Hsync.
    { destruct created; [|done]. apply keeps_sync_look; [done|auto|]. intros d' r [->| ->]; auto. }
    eapply keeps_mono; [|exact Hsync]. intros d3 [e|] H3; [by apply keeps_release, Pre_I|].
    apply keeps_bind. eapply keeps_mono; [|by apply Hop]. intros d4 r. apply keeps_release.
  - apply keeps_bind. apply keeps_look; [done|auto|apply place_look|]. intros x d3 _ [->| ->]; simpl; auto.
Qed.
End locked.

(** [Write] of an encoded event. *)
Lemma keeps_Write sha256 logger event line durable v d :
  (lg_backups logger ≤ maxBackups)%nat → encodeEvent sha256 event = Ok (line, durable) → log_state d v →
  keeps (growing logger line v) d (Write sha256 (Some logger) event)
    (λ d' r, match r with None => written logger line v d' | Some _ => growing logger line v d' end).
Proof.
  intros Hmax He Hd. pose proof (encodeEvent_one_line _ _ _ _ He) as Hl. unfold Write. rewrite He.
  assert (∀ d, log_state d v → growing logger line v d) as Hg.
  { intros d' Hd'. exists v. split; [done|left; apply same_log_refl]. }
  apply keeps_look; [apply growing_fault|auto|apply place_look|]. intros _ d1 _ H1.
  assert (log_state d1 v) as Hd1 by (destruct H1 as [->| ->]; [done|by apply log_state_fault]). clear H1 Hd.
  apply keeps_bind. eapply keeps_mono;
    [|apply (keeps_withExclusiveLock _ (λ d, log_state d v) (written logger line v)); try done].
  - intros d2 r Hp.
    apply keeps_look; [apply growing_fault|by eapply post_I; [apply written_growing|]|apply place_look|].
    intros _ d3 _ H3. eapply (post_look _ (written logger line v)) in Hp; [|apply growing_fault|done|exact H3].
    by destruct r.
  - apply growing_fault.
  - intros d2. apply log_state_fault.
  - apply written_growing.
  - intros d2 H2. apply keeps_look; [apply growing_fault|auto|apply place_look|]. intros pending d3 _ H3.
    assert (log_state d3 v) as Hd3 by (destruct H3 as [->| ->]; [done|by apply log_state_fault]).
    apply keeps_check.
    assert (keeps (growing logger line v) d3 (if pending : bool then syncMetadata else Ret None) (λ d' _, log_state d' v)) as Hsync.
    { destruct pending; [|done]. apply keeps_sync_look; [apply growing_fault|auto|]. intros d' r [->| ->]; [done|by apply log_state_fault]. }
    eapply keeps_mono; [|exact Hsync]. intros d4 [e|] H4; [by apply Hg|].
    eapply keeps_mono; [|apply keeps_with_inv; [auto|by apply (keeps_writeLocked logger line durable)]].
    intros d5 [e|] [? ?]; done.
Qed.

(** ** Opening a log *)

Section opening.
Context (logger : Logger) (v0 : nat → option string).
Local Notation n := (lg_backups logger).

(** The log is as it was, but for a torn last line and excess backups. *)
Definition unchanged (d : disk) : Prop := ∃ v, log_state d v ∧ same_log n v0 v.
Definition opened (d : disk) : Prop := ∃ v, ready d v ∧ same_log n v0 v ∧ is_Some (v 0%nat) ∧ complete (held_at v 0) = held_at v 0.

Lemma unchanged_fault d : unchanged d → unchanged (fault d).
Proof. intros (v & ? & ?). exists v. split; [by apply log_state_fault|done]. Qed.

Lemma unchanged_log d v : log_state d v → same_log n v0 v → unchanged d.
Proof. intros ? ?. by exists v. Qed.

Lemma opened_unchanged d : opened d → unchanged d.
Proof. intros (v & Hr & ? & _). exists v. split; [by apply ready_state|done]. Qed.

Lemma opened_look d d' : d' = d ∨ d' = fault d → opened d → opened d'.
Proof. by intros [->| ->]. Qed.

Lemma same_log_without v k : (n < k)%nat → same_log n v0 v → same_log n v0 (without v k).
Proof.
  intros Hk [Ht Ho]. assert (∀ i, (i ≤ n)%nat → without v k i = v i) as He.
  { intros i Hi. unfold without. by rewrite (proj2 (Nat.eqb_neq i k)) by lia. }
  split; [by rewrite (text_ext _ v)|by rewrite (oldest_ext _ v)].
Qed.

Lemma opened_drop d k : (n < k)%nat → opened d → opened (drop (Canon k) d).
Proof.
  intros Hk (v & Hr & Hs & H0 & Hc). exists (without v k). split; [by apply ready_drop|].
  split; [by apply same_log_without|]. unfold held_at, without. by rewrite (proj2 (Nat.eqb_neq 0 k)) by lia.
Qed.

Definition opens (d : disk) (r : option audit_error) : Prop := match r with None => opened d | Some _ => True end.

Lemma keeps_opened_sync d : opened d → keeps unchanged d syncMetadata opens.
Proof.
  intros Ho. apply keeps_sync_look; [apply unchanged_fault|by apply opened_unchanged|].
  intros d' [e|] Hl; [done|]. by eapply opened_look.
Qed.

Lemma keeps_remove_entry d entry : opened d → keeps unchanged d (remove_entry n entry) opens.
Proof.
  intros Ho. unfold remove_entry. destruct (numericBackupIndex entry) as [index|] eqn:Hi; [|done].
  destruct (index <=? Z.of_nat n)%Z eqn:Hn; [done|]. bool_hyps.
  assert (∀ a d', answers d (LstatEntry entry) a = Some d' → d' = d ∨ d' = fault d) as Hlook.
  { intros a d'. simpl. unfold lstat_answers. repeat case_match; intros; simplify_eq; auto. }
  apply keeps_look; [apply unchanged_fault|by apply opened_unchanged|exact Hlook|]. intros a d1 _ Hl.
  pose proof (opened_look _ _ Hl Ho) as H1. destruct a as [| |x []]; [done..| |done].
  set (nxt := match entry_of entry with Some m => remove_next d1 m | None => Some d1 end).
  assert (∀ d', nxt = Some d' → opened d') as Hnxt.
  { intros d'. unfold nxt, entry_of. rewrite Hi. cbn [mbind option_bind]. case_match eqn:He; [|by intros [= <-]].
    case_match eqn:He2; simplify_eq. unfold remove_next. case_match; [|done]. intros [= <-]. apply opened_drop; [lia|done]. }
  apply keeps_check. eapply keeps_mono; [|apply keeps_outcome with (nxt := nxt); [apply unchanged_fault|done|by apply opened_unchanged|]].
  - intros d' [e|]; [done|]. intros Hd'. by apply keeps_opened_sync, Hnxt.
  - intros d' Hd'. by apply opened_unchanged, Hnxt.
Qed.

Lemma keeps_cleanupExcess d : opened d → keeps unchanged d (cleanupExcessBackups n) opens.
Proof.
  intros Ho. pose proof unchanged_fault as Hf. pose proof opened_unchanged as Hou.
  apply keeps_check, keeps_at_place; [done|done|by apply Hou| |done].
  apply keeps_look; [done|by apply Hou|apply place_look|]. intros a d1 _ Hl. pose proof (opened_look _ _ Hl Ho) as H1.
  apply keeps_bind.
  assert (∀ d r, opened d → opens d r → keeps unchanged d (_ ← at_place CloseDir; Ret r) opens) as Hclose.
  { intros d2 r H2 Hr. apply keeps_bind. apply keeps_look; [done|by apply Hou|apply place_look|].
    intros x d3 _ H3. destruct r; [done|]. by eapply opened_look. }
  assert (∀ entries d, opened d → keeps unchanged d (remove_entries n entries) opens) as Hrem.
  { induction entries as [|entry entries IH]; intros d2 H2; cbn [remove_entries]; [done|]. apply keeps_check.
    eapply keeps_mono; [|by apply keeps_remove_entry]. intros d3 [e|]; [done|]. apply IH. }
  assert (∀ d (r : option audit_error), unchanged d → opens d r → keeps unchanged d (_ ← at_place CloseDir; Ret r) opens) as Hend.
  { intros d2 r H2 Hr. destruct r as [e|]; [|by apply Hclose]. apply keeps_bind. apply keeps_look; [done|done|apply place_look|]. done. }
  destruct a as [m|]; [|by apply Hclose]. destruct (validatePrivateDirectory m); [by apply Hclose|].
  apply keeps_look; [done|by apply Hou|apply place_look|]. intros [batches ok] d2 _ H2%opened_look; [|done].
  eapply keeps_mono; [|apply keeps_with_inv; [by apply Hou|]].
  { intros d3 r [Hi Hr]. by apply (Hend d3 r). }
  apply keeps_check. eapply keeps_mono; [|by apply Hrem]. intros d3 [e|]; [done|]. intros H3. by destruct ok.
Qed.

Lemma keeps_initializeLocked d :
  log_state d v0 → keeps unchanged d (initializeLocked logger) opens.
Proof.
  intros H0. pose proof unchanged_fault as Hf.
  assert (∀ d, log_state d v0 → unchanged d) as Hu by (intros d' ?; exists v0; split; [done|apply same_log_refl]).
  apply keeps_check, keeps_sync_look; [done|auto|]. intros d1 [e|] Hl; [done|].
  assert (log_state d1 v0) as H1 by (destruct Hl as [->| ->]; [done|by apply log_state_fault]). clear Hl H0.
  apply keeps_check. eapply keeps_mono; [|apply (keeps_weaken (λ d', log_state d' v0)); [done|done|by apply keeps_recover_state]].
  intros d2 [e|]; [done|]. intros [_ H2]. assert (ready_as n v0 d2 v0) as Hr2 by (split; [done|apply same_log_refl]).
  apply keeps_asking. eapply keeps_mono; [|apply (keeps_open unchanged n v0 Hf unchanged_log _ _ Hr2)].
  intros d3 [created|e]; [|done]. intros (v & Hr3 & [s Hs]).
  apply keeps_checked_close with (P := opened); [done|by eapply ready_as_inv; [exact unchanged_log|]| |done|].
  { eapply keeps_mono; [|apply (keeps_repair unchanged n v0 Hf unchanged_log _ _ _ Hr3 Hs)].
    intros d' [e|]; [done|]. intros (w & [? ?] & Hw & _). exists w. split; [done|]. split; [done|].
    unfold held_at. rewrite Hw. split; [by eexists|apply complete_idem]. }
  intros d4 H4. apply keeps_check. eapply keeps_mono; [|apply keeps_call; [done|done|by apply opened_unchanged]].
  intros d' [e|]; [done|]. intros ->.
  apply keeps_check. assert (keeps unchanged d4 (if created : bool then syncMetadata else Ret None) opens) as Hsync.
  { destruct created; [|done]. by apply keeps_opened_sync. }
  eapply keeps_mono; [|exact Hsync]. intros d5 [e|]; [done|]. intros H5.
  apply keeps_check. eapply keeps_mono; [|by apply keeps_cleanupExcess]. intros d6 [e|]; [done|]. apply keeps_opened_sync.
Qed.
End opening.

Lemma keeps_NewLogger dir options v d :
  log_state d v →
  keeps (λ d', ∃ v', log_state d' v' ∧ same_log (Z.to_nat (op_backups options)) v v') d (NewLogger dir options)
    (λ d' r, match r with
      | Ok logger => opened logger v d' ∧ lg_backups logger = Z.to_nat (op_backups options) ∧ (lg_backups logger ≤ maxBackups)%nat ∧
                     (0 < lg_max_bytes logger ≤ maxMaxBytes)%Z
      | Fail _ => True end).
Proof.
  intros Hd. unfold NewLogger. destruct (_ || _) eqn:Hopt; [done|]. cbn zeta. repeat (bool_hyps; try match goal with H : _ || _ = false |- _ => apply orb_false_iff in H as [? ?] end).
  set (logger := {| lg_max_bytes := if (op_max_bytes options =? 0)%Z then defaultMaxBytes else op_max_bytes options;
                    lg_backups := Z.to_nat (op_backups options) |}).
  change (λ d', ∃ v', log_state d' v' ∧ same_log (Z.to_nat (op_backups options)) v v') with (unchanged logger v).
  pose proof (unchanged_fault logger v) as Hf.
  assert (∀ d', log_state d' v → unchanged logger v d') as Hu by (intros d' ?; exists v; split; [done|apply same_log_refl]).
  assert (∀ d1 d2, d2 = d1 ∨ d2 = fault d1 → log_state d1 v → log_state d2 v) as Hl
    by (intros d1 d2 [->| ->] ?; [done|by apply log_state_fault]).
  apply keeps_bind.
  assert (keeps (unchanged logger v) d ensurePrivateDirectory (λ d' _, log_state d' v)) as Hensure.
  { assert (∀ d', log_state d' v → keeps (unchanged logger v) d' inspectPrivateDirectory (λ d' _, log_state d' v)) as Hins.
    { intros d1 K1. apply keeps_inspect_directory; [done|auto|]. intros d2 r K2. by eapply Hl. }
    apply keeps_look; [done|auto|apply place_look|]. intros a d1 _ K1. pose proof (Hl _ _ K1 Hd) as Hd1. destruct a as [| |m]; [done| |done].
    apply keeps_look; [done|auto|apply place_look|]. intros b d2 _ K2. pose proof (Hl _ _ K2 Hd1) as Hd2.
    destruct b; [|done|by apply Hins|done]. apply keeps_check. apply keeps_at_place; [done|done|auto|by apply Hins|].
    by apply log_state_fault. }
  eapply keeps_mono; [|exact Hensure]. intros d1 [e|] K1; [done|].
  apply keeps_bind. eapply keeps_mono; [|apply (keeps_withExclusiveLock _ (λ d, log_state d v) (opened logger v)); try done].
  - intros d2 [e|]; [done|]. intros Ho. simpl. split; [done|]. split; [done|]. split; [lia|].
    unfold defaultMaxBytes, maxMaxBytes in *. case_match; bool_hyps; [done|lia].
  - intros d'. apply log_state_fault.
  - apply opened_unchanged.
  - intros d2 K2. eapply keeps_mono; [|apply keeps_with_inv; [auto|by apply keeps_initializeLocked]].
    intros d3 [e|] [? ?]; done.
Qed.

(** ** Histories *)

(** What happens to a log: it is opened, and events are written, in any order;
    each of these may fail or stop anywhere.  The list is the lines of the
    writes, and whether the write reported success. *)
Inductive history (sha256 : string → string) (logger : Logger) : disk → list (string * bool) → disk → Prop :=
| history_none d : history sha256 logger d [] d
| history_opened d dir options d1 writes d2 :
    Z.to_nat (op_backups options) = lg_backups logger → stops d (NewLogger dir options) d1 →
    history sha256 logger d1 writes d2 → history sha256 logger d writes d2
| history_stopped d event line durable d1 writes d2 :
    encodeEvent sha256 event = Ok (line, durable) → stops d (Write sha256 (Some logger) event) d1 →
    history sha256 logger d1 writes d2 → history sha256 logger d ((line, false) :: writes) d2
| history_returned d event line durable d1 r writes d2 :
    encodeEvent sha256 event = Ok (line, durable) → halts d (Write sha256 (Some logger) event) d1 r →
    history sha256 logger d1 writes d2 → history sha256 logger d ((line, bool_decide (r = None)) :: writes) d2.

(** The writes that got into the log: all that reported success, some others. *)
Inductive kept : list (string * bool) → list string → Prop :=
| kept_nil : kept [] []
| kept_cons line ok writes lines : kept writes lines → kept ((line, ok) :: writes) (line :: lines)
| kept_skip line writes lines : kept writes lines → kept ((line, false) :: writes) lines.

Lemma history_text sha256 logger d writes d' :
  history sha256 logger d writes d' → (lg_backups logger ≤ maxBackups)%nat →
  ∀ v, log_state d v → ∃ v' lines dropped, log_state d' v' ∧ kept writes lines ∧
    text (lg_backups logger) v +:+ str_concat lines = dropped +:+ text (lg_backups logger) v'.
Proof.
  intros Hh Hmax.
  induction Hh as [d|d dir options d1 writes d2 Hopt Hs Hh IH|d event line durable d1 writes d2 He Hs Hh IH|d event line durable d1 r writes d2 He Hs Hh IH];
    intros v Hv.
  - exists v, [], "". split; [done|]. split; [constructor|]. by rewrite str_app_nil_r.
  - assert (∃ v', log_state d1 v' ∧ same_log (lg_backups logger) v v') as (v1 & Hv1 & [Ht _]).
    { rewrite <- Hopt. eapply (keeps_stops (λ d', ∃ v', log_state d' v' ∧ same_log (Z.to_nat (op_backups options)) v v'));
        [|by apply (keeps_NewLogger dir options v)|exact Hs]. exists v. split; [done|apply same_log_refl]. }
    destruct (IH v1 Hv1) as (v' & lines & dropped & H1 & H2 & H3). exists v', lines, dropped. by rewrite <- Ht.
  - assert (growing logger line v d1) as (v1 & Hv1 & Hg).
    { eapply keeps_stops; [|by eapply keeps_Write|exact Hs]. exists v. split; [done|left; apply same_log_refl]. }
    destruct (IH v1 Hv1) as (v' & lines & dropped & H1 & H2 & H3). destruct Hg as [[Ht _]|(more & Ht & _)].
    + exists v', lines, dropped. split; [done|]. split; [by constructor|]. by rewrite <- Ht.
    + exists v', (line :: lines), (more +:+ dropped). split; [done|]. split; [by constructor|].
      cbn [str_concat]. by rewrite <- str_app_assoc, Ht, !str_app_assoc, H3.
  - pose proof (keeps_halts _ _ _ _ _ _ (keeps_Write _ _ _ _ _ _ _ Hmax He Hv) Hs) as Hr.
    assert (∃ v1, log_state d1 v1 ∧ ((r ≠ None ∧ same_log (lg_backups logger) v v1) ∨ appended (lg_backups logger) line v v1))
      as (v1 & Hv1 & Hg).
    { destruct r as [e|].
      - destruct Hr as (v1 & ? & [?|?]); exists v1; auto.
      - destruct Hr as (v1 & ? & ? & _). exists v1. split; [by apply ready_state|by right]. }
    destruct (IH v1 Hv1) as (v' & lines & dropped & H1 & H2 & H3). destruct Hg as [[Hne [Ht _]]|(more & Ht & _)].
    + exists v', lines, dropped. split; [done|]. rewrite bool_decide_eq_false_2 by done. split; [by constructor|]. by rewrite <- Ht.
    + exists v', (line :: lines), (more +:+ dropped). split; [done|]. split; [by constructor|].
      cbn [str_concat]. by rewrite <- str_app_assoc, Ht, !str_app_assoc, H3.
Qed.

(** ** The lock is held *)

(** What a process may do next: nothing but take the mutex, open the lock file,
    lock it, work, and all that back. *)
Inductive phase := Idle | Mutex | LockOpen | Held.

(** Calls on the files, on the directory and on the logger's own state. *)
Definition is_work {X} (e : fs_op X) : bool :=
  match e with
  | At (LockMutex | UnlockMutex | OpenLock _ | ChmodLock | StatLock | LockIsSymlink
       | FlockExclusive | FlockUnlock | CloseLock) => false
  | _ => true
  end.

(** The work is done under the lock, which is taken and released in order; a
    lock that could not be unlocked is released by closing its file. *)
Definition lock_rules (p : phase) (i : io fs_op) : verdict phase :=
  match i with
  | @IO _ X e x =>
      if is_work e then match p with Held => Next Held | _ => Reject end
      else
        match e in fs_op X return X → verdict phase with
        | At e =>
            match e in place_op X return X → verdict phase with
            | LockMutex => λ _, match p with Idle => Next Mutex | _ => Reject end
            | OpenLock _ => λ a, match p with Mutex => Next (match a with OpenOk => LockOpen | _ => Mutex end) | _ => Reject end
            | LockIsSymlink => λ _, match p with Mutex => Next Mutex | _ => Reject end
            | ChmodLock => λ _, match p with LockOpen => Next LockOpen | _ => Reject end
            | StatLock => λ _, match p with LockOpen => Next LockOpen | _ => Reject end
            | FlockExclusive => λ ok, match p with LockOpen => Next (if ok : bool then Held else LockOpen) | _ => Reject end
            | FlockUnlock => λ _, match p with Held => Next LockOpen | _ => Reject end
            | CloseLock => λ _, match p with LockOpen => Next Mutex | _ => Reject end
            | UnlockMutex => λ _, match p with Mutex => Next Idle | _ => Reject end
            | _ => λ _, Reject
            end
        | _ => λ _, Reject
        end x
  end.

(** A program that only works. *)
Definition works {R} (p : prog fs_op R) : Prop := safe lock_rules Held p (λ s _, s = Held).

Lemma works_ret {R} (r : R) : works (Ret r).
Proof. done. Qed.

Lemma works_bind {A B} (p : prog fs_op A) (f : A → prog fs_op B) : works p → (∀ a, works (f a)) → works (p ≫= f).
Proof. intros Hp Hf. apply safe_bind. eapply safe_mono; [|exact Hp]. intros s a ->. apply Hf. Qed.

Lemma works_trigger {X} (e : fs_op X) : is_work e = true → works (trigger e).
Proof. intros He x. unfold lock_rules. by rewrite He. Qed.

Create HintDb works.
#[local] Hint Resolve works_ret : works.

(** Walk a program: its calls, its branches, the programs known to work. *)
Ltac works :=
  repeat first
    [ progress intros | assumption | solve [auto with works nocore]
    | apply works_trigger; reflexivity | apply works_bind
    | match goal with |- works (match ?x with _ => _ end) => destruct x end ].

Lemma works_call e : is_work e = true → works (call e).
Proof. intros He. apply works_bind; [by apply works_trigger|works]. Qed.

Lemma works_check p k : works p → works k → works (check p k).
Proof. intros Hp Hk. unfold check. works. Qed.

Lemma works_asking {A} (p : prog fs_op (result audit_error A)) k : works p → (∀ a, works (k a)) → works (asking p k).
Proof. intros Hp Hk. unfold asking. works. Qed.

Lemma works_close_with n e : works (closeWithError n e).
Proof. unfold closeWithError. works. Qed.
#[local] Hint Resolve works_close_with : works.

Lemma works_check_close n p k : works p → works k → works (check_close n p k).
Proof. intros Hp Hk. unfold check_close. works. Qed.

#[local] Hint Resolve works_call works_check works_asking works_check_close : works.
#[local] Hint Extern 1 (is_work _ = true) => reflexivity : works.

Lemma works_sync : works syncMetadata.
Proof. unfold syncMetadata, syncDirectory, at_place, close_dir_with. works. Qed.

Lemma works_inspect m : works (inspectPrivateFileIfExists m).
Proof. unfold inspectPrivateFileIfExists. works. Qed.
#[local] Hint Resolve works_sync works_inspect : works.

Lemma works_remove m : works (removeMetadataIfExists m).
Proof. unfold removeMetadataIfExists. works. Qed.

Lemma works_link a b : works (linkMetadata a b).
Proof. unfold linkMetadata. works. Qed.

Lemma works_rename a b : works (renameMetadata a b).
Proof. unfold renameMetadata. works. Qed.

Lemma works_create m : works (createEmptyMetadataFile m).
Proof. unfold createEmptyMetadataFile, create. works. Qed.
#[local] Hint Resolve works_remove works_link works_rename works_create : works.

Lemma works_remove_all names : works (remove_all names).
Proof. induction names; cbn [remove_all]; works. Qed.

Lemma works_cleanup : works cleanupRotationStaging.
Proof. apply works_remove_all. Qed.
#[local] Hint Resolve works_cleanup : works.

Lemma works_rollback limit : works (rollbackRotation limit).
Proof.
  unfold rollbackRotation. apply works_check; [|works]. induction (seq 0 (S limit)) as [|i l IH]; cbn [rollback_loop]; [works|].
  apply works_check; [|done]. unfold rollback_index. works.
Qed.

Lemma works_limit : works rotationLimit.
Proof.
  unfold rotationLimit. apply works_bind; [|works]. generalize 0%nat at 2, false.
  induction (seq 0 (S maxBackups)) as [|i l IH]; intros limit staged; cbn [scan_indices]; works.
Qed.
#[local] Hint Resolve works_rollback works_limit : works.

Lemma works_recover : works recoverRotation.
Proof. unfold recoverRotation, same_as_proof. works. Qed.

Lemma works_write_all m data : works (writeAllWith m data).
Proof.
  unfold writeAllWith. generalize (S (String.length data)). intros fuel. revert data.
  induction fuel as [|fuel IH]; intros data; cbn [write_all_with]; works.
Qed.
#[local] Hint Resolve works_recover works_write_all : works.

Lemma works_prepare present line durable : works (prepareRotation present line durable).
Proof.
  unfold prepareRotation, createRotationNewFile, create. apply works_check; [works|]. apply works_check; [|works].
  generalize 0%nat. induction present as [|ex present IH]; intros i; cbn [stage_sources]; works.
Qed.

Lemma works_apply limit : works (applyRotation limit).
Proof.
  unfold applyRotation. apply works_bind; [|works]. induction limit as [|t IH]; cbn [apply_targets]; works.
Qed.
#[local] Hint Resolve works_prepare works_apply : works.

Lemma works_preflight indices present h k : (∀ p h, works (k p h)) → works (preflight indices present h k).
Proof. intros Hk. revert present h. induction indices as [|i l IH]; intros present h; cbn [preflight]; works. Qed.

Lemma works_rotate backups line durable : works (rotate backups line durable).
Proof. unfold rotate. apply works_check; [works|]. apply works_preflight. cbn zeta. works. Qed.

Lemma works_open : works (openAuditFile log_file).
Proof. unfold openAuditFile, secure_opened, open_refused, fail_closing. works. Qed.

Lemma works_scan fuel m buffer e : works (scan_tail fuel m buffer e).
Proof. revert buffer e. induction fuel as [|fuel IH]; intros buffer e; cbn [scan_tail]; works. Qed.
#[local] Hint Resolve works_scan : works.

Lemma works_repair : works (repairTrailingPartialLine log_file).
Proof. unfold repairTrailingPartialLine. works. Qed.
#[local] Hint Resolve works_rotate works_open works_repair : works.

Lemma works_write logger line durable : works (write_under_lock logger line durable).
Proof. unfold write_under_lock, writeLocked, inspectPrivateDirectory, with_size, append_line. works. Qed.

(** *** The lock around it *)

Lemma safe_release r : safe lock_rules Held (release_lock r) (λ s _, s = Mutex).
Proof. unfold release_lock, at_place, call. intros [] []; done. Qed.

(** The lock file is open, or it was not opened. *)
Lemma safe_openLockFile :
  safe lock_rules Mutex openLockFile (λ s r, s = match r with Ok _ => LockOpen | Fail _ => Mutex end).
Proof.
  set (Q := λ s (r : result audit_error bool), s = match r with Ok _ => LockOpen | Fail _ => Mutex end).
  assert (∀ e, safe lock_rules LockOpen (fail_closing_lock e) Q) as Hclose by (intros e []; done).
  assert (safe lock_rules Mutex lock_refused Q) as Href by (intros []; done).
  assert (∀ b, safe lock_rules LockOpen (secure_lock b) Q) as Hsec.
  { intros b. apply safe_bind.
    apply (safe_mono _ _ _ (λ s _, s = LockOpen)); [|by destruct b; [intros x|]].
    intros s ok ->. destruct ok; cbn [negb]; [|apply Hclose]. intros [[size m]|]; [|apply Hclose].
    simpl. destruct (validatePrivateFile m); [apply Hclose|]. destruct (size =? 0)%Z; [done|apply Hclose]. }
  intros []; [apply Hsec| |apply Href|apply Href]. intros []; [apply Hsec|apply Href| |apply Href].
  intros []; [apply Hsec|apply Href..].
Qed.

Lemma safe_withExclusiveLock op : works op → safe lock_rules Mutex (withExclusiveLock op) (λ s _, s = Mutex).
Proof.
  intros Hop. apply safe_bind. eapply safe_mono; [|exact safe_openLockFile]. intros s [created|e] ->; [|done].
  intros [|]; cbn [negb].
  - change (safe lock_rules Held (e ← (if created : bool then syncMetadata else Ret None);
      match e with Some e => release_lock (Some e) | None => e ← op; release_lock e end) (λ s _, s = Mutex)).
    apply safe_bind. apply (safe_mono _ _ _ (λ s _, s = Held)).
    + intros s [e|] ->; [apply safe_release|]. apply safe_bind. eapply safe_mono; [|exact Hop].
      intros s r ->. apply safe_release.
    + destruct created; [apply works_sync|done].
  - by intros [].
Qed.

(** ** The theorems *)

(** C5: The audit log is an append-only text: after any sequence of openings and
    writes, each of which may have failed or stopped anywhere, the log is the
    end of what it was followed by whole lines, in order: every line whose write
    reported success, some of the others, and nothing else. *)
Theorem audit_history sha256 logger d writes d' v :
  (lg_backups logger ≤ maxBackups)%nat → log_state d v → history sha256 logger d writes d' →
  ∃ v' lines dropped, log_state d' v' ∧ kept writes lines ∧
    text (lg_backups logger) v +:+ str_concat lines = dropped +:+ text (lg_backups logger) v'.
Proof. intros Hmax Hv Hh. by eapply history_text. Qed.

(** C7: A write touches the log's files, its directory and the logger's state only
    while it holds the mutex and the lock on the lock file, and on every path it
    unlocks or closes what it locked, closes the lock file and gives the mutex
    back. *)
Theorem Write_under_the_lock sha256 logger event :
  safe lock_rules Idle (Write sha256 logger event) (λ p _, p = Idle).
Proof.
  unfold Write. destruct logger as [logger|]; [|done]. destruct (encodeEvent _ _) as [[line durable]|e]; [|done].
  intros []. apply safe_bind. eapply safe_mono; [|apply safe_withExclusiveLock, works_write].
  by intros p r -> [].
Qed.

(** Opening a log keeps its complete lines: it recovers a rotation that was
    stopped, cuts a torn last line, and removes no backup but those beyond the
    number asked for; the logger it returns has its options within bounds. *)
Theorem New_keeps_the_log dir options d v :
  log_state d v →
  (∀ d', stops d (NewLogger dir options) d' →
     ∃ v', log_state d' v' ∧ same_log (Z.to_nat (op_backups options)) v v') ∧
  (∀ d' logger, halts d (NewLogger dir options) d' (Ok logger) →
     ∃ v', ready d' v' ∧ same_log (lg_backups logger) v v' ∧ complete (held_at v' 0) = held_at v' 0 ∧
           (lg_backups logger ≤ maxBackups)%nat ∧ (0 < lg_max_bytes logger ≤ maxMaxBytes)%Z).
Proof.
  intros Hv. pose proof (keeps_NewLogger dir options v d Hv) as Hk. split.
  - intros d' Hs. refine (keeps_stops _ _ _ _ _ _ Hk Hs). exists v. split; [done|apply same_log_refl].
  - intros d' logger Hh. destruct (keeps_halts _ _ _ _ _ _ Hk Hh) as ((v' & Hr & Hs & _ & Hc) & _ & Hb & Hm). by exists v'.
Qed.

(** ** Sample runs *)

(** A log whose last line is torn. *)
Definition torn_log : disk :=
  Disk (<[Canon 0 := 0%nat]> (<[Canon 1 := 1%nat]> ∅))
       (<[0%nat := "{1}" +:+ newline_str +:+ "{2"]> (<[1%nat := "{0}" +:+ newline_str]> ∅)) 2 false.

Lemma torn_log_state : log_state torn_log (view torn_log).
Proof.
  apply ready_state. split; [|split; [|split; [|done]]].
  - intros n Hn. destruct n; [done|..]; unfold torn_log; simpl; rewrite !lookup_insert_ne by done; apply lookup_empty.
  - intros n x. unfold torn_log. simpl. rewrite !lookup_insert. repeat case_decide; intros [= <-]; lia.
  - intros i j x. unfold old_files, torn_log. simpl. rewrite !lookup_insert. repeat case_decide; intros [= <-]; intros; simplify_eq; done.
Qed.

Definition sample_logger : Logger := {| lg_max_bytes := 1000; lg_backups := 3 |}.
Definition sample_line : string := event_line (encodeEvent sample_sha sample_event).
Definition sample_write : action := Write sample_sha (Some sample_logger) sample_event.

Definition written_log : disk := fst (default (torn_log, None) (run_all torn_log sample_write)).

Lemma sample_write_halts : halts torn_log sample_write written_log None.
Proof. apply (run_all_halts (reply := @honest)). vm_compute. reflexivity. Qed.

Lemma audit_history_witness :
  ∃ v' lines dropped, log_state written_log v' ∧ kept [(sample_line, true)] lines ∧
    text 3 (view torn_log) +:+ str_concat lines = dropped +:+ text 3 v'.
Proof.
  apply (audit_history sample_sha sample_logger torn_log [(sample_line, true)] written_log).
  - vm_compute. lia.
  - exact torn_log_state.
  - apply (history_returned sample_sha sample_logger torn_log sample_event sample_line false written_log None).
    + vm_compute. reflexivity.
    + exact sample_write_halts.
    + apply history_none.
Defined.

Definition sample_open : prog fs_op (result audit_error Logger) := NewLogger "/a" {| op_max_bytes := 0; op_backups := 3 |}.
Definition opened_log : disk := fst (default (torn_log, Fail ErrIO) (run_all torn_log sample_open)).

Lemma New_keeps_the_log_witness :
  ∃ v', ready opened_log v' ∧ same_log 3 (view torn_log) v' ∧ complete (held_at v' 0) = held_at v' 0.
Proof.
  destruct (New_keeps_the_log "/a" {| op_max_bytes := 0; op_backups := 3 |} torn_log (view torn_log)) as [_ H].
  - exact torn_log_state.
  - destruct (H opened_log {| lg_max_bytes := defaultMaxBytes; lg_backups := 3 |}) as (v' & H1 & H2 & H3 & _).
    + apply (run_all_halts (reply := @honest)). vm_compute. reflexivity.
    + exists v'. split; [exact H1|]. split; [exact H2|exact H3].
Defined.

Lemma written_log_sample :
  view written_log 0 = Some ("{1}" +:+ newline_str +:+ sample_line) ∧ view written_log 1 = view torn_log 1.
Proof. vm_compute. split; reflexivity. Qed.
