(* ===== verification/AuditSync.v ===== *)
(** * What the audit log has synced: [internal/audit/logger.go]

    A process that dies keeps what it wrote; a machine that loses its power keeps
    what was synced.  [AuditLog] and [AuditWrite] are about the first.  Here a
    monitor follows the calls of a write and counts what is still owed: contents
    that were written and not synced, links, renames and removals that were not
    followed by a sync of the directory, files whose entry was created and not
    synced.  A write owes nothing when it reports success; it never has more than
    one change of the directory at risk, unless a call has failed; and it never
    publishes a file whose contents it should have synced and did not. *)

From S2P Require Import Redactor Prelude GoStr Frame AuditEvent Prog AuditLog AuditRecord AuditWrite.
From Stdlib Require Import Ascii.
Open Scope string_scope.
Open Scope list_scope.

Record owed := Owed {
  ow_new : bool;       (* contents of the file of a rotation *)
  ow_log : bool;       (* contents of the current file *)
  ow_dir : bool;       (* a link, a rename or a removal *)
  ow_created : bool;   (* an entry of a file that was created *)
  ow_failed : bool }.  (* a sync of the directory failed since *)

Definition with_new (s : owed) (b : bool) : owed := Owed b (ow_log s) (ow_dir s) (ow_created s) (ow_failed s).
Definition with_log (s : owed) (b : bool) : owed := Owed (ow_new s) b (ow_dir s) (ow_created s) (ow_failed s).
Definition with_created (s : owed) (b : bool) : owed := Owed (ow_new s) (ow_log s) (ow_dir s) b (ow_failed s).
Definition sync_failed (s : owed) : owed := Owed (ow_new s) (ow_log s) (ow_dir s) (ow_created s) true.
Definition dir_synced (s : owed) : owed := Owed (ow_new s) (ow_log s) false false false.

(** Only two files are written. *)
Definition set_file (s : owed) (a : name) (b : bool) : verdict owed :=
  match a with
  | New => Next (with_new s b)
  | Canon O => Next (with_log s b)
  | _ => Reject
  end.

(** A change of the directory, when it is the only one at risk. *)
Definition change_dir (s : owed) (ok : bool) (next : owed) : verdict owed :=
  if ow_dir s && negb (ow_failed s) then Reject
  else Next (if ok then Owed (ow_new next) (ow_log next) true (ow_created next) (ow_failed next) else s).

Definition sync_place {X} (s : owed) (e : place_op X) : X → verdict owed :=
  match e in place_op X return X → verdict owed with
  | SyncDir => λ ok, Next (if ok : bool then dir_synced s else sync_failed s)
  | OpenDir => λ ok, Next (if ok : bool then s else sync_failed s)
  | StatDir => λ a, Next (if place_fails StatDir a then sync_failed s else s)
  | OpenLock true => λ a, Next (match a with OpenOk => with_created s true | _ => s end)
  (* the logger knows when it owes a sync from before *)
  | GetPending => λ pending, if ow_dir s && negb pending then Broken else Next s
  | _ => λ _, Next s
  end.

(** [durable]: the event asks for its line to be synced. *)
Definition sync_rules (durable : bool) (s : owed) (i : io fs_op) : verdict owed :=
  match i with
  | @IO _ X e x =>
      match e in fs_op X return X → verdict owed with
      | WriteOp a _ => λ _, set_file s a true
      | TruncateOp a _ => λ _, set_file s a true
      | SyncFileOp a => λ ok, if ok : bool then set_file s a false else Next s
      | CreateExcl a => λ r, Next (match r with OpenOk => with_created s true | _ => s end)
      | LinkOp _ _ => λ ok, change_dir s ok s
      | RemoveOp _ => λ ok, change_dir s ok s
      | RemoveEntry _ => λ ok, change_dir s ok s
      | RenameOp New (Canon O) => λ ok,
          if durable && ow_new s then Reject
          else change_dir s ok (with_log (with_new s false) (ow_log s || ow_new s))
      | RenameOp New _ => λ _, Reject
      | RenameOp _ _ => λ ok, change_dir s ok s
      | At e => sync_place s e
      | _ => λ _, Next s
      end x
  end.

(** Nothing is owed but what a failed sync left. *)
Definition excused (s : owed) : Prop := ow_dir s = true → ow_failed s = true.

Section rules.
Context (durable : bool).

(** [s'] owes no more than [s] did; the contents of an event that is not durable
    may be owed. *)
Record no_more (s s' : owed) : Prop := {
  nm_new : ow_new s' = true → ow_new s = true ∨ durable = false;
  nm_log : ow_log s' = true → ow_log s = true ∨ durable = false;
  nm_dir : ow_dir s' = true → ow_dir s = true;
  nm_created : ow_created s' = true → ow_created s = true }.

Lemma no_more_refl s : no_more s s.
Proof. split; auto. Qed.

Lemma no_more_trans s s1 s2 : no_more s s1 → no_more s1 s2 → no_more s s2.
Proof. intros [] []. split; tauto. Qed.

Abbreviation follows := (safe (sync_rules durable)).

(** A program that pays for what it does, when its result is one of [good]. *)
Definition pays {R} (good : R → Prop) (p : prog fs_op R) : Prop :=
  ∀ s, excused s → follows s p (λ s' r, excused s' ∧ (good r → no_more s s')).

Definition fine (r : option audit_error) : Prop := r = None.
Definition found {A} (r : result audit_error A) : Prop := ∃ a, r = Ok a.

Lemma pays_ret {R} good (r : R) : pays good (Ret r).
Proof. intros s Hs. split; [done|]. intros _. apply no_more_refl. Qed.

Lemma pays_mono {R} good s (p : prog fs_op R) Q : pays good p → excused s →
  (∀ s' r, excused s' → (good r → no_more s s') → Q s' r) → follows s p Q.
Proof. intros Hp Hs HQ. eapply safe_mono; [|by apply Hp]. intros s' r [? ?]. by apply HQ. Qed.

(** Calls that the rules do not look at. *)
Definition still {X} (e : fs_op X) : bool :=
  match e with
  | Lstat _ | OpenOp _ | FStat _ | ReadAtOp _ _ _ | ChmodOp _ | CloseOp _ | LstatEntry _ => true
  | At (LstatDir | MkdirDir | ChmodDir | CloseDir | ReadDir | LockMutex | UnlockMutex | OpenLock false | ChmodLock | StatLock
       | LockIsSymlink | FlockExclusive | FlockUnlock | CloseLock | LogIsSymlink | SetPending _) => true
  | _ => false
  end.

Lemma still_next X s (e : fs_op X) x : still e = true → sync_rules durable s (IO e x) = Next s.
Proof. destruct e as [| | | | | | | | | | | | | | |Y e]; try done. by destruct e as [| | | | | | | | | |[]| | | | | | | | |]. Qed.

(** A first part of such calls. *)
Lemma pays_after_still {A B} (good : B → Prop) (p : prog fs_op A) (f : A → prog fs_op B) :
  only (@still) p → (∀ a, pays good (f a)) → pays good (p ≫= f).
Proof.
  intros Hp Hf s Hs. apply safe_bind. eapply safe_mono; [|apply (safe_only _ (@still)); [|exact Hp]].
  - intros s' a ->. by apply Hf.
  - intros X e x. apply still_next.
Qed.

Lemma pays_still {R} good (p : prog fs_op R) : only (@still) p → pays good p.
Proof.
  intros Hp s Hs. eapply safe_mono; [|apply (safe_only _ (@still)); [|exact Hp]].
  - intros s' r ->. split; [done|]. intros _. apply no_more_refl.
  - intros X e x. apply still_next.
Qed.

Lemma pays_check p k : pays fine p → pays fine k → pays fine (check p k).
Proof.
  intros Hp Hk s Hs. apply safe_bind. eapply pays_mono; [exact Hp|done|]. intros s1 [e|] Hs1 H1; [by split|].
  eapply pays_mono; [exact Hk|done|]. intros s2 r Hs2 H2. split; [done|]. intros Hr. eapply no_more_trans; auto.
  by apply H1.
Qed.

Lemma follows_close_with s n e (Q : owed → option audit_error → Prop) : Q s (Some e) → follows s (closeWithError n e) Q.
Proof. by intros HQ ok. Qed.

Lemma pays_check_close n p k : pays fine p → pays fine k → pays fine (check_close n p k).
Proof.
  intros Hp Hk s Hs. apply safe_bind. eapply pays_mono; [exact Hp|done|]. intros s1 [e|] Hs1 H1; [by apply follows_close_with|].
  eapply pays_mono; [exact Hk|done|]. intros s2 r Hs2 H2. split; [done|]. intros Hr. eapply no_more_trans; auto.
  by apply H1.
Qed.

Lemma pays_asking {A} (p : prog fs_op (result audit_error A)) k : pays found p → (∀ a, pays fine (k a)) → pays fine (asking p k).
Proof.
  intros Hp Hk s Hs. apply safe_bind. eapply pays_mono; [exact Hp|done|]. intros s1 [a|e] Hs1 H1; [|by split].
  eapply pays_mono; [exact (Hk a)|done|]. intros s2 r Hs2 H2. split; [done|]. intros Hr. eapply no_more_trans; auto.
  apply H1. by exists a.
Qed.

(** Syncing the directory pays all that was owed for it, or excuses it. *)
Lemma follows_sync s (Q : owed → option audit_error → Prop) :
  Q (dir_synced s) None → (∀ e, Q (sync_failed s) (Some e)) → (∀ e, Q (dir_synced s) (Some e)) → follows s syncMetadata Q.
Proof.
  intros Hok Hf Hs. unfold syncMetadata, syncDirectory, check, at_place, call, close_dir_with.
  intros []; [|intros []; apply Hf]. intros [m|]; [|intros [] []; apply Hf]. cbn [sync_rules sync_place place_fails mbind prog_mbind prog_bind].
  destruct (validatePrivateDirectory m) as [e|].
  - rewrite bool_decide_eq_true_2 by by eexists. intros [] []; apply Hf.
  - rewrite bool_decide_eq_false_2 by by intros []. intros [].
    + intros [] []; [apply Hok|apply Hs].
    + intros [] []; apply Hf.
Qed.

Lemma pays_sync : pays fine syncMetadata.
Proof. intros s Hs. apply follows_sync; [|intros e; by split..]. split; [done|]. intros _. by split; auto. Qed.

(** ** The operations on the directory *)

Lemma pays_change e : (∀ s ok, sync_rules durable s (IO e ok) = change_dir s ok s) → pays fine (check (call e) syncMetadata).
Proof.
  intros He s Hs ok. rewrite He. unfold change_dir.
  assert (ow_dir s && negb (ow_failed s) = false) as ->.
  { unfold excused in Hs. destruct (ow_dir s); [|done]. by rewrite Hs. }
  destruct ok; [|by split]. apply follows_sync; [|by split..]. split; [done|]. intros _. by split; auto.
Qed.

Lemma still_inspect n : only (@still) (inspectPrivateFileIfExists n).
Proof. by split. Qed.

Lemma pays_inspect good n : pays good (inspectPrivateFileIfExists n).
Proof. apply pays_still, still_inspect. Qed.

Lemma pays_link a b : pays fine (linkMetadata a b).
Proof. by apply pays_change. Qed.

Lemma pays_rename a b : a ≠ New → pays fine (renameMetadata a b).
Proof. intros Ha. apply pays_change. intros s ok. by destruct a. Qed.

Lemma pays_remove n : pays fine (removeMetadataIfExists n).
Proof. apply pays_asking; [apply pays_inspect|]. intros []; [|apply pays_ret]. by apply pays_change. Qed.

Lemma pays_create n : pays fine (createEmptyMetadataFile n).
Proof.
  intros s Hs. intros []; try by split. intros []; [|by intros []; split]. intros []; [|by split].
  apply follows_sync; [|by split..]. split; [done|]. intros _. by split; auto.
Qed.

(** Writing leaves contents owed, at most. *)
Lemma follows_write a b data s (Q : owed → option audit_error → Prop) :
  (∀ s' c, set_file s' a c = Next (b s' c)) → (∀ s' c, b (b s' c) c = b s' c) → (∀ r, Q s r) → (∀ r, Q (b s true) r) →
  follows s (writeAllWith a data) Q.
Proof.
  intros Ha Hb Hs Ht. unfold writeAllWith. generalize (S (String.length data)) as fuel. intros fuel.
  assert (∀ fuel data s1, s1 = s ∨ s1 = b s true → follows s1 (write_all_with fuel a data) Q) as H; [|by apply H; left].
  clear fuel data. intros fuel. induction fuel as [|fuel IH]; intros data s1 Hs1.
  { destruct Hs1 as [->| ->]; [apply Hs|apply Ht]. }
  cbn [write_all_with]. destruct (str_is_empty data); [destruct Hs1 as [->| ->]; [apply Hs|apply Ht]|].
  intros [written ok]. cbn [sync_rules]. rewrite Ha.
  assert (b s1 true = b s true) as Hs2 by (destruct Hs1 as [->| ->]; auto). rewrite Hs2.
  cbn [mbind prog_mbind prog_bind]. repeat case_match; try apply Ht. apply IH. by right.
Qed.

Lemma pays_rotation_file line : pays fine (createRotationNewFile line durable).
Proof.
  intros s Hs. unfold createRotationNewFile. intros []; try by split. intros []; [|by intros []; split].
  change (follows (with_created s true) (check_close New (writeAllWith New line)
    (check_close New (if durable then call (SyncFileOp New) else Ret None) (check (call (CloseOp New)) syncMetadata)))
    (λ s' r, excused s' ∧ (fine r → no_more s s'))).
  assert (∀ s2, excused s2 → no_more s s2 ∨ no_more (with_created s true) s2 → follows s2 (check (call (CloseOp New)) syncMetadata)
    (λ s' r, excused s' ∧ (fine r → no_more s s'))) as Hend.
  { intros s2 Hs2 Hm []; [|by split]. apply follows_sync; [|by split..]. split; [done|]. intros _.
    destruct Hm as [[]|[]]; split; simpl; auto; done. }
  apply safe_bind. apply (follows_write New with_new); [done|done|intros [e|]..]; try (by apply follows_close_with).
  all: apply safe_bind; destruct durable eqn:Hd; [intros []; [|by intros ?; split]|]; (apply Hend; [done|]); right; split; simpl; auto; done.
Qed.

Ltac pay := repeat first
  [ assumption | apply pays_inspect | apply pays_remove | apply pays_link | apply pays_create | apply pays_sync
  | apply pays_rename; discriminate | apply pays_ret
  | apply pays_asking; [|intros ?] | apply pays_check_close | apply pays_check
  | match goal with |- pays _ (match ?x with _ => _ end) => destruct x end ].

(** ** Recovery and rotation *)

Lemma pays_remove_all names : pays fine (remove_all names).
Proof. induction names; cbn [remove_all]; pay. Qed.

Lemma pays_cleanup : pays fine cleanupRotationStaging.
Proof. apply pays_remove_all. Qed.

Lemma pays_rollback limit : pays fine (rollbackRotation limit).
Proof.
  apply pays_check; [|apply pays_cleanup]. induction (seq 0 (S limit)) as [|i l IH]; cbn [rollback_loop]; unfold rollback_index; pay.
Qed.

Lemma still_limit : only (@still) rotationLimit.
Proof.
  unfold rotationLimit. apply only_bind.
  - generalize 0%nat at 2, false. induction (seq 0 (S maxBackups)) as [|i l IH]; intros limit staged; cbn [scan_indices]; [done|].
    do 3 (apply only_bind; [apply still_inspect|]; intros []; [|done]). apply IH.
  - intros [[limit staged]|e]; [|done]. do 2 (apply only_bind; [apply still_inspect|]; intros []; [|done]). done.
Qed.

Lemma pays_recover : pays fine recoverRotation.
Proof.
  assert (pays fine (same_as_proof cleanupRotationStaging)) as Hsame.
  { apply pays_after_still; [by split|]. intros []; try apply pays_ret. apply pays_after_still; [by split|].
    intros []; try apply pays_ret. repeat case_match; try apply pays_ret. apply pays_cleanup. }
  unfold recoverRotation. apply pays_asking; [apply pays_inspect|]. intros []; cbn [negb]; [|apply pays_ret].
  apply pays_asking; [apply pays_still, still_limit|]. intros [limit staged]. destruct staged; cbn [negb]; [|apply pays_cleanup].
  do 2 (apply pays_asking; [apply pays_inspect|]; intros ?). repeat case_match; auto using pays_rollback, pays_cleanup.
Qed.

Lemma pays_stage present i : pays fine (stage_sources i present).
Proof. revert i. induction present as [|ex present IH]; intros i; cbn [stage_sources]; [apply pays_ret|]. pay. apply IH. Qed.

(** Preparing a rotation makes a file, and a sync of the directory follows. *)
Lemma follows_create n s (Q : owed → option audit_error → Prop) :
  excused s → Q (dir_synced s) None → (∀ s' e, excused s' → Q s' (Some e)) → follows s (createEmptyMetadataFile n) Q.
Proof.
  intros Hs Hok He. intros []; try by apply He. intros []; [|by intros []; apply He]. intros []; [|by apply He].
  apply follows_sync; [exact Hok|by intros; apply He..].
Qed.

Lemma pays_prepare_rest present line : pays fine (check (stage_sources 0 present) (check (createRotationNewFile line durable) (linkMetadata New Proof_))).
Proof. apply pays_check; [apply pays_stage|]. apply pays_check; [apply pays_rotation_file|apply pays_link]. Qed.

Lemma pays_apply_targets limit : pays fine (apply_targets limit).
Proof. induction limit as [|t IH]; cbn [apply_targets]; pay. Qed.

(** Everything that is owed for a write that was made. *)
Definition nothing_owed (s : owed) : Prop :=
  ow_dir s = false ∧ ow_created s = false ∧ (durable = true → ow_new s = false ∧ ow_log s = false).

Lemma nothing_owed_more s s' : nothing_owed s → no_more s s' → nothing_owed s'.
Proof.
  intros (Hd & Hc & Hf) [Hn Hl Hd' Hc']. split_and!.
  - destruct (ow_dir s'); [|done]. rewrite Hd in Hd'. by specialize (Hd' eq_refl).
  - destruct (ow_created s'); [|done]. rewrite Hc in Hc'. by specialize (Hc' eq_refl).
  - intros Hdur. destruct (Hf Hdur) as [Hn0 Hl0]. rewrite Hdur, Hn0 in Hn. rewrite Hdur, Hl0 in Hl.
    split; [destruct (ow_new s'); [by destruct Hn|done]|destruct (ow_log s'); [by destruct Hl|done]].
Qed.

Definition settles (Q : owed → Prop) (p : action) : Prop := ∀ s, excused s → Q s → follows s p (λ s' r, excused s' ∧ (r = None → nothing_owed s')).

(** The contents that a durable event needs are synced. *)
Definition contents_synced (s : owed) : Prop := durable = true → ow_new s = false ∧ ow_log s = false.

Lemma contents_synced_more s s' : contents_synced s → no_more s s' → contents_synced s'.
Proof.
  intros Hf [Hn Hl _ _] Hdur. destruct (Hf Hdur) as [Hn0 Hl0]. rewrite Hdur, Hn0 in Hn. rewrite Hdur, Hl0 in Hl.
  split; [destruct (ow_new s'); [by destruct Hn|done]|destruct (ow_log s'); [by destruct Hl|done]].
Qed.

Lemma settles_after p k : pays fine p → settles contents_synced k → settles contents_synced (check p k).
Proof.
  intros Hp Hk s Hs Hc. apply safe_bind. eapply pays_mono; [exact Hp|done|]. intros s1 [e|] Hs1 H1; [by split|].
  apply Hk; [done|]. eapply contents_synced_more; [exact Hc|by apply H1].
Qed.

Lemma settles_asking {A} (p : prog fs_op (result audit_error A)) k : pays found p → (∀ a, settles contents_synced (k a)) →
  settles contents_synced (asking p k).
Proof.
  intros Hp Hk s Hs Hc. apply safe_bind. eapply pays_mono; [exact Hp|done|]. intros s1 [a|e] Hs1 H1; [|by split].
  apply Hk; [done|]. eapply contents_synced_more; [exact Hc|apply H1; by exists a].
Qed.

(** An error, and what is done about it. *)
Lemma settles_error (p : action) e s : pays fine p → excused s →
  follows s (e' ← p; Ret (join_errors (Some e) e')) (λ s' r, excused s' ∧ (r = None → nothing_owed s')).
Proof. intros Hp Hs. apply safe_bind. eapply pays_mono; [exact Hp|done|]. intros s1 e' Hs1 _. by split. Qed.

Lemma follows_apply limit s : excused s → nothing_owed s →
  follows s (applyRotation limit) (λ s' r, excused s' ∧ (r.2 = None → nothing_owed s')).
Proof.
  intros Hs Hno. unfold applyRotation. apply safe_bind. eapply pays_mono; [apply pays_apply_targets|done|].
  intros s1 [e|] Hs1 H1; [by split|]. pose proof (nothing_owed_more _ _ Hno (H1 eq_refl)) as (Hd & Hc & Hf). intros ok. cbn [sync_rules].
  assert (durable && ow_new s1 = false) as ->.
  { destruct durable; [|done]. by destruct Hf as [-> _]. }
  unfold change_dir. rewrite Hd. cbn [andb].
  destruct ok; cbn [mbind prog_mbind prog_bind]; [|by split].
  apply safe_bind. apply follows_sync; [|by split..]. split; [done|]. intros _. split_and!; [done|done|].
  intros Hdur. destruct (Hf Hdur) as [Hn Hl]. simpl. by rewrite Hn, Hl.
Qed.

Lemma settles_preflight indices present highest k : (∀ p h, settles contents_synced (k p h)) →
  settles contents_synced (preflight indices present highest k).
Proof.
  intros Hk. revert present highest. induction indices as [|i l IH]; intros present highest; cbn [preflight]; [apply Hk|].
  apply settles_asking; [apply pays_inspect|]. intros ex. case_match; [by intros s Hs _; split|]. apply IH.
Qed.

Lemma settles_rotate backups line : settles contents_synced (rotate backups line durable).
Proof.
  unfold rotate. apply settles_after; [apply pays_recover|].
  apply settles_preflight. intros present highest.
  intros s Hs Hc. cbv zeta. apply safe_bind. unfold prepareRotation, check at 1. apply safe_bind. apply follows_create; [done| |].
  2: { intros s1 e Hs1. by apply settles_error; [apply pays_recover|]. }
  assert (nothing_owed (dir_synced s)) as Hno by (by split_and!; [..|exact Hc]).
  eapply pays_mono; [apply pays_prepare_rest|done|]. intros s1 [e|] Hs1 H1; [by apply settles_error; [apply pays_recover|]|].
  apply safe_bind. eapply safe_mono; [|apply follows_apply; [done|]].
  2: { by eapply nothing_owed_more, H1. }
  intros s2 [[] [e|]] [Hs2 H2]; cbn in H2.
  - by split.
  - eapply pays_mono; [apply pays_cleanup|done|]. intros s3 r Hs3 H3. split; [done|]. intros Hr. by eapply nothing_owed_more, H3, Hr; apply H2.
  - by apply settles_error; [apply pays_rollback|].
  - eapply pays_mono; [apply pays_cleanup|done|]. intros s3 r Hs3 H3. split; [done|]. intros Hr. by eapply nothing_owed_more, H3, Hr; apply H2.
Qed.

(** ** The current file *)

Lemma still_fail_closing {A} n e : only (@still) (fail_closing (A := A) n e).
Proof. by split. Qed.

Lemma still_secure n created : only (@still) (secure_opened n created).
Proof.
  unfold secure_opened. apply only_bind; [by destruct created|]. intros [|]; cbn [negb]; [|apply still_fail_closing].
  split; [done|]. intros [[size m]|]; [|apply still_fail_closing]. simpl. destruct (validatePrivateFile m); [apply still_fail_closing|done].
Qed.

Lemma still_refused : only (@still) open_refused.
Proof. by split. Qed.

Lemma follows_still {R} (p : prog fs_op R) s Q : only (@still) p → (∀ tr r, runs p tr r → Q s r) → follows s p Q.
Proof.
  intros Hp HQ. induction p as [r|X e k IH] in Q, HQ, Hp |- *; [by apply (HQ [])|]. destruct Hp as [He Hk]. intros x.
  rewrite still_next by done. apply IH; [done|]. intros tr r Hr. apply (HQ (IO e x :: tr)). by exists x, tr.
Qed.

(** What opening a file answers tells whether its entry is new. *)
Lemma secure_answers n created tr r : runs (secure_opened n created) tr r → match r with Ok c => c = created | Fail _ => True end.
Proof.
  intros (t1 & t2 & ok & _ & _ & H)%runs_bind. destruct ok; cbn [negb] in H; [|by destruct H as (? & ? & _ & [_ ->])].
  destruct H as ([[size m]|] & t3 & _ & H); [|by destruct H as (? & ? & _ & [_ ->])].
  simpl in H. destruct (validatePrivateFile m); [by destruct H as (? & ? & _ & [_ ->])|by destruct H as [_ ->]].
Qed.

Lemma refused_answers tr r : runs open_refused tr r → match r with Ok _ => False | Fail _ => True end.
Proof. by intros (? & ? & _ & [_ ->]). Qed.

Lemma follows_open n s : follows s (openAuditFile n) (λ s' r,
  match r with Ok created => s' = if created then with_created s true else s | Fail _ => s' = s ∨ s' = with_created s true end).
Proof.
  assert (∀ s0, s0 = s ∨ s0 = with_created s true → follows s0 open_refused (λ s' r,
    match r with Ok created => s' = if created then with_created s true else s | Fail _ => s' = s ∨ s' = with_created s true end)) as Href.
  { intros s0 H0. apply follows_still; [apply still_refused|]. intros tr [c|e] Hr; [by apply refused_answers in Hr|done]. }
  assert (∀ b : bool, follows (if b then with_created s true else s) (secure_opened n b) (λ s' r,
    match r with Ok created => s' = if created then with_created s true else s | Fail _ => s' = s ∨ s' = with_created s true end)) as Hsec.
  { intros b. apply follows_still; [apply still_secure|]. intros tr [c|e] Hr; [by apply secure_answers in Hr as ->|].
    destruct b; [by right|by left]. }
  unfold openAuditFile. intros []; [exact (Hsec false)| |apply Href; by left..].
  intros []; [exact (Hsec true)|apply Href; by left| |apply Href; by left].
  intros []; [exact (Hsec false)|apply Href; by left..].
Qed.

Lemma pays_repair : pays fine (repairTrailingPartialLine log_file).
Proof.
  unfold repairTrailingPartialLine. apply pays_after_still; [by split|]. intros [[size m]|]; [|apply pays_ret].
  case_match; [apply pays_ret|]. apply pays_after_still; [by split|]. intros [[|last rest]|]; try apply pays_ret.
  case_match; [apply pays_ret|]. apply pays_asking.
  - apply pays_still. generalize empty_buffer. generalize (scan_turns size). intros fuel. generalize size. clear.
    induction fuel as [|fuel IH]; intros end_ buffer; cbn [scan_tail]; [done|]. case_match; [done|]. cbv zeta.
    split; [done|]. intros [bytes|]; [|done]. cbn [mbind prog_mbind prog_bind]. case_match; [done|]. apply IH.
  - intros at_. intros s Hs []; [|by split]. intros []; [|by split]. split; [done|]. intros _. split; simpl; auto; done.
Qed.

(** What the rest of a write does when nothing is owed but its line. *)
Definition ends_clear (s : owed) (p : action) : Prop := follows s p (λ s' r, excused s' ∧ (r = None → nothing_owed s')).

Lemma append_clear line size s : excused s → nothing_owed s → ends_clear s (append_line log_file line durable size).
Proof.
  intros Hs Hno. unfold ends_clear, append_line. apply safe_bind.
  assert (∀ s1 e, excused s1 → follows s1 (ok ← trigger (TruncateOp log_file size);
    rollbackErr ← (if ok : bool then call (SyncFileOp log_file) else Ret (Some ErrIO));
    _ ← trigger (CloseOp log_file); Ret (join_errors (Some e) rollbackErr)) (λ s' r, excused s' ∧ (r = None → nothing_owed s'))) as Hback.
  { intros s1 e Hs1 []; [intros []|]; by intros ?; split. }
  assert (∀ s1, excused s1 → ow_dir s1 = false → ow_created s1 = false → (durable = true → ow_new s1 = false) →
    follows s1 (check_close log_file (if durable then call (SyncFileOp log_file) else Ret None) (call (CloseOp log_file)))
      (λ s' r, excused s' ∧ (r = None → nothing_owed s'))) as Hend.
  { intros s1 Hs1 Hd Hc Hn. unfold nothing_owed. destruct durable.
    - intros []; [|by intros ?; split]. intros []; split; try done. intros _. split_and!; try done. intros _. split; [by apply Hn|done].
    - intros []; split; try done. }
  destruct Hno as (Hd & Hc & Hf).
  apply (follows_write log_file with_log); [done|done|intros [e|]; [by apply Hback|apply Hend; [done..|]; by intros Hdur; destruct (Hf Hdur)]..].
Qed.

Lemma writeLocked_clear logger line s : excused s → nothing_owed s → ends_clear s (writeLocked logger line durable).
Proof.
  intros Hs Hno. unfold ends_clear, writeLocked, check at 1. apply safe_bind. apply follows_still; [by split|].
  intros _ [e|] _; [by split|]. apply safe_bind. eapply pays_mono; [apply pays_recover|done|]. intros s1 [e|] Hs1 H1; [by split|].
  pose proof (nothing_owed_more _ _ Hno (H1 eq_refl)) as Hno1. clear Hno H1.
  unfold asking. apply safe_bind. eapply safe_mono; [|apply follows_open]. intros s2 [created|e].
  2: { intros [->| ->]; by split. }
  intros ->. set (s2 := if created then with_created s1 true else s1).
  assert (excused s2) as Hs2 by by destruct created. assert (contents_synced s2) as Hc2 by (intros Hdur; destruct Hno1 as (_ & _ & Hf); destruct (Hf Hdur); by destruct created).
  apply safe_bind. eapply pays_mono; [apply pays_repair|done|]. intros s3 [e|] Hs3 H3; [by apply follows_close_with|]. specialize (H3 eq_refl).
  intros [[size m]|]; [|by intros ?; split]. cbn [mbind prog_mbind prog_bind]. destruct (rotationNeeded _ _ _).
  - intros []; [|by split]. apply settles_rotate; [done|]. by eapply contents_synced_more.
  - assert (∀ s4, excused s4 → nothing_owed s4 → follows s4 (with_size log_file (λ before, append_line log_file line durable before))
      (λ s' r, excused s' ∧ (r = None → nothing_owed s'))) as Hrest.
    { intros s4 Hs4 Hno4 [[before m']|]; [by apply append_clear|by intros ?; split]. }
    apply safe_bind. destruct created.
    + apply follows_sync; [|by intros ? ?; split..]. apply Hrest; [done|]. split_and!; [done|done|]. exact (contents_synced_more _ _ Hc2 H3).
    + apply Hrest; [done|]. by eapply nothing_owed_more.
Qed.

(** ** The lock around it *)

Lemma follows_openLock s : excused s → follows s openLockFile (λ s' r,
  match r with Ok created => s' = if created then with_created s true else s | Fail _ => excused s' end).
Proof.
  intros Hs. set (Q := λ s' (r : result audit_error bool), match r with Ok created => s' = if created then with_created s true else s | Fail _ => excused s' end).
  assert (∀ s0, excused s0 → follows s0 lock_refused Q) as Href by by intros s0 H0 [].
  assert (∀ s0 e, excused s0 → follows s0 (fail_closing_lock e) Q) as Hclose by by intros s0 e H0 [].
  assert (∀ b : bool, follows (if b then with_created s true else s) (secure_lock b) Q) as Hsec.
  { intros b. assert (excused (if b then with_created s true else s)) as Hb by by destruct b.
    apply safe_bind. apply follows_still; [by destruct b|]. intros _ [] _; cbn [negb]; [|by apply Hclose].
    intros [[size m]|]; [|by apply Hclose]. cbn [mbind prog_mbind prog_bind].
    destruct (validatePrivateFile m); [by apply Hclose|]. destruct (size =? 0)%Z; [by destruct b|by apply Hclose]. }
  unfold openLockFile. intros []; [exact (Hsec false)| |by apply Href..].
  intros []; [exact (Hsec true)|by apply Href| |by apply Href].
  intros []; [exact (Hsec false)|by apply Href..].
Qed.

Lemma release_clear s e : excused s → (e = None → nothing_owed s) → ends_clear s (release_lock e).
Proof.
  intros Hs He. apply follows_still; [by repeat split|]. intros tr r (t1 & t2 & a & _ & _ & (t3 & t4 & b & _ & _ & [_ ->])%runs_bind)%runs_bind.
  split; [done|]. destruct e; [done|]. by intros _; apply He.
Qed.

(** What a logger owes before a write: nothing, or a sync that failed. *)
Definition before (failed : bool) : owed := Owed false false failed false failed.

Lemma Write_pays sha256 logger event failed line (encoded : encodeEvent sha256 event = Ok (line, durable)) :
  follows (before failed) (Write sha256 (Some logger) event) (λ s r, r = None → nothing_owed s).
Proof.
  unfold Write. rewrite encoded. intros []. apply safe_bind.
  apply (safe_mono _ _ _ (λ s r, excused s ∧ (r = None → nothing_owed s))); [by intros s r [_ Hr] []|].
  apply safe_bind. eapply safe_mono; [|apply follows_openLock; by destruct failed]. intros s [created|e]; [|by split].
  intros ->. set (s1 := if created then _ else _). assert (excused s1) as Hs1 by (by destruct created, failed).
  intros []; cbn [negb]; [|by intros ?; split]. cbn [mbind prog_mbind prog_bind].
  assert (∀ s2, excused s2 → ow_created s2 = false → contents_synced s2 →
    ends_clear s2 (e ← write_under_lock logger line durable; release_lock e)) as Hop.
  { intros s2 Hs2 Hc2 Hf2. apply safe_bind. apply (safe_mono _ _ _ (λ s r, excused s ∧ (r = None → nothing_owed s))).
    { intros s3 r [Hs3 Hr]. by apply release_clear. }
    intros pending. cbn [sync_rules sync_place]. destruct (ow_dir s2 && negb pending) eqn:Hp; [done|].
    apply safe_bind. destruct pending.
    - apply follows_sync; [|by split..]. by apply writeLocked_clear.
    - apply writeLocked_clear; [done|]. split_and!; [|done|done]. by destruct (ow_dir s2). }
  apply safe_bind. destruct created.
  - apply follows_sync; [|intros e; by apply release_clear..]. by apply Hop.
  - apply Hop; by destruct failed.
Qed.
End rules.

(** ** The theorem *)

(** C6: Wherever a write stops, by the death of its process or by the failure of
    any call, the log holds, once recovered, the complete lines it held or those
    and the new line, whole; only a rotation drops lines, and then the oldest file
    and only with the new line in its place.  When the write reports success the
    line is in the log, no rotation is pending, and the current file is within its
    size; and nothing is left for a loss of power to undo: every link, rename,
    removal and creation was followed by a sync of the directory, and the line of a
    durable event by a sync of its file.  On the way only one change of the
    directory is ever at risk, unless a sync has failed, and a rotation publishes
    the new file of a durable event only after its contents were synced. *)
Theorem Write_all_or_nothing sha256 logger event line durable d v
    (backups : (lg_backups logger ≤ maxBackups)%nat) (encoded : encodeEvent sha256 event = Ok (line, durable)) (log : log_state d v) :
  (∀ d', stops d (Write sha256 (Some logger) event) d' →
     ∃ v', log_state d' v' ∧ (same_log (lg_backups logger) v v' ∨ appended (lg_backups logger) line v v')) ∧
  (∀ d', halts d (Write sha256 (Some logger) event) d' None →
     ∃ v', ready d' v' ∧ appended (lg_backups logger) line v v' ∧
           (slen (held_at v' 0) ≤ Z.max (lg_max_bytes logger) (slen line))%Z) ∧
  (∀ failed, safe (sync_rules durable) (before failed) (Write sha256 (Some logger) event) (λ s r, r = None → nothing_owed durable s)).
Proof.
  pose proof (keeps_Write sha256 logger event line durable v d backups encoded log) as Hk. split_and!.
  - intros d' Hs. refine (keeps_stops _ _ _ _ _ _ Hk Hs). exists v. split; [done|left; apply same_log_refl].
  - intros d' Hh. exact (keeps_halts _ _ _ _ _ _ Hk Hh).
  - intros failed. exact (Write_pays durable sha256 logger event failed line encoded).
Qed.

Lemma Write_all_or_nothing_witness :
  ∃ v', ready written_log v' ∧ appended 3 sample_line (view torn_log) v'.
Proof.
  destruct (Write_all_or_nothing sample_sha sample_logger sample_event sample_line false torn_log (view torn_log)) as (_ & H & _).
  - vm_compute. lia.
  - vm_compute. reflexivity.
  - exact torn_log_state.
  - destruct (H written_log sample_write_halts) as (v' & H1 & H2 & _). exists v'. split; [exact H1|exact H2].
Defined.

(** The rules on the publication of a file: without and with its sync. *)
Definition durable_trace : list (io fs_op) :=
  [IO (At OpenDir) true; IO (WriteOp New "x") (1%Z, true); IO (RenameOp New (Canon 0)) true].

Example unsynced_publication_refused : watch (sync_rules true) (before false) durable_trace = Reject.
Proof. reflexivity. Qed.

Example synced_publication_accepted :
  watch (sync_rules true) (before false)
    [IO (WriteOp New "x") (1%Z, true); IO (SyncFileOp New) true; IO (RenameOp New (Canon 0)) true; IO (At SyncDir) true] =
  Next (before false).
Proof. reflexivity. Qed.
