(* ===== verification/Vault.v ===== *)
(** * The vault's envelope: [internal/vault/crypto.go]

    Server secrets, the authentication method they imply, the parameters of the
    key derivation, and [Seal] and [Open].  Argon2 and XChaCha20-Poly1305 are a
    record of functions with their laws.  The buffers a call allocates are a
    heap, so that what is wiped is visible.

    The results: what is sealed opens again, unharmed and only within the size
    limit; no plaintext and no key is left in memory on any path; whatever
    opens was sealed under the parameters the envelope states. *)

From S2P Require Import Prelude GoStr Utf8 Base64 Json Wire.
From Stdlib Require Import Ascii.
Open Scope string_scope.
Open Scope list_scope.

Definition MaxEnvelopeBytes : Z := Z.shiftl 16 20.
Definition envelopeVersion : Z := 1.
Definition saltSize : Z := 16.
Definition keySize : Z := 32.
Definition minMemoryKiB : Z := 8.
Definition maxMemoryKiB : Z := 262144.
Definition minIterations : Z := 1.
Definition maxIterations : Z := 10.
Definition minParallelism : Z := 1.
Definition maxParallelism : Z := 16.

Definition AuthMethod := string.
Definition AuthMethodPassword : AuthMethod := "password".
Definition AuthMethodPrivateKey : AuthMethod := "private-key".

(** The byte slices are values: no code of the program writes through a copy
    of a secret, and [ZeroServerSecret] also drops the slices. *)
Record ServerSecret := {
  ss_host : string;
  ss_port : Z;
  ss_user : string;
  ss_auth_method : AuthMethod;
  ss_password : string;
  ss_private_key : string;
  ss_private_key_passphrase : string;
  ss_host_fingerprint : string }.

#[export] Instance ServerSecret_eq_dec : EqDecision ServerSecret.
Proof. solve_decision. Defined.

Definition EffectiveAuthMethod (secret : ServerSecret) : AuthMethod :=
  if str_is_empty (ss_auth_method secret) && negb (slen (ss_password secret) =? 0)%Z
  then AuthMethodPassword else ss_auth_method secret.

Definition ZeroServerSecret (secret : ServerSecret) : ServerSecret := {|
  ss_host := ss_host secret; ss_port := ss_port secret; ss_user := ss_user secret;
  ss_auth_method := ss_auth_method secret;
  ss_password := ""; ss_private_key := ""; ss_private_key_passphrase := "";
  ss_host_fingerprint := ss_host_fingerprint secret |}.

#[export] Program Instance ServerSecret_Struct : Struct ServerSecret := {|
  fields := ["host"; "port"; "user"; "auth_method"; "password"; "private_key"; "private_key_passphrase";
             "host_fingerprint"];
  members_of s :=
    pieces
      [ req "host" (JStr (ss_host s)); req "port" (jint (ss_port s)); req "user" (JStr (ss_user s));
        opt (str_is_empty (ss_auth_method s)) "auth_method" (JStr (ss_auth_method s));
        opt (str_is_empty (ss_password s)) "password" (JStr (base64_encode (ss_password s)));
        opt (str_is_empty (ss_private_key s)) "private_key" (JStr (base64_encode (ss_private_key s)));
        opt (str_is_empty (ss_private_key_passphrase s)) "private_key_passphrase"
          (JStr (base64_encode (ss_private_key_passphrase s)));
        req "host_fingerprint" (JStr (ss_host_fingerprint s)) ];
  body get :=
    host ← dec_string (get "host"); port ← dec_uint 65535 (get "port"); user ← dec_string (get "user");
    method ← dec_string (get "auth_method"); password ← dec_bytes (get "password");
    key ← dec_bytes (get "private_key"); passphrase ← dec_bytes (get "private_key_passphrase");
    fingerprint ← dec_string (get "host_fingerprint");
    Some {| ss_host := host; ss_port := port; ss_user := user; ss_auth_method := method;
            ss_password := password; ss_private_key := key; ss_private_key_passphrase := passphrase;
            ss_host_fingerprint := fingerprint |};
  struct_ok s :=
    valid_utf8 (ss_host s) = true ∧ (0 ≤ ss_port s ≤ 65535)%Z ∧ valid_utf8 (ss_user s) = true ∧
    valid_utf8 (ss_auth_method s) = true ∧ valid_utf8 (ss_host_fingerprint s) = true;
  levels := 0 |}.
Next Obligation. wire_keys. Qed.
Next Obligation. intros. wire_members; wire_leaf. Qed.
Next Obligation. intros. wire_members; done. Qed.
Next Obligation.
  intros s (? & ? & ? & ? & ?). wire_members; (split; [done|]); first [done | apply base64_encode_valid].
Qed.
Next Obligation.
  intros s (? & ? & ? & ? & ?). wire_get. rewrite dec_uint_one by done.
  rewrite !dec_bytes_omitted. wire_read. by destruct s.
Qed.

(** A nil map of servers is [null]. *)
Record Data := { da_servers : option (gmap string ServerSecret); da_recovery_key : string }.

#[export] Program Instance Data_Struct : Struct Data := {|
  fields := ["servers"; "recovery_key"];
  members_of d :=
    pieces
      [ req "servers" (enc_ptr (λ m, JObj (map_members encode m)) (da_servers d));
        opt (str_is_empty (da_recovery_key d)) "recovery_key" (JStr (base64_encode (da_recovery_key d))) ];
  body get :=
    servers ← dec_map decode (get "servers"); key ← dec_bytes (get "recovery_key");
    Some {| da_servers := servers; da_recovery_key := key |};
  struct_ok d :=
    ∀ m, da_servers d = Some m → map_Forall (λ k s, valid_utf8 k = true ∧ wire_ok s) m;
  levels := 2 |}.
Next Obligation. wire_keys. Qed.
Next Obligation.
  intros. wire_members; [|done]. apply enc_ptr_all; [done|]. intros m _. apply map_members_wf, encode_wf.
Qed.
Next Obligation.
  intros d. wire_members; [|done]. apply enc_ptr_all; [done|]. intros m _.
  apply (map_members_depth _ _ 1); [done|]. intros v. exact (encode_depth v).
Qed.
Next Obligation.
  intros d Hd. wire_members; (split; [done|]); [|apply base64_encode_valid].
  apply enc_ptr_all; [done|]. intros m Hm. apply map_members_valid. intros k v Hkv.
  destruct (Hd m Hm k v Hkv). split; [done|by apply encode_valid].
Qed.
Next Obligation.
  intros d Hd. wire_get. rewrite dec_bytes_omitted.
  rewrite dec_map_one by (intros m Hm k v Hkv; apply decode_encode, (Hd m Hm k v Hkv)).
  by destruct d.
Qed.

(** ** Key derivation *)

Record KDFParams := { kdf_memory_kib : Z; kdf_iterations : Z; kdf_parallelism : Z }.

Definition DefaultKDFParams : KDFParams :=
  {| kdf_memory_kib := 65536; kdf_iterations := 3; kdf_parallelism := 2 |}.

Definition validKDFParams (params : KDFParams) : bool :=
  (minMemoryKiB <=? kdf_memory_kib params)%Z && (kdf_memory_kib params <=? maxMemoryKiB)%Z
  && (minIterations <=? kdf_iterations params)%Z && (kdf_iterations params <=? maxIterations)%Z
  && (minParallelism <=? kdf_parallelism params)%Z && (kdf_parallelism params <=? maxParallelism)%Z.

(** [binary.BigEndian.PutUint32] *)
Definition put_uint32 (v : Z) : string :=
  String (byte_of (Z.shiftr v 24 mod 256)) (String (byte_of (Z.shiftr v 16 mod 256))
    (String (byte_of (Z.shiftr v 8 mod 256)) (String (byte_of (v mod 256)) ""))).

Definition associatedData (params : KDFParams) : string :=
  put_uint32 envelopeVersion +:+ put_uint32 (kdf_memory_kib params)
  +:+ put_uint32 (kdf_iterations params) +:+ String (byte_of (kdf_parallelism params)) "".

(** A parameter set as the Go types hold it. *)
Definition kdf_in_range (p : KDFParams) : Prop :=
  (0 ≤ kdf_memory_kib p < 2 ^ 32)%Z ∧ (0 ≤ kdf_iterations p < 2 ^ 32)%Z ∧ (0 ≤ kdf_parallelism p < 256)%Z.

Definition get_uint32 (s : string) : Z :=
  (byte_at s 0 * 2 ^ 24 + byte_at s 1 * 2 ^ 16 + byte_at s 2 * 2 ^ 8 + byte_at s 3)%Z.

Lemma get_put_uint32 v rest : (0 ≤ v < 2 ^ 32)%Z → get_uint32 (put_uint32 v +:+ rest) = v.
Proof.
  intros Hv. unfold get_uint32, put_uint32, byte_at, str_at. simpl String.append. cbn [String.get].
  rewrite !byte_val_of by (apply Z.mod_pos_bound; lia).
  rewrite !Z.shiftr_div_pow2 by lia.
  assert (2 ^ 8 = 256)%Z as -> by done. assert (2 ^ 16 = 65536)%Z as -> by done.
  assert (2 ^ 24 = 16777216)%Z as -> by done. assert (2 ^ 32 = 4294967296)%Z as H32 by done.
  rewrite H32 in Hv. Z.to_euclidean_division_equations. lia.
Qed.

Lemma put_uint32_inj v w s t :
  (0 ≤ v < 2 ^ 32)%Z → (0 ≤ w < 2 ^ 32)%Z → put_uint32 v +:+ s = put_uint32 w +:+ t → v = w ∧ s = t.
Proof.
  intros Hv Hw Heq. split.
  - rewrite <- (get_put_uint32 v s), <- (get_put_uint32 w t) by done. by rewrite Heq.
  - unfold put_uint32 in Heq. simpl in Heq. by simplify_eq.
Qed.

(** The authenticated data determines the key derivation: two parameter
    sets with the same associated data are equal, so an envelope whose cost
    parameters were edited never authenticates as another one. *)
Theorem associatedData_injective p q :
  kdf_in_range p → kdf_in_range q → associatedData p = associatedData q → p = q.
Proof.
  intros (Hp1 & Hp2 & Hp3) (Hq1 & Hq2 & Hq3) Heq. unfold associatedData in Heq.
  apply put_uint32_inj in Heq as [_ Heq]; [|done..].
  apply put_uint32_inj in Heq as [H1 Heq]; [|done..].
  apply put_uint32_inj in Heq as [H2 Heq]; [|done..].
  injection Heq as Hb. apply (f_equal byte_val) in Hb. rewrite !byte_val_of in Hb by done.
  destruct p, q; simpl in *; congruence.
Qed.

Lemma associatedData_injective_witness :
  kdf_in_range DefaultKDFParams ∧ DefaultKDFParams = DefaultKDFParams.
Proof.
  assert (kdf_in_range DefaultKDFParams) as H.
  { unfold kdf_in_range, DefaultKDFParams. simpl. lia. }
  split; [exact H|]. exact (associatedData_injective _ _ H H eq_refl).
Defined.

Lemma validKDFParams_in_range p : validKDFParams p = true → kdf_in_range p.
Proof.
  unfold validKDFParams, kdf_in_range, minMemoryKiB, maxMemoryKiB, minIterations, maxIterations,
    minParallelism, maxParallelism. intros. bool_hyps. lia.
Qed.

(** ** The envelope *)

Inductive vault_error := ErrInvalidPassword | ErrInvalidEnvelope.

#[export] Instance vault_error_eq_dec : EqDecision vault_error.
Proof. solve_decision. Defined.

Record envelope := {
  ev_version : Z;
  ev_kdf : KDFParams;
  ev_salt : string;
  ev_nonce : string;
  ev_ciphertext : string }.

Definition kdf_json (p : KDFParams) : json :=
  JObj [("memory_kib", jint (kdf_memory_kib p)); ("iterations", jint (kdf_iterations p));
        ("parallelism", jint (kdf_parallelism p))].

Definition envelope_json (e : envelope) : json :=
  JObj [("version", jint (ev_version e)); ("kdf", kdf_json (ev_kdf e)); ("salt", JStr (ev_salt e));
        ("nonce", JStr (ev_nonce e)); ("ciphertext", JStr (ev_ciphertext e))].

(** [decodeExactObject]: every field once, under its exact name, and no other.
    The source reads tokens where the model reads the document first: whatever
    is wrong, and wherever, the answer is the same error. *)
Definition exact_member {T} (fields : list (string * (json → T → option T)))
    (acc : option (T * list string)) (m : string * json) : option (T * list string) :=
  '(target, seen) ← acc;
  decode ← snd <$> List.find (λ f, String.eqb (f.1) (m.1)) fields;
  if bool_decide (m.1 ∈ seen) then None
  else target ← decode (m.2) target; Some (target, m.1 :: seen).

Definition decodeExactObject {T} (fields : list (string * (json → T → option T))) (j : json) (target : T) : option T :=
  match j with
  | JObj ms =>
      '(target, seen) ← foldl (exact_member fields) (Some (target, [])) ms;
      if Nat.eqb (length seen) (length fields) then Some target else None
  | _ => None
  end.

(** [decoder.Decode(&field)] *)
Definition into {T A} (d : dec A) (set : A → T → T) (j : json) (target : T) : option T :=
  a ← d [j]; Some (set a target).

Definition kdf_fields : list (string * (json → envelope → option envelope)) :=
  let set f e := {| ev_version := ev_version e; ev_kdf := f (ev_kdf e); ev_salt := ev_salt e;
                    ev_nonce := ev_nonce e; ev_ciphertext := ev_ciphertext e |} in
  [ ("memory_kib", into (dec_uint 4294967295) (λ v, set (λ k,
       {| kdf_memory_kib := v; kdf_iterations := kdf_iterations k; kdf_parallelism := kdf_parallelism k |})));
    ("iterations", into (dec_uint 4294967295) (λ v, set (λ k,
       {| kdf_memory_kib := kdf_memory_kib k; kdf_iterations := v; kdf_parallelism := kdf_parallelism k |})));
    ("parallelism", into (dec_uint 255) (λ v, set (λ k,
       {| kdf_memory_kib := kdf_memory_kib k; kdf_iterations := kdf_iterations k; kdf_parallelism := v |}))) ].

Definition envelope_fields : list (string * (json → envelope → option envelope)) :=
  [ ("version", into dec_int64 (λ v e,
       {| ev_version := v; ev_kdf := ev_kdf e; ev_salt := ev_salt e; ev_nonce := ev_nonce e; ev_ciphertext := ev_ciphertext e |}));
    ("kdf", decodeExactObject kdf_fields);
    ("salt", into dec_string (λ v e,
       {| ev_version := ev_version e; ev_kdf := ev_kdf e; ev_salt := v; ev_nonce := ev_nonce e; ev_ciphertext := ev_ciphertext e |}));
    ("nonce", into dec_string (λ v e,
       {| ev_version := ev_version e; ev_kdf := ev_kdf e; ev_salt := ev_salt e; ev_nonce := v; ev_ciphertext := ev_ciphertext e |}));
    ("ciphertext", into dec_string (λ v e,
       {| ev_version := ev_version e; ev_kdf := ev_kdf e; ev_salt := ev_salt e; ev_nonce := ev_nonce e; ev_ciphertext := v |})) ].

Definition zero_envelope : envelope :=
  {| ev_version := 0; ev_kdf := {| kdf_memory_kib := 0; kdf_iterations := 0; kdf_parallelism := 0 |};
     ev_salt := ""; ev_nonce := ""; ev_ciphertext := "" |}.

Definition decodeEnvelopeJSON (data : string) : option envelope :=
  j ← read_document data; decodeExactObject envelope_fields j zero_envelope.

Definition decodeStrictJSON {A} (d : dec A) (data : string) : option A := j ← read_document data; d [j].

(** ** Buffers *)

Inductive tag := Plaintext | Salt | Nonce | Key | Ciphertext | Encoded.

#[export] Instance tag_eq_dec : EqDecision tag.
Proof. solve_decision. Defined.

Definition mem : Type := list (tag * string).
Definition vaultM (A : Type) : Type := mem → A * mem.

#[export] Instance vaultM_ret : MRet vaultM := λ A a m, (a, m).
#[export] Instance vaultM_bind : MBind vaultM := λ A B f x m, let '(a, m) := x m in f a m.

Definition alloc (t : tag) (s : string) : vaultM nat := λ m, (length m, m ++ [(t, s)]).
Definition load (i : nat) : vaultM string := λ m, (from_option snd "" (m !! i), m).

Definition zeros (n : Z) : string := String.string_of_list_ascii (replicate (Z.to_nat n) "000"%char).

Definition Zero (i : nat) : vaultM unit := λ m, (tt, alter (λ b : tag * string, (b.1, zeros (slen (b.2)))) i m).

(** [defer Zero(buffer)], before what follows it. *)
Definition defer_zero {A} (i : nat) (body : vaultM A) : vaultM A := a ← body; _ ← Zero i; mret a.

(** ** Cryptography *)

(** The functions of [argon2] and [chacha20poly1305] that the code calls. *)
Record suite := {
  IDKey : string → string → Z → Z → Z → Z → string;
  NewX_ok : string → bool;
  aead_Seal : string → string → string → string → string;
  aead_Open : string → string → string → string → option string;
  NonceSizeX : Z;
  Overhead : Z }.

(** What their packages document: keys have the length asked for, 32-byte keys
    are accepted, sealing adds [Overhead] bytes, and opening accepts exactly
    what sealing with the same key, nonce and associated data gives. *)
Record suite_ok (c : suite) : Prop := {
  so_key p s t m n l : (0 ≤ l)%Z → slen (IDKey c p s t m n l) = l;
  so_new k : slen k = 32%Z → NewX_ok c k = true;
  so_length k n p a : slen (aead_Seal c k n p a) = (slen p + Overhead c)%Z;
  so_open k n p a : slen n = NonceSizeX c → aead_Open c k n (aead_Seal c k n p a) a = Some p;
  so_sealed k n x p a : aead_Open c k n x a = Some p → x = aead_Seal c k n p a;
  so_nonce : (0 ≤ NonceSizeX c)%Z;
  so_overhead : (0 ≤ Overhead c)%Z }.

(** [io.ReadFull(rand.Reader, buffer)]: the bytes read, and whether they fill
    the buffer. *)
Record read_full := { rf_bytes : string; rf_full : bool }.

Definition filled (r : read_full) (size : Z) : Prop := rf_full r = true → slen (rf_bytes r) = size.

(** [base64.StdEncoding.EncodedLen] *)
Definition EncodedLen (n : Z) : Z := ((n + 2) / 3 * 4)%Z.

Section crypto.
Context (c : suite).

Definition envelopeFits (plaintext : string) (params : KDFParams) : bool :=
  if (MaxEnvelopeBytes <? slen plaintext)%Z then false
  else
    let ciphertextSize := (slen plaintext + Overhead c)%Z in
    let encodedCiphertextSize := EncodedLen ciphertextSize in
    let fixed := print (envelope_json {| ev_version := envelopeVersion; ev_kdf := params;
                   ev_salt := base64_encode (zeros saltSize); ev_nonce := base64_encode (zeros (NonceSizeX c));
                   ev_ciphertext := "" |}) in
    if (MaxEnvelopeBytes <? slen fixed)%Z then false
    else (encodedCiphertextSize <=? MaxEnvelopeBytes - slen fixed)%Z.

Definition Seal (salt_read nonce_read : read_full) (master : string) (data : Data) (params : KDFParams)
  : vaultM (result vault_error string) :=
  if (slen master =? 0)%Z then mret (Fail ErrInvalidPassword)
  else if negb (validKDFParams params) then mret (Fail ErrInvalidEnvelope)
  else
    plaintext ← alloc Plaintext (print (encode data));
    defer_zero plaintext (
    p ← load plaintext;
    if negb (envelopeFits p params) then mret (Fail ErrInvalidEnvelope)
    else
    salt ← alloc Salt (rf_bytes salt_read);
    if negb (rf_full salt_read) then mret (Fail ErrInvalidEnvelope)
    else defer_zero salt (
    nonce ← alloc Nonce (rf_bytes nonce_read);
    if negb (rf_full nonce_read) then mret (Fail ErrInvalidEnvelope)
    else defer_zero nonce (
    s ← load salt;
    key ← alloc Key (IDKey c master s (kdf_iterations params) (kdf_memory_kib params) (kdf_parallelism params) keySize);
    defer_zero key (
    k ← load key;
    if negb (NewX_ok c k) then mret (Fail ErrInvalidEnvelope)
    else
    n ← load nonce;
    p ← load plaintext;
    ciphertext ← alloc Ciphertext (aead_Seal c k n p (associatedData params));
    defer_zero ciphertext (
    s ← load salt;
    n ← load nonce;
    x ← load ciphertext;
    encoded ← alloc Encoded (print (envelope_json {| ev_version := envelopeVersion; ev_kdf := params;
                 ev_salt := base64_encode s; ev_nonce := base64_encode n; ev_ciphertext := base64_encode x |}));
    e ← load encoded;
    if (MaxEnvelopeBytes <? slen e)%Z then _ ← Zero encoded; mret (Fail ErrInvalidEnvelope)
    else mret (Ok e)))))).

Definition Open (master encoded : string) : vaultM (result vault_error Data) :=
  if (slen encoded =? 0)%Z || (MaxEnvelopeBytes <? slen encoded)%Z then mret (Fail ErrInvalidEnvelope)
  else if (slen master =? 0)%Z then mret (Fail ErrInvalidPassword)
  else match decodeEnvelopeJSON encoded with
  | None => mret (Fail ErrInvalidEnvelope)
  | Some sealed =>
      let params := ev_kdf sealed in
      if negb (ev_version sealed =? envelopeVersion)%Z || negb (validKDFParams params)
      then mret (Fail ErrInvalidEnvelope)
      else match base64_decode (ev_salt sealed) with
      | None => mret (Fail ErrInvalidEnvelope)
      | Some s =>
          salt ← alloc Salt s;
          if negb (slen s =? saltSize)%Z then mret (Fail ErrInvalidEnvelope)
          else defer_zero salt
          match base64_decode (ev_nonce sealed) with
          | None => mret (Fail ErrInvalidEnvelope)
          | Some n =>
              nonce ← alloc Nonce n;
              if negb (slen n =? NonceSizeX c)%Z then mret (Fail ErrInvalidEnvelope)
              else defer_zero nonce
              match base64_decode (ev_ciphertext sealed) with
              | None => mret (Fail ErrInvalidEnvelope)
              | Some x =>
                  ciphertext ← alloc Ciphertext x;
                  if (slen x <? Overhead c)%Z then mret (Fail ErrInvalidEnvelope)
                  else defer_zero ciphertext (
                  s ← load salt;
                  key ← alloc Key (IDKey c master s (kdf_iterations params) (kdf_memory_kib params)
                                     (kdf_parallelism params) keySize);
                  defer_zero key (
                  k ← load key;
                  if negb (NewX_ok c k) then mret (Fail ErrInvalidEnvelope)
                  else
                  n ← load nonce;
                  x ← load ciphertext;
                  match aead_Open c k n x (associatedData params) with
                  | None => mret (Fail ErrInvalidPassword)
                  | Some p =>
                      plaintext ← alloc Plaintext p;
                      defer_zero plaintext (
                      p ← load plaintext;
                      mret (match decodeStrictJSON decode p with
                            | None => Fail ErrInvalidEnvelope
                            | Some data => Ok data
                            end))
                  end))
              end
          end
      end
  end.
End crypto.

(** ** Sizes *)

Lemma quote_base64 s : quote (base64_encode s) = String dq (base64_encode s +:+ String dq "").
Proof.
  apply quote_plain, base64_encode_all; [done|]. intros v Hv. unfold plain, sextet_char.
  rewrite byte_val_of by (repeat case_match; bool_hyps; lia). cbn [existsb].
  repeat case_match; bool_hyps;
    repeat match goal with |- context [(?x =? ?k)%Z] => rewrite (proj2 (Z.eqb_neq x k)) by lia end;
    by rewrite (proj2 (Z.leb_le _ _)), (proj2 (Z.ltb_lt _ _)) by lia.
Qed.

Lemma slen_quote_base64 s : slen (quote (base64_encode s)) = (2 + EncodedLen (slen s))%Z.
Proof.
  rewrite quote_base64. unfold EncodedLen. rewrite <-base64_encode_length. unfold slen. cbn [String.length].
  rewrite str_length_app. simpl. lia.
Qed.

Lemma slen_cons a s : slen (String a s) = (1 + slen s)%Z.
Proof. unfold slen. cbn [String.length]. lia. Qed.

(** The length of an envelope depends on the lengths of its parts only. *)
Lemma envelope_slen p s n x :
  slen (print (envelope_json {| ev_version := envelopeVersion; ev_kdf := p; ev_salt := base64_encode s;
                                ev_nonce := base64_encode n; ev_ciphertext := base64_encode x |}))
  = (57 + slen (print (kdf_json p)) + EncodedLen (slen s) + EncodedLen (slen n) + EncodedLen (slen x))%Z.
Proof.
  unfold envelope_json. rewrite print_obj. cbn [fmap list_fmap].
  rewrite !str_join_cons. cbn [str_join]. unfold print_member.
  cbn [fst snd ev_version ev_kdf ev_salt ev_nonce ev_ciphertext].
  change (print (JStr ?t)) with (quote t). rewrite !slen_app, !slen_quote_base64.
  set (k := slen (print (kdf_json p))). 
  change (slen (quote "version")) with 9%Z. change (slen (quote "kdf")) with 5%Z.
  change (slen (quote "salt")) with 6%Z. change (slen (quote "nonce")) with 7%Z.
  change (slen (quote "ciphertext")) with 12%Z.
  change (slen (print (jint envelopeVersion))) with 1%Z.
  change (slen ",") with 1%Z. change (slen ":") with 1%Z. change (slen "{") with 1%Z. change (slen "}") with 1%Z.
  lia.
Qed.

Lemma slen_zeros n : (0 ≤ n)%Z → slen (zeros n) = n.
Proof.
  intros Hn. unfold zeros, slen. enough (∀ k, String.length (String.string_of_list_ascii (replicate k "000"%char)) = k) as ->; [lia|].
  induction k as [|k IH]; simpl; [done|by rewrite IH].
Qed.

Lemma EncodedLen_ge n : (0 ≤ n)%Z → (n ≤ EncodedLen n)%Z.
Proof. unfold EncodedLen. intros. Z.to_euclidean_division_equations. lia. Qed.

(** The value of a call, buffer by buffer; the local heap starts empty, so
    that every address is a number. *)
Lemma alloc_value {A} t s (f : nat → vaultM A) m : (alloc t s ≫= f) m = f (length m) (m ++ [(t, s)]).
Proof. done. Qed.

Lemma load_value {A} i (f : string → vaultM A) m : (load i ≫= f) m = f (from_option snd "" (m !! i)) m.
Proof. done. Qed.

Lemma defer_value {A} i (body : vaultM A) m :
  fst (defer_zero i body m) = fst (body m).
Proof. unfold defer_zero, mbind, vaultM_bind. by destruct (body m). Qed.

Ltac vault_step :=
  first [rewrite alloc_value | rewrite load_value | rewrite defer_value];
  cbn [app length lookup list_lookup from_option snd].

Section crypto.
Context (c : suite) (Hc : suite_ok c).

(** The envelope of a sealed vault. *)
Definition sealed_envelope (master s n p : string) (params : KDFParams) : envelope := {|
  ev_version := envelopeVersion; ev_kdf := params; ev_salt := base64_encode s; ev_nonce := base64_encode n;
  ev_ciphertext := base64_encode (aead_Seal c
    (IDKey c master s (kdf_iterations params) (kdf_memory_kib params) (kdf_parallelism params) keySize)
    n p (associatedData params)) |}.

(** The test before sealing is exact: it never refuses a vault that would
    fit, and the test after it never fails. *)
Lemma envelopeFits_exact master s n p params :
  slen s = saltSize → slen n = NonceSizeX c →
  envelopeFits c p params = (slen (print (envelope_json (sealed_envelope master s n p params))) <=? MaxEnvelopeBytes)%Z.
Proof.
  intros Hs Hn. unfold envelopeFits, sealed_envelope. cbv zeta.
  pose proof (envelope_slen params (zeros saltSize) (zeros (NonceSizeX c)) "") as Hf. cbn [base64_encode] in Hf.
  rewrite Hf, envelope_slen, (so_length c Hc), Hs, Hn.
  rewrite !slen_zeros by (apply (so_nonce c Hc) || done). change (EncodedLen (slen "")) with 0%Z.
  pose proof (slen_nonneg p). pose proof (so_overhead c Hc). pose proof (slen_nonneg (print (kdf_json params))).
  pose proof (EncodedLen_ge (slen p + Overhead c) ltac:(lia)). pose proof (so_nonce c Hc).
  pose proof (EncodedLen_ge (NonceSizeX c) ltac:(lia)). assert (0 ≤ EncodedLen saltSize)%Z by done.
  destruct (MaxEnvelopeBytes <? slen p)%Z eqn:Hbig; bool_hyps; [symmetry; apply Z.leb_gt; lia|].
  destruct (MaxEnvelopeBytes <? _)%Z eqn:Hfix; bool_hyps; [symmetry; apply Z.leb_gt; lia|].
  apply eq_iff_eq_true. rewrite !Z.leb_le. lia.
Qed.

Lemma exact_member_step {T} fields (target : T) seen k v decode t' :
  List.find (λ f, String.eqb (fst f) k) fields = Some (k, decode) → bool_decide (k ∈ seen) = false →
  decode v target = Some t' → exact_member fields (Some (target, seen)) (k, v) = Some (t', k :: seen).
Proof. intros Hf Hs Hd. unfold exact_member. cbn [mbind option_bind fst snd]. rewrite Hf. simpl. by rewrite Hs, Hd. Qed.

Lemma into_value {T A} (d : dec A) (set : A → T → T) j a target :
  d [j] = Some a → into d set j target = Some (set a target).
Proof. unfold into. by intros ->. Qed.

Lemma decode_kdf mem iter par e :
  kdf_in_range {| kdf_memory_kib := mem; kdf_iterations := iter; kdf_parallelism := par |} →
  decodeExactObject kdf_fields (kdf_json {| kdf_memory_kib := mem; kdf_iterations := iter; kdf_parallelism := par |}) e
  = Some {| ev_version := ev_version e; ev_kdf := {| kdf_memory_kib := mem; kdf_iterations := iter; kdf_parallelism := par |};
            ev_salt := ev_salt e; ev_nonce := ev_nonce e; ev_ciphertext := ev_ciphertext e |}.
Proof.
  unfold kdf_in_range. cbn [kdf_memory_kib kdf_iterations kdf_parallelism].
  change (2 ^ 32)%Z with 4294967296%Z. intros (Hm & Hi & Hp). unfold decodeExactObject, kdf_json. cbn [foldl].
  rewrite (exact_member_step kdf_fields _ [] "memory_kib" _ _ _ eq_refl eq_refl
    (into_value _ _ _ _ _ (dec_uint_one mem 4294967295 ltac:(lia)))).
  rewrite (exact_member_step kdf_fields _ ["memory_kib"] "iterations" _ _ _ eq_refl eq_refl
    (into_value _ _ _ _ _ (dec_uint_one iter 4294967295 ltac:(lia)))).
  by rewrite (exact_member_step kdf_fields _ ["iterations"; "memory_kib"] "parallelism" _ _ _ eq_refl eq_refl
    (into_value _ _ _ _ _ (dec_uint_one par 255 ltac:(lia)))).
Qed.

Lemma decode_sealed master s n p params :
  validKDFParams params = true →
  decodeEnvelopeJSON (print (envelope_json (sealed_envelope master s n p params)))
  = Some (sealed_envelope master s n p params).
Proof.
  intros Hp. unfold decodeEnvelopeJSON.
  rewrite read_document_print; [|by repeat constructor; eexists|vm_compute; discriminate].
  rewrite json_sane_valid by (by repeat constructor; try apply base64_encode_valid).
  apply validKDFParams_in_range in Hp. cbn [mbind option_bind]. destruct params as [mem iter par].
  unfold envelope_json, kdf_json, sealed_envelope. cbn [ev_version ev_kdf ev_salt ev_nonce ev_ciphertext
    kdf_memory_kib kdf_iterations kdf_parallelism].
  set (x := base64_encode _). set (y := base64_encode _). set (z := base64_encode _).
  unfold decodeExactObject at 1. cbn [foldl].
  rewrite (exact_member_step envelope_fields _ [] "version" _ _ _ eq_refl eq_refl
    (into_value _ _ _ _ _ (dec_int64_one 1 ltac:(done)))).
  rewrite (exact_member_step envelope_fields _ ["version"] "kdf" _ _ _ eq_refl eq_refl (decode_kdf mem iter par _ Hp)).
  rewrite (exact_member_step envelope_fields _ ["kdf"; "version"] "salt" _ _ _ eq_refl eq_refl
    (into_value _ _ _ _ _ (dec_string_one x))).
  rewrite (exact_member_step envelope_fields _ ["salt"; "kdf"; "version"] "nonce" _ _ _ eq_refl eq_refl
    (into_value _ _ _ _ _ (dec_string_one y))).
  by rewrite (exact_member_step envelope_fields _ ["nonce"; "salt"; "kdf"; "version"] "ciphertext" _ _ _ eq_refl eq_refl
    (into_value _ _ _ _ _ (dec_string_one z))).
Qed.

(** ** What is sealed opens *)

Lemma Seal_value salt_read nonce_read master data params :
  rf_full salt_read = true → rf_full nonce_read = true →
  filled salt_read saltSize → filled nonce_read (NonceSizeX c) →
  fst (Seal c salt_read nonce_read master data params []) =
  if (slen master =? 0)%Z then Fail ErrInvalidPassword
  else if negb (validKDFParams params) then Fail ErrInvalidEnvelope
  else
    let text := print (envelope_json
      (sealed_envelope master (rf_bytes salt_read) (rf_bytes nonce_read) (print (encode data)) params)) in
    if (slen text <=? MaxEnvelopeBytes)%Z then Ok text else Fail ErrInvalidEnvelope.
Proof.
  intros Hs Hn Hfs Hfn. unfold Seal. destruct (slen master =? 0)%Z; [done|].
  destruct (validKDFParams params); [|done]. cbn [negb].
  pose proof (envelopeFits_exact master (rf_bytes salt_read) (rf_bytes nonce_read) (print (encode data)) params
                (Hfs Hs) (Hfn Hn)) as He.
  cbv zeta. set (text := print (envelope_json _)) in *. set (p := print (encode data)) in *.
  repeat vault_step. rewrite He. destruct (slen text <=? MaxEnvelopeBytes)%Z eqn:Hfit; [|done]. cbn [negb].
  vault_step. rewrite Hs. cbn [negb]. repeat vault_step. rewrite Hn. cbn [negb]. repeat vault_step.
  rewrite (so_new c Hc) by by apply (so_key c Hc). cbn [negb]. repeat vault_step.
  fold (sealed_envelope master (rf_bytes salt_read) (rf_bytes nonce_read) p params). fold text.
  rewrite (proj2 (Z.ltb_ge _ _)) by by apply Z.leb_le. done.
Qed.

Lemma Seal_opens salt_read nonce_read master data params :
  wire_ok data →
  rf_full salt_read = true → rf_full nonce_read = true →
  filled salt_read saltSize → filled nonce_read (NonceSizeX c) →
  match fst (Seal c salt_read nonce_read master data params []) with
  | Ok encoded =>
      fst (Open c master encoded []) = Ok data ∧ (slen encoded ≤ MaxEnvelopeBytes)%Z ∧
      master ≠ "" ∧ validKDFParams params = true
  | Fail ErrInvalidPassword => master = ""
  | Fail ErrInvalidEnvelope => validKDFParams params = false ∨ envelopeFits c (print (encode data)) params = false
  end.
Proof.
  intros Hd Hs Hn Hfs Hfn. rewrite Seal_value by done.
  destruct (slen master =? 0)%Z eqn:Hm; bool_hyps; [by apply slen_empty|].
  destruct (validKDFParams params) eqn:Hp; [|by left]. cbn [negb]. cbv zeta.
  rewrite <-envelopeFits_exact by auto.
  destruct (envelopeFits _ _ _) eqn:Hf; [|by right].
  rewrite (envelopeFits_exact master (rf_bytes salt_read) (rf_bytes nonce_read)) in Hf by auto. apply Z.leb_le in Hf.
  split; [|split; [done|split; [by intros ->|done]]].
  pose proof (decode_sealed master (rf_bytes salt_read) (rf_bytes nonce_read) (print (encode data)) params Hp) as Hdec.
  set (text := print (envelope_json _)) in *.
  assert (slen text =? 0 = false)%Z as Hne.
  { apply Z.eqb_neq. unfold text, envelope_json. rewrite print_obj. rewrite slen_app. change (slen "{") with 1%Z.
    match goal with |- (1 + slen ?x ≠ 0)%Z => pose proof (slen_nonneg x) end. lia. }
  unfold Open. rewrite Hne, (proj2 (Z.ltb_ge _ _)), (proj2 (Z.eqb_neq _ _) Hm), Hdec by done. cbn [orb].
  unfold sealed_envelope. cbn [ev_version ev_kdf ev_salt ev_nonce ev_ciphertext].
  rewrite Z.eqb_refl, Hp, !base64_roundtrip. cbn [negb orb].
  vault_step. rewrite (Hfs Hs), Z.eqb_refl. cbn [negb]. repeat vault_step.
  rewrite (Hfn Hn), Z.eqb_refl. cbn [negb]. repeat vault_step.
  rewrite (so_length c Hc), (proj2 (Z.ltb_ge _ _)) by (pose proof (slen_nonneg (print (encode data))); lia).
  repeat vault_step. rewrite (so_new c Hc) by by apply (so_key c Hc). cbn [negb]. repeat vault_step.
  rewrite (so_open c Hc) by auto. repeat vault_step.
  match goal with |- fst (mret ?x _) = _ => change (x = Ok data) end.
  unfold decodeStrictJSON. rewrite read_document_print; [|apply encode_wf|].
  2: { pose proof (encode_depth data). assert (depth (A := Data) < maxNestingDepth)%Z by done. lia. }
  rewrite json_sane_valid by by apply encode_valid. cbn [mbind option_bind]. by rewrite decode_encode.
Qed.

(** C27: What is sealed opens again: whatever the random salt and nonce, a vault
    that [Seal] seals under a master password opens under it with the very
    servers and the very recovery key, and its envelope is within the size
    limit, as [Open] requires; [Seal] refuses only an empty password, key
    derivation parameters out of bounds, and a vault too large for the limit,
    which its test finds before deriving any key.  The texts of the vault are
    those that JSON keeps: UTF-8, with numbers in their range. *)
Theorem Seal_Open salt_read nonce_read master data params :
  wire_ok data →
  rf_full salt_read = true → rf_full nonce_read = true →
  filled salt_read saltSize → filled nonce_read (NonceSizeX c) →
  match fst (Seal c salt_read nonce_read master data params []) with
  | Ok encoded =>
      fst (Open c master encoded []) = Ok data ∧ (slen encoded ≤ MaxEnvelopeBytes)%Z ∧
      master ≠ "" ∧ validKDFParams params = true
  | Fail ErrInvalidPassword => master = ""
  | Fail ErrInvalidEnvelope => validKDFParams params = false ∨ envelopeFits c (print (encode data)) params = false
  end.
Proof. apply Seal_opens. Qed.
End crypto.

Lemma Open_size c master encoded data :
  fst (Open c master encoded []) = Ok data → (0 < slen encoded ≤ MaxEnvelopeBytes)%Z.
Proof.
  unfold Open. destruct (_ || _) eqn:Hlen; [done|]. bool_hyps. intros _. pose proof (slen_nonneg encoded). lia.
Qed.

(** ** What is wiped *)

Definition wiped (b : tag * string) : Prop := b.2 = zeros (slen (b.2)).

Definition zero_buffer (b : tag * string) : tag * string := (b.1, zeros (slen (b.2))).

Lemma zero_buffer_wiped b : wiped (zero_buffer b).
Proof. unfold wiped, zero_buffer. cbn [snd]. by rewrite slen_zeros by apply slen_nonneg. Qed.

Lemma defer_run {A} i (body : vaultM A) m :
  defer_zero i body m = (fst (body m), alter zero_buffer i (snd (body m))).
Proof. unfold defer_zero, mbind, vaultM_bind. by destruct (body m). Qed.

(** What a call may leave in its buffers: [keep b] says that [b] need not be
    wiped. *)
Definition leaves {A} (r : A * mem) (keep : A → tag * string → Prop) : Prop :=
  Forall (λ b, wiped b ∨ keep (fst r) b) (snd r).

Ltac vault_run :=
  first [rewrite alloc_value | rewrite load_value | rewrite defer_run];
  cbn [app length lookup list_lookup from_option fst snd].

Lemma zero_run {A} i (f : unit → vaultM A) m : (Zero i ≫= f) m = f tt (alter zero_buffer i m).
Proof. done. Qed.

Ltac vault_forall :=
  lazymatch goal with
  | |- Forall _ [] => apply Forall_nil_2
  | |- Forall _ (_ :: _) =>
      apply Forall_cons_2; [first [left; apply zero_buffer_wiped | right; naive_solver]|vault_forall]
  end.

Ltac vault_leaves :=
  unfold leaves; rewrite ?zero_run; cbn [mret vaultM_ret fst snd alter list_alter]; vault_forall.

(** C28: No secret stays in memory: on every path, errors included, the
    plaintext and the key that [Seal] and [Open] allocate are overwritten with
    zeros before they return; and when they succeed nothing but the encoded
    envelope is left. *)
Theorem secrets_wiped c salt_read nonce_read master data params encoded :
  leaves (Seal c salt_read nonce_read master data params [])
    (λ r b, (b.1 = Salt ∧ rf_full salt_read = false) ∨ (b.1 = Nonce ∧ rf_full nonce_read = false) ∨
            (b.1 = Encoded ∧ r = Ok (b.2))) ∧
  leaves (Open c master encoded [])
    (λ r b, (b.1 = Salt ∨ b.1 = Nonce ∨ b.1 = Ciphertext) ∧ r = Fail ErrInvalidEnvelope).
Proof.
  split.
  - unfold Seal. destruct (slen master =? 0)%Z; [vault_leaves|]. destruct (validKDFParams params); cbn [negb]; [|vault_leaves].
    repeat vault_run. destruct (envelopeFits _ _ _); cbn [negb]; [|vault_leaves].
    repeat vault_run. destruct (rf_full salt_read) eqn:?; cbn [negb]; [|vault_leaves].
    repeat vault_run. destruct (rf_full nonce_read) eqn:?; cbn [negb]; [|vault_leaves].
    repeat vault_run. destruct (NewX_ok _ _); cbn [negb]; [|vault_leaves].
    repeat vault_run. destruct (_ <? _)%Z; vault_leaves.
  - unfold Open. destruct (_ || _); [vault_leaves|]. destruct (slen master =? 0)%Z; [vault_leaves|].
    destruct (decodeEnvelopeJSON encoded) as [e|]; [|vault_leaves].
    destruct (_ || _); [vault_leaves|]. destruct (base64_decode (ev_salt e)) as [s|]; [|vault_leaves].
    vault_run. destruct (_ =? _)%Z; cbn [negb]; [|vault_leaves].
    repeat vault_run. destruct (base64_decode (ev_nonce e)) as [n|]; [|vault_leaves].
    vault_run. destruct (_ =? _)%Z; cbn [negb]; [|vault_leaves].
    repeat vault_run. destruct (base64_decode (ev_ciphertext e)) as [x|]; [|vault_leaves].
    vault_run. destruct (_ <? _)%Z; [vault_leaves|].
    repeat vault_run. destruct (NewX_ok _ _); cbn [negb]; [|vault_leaves].
    repeat vault_run. destruct (aead_Open _ _ _ _ _); [|vault_leaves].
    repeat vault_run. vault_leaves.
Qed.

(** ** What opens was sealed *)

(** Whatever opens was sealed under that password: an envelope that [Open]
    accepts is within the size limit, states key derivation parameters within
    their bounds, so that no envelope makes the derivation cost more than the
    bounds allow, and holds exactly what sealing some plaintext gives under the
    key that password, salt and parameters derive, with those parameters
    authenticated; the data returned is that plaintext, decoded strictly. *)
Theorem Open_authentic c master encoded data :
  suite_ok c →
  fst (Open c master encoded []) = Ok data →
  ∃ e salt nonce plaintext,
    master ≠ "" ∧ (0 < slen encoded ≤ MaxEnvelopeBytes)%Z ∧
    decodeEnvelopeJSON encoded = Some e ∧ ev_version e = envelopeVersion ∧ validKDFParams (ev_kdf e) = true ∧
    base64_decode (ev_salt e) = Some salt ∧ slen salt = saltSize ∧
    base64_decode (ev_nonce e) = Some nonce ∧ slen nonce = NonceSizeX c ∧
    base64_decode (ev_ciphertext e) = Some (aead_Seal c
      (IDKey c master salt (kdf_iterations (ev_kdf e)) (kdf_memory_kib (ev_kdf e)) (kdf_parallelism (ev_kdf e)) keySize)
      nonce plaintext (associatedData (ev_kdf e))) ∧
    decodeStrictJSON decode plaintext = Some data.
Proof.
  intros Hc. unfold Open. destruct (_ || _) eqn:Hlen; [done|]. bool_hyps. pose proof (slen_nonneg encoded).
  destruct (slen master =? 0)%Z eqn:Hm; [done|]. bool_hyps.
  destruct (decodeEnvelopeJSON encoded) as [e|] eqn:He; [|done].
  destruct (_ || _) eqn:Hv; [done|]. bool_hyps.
  destruct (base64_decode (ev_salt e)) as [s|] eqn:Hbs; [|done].
  vault_step. destruct (slen s =? saltSize)%Z eqn:Hs; cbn [negb]; [|done]. bool_hyps. repeat vault_step.
  destruct (base64_decode (ev_nonce e)) as [n|] eqn:Hbn; [|done].
  vault_step. destruct (slen n =? NonceSizeX c)%Z eqn:Hn; cbn [negb]; [|done]. bool_hyps. repeat vault_step.
  destruct (base64_decode (ev_ciphertext e)) as [x|] eqn:Hbx; [|done].
  vault_step. destruct (_ <? _)%Z; [done|]. repeat vault_step.
  destruct (NewX_ok _ _); cbn [negb]; [|done]. repeat vault_step.
  destruct (aead_Open _ _ _ _ _) as [p|] eqn:Ho; [|done]. apply (so_sealed c Hc) in Ho. repeat vault_step.
  cbn [mret vaultM_ret fst]. destruct (decodeStrictJSON decode p) as [d|] eqn:Hd; [|done]. intros [= ->].
  exists e, s, n, p. subst x. split_and!; try done; try lia. by intros ->.
Qed.

(** ** A toy suite *)

Definition toy_tag : string := "sixteen byte tag".

Definition toy_suite : suite := {|
  IDKey := λ p s t m n l, zeros l;
  NewX_ok := λ k, (slen k =? 32)%Z;
  aead_Seal := λ k n p a, p +:+ toy_tag;
  aead_Open := λ k n x a, if has_suffix x toy_tag then Some (str_take (String.length x - 16) x) else None;
  NonceSizeX := 24;
  Overhead := 16 |}.

Lemma toy_suite_ok : suite_ok toy_suite.
Proof.
  split; cbn [IDKey NewX_ok aead_Seal aead_Open NonceSizeX Overhead toy_suite]; try done.
  - intros. by apply slen_zeros.
  - intros k ->. done.
  - intros. by rewrite slen_app.
  - intros k n p a _. rewrite (proj2 (has_suffix_spec _ _)) by by exists p. f_equal.
    rewrite str_length_app. change (String.length toy_tag) with 16%nat.
    replace (String.length p + 16 - 16)%nat with (String.length p) by lia. apply str_take_app.
  - intros k n x p a. destruct (has_suffix x toy_tag) eqn:Hx; [|done]. apply has_suffix_spec in Hx as [t ->].
    intros [= <-]. rewrite str_length_app. change (String.length toy_tag) with 16%nat.
    replace (String.length t + 16 - 16)%nat with (String.length t) by lia. by rewrite str_take_app.
Qed.

Definition sample_data : Data := {|
  da_servers := Some {[ "web" := {| ss_host := "10.0.0.1"; ss_port := 22; ss_user := "root"; ss_auth_method := "password";
    ss_password := "secret"; ss_private_key := ""; ss_private_key_passphrase := ""; ss_host_fingerprint := "SHA256:x" |} ]};
  da_recovery_key := "" |}.

Definition sample_random (n : Z) : read_full := {| rf_bytes := zeros n; rf_full := true |}.

Definition sample_sealed : result vault_error string :=
  fst (Seal toy_suite (sample_random 16) (sample_random 24) "master" sample_data DefaultKDFParams []).

Lemma sample_data_ok : wire_ok sample_data.
Proof. intros m [= <-]. by apply map_Forall_singleton. Qed.

Lemma sample_sealed_ok : ∃ encoded, sample_sealed = Ok encoded.
Proof. eexists. vm_compute. reflexivity. Qed.

Lemma sample_opens : ∃ encoded, fst (Open toy_suite "master" encoded []) = Ok sample_data.
Proof.
  exists (match sample_sealed with Ok encoded => encoded | Fail _ => "" end). vm_compute. reflexivity.
Qed.

Lemma Seal_Open_witness :
  ∃ encoded, sample_sealed = Ok encoded ∧ fst (Open toy_suite "master" encoded []) = Ok sample_data.
Proof.
  destruct sample_sealed_ok as [encoded He]. exists encoded. split; [exact He|].
  pose proof (Seal_Open toy_suite toy_suite_ok (sample_random 16) (sample_random 24) "master" sample_data
    DefaultKDFParams sample_data_ok eq_refl eq_refl (λ _, eq_refl) (λ _, eq_refl)) as H.
  unfold sample_sealed in He. rewrite He in H. exact (proj1 H).
Defined.

Lemma Open_authentic_witness :
  ∃ encoded e, decodeEnvelopeJSON encoded = Some e ∧ validKDFParams (ev_kdf e) = true.
Proof.
  destruct sample_opens as [encoded Ho].
  destruct (Open_authentic toy_suite "master" encoded sample_data toy_suite_ok Ho) as (e & s & n & p & H).
  exists encoded, e. destruct H as (_ & _ & Hd & _ & Hp & _). split; [exact Hd|exact Hp].
Defined.
