(* ===== verification/VaultStore.v ===== *)
(** * The vault's file: [internal/vault/store.go]

    [Initialize], [Load] and [Save] as programs over the calls they make on the
    vault's directory, any of which may fail, and which may stop anywhere.  The
    directory remembers what a crash may undo: file contents that were not
    synced, and entries changed since the directory was last synced.

    The results: wherever [Save] stops, the vault that [Load] finds after the
    crash is the old one or the new one, whole; a [Save] that reports success
    is durable; [Initialize] never replaces a vault, and undoes itself when it
    cannot make its own durable; no temporary file is left behind unless its
    removal failed. *)

From S2P Require Import Prelude GoStr Prog Json Wire Vault.
Open Scope string_scope.
Open Scope list_scope.

(** ** The directory *)

(** The vault's path, and the names [os.CreateTemp] makes up. *)
Inductive vname := Final | Temp (i : nat).

#[export] Instance vname_eq_dec : EqDecision vname.
Proof. solve_decision. Defined.

#[export] Instance vname_countable : Countable vname.
Proof.
  refine (inj_countable (λ n, match n with Final => O | Temp i => S i end)
            (λ c, Some (match c with O => Final | S i => Temp i end)) _). by intros [].
Defined.

(** [f_private]: regular, mode 0600, ours. *)
Record file := File { f_data : string; f_synced : bool; f_private : bool }.

(** [d_past]: the directories since the last sync, which a crash may restore
    entry by entry.  [d_faults]: how many calls failed that could have
    succeeded.  [d_foreign]: the vault another process made. *)
Record disk := Disk {
  d_dir : gmap vname nat;
  d_past : list (gmap vname nat);
  d_files : gmap nat file;
  d_faults : nat;
  d_foreign : option nat }.

Definition fault (d : disk) : disk := Disk (d_dir d) (d_past d) (d_files d) (S (d_faults d)) (d_foreign d).

(** A change of the directory, not yet durable. *)
Definition with_dir (d : disk) (m : gmap vname nat) : disk := 
  Disk m (d_dir d :: d_past d) (d_files d) (d_faults d) (d_foreign d).

Definition with_file (d : disk) (x : nat) (f : file) : disk :=
  Disk (d_dir d) (d_past d) (<[x := f]> (d_files d)) (d_faults d) (d_foreign d).

(** The file a name is after a crash. *)
Definition may_be (d : disk) (n : vname) (b : option nat) : Prop :=
  b = d_dir d !! n ∨ ∃ m, m ∈ d_past d ∧ b = m !! n.

Record crash (d d' : disk) : Prop := {
  cr_dir n : may_be d n (d_dir d' !! n);
  cr_files x f : d_files d !! x = Some f → f_synced f = true → d_files d' !! x = Some f;
  cr_past : d_past d' = [] }.

(** ** Calls *)

(** What [Lstat] and [Stat] tell. *)
Record info := { in_file : nat; in_regular : bool; in_symlink : bool; in_perm : Z; in_owner : bool; in_size : Z }.

Inductive stat_answer := StatErr | StatNone | StatInfo (i : info).
Inductive link_answer := LinkOk | LinkExist (foreign : nat) | LinkErr.
Inductive remove_answer := RemoveOk | RemoveNotExist | RemoveErr.

Inductive fs_op : Type → Type :=
| Lstat (n : vname) : fs_op stat_answer
| CreateTemp : fs_op (option (vname * nat))
| Chmod (x : nat) : fs_op bool
| Write (x : nat) (data : string) : fs_op (Z * bool)
| Sync (x : nat) : fs_op bool
| Close (x : nat) : fs_op bool
| Link (a b : vname) : fs_op link_answer
| Rename (a b : vname) : fs_op bool
| Remove (a : vname) : fs_op remove_answer
| OpenDir : fs_op bool
| SyncDir : fs_op bool
| CloseDir : fs_op bool
| OpenRead : fs_op (option nat)
| Stat (x : nat) : fs_op (option info)
| ReadAll (x : nat) (limit : option Z) : fs_op (option string)
| WriteAtomic (data : string) : fs_op bool.

Inductive store_error :=
| ErrUnsafePath | ErrUnsafePermissions | ErrUnsafeOwner | ErrAlreadyInitialized
| Crypto (e : vault_error)
| Wrapped (context : string).

#[export] Instance store_error_eq_dec : EqDecision store_error.
Proof. solve_decision. Defined.

Definition validatePrivateFile (i : info) : option store_error :=
  if negb (in_regular i) then Some ErrUnsafePath
  else if negb (in_perm i =? 384)%Z then Some ErrUnsafePermissions
  else if negb (in_owner i) then Some ErrUnsafeOwner
  else None.

Definition info_of (f : file) (i : info) : Prop :=
  (f_private f = true → validatePrivateFile i = None ∧ in_symlink i = false) ∧ in_size i = slen (f_data f).

#[export] Instance info_of_dec f i : Decision (info_of f i).
Proof. unfold info_of. destruct (f_private f), (validatePrivateFile i), (in_symlink i); apply _. Defined.

Definition ok_or_fault (d : disk) (next : option disk) (ok : bool) : option disk :=
  if ok then next else Some (fault d).

(** What [io.LimitReader] lets through, when there is one. *)
Definition limited (limit : option Z) (s : string) : string :=
  match limit with
  | Some limit => if (slen s <=? limit)%Z then s else str_take (Z.to_nat limit) s
  | None => s
  end.

(** [answers d e x]: the directory after the call [e] when it answers [x].
    Another process may make the vault before [Initialize] links its own. *)
Definition answers {X} (d : disk) (e : fs_op X) : X → option disk :=
  match e in fs_op X return X → option disk with
  | Lstat n => λ a,
      match a, d_dir d !! n with
      | StatErr, _ => Some (fault d)
      | StatNone, None => Some d
      | StatInfo i, Some x =>
          f ← d_files d !! x; if decide (in_file i = x ∧ info_of f i) then Some d else None
      | _, _ => None
      end
  | CreateTemp => λ a,
      match a with
      | None => Some (fault d)
      | Some (t, x) =>
          if decide (t ≠ Final ∧ d_dir d !! t = None ∧ d_files d !! x = None)
          then Some (with_file (with_dir d (<[t := x]> (d_dir d))) x (File "" false false)) else None
      end
  | Chmod x => ok_or_fault d (f ← d_files d !! x; Some (with_file d x (File (f_data f) (f_synced f) true)))
  | Write x data => λ r,
      f ← d_files d !! x;
      if (0 <=? fst r)%Z && (fst r <=? slen data)%Z
      then let d := with_file d x (File (f_data f +:+ str_take (Z.to_nat (fst r)) data) false (f_private f)) in
           Some (if snd r && (0 <? fst r)%Z then d else fault d)
      else None
  | Sync x => ok_or_fault d (f ← d_files d !! x; Some (with_file d x (File (f_data f) true (f_private f))))
  | Close x => ok_or_fault d (Some d)
  | Link a b => λ r,
      match r with
      | LinkErr => Some (fault d)
      | LinkExist y =>
          match d_dir d !! b with
          | Some _ => Some d
          | None => if decide (is_Some (d_files d !! y)) then None
                    else Some (Disk (<[b := y]> (d_dir d)) (d_dir d :: d_past d)
                                    (<[y := File "" false false]> (d_files d)) (d_faults d) (Some y))
          end
      | LinkOk =>
          match d_dir d !! a, d_dir d !! b with
          | Some x, None => Some (with_dir d (<[b := x]> (d_dir d)))
          | _, _ => None
          end
      end
  | Rename a b => ok_or_fault d (x ← d_dir d !! a; Some (with_dir d (<[b := x]> (delete a (d_dir d)))))
  | Remove a => λ r,
      match r, d_dir d !! a with
      | RemoveErr, _ => Some (fault d)
      | RemoveNotExist, None => Some d
      | RemoveOk, Some _ => Some (with_dir d (delete a (d_dir d)))
      | _, _ => None
      end
  | OpenDir => ok_or_fault d (Some d)
  | CloseDir => ok_or_fault d (Some d)
  | SyncDir => ok_or_fault d (Some (Disk (d_dir d) [] (d_files d) (d_faults d) (d_foreign d)))
  | OpenRead => λ r,
      match r with
      | None => Some (fault d)
      | Some x => if decide (d_dir d !! Final = Some x) then Some d else None
      end
  | Stat x => λ r,
      match r with
      | None => Some (fault d)
      | Some i => f ← d_files d !! x; if decide (in_file i = x ∧ info_of f i) then Some d else None
      end
  | ReadAll x limit => λ r,
      match r with
      | None => Some (fault d)
      | Some data => f ← d_files d !! x;
          if String.eqb data (limited limit (f_data f)) then Some d else None
      end
  | WriteAtomic data => λ _, Some (fault d)
  end.

Abbreviation keeps := (world_keeps (@answers)).
Abbreviation halts := (world_halts (@answers)).
Abbreviation stops := (world_stops (@answers)).
Abbreviation program := (prog fs_op).

(** ** The operations *)

(** [io.Writer.Write] until the data is gone: a turn takes a byte at least, so
    that [length data] turns are enough. *)
Fixpoint writeAll_from (fuel : nat) (x : nat) (data : string) : program bool :=
  match fuel with
  | O => Ret (str_is_empty data)
  | S fuel' =>
      if str_is_empty data then Ret true
      else
        r ← trigger (Write x data);
        if negb (snd r : bool) then Ret false
        else if (fst r =? 0)%Z then Ret false
        else writeAll_from fuel' x (str_drop (Z.to_nat (fst r)) data)
  end.

Definition writeAll (x : nat) (data : string) : program bool := writeAll_from (String.length data) x data.

Definition syncDirectoryToDisk : program bool :=
  opened ← trigger OpenDir;
  if negb opened then Ret false
  else
    synced ← trigger SyncDir;
    if negb synced then _ ← trigger CloseDir; Ret false
    else trigger CloseDir.

(** [if err := p; err != nil { return wrap(err) }; k] *)
Definition must {A} (p : program bool) (context : string) (fail : store_error → A) (k : program A) : program A :=
  ok ← p; if ok : bool then k else Ret (fail (Wrapped context)).

(** The file filled and closed, up to the deferred cleanup: whether it was
    closed, and the error. *)
Definition fill_temporary {A} (x : nat) (data : string) (fail : bool → store_error → A) (k : program A) : program A :=
  must (trigger (Chmod x)) "secure temporary vault" (fail false)
  (must (writeAll x data) "write temporary vault" (fail false)
  (must (trigger (Sync x)) "sync temporary vault" (fail false)
  (must (trigger (Close x)) "close temporary vault" (fail true) k))).

(** The deferred [if !closed { file.Close() }] *)
Definition close_unless (closed : bool) (x : nat) : program unit :=
  if closed then Ret tt else _ ← trigger (Close x); Ret tt.

(** Whether the file was closed, and the error. *)
Definition write_steps (t : vname) (x : nat) (data : string) : program (bool * option store_error) :=
  fill_temporary x data (λ closed e, (closed, Some e))
    (must (trigger (Rename t Final)) "replace vault" (λ e, (true, Some e))
    (must syncDirectoryToDisk "sync vault directory" (λ e, (true, Some e))
    (Ret (true, None)))).

Definition writeAtomicWithOps (data : string) : program (option store_error) :=
  temporary ← trigger CreateTemp;
  match temporary with
  | None => Ret (Some (Wrapped "create temporary vault"))
  | Some (t, x) =>
      r ← write_steps t x data;
      _ ← close_unless (fst r) x;
      _ ← trigger (Remove t);
      Ret (snd r)
  end.

Definition removeLinkedFile (temporaryPath finalPath : vname) : program (option store_error) :=
  a ← trigger (Lstat temporaryPath);
  match a with
  | StatErr | StatNone => Ret (Some (Wrapped "inspect temporary vault"))
  | StatInfo temporaryInfo =>
      b ← trigger (Lstat finalPath);
      match b with
      | StatNone => Ret None
      | StatErr => Ret (Some (Wrapped "inspect vault"))
      | StatInfo finalInfo =>
          if negb (Nat.eqb (in_file temporaryInfo) (in_file finalInfo)) then Ret (Some ErrUnsafePath)
          else
            removed ← trigger (Remove finalPath);
            Ret (match removed with RemoveOk => None | _ => Some (Wrapped "remove vault") end)
      end
  end.

(** What follows the link: whether the temporary file is still to be removed,
    and the error. *)
Definition settle (t : vname) : program (bool * option store_error) :=
  synced ← syncDirectoryToDisk;
  if negb synced then
    _ ← removeLinkedFile t Final;
    removed ← trigger (Remove t);
    _ ← syncDirectoryToDisk;
    Ret (match removed with RemoveErr => true | _ => false end, Some (Wrapped "sync published vault directory"))
  else
    removed ← trigger (Remove t);
    match removed with
    | RemoveOk =>
        synced ← syncDirectoryToDisk;
        Ret (false, if synced : bool then None else Some (Wrapped "sync temporary vault removal"))
    | _ => Ret (true, Some (Wrapped "remove temporary vault"))
    end.

(** Whether the file was closed, whether the temporary file is still to be
    removed, and the error. *)
Definition publish_steps (t : vname) (x : nat) (sealed : string) : program (bool * (bool * option store_error)) :=
  fill_temporary x sealed (λ closed e, (closed, (true, Some e)))
    (linked ← trigger (Link t Final);
     match (linked : link_answer) with
     | LinkExist _ => Ret (true, (true, Some ErrAlreadyInitialized))
     | LinkErr => Ret (true, (true, Some (Wrapped "publish vault")))
     | LinkOk => r ← settle t; Ret (true, r)
     end).

(** The deferred [if temporaryExists { ops.remove(temporaryPath) }] *)
Definition remove_if (temporaryExists : bool) (t : vname) : program unit :=
  if temporaryExists then _ ← trigger (Remove t); Ret tt else Ret tt.

Definition publish_new (sealed : string) : program (option store_error) :=
  temporary ← trigger CreateTemp;
  match temporary with
  | None => Ret (Some (Wrapped "create temporary vault"))
  | Some (t, x) =>
      r ← publish_steps t x sealed;
      _ ← close_unless (fst r) x;
      _ ← remove_if (fst (snd r)) t;
      Ret (snd (snd r))
  end.

Section store.
Context (c : suite) (salt_read nonce_read : read_full).

Definition sealed_vault (master : string) (data : Data) : result vault_error string :=
  fst (Seal c salt_read nonce_read master data DefaultKDFParams []).

Definition Initialize (master : string) : program (option store_error) :=
  a ← trigger (Lstat Final);
  match a with
  | StatInfo i => Ret (Some (default ErrAlreadyInitialized (validatePrivateFile i)))
  | StatErr => Ret (Some (Wrapped "inspect vault"))
  | StatNone =>
      match sealed_vault master {| da_servers := Some ∅; da_recovery_key := "" |} with
      | Fail e => Ret (Some (Crypto e))
      | Ok sealed => publish_new sealed
      end
  end.

(** [hook]: the store's [WriteAtomic] is set. *)
Definition Save (hook : bool) (master : string) (data : Data) : program (option store_error) :=
  let write :=
    match sealed_vault master data with
    | Fail e => Ret (Some (Crypto e))
    | Ok sealed =>
        if hook then ok ← trigger (WriteAtomic sealed); Ret (if ok : bool then None else Some (Wrapped "save vault"))
        else
          e ← writeAtomicWithOps sealed;
          Ret (match e with None => None | Some _ => Some (Wrapped "save vault") end)
    end in
  a ← trigger (Lstat Final);
  match a with
  | StatInfo i => match validatePrivateFile i with Some e => Ret (Some e) | None => write end
  | StatErr => Ret (Some (Wrapped "inspect vault"))
  | StatNone => write
  end.

Definition isSymlink (n : vname) : program bool :=
  a ← trigger (Lstat n); Ret (match (a : stat_answer) with StatInfo i => in_symlink i | _ => false end).

Definition readEnvelope (x : nat) : program (result store_error string) :=
  r ← trigger (ReadAll x (Some (MaxEnvelopeBytes + 1)%Z));
  match r with
  | None => Ret (Fail (Wrapped "read vault"))
  | Some data =>
      Ret (if (slen data =? 0)%Z || (MaxEnvelopeBytes <? slen data)%Z then Fail (Crypto ErrInvalidEnvelope) else Ok data)
  end.

Definition Load (master : string) : program (result store_error Data) :=
  opened ← trigger OpenRead;
  match opened with
  | None =>
      symlink ← isSymlink Final;
      Ret (Fail (if symlink : bool then ErrUnsafePath else Wrapped "open vault"))
  | Some x =>
      r ← (i ← trigger (Stat x);
           match i with
           | None => Ret (Fail (Wrapped "inspect vault"))
           | Some i =>
               match validatePrivateFile i with
               | Some e => Ret (Fail e)
               | None =>
                   if (in_size i <=? 0)%Z || (MaxEnvelopeBytes <? in_size i)%Z then Ret (Fail (Crypto ErrInvalidEnvelope))
                   else
                     sealed ← readEnvelope x;
                     Ret (match sealed with
                          | Fail e => Fail e
                          | Ok sealed => match fst (Open c master sealed []) with Ok d => Ok d | Fail e => Fail (Crypto e) end
                          end)
               end
           end);
      _ ← trigger (Close x);
      Ret r
  end.
End store.

(** ** The temporary file *)

(** Nothing about the vault's entry is pending. *)
Definition settled (d : disk) : Prop := ∀ b, may_be d Final b → b = d_dir d !! Final.

Lemma keeps_trigger {X} I d (e : fs_op X) Q :
  (∀ x d', answers d e x = Some d' → I d' ∧ Q d' x) → keeps I d (trigger e) Q.
Proof. done. Qed.

Lemma ok_or_fault_cases d next ok d' :
  ok_or_fault d next ok = Some d' → ok = true ∧ next = Some d' ∨ ok = false ∧ d' = fault d.
Proof. unfold ok_or_fault. destruct ok; [by left|]. intros [= <-]. by right. Qed.

Lemma keeps_must {A} I d p context (fail : store_error → A) k Q :
  keeps I d p (λ d' ok, if ok : bool then keeps I d' k Q else Q d' (fail (Wrapped context))) →
  keeps I d (must p context fail k) Q.
Proof. intros H. unfold must. apply keeps_bind. eapply keeps_mono; [|exact H]. by intros d' []. Qed.

Section temporary.
Context (d0 : disk) (t : vname) (x : nat).
Context (Ht : t ≠ Final) (Hdir : d_dir d0 !! t = None) (Hfile : d_files d0 !! x = None).
Context (Hsettled : settled d0).

(** The directory with a temporary file of contents [s]. *)
Record staged (s : string) (synced private : bool) (d : disk) : Prop := {
  st_dir : d_dir d = <[t := x]> (d_dir d0);
  st_past m : m ∈ d_past d → m !! Final = d_dir d0 !! Final;
  st_files : d_files d = <[x := File s synced private]> (d_files d0);
  st_faults : (d_faults d0 ≤ d_faults d)%nat;
  st_foreign : d_foreign d = d_foreign d0 }.

Lemma staged_fault s sy pr d : staged s sy pr d → staged s sy pr (fault d).
Proof. intros []. split; try done. simpl. lia. Qed.

Lemma staged_file s sy pr d s' sy' pr' :
  staged s sy pr d → staged s' sy' pr' (with_file d x (File s' sy' pr')).
Proof. intros []. split; try done. simpl. rewrite st_files0. apply insert_insert_eq. Qed.

Lemma staged_lookup s sy pr d : staged s sy pr d → d_files d !! x = Some (File s sy pr).
Proof. intros []. rewrite st_files0. apply lookup_insert_eq. Qed.

Context (I : disk → Prop) (HI : ∀ s sy pr d, staged s sy pr d → I d).

(** [writeAll] writes everything or fails. *)
Lemma keeps_writeAll fuel data s sy pr d :
  (String.length data ≤ fuel)%nat → staged s sy pr d →
  keeps I d (writeAll_from fuel x data) (λ d' ok,
    if ok : bool then ∃ sy', staged (s +:+ data) sy' pr d' ∧ d_faults d' = d_faults d
    else ∃ s' sy', staged s' sy' pr d' ∧ d_faults d' = S (d_faults d)).
Proof.
  revert data s sy d. induction fuel as [|fuel IH]; intros data s sy d Hlen Hst.
  { destruct data; [|simpl in Hlen; lia]. simpl. exists sy. by rewrite str_app_nil_r. }
  cbn [writeAll_from]. destruct (str_is_empty data) eqn:He.
  { destruct data; [|done]. simpl. exists sy. by rewrite str_app_nil_r. }
  apply keeps_bind, keeps_trigger. intros [n ok] d' Ha. cbn [answers] in Ha.
  rewrite (staged_lookup _ _ _ _ Hst) in Ha. cbn [mbind option_bind fst snd f_data f_private] in Ha.
  destruct (0 <=? n)%Z eqn:H0; [|done]. destruct (n <=? slen data)%Z eqn:Hn; [|done]. cbn [andb] in Ha.
  bool_hyps. injection Ha as <-.
  set (d1 := with_file d x _). set (taken := str_take (Z.to_nat n) data) in *.
  assert (staged (s +:+ taken) false pr d1) as H1 by exact (staged_file _ _ _ _ _ _ _ Hst).
  destruct ok; cbn [negb andb fst snd].
  - destruct (0 <? n)%Z eqn:Hpos; bool_hyps.
    + split; [by eapply HI|]. rewrite (proj2 (Z.eqb_neq _ _)) by lia.
      eapply keeps_mono; [|apply (IH (str_drop (Z.to_nat n) data) (s +:+ taken) false d1); [|exact H1]].
      * intros d' [].
        -- intros (sy' & Hs & Hf). exists sy'. split; [|done].
           rewrite str_app_assoc in Hs. unfold taken in Hs. by rewrite str_take_drop in Hs.
        -- intros (s' & sy' & Hs & Hf). by exists s', sy'.
      * rewrite str_length_drop. unfold slen in *. lia.
    + assert (n = 0)%Z as -> by lia. simpl. split; [eapply HI; eapply staged_fault; eassumption|].
      eexists _, _. split; [by apply staged_fault|done].
  - split; [eapply HI; eapply staged_fault; eassumption|]. eexists _, _. split; [by apply staged_fault|done].
Qed.

Lemma keeps_fill {A} data (fail : bool → store_error → A) k Q d :
  staged "" false false d →
  (∀ d', staged data true true d' → d_faults d' = d_faults d → keeps I d' k Q) →
  (∀ closed context s sy pr d',
     staged s sy pr d' → d_faults d' = S (d_faults d) → Q d' (fail closed (Wrapped context))) →
  keeps I d (fill_temporary x data fail k) Q.
Proof.
  intros Hst Hk Hfail. unfold fill_temporary.
  apply keeps_must, keeps_trigger. intros ok d1 Ha. cbn [answers] in Ha.
  rewrite (staged_lookup _ _ _ _ Hst) in Ha. cbn in Ha.
  apply ok_or_fault_cases in Ha as [[-> Ha]|[-> ->]].
  2: { split; [eapply HI; eapply staged_fault; eassumption|]. eapply Hfail; [by apply staged_fault|done]. }
  injection Ha as <-. set (d1 := with_file d x _).
  assert (staged "" false true d1) as H1 by exact (staged_file _ _ _ _ _ _ _ Hst).
  split; [by eapply HI|]. apply keeps_must. unfold writeAll.
  eapply keeps_mono; [|apply (keeps_writeAll (String.length data) data "" false true d1); [done|exact H1]].
  intros d2 []; [|by intros (s' & sy' & Hs & Hf); eapply Hfail].
  intros (sy & H2 & Hf2). cbn [String.append] in H2.
  apply keeps_must, keeps_trigger. intros ok d3 Ha. cbn [answers] in Ha.
  rewrite (staged_lookup _ _ _ _ H2) in Ha. cbn in Ha.
  apply ok_or_fault_cases in Ha as [[-> Ha]|[-> ->]].
  2: { split; [eapply HI; eapply staged_fault; eassumption|]. eapply Hfail; [by apply staged_fault|simpl; by rewrite Hf2]. }
  injection Ha as <-. set (d3 := with_file d2 x _).
  assert (staged data true true d3) as H3 by exact (staged_file _ _ _ _ _ _ _ H2).
  split; [by eapply HI|]. apply keeps_must, keeps_trigger. intros ok d4 Ha.
  apply ok_or_fault_cases in Ha as [[-> Ha]|[-> ->]].
  - injection Ha as <-. split; [by eapply HI|]. by apply Hk.
  - split; [eapply HI; eapply staged_fault; eassumption|]. eapply Hfail; [by apply staged_fault|simpl; by rewrite Hf2].
Qed.

Lemma staged_created d : answers d0 CreateTemp (Some (t, x)) = Some d → staged "" false false d.
Proof.
  intros Ha. cbn [answers] in Ha. case_decide; [|done]. injection Ha as <-. split; try done.
  intros m Hm. apply Hsettled. simpl in Hm. apply elem_of_cons in Hm as [->|Hm]; [by left|]. right. by exists m.
Qed.

Lemma staged_final s sy pr d b : staged s sy pr d → may_be d Final b → b = d_dir d0 !! Final.
Proof.
  intros [Hd Hp _ _ _] [->|(m & Hm & ->)]; [|by apply Hp]. rewrite Hd. by apply lookup_insert_ne.
Qed.

(** Closing and removing the temporary file. *)
Lemma keeps_close closed s sy pr d Q :
  staged s sy pr d → (∀ d', staged s sy pr d' → (d_faults d ≤ d_faults d')%nat → Q d' tt) →
  keeps I d (close_unless closed x) Q.
Proof.
  intros Hst HQ. unfold close_unless. destruct closed; [by apply HQ|].
  apply keeps_bind, keeps_trigger. intros ok d' Ha. apply ok_or_fault_cases in Ha as [[-> [= <-]]|[-> ->]].
  - split; [by eapply HI|]. by apply HQ.
  - split; [eapply HI; by apply staged_fault|]. apply HQ; [by apply staged_fault|simpl; lia].
Qed.

(** The directory is back, or a call failed. *)
Record cleaned (faults : nat) (d : disk) : Prop := {
  cl_final b : may_be d Final b → b = d_dir d0 !! Final;
  cl_files y f : d_files d0 !! y = Some f → d_files d !! y = Some f;
  cl_faults : (faults ≤ d_faults d)%nat;
  cl_dir : d_faults d = faults → d_dir d = d_dir d0;
  cl_foreign : d_foreign d = d_foreign d0 }.

Context (HIc : ∀ n d, cleaned n d → I d).

Lemma cleaned_staged s sy pr d n : staged s sy pr d → (n < d_faults d)%nat → cleaned n d.
Proof.
  intros Hst Hn. split; [intros b; by eapply staged_final| |lia|lia|by destruct Hst].
  intros y f Hy. destruct Hst as [_ _ Hf _ _]. rewrite Hf. rewrite lookup_insert_ne; [done|]. by intros ->; congruence.
Qed.

Lemma keeps_remove_name s sy pr d Q :
  staged s sy pr d → (∀ d' r, cleaned (d_faults d) d' → Q d' r) → keeps I d (trigger (Remove t)) Q.
Proof.
  intros Hst HQ. apply keeps_trigger. intros r d' Ha. cbn [answers] in Ha.
  assert (d_dir d !! t = Some x) as Hb by (destruct Hst as [-> _ _ _ _]; apply lookup_insert_eq).
  rewrite Hb in Ha. destruct r; [|done|].
  - injection Ha as <-. assert (cleaned (d_faults d) (with_dir d (delete t (d_dir d)))) as Hc.
    { split.
      - intros b [->|(m & Hm & ->)]; simpl in *.
        + rewrite lookup_delete_ne by done. destruct Hst as [-> _ _ _ _]. by rewrite lookup_insert_ne.
        + apply elem_of_cons in Hm as [->|Hm]; [|by eapply st_past].
          destruct Hst as [-> _ _ _ _]. by rewrite lookup_insert_ne.
      - intros y f Hy. simpl. destruct Hst as [_ _ -> _ _]. rewrite lookup_insert_ne; [done|]. by intros ->; congruence.
      - done.
      - intros _. simpl. destruct Hst as [-> _ _ _ _]. by rewrite delete_insert_id.
      - by destruct Hst. }
    split; [by eapply HIc|by apply HQ].
  - injection Ha as <-. assert (cleaned (d_faults d) (fault d)) as Hc.
    { eapply cleaned_staged; [by apply staged_fault|simpl; lia]. }
    split; [by eapply HIc|by apply HQ].
Qed.
End temporary.

(** ** Syncing the directory *)

(** The directory after an attempt to sync it. *)
Definition sync_out (d : disk) (durable : bool) (failures : nat) : disk :=
  Disk (d_dir d) (if durable then [] else d_past d) (d_files d) (failures + d_faults d) (d_foreign d).

Lemma keeps_syncdir I d Q :
  (∀ durable n, I (sync_out d durable n)) →
  Q (sync_out d true 0) true →
  (∀ durable n, (1 ≤ n)%nat → Q (sync_out d durable n) false) →
  keeps I d syncDirectoryToDisk Q.
Proof.
  intros HI Hok Hfail. unfold syncDirectoryToDisk. apply keeps_bind, keeps_trigger. intros ok d1 Ha.
  apply ok_or_fault_cases in Ha as [[-> [= <-]]|[-> ->]]; cbn [negb].
  2: { split; [exact (HI false 1%nat)|]. by apply (Hfail false 1%nat). }
  split; [destruct d; exact (HI false 0%nat)|].
  apply keeps_bind, keeps_trigger. intros ok d2 Ha.
  apply ok_or_fault_cases in Ha as [[-> [= <-]]|[-> ->]]; cbn [negb].
  - split; [exact (HI true 0%nat)|]. apply keeps_trigger. intros ok d3 Ha.
    apply ok_or_fault_cases in Ha as [[-> [= <-]]|[-> ->]].
    + split; [exact (HI true 0%nat)|done].
    + split; [exact (HI true 1%nat)|]. by apply (Hfail true 1%nat).
  - split; [exact (HI false 1%nat)|]. apply keeps_bind, keeps_trigger. intros ok d3 Ha.
    apply ok_or_fault_cases in Ha as [[-> [= <-]]|[-> ->]].
    + split; [exact (HI false 1%nat)|]. by apply (Hfail false 1%nat).
    + split; [exact (HI false 2%nat)|]. apply (Hfail false 2%nat). lia.
Qed.

(** ** [Save] *)

Section save.
Context (d0 : disk) (data : string) (Hsettled : settled d0).

(** The vault a crash leaves: the old one or the new one, whole. *)
Record save_inv (d : disk) : Prop := {
  si_final b : may_be d Final b →
    b = d_dir d0 !! Final ∨ ∃ y, b = Some y ∧ d_files d !! y = Some (File data true true);
  si_files y f : d_files d0 !! y = Some f → d_files d !! y = Some f }.

Lemma save_inv_fault d : save_inv d → save_inv (fault d).
Proof. by intros [Hf Hk]. Qed.

Lemma save_inv_cleaned n d : cleaned d0 n d → save_inv d.
Proof. intros [Hf Hk _ _]. split; [|done]. intros b Hb. left. by apply Hf. Qed.

Lemma save_inv_staged t x s sy pr d :
  t ≠ Final → d_files d0 !! x = None → staged d0 t x s sy pr d → save_inv d.
Proof.
  intros Ht Hx Hst. split.
  - intros b Hb. left. by eapply staged_final.
  - intros y f Hy. destruct Hst as [_ _ -> _ _]. rewrite lookup_insert_ne; [done|]. by intros ->; congruence.
Qed.

(** What [Save] promises. *)
Record saved (d : disk) (r : option store_error) : Prop := {
  sv_inv : save_inv d;
  sv_done : r = None → settled d ∧ ∃ y, d_dir d !! Final = Some y ∧ d_files d !! y = Some (File data true true);
  sv_faults : (d_faults d0 ≤ d_faults d)%nat;
  sv_why : is_Some r → (d_faults d0 < d_faults d)%nat;
  sv_clean : (d_faults d ≤ S (d_faults d0))%nat → ∀ i, d_dir d !! Temp i = d_dir d0 !! Temp i }.

(** The directory after the rename. *)
Record renamed (t : vname) (x : nat) (d : disk) : Prop := {
  rn_dir : d_dir d = <[Final := x]> (d_dir d0);
  rn_past m : m ∈ d_past d → m !! Final = d_dir d0 !! Final ∨ m !! Final = Some x;
  rn_files : d_files d = <[x := File data true true]> (d_files d0);
  rn_faults : (d_faults d0 ≤ d_faults d)%nat }.

Lemma renamed_inv t x d : d_files d0 !! x = None → renamed t x d → save_inv d.
Proof.
  intros Hx [Hd Hp Hf _]. split.
  - assert (d_files d !! x = Some (File data true true)) as Hnew by (rewrite Hf; apply lookup_insert_eq).
    intros b [->|(m & Hm & ->)].
    + right. exists x. split; [|done]. rewrite Hd. apply lookup_insert_eq.
    + destruct (Hp m Hm) as [->| ->]; [by left|right; by exists x].
  - intros y f Hy. rewrite Hf, lookup_insert_ne; [done|]. by intros ->; congruence.
Qed.

Lemma renamed_out t x d durable n : renamed t x d → renamed t x (sync_out d durable n).
Proof. intros [Hd Hp Hf Hn]. split; try done; [|simpl; lia]. intros m Hm. destruct durable; [by apply not_elem_of_nil in Hm|by apply Hp]. Qed.

Lemma keeps_write_steps t x d :
  t ≠ Final → d_dir d0 !! t = None → d_files d0 !! x = None →
  staged d0 t x "" false false d → d_faults d = d_faults d0 →
  keeps save_inv d (write_steps t x data) (λ d' r,
    (∃ s sy pr, staged d0 t x s sy pr d' ∧ d_faults d' = S (d_faults d0) ∧ is_Some (snd r)) ∨
    (renamed t x d' ∧ fst r = true ∧
     (snd r = None → d_past d' = [] ∧ d_faults d' = d_faults d0) ∧ (is_Some (snd r) → d_faults d0 < d_faults d'))%nat).
Proof.
  intros Ht Hdir Hx Hst Hn. unfold write_steps.
  apply (keeps_fill d0 t x save_inv (λ s sy pr d', save_inv_staged t x s sy pr d' Ht Hx)); [done|..].
  2: { intros closed e s sy pr d' Hs Hf. left. exists s, sy, pr. split; [done|]. split; [congruence|done]. }
  intros d1 Hs1 Hf1. apply keeps_must, keeps_trigger. intros ok d2 Ha. cbn [answers] in Ha.
  pose proof (st_dir _ _ _ _ _ _ _ Hs1) as Hd1. rewrite Hd1, lookup_insert_eq in Ha. cbn [mbind option_bind] in Ha.
  apply ok_or_fault_cases in Ha as [[-> [= <-]]|[-> ->]].
  2: { split; [by eapply save_inv_staged, staged_fault|]. left. eexists _, _, _. split; [by apply staged_fault|].
       split; [simpl; congruence|done]. }
  set (d2 := with_dir d1 _).
  assert (renamed t x d2) as H2.
  { destruct Hs1 as [_ Hp Hf Hn1 _]. split; simpl.
    - rewrite delete_insert_eq. by rewrite delete_id.
    - intros m [->|Hm]%elem_of_cons; left; [|by apply Hp]. rewrite Hd1. by rewrite lookup_insert_ne.
    - done.
    - done. }
  assert (d_faults d2 = d_faults d0) as Hf2 by (simpl; congruence).
  split; [by eapply renamed_inv|].
  apply keeps_must, keeps_syncdir.
  - intros durable n. by eapply renamed_inv, renamed_out.
  - simpl. right. split; [by apply (renamed_out t x d2 true 0)|]. split; [done|]. split; [done|]. by intros [].
  - intros durable n Hle. right. split; [by apply renamed_out|]. split; [done|]. split; [done|].
    intros _. change (d_faults d0 < n + d_faults d2)%nat. lia.
Qed.

Lemma keeps_writeAtomic : keeps save_inv d0 (writeAtomicWithOps data) saved.
Proof.
  assert (save_inv d0) as H0 by (split; [intros b Hb; left; by apply Hsettled|done]).
  unfold writeAtomicWithOps. apply keeps_bind, keeps_trigger. intros [[t x]|] d1 Ha.
  2: { injection Ha as <-. split; [by apply save_inv_fault|]. simpl.
       split; [by apply save_inv_fault|done|simpl; lia|simpl; lia|done]. }
  pose proof Ha as Hc. cbn [answers] in Hc. case_decide as Hfresh; [|done]. destruct Hfresh as (Ht & Hdir & Hx). injection Hc as Hd1.
  assert (d_faults d1 = d_faults d0) as Hf1 by by subst.
  apply (staged_created d0 t x Hsettled) in Ha. clear Hd1.
  assert (∀ s sy pr d, staged d0 t x s sy pr d → save_inv d) as HI by (intros; by eapply save_inv_staged).
  split; [by eapply HI|]. apply keeps_bind. eapply keeps_mono; [|by apply keeps_write_steps].
  intros d2 [closed e] [(s & sy & pr & Hs & Hf & He)|(Hr & Hcl & Hok & Hbad)]; cbn [fst snd] in *; apply keeps_bind.
  - apply (keeps_close d0 t x save_inv HI closed s sy pr); [done|]. intros d3 Hs3 Hf3. apply keeps_bind.
    apply (keeps_remove_name d0 t x Ht Hdir Hx save_inv save_inv_cleaned s sy pr); [done|].
    intros d4 _ Hc. simpl. split.
    + by eapply save_inv_cleaned.
    + intros ->. by destruct He.
    + destruct Hc. lia.
    + destruct Hc. lia.
    + intros Hle i. destruct Hc as [_ _ Hge Hdir4 _]. rewrite Hdir4; [done|]. lia.
  - subst closed. simpl. intros r d3 Hr3. cbn [answers] in Hr3.
    assert (d_dir d2 !! t = None) as Hnone by (rewrite (rn_dir _ _ _ Hr), lookup_insert_ne; done).
    rewrite Hnone in Hr3.
    assert (d3 = d2 ∨ d3 = fault d2) as Hd3 by (destruct r; [done|injection Hr3 as <-; by left|injection Hr3 as <-; by right]).
    assert (save_inv d3) as H3 by (destruct Hd3 as [->| ->]; [|apply save_inv_fault]; by eapply renamed_inv).
    assert (d_dir d3 = <[Final := x]> (d_dir d0)) as Hdir3 by (destruct Hd3 as [->| ->]; apply (rn_dir _ _ _ Hr)).
    split; [done|]. split; [done|..].
    + intros ->. destruct (Hok eq_refl) as [Hp _]. split.
      * assert (d_past d3 = []) as Hp3 by (destruct Hd3 as [->| ->]; done).
        intros b [->|(m & Hm & _)]; [done|]. rewrite Hp3 in Hm. by apply not_elem_of_nil in Hm.
      * exists x. rewrite Hdir3, lookup_insert_eq. split; [done|].
        destruct Hd3 as [->| ->]; simpl; rewrite (rn_files _ _ _ Hr); apply lookup_insert_eq.
    + pose proof (rn_faults _ _ _ Hr). destruct Hd3 as [->| ->]; simpl; lia.
    + intros He. specialize (Hbad He). destruct Hd3 as [->| ->]; simpl; lia.
    + intros _ i. rewrite Hdir3. by rewrite lookup_insert_ne.
Qed.
End save.

(** ** [Initialize] *)

Section initialize.
Context (d0 : disk) (sealed : string) (Hsettled : settled d0).
Context (Habsent : d_dir d0 !! Final = None) (Hforeign : d_foreign d0 = None).

(** The vault a crash leaves: none, the new one whole, or another process's. *)
Record init_inv (d : disk) : Prop := {
  ii_final b : may_be d Final b →
    b = None ∨ (∃ y, b = Some y ∧ d_files d !! y = Some (File sealed true true)) ∨ (b = d_foreign d ∧ is_Some b);
  ii_files y f : d_files d0 !! y = Some f → d_files d !! y = Some f }.

Context (t : vname) (x : nat).
Context (Ht : t ≠ Final) (Hdir : d_dir d0 !! t = None) (Hx : d_files d0 !! x = None).

(** The directory once the link was made: what the vault's path and the
    temporary path are. *)
Record published (fin tmp : option nat) (d : disk) : Prop := {
  pb_final : d_dir d !! Final = fin;
  pb_temp : d_dir d !! t = tmp;
  pb_other n : n ≠ Final → n ≠ t → d_dir d !! n = d_dir d0 !! n;
  pb_range : fin = None ∨ fin = Some x;
  pb_past m : m ∈ d_past d → m !! Final = None ∨ m !! Final = Some x;
  pb_files : d_files d = <[x := File sealed true true]> (d_files d0);
  pb_faults : (d_faults d0 ≤ d_faults d)%nat }.

Lemma published_file fin tmp d : published fin tmp d → d_files d !! x = Some (File sealed true true).
Proof. intros []. rewrite pb_files0. apply lookup_insert_eq. Qed.

Lemma published_inv fin tmp d : published fin tmp d → init_inv d.
Proof.
  intros Hp. pose proof (published_file _ _ _ Hp) as Hnew. destruct Hp as [Hf _ _ Hr Hpast Hfiles _]. split.
  - assert (∀ b, b = None ∨ b = Some x →
      b = None ∨ (∃ y, b = Some y ∧ d_files d !! y = Some (File sealed true true)) ∨ (b = d_foreign d ∧ is_Some b)) as Hb.
    { intros b [->| ->]; [by left|]. right. left. by exists x. }
    intros b [->|(m & Hm & ->)]; apply Hb; [by rewrite Hf|by apply Hpast].
  - intros y f Hy. rewrite Hfiles, lookup_insert_ne; [done|]. by intros ->; congruence.
Qed.

Lemma published_fault fin tmp d : published fin tmp d → published fin tmp (fault d).
Proof. intros []. split; try done. simpl. lia. Qed.

Lemma published_out fin tmp d durable n : published fin tmp d → published fin tmp (sync_out d durable n).
Proof. intros []. split; try done; [|simpl; lia]. intros m Hm. destruct durable; [by apply not_elem_of_nil in Hm|by apply pb_past0]. Qed.

Lemma published_remove fin tmp d n :
  published fin tmp d → n = Final ∨ n = t →
  published (if decide (n = Final) then None else fin) (if decide (n = t) then None else tmp)
    (with_dir d (delete n (d_dir d))).
Proof.
  intros Hp Hn. assert (d_dir d !! Final = None ∨ d_dir d !! Final = Some x) as Hcur.
  { destruct Hp as [-> _ _ Hr _ _ _]. done. }
  destruct Hp as [Hf Htm Ho Hr Hpast Hfiles Hle]. split; try done; simpl.
  - case_decide as Hd; [by rewrite Hd, lookup_delete_eq|]. by rewrite lookup_delete_ne.
  - case_decide as Hd; [by rewrite Hd, lookup_delete_eq|]. by rewrite lookup_delete_ne.
  - intros n' H1 H2. rewrite lookup_delete_ne; [by apply Ho|]. by destruct Hn as [->| ->]; congruence.
  - case_decide; [by left|done].
  - intros m [->|Hm]%elem_of_cons; [done|by apply Hpast].
Qed.

(** Removing one of the two names. *)
Lemma keeps_remove_published fin tmp d n Q :
  published fin tmp d → n = Final ∧ is_Some fin ∨ n = t ∧ is_Some tmp →
  (∀ d', published (if decide (n = Final) then None else fin) (if decide (n = t) then None else tmp) d' →
         d_faults d' = d_faults d → Q d' RemoveOk) →
  (published fin tmp (fault d) → Q (fault d) RemoveErr) →
  keeps init_inv d (trigger (Remove n)) Q.
Proof.
  intros Hp Hn Hok Herr. apply keeps_trigger. intros r d' Ha. cbn [answers] in Ha.
  assert (is_Some (d_dir d !! n)) as [y Hy].
  { destruct Hn as [[-> ?]|[-> ?]]; [by rewrite (pb_final _ _ _ Hp)|by rewrite (pb_temp _ _ _ Hp)]. }
  rewrite Hy in Ha. destruct r; [|done|].
  - injection Ha as <-. assert (n = Final ∨ n = t) as Hn' by tauto.
    pose proof (published_remove _ _ _ n Hp Hn') as H1. split; [by eapply published_inv|]. by apply Hok.
  - injection Ha as <-. pose proof (published_fault _ _ _ Hp) as H1. split; [by eapply published_inv|]. by apply Herr.
Qed.

Lemma keeps_lstat_published fin tmp d n Q :
  published fin tmp d → n = Final ∧ fin = Some x ∨ n = t ∧ tmp = Some x →
  (∀ i, in_file i = x → Q d (StatInfo i)) → (published fin tmp (fault d) → Q (fault d) StatErr) →
  keeps init_inv d (trigger (Lstat n)) Q.
Proof.
  intros Hp Hn Hok Herr. apply keeps_trigger. intros a d' Ha. cbn [answers] in Ha.
  assert (d_dir d !! n = Some x) as Hy.
  { destruct Hn as [[-> ->]|[-> ->]]; [apply (pb_final _ _ _ Hp)|apply (pb_temp _ _ _ Hp)]. }
  rewrite Hy in Ha. destruct a as [| |i]; [|done|].
  - injection Ha as <-. pose proof (published_fault _ _ _ Hp) as H1. split; [by eapply published_inv|]. by apply Herr.
  - rewrite (published_file _ _ _ Hp) in Ha. cbn [mbind option_bind] in Ha. case_decide as Hi; [|done].
    injection Ha as <-. split; [by eapply published_inv|]. apply Hok, Hi.
Qed.

(** The rollback of the link: the vault's path is free again, or a call of the
    rollback failed too. *)
Lemma keeps_removeLinkedFile d :
  published (Some x) (Some x) d →
  keeps init_inv d (removeLinkedFile t Final) (λ d' _,
    published None (Some x) d' ∧ d_faults d' = d_faults d ∨
    published (Some x) (Some x) d' ∧ (d_faults d < d_faults d')%nat).
Proof.
  intros Hp. unfold removeLinkedFile. apply keeps_bind. eapply keeps_lstat_published; [exact Hp|by right|..].
  2: { intros Hp'. simpl. right. split; [done|simpl; lia]. }
  intros i Hi. apply keeps_bind. eapply keeps_lstat_published; [exact Hp|by left|..].
  2: { intros Hp'. simpl. right. split; [done|simpl; lia]. }
  intros j Hj. rewrite Hi, Hj, Nat.eqb_refl. cbn [negb]. apply keeps_bind.
  eapply keeps_remove_published; [exact Hp|by left|..].
  - intros d' Hp' Hf. simpl. left. rewrite decide_True, decide_False in Hp' by done. done.
  - intros Hp'. simpl. right. split; [done|simpl; lia].
Qed.

(** The failures after which the new vault stays: it was durable already. *)
Definition late (e : store_error) : Prop :=
  e = Wrapped "remove temporary vault" ∨ e = Wrapped "sync temporary vault removal".

(** What follows the link, up to the deferred removal. *)
Definition settled_as (d : disk) (r : bool * option store_error) : Prop :=
  ∃ fin tmp, published fin tmp d ∧ (tmp = None ∨ tmp = Some x ∧ fst r = true) ∧ (fst r = true → tmp = Some x) ∧
  match snd r with
  | None => fin = Some x ∧ tmp = None ∧ d_past d = []
  | Some e =>
      e ≠ ErrAlreadyInitialized ∧ (d_faults d0 < d_faults d)%nat ∧
      (fst r = true → (S (d_faults d0) < d_faults d)%nat ∨ e = Wrapped "remove temporary vault") ∧
      ((d_faults d ≤ S (d_faults d0))%nat → fin = None ∧ d_past d = [] ∨ late e)
  end.

Lemma keeps_settle d :
  published (Some x) (Some x) d → d_faults d = d_faults d0 →
  keeps init_inv d (settle t) settled_as.
Proof.
  intros Hp Hn. unfold settle. apply keeps_bind, keeps_syncdir.
  - intros. by eapply published_inv, published_out.
  - cbn [negb]. pose proof (published_out _ _ _ true 0 Hp) as H1. apply keeps_bind.
    eapply keeps_remove_published; [exact H1|by right|..].
    + intros d2 Hp2 Hf2. rewrite decide_False, decide_True in Hp2 by done. apply keeps_bind, keeps_syncdir.
      * intros. by eapply published_inv, published_out.
      * simpl. exists (Some x), None. split; [by apply (published_out _ _ _ true 0)|]. split; [by left|]. done.
      * intros durable n Hle. simpl. exists (Some x), None. split; [by apply published_out|].
        split; [by left|]. split; [done|]. split; [done|]. split; [simpl in *; lia|]. split; [done|]. by right; right.
    + intros Hp2. simpl. exists (Some x), (Some x). split; [done|]. split; [by right|]. split; [done|].
      split; [done|]. split; [simpl; lia|]. split; [by right|]. by right; left.
  - intros durable n Hle. cbn [negb]. set (d1 := sync_out d durable n).
    pose proof (published_out _ _ _ durable n Hp : published _ _ d1) as H1.
    assert (d_faults d0 < d_faults d1)%nat as Hlt by (simpl; lia). clearbody d1.
    apply keeps_bind. eapply keeps_mono; [|by apply keeps_removeLinkedFile].
    intros d2 e H2. cbn beta in H2.
    assert (∃ fin, published fin (Some x) d2 ∧ (d_faults d1 ≤ d_faults d2)%nat ∧
              ((d_faults d2 ≤ S (d_faults d0))%nat → fin = None)) as (fin & Hp2 & Hge & Hfin).
    { destruct H2 as [[Hp2 Hf]|[Hp2 Hf]]; [exists None|exists (Some x)]; (split; [done|split; [lia|]]); [done|lia]. }
    apply keeps_bind. eapply keeps_remove_published; [exact Hp2|by right|..].
    + intros d3 Hp3 Hf3. rewrite decide_False, decide_True in Hp3 by done. apply keeps_bind, keeps_syncdir.
      * intros. by eapply published_inv, published_out.
      * simpl. exists fin, None. split; [by apply (published_out _ _ _ true 0)|]. split; [by left|]. split; [done|].
        split; [done|]. split; [simpl; lia|]. split; [done|]. intros Hle3. left. split; [apply Hfin; simpl in *; lia|done].
      * intros durable' n' Hle'. simpl. exists fin, None. split; [by apply published_out|]. split; [by left|]. split; [done|].
        split; [done|]. split; [simpl; lia|]. split; [done|]. intros Hle3. simpl in *. lia.
    + intros Hp3. apply keeps_bind, keeps_syncdir.
      * intros. by eapply published_inv, published_out.
      * simpl. exists fin, (Some x). split; [by apply (published_out _ _ _ true 0)|]. split; [by right|]. split; [done|].
        split; [done|]. split; [simpl; lia|]. split; [left; simpl; lia|]. intros Hle3. simpl in *. lia.
      * intros durable' n' Hle'. simpl. exists fin, (Some x). split; [by apply published_out|]. split; [by right|]. split; [done|].
        split; [done|]. split; [simpl; lia|]. split; [left; simpl; lia|]. intros Hle3. simpl in *. lia.
Qed.

Lemma init_inv_staged s sy pr d : staged d0 t x s sy pr d → init_inv d.
Proof.
  intros Hst. split.
  - intros b Hb. left. rewrite <-Habsent. by eapply staged_final.
  - intros y f Hy. destruct Hst as [_ _ -> _ _]. rewrite lookup_insert_ne; [done|]. by intros ->; congruence.
Qed.

Lemma init_inv_cleaned n d : cleaned d0 n d → init_inv d.
Proof. intros [Hf Hk _ _]. split; [|done]. intros b Hb. left. rewrite <-Habsent. by apply Hf. Qed.

(** Another process made the vault first. *)
Record beaten (tmp : option nat) (d : disk) : Prop := {
  bt_final : d_dir d !! Final = d_foreign d;
  bt_some : is_Some (d_foreign d);
  bt_temp : d_dir d !! t = tmp;
  bt_other n : n ≠ Final → n ≠ t → d_dir d !! n = d_dir d0 !! n;
  bt_past m : m ∈ d_past d → m !! Final = None ∨ m !! Final = d_foreign d;
  bt_files y f : d_files d0 !! y = Some f → d_files d !! y = Some f;
  bt_faults : (d_faults d0 ≤ d_faults d)%nat }.

Lemma beaten_inv tmp d : beaten tmp d → init_inv d.
Proof.
  intros [Hf Hs _ _ Hp Hk _]. split; [|done]. intros b [->|(m & Hm & ->)].
  - right. right. by rewrite Hf.
  - destruct (Hp m Hm) as [->| ->]; [by left|by right; right].
Qed.

Lemma beaten_fault tmp d : beaten tmp d → beaten tmp (fault d).
Proof. intros []. split; try done. simpl. lia. Qed.

Lemma beaten_remove tmp d : beaten tmp d → beaten None (with_dir d (delete t (d_dir d))).
Proof.
  intros [Hf Hs _ Ho Hp Hk Hle]. split; try done; simpl.
  - by rewrite lookup_delete_ne.
  - apply lookup_delete_eq.
  - intros n H1 H2. rewrite lookup_delete_ne by done. by apply Ho.
  - intros m [->|Hm]%elem_of_cons; [by right|by apply Hp].
Qed.

(** What [publish_steps] leaves. *)
Definition stepped (d : disk) (r : bool * (bool * option store_error)) : Prop :=
  (∃ s sy pr context, staged d0 t x s sy pr d ∧ d_faults d = S (d_faults d0) ∧ snd r = (true, Some (Wrapped context))) ∨
  (beaten (Some x) d ∧ r = (true, (true, Some ErrAlreadyInitialized))) ∨
  (fst r = true ∧ settled_as d (snd r)).

Lemma keeps_publish_steps d :
  staged d0 t x "" false false d → d_faults d = d_faults d0 →
  keeps init_inv d (publish_steps t x sealed) stepped.
Proof.
  intros Hst Hn. unfold publish_steps. apply (keeps_fill d0 t x init_inv init_inv_staged); [done|..].
  2: { intros closed e s sy pr d' Hs Hf. left. exists s, sy, pr, e. split; [done|]. split; [congruence|done]. }
  intros d1 Hs1 Hf1. apply keeps_bind, keeps_trigger. intros r d2 Ha. cbn [answers] in Ha.
  pose proof (st_dir _ _ _ _ _ _ _ Hs1) as Hd1.
  assert (d_dir d1 !! t = Some x) as Htx by (rewrite Hd1; apply lookup_insert_eq).
  assert (d_dir d1 !! Final = None) as Hfin by (rewrite Hd1, lookup_insert_ne; done).
  rewrite Htx, Hfin in Ha.
  assert (∀ m, m ∈ d_dir d1 :: d_past d1 → m !! Final = None) as Hpast.
  { intros m [->|Hm]%elem_of_cons; [done|]. rewrite <-Habsent. by eapply st_past. }
  destruct r as [|y|].
  - injection Ha as <-. set (d2 := with_dir d1 _).
    assert (published (Some x) (Some x) d2) as H2.
    { destruct Hs1 as [_ _ Hfi Hle _]. split; simpl; try done.
      - apply lookup_insert_eq.
      - by rewrite lookup_insert_ne.
      - intros n H1 H2. rewrite lookup_insert_ne by done. rewrite Hd1. by rewrite lookup_insert_ne.
      - by right.
      - intros m Hm. left. by apply Hpast. }
    split; [by eapply published_inv|]. apply keeps_bind.
    eapply keeps_mono; [|apply keeps_settle; [done|simpl; congruence]].
    intros d3 r Hr. simpl. right. right. done.
  - case_decide as Hy; [done|]. injection Ha as <-.
    match goal with |- init_inv ?d ∧ _ => set (d2 := d) end.
    assert (beaten (Some x) d2) as H2.
    { destruct Hs1 as [_ _ Hfi Hle _]. split; simpl; try done.
      - apply lookup_insert_eq.
      - by rewrite lookup_insert_ne.
      - intros n H1 H2. rewrite lookup_insert_ne by done. rewrite Hd1. by rewrite lookup_insert_ne.
      - intros m Hm. left. by apply Hpast.
      - intros z f Hz. rewrite lookup_insert_ne.
        + rewrite Hfi, lookup_insert_ne; [done|]. by intros ->; congruence.
        + intros <-. apply Hy. rewrite Hfi. apply lookup_insert_is_Some. destruct (decide (x = y)); [by left|right; by eexists]. }
    split; [by eapply beaten_inv|]. simpl. right. left. done.
  - injection Ha as <-. split; [by eapply init_inv_staged, staged_fault|]. left.
    eexists _, _, _, _. split; [by apply staged_fault|]. split; [simpl; congruence|done].
Qed.
End initialize.

Section publish.
Context (d0 : disk) (sealed : string) (Hsettled : settled d0).
Context (Habsent : d_dir d0 !! Final = None) (Hforeign : d_foreign d0 = None).

(** What [Initialize] promises once it saw no vault. *)
Record initialized (d : disk) (r : option store_error) : Prop := {
  in_done : r = None →
    settled d ∧ (∃ y, d_dir d !! Final = Some y ∧ d_files d !! y = Some (File sealed true true)) ∧
    ∀ i, d_dir d !! Temp i = d_dir d0 !! Temp i;
  in_beaten : r = Some ErrAlreadyInitialized → d_dir d !! Final = d_foreign d ∧ is_Some (d_foreign d);
  in_failed e : r = Some e → e ≠ ErrAlreadyInitialized → (d_faults d ≤ S (d_faults d0))%nat →
    (settled d ∧ d_dir d !! Final = None ∧ ∀ i, d_dir d !! Temp i = d_dir d0 !! Temp i) ∨ late e }.

Lemma initialized_failed d e :
  (e = ErrAlreadyInitialized → d_dir d !! Final = d_foreign d ∧ is_Some (d_foreign d)) →
  ((d_faults d ≤ S (d_faults d0))%nat → e ≠ ErrAlreadyInitialized →
    (settled d ∧ d_dir d !! Final = None ∧ ∀ i, d_dir d !! Temp i = d_dir d0 !! Temp i) ∨ late e) →
  initialized d (Some e).
Proof. intros Hb Hf. split; [done| |]; [by intros [= ->]; apply Hb|]. intros e' [= <-] He Hle. by apply Hf. Qed.

Lemma no_past d : d_past d = [] → settled d.
Proof. intros Hp b [->|(m & Hm & _)]; [done|]. rewrite Hp in Hm. by apply not_elem_of_nil in Hm. Qed.

(** The deferred removal, after the steps. *)
Lemma keeps_remove_if t x d (r : bool * option store_error) :
  t ≠ Final → d_dir d0 !! t = None → d_files d0 !! x = None → settled_as d0 sealed t x d r →
  keeps (init_inv d0 sealed) d (remove_if (fst r) t) (λ d' _, initialized d' (snd r)).
Proof.
  intros Ht Hdir Hx (fin & tmp & Hp & Htmp & Hset & Hcase).
  assert (∀ d', published d0 sealed t x fin None d' → (∀ i, d_dir d' !! Temp i = d_dir d0 !! Temp i)) as Htemps.
  { intros d' Hp' i. destruct (decide (Temp i = t)) as [->|Hne].
    - by rewrite (pb_temp _ _ _ _ _ _ _ Hp').
    - by apply (pb_other _ _ _ _ _ _ _ Hp'). }
  unfold remove_if. destruct (fst r) eqn:Hr.
  - assert (tmp = Some x) as -> by auto. destruct (snd r) as [e|] eqn:He; [|by destruct Hcase as (_ & ? & _)].
    destruct Hcase as (Hne & Hlt & Hwhy & _). specialize (Hwhy eq_refl).
    assert (∀ d', (d_faults d ≤ d_faults d')%nat → initialized d' (Some e)) as Hend.
    { intros d' Hle. apply initialized_failed; [done|]. intros Hle' _. right. left. destruct Hwhy as [Hw|Hw]; [lia|done]. }
    apply keeps_bind. eapply (keeps_remove_published d0 sealed t x Hx); [exact Hp|by right|..].
    + intros d' _ Hf. apply Hend. lia.
    + intros _. apply Hend. simpl. lia.
  - assert (tmp = None) as -> by (destruct Htmp as [?|[? ?]]; congruence). cbn [world_keeps].
    destruct (snd r) as [e|].
    + destruct Hcase as (Hne & _ & _ & Hearly). apply initialized_failed; [done|]. intros Hle _.
      destruct (Hearly Hle) as [[-> Hpast]|Hlate]; [left|by right].
      split; [by apply no_past|]. split; [apply (pb_final _ _ _ _ _ _ _ Hp)|by apply Htemps].
    + destruct Hcase as (-> & _ & Hpast). split; [|done|done]. intros _. split; [by apply no_past|]. split; [|by apply Htemps].
      exists x. split; [apply (pb_final _ _ _ _ _ _ _ Hp)|by eapply published_file].
Qed.

Lemma keeps_publish_new : keeps (init_inv d0 sealed) d0 (publish_new sealed) initialized.
Proof.
  assert (init_inv d0 sealed d0) as H0.
  { split; [|done]. intros b Hb. left. rewrite <-Habsent. by apply Hsettled. }
  unfold publish_new. apply keeps_bind, keeps_trigger. intros [[t x]|] d1 Ha.
  2: { injection Ha as <-. split; [by destruct H0|]. apply initialized_failed; [done|]. intros _ _. left.
       split; [exact Hsettled|done]. }
  pose proof Ha as Hc. cbn [answers] in Hc. case_decide as Hfresh; [|done].
  destruct Hfresh as (Ht & Hdir & Hx). injection Hc as Hd1.
  assert (d_faults d1 = d_faults d0) as Hf1 by by subst.
  apply (staged_created d0 t x Hsettled) in Ha. clear Hd1.
  assert (∀ s sy pr d, staged d0 t x s sy pr d → init_inv d0 sealed d) as HI by (intros; by eapply init_inv_staged).
  split; [by eapply HI|]. apply keeps_bind. eapply keeps_mono; [|by apply keeps_publish_steps].
  intros d2 [closed r] [(s & sy & pr & e & Hs & Hf & He)|[[Hb Hr]|[Hcl Hset]]]; cbn [fst snd] in *; apply keeps_bind.
  - subst r. apply (keeps_close d0 t x (init_inv d0 sealed) HI closed s sy pr); [done|]. intros d3 Hs3 Hf3.
    cbn [fst snd remove_if]. apply keeps_bind, keeps_bind.
    apply (keeps_remove_name d0 t x Ht Hdir Hx (init_inv d0 sealed) (init_inv_cleaned d0 sealed Habsent) s sy pr); [done|].
    intros d4 _ [Hfin _ Hge Hback _]. simpl. apply initialized_failed; [done|].
    intros Hle _. left. rewrite Hback by lia. split; [|done].
    intros b Hb. rewrite (Hfin b Hb). symmetry. apply Hfin. by left.
  - injection Hr as -> ->. cbn [close_unless world_keeps fst snd remove_if]. apply keeps_bind, keeps_bind, keeps_trigger.
    intros r d3 Ha3. cbn [answers] in Ha3. rewrite (bt_temp _ _ _ _ Hb) in Ha3.
    assert (∃ tmp, beaten d0 t tmp d3) as [tmp H3].
    { destruct r; [|done|]; injection Ha3 as <-.
      - exists None. by eapply beaten_remove.
      - exists (Some x). by apply beaten_fault. }
    split; [by eapply beaten_inv|]. apply initialized_failed; [|done]. intros _.
    split; [apply (bt_final _ _ _ _ H3)|apply (bt_some _ _ _ _ H3)].
  - subst closed. simpl. apply keeps_bind. eapply keeps_mono; [|by apply (keeps_remove_if t x)]. done.
Qed.
End publish.

(** ** [Load] *)

Section load.
Context (c : suite) (d : disk) (x : nat) (s : string).
Context (Hx : d_dir d !! Final = Some x) (Hs : d_files d !! x = Some (File s true true)).
Context (Hsize : (0 < slen s ≤ MaxEnvelopeBytes)%Z).

(** The directory as it was, but for failed calls. *)
Record only_faults (d' : disk) : Prop := {
  of_dir : d_dir d' = d_dir d;
  of_files : d_files d' = d_files d }.

Lemma only_faults_fault d' : only_faults d' → only_faults (fault d').
Proof. by intros []. Qed.

Definition load_result (master : string) (r : result store_error Data) : Prop :=
  r = match fst (Open c master s []) with Ok v => Ok v | Fail e => Fail (Crypto e) end ∨
  ∃ context, r = Fail (Wrapped context).

Lemma info_private i : info_of (File s true true) i → validatePrivateFile i = None ∧ in_symlink i = false ∧ in_size i = slen s.
Proof. intros [H ?]. by destruct (H eq_refl). Qed.

Lemma keeps_load master : keeps only_faults d (Load c master) (λ _, load_result master).
Proof.
  assert (only_faults d) as H0 by done.
  unfold Load. apply keeps_bind, keeps_trigger. intros [y|] d1 Ha; cbn [answers] in Ha.
  2: { injection Ha as <-. split; [by apply only_faults_fault|]. apply keeps_bind. unfold isSymlink.
       apply keeps_bind, keeps_trigger. intros a d2 Ha. cbn [answers] in Ha. simpl in Ha. rewrite Hx in Ha.
       destruct a as [| |i]; [|done|].
       - injection Ha as <-. split; [by repeat apply only_faults_fault|]. simpl. right. by eexists.
       - rewrite Hs in Ha. cbn [mbind option_bind] in Ha. case_decide as Hi; [|done]. injection Ha as <-.
         split; [by apply only_faults_fault|]. destruct (info_private i (proj2 Hi)) as (_ & Hsym & _).
         simpl. rewrite Hsym. right. by eexists. }
  case_decide as Hy; [|done]. injection Ha as <-. rewrite Hx in Hy. injection Hy as <-. split; [done|].
  assert (∀ d1 r, only_faults d1 → load_result master r →
            keeps only_faults d1 (_ ← trigger (Close x); Ret r) (λ _, load_result master)) as Hend.
  { intros d1 r H1 Hr. apply keeps_bind, keeps_trigger. intros ok d2 Ha.
    apply ok_or_fault_cases in Ha as [[-> [= <-]]|[-> ->]]; (split; [|done]); [done|by apply only_faults_fault]. }
  apply keeps_bind. apply keeps_bind, keeps_trigger. intros [i|] d1 Ha; cbn [answers] in Ha.
  2: { injection Ha as <-. split; [by apply only_faults_fault|]. apply Hend; [by apply only_faults_fault|]. right. by eexists. }
  rewrite Hs in Ha. cbn [mbind option_bind] in Ha. case_decide as Hi; [|done]. injection Ha as <-. split; [done|].
  destruct (info_private i (proj2 Hi)) as (Hv & _ & Hn). rewrite Hv, Hn.
  rewrite (proj2 (Z.leb_gt _ _)), (proj2 (Z.ltb_ge _ _)) by lia. cbn [orb].
  apply keeps_bind. unfold readEnvelope. apply keeps_bind, keeps_trigger. intros [data|] d1 Ha; cbn [answers] in Ha.
  2: { injection Ha as <-. split; [by apply only_faults_fault|]. apply Hend; [by apply only_faults_fault|]. right. by eexists. }
  rewrite Hs in Ha. cbn [mbind option_bind f_data] in Ha.
  unfold limited in Ha. rewrite (proj2 (Z.leb_le _ _)) in Ha by lia.
  destruct (data =? s)%string eqn:Hd; [|done]. apply String.eqb_eq in Hd as ->. injection Ha as <-. split; [done|].
  cbn [world_keeps]. rewrite (proj2 (Z.eqb_neq _ _)), (proj2 (Z.ltb_ge _ _)) by lia. cbn [orb].
  apply Hend; [done|]. left. done.
Qed.
End load.

(** ** [Save] and a crash *)

Section save_theorems.
Context (c : suite) (Hc : suite_ok c) (salt_read nonce_read : read_full).
Context (Hsalt : rf_full salt_read = true) (Hnonce : rf_full nonce_read = true).
Context (Hsize : filled salt_read saltSize) (Hnsize : filled nonce_read (NonceSizeX c)).
Context (master : string) (new : Data) (Hnew : wire_ok new).

(** A file that [Load] opens to [data]. *)
Definition holds_vault (d : disk) (x : nat) (data : Data) : Prop :=
  ∃ s, d_files d !! x = Some (File s true true) ∧ fst (Open c master s []) = Ok data.

Lemma sealed_opens sealed :
  sealed_vault c salt_read nonce_read master new = Ok sealed → fst (Open c master sealed []) = Ok new.
Proof.
  intros Hs. pose proof (Seal_opens c Hc salt_read nonce_read master new DefaultKDFParams Hnew Hsalt Hnonce Hsize Hnsize) as H.
  unfold sealed_vault in Hs. rewrite Hs in H. apply H.
Qed.

Lemma keeps_save d0 :
  settled d0 →
  keeps (λ d, d_dir d = d_dir d0 ∧ settled d ∧ d_files d = d_files d0 ∨
              ∃ sealed, sealed_vault c salt_read nonce_read master new = Ok sealed ∧ save_inv d0 sealed d)
    d0 (Save c salt_read nonce_read false master new)
    (λ d r, r = None →
       settled d ∧ ∃ y sealed, sealed_vault c salt_read nonce_read master new = Ok sealed ∧
         d_dir d !! Final = Some y ∧ d_files d !! y = Some (File sealed true true) ∧
         ((d_faults d ≤ S (d_faults d0))%nat → ∀ i, d_dir d !! Temp i = d_dir d0 !! Temp i)).
Proof.
  intros Hset. unfold Save. apply keeps_bind, keeps_trigger. intros a d1 Ha.
  assert (d1 = d0 ∨ a = StatErr ∧ d1 = fault d0) as Hd1.
  { cbn [answers] in Ha. destruct a as [| |i], (d_dir d0 !! Final) as [x|]; try done;
      try (injection Ha as <-; auto; fail).
    destruct (d_files d0 !! x); [|done]. cbn [mbind option_bind] in Ha. case_decide; [|done]. injection Ha as <-. by left. }
  destruct Hd1 as [->|[-> ->]]; [|by split; [left|]].
  split; [by left|].
  assert (keeps (λ d, d_dir d = d_dir d0 ∧ settled d ∧ d_files d = d_files d0 ∨
              ∃ sealed, sealed_vault c salt_read nonce_read master new = Ok sealed ∧ save_inv d0 sealed d)
    d0 match sealed_vault c salt_read nonce_read master new with
       | Fail e => Ret (Some (Crypto e))
       | Ok sealed => e ← writeAtomicWithOps sealed; Ret (match e with None => None | Some _ => Some (Wrapped "save vault") end)
       end
    (λ d r, r = None →
       settled d ∧ ∃ y sealed, sealed_vault c salt_read nonce_read master new = Ok sealed ∧
         d_dir d !! Final = Some y ∧ d_files d !! y = Some (File sealed true true) ∧
         ((d_faults d ≤ S (d_faults d0))%nat → ∀ i, d_dir d !! Temp i = d_dir d0 !! Temp i))) as Hw.
  { destruct (sealed_vault _ _ _ _ _) as [sealed|e] eqn:Hs; [|done].
    apply keeps_bind. eapply world_keeps_mono; [..|exact (keeps_writeAtomic d0 sealed Hset)].
    - intros d Hd. right. by exists sealed.
    - intros d r Hr. simpl. destruct r; [done|]. intros _. destruct (sv_done _ _ _ _ Hr eq_refl) as (Hst & y & Hy & Hf).
      split; [done|]. exists y, sealed. split; [done|]. split; [done|]. split; [done|]. apply (sv_clean _ _ _ _ Hr). }
  destruct a as [| |i]; [done|exact Hw|]. destruct (validatePrivateFile i); [done|exact Hw].
Qed.

(** After a crash the vault's file is one of those it may have been. *)
Lemma load_after_crash d1 d2 (P : Data → Prop) :
  crash d1 d2 →
  (∀ b, may_be d1 Final b → ∃ y s data, b = Some y ∧ d_files d1 !! y = Some (File s true true) ∧
     fst (Open c master s []) = Ok data ∧ P data) →
  keeps (λ _, True) d2 (Load c master) (λ _ r, (∃ data, r = Ok data ∧ P data) ∨ ∃ context, r = Fail (Wrapped context)).
Proof.
  intros [Hdir Hfiles _] Hb. destruct (Hb _ (Hdir Final)) as (y & s & data & Hy & Hf & Ho & HP).
  apply Hfiles in Hf; [|done].
  eapply world_keeps_mono; [..|exact (keeps_load c d2 y s Hy Hf (Open_size _ _ _ _ Ho) master)]; [done|].
  intros d r [->|Hr]; [|by right]. left. exists data. by rewrite Ho.
Qed.

(** C9: wherever saving the vault stops, by a crash at any point or by the
    failure of any call, the vault that is found afterwards is the old one or
    the new one, whole: whatever the crash makes of contents that were not
    synced and of directory entries that were not, loading with the master
    password returns the old data or the new data, or reports that it could not
    read the file; it never finds a torn, empty or foreign vault. *)
Theorem Save_crash_safe d0 d1 d2 d3 x old r :
  settled d0 → d_dir d0 !! Final = Some x → holds_vault d0 x old →
  stops d0 (Save c salt_read nonce_read false master new) d1 → crash d1 d2 →
  halts d2 (Load c master) d3 r →
  r = Ok old ∨ r = Ok new ∨ ∃ context, r = Fail (Wrapped context).
Proof.
  intros Hset Hx (s & Hs & Ho) Hstop Hcrash Hload.
  pose proof (keeps_stops _ _ _ _ _ (or_introl (conj eq_refl (conj Hset eq_refl))) (keeps_save d0 Hset) Hstop) as Hinv.
  assert (∀ b, may_be d1 Final b → ∃ y s data, b = Some y ∧ d_files d1 !! y = Some (File s true true) ∧
            fst (Open c master s []) = Ok data ∧ (data = old ∨ data = new)) as Hmay.
  { intros b Hb. destruct Hinv as [(Hd & Hst & Hf)|(sealed & Hsealed & [Hfin Hkept])].
    - exists x, s, old. rewrite (Hst b Hb), Hd, Hf. auto.
    - destruct (Hfin b Hb) as [->|(y & -> & Hy)].
      + exists x, s, old. auto.
      + exists y, sealed, new. split; [done|]. split; [done|]. split; [by apply sealed_opens|by right]. }
  destruct (keeps_halts _ _ _ _ _ _ (load_after_crash d1 d2 _ Hcrash Hmay) Hload) as [(data & -> & [->| ->])|Hr]; auto.
Qed.

(** A save that reports success is durable and clean: after it, even if the
    machine crashes at once, loading with the master password returns the new
    data or reports that it could not read the file; and no temporary file is
    left in the directory, unless more than one call failed. *)
Theorem Save_durable d0 d1 d2 d3 r :
  settled d0 →
  halts d0 (Save c salt_read nonce_read false master new) d1 None →
  ((d_faults d1 ≤ S (d_faults d0))%nat → ∀ i, d_dir d1 !! Temp i = d_dir d0 !! Temp i) ∧
  (crash d1 d2 → halts d2 (Load c master) d3 r → r = Ok new ∨ ∃ context, r = Fail (Wrapped context)).
Proof.
  intros Hset Hhalt.
  destruct (keeps_halts _ _ _ _ _ _ (keeps_save d0 Hset) Hhalt eq_refl)
    as (Hst & y & sealed & Hsealed & Hy & Hf & Hclean).
  split; [done|]. intros Hcrash Hload.
  assert (∀ b, may_be d1 Final b → ∃ y s data, b = Some y ∧ d_files d1 !! y = Some (File s true true) ∧
            fst (Open c master s []) = Ok data ∧ data = new) as Hmay.
  { intros b Hb. exists y, sealed, new. rewrite (Hst b Hb). split; [done|]. split; [done|].
    split; [by apply sealed_opens|done]. }
  destruct (keeps_halts _ _ _ _ _ _ (load_after_crash d1 d2 _ Hcrash Hmay) Hload) as [(data & -> & ->)|Hr]; auto.
Qed.
End save_theorems.

(** ** [Initialize], whatever the directory *)

(** Nothing but a failed call. *)
Lemma settled_fault d : settled d → settled (fault d).
Proof. done. Qed.

(** What [Initialize] may make of the vault's path. *)
Definition init_path (d0 d : disk) (b : option nat) : Prop :=
  b = d_dir d0 !! Final ∨
  d_dir d0 !! Final = None ∧
    ((∃ y sealed, b = Some y ∧ d_files d !! y = Some (File sealed true true)) ∨ b = d_foreign d ∧ is_Some b).

Definition init_promise (d0 d : disk) (r : option store_error) : Prop :=
  match r with
  | None =>
      d_dir d0 !! Final = None ∧ settled d ∧
      (∃ y sealed, d_dir d !! Final = Some y ∧ d_files d !! y = Some (File sealed true true)) ∧
      ∀ i, d_dir d !! Temp i = d_dir d0 !! Temp i
  | Some ErrAlreadyInitialized =>
      d_dir d !! Final = d_dir d0 !! Final ∨ d_dir d !! Final = d_foreign d ∧ is_Some (d_foreign d)
  | Some e =>
      (d_faults d ≤ S (d_faults d0))%nat →
      (settled d ∧ d_dir d !! Final = d_dir d0 !! Final ∧ ∀ i, d_dir d !! Temp i = d_dir d0 !! Temp i) ∨ late e
  end.

Lemma init_promise_unchanged d0 e : settled d0 → init_promise d0 d0 (Some e).
Proof. intros. destruct e; simpl; auto. Qed.

Lemma initialized_promise d0 sealed d r : d_dir d0 !! Final = None → initialized d0 sealed d r → init_promise d0 d r.
Proof.
  intros Habs [Hd Hb Hf]. destruct r as [e|].
  - destruct (decide (e = ErrAlreadyInitialized)) as [->|Hne]; [right; by apply Hb|].
    destruct e; try done; intros Hle; rewrite Habs; by eapply Hf.
  - destruct (Hd eq_refl) as (? & (y & ? & ?) & ?). simpl. eauto 10.
Qed.

Lemma keeps_initialize c salt_read nonce_read master d0 :
  settled d0 → d_foreign d0 = None →
  keeps (λ d, ∀ b, may_be d Final b → init_path d0 d b) d0 (Initialize c salt_read nonce_read master) (init_promise d0).
Proof.
  intros Hset Hforeign.
  assert (∀ b, may_be d0 Final b → init_path d0 d0 b) as H0 by (intros b Hb; left; by apply Hset).
  unfold Initialize. apply keeps_bind, keeps_trigger. intros a d1 Ha. cbn [answers] in Ha. destruct a as [| |i].
  - injection Ha as <-. split; [exact H0|]. simpl. by left.
  - destruct (d_dir d0 !! Final) eqn:Habs; [done|]. injection Ha as <-. split; [exact H0|].
    destruct (sealed_vault _ _ _ _ _) as [sealed|e]; [|by apply init_promise_unchanged].
    eapply world_keeps_mono; [..|exact (keeps_publish_new d0 sealed Hset Habs)].
    + intros d Hi b Hb. unfold init_path. rewrite Habs. destruct (ii_final _ _ _ Hi b Hb) as [->|[(y & -> & Hy)|Hfo]]; [by left| |by right; auto].
      right. split; [done|]. left. by exists y, sealed.
    + intros d r. by apply initialized_promise.
  - destruct (d_dir d0 !! Final) as [x|]; [|done]. destruct (d_files d0 !! x); [|done].
    cbn [mbind option_bind] in Ha. case_decide; [|done]. injection Ha as <-. split; [exact H0|].
    by apply init_promise_unchanged.
Qed.

(** Initializing never replaces a vault: wherever it stops, the vault's
    path is what it was, and when there was none, it may also be the new vault,
    whole, or the vault another process made meanwhile, which is left alone.
    When it reports success there was no vault before, the new one is durable,
    and no temporary file is left.  When it fails, and no more than one call
    failed, the directory is as it was, for good: a vault that could not be made
    durable is taken back; only a failure to clean up after the vault was
    durable leaves it. *)
Theorem Initialize_exclusive c salt_read nonce_read master d0 :
  settled d0 → d_foreign d0 = None →
  (∀ d1 b, stops d0 (Initialize c salt_read nonce_read master) d1 → may_be d1 Final b → init_path d0 d1 b) ∧
  (∀ d1 r, halts d0 (Initialize c salt_read nonce_read master) d1 r → init_promise d0 d1 r).
Proof.
  intros Hset Hforeign. pose proof (keeps_initialize c salt_read nonce_read master d0 Hset Hforeign) as Hk. split.
  - intros d1 b Hs. revert b. refine (keeps_stops _ _ _ _ _ _ Hk Hs). intros b Hb. left. by apply Hset.
  - intros d1 r Hh. exact (keeps_halts _ _ _ _ _ _ Hk Hh).
Qed.

(** ** A sample run *)

Definition sample_new : Data := {| da_servers := Some ∅; da_recovery_key := "k" |}.

Definition sample_text (data : Data) : string :=
  match sealed_vault toy_suite (sample_random 16) (sample_random 24) "master" data with Ok s => s | Fail _ => "" end.

Definition sample_disk : disk :=
  Disk {[ Final := O ]} [] {[ O := File (sample_text sample_data) true true ]} 0 None.

Definition private_info (x : nat) (size : Z) : info :=
  {| in_file := x; in_regular := true; in_symlink := false; in_perm := 384; in_owner := true; in_size := size |}.

(** The answers of a directory on which no call fails; the next temporary name
    and file are those no one uses. *)
Definition honest {X} (d : disk) (e : fs_op X) : X :=
  match e in fs_op X return X with
  | Lstat n =>
      match d_dir d !! n with
      | Some x => StatInfo (private_info x (from_option (λ f, slen (f_data f)) 0%Z (d_files d !! x)))
      | None => StatNone
      end
  | CreateTemp => Some (Temp 0, fresh (dom (d_files d)))
  | Chmod _ => true
  | Write _ data => (slen data, true)
  | Sync _ => true
  | Close _ => true
  | Link a b => match d_dir d !! b with Some x => LinkExist x | None => LinkOk end
  | Rename _ _ => true
  | Remove a => match d_dir d !! a with Some _ => RemoveOk | None => RemoveNotExist end
  | OpenDir => true
  | SyncDir => true
  | CloseDir => true
  | OpenRead => d_dir d !! Final
  | Stat x => Some (private_info x (from_option (λ f, slen (f_data f)) 0%Z (d_files d !! x)))
  | ReadAll x limit => Some (limited limit (from_option f_data "" (d_files d !! x)))
  | WriteAtomic _ => true
  end.

Abbreviation run_for := (world_run_for (@answers) (@honest)).
Abbreviation run_all := (world_run (@answers) (@honest)).

Definition sample_save : program (option store_error) :=
  Save toy_suite (sample_random 16) (sample_random 24) false "master" sample_new.

(** The save stopped after the rename, before the directory was synced. *)
Definition sample_stopped : disk := default sample_disk (run_for 7 sample_disk sample_save).
Definition sample_saved : disk := fst (default (sample_disk, None) (run_all sample_disk sample_save)).

(** The crash that undoes nothing, and the one that restores the old entries. *)
Definition calm_crash (d : disk) : disk := Disk (d_dir d) [] (d_files d) (d_faults d) (d_foreign d).
Definition old_crash (d : disk) : disk := Disk (default ∅ (last (d_dir d :: d_past d))) [] (d_files d) (d_faults d) (d_foreign d).

Lemma calm_crash_ok d : crash d (calm_crash d).
Proof. split; [by left|done|done]. Qed.

Lemma old_crash_ok d : crash d (old_crash d).
Proof.
  split; [|done|done]. intros n. simpl. destruct (d_past d) as [|m l] eqn:Hp; [by left|].
  right. rewrite last_cons_cons, last_cons. exists (from_option id m (last l)). rewrite Hp.
  split; [|by destruct (last l)]. destruct (last l) as [m'|] eqn:Hl; simpl; [|by left]. right. by apply last_Some_elem_of.
Qed.

Definition sample_load (d : disk) : disk * result store_error Data :=
  default (d, Fail ErrUnsafePath) (run_all d (Load toy_suite "master")).

Lemma sample_new_ok : wire_ok sample_new.
Proof. intros m [= <-]. by apply map_Forall_empty. Qed.

Lemma sample_settled : settled sample_disk.
Proof. intros b [->|(m & Hm & _)]; [done|]. by apply not_elem_of_nil in Hm. Qed.

Lemma sample_holds : holds_vault toy_suite "master" sample_disk 0 sample_data.
Proof. exists (sample_text sample_data). split; [done|]. vm_compute. reflexivity. Qed.

Lemma sample_stops : stops sample_disk sample_save sample_stopped.
Proof. apply (run_for_stops (reply := @honest) 7). vm_compute. reflexivity. Qed.

Lemma sample_halts : halts sample_disk sample_save sample_saved None.
Proof. apply (run_all_halts (reply := @honest)). vm_compute. reflexivity. Qed.

Lemma sample_load_halts d :
  match run_all d (Load toy_suite "master") with Some _ => true | None => false end = true →
  halts d (Load toy_suite "master") (fst (sample_load d)) (snd (sample_load d)).
Proof.
  intros Hr. apply (run_all_halts (reply := @honest)). unfold sample_load. by destruct (run_all _ _) as [[]|].
Qed.

Lemma Save_crash_safe_witness :
  let r := snd (sample_load (old_crash sample_stopped)) in
  r = Ok sample_data ∨ r = Ok sample_new ∨ ∃ context, r = Fail (Wrapped context).
Proof.
  refine (Save_crash_safe toy_suite toy_suite_ok (sample_random 16) (sample_random 24) eq_refl eq_refl
    (λ _, eq_refl) (λ _, eq_refl) "master" sample_new sample_new_ok sample_disk sample_stopped
    (old_crash sample_stopped) (fst (sample_load (old_crash sample_stopped))) 0 sample_data _ sample_settled eq_refl
    sample_holds sample_stops (old_crash_ok _) _).
  apply sample_load_halts. vm_compute. reflexivity.
Defined.

Lemma Save_durable_witness :
  (∀ i, d_dir sample_saved !! Temp i = d_dir sample_disk !! Temp i) ∧
  let r := snd (sample_load (calm_crash sample_saved)) in r = Ok sample_new ∨ ∃ context, r = Fail (Wrapped context).
Proof.
  destruct (Save_durable toy_suite toy_suite_ok (sample_random 16) (sample_random 24) eq_refl eq_refl
    (λ _, eq_refl) (λ _, eq_refl) "master" sample_new sample_new_ok sample_disk sample_saved
    (calm_crash sample_saved) (fst (sample_load (calm_crash sample_saved)))
    (snd (sample_load (calm_crash sample_saved))) sample_settled sample_halts) as [Hclean Hload].
  split.
  - apply Hclean. vm_compute. lia.
  - apply Hload; [apply calm_crash_ok|]. apply sample_load_halts. vm_compute. reflexivity.
Defined.

Definition empty_disk : disk := Disk ∅ [] ∅ 0 None.
Definition sample_initialize : program (option store_error) :=
  Initialize toy_suite (sample_random 16) (sample_random 24) "master".
Definition sample_initialized : disk := fst (default (empty_disk, None) (run_all empty_disk sample_initialize)).

Lemma empty_settled : settled empty_disk.
Proof. intros b [->|(m & Hm & _)]; [done|]. by apply not_elem_of_nil in Hm. Qed.

Lemma Initialize_exclusive_witness : init_promise empty_disk sample_initialized None.
Proof.
  apply (proj2 (Initialize_exclusive toy_suite (sample_random 16) (sample_random 24) "master" empty_disk
                  empty_settled eq_refl)).
  apply (run_all_halts (reply := @honest)). vm_compute. reflexivity.
Defined.
