(* ===== verification/OpsLog.v ===== *)
(** * The operational log: [internal/opslog/logger.go]

    Lines of JSON without a command or an output, by level, in a file that is
    moved to the first of three backups when a line would make it too long.
    Every error is ignored: a write that fails loses its line and nothing else.
    The files are an operation away, so that each call may fail. *)

From S2P Require Import Prelude GoStr Utf8 Frame GoTime Json Wire Prog.
Open Scope string_scope.
Open Scope list_scope.

Definition maxBytes : Z := Z.shiftl 10 20.

Inductive Level := Debug | Info | Warn | Error | Off.

Definition level_rank (l : Level) : Z :=
  match l with Debug => 0 | Info => 1 | Warn => 2 | Error => 3 | Off => 4 end.

#[export] Instance Level_eq_dec : EqDecision Level.
Proof. solve_decision. Defined.

Definition ParseLevel (value : string) : option Level :=
  if String.eqb value "debug" then Some Debug
  else if str_is_empty value || String.eqb value "info" then Some Info
  else if String.eqb value "warn" then Some Warn
  else if String.eqb value "error" then Some Error
  else if String.eqb value "off" then Some Off
  else None.

Definition levelName (level : Level) : string :=
  match level with Debug => "debug" | Info => "info" | Warn => "warn" | Error => "error" | Off => "off" end.

(** The path is the one of [New]'s directory. *)
Record Logger := { lg_level : Level }.

(** The log is file 0, its backups are 1 to 3. *)
Inductive log_op : Type → Type :=
| MkdirLogs : log_op bool
| ChmodLogs : log_op bool
| StatLog : log_op (option Z)
| RemoveLog (i : nat) : log_op bool
| RenameLog (i j : nat) : log_op bool
| OpenLog : log_op bool
| WriteLog (line : string) : log_op nat
| CloseLog : log_op unit.

Definition New (configured : string) : prog log_op (option Logger) :=
  match ParseLevel configured with
  | None => Ret None
  | Some level =>
      made ← trigger MkdirLogs;
      if negb made then Ret None
      else
        secured ← trigger ChmodLogs;
        Ret (if secured : bool then Some {| lg_level := level |} else None)
  end.

Definition SetLevel (l : Logger) (value : string) : Logger * bool :=
  match ParseLevel value with Some level => ({| lg_level := level |}, true) | None => (l, false) end.

Definition rotate (incoming : Z) : prog log_op unit :=
  size ← trigger StatLog;
  match size with
  | None => Ret tt
  | Some size =>
      if (size + incoming <=? maxBytes)%Z then Ret tt
      else
        _ ← trigger (RemoveLog 3);
        _ ← trigger (RenameLog 2 3);
        _ ← trigger (RenameLog 1 2);
        _ ← trigger (RenameLog 0 1);
        Ret tt
  end.

(** What is written of an event. *)
Record entry := {
  en_component : string; en_event : string; en_request_id : string; en_alias : string; en_code : string; en_duration : Z }.

(** [json.Marshal] of a map writes its keys in order. *)
Definition entry_json (now : Z) (level : Level) (e : entry) : json :=
  JObj (pieces
    [ req "component" (JStr (en_component e));
      opt (en_duration e <=? 0)%Z "duration_ms" (jint (Z.quot (en_duration e) 1000000));
      opt (str_is_empty (en_code e)) "error_code" (JStr (en_code e));
      req "event" (JStr (en_event e));
      req "level" (JStr (levelName level));
      opt (str_is_empty (en_request_id e)) "request_id" (JStr (en_request_id e));
      opt (str_is_empty (en_alias e)) "server_alias" (JStr (en_alias e));
      req "timestamp" (JStr (format_rfc3339_nano now)) ]).

Definition log_line (now : Z) (level : Level) (e : entry) : string := print (entry_json now level e) +:+ String newline "".

Definition silent (l : Logger) (level : Level) : bool :=
  (level_rank level <? level_rank (lg_level l))%Z || bool_decide (lg_level l = Off).

Definition Write (l : Logger) (now : Z) (level : Level) (e : entry) : prog log_op unit :=
  if silent l level then Ret tt
  else
    let line := log_line now level e in
    _ ← rotate (slen line);
    opened ← trigger OpenLog;
    if negb opened then Ret tt
    else
      _ ← trigger (WriteLog line);
      _ ← trigger CloseLog;
      Ret tt.

(** ** The files *)

Record logs := Logs { lo_files : gmap nat string; lo_faults : nat }.

Definition log_file (w : logs) (i : nat) : string := default "" (lo_files w !! i).

Definition lo_failed (w : logs) : logs := Logs (lo_files w) (S (lo_faults w)).

Definition log_acts {X : Type} (w : logs) (e : log_op X) : X → option logs :=
  match e in log_op X return X → option logs with
  | MkdirLogs | ChmodLogs => λ _, Some w
  | StatLog => λ r,
      match r, lo_files w !! 0%nat with
      | Some n, Some s => if Z.eqb n (slen s) then Some w else None
      | Some _, None => None
      | None, Some _ => Some (lo_failed w)
      | None, None => Some w
      end
  | RemoveLog i => λ ok,
      match ok, lo_files w !! i with
      | true, Some _ => Some (Logs (delete i (lo_files w)) (lo_faults w))
      | true, None => None
      | false, Some _ => Some (lo_failed w)
      | false, None => Some w
      end
  | RenameLog i j => λ ok,
      match ok, lo_files w !! i with
      | true, Some s => Some (Logs (<[j := s]> (delete i (lo_files w))) (lo_faults w))
      | true, None => None
      | false, Some _ => Some (lo_failed w)
      | false, None => Some w
      end
  | OpenLog => λ ok,
      if ok : bool then Some (Logs (<[0%nat := log_file w 0]> (lo_files w)) (lo_faults w)) else Some (lo_failed w)
  | WriteLog line => λ n,
      let w' := Logs (<[0%nat := log_file w 0 +:+ str_take n line]> (lo_files w)) (lo_faults w) in
      Some (if (n <? String.length line)%nat then lo_failed w' else w')
  | CloseLog => λ _, Some w
  end.

Abbreviation log_keeps := (world_keeps (@log_acts) (λ _, True)).
Abbreviation log_halts := (world_halts (@log_acts)).

(** ** What a write leaves *)

(** The text of the log, oldest line first; and without its oldest file. *)
Definition recent (w : logs) : string := log_file w 2 +:+ log_file w 1 +:+ log_file w 0.
Definition whole (w : logs) : string := log_file w 3 +:+ recent w.

Definition within (w : logs) : Prop := ∀ i, (slen (log_file w i) ≤ maxBytes)%Z.

(** A write without failures: the line is at the end, and everything before it
    is there but perhaps the oldest file, when the newest was full. *)
Record appended (w : logs) (line : string) (w' : logs) : Prop := {
  ap_text : whole w' = whole w +:+ line ∨ (maxBytes < slen (log_file w 0) + slen line)%Z ∧ whole w' = recent w +:+ line;
  ap_newest : ∃ s, log_file w' 0 = s +:+ line;
  ap_within : within w → (slen line ≤ maxBytes)%Z → within w' }.

Lemma lookup_log_file w i s : lo_files w !! i = Some s → log_file w i = s.
Proof. unfold log_file. by intros ->. Qed.

(** Moving a file, if there is one, to where there is none. *)
Lemma rename_moves w i j ok w' : i ≠ j → log_acts w (RenameLog i j) ok = Some w' →
  (lo_faults w ≤ lo_faults w')%nat ∧
  (lo_faults w' = lo_faults w → lo_files w !! j = None →
    lo_files w' !! j = lo_files w !! i ∧ lo_files w' !! i = None ∧ ∀ k, k ≠ i → k ≠ j → lo_files w' !! k = lo_files w !! k).
Proof.
  intros Hne Ha. cbn [log_acts] in Ha.
  destruct ok, (lo_files w !! i) as [s|] eqn:Hi; simplify_eq; simpl; (split; [lia|]); try lia; intros _ Hj; [|by rewrite Hj].
  rewrite lookup_insert_eq, lookup_insert_ne, lookup_delete_eq by done. split_and!; [done|done|].
  intros k Hki Hkj. by rewrite lookup_insert_ne, lookup_delete_ne by done.
Qed.

(** What [rotate] leaves when nothing failed: every file where it was, or one
    further. *)
Definition rotated (w : logs) (incoming : Z) (w' : logs) : Prop :=
  lo_files w' = lo_files w ∧ (log_file w 0 = "" ∨ slen (log_file w 0) + incoming ≤ maxBytes)%Z ∨
  (maxBytes < slen (log_file w 0) + incoming)%Z ∧ lo_files w' !! 0%nat = None ∧ lo_files w' !! 1%nat = lo_files w !! 0%nat ∧
  lo_files w' !! 2%nat = lo_files w !! 1%nat ∧ lo_files w' !! 3%nat = lo_files w !! 2%nat ∧
  (∀ i, (3 < i)%nat → lo_files w' !! i = lo_files w !! i).

Lemma rotate_ok w incoming :
  log_keeps w (rotate incoming) (λ w' _, (lo_faults w ≤ lo_faults w')%nat ∧ (lo_faults w' = lo_faults w → rotated w incoming w')).
Proof.
  unfold rotate. apply keeps_bind. intros size w0 Ha. split; [done|]. cbn [log_acts] in Ha.
  destruct size as [n|], (lo_files w !! 0%nat) as [s0|] eqn:H0; simplify_eq; cbn [world_keeps]; simpl; try (split; [lia|lia || intros _]).
  2: { left. split; [done|left]. unfold log_file. by rewrite H0. }
  destruct (Z.eqb_spec n (slen s0)) as [->|]; [|done]. simplify_eq. pose proof (lookup_log_file _ _ _ H0) as Hl0.
  destruct (_ <=? _)%Z eqn:Hle; simpl.
  { split; [done|]. intros _. left. split; [done|right]. rewrite Hl0. bool_hyps. lia. }
  intros ok1 w1 Hr1. split; [done|].
  assert ((lo_faults w0 ≤ lo_faults w1)%nat ∧ (lo_faults w1 = lo_faults w0 → lo_files w1 !! 3%nat = None ∧
    ∀ k, k ≠ 3%nat → lo_files w1 !! k = lo_files w0 !! k)) as [Hf1 Hw1].
  { destruct ok1, (lo_files w0 !! 3%nat) eqn:H3; simplify_eq; simpl; (split; [lia|]); try lia; intros _; [|by split].
    split; [by rewrite lookup_delete_eq|]. intros k Hk. by rewrite lookup_delete_ne. }
  intros ok2 w2 [Hf2 Hw2]%rename_moves; [|done]. split; [done|].
  intros ok3 w3 [Hf3 Hw3]%rename_moves; [|done]. split; [done|].
  intros ok4 w4 [Hf4 Hw4]%rename_moves; [|done]. split; [done|]. split; [lia|]. intros He.
  destruct Hw1 as [H13 H1]; [lia|]. destruct Hw2 as (H23 & H22 & H2); [lia|done|]. destruct Hw3 as (H32 & H31 & H3); [lia|done|].
  destruct Hw4 as (H41 & H40 & H4); [lia|done|]. right. bool_hyps. split; [rewrite Hl0; lia|]. split; [done|].
  split; [by rewrite H41, H3, H2, H1 by done|]. split; [by rewrite H4, H32, H2, H1 by done|].
  split; [by rewrite H4, H3, H23, H1 by done|].
  intros i Hi. by rewrite H4, H3, H2, H1 by lia.
Qed.

Lemma log_file_append w w1 line i f :
  lo_files w1 = <[0%nat := f +:+ line]> (<[0%nat := f]> (lo_files w)) → log_file w1 i = if Nat.eqb i 0 then f +:+ line else log_file w i.
Proof.
  intros Hf. unfold log_file. rewrite Hf. destruct (Nat.eqb_spec i 0) as [->|]; [by rewrite lookup_insert_eq|].
  by rewrite !lookup_insert_ne by done.
Qed.

Lemma rotated_appended w line w1 w' : rotated w (slen line) w1 →
  lo_files w' = <[0%nat := log_file w1 0 +:+ line]> (<[0%nat := log_file w1 0]> (lo_files w1)) → appended w line w'.
Proof.
  intros Hr Hf. pose proof (λ i, log_file_append _ _ _ i _ Hf) as Hw. clear Hf.
  destruct Hr as [[Hsame Hsize]|(Hbig & H0 & H1 & H2 & H3 & Hi)].
  - assert (∀ i, log_file w1 i = log_file w i) as Hl by (intros i; unfold log_file; by rewrite Hsame).
    split; [left|exists (log_file w1 0); apply Hw|].
    + unfold whole, recent. rewrite !Hw, !Hl. simpl. by rewrite !str_app_assoc.
    + intros Hin Hlen i. rewrite Hw, !Hl. destruct (Nat.eqb i 0); [|apply Hin]. rewrite slen_app.
      destruct Hsize as [->|Hsize]; [simpl; unfold slen at 1; simpl; lia|lia].
  - assert (log_file w1 0 = "") as Hl0 by (unfold log_file; by rewrite H0).
    assert (log_file w1 1 = log_file w 0 ∧ log_file w1 2 = log_file w 1 ∧ log_file w1 3 = log_file w 2 ∧
      ∀ i, (3 < i)%nat → log_file w1 i = log_file w i) as (Hl1 & Hl2 & Hl3 & Hli).
    { unfold log_file. rewrite H1, H2, H3. split_and!; try done. intros i Hlt. by rewrite Hi. }
    split; [right|exists (log_file w1 0); apply Hw|].
    + split; [done|]. unfold whole, recent. rewrite !Hw, Hl0, Hl1, Hl2, Hl3. simpl. by rewrite !str_app_assoc.
    + intros Hin Hlen i. rewrite Hw, Hl0. destruct i as [|[|[|[|i]]]]; simpl; rewrite ?Hl1, ?Hl2, ?Hl3; try apply Hin; [done|].
      rewrite Hli by lia. apply Hin.
Qed.

(** C32: A write that meets no failure puts its line at the end of the log and loses
    nothing, but the oldest of the four files when the newest was full; no file
    grows over the limit, if the line does not.  Below the level of the logger, or
    with the log off, nothing is touched at all. *)
Theorem Write_keeps_recent l now level e w w' (run : log_halts w (Write l now level e) w' tt) :
  (lo_faults w ≤ lo_faults w')%nat ∧
  (if silent l level then w' = w else lo_faults w' = lo_faults w → appended w (log_line now level e) w').
Proof.
  refine (keeps_halts (λ _, True) _ _ (λ w' _, _) _ _ _ run). unfold Write. destruct (silent l level); [by split|]. cbv zeta.
  set (line := log_line now level e). apply keeps_bind. eapply keeps_mono; [|apply rotate_ok].
  intros w1 _ [Hf1 Hr]. apply keeps_bind. intros opened w2 Ha. split; [done|]. cbn [log_acts] in Ha.
  destruct opened; simplify_eq; cbn [negb]; [|simpl; split; [lia|lia]].
  set (w2 := Logs _ _). apply keeps_bind. intros n w3 Ha. split; [done|]. cbn [log_acts] in Ha.
  intros [] w4 [= <-]. split; [done|]. cbn [world_keeps]. simplify_eq.
  destruct (n <? String.length line)%nat eqn:Hn; simpl; [split; [lia|lia]|]. split; [lia|]. intros He.
  apply Nat.ltb_ge in Hn. apply (rotated_appended _ _ w1); [apply Hr; simpl in *; lia|]. simpl.
  rewrite (str_take_all n line) by lia. unfold log_file at 1. simpl. by rewrite lookup_insert_eq.
Qed.

(** A line is one line. *)
Lemma entry_json_wf now level e : json_wf (entry_json now level e).
Proof.
  unfold entry_json, pieces, written, req, opt. cbn [app json_wf].
  repeat case_match; cbn [app fmap list_fmap fst snd];
    repeat (apply Forall_cons; split; [cbn [fst snd id]; first [done | apply jint_wf]|]);
    by apply Forall_nil.
Qed.

Lemma log_line_one now level e : ∃ body, log_line now level e = body +:+ String newline "" ∧ index_byte body newline = None.
Proof. eexists. split; [done|]. apply print_no_newline, entry_json_wf. Qed.

(** ** A sample run *)

Definition sample_entry : entry :=
  {| en_component := "vault"; en_event := "unlocked"; en_request_id := ""; en_alias := ""; en_code := ""; en_duration := 0 |}.

Definition sample_line : string := log_line 0 Info sample_entry.
Definition no_logs : logs := Logs ∅ 0.
Definition one_log : logs := Logs {[ 0%nat := sample_line ]} 0.

Lemma Write_keeps_recent_witness :
  (lo_faults no_logs ≤ lo_faults one_log)%nat ∧ (lo_faults one_log = lo_faults no_logs → appended no_logs sample_line one_log).
Proof.
  refine (Write_keeps_recent {| lg_level := Info |} 0 Info sample_entry no_logs one_log _).
  exists None, no_logs. split; [done|]. exists true, (Logs {[ 0%nat := "" ]} 0). split; [done|].
  exists (String.length sample_line), one_log. split; [vm_compute; reflexivity|]. by exists tt, one_log.
Defined.
