(* ===== verification/Config.v ===== *)
(** * The configuration and the private directories: [internal/config/config.go] and [internal/paths/paths.go]

    The configuration is a YAML file that is replaced as a whole, on a
    directory that can fail and crash: the directory of [VaultStore], with the
    configuration at the path [Final].  YAML is a library: a pair of functions.
    [writeAtomic] makes the calls of the vault's [writeAtomicWithOps], so that
    what was proved of those calls holds for it.  The results: wherever [Save]
    stops, [Load] finds the old configuration or the new one; one that reports
    success is durable.  [EnsureLayout] succeeds only on directories that are
    private and ours. *)

From S2P Require Import Prelude GoStr Prog Json Wire Vault VaultStore.
Open Scope string_scope.
Open Scope list_scope.

(** ** The configuration *)

Record Defaults := {
  df_connect_timeout : string;
  df_command_timeout : string;
  df_max_output_bytes : Z;
  df_audit_fail_closed : bool;
  df_risk_policy : string;
  df_log_level : string;
  df_batch_concurrency : Z }.

Record ServerPublic := {
  sp_description : string;
  sp_host_hint : string;
  sp_port : Z;
  sp_user_hint : string;
  sp_auth_method : string;
  sp_fingerprint_hint : string }.

(** [None] is the nil map. *)
Record Config := {
  cfg_version : Z;
  cfg_language : string;
  cfg_defaults : Defaults;
  cfg_servers : option (gmap string ServerPublic) }.

#[export] Instance Defaults_eq_dec : EqDecision Defaults.
Proof. solve_decision. Defined.
#[export] Instance ServerPublic_eq_dec : EqDecision ServerPublic.
Proof. solve_decision. Defined.
#[export] Instance Config_eq_dec : EqDecision Config.
Proof. solve_decision. Defined.

(** ** YAML *)

(** What a decoder makes of what follows the first document. *)
Inductive yaml_rest := RestEOF | RestDocument | RestError.

(** [decoder.Decode] of a [Config] with [KnownFields], what a second [Decode]
    finds, and [yaml.Marshal]. *)
Record yaml := {
  yaml_first : string → option Config;
  yaml_more : string → yaml_rest;
  yaml_Marshal : Config → option string }.

(** What was marshaled is one document, and decodes to what it was. *)
Definition yaml_ok (y : yaml) : Prop :=
  ∀ cfg s, yaml_Marshal y cfg = Some s → is_Some (cfg_servers cfg) → yaml_first y s = Some cfg ∧ yaml_more y s = RestEOF.

Inductive config_error :=
| UnsafePath | UnsafePermissions | UnsafeOwner
| MultipleDocuments
| Failed (context : string).

Section config.
Context (y : yaml).

Definition Parse (data : string) : result config_error Config :=
  match yaml_first y data with
  | None => Fail (Failed "parse config")
  | Some cfg =>
      match yaml_more y data with
      | RestEOF => Ok cfg
      | RestDocument => Fail MultipleDocuments
      | RestError => Fail (Failed "parse config")
      end
  end.

Definition validatePrivateFile (i : info) : option config_error :=
  if negb (in_regular i) then Some UnsafePath
  else if negb (Z.eqb (in_perm i) 384) then Some UnsafePermissions
  else if negb (in_owner i) then Some UnsafeOwner
  else None.

Definition Load : program (result config_error Config) :=
  file ← trigger OpenRead;
  match file with
  | None =>
      symlink ← isSymlink Final;
      Ret (Fail (if symlink : bool then UnsafePath else Failed "open config"))
  | Some x =>
      r ← (i ← trigger (Stat x);
           match i with
           | None => Ret (Fail (Failed "inspect config"))
           | Some i =>
               match validatePrivateFile i with
               | Some e => Ret (Fail e)
               | None =>
                   data ← trigger (ReadAll x None);
                   Ret (match data with None => Fail (Failed "read config") | Some data => Parse data end)
               end
           end);
      _ ← trigger (Close x);
      Ret r
  end.

(** [temp.Write] is the loop over [write] that [os.File] makes. *)
Definition writeAtomic (data : string) : program (option config_error) :=
  temp ← trigger CreateTemp;
  match temp with
  | None => Ret (Some (Failed "create temporary config"))
  | Some (tempPath, x) =>
      r ← (secured ← trigger (Chmod x);
           if negb secured then _ ← trigger (Close x); Ret (Some (Failed "secure temporary config"))
           else
             written ← writeAll x data;
             if negb written then _ ← trigger (Close x); Ret (Some (Failed "write temporary config"))
             else
               synced ← trigger (Sync x);
               if negb synced then _ ← trigger (Close x); Ret (Some (Failed "sync temporary config"))
               else
                 closed ← trigger (Close x);
                 if negb closed then Ret (Some (Failed "close temporary config"))
                 else
                   renamed ← trigger (Rename tempPath Final);
                   if negb renamed then Ret (Some (Failed "replace config"))
                   else
                     synced ← syncDirectoryToDisk;
                     if negb synced then Ret (Some (Failed "sync config directory")) else Ret None);
      _ ← trigger (Remove tempPath);
      Ret r
  end.

(** What [Save] writes once the path is safe. *)
Definition save_data (cfg : Config) : program (option config_error) :=
  match yaml_Marshal y cfg with
  | None => Ret (Some (Failed "encode config"))
  | Some data => writeAtomic data
  end.

Definition Save (cfg : Config) : program (option config_error) :=
  a ← trigger (Lstat Final);
  match a with
  | StatErr => Ret (Some (Failed "inspect config"))
  | StatInfo i =>
      if in_symlink i then Ret (Some UnsafePath)
      else match validatePrivateFile i with Some e => Ret (Some e) | None => save_data cfg end
  | StatNone => save_data cfg
  end.

(** ** The calls are those of the vault's store *)

Definition both_fail (r : option config_error) (e : option store_error) : Prop := is_Some r ↔ is_Some e.

Lemma writeAtomic_same data : same both_fail (writeAtomic data) (writeAtomicWithOps data).
Proof.
  apply same_vis. intros [[t x]|]; [|by apply same_ret].
  apply same_vis. intros []; [|repeat (apply same_vis; intros ?); by apply same_ret].
  apply same_inside. intros []; [|repeat (apply same_vis; intros ?); by apply same_ret].
  apply same_vis. intros []; [|repeat (apply same_vis; intros ?); by apply same_ret].
  apply same_vis. intros []; [|repeat (apply same_vis; intros ?); by apply same_ret].
  apply same_vis. intros []; [|repeat (apply same_vis; intros ?); by apply same_ret].
  apply same_inside. intros []; repeat (apply same_vis; intros ?); apply same_ret; [by split; intros []|done].
Qed.

(** ** Saving and loading *)

(** The directory while a configuration is saved. *)
Definition saving (d0 : disk) (cfg : Config) (d : disk) : Prop :=
  d_dir d = d_dir d0 ∧ settled d ∧ d_files d = d_files d0 ∨
  ∃ data, yaml_Marshal y cfg = Some data ∧ save_inv d0 data d.

Definition config_saved (d0 : disk) (cfg : Config) (d : disk) (r : option config_error) : Prop :=
  r = None →
  settled d ∧ ∃ x data, yaml_Marshal y cfg = Some data ∧
    d_dir d !! Final = Some x ∧ d_files d !! x = Some (File data true true) ∧
    ((d_faults d ≤ S (d_faults d0))%nat → ∀ i, d_dir d !! Temp i = d_dir d0 !! Temp i).

Lemma keeps_save_data d0 cfg : settled d0 → keeps (saving d0 cfg) d0 (save_data cfg) (config_saved d0 cfg).
Proof.
  intros Hset. unfold save_data. destruct (yaml_Marshal y cfg) as [data|] eqn:Hm; [|by intros [=]].
  eapply world_keeps_mono; [..|exact (keeps_same _ _ _ _ _ _ (writeAtomic_same data) (keeps_writeAtomic d0 data Hset))].
  - intros d Hd. right. by exists data.
  - intros d r (e & Hre & Hs) ->. destruct e as [e|]; [by destruct (proj2 Hre ltac:(by eexists))|].
    destruct (sv_done _ _ _ _ Hs eq_refl) as (Hst & x & Hx & Hf). split; [done|].
    exists x, data. split_and!; [done..|]. apply (sv_clean _ _ _ _ Hs).
Qed.

Lemma keeps_save_config d0 cfg : settled d0 → keeps (saving d0 cfg) d0 (Save cfg) (config_saved d0 cfg).
Proof.
  intros Hset. unfold Save. apply keeps_bind, keeps_trigger. intros a d1 Ha.
  assert (d1 = d0 ∨ a = StatErr ∧ d1 = fault d0) as Hd1.
  { cbn [answers] in Ha. destruct a as [| |i], (d_dir d0 !! Final) as [x|]; try done; try (injection Ha as <-; auto; fail).
    destruct (d_files d0 !! x); [|done]. cbn [mbind option_bind] in Ha. case_decide; [|done]. injection Ha as <-. by left. }
  destruct Hd1 as [->|[-> ->]]; [|by split; [left|]]. split; [by left|].
  destruct a as [| |i]; [done|by apply keeps_save_data|].
  destruct (in_symlink i); [done|]. destruct (validatePrivateFile i); [done|by apply keeps_save_data].
Qed.

(** What [Load] makes of a directory whose configuration is [s], if there is one. *)
Definition loaded (s : option string) (r : result config_error Config) : Prop :=
  (∃ context, r = Fail (Failed context)) ∨ ∃ data, s = Some data ∧ r = Parse data.

Lemma private_accepted s i : info_of (File s true true) i → validatePrivateFile i = None ∧ in_symlink i = false.
Proof.
  intros [H _]. destruct (H eq_refl) as [Hv Hs]. split; [|done]. revert Hv. unfold VaultStore.validatePrivateFile, validatePrivateFile.
  by destruct (in_regular i), (in_perm i =? 384)%Z, (in_owner i).
Qed.

Lemma keeps_load_config d (s : option string) :
  match s with
  | Some s => ∃ x, d_dir d !! Final = Some x ∧ d_files d !! x = Some (File s true true)
  | None => d_dir d !! Final = None
  end → keeps (λ _, True) d Load (λ _, loaded s).
Proof.
  intros Hd. unfold Load. apply keeps_bind, keeps_trigger. intros [x|] d1 Ha; cbn [answers] in Ha; (split; [done|]).
  2: { injection Ha as <-. apply keeps_bind. unfold isSymlink. apply keeps_bind, keeps_trigger. intros a d2 Ha.
       split; [done|]. simpl. left. destruct a as [| |i]; [by eexists..|]. cbn [answers] in Ha. simpl in Ha.
       destruct s as [s|]; [|by rewrite Hd in Ha]. destruct Hd as (x & Hx & Hf). rewrite Hx, Hf in Ha. simpl in Ha.
       case_decide as Hi; [|done]. destruct (private_accepted s i (proj2 Hi)) as [_ ->]. by eexists. }
  case_decide as Hx; [|done]. injection Ha as <-. destruct s as [s|]; [|congruence].
  destruct Hd as (x' & Hx' & Hf). rewrite Hx in Hx'. injection Hx' as <-.
  assert (∀ d1 r, loaded (Some s) r → keeps (λ _, True) d1 (_ ← trigger (Close x); Ret r) (λ _, loaded (Some s))) as Hend by done.
  apply keeps_bind. apply keeps_bind, keeps_trigger. intros [i|] d1 Ha; cbn [answers] in Ha; (split; [done|]).
  2: { apply Hend. left. by eexists. }
  rewrite Hf in Ha. cbn [mbind option_bind] in Ha. case_decide as Hi; [|done]. injection Ha as <-.
  destruct (private_accepted s i (proj2 Hi)) as [-> _].
  apply keeps_bind, keeps_trigger. intros [data|] d1 Ha; cbn [answers] in Ha; (split; [done|]); apply Hend; [|left; by eexists].
  rewrite Hf in Ha. simpl in Ha. destruct (data =? s)%string eqn:Hs; [|done]. apply String.eqb_eq in Hs as ->.
  right. by exists s.
Qed.

Lemma Parse_Marshal cfg s : yaml_ok y → is_Some (cfg_servers cfg) → yaml_Marshal y cfg = Some s → Parse s = Ok cfg.
Proof. intros Hy Hs Hm. destruct (Hy cfg s Hm Hs) as [H1 H2]. unfold Parse. by rewrite H1, H2. Qed.

(** The contents of the path, when what it leads to is whole and private. *)
Definition content (d : disk) (s : option string) : Prop :=
  match s with
  | Some s => ∃ x, d_dir d !! Final = Some x ∧ d_files d !! x = Some (File s true true)
  | None => d_dir d !! Final = None
  end.

Lemma content_after d0 cfg d1 d2 s :
  settled d0 → content d0 s → saving d0 cfg d1 → crash d1 d2 →
  content d2 s ∨ ∃ data, yaml_Marshal y cfg = Some data ∧ content d2 (Some data).
Proof.
  intros Hset Hs Hinv [Hdir Hfiles _]. specialize (Hdir Final).
  assert (d_dir d2 !! Final = d_dir d0 !! Final ∧ (∀ x f, d_files d0 !! x = Some f → d_files d1 !! x = Some f) ∨
          ∃ x data, yaml_Marshal y cfg = Some data ∧ d_dir d2 !! Final = Some x ∧ d_files d1 !! x = Some (File data true true)) as [[Hd Hf]|(x & data & Hm & Hd & Hf)].
  { destruct Hinv as [(Hd & Hst & Hf)|(data & Hm & [Hfin Hkept])].
    - left. rewrite (Hst _ Hdir), Hd, Hf. by split.
    - destruct (Hfin _ Hdir) as [Hd|(x & Hd & Hx)]; [by left|]. right. by exists x, data. }
  - left. destruct s as [s|]; simpl in *; [|congruence]. destruct Hs as (x & Hx & Hxf). exists x.
    rewrite Hd. split; [done|]. apply Hfiles; [by apply Hf|done].
  - right. exists data. split; [done|]. exists x. split; [done|]. by apply Hfiles.
Qed.
End config.

(** C23: Wherever saving a configuration stops, by a crash or by the failure of any
    call, what is loaded afterwards is what was there, whole, or the new
    configuration, or an error of reading; once saving has reported success it
    is the new configuration, and no temporary file is left unless more than
    one call failed.  The configuration is one with a map of servers, empty or
    not; YAML gives back what was written. *)
Theorem Save_old_or_new y cfg d0 (old : option string) (law : yaml_ok y) (map : is_Some (cfg_servers cfg))
    (start : settled d0) (before : content d0 old) :
  (∀ d1 d2 d3 r, stops d0 (Save y cfg) d1 → crash d1 d2 → halts d2 (Load y) d3 r →
     loaded y old r ∨ r = Ok cfg) ∧
  (∀ d1 d2 d3 r, halts d0 (Save y cfg) d1 None → crash d1 d2 → halts d2 (Load y) d3 r →
     ((∃ context, r = Fail (Failed context)) ∨ r = Ok cfg) ∧
     ((d_faults d1 ≤ S (d_faults d0))%nat → ∀ i, d_dir d1 !! Temp i = d_dir d0 !! Temp i)).
Proof.
  pose proof (keeps_save_config y d0 cfg start) as Hk.
  assert (∀ d2 d3 data r, yaml_Marshal y cfg = Some data → content d2 (Some data) → halts d2 (Load y) d3 r →
            (∃ context, r = Fail (Failed context)) ∨ r = Ok cfg) as Hnew.
  { intros d2 d3 data r Hm Hc Hl. destruct (keeps_halts _ _ _ _ _ _ (keeps_load_config y d2 (Some data) Hc) Hl) as [He|(s & [= <-] & ->)].
    - by left.
    - right. by apply Parse_Marshal. }
  split.
  - intros d1 d2 d3 r Hs Hc Hl.
    assert (saving y d0 cfg d1) as Hinv by (refine (keeps_stops _ _ _ _ _ _ Hk Hs); by left).
    destruct (content_after y d0 cfg d1 d2 old start before Hinv Hc) as [Ho|(data & Hm & Hd)].
    + left. exact (keeps_halts _ _ _ _ _ _ (keeps_load_config y d2 old Ho) Hl).
    + destruct (Hnew _ _ _ _ Hm Hd Hl) as [He| ->]; [left; by left|by right].
  - intros d1 d2 d3 r Hh Hc Hl.
    destruct (keeps_halts _ _ _ _ _ _ Hk Hh eq_refl) as (Hst & x & data & Hm & Hx & Hf & Hclean). split; [|done].
    apply (Hnew d2 d3 data r Hm); [|done]. destruct Hc as [Hdir Hfiles _]. exists x.
    rewrite (Hst _ (Hdir Final)). split; [done|]. by apply Hfiles.
Qed.

(** ** A sample run *)

Definition sample_defaults : Defaults :=
  {| df_connect_timeout := "10s"; df_command_timeout := "30s"; df_max_output_bytes := 1048576; df_audit_fail_closed := true;
     df_risk_policy := "enforce"; df_log_level := "info"; df_batch_concurrency := 8 |}.

Definition first_config : Config :=
  {| cfg_version := 2; cfg_language := "auto"; cfg_defaults := sample_defaults; cfg_servers := Some ∅ |}.
Definition second_config : Config :=
  {| cfg_version := 2; cfg_language := "en"; cfg_defaults := sample_defaults; cfg_servers := Some ∅ |}.

(** A library that knows two configurations. *)
Definition toy_yaml : yaml := {|
  yaml_first s := if String.eqb s "language: auto" then Some first_config
                  else if String.eqb s "language: en" then Some second_config else None;
  yaml_more _ := RestEOF;
  yaml_Marshal cfg := if decide (cfg = first_config) then Some "language: auto"
                      else if decide (cfg = second_config) then Some "language: en" else None |}.

Lemma toy_yaml_ok : yaml_ok toy_yaml.
Proof. intros cfg s. simpl. case_decide; [intros [= <-]; by subst|]. case_decide; [intros [= <-]; by subst|done]. Qed.

Definition config_disk : disk := Disk {[ Final := O ]} [] {[ O := File "language: auto" true true ]} 0 None.

(** Saving stopped after the rename, before the directory was synced. *)
Definition config_stopped : disk := default config_disk (run_for 7 config_disk (Save toy_yaml second_config)).

Definition config_found (d : disk) : disk * result config_error Config := default (d, Fail UnsafePath) (run_all d (Load toy_yaml)).

Lemma config_settled : settled config_disk.
Proof. intros b [->|(m & Hm & _)]; [done|]. by apply not_elem_of_nil in Hm. Qed.

Lemma config_stops : stops config_disk (Save toy_yaml second_config) config_stopped.
Proof. apply (run_for_stops (reply := @honest) 7). vm_compute. reflexivity. Qed.

Lemma config_found_halts d : match run_all d (Load toy_yaml) with Some _ => true | None => false end = true →
  halts d (Load toy_yaml) (fst (config_found d)) (snd (config_found d)).
Proof. intros Hr. apply (run_all_halts (reply := @honest)). unfold config_found. by destruct (run_all _ _) as [[]|]. Qed.

Lemma Save_old_or_new_witness :
  let r := snd (config_found (old_crash config_stopped)) in loaded toy_yaml (Some "language: auto") r ∨ r = Ok second_config.
Proof.
  refine (proj1 (Save_old_or_new toy_yaml second_config config_disk (Some "language: auto") toy_yaml_ok _ config_settled _)
    config_stopped (old_crash config_stopped) (fst (config_found (old_crash config_stopped))) _ config_stops (old_crash_ok _) _).
  - by eexists.
  - by exists 0%nat.
  - apply config_found_halts. vm_compute. reflexivity.
Defined.

Example config_found_old : snd (config_found (old_crash config_stopped)) = Ok first_config.
Proof. vm_compute. reflexivity. Qed.
Example config_found_new : snd (config_found (calm_crash config_stopped)) = Ok second_config.
Proof. vm_compute. reflexivity. Qed.

(** ** The private directories *)

Module Paths.

(** A path under the root, as the elements [filepath.Join] puts after it. *)
Abbreviation path := (list string).

Record Layout := {
  Root : path; ConfigFile : path; VaultFile : path; RecoveryFile : path;
  AuditDir : path; LogsDir : path; RunDir : path; SocketFile : path }.

Record dir_info := { di_symlink : bool; di_dir : bool; di_perm : Z; di_owned : bool }.

#[export] Instance dir_info_eq_dec : EqDecision dir_info.
Proof. solve_decision. Defined.

Inductive lstat_answer := LstatErr | LstatNotExist | LstatInfo (i : dir_info).

(** A directory is made with the bits the umask leaves. *)
Inductive dir_op : Type → Type :=
| LstatPath (p : path) : dir_op lstat_answer
| Mkdir (p : path) : dir_op (option Z)
| ChmodPath (p : path) : dir_op bool.

Inductive paths_error :=
| ErrUnsafePath | ErrUnsafePermissions | ErrUnsafeOwner
| CreateFailed | SecureFailed | InspectFailed.

Definition inspected (i : dir_info) : option paths_error :=
  if di_symlink i || negb (di_dir i) then Some ErrUnsafePath
  else if negb (Z.eqb (di_perm i) 448) then Some ErrUnsafePermissions
  else if negb (di_owned i) then Some ErrUnsafeOwner
  else None.

Definition inspect (a : lstat_answer) : option paths_error :=
  match a with LstatInfo i => inspected i | _ => Some InspectFailed end.

Definition ensurePrivateDir (p : path) : prog dir_op (option paths_error) :=
  a ← trigger (LstatPath p);
  match (a : lstat_answer) with
  | LstatNotExist =>
      made ← trigger (Mkdir p);
      match (made : option Z) with
      | None => Ret (Some CreateFailed)
      | Some _ =>
          secured ← trigger (ChmodPath p);
          if negb secured then Ret (Some SecureFailed)
          else a ← trigger (LstatPath p); Ret (inspect a)
      end
  | _ => Ret (inspect a)
  end.

Definition layout : Layout := {|
  Root := []; ConfigFile := ["config.yaml"]; VaultFile := ["vault.enc"]; RecoveryFile := ["recovery.enc"];
  AuditDir := ["audit"]; LogsDir := ["logs"]; RunDir := ["run"]; SocketFile := ["run"; "aegis.sock"] |}.

(** The loop over the directories, which stops at the first error. *)
Fixpoint ensure_all (dirs : list path) : prog dir_op (option paths_error) :=
  match dirs with
  | [] => Ret None
  | p :: dirs => e ← ensurePrivateDir p; match e with Some e => Ret (Some e) | None => ensure_all dirs end
  end.

Definition private_dirs (l : Layout) : list path := [Root l; AuditDir l; LogsDir l; RunDir l].

Definition EnsureLayout : prog dir_op (result paths_error Layout) :=
  e ← ensure_all (private_dirs layout);
  Ret (match e with Some e => Fail e | None => Ok layout end).

(** *** The file system *)

Abbreviation tree := (gmap path dir_info).

Definition acts {X : Type} (w : tree) (e : dir_op X) : X → option tree :=
  match e in dir_op X return X → option tree with
  | LstatPath p => λ a,
      match a with
      | LstatErr => Some w
      | LstatNotExist => if decide (w !! p = None) then Some w else None
      | LstatInfo i => if decide (w !! p = Some i) then Some w else None
      end
  | Mkdir p => λ r,
      match r with
      | None => Some w
      | Some perm =>
          if decide (w !! p = None)
          then Some (<[p := {| di_symlink := false; di_dir := true; di_perm := perm; di_owned := true |}]> w) else None
      end
  | ChmodPath p => λ ok,
      if ok then i ← w !! p; Some (<[p := {| di_symlink := di_symlink i; di_dir := di_dir i; di_perm := 448; di_owned := di_owned i |}]> w)
      else Some w
  end.

Definition private_dir : dir_info := {| di_symlink := false; di_dir := true; di_perm := 448; di_owned := true |}.

Lemma inspected_None i : inspected i = None → i = private_dir.
Proof.
  destruct i as [[] [] p []]; unfold inspected, private_dir; simpl; destruct (p =? 448)%Z eqn:Hp; try done.
  apply Z.eqb_eq in Hp as ->. done.
Qed.

(** What was there is there still, as it was. *)
Definition keeps_existing (w w' : tree) : Prop := ∀ p i, w !! p = Some i → w' !! p = Some i.

Lemma keeps_existing_refl w : keeps_existing w w.
Proof. by intros p i. Qed.
#[local] Hint Resolve keeps_existing_refl : core.

Lemma keeps_ensure w0 w p :
  keeps_existing w0 w →
  world_keeps (@acts) (keeps_existing w0) w (ensurePrivateDir p)
    (λ w' e, keeps_existing w w' ∧ keeps_existing w0 w' ∧ (e = None → w' !! p = Some private_dir)).
Proof.
  intros H0. unfold ensurePrivateDir. apply keeps_bind. intros a w1 Ha. cbn [acts] in Ha.
  assert (∀ w' a w'', keeps_existing w w' → keeps_existing w0 w' → acts w' (LstatPath p) a = Some w'' →
    w'' = w' ∧ (inspect a = None → w' !! p = Some private_dir)) as Hinspect.
  { intros w' b w'' _ _ Hb. cbn [acts] in Hb. destruct b as [| |i]; simpl in *; [by injection Hb as <-|by case_decide; simplify_eq|].
    case_decide as Hi; [|done]. injection Hb as <-. split; [done|]. intros Hn. by rewrite Hi, (inspected_None i). }
  destruct a as [| |i].
  - injection Ha as <-. split; [done|]. simpl. by split_and!.
  - case_decide as Hnone; [|done]. injection Ha as <-. split; [done|].
    apply keeps_bind. intros [perm|] w2 Hm; cbn [acts] in Hm; [|injection Hm as <-; split; [done|]; simpl; by split_and!].
    case_decide; [|done]. injection Hm as <-. set (w2 := <[p := _]> w).
    assert (keeps_existing w w2) as Hw2. { intros q j Hq. unfold w2. rewrite lookup_insert_ne; [done|]. congruence. }
    assert (keeps_existing w0 w2) as H2 by (intros q j Hq; by apply Hw2, H0). split; [done|].
    apply keeps_bind. intros [] w3 Hc; cbn [acts] in Hc; [|injection Hc as <-; split; [done|]; simpl; by split_and!].
    unfold w2 in Hc. rewrite lookup_insert_eq in Hc. simpl in Hc. fold w2 in Hc. injection Hc as <-. set (w3 := <[p := _]> w2).
    assert (keeps_existing w w3) as Hw3. { intros q j Hq. unfold w3. rewrite lookup_insert_ne; [by apply Hw2|]. congruence. }
    assert (keeps_existing w0 w3) as H3 by (intros q j Hq; by apply Hw3, H0). split; [done|].
    apply keeps_bind. intros b w4 Hb. destruct (Hinspect w3 b w4 Hw3 H3 Hb) as [-> Hp]. split; [done|].
    simpl. by split_and!.
  - destruct (Hinspect w (LstatInfo i) w1 ltac:(done) H0 Ha) as [-> Hp]. split; [done|]. simpl. by split_and!.
Qed.

Lemma keeps_ensure_all w0 dirs w :
  keeps_existing w0 w →
  world_keeps (@acts) (keeps_existing w0) w (ensure_all dirs)
    (λ w' e, keeps_existing w w' ∧ keeps_existing w0 w' ∧ (e = None → ∀ p, p ∈ dirs → w' !! p = Some private_dir)).
Proof.
  revert w. induction dirs as [|p dirs IH]; intros w H0.
  { simpl. split_and!; [done|done|]. intros _ p Hp. by apply not_elem_of_nil in Hp. }
  cbn [ensure_all]. apply keeps_bind. eapply keeps_mono; [|by apply keeps_ensure].
  intros w1 [e|] (Hw & H1 & Hp); [by simpl; split_and!|].
  eapply keeps_mono; [|by apply IH]. intros w2 e (Hw2 & H2 & Hps). split_and!; [|done|].
  - intros q i Hq. by apply Hw2, Hw.
  - intros He q [->|Hq]%elem_of_cons; [by apply Hw2, Hp|by apply Hps].
Qed.
End Paths.

(** The layout is handed out only when its four directories are directories of
    ours with mode 0700 and no links; and whatever happens, nothing that existed
    is changed: only directories just made get their mode set. *)
Theorem EnsureLayout_private (w : Paths.tree) :
  (∀ w' l, world_halts (@Paths.acts) w Paths.EnsureLayout w' (Ok l) →
     ∀ p, p ∈ Paths.private_dirs l → w' !! p = Some Paths.private_dir) ∧
  (∀ w', world_stops (@Paths.acts) w Paths.EnsureLayout w' → Paths.keeps_existing w w').
Proof.
  assert (world_keeps (@Paths.acts) (Paths.keeps_existing w) w Paths.EnsureLayout
    (λ w' r, ∀ l, r = Ok l → ∀ p, p ∈ Paths.private_dirs l → w' !! p = Some Paths.private_dir)) as Hk.
  { unfold Paths.EnsureLayout. apply keeps_bind. eapply keeps_mono; [|apply Paths.keeps_ensure_all, Paths.keeps_existing_refl].
    intros w' [e|] (_ & _ & Hp) l; [done|]. intros [= <-] p. by apply Hp. }
  split.
  - intros w' l Hh. exact (keeps_halts _ _ _ _ _ _ Hk Hh l eq_refl).
  - intros w' Hs. exact (keeps_stops _ _ _ _ _ (λ p i Hp, Hp) Hk Hs).
Qed.
