(* ===== verification/AppConfig.v ===== *)
(** * The application's configuration: the pure part of [internal/app/app.go], [commands.go] and [i18n.go]

    Aliases, the masks that stand for connection details in the configuration,
    its defaults and limits, the checks on the command line, and the settings
    that a running daemon and the command line change.  The results: what is
    masked shows no more than its first and last bytes; a configuration that
    was normalized from a vault has a public entry for every server of it,
    derived from the server alone but for its description; the limits that a
    daemon starts with are those the service accepts; a setting is changed to
    a value that its reader knows, or refused. *)

From S2P Require Import Prelude GoStr Utf8 GoTime Model Vault VaultStore Config OpsLog.
From Stdlib Require Import Ascii.
Open Scope string_scope.
Open Scope list_scope.

Inductive app_error :=
| ErrUsage | ErrSecretArgument | ErrSecretEnvironment | ErrAlreadyInitialized | ErrNotInitialized | ErrDaemonRunning
| ErrDaemonUnavailable | ErrInvalidAlias | ErrInvalidServer | ErrInvalidAuthMethod | ErrPrivateKey | ErrServerExists
| ErrServerNotFound | ErrHostKeyProbe | ErrHostKeyUnconfirmed | ErrConnectionTest | ErrRecoveryUnavailable
| ErrPasswordMismatch | ErrStorage
| ErrEmptySecret | ErrNoTerminal | ErrTerminal
| ErrCoded (e : CodedError)
| ExitCodeError (code : Z).

(** ** Aliases *)

Definition alias_char (first : bool) (c : Z) : bool :=
  in_range 97 122 c || in_range 65 90 c || in_range 48 57 c
  || negb first && (Z.eqb c 46 || Z.eqb c 95 || Z.eqb c 45).

(** The loop over the runes; [index] is the byte offset. *)
Fixpoint alias_chars (first : bool) (l : list Utf8.step) : bool :=
  match l with
  | [] => true
  | x :: l => alias_char first (st_rune x) && alias_chars false l
  end.

Definition validAlias (alias : string) : bool :=
  if Z.eqb (slen alias) 0 || (64 <? slen alias)%Z then false else alias_chars true (runes alias).

(** ** Masks *)

Definition maskValue (value : string) : string :=
  let value := trim_space value in
  if (slen value <=? 2)%Z then str_repeat "*" (String.length value)
  else str_take 1 value +:+ str_repeat "*" (Nat.min 8 (String.length value - 2)) +:+ str_drop (String.length value - 1) value.

Definition maskFingerprint (value : string) : string :=
  if (slen value <=? 12)%Z then maskValue value
  else str_take 7 value +:+ "..." +:+ str_drop (String.length value - 5) value.

Definition publicServerConfig (description : string) (secret : ServerSecret) : ServerPublic := {|
  sp_description := description; sp_host_hint := maskValue (ss_host secret); sp_port := ss_port secret;
  sp_user_hint := maskValue (ss_user secret); sp_auth_method := EffectiveAuthMethod secret;
  sp_fingerprint_hint := maskFingerprint (ss_host_fingerprint secret) |}.

(** ** The configuration *)

Definition defaultConnectTimeout : Z := 10 * second.
Definition defaultCommandTimeout : Z := 30 * second.
Definition defaultMaxOutput : Z := Z.shiftl 1 20.

(** [defaultConnectTimeout.String()] and [defaultCommandTimeout.String()]. *)
Definition defaultConfig : Config := {|
  cfg_version := 2; cfg_language := "auto";
  cfg_defaults := {| df_connect_timeout := "10s"; df_command_timeout := "30s"; df_max_output_bytes := defaultMaxOutput;
                     df_audit_fail_closed := true; df_risk_policy := "enforce"; df_log_level := "info";
                     df_batch_concurrency := 8 |};
  cfg_servers := Some ∅ |}.

Definition or_string (value fallback : string) : string := if str_is_empty value then fallback else value.
Definition or_int (value fallback : Z) : Z := if Z.eqb value 0 then fallback else value.

Definition with_servers (cfg : Config) (servers : gmap string ServerPublic) : Config :=
  {| cfg_version := cfg_version cfg; cfg_language := cfg_language cfg; cfg_defaults := cfg_defaults cfg; cfg_servers := Some servers |}.

Definition servers_of (cfg : Config) : gmap string ServerPublic := default ∅ (cfg_servers cfg).

Definition secrets_of (data : Data) : gmap string ServerSecret := default ∅ (da_servers data).

Definition no_public : ServerPublic :=
  {| sp_description := ""; sp_host_hint := ""; sp_port := 0; sp_user_hint := ""; sp_auth_method := ""; sp_fingerprint_hint := "" |}.

(** The loop over the secrets writes each alias once: one map operation. *)
Definition publish (secrets : gmap string ServerSecret) (servers : gmap string ServerPublic) : gmap string ServerPublic :=
  map_imap (λ alias secret, Some (publicServerConfig (sp_description (default no_public (servers !! alias))) secret)) secrets
  ∪ servers.

Definition normalizedConfig (cfg : Config) (data : option Data) : Config :=
  let d := cfg_defaults cfg in
  {| cfg_version := 2;
     cfg_language := or_string (cfg_language cfg) "auto";
     cfg_defaults := {|
       df_connect_timeout := df_connect_timeout d; df_command_timeout := df_command_timeout d;
       df_max_output_bytes := df_max_output_bytes d; df_audit_fail_closed := df_audit_fail_closed d;
       df_risk_policy := or_string (df_risk_policy d) "enforce"; df_log_level := or_string (df_log_level d) "info";
       df_batch_concurrency := or_int (df_batch_concurrency d) 8 |};
     cfg_servers := Some (match data with Some data => publish (secrets_of data) (servers_of cfg) | None => servers_of cfg end) |}.

Definition cloneConfig (cfg : Config) : Config := with_servers cfg (servers_of cfg).

Definition consistentAliases (cfg : Config) (data : Data) : bool :=
  Nat.eqb (size (servers_of cfg)) (size (secrets_of data))
  && forallb (λ alias : string, bool_decide (is_Some (secrets_of data !! alias))) (map_to_list (servers_of cfg)).*1.

(** [publicServers]: the summaries sorted by alias; [available] is
    [secrets.Available]. *)
Definition publicServers (cfg : Config) (available : string → bool) : list ServerSummary :=
  (λ kv : string * ServerPublic,
     {| Model.ss_alias := fst kv; ss_description := sp_description (snd kv); ss_available := available (fst kv) |})
  <$> merge_sort (λ a b : string * ServerPublic, String.le (fst a) (fst b)) (map_to_list (servers_of cfg)).

(** ** Limits *)

Definition timeout_of (text : string) (fallback : Z) : option Z :=
  if str_is_empty text then Some fallback
  else d ← ParseDuration text; if (d <=? 0)%Z || (30 * (60 * second) <? d)%Z then None else Some d.

Definition validateDefaults (defaults : Defaults) : result app_error (Z * Z * Z) :=
  match timeout_of (df_connect_timeout defaults) defaultConnectTimeout with
  | None => Fail ErrStorage
  | Some connect =>
      match timeout_of (df_command_timeout defaults) defaultCommandTimeout with
      | None => Fail ErrStorage
      | Some command =>
          let maxOutput := or_int (df_max_output_bytes defaults) defaultMaxOutput in
          if (maxOutput <? 1)%Z || (Z.shiftl 4 20 <? maxOutput)%Z then Fail ErrStorage else Ok (connect, command, maxOutput)
      end
  end.

(** ** Settings *)

Definition with_language (cfg : Config) (v : string) : Config :=
  {| cfg_version := cfg_version cfg; cfg_language := v; cfg_defaults := cfg_defaults cfg; cfg_servers := cfg_servers cfg |}.

Definition with_defaults (cfg : Config) (d : Defaults) : Config :=
  {| cfg_version := cfg_version cfg; cfg_language := cfg_language cfg; cfg_defaults := d; cfg_servers := cfg_servers cfg |}.

Definition with_policy (d : Defaults) (v : string) : Defaults :=
  {| df_connect_timeout := df_connect_timeout d; df_command_timeout := df_command_timeout d; df_max_output_bytes := df_max_output_bytes d;
     df_audit_fail_closed := df_audit_fail_closed d; df_risk_policy := v; df_log_level := df_log_level d;
     df_batch_concurrency := df_batch_concurrency d |}.

Definition with_level (d : Defaults) (v : string) : Defaults :=
  {| df_connect_timeout := df_connect_timeout d; df_command_timeout := df_command_timeout d; df_max_output_bytes := df_max_output_bytes d;
     df_audit_fail_closed := df_audit_fail_closed d; df_risk_policy := df_risk_policy d; df_log_level := v;
     df_batch_concurrency := df_batch_concurrency d |}.

Definition with_concurrency (d : Defaults) (v : Z) : Defaults :=
  {| df_connect_timeout := df_connect_timeout d; df_command_timeout := df_command_timeout d; df_max_output_bytes := df_max_output_bytes d;
     df_audit_fail_closed := df_audit_fail_closed d; df_risk_policy := df_risk_policy d; df_log_level := df_log_level d;
     df_batch_concurrency := v |}.

(** The switch of [configCommand], and of the daemon's [configure], which
    differ in the levels they know. *)
Definition set_setting (known_level : string → bool) (cfg : Config) (key value : string) : option Config :=
  if String.eqb key "language" then
    if String.eqb value "auto" || String.eqb value "en" || String.eqb value "zh-CN" then Some (with_language cfg value) else None
  else if String.eqb key "risk-policy" then
    if String.eqb value "enforce" || String.eqb value "warn" || String.eqb value "off"
    then Some (with_defaults cfg (with_policy (cfg_defaults cfg) value)) else None
  else if String.eqb key "log-level" then
    if known_level value then Some (with_defaults cfg (with_level (cfg_defaults cfg) value)) else None
  else if String.eqb key "batch-concurrency" then
    match atoi value with
    | Some number =>
        if (number <? 1)%Z || (32 <? number)%Z then None
        else Some (with_defaults cfg (with_concurrency (cfg_defaults cfg) number))
    | None => None
    end
  else None.

Definition command_level (value : string) : bool :=
  String.eqb value "debug" || String.eqb value "info" || String.eqb value "warn" || String.eqb value "error" || String.eqb value "off".

Definition daemon_level (value : string) : bool := match ParseLevel value with Some _ => true | None => false end.

(** ** The command line *)

Definition secret_options : list string :=
  ["--password"; "--master-password"; "--host"; "--port"; "--user"; "--fingerprint"; "--host-key";
   "--private-key"; "--identity-file"; "--private-key-passphrase"].

Fixpoint hasSecretArgument (args : list string) : bool :=
  match args with
  | [] => false
  | argument :: args =>
      if String.eqb argument "--" then false
      else
        let name := to_lower (default "" (head (split_byte argument "="))) in
        if bool_decide (name ∈ secret_options) then true else hasSecretArgument args
  end.

Definition secret_variables : list string :=
  ["AEGIS_SSH_PASSWORD"; "AEGIS_SSH_MASTER_PASSWORD"; "AEGIS_SSH_HOST"; "AEGIS_SSH_USER"; "AEGIS_SSH_PORT";
   "AEGIS_SSH_PRIVATE_KEY"; "AEGIS_SSH_PRIVATE_KEY_PASSPHRASE"].

(** [present] is [os.LookupEnv]. *)
Definition hasSecretEnvironment (present : string → bool) : bool := existsb present secret_variables.

(** ** Languages *)

Inductive language := languageEnglish | languageChinese.

Definition resolveLanguage (getenv : string → string) (configured : string) : language :=
  let c := to_lower (trim_space configured) in
  if bool_decide (c ∈ ["zh"; "zh-cn"; "zh_cn"]) then languageChinese
  else if bool_decide (c ∈ ["en"; "en-us"; "en_us"]) then languageEnglish
  else if existsb (λ key, has_prefix (to_lower (getenv key)) "zh") ["LC_ALL"; "LC_MESSAGES"; "LANG"]
  then languageChinese else languageEnglish.

Definition localize (lang : language) (english chinese : string) : string :=
  match lang with languageChinese => chinese | languageEnglish => english end.

(** ** What a mask shows *)

Lemma str_drop_last n s : (n < String.length s)%nat → n = (String.length s - 1)%nat → ∃ a, str_drop n s = String a "" ∧ str_at s n = Some a.
Proof.
  revert n. induction s as [|b s IH]; intros n Hlt Hn; simpl in *; [lia|].
  destruct n as [|n].
  - destruct s; simpl in *; [by exists b|lia].
  - apply (IH n); lia.
Qed.

Lemma str_take_one s a : str_at s 0 = Some a → str_take 1 s = String a "".
Proof. destruct s as [|b s]; simpl; [done|]. unfold str_at. simpl. by intros [= ->]. Qed.

(** A mask depends only on the length, up to ten, and on the first and the
    last byte of a value longer than two bytes. *)
Lemma maskValue_eq value :
  let v := trim_space value in
  maskValue value =
  match str_at v 0, str_at v (String.length v - 1) with
  | Some a, Some b =>
      if (slen v <=? 2)%Z then str_repeat "*" (String.length v)
      else String a (str_repeat "*" (Nat.min 8 (String.length v - 2)) +:+ String b "")
  | _, _ => ""
  end.
Proof.
  intros v. unfold maskValue. fold v. destruct v as [|a s] eqn:Hv; [done|].
  change (str_at (String a s) 0) with (Some a). cbn iota.
  destruct (str_drop_last (String.length (String a s) - 1) (String a s) ltac:(simpl; lia) eq_refl) as (b & Hd & Ha).
  rewrite Ha, Hd. destruct (_ <=? 2)%Z; [done|]. simpl. by rewrite !str_app_nil_r || done.
Qed.

(** ** What normalizing does *)

Lemma lookup_publish secrets servers alias :
  publish secrets servers !! alias =
  match secrets !! alias with
  | Some secret => Some (publicServerConfig (sp_description (default no_public (servers !! alias))) secret)
  | None => servers !! alias
  end.
Proof.
  unfold publish. rewrite lookup_union, map_lookup_imap.
  destruct (secrets !! alias) as [secret|]; simpl; [by rewrite union_Some_l|by rewrite (left_id_L None _)].
Qed.

Lemma dom_publish secrets servers : dom (publish secrets servers) =@{gset string} dom secrets ∪ dom servers.
Proof.
  apply set_eq. intros alias. rewrite elem_of_union, !elem_of_dom, lookup_publish.
  destruct (secrets !! alias) as [secret|].
  - split; [intros _; left|intros _]; by eexists.
  - split; [by right|]. by intros [[? [=]]|?].
Qed.

(** The aliases agree when they are the same set. *)
Lemma consistentAliases_spec cfg data : consistentAliases cfg data = true ↔ dom (servers_of cfg) =@{gset string} dom (secrets_of data).
Proof.
  unfold consistentAliases. rewrite andb_true_iff, Nat.eqb_eq, <- !(size_dom (D := gset string)), forallb_forall. split.
  - intros [Hsize Hall]. apply set_subseteq_size_eq; [|by rewrite Hsize]. intros alias [p Hp]%elem_of_dom. apply elem_of_dom.
    refine (bool_decide_eq_true_1 _ (Hall alias _)). apply list_elem_of_In, list_elem_of_fmap.
    exists (alias, p). split; [done|]. by apply elem_of_map_to_list.
  - intros Hd. split; [by rewrite Hd|]. intros alias (kv & -> & Hkv)%list_elem_of_In%list_elem_of_fmap.
    apply bool_decide_eq_true_2, elem_of_dom. rewrite <- Hd. destruct kv as [k v]. apply elem_of_map_to_list in Hkv.
    apply elem_of_dom. by eexists.
Qed.

(** ** Limits and settings *)

Lemma timeout_of_range text fallback d : (0 < fallback ≤ 30 * (60 * second))%Z → timeout_of text fallback = Some d → (0 < d ≤ 30 * (60 * second))%Z.
Proof.
  intros Hf. unfold timeout_of. destruct (str_is_empty text); [by intros [= <-]|].
  intros (d' & _ & Hd)%bind_Some. case_match eqn:He; [done|]. injection Hd as <-. bool_hyps. lia.
Qed.

Lemma validateDefaults_range defaults connect command maxOutput :
  validateDefaults defaults = Ok (connect, command, maxOutput) →
  (0 < connect ≤ 30 * (60 * second) ∧ 0 < command ≤ 30 * (60 * second) ∧ 1 ≤ maxOutput ≤ Z.shiftl 4 20)%Z.
Proof.
  unfold validateDefaults. destruct (timeout_of _ defaultConnectTimeout) as [c|] eqn:Hc; [|done].
  destruct (timeout_of _ defaultCommandTimeout) as [m|] eqn:Hm; [|done].
  case_match eqn:Hn; [done|]. intros [= <- <- <-]. bool_hyps.
  apply timeout_of_range in Hc; [|done]. apply timeout_of_range in Hm; [|done]. lia.
Qed.

(** A configuration that every reader of it accepts; [ParseLevel] takes an empty
    level for [info], and the other readers have it as their default. *)
Record config_typed (cfg : Config) : Prop := {
  ct_version : cfg_version cfg = 2%Z;
  ct_language : cfg_language cfg ∈ ["auto"; "en"; "zh-CN"];
  ct_policy : df_risk_policy (cfg_defaults cfg) ∈ ["enforce"; "warn"; "off"];
  ct_level : is_Some (ParseLevel (df_log_level (cfg_defaults cfg)));
  ct_concurrency : (1 ≤ df_batch_concurrency (cfg_defaults cfg) ≤ 32)%Z;
  ct_limits : ∃ limits, validateDefaults (cfg_defaults cfg) = Ok limits;
  ct_servers : is_Some (cfg_servers cfg) }.

Lemma defaultConfig_typed : config_typed defaultConfig.
Proof.
  split; try done; try (simpl; set_solver); simpl; lia.
Qed.

Lemma normalizedConfig_typed cfg data : config_typed cfg → config_typed (normalizedConfig cfg data).
Proof.
  intros [Hv Hl Hp Hlv Hc [limits Hd] Hs].
  assert (cfg_language cfg ≠ "" ∧ df_risk_policy (cfg_defaults cfg) ≠ "") as [Hl' Hp'] by (split; intros He; rewrite He in *; set_solver).
  split; try done; simpl; unfold or_string, or_int.
  - by destruct (cfg_language cfg).
  - by destruct (df_risk_policy _).
  - by destruct (df_log_level _).
  - by rewrite (proj2 (Z.eqb_neq _ _)) by lia.
  - by exists limits.
Qed.

Lemma set_setting_typed known cfg key value cfg' :
  (∀ v, known v = true → is_Some (ParseLevel v)) → config_typed cfg → set_setting known cfg key value = Some cfg' → config_typed cfg'.
Proof.
  intros Hk [Hv Hl Hp Hlv Hc Hd Hs]. unfold set_setting. cbv zeta.
  repeat case_match; bool_hyps; subst; try done; intros [= <-]; split; simpl; try done; try lia.
  - repeat match goal with H : _ || _ = true |- _ => apply orb_true_iff in H as [H|H] end; bool_hyps; subst; set_solver.
  - repeat match goal with H : _ || _ = true |- _ => apply orb_true_iff in H as [H|H] end; bool_hyps; subst; set_solver.
  - by apply Hk.
Qed.

(** The levels that the command line knows, and those that a daemon knows. *)
Lemma command_level_known v : command_level v = true → is_Some (ParseLevel v).
Proof.
  unfold command_level, ParseLevel.
  destruct (v =? "debug")%string, (v =? "info")%string, (v =? "warn")%string, (v =? "error")%string, (v =? "off")%string,
    (str_is_empty v); simpl; by eauto.
Qed.

Lemma daemon_level_known v : daemon_level v = true → is_Some (ParseLevel v).
Proof. unfold daemon_level. by destruct (ParseLevel v); eauto. Qed.

Lemma with_servers_typed cfg servers : config_typed cfg → config_typed (with_servers cfg servers).
Proof. intros []. by split. Qed.

(** The limits of such a configuration are those that the service and the SSH
    client accept. *)
Lemma config_typed_limits cfg : config_typed cfg → ∃ connect command maxOutput,
  validateDefaults (cfg_defaults cfg) = Ok (connect, command, maxOutput) ∧
  (0 < connect ≤ 30 * (60 * second) ∧ 0 < command ≤ 30 * (60 * second) ∧ 1 ≤ maxOutput ≤ Z.shiftl 4 20)%Z.
Proof.
  intros Ht. destruct (ct_limits _ Ht) as [[[connect command] maxOutput] Hv].
  exists connect, command, maxOutput. split; [done|]. by eapply validateDefaults_range.
Qed.
