(* ===== verification/AppVault.v ===== *)
(** * The commands that change the vault: [internal/app/app.go], [commands.go], [prompt.go] and [privatekey.go]

    [init], [server add], [edit] and [remove], and [recovery], as programs over
    the calls they make: to the terminal, to the configuration and the vault,
    to the lock of the command line, to the host whose key they probe.  A save
    that reports an error may have replaced the file or not, as [Config] and
    [VaultStore] prove of theirs.  [application.text] is [localize] in the
    language of the configuration, a parameter.

    What a mutation of [withUnlockedVault] changes in memory is what it returns,
    with the alias its command reports.  [AppVaultSpec] gives the calls their
    meaning on the files; [AppServers] and [AppRecovery] prove what the commands
    do. *)

From S2P Require Import Prelude GoStr Utf8 GoTime Prog Json Base64 Model Wire Vault VaultStore Config AppConfig.
From Stdlib Require Import Ascii.
Open Scope string_scope.
Open Scope list_scope.

(** ** Calls *)

(** The vault and its copy under the recovery key. *)
Inductive vault_file := MainVault | RecoveryVault.

#[export] Instance vault_file_eq_dec : EqDecision vault_file.
Proof. solve_decision. Defined.

(** A save that fails has replaced the file or not. *)
Inductive save_answer := Saved | SaveFailed (replaced : bool).

(** [Status] of the broker: an answer, no broker, or another error. *)
Inductive daemon_answer := Reachable (reachable : bool) | Unavailable | StatusFailed.

(** [ssh.ParsePrivateKey]. *)
Inductive key_answer := KeyOk | KeyNeedsPassphrase | KeyBad.

Inductive app_op : Type → Type :=
(* the directory, the lock and the daemon *)
| EnsureLayout : app_op bool
| AcquireLifecycle : app_op (option app_error)
| ReleaseLifecycle : app_op unit
| DaemonStatus : app_op daemon_answer
(* the files *)
| ConfigExists : app_op bool
| VaultExists (v : vault_file) : app_op bool
| ConfigLoad : app_op (option Config)
| ConfigSave (cfg : Config) : app_op save_answer
| VaultLoad (v : vault_file) (master : string) : app_op (option Data)
| VaultSave (v : vault_file) (master : string) (data : Data) : app_op save_answer
| VaultInitialize (master : string) : app_op save_answer
| RemoveVault : app_op unit
| RemoveConfig : app_op unit
| ArchiveConfig : app_op bool
| ArchiveVault (v : vault_file) : app_op bool
(* the terminal *)
| OpenTerminal : app_op bool
| CloseTerminal : app_op unit
| WriteTerminal (s : string) : app_op bool
| ReadLine : app_op (option string)
| ReadPassword : app_op (option string)
| Stdout (s : string) : app_op unit
(* memory *)
| Wipe (secret : string) : app_op unit
| WipeSecret (secret : ServerSecret) : app_op unit
| WipeData (data : Data) : app_op unit
| RandomKey : app_op (option string)
(* hosts and keys *)
| Probe (host : string) (port : Z) : app_op (option string)
| TestConnection (secret : ServerSecret) : app_op bool
| ReadPrivateKey (path : string) : app_op (option string)
| ParsePrivateKey (key : string) : app_op key_answer
| ParseWithPassphrase (key passphrase : string) : app_op bool
| DiscoverPrivateKey : app_op string.

Abbreviation app := (prog app_op).

(** A function that returns a value and an [error]. *)
Abbreviation fallible A := (app (result app_error A)).

(** [x, err := p; if err != nil { return err }; k x] *)
Definition try {E Err A B} (p : prog E (result Err A)) (k : A → prog E (result Err B)) : prog E (result Err B) :=
  r ← p; match r with Fail e => Ret (Fail e) | Ok a => k a end.

(** [if !ok { return e }; k] *)
Definition ensure {E Err A} (p : prog E bool) (e : Err) (k : prog E (result Err A)) : prog E (result Err A) :=
  ok ← p; if ok : bool then k else Ret (Fail e).

(** [x, err := p; if err != nil { return e }; k x] *)
Definition found {E Err X A} (p : E (option X)) (e : Err) (k : X → prog E (result Err A)) : prog E (result Err A) :=
  r ← trigger p; match r with None => Ret (Fail e) | Some x => k x end.

Section commands.
Context (lang : language).

Definition text (english chinese : string) : string := localize lang english chinese.

(** ** [prompt.go] *)

Fixpoint trim_endings (l : list ascii) : list ascii :=
  match l with
  | a :: l' => if Ascii.eqb a "013" || Ascii.eqb a "010" then trim_endings l' else l
  | [] => []
  end.

Definition trimLineEnding (data : string) : string :=
  String.string_of_list_ascii (reverse (trim_endings (reverse (String.list_ascii_of_string data)))).

Definition newline : string := String "010" "".

Definition readSecretValue (prompt : string) : fallible string :=
  ensure (trigger (WriteTerminal prompt)) ErrTerminal
  (secret ← trigger ReadPassword;
   ended ← trigger (WriteTerminal newline);
   match secret with
   | None => Ret (Fail ErrTerminal)
   | Some secret =>
       if negb ended then _ ← trigger (Wipe secret); Ret (Fail ErrTerminal)
       else Ret (Ok (trimLineEnding secret))
   end).

Definition ReadSecret (prompt : string) : fallible string :=
  try (readSecretValue prompt) (λ secret, Ret (if str_is_empty secret then Fail ErrEmptySecret else Ok secret)).

Definition ReadOptionalSecret (prompt : string) : fallible string := readSecretValue prompt.

Definition ReadText (prompt : string) : fallible string :=
  ensure (trigger (WriteTerminal prompt)) ErrTerminal
  (found ReadLine ErrTerminal (λ value, Ret (Ok (trim_space value)))).

Definition ReadTextDefault (prompt defaultValue : string) : fallible string :=
  let label := if str_is_empty defaultValue then prompt
               else trim_suffix prompt ": " +:+ " [" +:+ defaultValue +:+ "]: " in
  try (ReadText label) (λ value, Ret (Ok (if str_is_empty value then defaultValue else value))).

Definition ConfirmExact (prompt expected : string) : fallible bool :=
  try (ReadText prompt) (λ value, Ret (Ok (String.eqb value expected))).

(** ** [privatekey.go] *)

Definition validAuthMethod (method : AuthMethod) : bool :=
  String.eqb method AuthMethodPassword || String.eqb method AuthMethodPrivateKey.

(** [vault.ServerSecret{AuthMethod: method, ...}]. *)
Definition credentials (method : AuthMethod) (password key passphrase : string) : ServerSecret := {|
  ss_host := ""; ss_port := 0; ss_user := ""; ss_auth_method := method; ss_password := password;
  ss_private_key := key; ss_private_key_passphrase := passphrase; ss_host_fingerprint := "" |}.

Definition loadPrivateKeyAuthentication (path : string) (method : AuthMethod) : fallible ServerSecret :=
  key ← trigger (ReadPrivateKey path);
  match key with
  | None => Ret (Fail ErrPrivateKey)
  | Some key =>
      if str_is_empty key then _ ← trigger (Wipe key); Ret (Fail ErrPrivateKey)
      else
        let secret := credentials method "" key "" in
        parsed ← trigger (ParsePrivateKey key);
        match parsed with
        | KeyOk => Ret (Ok secret)
        | KeyBad => _ ← trigger (WipeSecret secret); Ret (Fail ErrPrivateKey)
        | KeyNeedsPassphrase =>
            passphrase ← ReadSecret (text "Private key passphrase: " "私钥口令：");
            match passphrase with
            | Fail e => _ ← trigger (WipeSecret secret); Ret (Fail e)
            | Ok passphrase =>
                let secret := credentials method "" key passphrase in
                ok ← trigger (ParseWithPassphrase key passphrase);
                if negb ok then _ ← trigger (WipeSecret secret); Ret (Fail ErrPrivateKey) else Ret (Ok secret)
            end
        end
  end.

(** [existing != nil && existing.EffectiveAuthMethod() == method] *)
Definition same_method (existing : option ServerSecret) (method : AuthMethod) : option ServerSecret :=
  match existing with
  | Some secret => if String.eqb (EffectiveAuthMethod secret) method then Some secret else None
  | None => None
  end.

(** [ReadText] of a path, whose error is [ErrPrivateKey]. *)
Definition key_path (p : fallible string) (k : string → fallible ServerSecret) : fallible ServerSecret :=
  r ← p; match r with Fail _ => Ret (Fail ErrPrivateKey) | Ok path => k path end.

Definition readAuthenticationExisting (method : AuthMethod) (existing : option ServerSecret) : fallible ServerSecret :=
  if String.eqb method AuthMethodPassword then
    match same_method existing method with
    | Some secret =>
        try (ReadOptionalSecret (text "SSH password [leave empty to keep current]: " "SSH 密码（留空保留当前密码）："))
          (λ password, Ret (Ok (if str_is_empty password then secret else credentials method password "" "")))
    | None => try (ReadSecret (text "SSH password: " "SSH 密码：")) (λ password, Ret (Ok (credentials method password "" "")))
    end
  else if String.eqb method AuthMethodPrivateKey then
    match same_method existing method with
    | Some secret =>
        key_path (ReadText (text "Private key file [leave empty to keep current]: " "私钥文件（留空保留当前私钥）："))
          (λ path, if str_is_empty path then Ret (Ok secret) else loadPrivateKeyAuthentication path method)
    | None =>
        defaultPath ← trigger DiscoverPrivateKey;
        _ ← (if str_is_empty defaultPath then Ret true
             else trigger (WriteTerminal (text "Detected private key: " "检测到私钥：" +:+ defaultPath +:+ newline)));
        key_path (ReadTextDefault (text "Private key file: " "私钥文件：") defaultPath)
          (λ path, loadPrivateKeyAuthentication path method)
    end
  else Ret (Fail ErrInvalidAuthMethod).

(** ** [readServer] *)

(** [fmt.Fprintln(terminal, ...)], whose error is dropped. *)
Definition say (line : string) : app unit := _ ← trigger (WriteTerminal line); Ret tt.

(** [if err != nil || bad value { return e }] after a question. *)
Definition answered {A B} (p : fallible A) (good : A → bool) (e : app_error) (k : A → fallible B) : fallible B :=
  r ← p; match r with Ok a => if good a then k a else Ret (Fail e) | Fail _ => Ret (Fail e) end.

Definition not_empty (s : string) : bool := negb (str_is_empty s).

Definition trust_prompt : string := text "Type TRUST to pin this host key: " "确认无误后输入 TRUST 固定主机密钥：".

Definition identity_shown (fingerprint : string) : string :=
  text "[5/6] Verify host identity through a trusted channel" "[5/6] 请通过可信渠道核对主机身份" +:+ newline
  +:+ text "Host key fingerprint: " "主机密钥指纹：" +:+ fingerprint +:+ newline.

Definition probe_and_confirm (host : string) (port : Z) : fallible string :=
  fingerprint ← trigger (Probe host port);
  match fingerprint with
  | None => Ret (Fail ErrHostKeyProbe)
  | Some fingerprint =>
      if str_is_empty fingerprint then Ret (Fail ErrHostKeyProbe)
      else
        _ ← say (identity_shown fingerprint);
        try (ConfirmExact trust_prompt "TRUST")
          (λ confirmed, Ret (if confirmed : bool then Ok fingerprint else Fail ErrHostKeyUnconfirmed))
  end.

(** The host key: the pinned one when the endpoint did not change, or the one
    that is read from the host and confirmed. *)
Definition readFingerprint (host : string) (port : Z) (existing : option ServerSecret) : fallible string :=
  match existing with
  | Some old =>
      if String.eqb host (ss_host old) && Z.eqb port (ss_port old) then
        _ ← say (text "[5/6] Host endpoint unchanged; preserving the pinned host key" "[5/6] 主机端点未变化，保留已固定的主机密钥" +:+ newline);
        Ret (Ok (ss_host_fingerprint old))
      else probe_and_confirm host port
  | None => probe_and_confirm host port
  end.

Definition with_endpoint (secret : ServerSecret) (host : string) (port : Z) (user fingerprint : string) : ServerSecret := {|
  ss_host := host; ss_port := port; ss_user := user; ss_auth_method := ss_auth_method secret;
  ss_password := ss_password secret; ss_private_key := ss_private_key secret;
  ss_private_key_passphrase := ss_private_key_passphrase secret; ss_host_fingerprint := fingerprint |}.

(** The credentials, and the login that must succeed with them. *)
Definition readCredentials (description host : string) (port : Z) (user fingerprint : string) (method : AuthMethod)
    (existing : option ServerSecret) : fallible (string * ServerSecret) :=
  _ ← say (text "[6/6] Enter credentials securely; they will be imported into the encrypted vault"
             "[6/6] 安全输入凭据；凭据将导入加密 vault" +:+ newline);
  try (readAuthenticationExisting method existing) (λ secret,
    let secret := with_endpoint secret host port user fingerprint in
    _ ← say (text "Testing SSH authentication before saving..." "保存前正在测试 SSH 认证……" +:+ newline);
    ok ← trigger (TestConnection secret);
    if negb ok then _ ← trigger (WipeSecret secret); Ret (Fail ErrConnectionTest)
    else Ret (Ok (description, secret))).

Definition hostDefault (existing : option ServerSecret) : string := from_option ss_host "" existing.
Definition userDefault (existing : option ServerSecret) : string := from_option ss_user "" existing.
Definition portDefault (existing : option ServerSecret) : string := from_option (λ s, itoa_nonneg (ss_port s)) "22" existing.
Definition authDefault (existing : option ServerSecret) : string := from_option EffectiveAuthMethod "private-key" existing.

(** [strconv.ParseUint(portText, 10, 16)], and not zero. *)
Definition parsePort (portText : string) : option Z :=
  match parse_uint portText (2 ^ 16 - 1) with
  | Some port => if Z.eqb port 0 then None else Some port
  | None => None
  end.

Definition readServer (existingDescription : string) (existing : option ServerSecret) : fallible (string * ServerSecret) :=
  _ ← say (text "[1/6] Public description (optional)" "[1/6] 公开描述（可选）" +:+ newline);
  try (ReadTextDefault (text "Description: " "描述：") existingDescription) (λ description,
  _ ← say (text "[2/6] SSH network endpoint" "[2/6] SSH 网络端点" +:+ newline);
  answered (ReadTextDefault (text "Host: " "主机：") (hostDefault existing)) not_empty ErrInvalidServer (λ host,
  answered (ReadTextDefault (text "Port: " "端口：") (portDefault existing)) (λ _, true) ErrInvalidServer (λ portText,
  match parsePort portText with
  | None => Ret (Fail ErrInvalidServer)
  | Some port =>
      _ ← say (text "[3/6] SSH login user" "[3/6] SSH 登录用户" +:+ newline);
      answered (ReadTextDefault (text "User: " "用户名：") (userDefault existing)) not_empty ErrInvalidServer (λ user,
      _ ← say (text "[4/6] Authentication method" "[4/6] 认证方式" +:+ newline);
      answered (ReadTextDefault (text "Authentication method (password/private-key): " "认证方式（password/private-key）：")
                  (authDefault existing)) validAuthMethod ErrInvalidAuthMethod (λ method,
      try (readFingerprint host port existing) (λ fingerprint,
      readCredentials description host port user fingerprint method existing)))
  end))).

(** ** Saving what must agree *)

#[export] Instance Data_eq_dec : EqDecision Data.
Proof. solve_decision. Defined.

(** [saveConfigVerified]: an error of [Save] counts only when the file is not
    what it should be. *)
Definition saveConfigVerified (desired : Config) : app bool :=
  a ← trigger (ConfigSave desired);
  match a with
  | Saved => Ret true
  | SaveFailed _ => actual ← trigger ConfigLoad; Ret (bool_decide (actual = Some desired))
  end.

Definition saveVaultVerified (v : vault_file) (master : string) (desired : Data) : app bool :=
  a ← trigger (VaultSave v master desired);
  match a with
  | Saved => Ret true
  | SaveFailed _ =>
      actual ← trigger (VaultLoad v master);
      match actual with
      | None => Ret false
      | Some actual => _ ← trigger (WipeData actual); Ret (bool_decide (actual = desired))
      end
  end.

Definition requireDaemonStopped {A} (k : fallible A) : fallible A :=
  status ← trigger DaemonStatus;
  match status with
  | Reachable true | StatusFailed => Ret (Fail ErrDaemonRunning)
  | Reachable false | Unavailable => k
  end.

(** What follows a mutation: the three files. *)
Definition commit (original : Config) (master : string) (cfg : Config) (data : Data) : fallible unit :=
  let cfg := normalizedConfig cfg (Some data) in
  ensure (saveConfigVerified cfg) ErrStorage
  (saved ← saveVaultVerified MainVault master data;
   if negb saved then _ ← saveConfigVerified original; Ret (Fail ErrStorage)
   else if str_is_empty (da_recovery_key data) then Ret (Ok tt)
   else ensure (saveVaultVerified RecoveryVault (da_recovery_key data) data) ErrStorage (Ret (Ok tt))).

(** What a command does to the configuration and the vault in memory, and the
    alias it reports. *)
Definition mutation := Config → Data → fallible (Config * Data * string).

Definition some_servers (data : Data) : Data :=
  {| da_servers := Some (secrets_of data); da_recovery_key := da_recovery_key data |}.

(** With the master password: the vault is loaded, changed and committed; the
    copy of what was loaded and what is there at the end are wiped. *)
Definition with_master (mutate : mutation) (cfg : Config) (master : string) : fallible string :=
  found (VaultLoad MainVault master) ErrStorage (λ data,
    let data := some_servers data in
    changed ← mutate cfg data;
    match changed with
    | Fail e => deferred (deferred (Ret (Fail e)) (WipeData data)) (WipeData data)
    | Ok (cfg', data', alias) =>
        deferred (deferred (try (commit (cloneConfig cfg) master cfg' data') (λ _, Ret (Ok alias))) (WipeData data)) (WipeData data')
    end).

Definition master_prompt : string := text "Master password: " "主密码：".

Definition withUnlockedVault (mutate : mutation) : fallible string :=
  ensure (trigger EnsureLayout) ErrStorage
  (lock ← trigger AcquireLifecycle;
   match lock with
   | Some e => Ret (Fail e)
   | None =>
       deferred
         (requireDaemonStopped
           (found ConfigLoad ErrNotInitialized (λ cfg,
             let cfg := normalizedConfig cfg None in
             ensure (trigger OpenTerminal) ErrNoTerminal
             (deferred
               (try (ReadSecret master_prompt) (λ master, deferred (with_master mutate cfg master) (Wipe master)))
               CloseTerminal)))) ReleaseLifecycle
   end).

(** ** The commands on servers *)

(** [fmt.Fprintf(application.deps.Stdout, ...)] of the alias, when there was no
    error. *)
Definition reported (p : fallible string) (english chinese : string) : fallible unit :=
  try p (λ alias, _ ← trigger (Stdout (text ("server " +:+ alias +:+ english) ("服务器 " +:+ alias +:+ chinese))); Ret (Ok tt)).

Definition put_server (cfg : Config) (data : Data) (alias : string) (r : string * ServerSecret) : Config * Data :=
  (with_servers cfg (<[alias := publicServerConfig (fst r) (snd r)]> (servers_of cfg)),
   {| da_servers := Some (<[alias := snd r]> (secrets_of data)); da_recovery_key := da_recovery_key data |}).

Definition drop_server (cfg : Config) (data : Data) (alias : string) : Config * Data :=
  (with_servers cfg (delete alias (servers_of cfg)),
   {| da_servers := Some (delete alias (secrets_of data)); da_recovery_key := da_recovery_key data |}).

Definition add_mutation : mutation := λ cfg data,
  answered (ReadText (text "Alias: " "别名：")) validAlias ErrInvalidAlias (λ alias,
  if bool_decide (is_Some (servers_of cfg !! alias)) then Ret (Fail ErrServerExists)
  else try (readServer "" None) (λ r, Ret (Ok (put_server cfg data alias r, alias)))).

Definition addServer : fallible unit :=
  reported (withUnlockedVault add_mutation) (" added" +:+ newline) (" 添加成功" +:+ newline).

Definition edit_mutation (alias : string) : mutation := λ cfg data,
  match servers_of cfg !! alias, secrets_of data !! alias with
  | Some public, Some oldSecret =>
      try (readServer (sp_description public) (Some oldSecret)) (λ r,
        _ ← trigger (WipeSecret oldSecret);
        Ret (Ok (put_server cfg data alias r, alias)))
  | _, _ => Ret (Fail ErrServerNotFound)
  end.

Definition editServer (alias : string) : fallible unit :=
  if negb (validAlias alias) then Ret (Fail ErrInvalidAlias) 
  else reported (withUnlockedVault (edit_mutation alias)) (" updated" +:+ newline) (" 更新成功" +:+ newline).

Definition remove_mutation (alias : string) : mutation := λ cfg data,
  match servers_of cfg !! alias with
  | None => Ret (Fail ErrServerNotFound)
  | Some _ =>
      try (ConfirmExact (text "Type the alias to remove: " "输入要删除的服务器别名：") alias) (λ confirmed,
        if negb confirmed then Ret (Fail ErrUsage)
        else
          _ ← (match secrets_of data !! alias with Some secret => trigger (WipeSecret secret) | None => Ret tt end);
          Ret (Ok (drop_server cfg data alias, alias)))
  end.

Definition removeServer (alias : string) : fallible unit :=
  if negb (validAlias alias) then Ret (Fail ErrInvalidAlias) 
  else reported (withUnlockedVault (remove_mutation alias)) (" removed" +:+ newline) (" 删除成功" +:+ newline).

(** ** [initialize] *)

(** A new master password, typed twice. *)
Definition read_new_master {A} (prompt confirm : string) (k : string → fallible A) : fallible A :=
  try (ReadSecret prompt) (λ master, deferred
    (try (ReadSecret confirm) (λ confirmation, deferred
      (if String.eqb master confirmation then k master else Ret (Fail ErrPasswordMismatch)) (Wipe confirmation)))
    (Wipe master)).

(** [exists(ConfigFile) || exists(VaultFile)] *)
Definition initialized : app bool :=
  config ← trigger ConfigExists; if config : bool then Ret true else trigger (VaultExists MainVault).

Definition initialize_files (master : string) : fallible unit :=
  made ← trigger (VaultInitialize master);
  match made with
  | SaveFailed _ => Ret (Fail ErrStorage)
  | Saved =>
      saved ← saveConfigVerified defaultConfig;
      if negb saved then
        _ ← trigger RemoveVault; _ ← trigger RemoveConfig; Ret (Fail ErrStorage)
      else
        _ ← trigger (Stdout (text "aegis-ssh initialized" "aegis-ssh 初始化完成" +:+ newline)); Ret (Ok tt)
  end.

Definition initialize : fallible unit :=
  ensure (trigger EnsureLayout) ErrStorage
  (ready ← initialized;
   if ready : bool then Ret (Fail ErrAlreadyInitialized)
   else
     lock ← trigger AcquireLifecycle;
     match lock with
     | Some e => Ret (Fail e)
     | None =>
         deferred
           (ready ← initialized;
            if ready : bool then Ret (Fail ErrAlreadyInitialized)
            else
              ensure (trigger OpenTerminal) ErrNoTerminal
              (deferred (read_new_master master_prompt (text "Confirm master password: " "确认主密码：") initialize_files) CloseTerminal))
           ReleaseLifecycle
     end).

(** ** [recoveryCommand] *)

Definition printRecoveryCode (key : string) : fallible unit :=
  ensure (trigger (WriteTerminal (text "Recovery code (store it offline): " "恢复码（请离线保存）：" +:+ raw_url_encode key +:+ newline)))
    ErrTerminal (Ret (Ok tt)).

(** [if exists(path) { os.Rename(path, backup) }] *)
Definition archive {A} (present : app bool) (rename : app_op bool) (k : fallible A) : fallible A :=
  there ← present; if there : bool then ensure (trigger rename) ErrStorage k else k.

Definition new_master_prompt : string := text "New master password: " "新主密码：".
Definition confirm_new_prompt : string := text "Confirm new master password: " "确认新主密码：".

Definition recovery_reset : fallible unit :=
  try (ConfirmExact (text "Type RESET to archive the old vault and start over: " "输入 RESET 归档旧 vault 并重新开始：") "RESET") (λ confirmed,
  if negb confirmed then Ret (Fail ErrUsage)
  else read_new_master new_master_prompt confirm_new_prompt (λ newMaster,
    archive (trigger ConfigExists) ArchiveConfig
    (archive (trigger (VaultExists MainVault)) (ArchiveVault MainVault)
    (archive (trigger (VaultExists RecoveryVault)) (ArchiveVault RecoveryVault)
    (made ← trigger (VaultInitialize newMaster);
     match made with
     | SaveFailed _ => Ret (Fail ErrStorage)
     | Saved =>
         ensure (saveConfigVerified defaultConfig) ErrStorage
         (_ ← trigger (Stdout (text "old encrypted files archived; new empty vault initialized" "旧加密文件已归档，新空 vault 已初始化" +:+ newline));
          Ret (Ok tt))
     end))))).

Definition with_key (data : Data) (key : string) : Data := {| da_servers := da_servers data; da_recovery_key := key |}.

Definition recovery_enable : fallible unit :=
  try (ReadSecret master_prompt) (λ master, deferred
    (found (VaultLoad MainVault master) ErrStorage (λ data,
      if not_empty (da_recovery_key data) then deferred (printRecoveryCode (da_recovery_key data)) (WipeData data)
      else
        key ← trigger RandomKey;
        match key with
        | None => deferred (Ret (Fail ErrStorage)) (WipeData data)
        | Some key =>
            let data := with_key data key in
            deferred
              (ensure (saveVaultVerified MainVault master data) ErrStorage
              (ensure (saveVaultVerified RecoveryVault key data) ErrStorage
              (printRecoveryCode key))) (WipeData data)
        end)) (Wipe master)).

Definition recovery_restore : fallible unit :=
  ensure (trigger (VaultExists RecoveryVault)) ErrRecoveryUnavailable
  (try (ReadSecret (text "Recovery code: " "恢复码：")) (λ recoveryText, deferred
    (match raw_url_decode recoveryText with
     | None => Ret (Fail ErrStorage)
     | Some recoveryKey => deferred
         (found (VaultLoad RecoveryVault recoveryKey) ErrStorage (λ data,
           if negb (String.eqb (da_recovery_key data) recoveryKey) then _ ← trigger (WipeData data); Ret (Fail ErrStorage)
           else deferred
             (read_new_master new_master_prompt confirm_new_prompt (λ newMaster,
               ensure (saveVaultVerified MainVault newMaster data) ErrStorage
               (_ ← trigger (Stdout (text "master password reset" "主密码已重设" +:+ newline)); Ret (Ok tt)))) (WipeData data)))
         (Wipe recoveryKey)
     end) (Wipe recoveryText))).

Definition recoveryCommand (args : list string) : fallible unit :=
  match args with
  | [mode] =>
      if bool_decide (mode ∈ ["enable"; "restore"; "reset"]) then
        ensure (trigger EnsureLayout) ErrStorage
        (requireDaemonStopped
          (ensure (trigger OpenTerminal) ErrNoTerminal
          (deferred
            (if String.eqb mode "reset" then recovery_reset
             else if String.eqb mode "enable" then recovery_enable
             else recovery_restore) CloseTerminal)))
      else Ret (Fail ErrUsage)
  | _ => Ret (Fail ErrUsage)
  end.

End commands.
