(* ===== verification/AppVaultSpec.v ===== *)
(** * What the vault's commands do to the files

    The world of [AppVault]: the configuration, the vault and its copy under
    the recovery key, what was archived, and how many calls on them failed.
    A call on the files may fail, and a save that fails may have replaced the
    file.  [outcome] is what a command of [withUnlockedVault] leaves; the end of
    the file has an interpreter of scripts for sample runs. *)

From S2P Require Import Prelude GoStr Utf8 GoTime Prog Json Base64 Model Wire Vault VaultStore Config AppConfig AppVault.
Open Scope string_scope.
Open Scope list_scope.

(** ** The files *)

(** A vault: the password it is sealed under, and its data. *)
Definition sealed := (string * Data)%type.

Record files := Files {
  fs_config : option Config;
  fs_main : option sealed;
  fs_recovery : option sealed;
  fs_archive : list (Config + sealed);
  fs_faults : nat;
  fs_locked : bool }.

Definition fs_vault (v : vault_file) (w : files) : option sealed :=
  match v with MainVault => fs_main w | RecoveryVault => fs_recovery w end.

Definition set_config (w : files) (c : option Config) : files :=
  Files c (fs_main w) (fs_recovery w) (fs_archive w) (fs_faults w) (fs_locked w).

Definition set_vault (v : vault_file) (w : files) (x : option sealed) : files :=
  match v with
  | MainVault => Files (fs_config w) x (fs_recovery w) (fs_archive w) (fs_faults w) (fs_locked w)
  | RecoveryVault => Files (fs_config w) (fs_main w) x (fs_archive w) (fs_faults w) (fs_locked w)
  end.

Definition failed (w : files) : files :=
  Files (fs_config w) (fs_main w) (fs_recovery w) (fs_archive w) (S (fs_faults w)) (fs_locked w).

Definition set_locked (w : files) (b : bool) : files :=
  Files (fs_config w) (fs_main w) (fs_recovery w) (fs_archive w) (fs_faults w) b.

Definition archived (w : files) (x : Config + sealed) : files :=
  Files (fs_config w) (fs_main w) (fs_recovery w) (x :: fs_archive w) (fs_faults w) (fs_locked w).

Definition after_save (w : files) (next : files) (a : save_answer) : files :=
  match a with Saved => next | SaveFailed replaced => failed (if replaced then next else w) end.

Definition empty_vault : Data := {| da_servers := Some ∅; da_recovery_key := "" |}.

(** [acts w e x]: the files after the call [e] when it answers [x].  A vault is
    opened by the password it is sealed under and by no other. *)
Definition acts {X : Type} (w : files) (e : app_op X) : X → option files :=
  match e in app_op X return X → option files with
  | AcquireLifecycle => λ r, Some (match r with None => set_locked w true | Some _ => w end)
  | ReleaseLifecycle => λ _, Some (set_locked w false)
  | ConfigExists => λ b, if Bool.eqb b (bool_decide (is_Some (fs_config w))) then Some w else None
  | VaultExists v => λ b, if Bool.eqb b (bool_decide (is_Some (fs_vault v w))) then Some w else None
  | ConfigLoad => λ r,
      match r with
      | Some c => if decide (fs_config w = Some c) then Some w else None
      | None => Some (match fs_config w with Some _ => failed w | None => w end)
      end
  | ConfigSave cfg => λ a, Some (after_save w (set_config w (Some cfg)) a)
  | VaultLoad v master => λ r,
      match r with
      | Some d => if decide (fs_vault v w = Some (master, d)) then Some w else None
      | None => Some (match fs_vault v w with
                      | Some (m, _) => if String.eqb m master then failed w else w
                      | None => w
                      end)
      end
  | VaultSave v master data => λ a, Some (after_save w (set_vault v w (Some (master, data))) a)
  | VaultInitialize master => λ a,
      match fs_main w with
      | None => Some (after_save w (set_vault MainVault w (Some (master, empty_vault))) a)
      | Some _ => match a with Saved => None | SaveFailed _ => Some (failed w) end
      end
  | RemoveVault => λ _, Some (set_vault MainVault w None)
  | RemoveConfig => λ _, Some (set_config w None)
  | ArchiveConfig => λ ok,
      if ok then c ← fs_config w; Some (archived (set_config w None) (inl c)) else Some (failed w)
  | ArchiveVault v => λ ok,
      if ok then x ← fs_vault v w; Some (archived (set_vault v w None) (inr x)) else Some (failed w)
  | RandomKey => λ k, match k with Some k => if Nat.eqb (String.length k) 32 then Some w else None | None => Some w end
  | _ => λ _, Some w
  end.

Abbreviation keeps := (world_keeps (@acts)).
Abbreviation halts := (world_halts (@acts)).
Abbreviation does := (world_does (@acts)).

(** Calls that neither read nor write the files, nor the lock. *)
Definition outside {X : Type} (e : app_op X) : bool :=
  match e with
  | AcquireLifecycle | ReleaseLifecycle | ConfigExists | VaultExists _ | ConfigLoad | ConfigSave _ | VaultLoad _ _
  | VaultSave _ _ _ | VaultInitialize _ | RemoveVault | RemoveConfig | ArchiveConfig | ArchiveVault _ => false
  | _ => true
  end.

Lemma outside_same X (e : app_op X) x w w' : outside e = true → acts w e x = Some w' → w' = w.
Proof. destruct e; simpl; intros He Ha; try done; repeat case_match; by simplify_eq. Qed.

(** Those of a conversation: with the user, with a host, on a key. *)
Definition talking {X : Type} (e : app_op X) : bool :=
  match e with
  | WriteTerminal _ | ReadLine | ReadPassword | Wipe _ | WipeSecret _ | WipeData _ | RandomKey | Probe _ _
  | TestConnection _ | ReadPrivateKey _ | ParsePrivateKey _ | ParseWithPassphrase _ _ | DiscoverPrivateKey => true
  | _ => false
  end.

Lemma talking_outside X (e : app_op X) : talking e = true → outside e = true.
Proof. by destruct e. Qed.

Abbreviation talks := (only (@talking)).

Lemma keeps_talk {R} w (p : app R) : talks p → keeps (λ _, True) w p (λ w' r, w' = w ∧ ∃ tr, runs p tr r).
Proof. intros Hp. apply (keeps_only (@talking)); [|done|done]. intros X e x w' He Ha. by eapply outside_same, Ha; apply talking_outside. Qed.

(** ** The mutations only talk *)

Lemma talks_try {A B} (p : fallible A) (k : A → fallible B) : talks p → (∀ a, talks (k a)) → talks (try p k).
Proof. intros Hp Hk. apply only_bind; [done|]. by intros [a|e]. Qed.

Lemma talks_ensure {A} (p : app bool) e (k : fallible A) : talks p → talks k → talks (ensure p e k).
Proof. intros Hp Hk. apply only_bind; [done|]. by intros []. Qed.

Lemma talks_answered {A B} (p : fallible A) good e (k : A → fallible B) : talks p → (∀ a, talks (k a)) → talks (answered p good e k).
Proof. intros Hp Hk. apply only_bind; [done|]. intros [a|?]; [|done]. by destruct (good a). Qed.

Lemma talks_call {X} (e : app_op X) : talking e = true → talks (trigger e).
Proof. by intros He; split. Qed.

Create HintDb talk.

(** The parts that were shown to talk are in the hint database. *)
Ltac talk := repeat first
  [ progress intros
  | solve [auto with talk nocore]
  | apply talks_try | apply talks_ensure | apply talks_answered
  | apply talks_call; reflexivity
  | apply only_bind
  | progress (unfold found, deferred, say, key_path)
  | case_match
  | exact I ].

Lemma talks_readSecretValue prompt : talks (readSecretValue prompt).
Proof. unfold readSecretValue. talk. Qed.
Lemma talks_ReadText prompt : talks (ReadText prompt).
Proof. unfold ReadText. talk. Qed.
#[export] Hint Resolve talks_readSecretValue talks_ReadText : talk.
Lemma talks_ReadTextDefault prompt d : talks (ReadTextDefault prompt d).
Proof. unfold ReadTextDefault. talk. Qed.
Lemma talks_ConfirmExact prompt e : talks (ConfirmExact prompt e).
Proof. unfold ConfirmExact. talk. Qed.
Lemma talks_ReadSecret prompt : talks (ReadSecret prompt).
Proof. unfold ReadSecret. talk. Qed.
Lemma talks_ReadOptionalSecret prompt : talks (ReadOptionalSecret prompt).
Proof. apply talks_readSecretValue. Qed.
#[export] Hint Resolve talks_ReadTextDefault talks_ConfirmExact talks_ReadSecret talks_ReadOptionalSecret : talk.
Lemma talks_loadPrivateKey lang path method : talks (loadPrivateKeyAuthentication lang path method).
Proof. unfold loadPrivateKeyAuthentication. talk. Qed.
#[export] Hint Resolve talks_loadPrivateKey : talk.
Lemma talks_readAuthentication lang method existing : talks (readAuthenticationExisting lang method existing).
Proof. unfold readAuthenticationExisting. talk. Qed.
Lemma talks_readFingerprint lang host port existing : talks (readFingerprint lang host port existing).
Proof. unfold readFingerprint, probe_and_confirm. talk. Qed.
#[export] Hint Resolve talks_readAuthentication talks_readFingerprint : talk.
Lemma talks_readCredentials lang d host port user fp method existing :
  talks (readCredentials lang d host port user fp method existing).
Proof. unfold readCredentials. talk. Qed.
#[export] Hint Resolve talks_readCredentials : talk.
Lemma talks_readServer lang d existing : talks (readServer lang d existing).
Proof. unfold readServer. talk. Qed.
#[export] Hint Resolve talks_readServer : talk.

Lemma add_talks lang cfg data : talks (add_mutation lang cfg data).
Proof. unfold add_mutation. talk. Qed.
Lemma edit_talks lang alias cfg data : talks (edit_mutation lang alias cfg data).
Proof. unfold edit_mutation. talk. Qed.
Lemma remove_talks lang alias cfg data : talks (remove_mutation lang alias cfg data).
Proof. unfold remove_mutation. talk. Qed.

(** ** Committing *)

(** The files, without what the lock and the count of failures say. *)
Definition same_files (w w' : files) : Prop :=
  fs_config w' = fs_config w ∧ fs_main w' = fs_main w ∧ fs_recovery w' = fs_recovery w ∧ fs_archive w' = fs_archive w.

(** A save that was verified: done, perhaps with failures on the way; or not
    done, and if no more than one call failed, not at all. *)
Lemma keeps_saveConfig w desired :
  keeps (λ _, True) w (saveConfigVerified desired) (λ w' ok,
    (fs_faults w ≤ fs_faults w')%nat ∧ fs_locked w' = fs_locked w ∧ fs_main w' = fs_main w ∧
    fs_recovery w' = fs_recovery w ∧ fs_archive w' = fs_archive w ∧
    (fs_config w' = fs_config w ∨ fs_config w' = Some desired) ∧
    (if ok : bool then fs_config w' = Some desired
     else (fs_faults w < fs_faults w')%nat ∧ ((fs_faults w' ≤ S (fs_faults w))%nat → fs_config w' = fs_config w))).
Proof.
  unfold saveConfigVerified. apply keeps_bind. intros a w1 Ha. injection Ha as <-. split; [done|].
  destruct a as [|replaced]; [simpl; split_and!; auto with lia|]. cbn [after_save].
  apply keeps_bind. intros r w2 Ha. split; [done|]. cbn [world_keeps].
  set (w1 := failed _) in Ha. assert (fs_config w1 = if replaced then Some desired else fs_config w) as Hw1 by by destruct replaced.
  assert (fs_faults w1 = S (fs_faults w) ∧ fs_locked w1 = fs_locked w ∧ fs_main w1 = fs_main w ∧
    fs_recovery w1 = fs_recovery w ∧ fs_archive w1 = fs_archive w) as (Hf & Hl & Hm & Hr & Har) by by destruct replaced.
  clearbody w1. destruct r as [c|]; cbn [acts] in Ha.
  - case_decide as Hc; [|done]. injection Ha as <-. simpl. rewrite Hf, Hl, Hm, Hr, Har. rewrite Hw1 in Hc.
    destruct (decide (c = desired)) as [->|Hne].
    + rewrite bool_decide_eq_true_2 by done. rewrite Hw1, Hc. split_and!; auto with lia.
    + rewrite bool_decide_eq_false_2 by congruence. rewrite Hw1.
      destruct replaced; [congruence|]. split_and!; auto with lia.
  - rewrite bool_decide_eq_false_2 by done. assert (w2 = failed w1 ∨ fs_config w1 = None ∧ w2 = w1) as Hw2
      by (destruct (fs_config w1); injection Ha as <-; auto).
    destruct Hw2 as [->|[Hn ->]]; simpl; rewrite Hf, Hl, Hm, Hr, Har, Hw1.
    + destruct replaced; split_and!; auto with lia; lia.
    + rewrite Hw1 in Hn. destruct replaced; [done|]. split_and!; auto with lia.
Qed.

Lemma keeps_saveVault w v master desired :
  keeps (λ _, True) w (saveVaultVerified v master desired) (λ w' ok,
    (fs_faults w ≤ fs_faults w')%nat ∧ fs_locked w' = fs_locked w ∧ fs_config w' = fs_config w ∧ fs_archive w' = fs_archive w ∧
    (∀ u, u ≠ v → fs_vault u w' = fs_vault u w) ∧
    (fs_vault v w' = fs_vault v w ∨ fs_vault v w' = Some (master, desired)) ∧
    (if ok : bool then fs_vault v w' = Some (master, desired)
     else (fs_faults w < fs_faults w')%nat ∧ ((fs_faults w' ≤ S (fs_faults w))%nat → fs_vault v w' = fs_vault v w))).
Proof.
  unfold saveVaultVerified. apply keeps_bind. intros a w1 Ha. injection Ha as <-. split; [done|].
  assert (∀ w u x, fs_vault v (set_vault v w x) = x ∧ (u ≠ v → fs_vault u (set_vault v w x) = fs_vault u w) ∧
    fs_faults (set_vault v w x) = fs_faults w ∧ fs_locked (set_vault v w x) = fs_locked w ∧
    fs_config (set_vault v w x) = fs_config w ∧ fs_archive (set_vault v w x) = fs_archive w) as Hset by (by intros ? [] ?; destruct v).
  assert (∀ w u, fs_vault u (failed w) = fs_vault u w) as Hfail by (by intros ? []).
  destruct (Hset w v (Some (master, desired))) as (Hv & _ & Hf & Hl & Hc & Har).
  pose proof (λ u, proj1 (proj2 (Hset w u (Some (master, desired))))) as Hu.
  destruct a as [|replaced]; [simpl; rewrite Hf, Hl, Hc, Har, Hv; split_and!; auto with lia|]. cbn [after_save].
  apply keeps_bind. intros r w2 Ha. split; [done|]. cbn [world_keeps].
  set (w1 := failed _) in Ha. assert (fs_vault v w1 = if replaced then Some (master, desired) else fs_vault v w) as Hw1
    by (unfold w1; rewrite Hfail; by destruct replaced).
  assert (fs_faults w1 = S (fs_faults w) ∧ fs_locked w1 = fs_locked w ∧ fs_config w1 = fs_config w ∧ fs_archive w1 = fs_archive w ∧
    ∀ u, u ≠ v → fs_vault u w1 = fs_vault u w) as (Hf1 & Hl1 & Hc1 & Har1 & Hu1).
  { unfold w1. destruct replaced; simpl; rewrite ?Hf, ?Hl, ?Hc, ?Har; split_and!; auto; intros u Hne; rewrite Hfail; auto. }
  clearbody w1. destruct r as [d|]; cbn [acts] in Ha.
  - case_decide as Hd; [|done]. injection Ha as <-. rewrite Hw1 in Hd.
    apply keeps_bind. intros x w3 [= <-]. split; [done|]. cbn [world_keeps]. rewrite Hf1, Hl1, Hc1, Har1, Hw1.
    destruct (decide (d = desired)) as [->|Hne].
    + rewrite bool_decide_eq_true_2 by done. destruct replaced; split_and!; auto with lia.
    + rewrite bool_decide_eq_false_2 by done. destruct replaced; [congruence|]. split_and!; auto with lia.
  - assert (w2 = failed w1 ∨ fs_vault v w1 ≠ Some (master, desired) ∧ w2 = w1) as Hw2.
    { destruct (fs_vault v w1) as [[m d]|]; injection Ha as <-; [|by right].
      destruct (m =? master)%string eqn:Hm; [by left|]. right. split; [|done]. intros [= -> _]. by rewrite String.eqb_refl in Hm. }
    cbn [world_keeps]. destruct Hw2 as [->|[Hn ->]]; rewrite ?Hfail; simpl; rewrite Hf1, Hl1, Hc1, Har1, Hw1.
    + destruct replaced; split_and!; auto with lia; try lia; intros u Hne; rewrite Hfail; auto.
    + rewrite Hw1 in Hn. destruct replaced; [done|]. split_and!; auto with lia.
Qed.

(** What a commit leaves: everything, or, when one call failed, files that
    belong together. *)
Record commits (w : files) (original cfg : Config) (master : string) (data : Data) (w' : files) (r : result app_error unit) : Prop := {
  cm_faults : (fs_faults w ≤ fs_faults w')%nat;
  cm_archive : fs_archive w' = fs_archive w;
  cm_locked : fs_locked w' = fs_locked w;
  cm_main : fs_main w' = fs_main w ∨ fs_main w' = Some (master, data);
  cm_done : r = Ok tt →
    fs_config w' = Some cfg ∧ fs_main w' = Some (master, data) ∧
    fs_recovery w' = if str_is_empty (da_recovery_key data) then fs_recovery w else Some (da_recovery_key data, data);
  cm_failed e : r = Fail e → (fs_faults w < fs_faults w')%nat ∧ ((fs_faults w' ≤ S (fs_faults w))%nat →
    fs_recovery w' = fs_recovery w ∧
    (fs_config w' = fs_config w ∧ fs_main w' = fs_main w ∨
     fs_config w' = Some original ∧ fs_main w' = fs_main w ∨
     fs_config w' = Some cfg ∧ fs_main w' = Some (master, data))) }.

Lemma keeps_commit w original master cfg data :
  keeps (λ _, True) w (commit original master cfg data)
    (commits w original (normalizedConfig cfg (Some data)) master data).
Proof.
  unfold commit, ensure. set (new := normalizedConfig cfg (Some data)).
  apply keeps_bind. eapply keeps_mono; [|apply keeps_saveConfig].
  intros w1 ok (Hf1 & Hl1 & Hm1 & Hr1 & Ha1 & _ & Hok1). destruct ok.
  2: { destruct Hok1 as [Hlt Hsame]. split; auto; [done|]. intros e _. split; [done|]. intros Hle. split; [done|]. left. auto. }
  apply keeps_bind. eapply keeps_mono; [|apply (keeps_saveVault w1 MainVault)].
  intros w2 ok (Hf2 & Hl2 & Hc2 & Ha2 & Ho2 & Hm2 & Hok2). pose proof (Ho2 RecoveryVault ltac:(done)) as Hr2. cbn [fs_vault] in *.
  destruct ok; cbn [negb].
  2: { destruct Hok2 as [Hlt Hsame]. apply keeps_bind. eapply keeps_mono; [|apply keeps_saveConfig].
       intros w3 ok (Hf3 & Hl3 & Hm3 & Hr3 & Ha3 & Hc3 & Hok3). split; try congruence; [lia|].
       intros e _. split; [lia|]. intros Hle. split; [congruence|]. right. left. rewrite Hm3, Hsame by lia.
       split; [|congruence]. destruct ok; [done|]. destruct Hok3. lia. }
  destruct (str_is_empty (da_recovery_key data)) eqn:Hk.
  { simpl. split; try congruence; auto with lia. intros _. rewrite Hk. split_and!; congruence. }
  apply keeps_bind. eapply keeps_mono; [|apply (keeps_saveVault w2 RecoveryVault)].
  intros w3 ok (Hf3 & Hl3 & Hc3 & Ha3 & Ho3 & Hm3 & Hok3). pose proof (Ho3 MainVault ltac:(done)) as Hmain3. cbn [fs_vault] in *.
  destruct ok; simpl.
  - split; try congruence; [lia|]. intros _. rewrite Hk. split_and!; congruence.
  - destruct Hok3 as [Hlt Hsame]. split; try congruence; [lia|]. intros e _. split; [lia|].
    intros Hle. rewrite Hsame by lia. split; [congruence|]. right. right. split; congruence.
Qed.

(** ** A command on the vault *)

(** What a command with [mutate] leaves of the files, when the lock was free:
    it did what [mutate] says; or it failed before it wrote anything; or a call
    failed, and if only one did, configuration and vault are a pair that
    belongs together. *)
Inductive outcome (mutate : mutation) (w w' : files) : result app_error string → Prop :=
| outcome_done cfg master data cfg' data' alias tr :
    fs_config w = Some cfg → fs_main w = Some (master, data) →
    runs (mutate (normalizedConfig cfg None) (some_servers data)) tr (Ok (cfg', data', alias)) →
    fs_config w' = Some (normalizedConfig cfg' (Some data')) → fs_main w' = Some (master, data') →
    fs_recovery w' = (if str_is_empty (da_recovery_key data') then fs_recovery w else Some (da_recovery_key data', data')) →
    fs_archive w' = fs_archive w → outcome mutate w w' (Ok alias)
| outcome_refused e : same_files w w' → outcome mutate w w' (Fail e)
| outcome_failed cfg master data cfg' data' alias tr e :
    fs_config w = Some cfg → fs_main w = Some (master, data) →
    runs (mutate (normalizedConfig cfg None) (some_servers data)) tr (Ok (cfg', data', alias)) →
    (fs_faults w < fs_faults w')%nat →
    fs_main w' = fs_main w ∨ fs_main w' = Some (master, data') →
    ((fs_faults w' ≤ S (fs_faults w))%nat →
      fs_recovery w' = fs_recovery w ∧
      (fs_config w' = fs_config w ∧ fs_main w' = fs_main w ∨
       fs_config w' = Some (normalizedConfig cfg None) ∧ fs_main w' = fs_main w ∨
       fs_config w' = Some (normalizedConfig cfg' (Some data')) ∧ fs_main w' = Some (master, data'))) →
    fs_archive w' = fs_archive w → outcome mutate w w' (Fail e).

(** What holds of the files at a step, beside their being the same. *)
Definition untouched (w0 w : files) : Prop := same_files w0 w ∧ (fs_faults w0 ≤ fs_faults w)%nat.

Lemma untouched_refl w : untouched w w.
Proof. by split. Qed.

Definition finished (mutate : mutation) (w0 : files) (w' : files) (r : result app_error string) : Prop :=
  outcome mutate w0 w' r ∧ (fs_faults w0 ≤ fs_faults w')%nat.

Lemma finished_refused mutate w0 w e : untouched w0 w → finished mutate w0 w (Fail e).
Proof. intros [Hs Hf]. split; [by apply outcome_refused|done]. Qed.

(** Calls outside the files, and the lock, after the end. *)
Definition closing {X} (e : app_op X) : bool :=
  outside e || match e with AcquireLifecycle | ReleaseLifecycle => true | _ => false end.

Lemma closing_same X (e : app_op X) x w w' : closing e = true → acts w e x = Some w' →
  same_files w w' ∧ fs_faults w' = fs_faults w.
Proof.
  unfold closing. intros He Ha. destruct (outside e) eqn:Ho.
  - by rewrite (outside_same _ _ _ _ _ Ho Ha).
  - destruct e; try done; simpl in Ha; injection Ha as <-; [destruct x|]; done.
Qed.

Lemma same_files_trans w w' w'' : same_files w w' → same_files w' w'' → same_files w w''.
Proof. intros (? & ? & ? & ?) (? & ? & ? & ?). split_and!; congruence. Qed.

Lemma untouched_trans w w' w'' : untouched w w' → same_files w' w'' → (fs_faults w' ≤ fs_faults w'')%nat → untouched w w''.
Proof. intros [Hs Hf] Hs' Hf'. split; [by eapply same_files_trans|lia]. Qed.

Lemma finished_closing mutate w0 w w' r : finished mutate w0 w r → same_files w w' → fs_faults w' = fs_faults w → finished mutate w0 w' r.
Proof.
  intros [Ho Hf] (Hc & Hm & Hr & Ha) He. split; [|lia].
  destruct Ho as [cfg master data cfg' data' alias tr H1 H2 H3 H4 H5 H6 H7|e (S1 & S2 & S3 & S4)|cfg master data cfg' data' alias tr e H1 H2 H3 H4 H5 H6 H7].
  - eapply outcome_done; [done..|congruence|congruence|congruence|congruence].
  - apply outcome_refused. split_and!; congruence.
  - eapply outcome_failed; [done..|lia| | |congruence].
    + rewrite Hm. exact H5.
    + rewrite He, Hc, Hm, Hr. exact H6.
Qed.

Lemma keeps_deferred {A} w (p : app A) (call : app_op unit) Q :
  (∀ w' w'' a, Q w' a → same_files w' w'' → fs_faults w'' = fs_faults w' → Q w'' a) → closing call = true →
  keeps (λ _, True) w p Q → keeps (λ _, True) w (deferred p call) Q.
Proof.
  intros HQ Hc Hp. unfold deferred. apply keeps_bind. eapply keeps_mono; [|exact Hp].
  intros w1 a Ha. apply keeps_bind. intros x w2 Hx. split; [done|].
  destruct (closing_same _ _ _ _ _ Hc Hx). simpl. eauto.
Qed.

Lemma keeps_outside {X B} w (e : app_op X) (k : X → app B) Q : outside e = true →
  (∀ x, keeps (λ _, True) w (k x) Q) → keeps (λ _, True) w (trigger e ≫= k) Q.
Proof. intros He Hk. apply keeps_bind. intros x w' Ha. rewrite (outside_same _ _ _ _ _ He Ha). split; [done|]. apply Hk. Qed.

Lemma keeps_talking {A B} w (p : fallible A) (k : A → fallible B) Q : talks p →
  (∀ a tr, runs p tr (Ok a) → keeps (λ _, True) w (k a) Q) → (∀ e, Q w (Fail e)) → keeps (λ _, True) w (try p k) Q.
Proof.
  intros Hp Hk He. apply keeps_bind. eapply keeps_mono; [|by apply keeps_talk].
  intros w' [a|e] [-> [tr Hr]]; [by eapply Hk|apply He].
Qed.

(** What a load finds, or nothing. *)
Lemma keeps_found_config {B} w e (k : Config → fallible B) Q :
  (∀ c, fs_config w = Some c → keeps (λ _, True) w (k c) Q) → (∀ w', untouched w w' → Q w' (Fail e)) →
  keeps (λ _, True) w (found ConfigLoad e k) Q.
Proof.
  intros Hk He. apply keeps_bind. intros [c|] w' Ha; (split; [done|]); cbn [acts] in Ha.
  - case_decide; [|done]. injection Ha as <-. by apply Hk.
  - apply He. injection Ha as <-. destruct (fs_config w); split; simpl; auto; done.
Qed.

Lemma keeps_found_vault {B} w v master e (k : Data → fallible B) Q :
  (∀ d, fs_vault v w = Some (master, d) → keeps (λ _, True) w (k d) Q) → (∀ w', untouched w w' → Q w' (Fail e)) →
  keeps (λ _, True) w (found (VaultLoad v master) e k) Q.
Proof.
  intros Hk He. apply keeps_bind. intros [d|] w' Ha; (split; [done|]); cbn [acts] in Ha.
  - case_decide; [|done]. injection Ha as <-. by apply Hk.
  - apply He. destruct (fs_vault v w) as [[m d]|]; injection Ha as <-; [case_match|]; split; simpl; auto; done.
Qed.

Lemma commits_finished mutate w cfg master data cfg' data' alias tr w' r :
  fs_config w = Some cfg → fs_main w = Some (master, data) →
  runs (mutate (normalizedConfig cfg None) (some_servers data)) tr (Ok (cfg', data', alias)) →
  commits w (normalizedConfig cfg None) (normalizedConfig cfg' (Some data')) master data' w' r →
  finished mutate w w' (match r with Ok _ => Ok alias | Fail e => Fail e end).
Proof.
  intros Hc Hm Hr [Hf Ha Hl Hmain Hd He]. split; [|done]. destruct r as [[]|e].
  - destruct (Hd eq_refl) as (? & ? & ?). by eapply outcome_done.
  - destruct (He e eq_refl). by eapply outcome_failed.
Qed.

Lemma keeps_with_master mutate w cfg master :
  (∀ cfg data, talks (mutate cfg data)) → fs_config w = Some cfg →
  keeps (λ _, True) w (with_master mutate (normalizedConfig cfg None) master) (finished mutate w).
Proof.
  intros Ht Hc. apply keeps_found_vault; [|intros w' Hu; by apply finished_refused].
  intros data Hm. cbv zeta. apply keeps_bind. eapply keeps_mono; [|by apply keeps_talk].
  intros w' [[[cfg' data'] alias]|e] [-> [tr Hr]].
  - apply keeps_deferred; [intros; by eapply finished_closing|done|].
    apply keeps_deferred; [intros; by eapply finished_closing|done|].
    apply keeps_bind. eapply keeps_mono; [|apply keeps_commit].
    intros w' r Hco. pose proof (commits_finished _ _ _ _ _ _ _ _ _ _ _ Hc Hm Hr Hco). by destruct r as [[]|].
  - do 2 (apply keeps_deferred; [intros; by eapply finished_closing|done|]).
    apply finished_refused, untouched_refl.
Qed.

Lemma finished_locked mutate w b w' r : finished mutate (set_locked w b) w' r → finished mutate w w' r.
Proof.
  intros [[] Hf]; (split; [|done]);
    [by eapply outcome_done|by apply outcome_refused|by eapply outcome_failed].
Qed.

Lemma keeps_withUnlockedVault lang mutate w :
  (∀ cfg data, talks (mutate cfg data)) →
  keeps (λ _, True) w (withUnlockedVault lang mutate) (finished mutate w).
Proof.
  intros Ht. apply keeps_outside; [done|]. intros []; [|apply finished_refused, untouched_refl].
  apply keeps_bind. intros [e|] w1 Ha; (split; [done|]); injection Ha as <-; [apply finished_refused, untouched_refl|].
  apply keeps_deferred; [intros; by eapply finished_closing|done|].
  eapply keeps_mono; [intros w' r; apply finished_locked|]. set (w1 := set_locked w true).
  apply keeps_outside; [done|]. intros [[]| |]; try apply finished_refused, untouched_refl.
  all: apply keeps_found_config; [|intros w' Hu; by apply finished_refused].
  all: intros cfg Hc; cbv zeta; apply keeps_outside; [done|]; intros []; [|apply finished_refused, untouched_refl].
  all: apply keeps_deferred; [intros; by eapply finished_closing|done|].
  all: apply keeps_talking; [apply talks_ReadSecret| |intros; apply finished_refused, untouched_refl].
  all: intros master _ _; apply keeps_deferred; [intros; by eapply finished_closing|done|].
  all: by apply keeps_with_master.
Qed.

(** ** Sample runs *)

Definition sample_key : string := str_repeat "k" 32.

(** What a user with a file system that works gets; [line] is what is typed,
    [bad] the vault whose saves fail. *)
Definition reply {X : Type} (bad : option vault_file) (line : string) (w : files) (e : app_op X) : X :=
  match e in app_op X return X with
  | EnsureLayout => true
  | AcquireLifecycle => None
  | ReleaseLifecycle => tt
  | DaemonStatus => Unavailable
  | ConfigExists => bool_decide (is_Some (fs_config w))
  | VaultExists v => bool_decide (is_Some (fs_vault v w))
  | ConfigLoad => fs_config w
  | ConfigSave _ => Saved
  | VaultLoad v master =>
      match fs_vault v w with Some (m, d) => if String.eqb m master then Some d else None | None => None end
  | VaultSave v _ _ => if decide (bad = Some v) then SaveFailed false else Saved
  | VaultInitialize _ => Saved
  | RemoveVault => tt
  | RemoveConfig => tt
  | ArchiveConfig => true
  | ArchiveVault _ => true
  | OpenTerminal => true
  | CloseTerminal => tt
  | WriteTerminal _ => true
  | ReadLine => Some line
  | ReadPassword => Some line
  | Stdout _ => tt
  | Wipe _ => tt
  | WipeSecret _ => tt
  | WipeData _ => tt
  | RandomKey => Some sample_key
  | Probe _ _ => Some "SHA256:sample"
  | TestConnection _ => true
  | ReadPrivateKey _ => Some "key"
  | ParsePrivateKey _ => KeyOk
  | ParseWithPassphrase _ _ => true
  | DiscoverPrivateKey => ""
  end.

Definition asks {X : Type} (e : app_op X) : bool := match e with ReadLine | ReadPassword => true | _ => false end.

(** The run in which the lines of [script] are typed. *)
Fixpoint play {R} (bad : option vault_file) (script : list string) (w : files) (p : app R) : option (list (io app_op) * files * R) :=
  match p with
  | Ret r => Some ([], w, r)
  | Vis e k =>
      let x := reply bad (default "" (head script)) w e in
      w1 ← acts w e x;
      '(tr, w', r) ← play bad (if asks e then tail script else script) w1 (k x);
      Some (IO e x :: tr, w', r)
  end.

Lemma play_ok {R} bad script w (p : app R) tr w' r : play bad script w p = Some (tr, w', r) → halts w p w' r ∧ runs p tr r.
Proof.
  revert script w tr. induction p as [r'|X e k IH]; intros script w tr; [by intros [= <- <- <-]|].
  cbn [play]. intros (w1 & Ha & ([[tr1 w2] r2] & Hp & [= <- <- <-])%bind_Some)%bind_Some.
  apply IH in Hp as [Hh Hr]. split; [by exists (reply bad (default "" (head script)) w e), w1|].
  by exists (reply bad (default "" (head script)) w e), tr1.
Qed.

Lemma play_does {R} bad script w (p : app R) tr w' r : play bad script w p = Some (tr, w', r) → does w p tr w' r.
Proof.
  revert script w tr. induction p as [r'|X e k IH]; intros script w tr; [by intros [= <- <- <-]|].
  cbn [play]. intros (w1 & Ha & ([[tr1 w2] r2] & Hp & [= <- <- <-])%bind_Some)%bind_Some.
  apply IH in Hp. by exists (reply bad (default "" (head script)) w e), w1, tr1.
Qed.

(** The files after [init]. *)
Definition fresh_files : files := Files (Some defaultConfig) (Some ("master", empty_vault)) None [] 0 false.

Definition played {R} bad script w (p : app R) (d : R) : list (io app_op) * files * R :=
  default ([], w, d) (play bad script w p).

Lemma played_ok {R} bad script w (p : app R) d : bool_decide (is_Some (play bad script w p)) = true →
  halts w p (snd (fst (played bad script w p d))) (snd (played bad script w p d)) ∧
  runs p (fst (fst (played bad script w p d))) (snd (played bad script w p d)).
Proof.
  intros [[[tr w'] r] Hp]%bool_decide_eq_true. unfold played. rewrite Hp. by apply (play_ok bad script).
Qed.

Lemma played_does {R} bad script w (p : app R) d : bool_decide (is_Some (play bad script w p)) = true →
  does w p (fst (fst (played bad script w p d))) (snd (fst (played bad script w p d))) (snd (played bad script w p d)).
Proof.
  intros [[[tr w'] r] Hp]%bool_decide_eq_true. unfold played. rewrite Hp. by apply (play_does bad script).
Qed.

Definition add_script : list string :=
  ["master"; "web"; "the web server"; "web.example"; ""; "deploy"; "password"; "TRUST"; "secret"].
