(* ===== verification/AppServers.v ===== *)
(** * The commands on servers: what they check, store and hold

    [server add], [edit] and [remove] of [AppVault]: every write they make is
    accounted for by the calls before it, so that a stored server was vetted;
    what they leave of the files; their order of lock, daemon, terminal and
    files. *)

From S2P Require Import Prelude GoStr Utf8 GoTime Prog Json Base64 Model Wire Vault VaultStore Config AppConfig AppVault AppVaultSpec.
Open Scope string_scope.
Open Scope list_scope.

(** ** What a stored server went through *)

Definition valid_server (secret : ServerSecret) : Prop :=
  ss_host secret ≠ "" ∧ ss_user secret ≠ "" ∧ (1 ≤ ss_port secret ≤ 65535)%Z ∧
  (EffectiveAuthMethod secret = AuthMethodPassword ∨ EffectiveAuthMethod secret = AuthMethodPrivateKey).

(** The host key is the one pinned before, for the same endpoint. *)
Definition pinned (old : option ServerSecret) (secret : ServerSecret) : Prop :=
  ∃ o, old = Some o ∧ ss_host secret = ss_host o ∧ ss_port secret = ss_port o ∧ ss_host_fingerprint secret = ss_host_fingerprint o.

(** The host key was read from the endpoint, shown, and confirmed. *)
Definition confirmed (lang : language) (secret : ServerSecret) (tr : list (io app_op)) : Prop :=
  ss_host_fingerprint secret ≠ "" ∧
  ∃ t1 shown line t2, trim_space line = "TRUST" ∧
    tr = t1 ++ IO (Probe (ss_host secret) (ss_port secret)) (Some (ss_host_fingerprint secret))
            :: IO (WriteTerminal (identity_shown lang (ss_host_fingerprint secret))) shown
            :: IO (WriteTerminal (trust_prompt lang)) true :: IO ReadLine (Some line) :: t2.

Definition vetted (lang : language) (old : option ServerSecret) (secret : ServerSecret) (tr : list (io app_op)) : Prop :=
  valid_server secret ∧ IO (TestConnection secret) true ∈ tr ∧ (pinned old secret ∨ confirmed lang secret tr).

Lemma confirmed_app lang secret p t q : confirmed lang secret t → confirmed lang secret (p ++ t ++ q).
Proof.
  intros (Hne & t1 & shown & line & t2 & Hl & ->). split; [done|].
  exists (p ++ t1), shown, line, (t2 ++ q). split; [done|]. by rewrite <- !(assoc_L (++)).
Qed.

Lemma confirmed_after lang secret p t : confirmed lang secret t → confirmed lang secret (p ++ t).
Proof. intros H. rewrite <- (app_nil_r t). by apply confirmed_app. Qed.

Lemma confirmed_cons lang secret c t : confirmed lang secret t → confirmed lang secret (c :: t).
Proof. apply (confirmed_after lang secret [c]). Qed.

Lemma vetted_app lang old secret p t q : vetted lang old secret t → vetted lang old secret (p ++ t ++ q).
Proof.
  intros (Hv & Ht & Hid). split; [done|]. split; [rewrite !elem_of_app; auto|].
  destruct Hid; [by left|right]. by apply confirmed_app.
Qed.

Lemma runs_try {A B} (p : fallible A) (k : A → fallible B) tr b :
  runs (try p k) tr (Ok b) → ∃ t1 t2 a, tr = t1 ++ t2 ∧ runs p t1 (Ok a) ∧ runs (k a) t2 (Ok b).
Proof. intros (t1 & t2 & [a|e] & -> & H1 & H2)%runs_bind; [by eauto 6|]. by destruct H2. Qed.

Lemma runs_asked {A B} (p : fallible A) good e (k : A → fallible B) tr b :
  runs (answered p good e k) tr (Ok b) →
  ∃ t1 t2 a, tr = t1 ++ t2 ∧ runs p t1 (Ok a) ∧ good a = true ∧ runs (k a) t2 (Ok b).
Proof.
  intros (t1 & t2 & [a|?] & -> & H1 & H2)%runs_bind; [|by destruct H2].
  destruct (good a) eqn:Hg; [by eauto 8|by destruct H2].
Qed.

Lemma runs_call {X A} (e : app_op X) (k : X → app A) tr a :
  runs (trigger e ≫= k) tr a → ∃ x t, tr = IO e x :: t ∧ runs (k x) t a.
Proof. done. Qed.

Lemma runs_say {A} line (k : unit → app A) tr a :
  runs (say line ≫= k) tr a → ∃ b t, tr = IO (WriteTerminal line) b :: t ∧ runs (k tt) t a.
Proof. done. Qed.

Lemma runs_confirm prompt expected tr b : runs (ConfirmExact prompt expected) tr (Ok b) →
  ∃ line, tr = [IO (WriteTerminal prompt) true; IO ReadLine (Some line)] ∧ b = String.eqb (trim_space line) expected.
Proof.
  intros (t1 & t2 & value & -> & H1 & [-> [= ->]])%runs_try.
  apply runs_call in H1 as ([] & t & -> & H1); [|by destruct H1].
  apply runs_call in H1 as ([line|] & t' & -> & H1); [|by destruct H1].
  destruct H1 as [-> [= ->]]. by exists line.
Qed.

Lemma readFingerprint_does lang host port existing tr fp :
  runs (readFingerprint lang host port existing) tr (Ok fp) →
  (∃ o, existing = Some o ∧ host = ss_host o ∧ port = ss_port o ∧ fp = ss_host_fingerprint o) ∨
  fp ≠ "" ∧ ∃ shown line, trim_space line = "TRUST" ∧
    tr = [IO (Probe host port) (Some fp); IO (WriteTerminal (identity_shown lang fp)) shown;
          IO (WriteTerminal (trust_prompt lang)) true; IO ReadLine (Some line)].
Proof.
  assert (∀ tr, runs (probe_and_confirm lang host port) tr (Ok fp) → fp ≠ "" ∧ ∃ shown line, trim_space line = "TRUST" ∧
    tr = [IO (Probe host port) (Some fp); IO (WriteTerminal (identity_shown lang fp)) shown;
          IO (WriteTerminal (trust_prompt lang)) true; IO ReadLine (Some line)]) as Hprobe.
  { clear tr. intros tr ([f|] & t & -> & Hr)%runs_call; [|by destruct Hr].
    destruct (str_is_empty f) eqn:He; [by destruct Hr|].
    apply runs_say in Hr as (shown & t' & -> & (t1 & t2 & ok & -> & (line & -> & ->)%runs_confirm & [-> Ho])%runs_try).
    destruct (_ =? _)%string eqn:Ht; [|done]. injection Ho as ->. apply String.eqb_eq in Ht.
    split; [by intros ->|]. by exists shown, line. }
  unfold readFingerprint. destruct existing as [o|]; [|by right; apply Hprobe].
  destruct (String.eqb host (ss_host o) && Z.eqb port (ss_port o)) eqn:Heq; [|by right; apply Hprobe].
  intros (b & t & -> & [-> [= ->]])%runs_say. apply andb_true_iff in Heq as [->%String.eqb_eq ->%Z.eqb_eq].
  left. by exists o.
Qed.

Lemma loadPrivateKey_does lang path method tr secret :
  runs (loadPrivateKeyAuthentication lang path method) tr (Ok secret) → ss_auth_method secret = method.
Proof.
  intros ([key|] & t & -> & Hr)%runs_call; [|by destruct Hr].
  destruct (str_is_empty key); [by destruct Hr as (? & ? & _ & _ & [=])|].
  apply runs_call in Hr as ([] & t' & -> & Hr).
  - by destruct Hr as [_ [= ->]].
  - apply runs_bind in Hr as (t1 & t2 & [pass|e] & -> & _ & Hr); [|by destruct Hr as (? & ? & _ & _ & [=])].
    apply runs_call in Hr as ([] & t3 & -> & Hr); [by destruct Hr as [_ [= ->]]|by destruct Hr as (? & ? & _ & _ & [=])].
  - by destruct Hr as (? & ? & _ & _ & [=]).
Qed.

Lemma readAuthentication_does lang method existing tr secret :
  runs (readAuthenticationExisting lang method existing) tr (Ok secret) →
  EffectiveAuthMethod secret = AuthMethodPassword ∨ EffectiveAuthMethod secret = AuthMethodPrivateKey.
Proof.
  assert (∀ k tr path_of, runs (key_path path_of k) tr (Ok secret) → ∃ t path, runs (k path) t (Ok secret)) as Hpath.
  { clear tr. intros k tr p (t1 & t2 & [path|e] & -> & _ & Hr)%runs_bind; [by eauto|by destruct Hr]. }
  assert (∀ method s, same_method existing method = Some s → EffectiveAuthMethod s = method) as Hsame.
  { intros m s. unfold same_method. destruct existing as [o|]; [|done]. destruct (_ =? _)%string eqn:He; [|done].
    intros [= ->]. by apply String.eqb_eq. }
  assert (∀ m, ss_auth_method secret = m → m ≠ "" → EffectiveAuthMethod secret = m) as Heff.
  { intros m <- Hne. unfold EffectiveAuthMethod. by destruct (ss_auth_method secret). }
  unfold readAuthenticationExisting. intros H. destruct (method =? AuthMethodPassword)%string eqn:Hp.
  { apply String.eqb_eq in Hp as ->. left. destruct (same_method existing _) as [s|] eqn:Hs;
      apply runs_try in H as (t1 & t2 & pw & _ & _ & [_ [= Hsecret]]); [destruct (str_is_empty pw)|];
      first [apply Heff; [by rewrite Hsecret|done]|rewrite Hsecret; by eapply Hsame]. }
  destruct (method =? AuthMethodPrivateKey)%string eqn:Hk; [|by destruct H].
  apply String.eqb_eq in Hk as ->. right. destruct (same_method existing _) as [s|] eqn:Hs.
  - apply Hpath in H as (t & path & Hr). destruct (str_is_empty path).
    + destruct Hr as [_ [= ->]]. by eapply Hsame.
    + apply Heff; [by eapply loadPrivateKey_does|done].
  - apply runs_bind in H as (t1 & t2 & d & _ & _ & (t3 & t4 & b & _ & _ & H)%runs_bind).
    apply Hpath in H as (t & path & Hr). apply Heff; [by eapply loadPrivateKey_does|done].
Qed.

Lemma readCredentials_does lang description host port user fp method existing tr d secret :
  runs (readCredentials lang description host port user fp method existing) tr (Ok (d, secret)) →
  ∃ s, secret = with_endpoint s host port user fp ∧
    (EffectiveAuthMethod secret = AuthMethodPassword ∨ EffectiveAuthMethod secret = AuthMethodPrivateKey) ∧
    IO (TestConnection secret) true ∈ tr.
Proof.
  intros (b & t & -> & (t1 & t2 & s & -> & Hs & Hr)%runs_try)%runs_say.
  apply runs_say in Hr as (b' & t' & -> & ([] & t3 & -> & Hr)%runs_call); [|by destruct Hr as (? & ? & _ & _ & [=])].
  destruct Hr as [-> [= -> ->]]. exists s. split; [done|]. split; [exact (readAuthentication_does _ _ _ _ _ Hs)|].
  right. apply elem_of_app. right. right. left.
Qed.

Lemma parsePort_range portText port : parsePort portText = Some port → (1 ≤ port ≤ 65535)%Z.
Proof.
  unfold parsePort, parse_uint. destruct (_ || _) eqn:He; [done|]. apply orb_false_iff in He as [_ Hd].
  apply negb_false_iff in Hd. destruct (_ <? _)%Z eqn:Hl; [done|]. destruct (_ =? 0)%Z eqn:H0; [done|].
  intros [= <-]. bool_hyps. pose proof (digits_val_range portText Hd) as Hn. simpl in *. lia.
Qed.

(** A server that was read is valid and was vetted. *)
Lemma readServer_does lang d existing tr d' secret :
  runs (readServer lang d existing) tr (Ok (d', secret)) → vetted lang existing secret tr.
Proof.
  intros (b1 & t1 & -> & (t2 & t3 & desc & -> & _ & H)%runs_try)%runs_say.
  apply runs_say in H as (b2 & t4 & -> & (t5 & t6 & host & -> & _ & Hhost & H)%runs_asked).
  apply runs_asked in H as (t7 & t8 & portText & -> & _ & _ & H).
  destruct (parsePort portText) as [port|] eqn:Hport; [|by destruct H].
  apply runs_say in H as (b3 & t9 & -> & (t10 & t11 & user & -> & _ & Huser & H)%runs_asked).
  apply runs_say in H as (b4 & t12 & -> & (t13 & t14 & method & -> & _ & _ & H)%runs_asked).
  apply runs_try in H as (tf & tc & fp & -> & Hfp & Hcred).
  apply readCredentials_does in Hcred as (s & -> & Hm & Htest). apply readFingerprint_does in Hfp.
  assert (valid_server (with_endpoint s host port user fp)) as Hvalid.
  { split_and!; simpl; [by intros ->|by intros ->|by eapply parsePort_range..|exact Hm]. }
  split; [exact Hvalid|]. split; [repeat (rewrite elem_of_cons || rewrite elem_of_app); tauto|].
  destruct Hfp as [(o & -> & -> & -> & ->)|(Hne & shown & line & Hl & ->)]; [left; by exists o|right].
  do 2 (apply confirmed_cons, confirmed_after). apply confirmed_after.
  do 2 (apply confirmed_cons, confirmed_after).
  split; [done|]. by exists [], shown, line, tc.
Qed.

(** ** What the mutations do *)

Lemma add_does lang cfg data tr cfg' data' alias :
  runs (add_mutation lang cfg data) tr (Ok (cfg', data', alias)) →
  ∃ r, (cfg', data') = put_server cfg data alias r ∧ validAlias alias = true ∧
    servers_of cfg !! alias = None ∧ vetted lang None (snd r) tr.
Proof.
  intros (t1 & t2 & a & -> & _ & Hv & H)%runs_asked. case_bool_decide as Hn; [by destruct H|].
  apply runs_try in H as (t3 & t4 & [d secret] & -> & Hs & [-> [= -> -> ->]]). exists (d, secret).
  split_and!; [done|done|by destruct (servers_of cfg !! a); [destruct Hn; eauto|]|].
  apply vetted_app. by eapply readServer_does.
Qed.

Lemma edit_does lang alias0 cfg data tr cfg' data' alias :
  runs (edit_mutation lang alias0 cfg data) tr (Ok (cfg', data', alias)) →
  ∃ r old, alias = alias0 ∧ (cfg', data') = put_server cfg data alias r ∧
    is_Some (servers_of cfg !! alias) ∧ secrets_of data !! alias = Some old ∧ vetted lang (Some old) (snd r) tr.
Proof.
  unfold edit_mutation. destruct (servers_of cfg !! alias0) as [public|] eqn:Hp; [|by intros [_ [=]]].
  destruct (secrets_of data !! alias0) as [old|] eqn:Ho; [|by intros [_ [=]]].
  intros (t3 & t4 & [d secret] & -> & Hs & ([] & t5 & -> & [-> [= -> -> ->]])%runs_call)%runs_try.
  exists (d, secret), old. split_and!; [done|done|by eexists|done|]. apply (vetted_app lang _ _ []). by eapply readServer_does.
Qed.

Lemma remove_does lang alias0 cfg data tr cfg' data' alias :
  runs (remove_mutation lang alias0 cfg data) tr (Ok (cfg', data', alias)) →
  alias = alias0 ∧ (cfg', data') = drop_server cfg data alias ∧ is_Some (servers_of cfg !! alias).
Proof.
  unfold remove_mutation. destruct (servers_of cfg !! alias0) as [public|] eqn:Hp; [|by intros [_ [=]]].
  intros (t1 & t2 & ok & -> & _ & H)%runs_try. destruct ok; simpl in H; [|by destruct H].
  apply runs_bind in H as (t3 & t4 & [] & _ & _ & [-> [= -> -> ->]]). split_and!; [done|done|by eexists].
Qed.

(** ** Every write of a command is accounted for *)

(** What a command makes of the configuration and the vault, after [tr]. *)
Inductive change (lang : language) (cfg : Config) (data : Data) (cfg' : Config) (data' : Data) (tr : list (io app_op)) : Prop :=
| change_add alias r : (cfg', data') = put_server cfg data alias r → validAlias alias = true →
    servers_of cfg !! alias = None → vetted lang None (snd r) tr → change lang cfg data cfg' data' tr
| change_edit alias r old : (cfg', data') = put_server cfg data alias r → is_Some (servers_of cfg !! alias) →
    secrets_of data !! alias = Some old → vetted lang (Some old) (snd r) tr → change lang cfg data cfg' data' tr
| change_remove alias : (cfg', data') = drop_server cfg data alias → is_Some (servers_of cfg !! alias) →
    change lang cfg data cfg' data' tr.

(** The mutations, and what they may be used in. *)
Record changes (lang : language) (mutate : mutation) : Prop := {
  ch_talks cfg data : talks (mutate cfg data);
  ch_change cfg data tr cfg' data' alias :
    runs (mutate cfg data) tr (Ok (cfg', data', alias)) → change lang cfg data cfg' data' tr }.

Lemma add_changes lang : changes lang (add_mutation lang).
Proof. split; [apply add_talks|]. intros * (r & ? & ? & ? & ?)%add_does. by eapply change_add. Qed.
Lemma edit_changes lang alias : changes lang (edit_mutation lang alias).
Proof. split; [apply edit_talks|]. intros * (r & old & -> & ? & ? & ? & ?)%edit_does. by eapply change_edit. Qed.
Lemma remove_changes lang alias : changes lang (remove_mutation lang alias).
Proof. split; [apply remove_talks|]. intros * (-> & ? & ?)%remove_does. by eapply change_remove. Qed.

Lemma change_app lang cfg data cfg' data' p t q : change lang cfg data cfg' data' t → change lang cfg data cfg' data' (p ++ t ++ q).
Proof.
  destruct 1; [eapply change_add|eapply change_edit|eapply change_remove]; try done; by apply vetted_app.
Qed.

(** The calls [h] loaded a configuration, and a vault under [master], and led to
    the change. *)
Definition accounted (lang : language) (h : list (io app_op)) (master : string) (cfg' : Config) (data' : Data) : Prop :=
  ∃ cfg data, IO ConfigLoad (Some cfg) ∈ h ∧ IO (VaultLoad MainVault master) (Some data) ∈ h ∧
    change lang (normalizedConfig cfg None) (some_servers data) cfg' data' h.

Lemma accounted_app lang h t master cfg' data' : accounted lang h master cfg' data' → accounted lang (h ++ t) master cfg' data'.
Proof.
  intros (cfg & data & Hc & Hd & Hch). exists cfg, data. rewrite !elem_of_app. split_and!; [by left|by left|].
  by apply (change_app _ _ _ _ _ [] h).
Qed.

Definition loaded_config (h : list (io app_op)) (c : Config) : Prop :=
  ∃ cfg, IO ConfigLoad (Some cfg) ∈ h ∧ c = normalizedConfig cfg None.

(** What may be written after [h]. *)
Definition writes_ok (lang : language) (h : list (io app_op)) (X : Type) (e : app_op X) : Prop :=
  match e with
  | ConfigSave c =>
      (∃ master cfg' data', accounted lang h master cfg' data' ∧ c = normalizedConfig cfg' (Some data')) ∨ loaded_config h c
  | VaultSave v password d =>
      ∃ master cfg', accounted lang h master cfg' d ∧
        match v with MainVault => password = master | RecoveryVault => password = da_recovery_key d ∧ password ≠ "" end
  | VaultInitialize _ | RemoveVault | RemoveConfig | ArchiveConfig | ArchiveVault _ => False
  | _ => True
  end.

(** The calls of a commit. *)
Definition commit_calls (original cfg : Config) (master : string) (data : Data) {X} (e : app_op X) : bool :=
  match e with
  | ConfigSave c => bool_decide (c = cfg) || bool_decide (c = original)
  | VaultSave v password d =>
      bool_decide (d = data) &&
      match v with
      | MainVault => bool_decide (password = master)
      | RecoveryVault => bool_decide (password = da_recovery_key data) && bool_decide (password ≠ "")
      end
  | ConfigLoad | VaultLoad _ _ => true
  | _ => talking e
  end.

Lemma only_commit original master cfg data :
  only (@commit_calls original (normalizedConfig cfg (Some data)) master data) (commit original master cfg data).
Proof.
  unfold commit, ensure. set (new := normalizedConfig cfg (Some data)). set (C := @commit_calls _ _ _ _).
  assert (∀ c, c = new ∨ c = original → only C (saveConfigVerified c)) as Hc.
  { intros c Hc. unfold C. split; [simpl; apply orb_true_iff; destruct Hc; [left|right]; by apply bool_decide_eq_true|]. by intros []; simpl. }
  assert (∀ v p, C _ (VaultSave v p data) = true → only C (saveVaultVerified v p data)) as Hv.
  { intros v p Hp. split; [exact Hp|]. intros []; simpl; [done|]. split; [done|]. by intros []. }
  apply only_bind; [apply Hc; by left|]. intros []; [|done]. apply only_bind.
  { apply Hv. simpl. rewrite !bool_decide_eq_true_2 by done. done. }
  intros []; cbn [negb].
  - destruct (str_is_empty (da_recovery_key data)) eqn:Hk; [done|].
    apply only_bind; [|by intros []]. apply Hv. simpl. rewrite !bool_decide_eq_true_2; [done|..|done]; [|done].
    intros He. by rewrite He in Hk.
  - apply only_bind; [apply Hc; by right|]. done.
Qed.

Lemma commit_calls_ok lang h original master cfg' data' t X (e : app_op X) :
  accounted lang h master cfg' data' → loaded_config h original →
  commit_calls original (normalizedConfig cfg' (Some data')) master data' e = true → writes_ok lang (h ++ t) X e.
Proof.
  intros Ha (c & Hc & ->). destruct e; simpl; try done.
  - intros [->%bool_decide_eq_true| ->%bool_decide_eq_true]%orb_true_iff; [left|right].
    + exists master, cfg', data'. split; [by apply accounted_app|done].
    + exists c. rewrite elem_of_app. auto.
  - intros [->%bool_decide_eq_true Hv]%andb_true_iff. exists master, cfg'. split; [by apply accounted_app|].
    destruct v; [exact (bool_decide_eq_true_1 _ Hv)|]. apply andb_true_iff in Hv as [->%bool_decide_eq_true ?%bool_decide_eq_true]. done.
Qed.

Abbreviation accounts lang := (audited (writes_ok lang)).

(** A call that writes nothing. *)
Definition reading {X} (e : app_op X) : bool :=
  match e with
  | ConfigSave _ | VaultSave _ _ _ | VaultInitialize _ | RemoveVault | RemoveConfig | ArchiveConfig | ArchiveVault _ => false
  | _ => true
  end.

Lemma reading_ok lang h X (e : app_op X) : reading e = true → writes_ok lang h X e.
Proof. by destruct e. Qed.

Lemma accounts_call {X B} lang h (e : app_op X) (k : X → app B) :
  reading e = true → (∀ x, accounts lang (h ++ [IO e x]) (k x) (λ _ _, True)) → accounts lang h (trigger e ≫= k) (λ _ _, True).
Proof. intros He Hk. split; [by apply reading_ok|exact Hk]. Qed.

Lemma accounts_deferred {A} lang h (p : app A) call :
  reading call = true → accounts lang h p (λ _ _, True) → accounts lang h (deferred p call) (λ _ _, True).
Proof.
  intros Hc Hp. apply audited_bind. eapply audited_mono; [|exact Hp]. intros h' a _.
  split; [by apply reading_ok|done].
Qed.

Lemma accounts_talk {A B} lang h (p : app A) (k : A → app B) : talks p →
  (∀ t a, runs p t a → accounts lang (h ++ t) (k a) (λ _ _, True)) → accounts lang h (p ≫= k) (λ _ _, True).
Proof.
  intros Hp Hk. apply audited_bind. apply (audited_only _ (@talking)); [|done|exact Hk].
  intros t X e He. by destruct e.
Qed.

Lemma accounts_with_master lang mutate h cfg master :
  changes lang mutate → IO ConfigLoad (Some cfg) ∈ h →
  accounts lang h (with_master mutate (normalizedConfig cfg None) master) (λ _ _, True).
Proof.
  intros [Ht Hch] Hc. apply accounts_call; [done|]. intros [data|]; [|done]. cbv zeta. cbn match.
  set (h1 := h ++ _). assert (IO ConfigLoad (Some cfg) ∈ h1) as Hc1 by (apply elem_of_app; by left).
  assert (IO (VaultLoad MainVault master) (Some data) ∈ h1) as Hd by (apply elem_of_app; right; by left).
  clearbody h1. apply accounts_talk; [apply Ht|]. intros t [[[cfg' data'] alias]|e] Hr.
  - do 2 (apply accounts_deferred; [done|]). apply audited_bind.
    apply (audited_only _ (@commit_calls (normalizedConfig cfg None) (normalizedConfig cfg' (Some data')) master data')).
    + intros t' X e. eapply commit_calls_ok.
      * exists cfg, data. rewrite !elem_of_app. split_and!; [by left|by left|].
        rewrite <- (app_nil_r (h1 ++ t)), <- (assoc_L (++)). by eapply change_app, Hch.
      * exists cfg. rewrite elem_of_app. auto.
    + apply only_commit.
    + by intros t' [[]|e] _.
  - by do 2 (apply accounts_deferred; [done|]).
Qed.

Lemma accounts_withUnlockedVault lang mutate h : changes lang mutate → accounts lang h (withUnlockedVault lang mutate) (λ _ _, True).
Proof.
  intros Hm. apply accounts_call; [done|]. intros []; [|done].
  apply accounts_call; [done|]. intros [e|]; [done|]. apply accounts_deferred; [done|].
  apply accounts_call; [done|]. intros [[]| |]; try done.
  all: apply accounts_call; [done|]; intros [cfg|]; [|done].
  all: cbv zeta; apply accounts_call; [done|]; intros []; [|done]; apply accounts_deferred; [done|].
  all: apply accounts_talk; [apply talks_ReadSecret|]; intros t [master|e] _; [|done]; apply accounts_deferred; [done|].
  all: apply accounts_with_master; [done|]; rewrite !elem_of_app; left; left; right; by left.
Qed.

(** The commands that change what servers there are. *)
Inductive server_command (lang : language) : fallible unit → Prop :=
| sc_add : server_command lang (addServer lang)
| sc_edit alias : server_command lang (editServer lang alias)
| sc_remove alias : server_command lang (removeServer lang alias).

Lemma server_command_is lang p : server_command lang p →
  (∃ e, p = Ret (Fail e)) ∨ ∃ mutate english chinese, changes lang mutate ∧ p = reported lang (withUnlockedVault lang mutate) english chinese.
Proof.
  assert (∀ b, b = true ∨ b = false) as Hb by (intros []; auto).
  destruct 1 as [|alias|alias]; [right; eexists _, _, _; by split; [apply add_changes|]|..];
    unfold editServer, removeServer; destruct (validAlias alias); simpl;
    first [left; by eexists|right; eexists _, _, _; split; [|done]; first [apply edit_changes|apply remove_changes]].
Qed.

(** ** Servers that match *)

(** Every secret has a public entry, made from it, and every public entry a
    secret. *)
Record match_servers (cfg : Config) (data : Data) : Prop := {
  mt_dom : dom (servers_of cfg) =@{gset string} dom (secrets_of data);
  mt_public alias secret : secrets_of data !! alias = Some secret →
    ∃ description, servers_of cfg !! alias = Some (publicServerConfig description secret) }.

Lemma match_normalized cfg data : dom (servers_of cfg) =@{gset string} dom (secrets_of data) →
  match_servers (normalizedConfig cfg (Some data)) data.
Proof.
  intros Hd. assert (servers_of (normalizedConfig cfg (Some data)) = publish (secrets_of data) (servers_of cfg)) as Hs by done.
  split; rewrite Hs.
  - rewrite dom_publish, Hd. set_solver.
  - intros alias secret Ha. rewrite lookup_publish, Ha. by eexists.
Qed.

Lemma change_match lang cfg data cfg' data' tr : dom (servers_of cfg) =@{gset string} dom (secrets_of data) →
  change lang cfg data cfg' data' tr → match_servers (normalizedConfig cfg' (Some data')) data'.
Proof.
  intros Hd Hch. apply match_normalized. destruct Hch as [alias r Hr|alias r old Hr|alias Hr]; injection Hr as -> ->;
    unfold servers_of, secrets_of in *; simpl.
  1-2: by rewrite !dom_insert_L, Hd.
  by rewrite !dom_delete_L, Hd.
Qed.

Definition files_match (w : files) : Prop :=
  ∃ cfg master data, fs_config w = Some cfg ∧ fs_main w = Some (master, data) ∧ match_servers cfg data.

Lemma halts_reported lang w p english chinese w' r :
  halts w (reported lang p english chinese) w' r → ∃ r0, halts w p w' r0 ∧ match r0 with Ok _ => r = Ok tt | Fail e => r = Fail e end.
Proof.
  revert w. unfold reported, try. induction p as [[alias|e]|X e k IH]; intros w.
  - intros (x & w1 & [= <-] & [-> ->]). by exists (Ok alias).
  - intros [-> ->]. by exists (Fail e).
  - intros (x & w1 & Ha & Hr). destruct (IH x w1 Hr) as (r0 & Hr0 & Hm). exists r0. split; [|done]. by exists x, w1.
Qed.

(** What a command leaves, in terms of the changes. *)
Lemma server_command_outcome lang p w w' r : server_command lang p → halts w p w' r →
  ∃ mutate r0, changes lang mutate ∧ (finished mutate w w' r0) ∧ match r0 with Ok _ => r = Ok tt | Fail e => r = Fail e end.
Proof.
  intros [(e & ->)|(mutate & english & chinese & Hm & ->)]%server_command_is.
  - intros [-> ->]. exists (add_mutation lang), (Fail e). split; [apply add_changes|]. split; [apply finished_refused, untouched_refl|done].
  - intros (r0 & Hr & Hm0)%halts_reported. exists mutate, r0. split; [done|]. split; [|done].
    refine (keeps_halts _ _ _ _ _ _ (keeps_withUnlockedVault lang mutate w _) Hr). apply Hm.
Qed.

Lemma some_servers_secrets data : secrets_of (some_servers data) = secrets_of data.
Proof. done. Qed.

(** C18: A command that adds, changes or removes a server and reports success has
    stored one change of what was stored: in the configuration, in the vault and
    in its copy under the recovery key; one that reports an error has changed no
    file, unless a call failed. *)
Theorem server_commands_do_what_they_report lang p w w' r
    (command : server_command lang p) (run : halts w p w' r) :
  match r with
  | Ok _ =>
      ∃ cfg master data cfg' data' tr, fs_config w = Some cfg ∧ fs_main w = Some (master, data) ∧
        change lang (normalizedConfig cfg None) (some_servers data) cfg' data' tr ∧
        fs_config w' = Some (normalizedConfig cfg' (Some data')) ∧ fs_main w' = Some (master, data') ∧
        fs_recovery w' = (if str_is_empty (da_recovery_key data') then fs_recovery w else Some (da_recovery_key data', data')) ∧
        fs_archive w' = fs_archive w
  | Fail _ => fs_faults w' = fs_faults w → same_files w w'
  end.
Proof.
  destruct (server_command_outcome _ _ _ _ _ command run) as (mutate & r0 & Hm & [Ho Hf] & Hr).
  destruct Ho as [cfg master data cfg' data' alias tr Hc Hd Hruns Hc' Hd' Hrec Harch|e Hs|cfg master data cfg' data' alias tr e Hc Hd Hruns Hlt _ _ _];
    subst r.
  - exists cfg, master, data, cfg', data', tr. split_and!; try done. by eapply ch_change.
  - done.
  - intros He. lia.
Qed.

(** C17: The configuration and the vault hold the same servers after such a command
    if they did before it, and no more than one call failed on the way. *)
Theorem server_commands_keep_match lang p w w' r
    (command : server_command lang p) (run : halts w p w' r) (before : files_match w) (faults : (fs_faults w' ≤ S (fs_faults w))%nat) :
  files_match w'.
Proof.
  destruct (server_command_outcome _ _ _ _ _ command run) as (mutate & r0 & Hm & [Ho Hf] & Hr).
  destruct before as (cfg0 & master0 & data0 & Hc0 & Hd0 & Hmatch).
  destruct Ho as [cfg master data cfg' data' alias tr Hc Hd Hruns Hc' Hd' _ _|e (Hc & Hd & _ & _)|cfg master data cfg' data' alias tr e Hc Hd Hruns Hlt _ Hone _].
  - simplify_eq. eexists _, _, _. split_and!; [done|done|].
    eapply change_match; [|by eapply ch_change]. apply Hmatch.
  - exists cfg0, master0, data0. by rewrite Hc, Hd.
  - simplify_eq. destruct (Hone faults) as [_ [[Hc' Hd']|[[Hc' Hd']|[Hc' Hd']]]].
    + eexists _, _, _. rewrite Hc', Hd'. by split_and!.
    + eexists _, _, _. rewrite Hc', Hd'. split_and!; [done|done|]. destruct Hmatch. by split.
    + eexists _, _, _. split_and!; [done|done|].
      eapply change_match; [|by eapply ch_change]. apply Hmatch.
Qed.

(** C16: Wherever a command that changes the servers stops, every write it made was
    accounted for by the calls before it: what it stored in the vault is what it
    loaded with one server removed, or with one server added or replaced whose
    fields are valid, to which a login with exactly these credentials had
    succeeded, and whose host key had been read from its endpoint, shown and
    confirmed with TRUST, or was the one pinned for the same endpoint; what it
    wrote to the configuration follows from that, or is what it had loaded. *)
Theorem stored_servers_are_vetted lang p tr t1 X (e : app_op X) x t2
    (command : server_command lang p) (run : starts p tr) (call : tr = t1 ++ IO e x :: t2) : writes_ok lang t1 X e.
Proof.
  refine (audited_starts (writes_ok lang) [] p (λ _ _, True) tr t1 X e x t2 _ run call).
  destruct (server_command_is _ _ command) as [(? & ->)|(mutate & english & chinese & Hm & ->)]; [done|].
  apply audited_bind. eapply audited_mono; [|by apply accounts_withUnlockedVault].
  intros h [alias|?] _; [|done]. by apply accounts_call.
Qed.

(** ** The lock, and the terminal *)

(** Whether the lock is held, and a daemon was found not to run since; whether
    the terminal is open. *)
Record holding := Holding { ho_lock : bool; ho_stopped : bool; ho_terminal : bool }.

Definition free : holding := Holding false false false.

(** A file is read or written with the lock and no daemon; the lock is not
    taken twice, nor released when it is not held; the terminal is used when it
    is open. *)
Definition lock_monitor (s : holding) (c : io app_op) : verdict holding :=
  match c with
  | IO e x =>
      match e in app_op X return X → verdict holding with
      | AcquireLifecycle => λ r,
          if ho_lock s then Reject else Next (match r with None => Holding true false (ho_terminal s) | Some _ => s end)
      | ReleaseLifecycle => λ _, if ho_lock s then Next (Holding false false (ho_terminal s)) else Reject
      | DaemonStatus => λ a,
          Next (Holding (ho_lock s) (ho_lock s && match a with Reachable false | Unavailable => true | _ => false end) (ho_terminal s))
      | OpenTerminal => λ ok, if ho_terminal s then Reject else Next (Holding (ho_lock s) (ho_stopped s) ok)
      | CloseTerminal => λ _, if ho_terminal s then Next (Holding (ho_lock s) (ho_stopped s) false) else Reject
      | WriteTerminal _ | ReadLine | ReadPassword => λ _, if ho_terminal s then Next s else Reject
      | ConfigLoad | ConfigSave _ | VaultLoad _ _ | VaultSave _ _ _ => λ _, if ho_lock s && ho_stopped s then Next s else Reject
      | VaultInitialize _ | RemoveVault | RemoveConfig | ArchiveConfig | ArchiveVault _ => λ _, Reject
      | _ => λ _, Next s
      end x
  end.

Abbreviation disciplined := (safe lock_monitor).

Definition working : holding := Holding true true true.

(** What a command may do once it has everything. *)
Definition at_work {X} (e : app_op X) : bool :=
  talking e || match e with ConfigLoad | ConfigSave _ | VaultLoad _ _ | VaultSave _ _ _ => true | _ => false end.

Lemma working_stays X (e : app_op X) x : at_work e = true → lock_monitor working (IO e x) = Next working.
Proof. by destruct e. Qed.

Lemma only_mono {R} (C D : ∀ X, app_op X → bool) (p : app R) : (∀ X e, C X e = true → D X e = true) → only C p → only D p.
Proof. intros HCD. induction p as [r|X e k IH]; simpl; [done|]. intros [He Hk]. auto. Qed.

Lemma with_master_works mutate cfg master : (∀ cfg data, talks (mutate cfg data)) → only (@at_work) (with_master mutate cfg master).
Proof.
  intros Ht. apply only_bind; [done|]. intros [data|]; [|done]. cbv zeta. apply only_bind.
  { eapply only_mono; [|apply Ht]. intros X e He. unfold at_work. by rewrite He. }
  intros [[[cfg' data'] alias]|e]; [|by split; [|intros ?; split]]. do 2 (apply only_bind; [|by intros ?; split]). apply only_bind; [|by intros [[]|]].
  eapply only_mono; [|apply only_commit]. by intros X [].
Qed.

Lemma disciplined_deferred {A} s (T : holding → Prop) s' (p : app A) call :
  (∀ s1, T s1 → lock_monitor s1 (IO call tt) = Next s') →
  disciplined s p (λ s1 _, T s1) → disciplined s (deferred p call) (λ s1 _, s1 = s').
Proof.
  intros Hc Hp. apply safe_bind. eapply safe_mono; [|exact Hp]. intros s1 a Ha []. by rewrite Hc.
Qed.

Lemma with_master_disciplined mutate cfg master : (∀ cfg data, talks (mutate cfg data)) →
  disciplined working (with_master mutate cfg master) (λ s _, s = working).
Proof. intros Ht. apply (safe_only _ (@at_work)); [by apply working_stays|by apply with_master_works]. Qed.

Definition locked_up (s : holding) : Prop := ho_lock s = true ∧ ho_terminal s = false.

Lemma withUnlockedVault_disciplined lang mutate : (∀ cfg data, talks (mutate cfg data)) →
  disciplined free (withUnlockedVault lang mutate) (λ s _, s = free).
Proof.
  intros Ht [] ; [|done]. intros [e|]; [done|].
  apply (disciplined_deferred _ locked_up); [by intros [[] ? []] []|].
  intros [[]| |]; try done.
  all: intros [cfg|]; [|done]; cbv zeta; intros []; [|done].
  all: eapply safe_mono; [intros s r Hs; exact Hs|].
  all: eapply (safe_mono _ _ _ (λ s1 _, s1 = Holding true true false)); [by intros s r ->|].
  all: apply (disciplined_deferred _ (λ s1, s1 = working)); [by intros s1 ->|].
  all: apply safe_bind; eapply safe_mono; [|apply (safe_only _ (@talking)); [|apply talks_ReadSecret]].
  all: try (intros X e x He; apply working_stays; unfold at_work; by rewrite He).
  all: intros s1 [master|e] ->; [|done].
  all: apply (disciplined_deferred _ (λ s1, s1 = working)); [by intros s1 ->|].
  all: by apply with_master_disciplined.
Qed.

(** The commands that change the servers take the lock first, find that no
    daemon runs, and only then read and write the files; they use the terminal
    only while it is open; whatever fails, they end with the terminal closed and
    the lock released. *)
Theorem server_commands_hold_the_lock lang p (command : server_command lang p) :
  disciplined free p (λ s _, s = free).
Proof.
  destruct (server_command_is _ _ command) as [(? & ->)|(mutate & english & chinese & [Ht _] & ->)]; [done|].
  apply safe_bind. eapply safe_mono; [|by apply withUnlockedVault_disciplined].
  by intros s [alias|e] ->.
Qed.

(** ** A server is added *)

Definition add_run := played None add_script fresh_files (addServer languageEnglish) (Fail ErrStorage).
Definition add_trace : list (io app_op) := fst (fst add_run).
Definition after_add : files := snd (fst add_run).

Definition web : ServerSecret := {|
  ss_host := "web.example"; ss_port := 22; ss_user := "deploy"; ss_auth_method := "password"; ss_password := "secret";
  ss_private_key := ""; ss_private_key_passphrase := ""; ss_host_fingerprint := "SHA256:sample" |}.

Definition with_web : Data := {| da_servers := Some {[ "web" := web ]}; da_recovery_key := "" |}.

Lemma add_plays : bool_decide (is_Some (play None add_script fresh_files (addServer languageEnglish))) = true.
Proof. vm_compute. reflexivity. Qed.

Lemma add_succeeds : snd add_run = Ok tt.
Proof. vm_compute. reflexivity. Qed.

Lemma add_halts : halts fresh_files (addServer languageEnglish) after_add (Ok tt).
Proof. rewrite <- add_succeeds. exact (proj1 (played_ok _ _ _ _ _ add_plays)). Qed.

Example add_stores : fs_main after_add = Some ("master", with_web).
Proof. vm_compute. reflexivity. Qed.

Lemma fresh_match : files_match fresh_files.
Proof. exists defaultConfig, "master", empty_vault. split_and!; [done|done|]. by split. Qed.

Lemma server_commands_do_what_they_report_witness :
  ∃ cfg master data cfg' data' tr, fs_config fresh_files = Some cfg ∧ fs_main fresh_files = Some (master, data) ∧
    change languageEnglish (normalizedConfig cfg None) (some_servers data) cfg' data' tr ∧
    fs_config after_add = Some (normalizedConfig cfg' (Some data')) ∧ fs_main after_add = Some (master, data') ∧
    fs_recovery after_add = (if str_is_empty (da_recovery_key data') then fs_recovery fresh_files else Some (da_recovery_key data', data')) ∧
    fs_archive after_add = fs_archive fresh_files.
Proof. exact (server_commands_do_what_they_report _ _ _ _ _ (sc_add languageEnglish) add_halts). Defined.

Lemma server_commands_keep_match_witness : files_match after_add.
Proof.
  refine (server_commands_keep_match _ _ _ _ _ (sc_add languageEnglish) add_halts fresh_match _).
  vm_compute. apply le_S, le_n.
Defined.

Lemma stored_servers_are_vetted_witness :
  writes_ok languageEnglish (take 36 add_trace) save_answer (VaultSave MainVault "master" with_web).
Proof.
  refine (stored_servers_are_vetted _ _ add_trace _ _ _ Saved (drop 37 add_trace) (sc_add languageEnglish) _ _).
  - exact (runs_starts _ _ _ (proj2 (played_ok _ _ _ _ _ add_plays))).
  - vm_compute. reflexivity.
Defined.

Lemma server_commands_hold_the_lock_witness : disciplined free (addServer languageEnglish) (λ s _, s = free).
Proof. exact (server_commands_hold_the_lock _ _ (sc_add languageEnglish)). Defined.
