(* ===== verification/AppRecovery.v ===== *)
(** * Starting, and starting over: [init] and [recovery]

    What [init] and the three forms of [recovery] of [AppVault] leave of the
    files of [AppVaultSpec]: [init] touches nothing that exists; [restore] puts
    back, under a new password, the data that [enable] copied; [reset] archives
    and never deletes. *)

From S2P Require Import Prelude GoStr Utf8 GoTime Prog Json Base64 Model Wire Vault VaultStore Config AppConfig AppVault AppVaultSpec AppServers.
Open Scope string_scope.
Open Scope list_scope.

(** ** Shared steps *)

(** A postcondition that the calls at the end keep. *)
Definition settles (Q : files → result app_error unit → Prop) : Prop :=
  ∀ w w' r, Q w r → same_files w w' → fs_faults w' = fs_faults w → Q w' r.

Lemma keeps_closed {Q} w p call : settles Q → closing call = true →
  keeps (λ _, True) w p Q → keeps (λ _, True) w (deferred p call) Q.
Proof. intros HQ Hc Hp. apply keeps_deferred; [|done|done]. intros w1 w2 a. apply HQ. Qed.

(** An invariant that depends on the files only. *)
Definition about_files (I : files → Prop) : Prop := ∀ w w', I w → same_files w w' → I w'.

Lemma keeps_closed_in {Q} I w p call : about_files I → settles Q → closing call = true →
  keeps I w p (λ w' r, I w' ∧ Q w' r) → keeps I w (deferred p call) Q.
Proof.
  intros HI HQ Hc Hp. apply keeps_bind. eapply keeps_mono; [|exact Hp]. intros w1 a [Hi Ha] x w2 Hx.
  destruct (closing_same _ _ _ _ _ Hc Hx). split; [by eapply HI|]. by eapply HQ.
Qed.

Lemma keeps_talking_in {A B} I w (p : fallible A) (k : A → fallible B) Q : I w → talks p →
  (∀ a, keeps I w (k a) Q) → (∀ e, Q w (Fail e)) → keeps I w (try p k) Q.
Proof.
  intros Hi Hp Hk He. apply keeps_bind. eapply keeps_mono; [|apply (keeps_only (@talking)); [|exact Hi|exact Hp]].
  - intros w' [a|e] [-> _]; [apply Hk|apply He].
  - intros X e x w' Ht. by apply outside_same, talking_outside.
Qed.

Lemma keeps_inv {R} I w (p : app R) Q : I w → keeps I w p Q → keeps I w p (λ w' r, I w' ∧ Q w' r).
Proof.
  revert w. induction p as [r|X e k IH]; intros w Hi; cbn [world_keeps]; [done|].
  intros H x w' Ha. destruct (H x w' Ha). split; [done|]. by apply IH.
Qed.

(** A question about a password asked twice. *)
Lemma keeps_new_master_in I w prompt confirm (k : string → fallible unit) Q : about_files I → I w → settles Q →
  (∀ master, keeps I w (k master) Q) → (∀ e, Q w (Fail e)) → keeps I w (read_new_master prompt confirm k) Q.
Proof.
  intros HI Hi HQ Hk He. apply keeps_talking_in; [done|apply talks_ReadSecret| |done]. intros master.
  apply keeps_closed_in; [done..|]. apply keeps_inv; [done|].
  apply keeps_talking_in; [done|apply talks_ReadSecret| |done]. intros confirmation.
  apply keeps_closed_in; [done..|]. apply keeps_inv; [done|]. destruct (_ =? _)%string; [apply Hk|apply He].
Qed.

Lemma keeps_new_master w prompt confirm (k : string → fallible unit) Q : settles Q →
  (∀ master, keeps (λ _, True) w (k master) Q) → (∀ e, Q w (Fail e)) →
  keeps (λ _, True) w (read_new_master prompt confirm k) Q.
Proof. by apply keeps_new_master_in. Qed.

(** Nothing changed, unless a call failed. *)
Definition unchanged (w w' : files) : Prop := fs_faults w' = fs_faults w → same_files w w'.

(** ** [init] *)

(** [init] made an empty vault and the default configuration where there was
    neither; or it changed nothing, which is so whenever there was one of the two;
    or a call failed. *)
Definition initializes (w w' : files) (r : result app_error unit) : Prop :=
  (fs_faults w ≤ fs_faults w')%nat ∧ fs_recovery w' = fs_recovery w ∧ fs_archive w' = fs_archive w ∧
  (is_Some (fs_config w) ∨ is_Some (fs_main w) → same_files w w' ∧ ∃ e, r = Fail e) ∧
  match r with
  | Ok _ => fs_config w' = Some defaultConfig ∧ ∃ master, fs_main w' = Some (master, empty_vault)
  | Fail _ => fs_faults w' = fs_faults w → same_files w w'
  end.

Lemma initializes_settles w : settles (initializes w).
Proof.
  intros w1 w2 r (Hf & Hr & Ha & Hsome & Hres) (Hc & Hm & Hr' & Ha') Hf'. split_and!; try congruence.
  - intros Hs. destruct (Hsome Hs) as [(? & ? & ? & ?) He]. split; [|done]. split_and!; congruence.
  - destruct r as [[]|e].
    + destruct Hres as [Hdc (m & Hdm)]. split; [congruence|]. exists m. congruence.
    + intros He. destruct Hres as (? & ? & ? & ?); [congruence|]. split_and!; congruence.
Qed.

Lemma initializes_refused w e : initializes w w (Fail e).
Proof. split_and!; try done. intros _. by split; [|eexists]. Qed.

Lemma keeps_initialized w (k : bool → fallible unit) Q :
  (∀ b, b = bool_decide (is_Some (fs_config w) ∨ is_Some (fs_main w)) → keeps (λ _, True) w (k b) Q) →
  keeps (λ _, True) w (initialized ≫= k) Q.
Proof.
  intros Hk. apply keeps_bind. intros b w1 Ha. split; [done|]. cbn [acts] in Ha.
  destruct (Bool.eqb _ _) eqn:Hb; [|done]. injection Ha as <-. apply eqb_prop in Hb. destruct b; simpl.
  - apply Hk. symmetry in Hb. symmetry. apply bool_decide_eq_true. apply bool_decide_eq_true in Hb. by left.
  - intros b w2 Ha. split; [done|]. destruct (Bool.eqb b _) eqn:Hb'; [|done]. injection Ha as <-. apply eqb_prop in Hb' as ->.
    apply Hk. symmetry in Hb. apply bool_decide_eq_false in Hb. apply bool_decide_ext. tauto.
Qed.

Lemma keeps_initialize_files lang w master : fs_config w = None → fs_main w = None →
  keeps (λ _, True) w (initialize_files lang master) (initializes w).
Proof.
  intros Hc Hm. assert (¬ (is_Some (fs_config w) ∨ is_Some (fs_main w))) as Hno by (rewrite Hc, Hm; by intros [[]|[]]).
  unfold initialize_files. apply keeps_bind. intros a w1 Ha. split; [done|]. cbn [acts] in Ha. rewrite Hm in Ha. injection Ha as <-.
  destruct a as [|replaced]; cbn [after_save].
  2: { destruct replaced; split_and!; try done; simpl; lia. }
  apply keeps_bind. eapply keeps_mono; [|apply keeps_saveConfig].
  intros w2 ok (Hf & _ & Hm2 & Hr2 & Ha2 & _ & Hok). simpl in *. destruct ok; simpl.
  - intros [] w3 [= <-]. split; [done|]. split_and!; try done. by exists master.
  - intros [] w3 [= <-]. split; [done|]. intros [] w4 [= <-]. split; [done|]. destruct Hok as [Hlt _].
    split_and!; try done; simpl; lia.
Qed.

(** [init] never touches a configuration or a vault that exists; when it
    reports success there was neither, and there is the default configuration and
    an empty vault; when it reports an error it has changed nothing, unless a call
    failed. *)
Theorem initialize_outcome lang w w' r (run : halts w (initialize lang) w' r) : initializes w w' r.
Proof.
  refine (keeps_halts _ _ _ _ _ _ _ run).
  apply keeps_outside; [done|]. intros []; [|apply initializes_refused].
  apply keeps_initialized. intros b ->. case_bool_decide as Hex; [apply initializes_refused|].
  apply keeps_bind. intros [e|] w1 [= <-]; (split; [done|]); [apply initializes_refused|].
  apply keeps_closed; [apply initializes_settles|done|].
  eapply keeps_mono; [intros w2 r2 H; exact H|]. change (initializes w) with (initializes (set_locked w true)).
  apply keeps_initialized. intros b ->. case_bool_decide; [apply initializes_refused|].
  apply keeps_outside; [done|]. intros []; [|apply initializes_refused].
  apply keeps_closed; [apply initializes_settles|done|]. apply keeps_new_master; [apply initializes_settles| |intros; apply initializes_refused].
  intros master. apply keeps_initialize_files; simpl.
  - destruct (fs_config w); [|done]. destruct Hex. eauto.
  - destruct (fs_main w); [|done]. destruct Hex. eauto.
Qed.

(** ** [recovery enable] *)

(** The vault's data is copied under its recovery key: the key it had, or 32
    new bytes. *)
Definition enabled (w w' : files) : Prop :=
  ∃ master data, fs_main w = Some (master, data) ∧
    if str_is_empty (da_recovery_key data)
    then ∃ key, String.length key = 32%nat ∧ fs_config w' = fs_config w ∧ fs_archive w' = fs_archive w ∧
           fs_main w' = Some (master, with_key data key) ∧ fs_recovery w' = Some (key, with_key data key)
    else same_files w w'.

Definition enables (w w' : files) (r : result app_error unit) : Prop :=
  (fs_faults w ≤ fs_faults w')%nat ∧
  match r with
  | Ok _ => enabled w w'
  | Fail _ => fs_faults w' = fs_faults w → same_files w w' ∨ enabled w w'
  end.

Lemma enabled_settles w w1 w2 : enabled w w1 → same_files w1 w2 → enabled w w2.
Proof.
  intros (m & d & Hm & H) Hs. exists m, d. split; [done|]. destruct (str_is_empty _).
  - destruct Hs as (? & ? & ? & ?), H as (k & ? & ? & ? & ? & ?). exists k. split_and!; congruence.
  - by eapply same_files_trans.
Qed.

Lemma enables_settles w : settles (enables w).
Proof.
  intros w1 w2 r [Hf Hr] Hs Hf'. split; [lia|]. destruct r as [[]|e]; [by eapply enabled_settles|].
  intros He. destruct Hr as [Hr|Hr]; [congruence|left; by eapply same_files_trans|right; by eapply enabled_settles].
Qed.

Lemma enables_untouched w w' e : untouched w w' → enables w w' (Fail e).
Proof. intros [Hs Hf]. split; [done|]. by left. Qed.

(** Showing the code ends a command that has what it wanted. *)
Lemma keeps_print lang w w' key : enabled w w' → (fs_faults w ≤ fs_faults w')%nat →
  keeps (λ _, True) w' (printRecoveryCode lang key) (enables w).
Proof. intros He Hf. apply keeps_outside; [done|]. intros []; (split; [done|]); [done|]. by right. Qed.

Lemma enable_copies lang w master data key :
  fs_main w = Some (master, data) → da_recovery_key data = "" → String.length key = 32%nat →
  keeps (λ _, True) w
    (ensure (saveVaultVerified MainVault master (with_key data key)) ErrStorage
      (ensure (saveVaultVerified RecoveryVault key (with_key data key)) ErrStorage (printRecoveryCode lang key))) (enables w).
Proof.
  intros Hm Hk Hl. apply keeps_bind. eapply keeps_mono; [|apply keeps_saveVault].
  intros w1 ok (Hf1 & _ & Hc1 & Ha1 & Ho1 & _ & Hok1). pose proof (Ho1 RecoveryVault ltac:(done)) as Hr1. cbn [fs_vault] in *.
  destruct ok; [|destruct Hok1; split; [lia|]; intros; lia].
  apply keeps_bind. eapply keeps_mono; [|apply keeps_saveVault].
  intros w2 ok (Hf2 & _ & Hc2 & Ha2 & Ho2 & _ & Hok2). pose proof (Ho2 MainVault ltac:(done)) as Hm2. cbn [fs_vault] in *.
  destruct ok; [|destruct Hok2; split; [lia|]; intros; lia].
  apply keeps_print; [|lia]. exists master, data. split; [done|]. rewrite Hk. exists key. split_and!; congruence.
Qed.

Lemma keeps_enable lang w : keeps (λ _, True) w (recovery_enable lang) (enables w).
Proof.
  pose proof (enables_untouched w w) as Href. pose proof (untouched_refl w) as Hw.
  apply keeps_talking; [apply talks_ReadSecret| |auto]. intros master _ _. apply keeps_closed; [apply enables_settles|done|].
  apply keeps_found_vault; [|intros w' Hu; by apply enables_untouched]. intros data Hm. unfold not_empty.
  destruct (str_is_empty (da_recovery_key data)) eqn:Hk; cbn [negb].
  - apply keeps_bind. intros [key|] w1 Ha; (split; [done|]); cbn [acts] in Ha.
    2: { injection Ha as <-. apply keeps_closed; [apply enables_settles|done|]. by apply Href. }
    destruct (Nat.eqb_spec (String.length key) 32) as [Hl|]; [|done]. injection Ha as <-. cbv zeta.
    apply keeps_closed; [apply enables_settles|done|]. apply enable_copies; [done| |done].
    by destruct (da_recovery_key data).
  - apply keeps_closed; [apply enables_settles|done|]. apply keeps_print; [|done]. exists master, data. by rewrite Hk.
Qed.

(** ** [recovery restore] *)

(** The vault is what the copy was, under a new password. *)
Definition restores (w w' : files) (r : result app_error unit) : Prop :=
  (fs_faults w ≤ fs_faults w')%nat ∧ fs_config w' = fs_config w ∧ fs_recovery w' = fs_recovery w ∧ fs_archive w' = fs_archive w ∧
  match r with
  | Ok _ => ∃ key data master, fs_recovery w = Some (key, data) ∧ da_recovery_key data = key ∧ fs_main w' = Some (master, data)
  | Fail _ => (fs_faults w' ≤ S (fs_faults w))%nat → fs_main w' = fs_main w
  end.

Lemma restores_settles w : settles (restores w).
Proof.
  intros w1 w2 r (Hf & Hc & Hr & Ha & Hres) (Hc' & Hm' & Hr' & Ha') Hf'. split_and!; try congruence.
  destruct r as [[]|e].
  - destruct Hres as (k & d & m & ? & ? & ?). exists k, d, m. split_and!; congruence.
  - intros He. rewrite Hm'. apply Hres. congruence.
Qed.

Lemma restores_untouched w w' e : untouched w w' → restores w w' (Fail e).
Proof. intros [(? & ? & ? & ?) Hf]. by split_and!. Qed.

Lemma keeps_recovery_restore lang w : keeps (λ _, True) w (recovery_restore lang) (restores w).
Proof.
  pose proof (untouched_refl w) as Hw. pose proof (λ e, restores_untouched w w e Hw) as Href. pose proof (restores_settles w) as HQ.
  apply keeps_bind. intros there w1 Ha. split; [done|]. cbn [acts] in Ha. destruct (Bool.eqb _ _); [|done]. injection Ha as <-.
  destruct there; [|apply Href]. apply keeps_talking; [apply talks_ReadSecret| |done]. intros code _ _.
  apply keeps_closed; [done|done|]. destruct (raw_url_decode code) as [key|]; [|apply Href].
  apply keeps_closed; [done|done|]. apply keeps_found_vault; [|intros w' Hu; by apply restores_untouched].
  intros data Hd. cbn [fs_vault] in Hd. destruct (String.eqb_spec (da_recovery_key data) key) as [Hk|]; cbn [negb].
  2: { apply keeps_outside; [done|]. intros []. apply Href. }
  apply keeps_closed; [done|done|]. apply keeps_new_master; [done| |done]. intros master.
  apply keeps_bind. eapply keeps_mono; [|apply keeps_saveVault].
  intros w1 ok (Hf & _ & Hc & Har & Ho & _ & Hok). pose proof (Ho RecoveryVault ltac:(done)) as Hr. cbn [fs_vault] in *.
  destruct ok.
  - apply keeps_outside; [done|]. intros []. split_and!; try done. by exists key, data, master.
  - destruct Hok as [Hlt Hsame]. split_and!; try done; lia.
Qed.

(** ** What was typed and shown *)

(** The lines that were typed where nothing is echoed. *)
Definition typed_line {X} (e : app_op X) : X → list string :=
  match e in app_op X return X → list string with ReadPassword => λ line, option_list line | _ => λ _, [] end.

Definition typed (tr : list (io app_op)) : list string := mjoin ((λ c, match c with IO e x => typed_line e x end) <$> tr).

Lemma typed_app t1 t2 : typed (t1 ++ t2) = typed t1 ++ typed t2.
Proof. unfold typed. by rewrite fmap_app, join_app. Qed.

(** The line that shows a recovery key. *)
Definition code_line (lang : language) (key : string) : string :=
  text lang "Recovery code (store it offline): " "恢复码（请离线保存）：" +:+ raw_url_encode key +:+ newline.

Lemma does_try {A B} w (p : fallible A) (k : A → fallible B) tr w' b : does w (try p k) tr w' (Ok b) →
  ∃ t1 w1 a t2, tr = t1 ++ t2 ∧ does w p t1 w1 (Ok a) ∧ does w1 (k a) t2 w' (Ok b).
Proof. intros (t1 & w1 & [a|e] & t2 & -> & H1 & H2)%does_bind; [by exists t1, w1, a, t2|by destruct H2 as (_ & _ & [=])]. Qed.

Lemma does_ensure {A} w (p : app bool) e (k : fallible A) tr w' b : does w (ensure p e k) tr w' (Ok b) →
  ∃ t1 w1 t2, tr = t1 ++ t2 ∧ does w p t1 w1 true ∧ does w1 k t2 w' (Ok b).
Proof. intros (t1 & w1 & [] & t2 & -> & H1 & H2)%does_bind; [by exists t1, w1, t2|by destruct H2 as (_ & _ & [=])]. Qed.

Lemma does_vault {A} w v master e (k : Data → fallible A) tr w' b : does w (found (VaultLoad v master) e k) tr w' (Ok b) →
  ∃ data t, typed tr = typed t ∧ (∀ c, c ∈ t → c ∈ tr) ∧ fs_vault v w = Some (master, data) ∧ does w (k data) t w' (Ok b).
Proof.
  intros ([data|] & w1 & t & -> & Ha & Hr); [|by destruct Hr as (_ & _ & [=])]. simpl in Ha. case_decide; [|done..].
  injection Ha as <-. exists data, t. split; [done|]. split; [set_solver|done].
Qed.

(** What is put off till the end neither types nor touches the files. *)
Lemma does_deferred {A} w (p : app A) (call : app_op unit) tr w' r : closing call = true → typed_line call tt = [] →
  does w (deferred p call) tr w' r → ∃ t w1, typed tr = typed t ∧ (∀ c, c ∈ t → c ∈ tr) ∧ does w p t w1 r ∧ same_files w1 w'.
Proof.
  intros Hc Hu (t1 & w1 & a & t2 & -> & H1 & ([] & w2 & t3 & -> & Ha & -> & -> & ->))%does_bind. exists t1, w1.
  rewrite typed_app. destruct (closing_same _ _ _ _ _ Hc Ha) as [Hs _].
  split; [|split; [set_solver|done]]. unfold typed at 2. simpl. by rewrite Hu, !app_nil_r.
Qed.

Lemma does_ReadSecret w prompt tr w' s : does w (ReadSecret prompt) tr w' (Ok s) →
  w' = w ∧ ∃ line, typed tr = [line] ∧ s = trimLineEnding line.
Proof.
  intros H. split.
  { eapply (does_only (@acts) (@talking)); [|apply talks_ReadSecret|exact H]. intros X e x w1 He Ha. by eapply outside_same, Ha; apply talking_outside. }
  apply does_try in H as (t1 & w1 & a & t2 & -> & H & Ha).
  assert (t2 = [] ∧ a = s) as [-> ->] by (destruct (str_is_empty a), Ha as (-> & _ & [= ?]); done). clear Ha.
  apply does_ensure in H as (t3 & w2 & t4 & -> & (b & w3 & t5 & -> & _ & -> & _ & _) & (line & w4 & t6 & -> & _ & (ended & w5 & t7 & -> & _ & H))).
  rewrite app_nil_r. destruct line as [line|]; [|by destruct H as (_ & _ & [=])]. destruct ended; simpl in H.
  - destruct H as (-> & _ & [= ->]). by exists line.
  - by destruct H as (? & ? & ? & _ & _ & _ & _ & [=]).
Qed.

Lemma does_new_master w prompt confirm (k : string → fallible unit) tr w' : does w (read_new_master prompt confirm k) tr w' (Ok tt) →
  ∃ line again t w1, typed tr = line :: again :: typed t ∧ trimLineEnding again = trimLineEnding line ∧
    does w (k (trimLineEnding line)) t w1 (Ok tt) ∧ same_files w1 w'.
Proof.
  intros (t1 & w1 & master & t2 & -> & H1 & H2)%does_try. apply does_ReadSecret in H1 as (-> & line & Hl & ->).
  apply does_deferred in H2 as (t3 & w2 & Ht2 & _ & H2 & Hs2); [|done..].
  apply does_try in H2 as (t4 & w3 & again & t5 & -> & H3 & H4). apply does_ReadSecret in H3 as (-> & line' & Hl' & ->).
  apply does_deferred in H4 as (t6 & w4 & Ht5 & _ & H4 & Hs4); [|done..].
  destruct (String.eqb_spec (trimLineEnding line) (trimLineEnding line')) as [He|]; [|by destruct H4 as (_ & _ & [=])].
  exists line, line', t6, w4. rewrite typed_app, Hl, Ht2, typed_app, Hl', Ht5.
  split_and!; [done..|by eapply same_files_trans].
Qed.

Lemma typed_saveVault v master data tr b : runs (saveVaultVerified v master data) tr b → typed tr = [].
Proof.
  intros ([|replaced] & t & -> & H); [by destruct H as [-> _]|]. destruct H as ([d|] & t' & -> & H); [|by destruct H as [-> _]].
  destruct H as (x & t'' & -> & [-> _]). done.
Qed.

Lemma does_saveVault w v master data tr w' : does w (saveVaultVerified v master data) tr w' true →
  typed tr = [] ∧ fs_vault v w' = Some (master, data).
Proof.
  intros H. split; [by eapply typed_saveVault, does_runs|].
  by destruct (keeps_halts _ _ _ _ _ _ (keeps_saveVault w v master data) ltac:(eapply does_halts, H)) as (_ & _ & _ & _ & _ & _ & Hok).
Qed.

(** A restore that succeeds: a code and a new password, twice, were typed; the
    code is the key of the copy, and the vault is now under that password. *)
Lemma does_restore lang w tr w' : does w (recovery_restore lang) tr w' (Ok tt) →
  ∃ code line again key data, typed tr = [code; line; again] ∧ trimLineEnding again = trimLineEnding line ∧
    raw_url_decode (trimLineEnding code) = Some key ∧ fs_recovery w = Some (key, data) ∧
    fs_main w' = Some (trimLineEnding line, data).
Proof.
  intros (t1 & w1 & t2 & -> & (b & w2 & t3 & -> & Hex & -> & -> & _) & H)%does_ensure.
  cbn [acts] in Hex. destruct (Bool.eqb _ _); [|done]. injection Hex as <-.
  apply does_try in H as (t3 & w3 & code & t4 & -> & Hcode & H). apply does_ReadSecret in Hcode as (-> & line & Hcode & ->).
  apply does_deferred in H as (t5 & w4 & Ht4 & _ & H & Hs4); [|done..].
  destruct (raw_url_decode (trimLineEnding line)) as [key|] eqn:Hkey; [|by destruct H as (_ & _ & [=])].
  apply does_deferred in H as (t6 & w5 & Ht5 & _ & H & Hs5); [|done..].
  apply does_vault in H as (data & t7 & Ht6 & _ & Hdata & H).
  destruct (String.eqb (da_recovery_key data) key); [|by destruct H as (? & ? & ? & _ & _ & _ & _ & [=])]. cbn [negb] in H.
  apply does_deferred in H as (t8 & w6 & Ht7 & _ & H & Hs6); [|done..].
  apply does_new_master in H as (new & again & t9 & w7 & Ht8 & Hagain & H & Hs7).
  apply does_ensure in H as (t10 & w8 & t11 & -> & Hsave & H). apply does_saveVault in Hsave as [Hquiet Hmain].
  destruct H as ([] & w9 & t12 & -> & [= <-] & -> & -> & _).
  exists line, new, again, key, data. rewrite !typed_app, Hcode, Ht4, Ht5, Ht6, Ht7, Ht8, typed_app, Hquiet.
  assert (same_files w8 w') as (_ & Hm & _) by (do 3 (eapply same_files_trans; [|done]); done).
  split_and!; try done. by rewrite Hm.
Qed.

(** ** [recovery reset] *)

(** Everything that was is in the archive. *)
Record put_away (w w' : files) : Prop := {
  pa_config c : fs_config w = Some c → inl c ∈ fs_archive w';
  pa_vault v x : fs_vault v w = Some x → inr x ∈ fs_archive w';
  pa_archive y : y ∈ fs_archive w → y ∈ fs_archive w' }.

(** Everything that was is in the archive, or where it was. *)
Record still_there (w w' : files) : Prop := {
  st_config c : fs_config w = Some c → fs_config w' = Some c ∨ inl c ∈ fs_archive w';
  st_vault v x : fs_vault v w = Some x → fs_vault v w' = Some x ∨ inr x ∈ fs_archive w';
  st_archive y : y ∈ fs_archive w → y ∈ fs_archive w' }.

Lemma put_away_there w w' : put_away w w' → still_there w w'.
Proof. intros [Hc Hv Ha]. split; eauto. Qed.

Lemma still_there_refl w : still_there w w.
Proof. split; auto. Qed.

Lemma vault_after w u v x : fs_vault u (set_vault v w x) = if decide (u = v) then x else fs_vault u w.
Proof. by destruct u, v. Qed.

(** No call takes anything out of the archive. *)
Lemma acts_archive X w (e : app_op X) x w' y : acts w e x = Some w' → y ∈ fs_archive w → y ∈ fs_archive w'.
Proof.
  destruct e; cbn [acts]; intros Ha Hy; repeat (case_match || case_decide); simplify_eq; simpl; try done;
    try (destruct v; simpl; done);
    try (apply bind_Some in Ha as (? & ? & [= <-]); destruct v || idtac; simpl; by right).
  all: destruct x as [|[]]; try destruct v; done.
Qed.

(** One file: it is where it was and there was none, or it is in the archive. *)
Lemma keeps_archive_config w0 w (k : fallible unit) Q :
  still_there w0 w → (∀ w', still_there w0 w' → Q w' (Fail ErrStorage)) →
  (∀ w', still_there w0 w' → fs_config w' = None → (∀ v, fs_vault v w' = fs_vault v w) → keeps (still_there w0) w' k Q) →
  keeps (still_there w0) w (archive (trigger ConfigExists) ArchiveConfig k) Q.
Proof.
  intros Hw Hf Hk. apply keeps_bind. intros there w1 Ha. cbn [acts] in Ha. destruct (Bool.eqb _ _) eqn:Hb; [|done].
  injection Ha as <-. split; [done|]. apply eqb_prop in Hb. destruct there; cbn [world_keeps].
  2: { symmetry in Hb. apply bool_decide_eq_false in Hb. apply Hk; [done| |done]. by destruct (fs_config w); [destruct Hb; eauto|]. }
  apply keeps_bind. intros [] w1 Ha; cbn [acts] in Ha.
  - apply bind_Some in Ha as (c & Hc & [= <-]). destruct Hw as [Hwc Hwv Hwa].
    assert (still_there w0 (archived (set_config w None) (inl c))) as Hs.
    { split; simpl; [|intros v x Hx; destruct (Hwv v x Hx); [left; by destruct v|right; by right]|intros y Hy; right; auto].
      intros c0 Hc0. destruct (Hwc c0 Hc0) as [Hc1|]; [right|right; by right].
      replace c0 with c by congruence. by left. }
    split; [done|]. apply Hk; [done|done|]. by intros [].
  - injection Ha as <-. assert (still_there w0 (failed w)) as Hs.
    { destruct Hw as [Hwc Hwv Hwa]. split; [done|intros v; specialize (Hwv v); by destruct v|done]. }
    split; [done|]. by apply Hf.
Qed.

Lemma keeps_archive_vault w0 w u (k : fallible unit) Q :
  still_there w0 w → (∀ w', still_there w0 w' → Q w' (Fail ErrStorage)) →
  (∀ w', still_there w0 w' → fs_config w' = fs_config w → fs_vault u w' = None → (∀ v, v ≠ u → fs_vault v w' = fs_vault v w) →
     keeps (still_there w0) w' k Q) →
  keeps (still_there w0) w (archive (trigger (VaultExists u)) (ArchiveVault u) k) Q.
Proof.
  intros Hw Hf Hk. apply keeps_bind. intros there w1 Ha. cbn [acts] in Ha. destruct (Bool.eqb _ _) eqn:Hb; [|done].
  injection Ha as <-. split; [done|]. apply eqb_prop in Hb. destruct there; cbn [world_keeps].
  2: { symmetry in Hb. apply bool_decide_eq_false in Hb. apply Hk; [done|done| |done]. by destruct (fs_vault u w); [destruct Hb; eauto|]. }
  apply keeps_bind. intros [] w1 Ha; cbn [acts] in Ha.
  - apply bind_Some in Ha as (x & Hx & [= <-]). destruct Hw as [Hwc Hwv Hwa].
    assert (∀ v, fs_vault v (archived (set_vault u w None) (inr x)) = if decide (v = u) then None else fs_vault v w) as Hafter
      by (intros v; rewrite <- vault_after; by destruct v, u).
    assert (fs_archive (archived (set_vault u w None) (inr x)) = inr x :: fs_archive w) as Harch by by destruct u.
    assert (fs_config (archived (set_vault u w None) (inr x)) = fs_config w) as Hcfg by by destruct u.
    assert (still_there w0 (archived (set_vault u w None) (inr x))) as Hs.
    { split.
      - intros c Hc. rewrite Hcfg, Harch. destruct (Hwc c Hc); [by left|right; by right].
      - intros v y Hy. rewrite Hafter, Harch. destruct (Hwv v y Hy) as [Hv|]; [|right; by right].
        case_decide as Heq; [|by left]. subst. right. replace y with x by congruence. by left.
      - intros y Hy. rewrite Harch. right. auto. }
    split; [done|]. apply Hk; [done|done|by rewrite Hafter, decide_True by done|].
    intros v Hv. by rewrite Hafter, decide_False.
  - injection Ha as <-. assert (still_there w0 (failed w)) as Hs.
    { destruct Hw as [Hwc Hwv Hwa]. split; [done|intros v; specialize (Hwv v); by destruct v|done]. }
    split; [done|]. by apply Hf.
Qed.

Lemma still_there_gone w0 w : still_there w0 w → fs_config w = None → (∀ v, fs_vault v w = None) → put_away w0 w.
Proof.
  intros [Hc Hv Ha] Hnc Hnv. split; [|intros v x Hx; destruct (Hv v x Hx); [by rewrite Hnv in *|done]|done].
  intros c Hcc. destruct (Hc c Hcc); [by rewrite Hnc in *|done].
Qed.

(** Once everything is in the archive, nothing can be lost. *)
Lemma keeps_put_away {R} w0 w (p : app R) Q : put_away w0 w →
  keeps (λ _, True) w p Q → keeps (still_there w0) w p (λ w' r, put_away w0 w' ∧ Q w' r).
Proof.
  intros Hw. revert w Hw. induction p as [r|X e k IH]; intros w Hw; cbn [world_keeps]; [done|].
  intros Hk x w' Ha. destruct (Hk x w' Ha) as [_ Hk'].
  assert (put_away w0 w') as Hw' by (destruct Hw; split; eauto using acts_archive).
  split; [by apply put_away_there|]. by apply IH.
Qed.

(** There is a new vault, and no copy of another. *)
Definition renewed (w : files) : Prop :=
  fs_config w = Some defaultConfig ∧ fs_recovery w = None ∧ ∃ master, fs_main w = Some (master, empty_vault).

Definition resets (w w' : files) (r : result app_error unit) : Prop := r = Ok tt → put_away w w' ∧ renewed w'.

Lemma put_away_files w : about_files (put_away w).
Proof. intros w1 w2 [Hc Hv Ha] (_ & _ & _ & Har). split; rewrite Har; auto. Qed.

Lemma still_there_files w : about_files (still_there w).
Proof.
  intros w1 w2 [Hc Hv Ha] (Hc' & Hm' & Hr' & Har). split; rewrite Har; [rewrite Hc'; auto| |auto].
  intros v x Hx. destruct (Hv v x Hx) as [Hv'|]; [left|by right]. destruct v; simpl in *; congruence.
Qed.

Lemma resets_settles w : settles (resets w).
Proof.
  intros w1 w2 r Hr Hs _ Hok. destruct (Hr Hok) as (Hp & Hc & Hrec & m & Hm).
  split; [by eapply put_away_files|]. destruct Hs as (Hc' & Hm' & Hr' & _). split_and!; [congruence|congruence|]. exists m. congruence.
Qed.

(** What is left to do when everything is in the archive. *)
Lemma keeps_reset_end lang w0 w master : put_away w0 w → fs_recovery w = None →
  keeps (still_there w0) w
    (made ← trigger (VaultInitialize master);
     match made with
     | SaveFailed _ => Ret (Fail ErrStorage)
     | Saved =>
         ensure (saveConfigVerified defaultConfig) ErrStorage
           (_ ← trigger (Stdout (text lang "old encrypted files archived; new empty vault initialized" "旧加密文件已归档，新空 vault 已初始化" +:+ newline));
            Ret (Ok tt))
     end) (resets w0).
Proof.
  intros Hp Hr. eapply keeps_mono; [|apply (keeps_put_away _ _ _ (λ w' r, r = Ok tt → renewed w')); [exact Hp|]].
  { intros w' r [Hp' Hq] Hok. auto. }
  apply keeps_bind. intros a w1 Ha. split; [done|]. destruct a as [|replaced]; [|done].
  cbn [acts] in Ha. destruct (fs_main w); [done|]. injection Ha as <-. cbn [after_save].
  apply keeps_bind. eapply keeps_mono; [|apply keeps_saveConfig].
  intros w2 ok (_ & _ & Hm & Hr2 & _ & _ & Hok). destruct ok; [|done]. simpl in *.
  intros [] w3 [= <-]. split; [done|]. intros _. split_and!; [done|congruence|by exists master].
Qed.

Lemma keeps_reset lang w : keeps (still_there w) w (recovery_reset lang) (resets w).
Proof.
  pose proof (still_there_refl w) as Hw. pose proof (still_there_files w) as HI. pose proof (resets_settles w) as HQ.
  assert (∀ w' e, resets w w' (Fail e)) as Hfail by done.
  apply keeps_talking_in; [done|apply talks_ConfirmExact| |done]. intros []; [|done].
  apply keeps_new_master_in; [done..| |done]. intros master.
  apply keeps_archive_config; [done|done|]. intros w1 H1 Hc1 Hv1.
  apply keeps_archive_vault; [done|done|]. intros w2 H2 Hc2 Hv2 Ho2.
  apply keeps_archive_vault; [done|done|]. intros w3 H3 Hc3 Hv3 Ho3.
  apply keeps_reset_end; [|done]. apply still_there_gone; [done|congruence|].
  intros []; [|done]. by rewrite Ho3.
Qed.

(** ** The command *)

Lemma keeps_recoveryCommand lang I w mode (p : fallible unit) Q :
  mode ∈ ["enable"; "restore"; "reset"] →
  p = (if String.eqb mode "reset" then recovery_reset lang
       else if String.eqb mode "enable" then recovery_enable lang else recovery_restore lang) →
  about_files I → I w → settles Q → (∀ e, Q w (Fail e)) → keeps I w p Q → keeps I w (recoveryCommand lang [mode]) Q.
Proof.
  intros Hmode Hp HI Hi HQ He Hk. unfold recoveryCommand. rewrite bool_decide_eq_true_2 by done. rewrite <- Hp.
  assert (∀ X (e : app_op X) (k : X → fallible unit), outside e = true → (∀ x, keeps I w (k x) Q) → keeps I w (trigger e ≫= k) Q) as Hout.
  { intros X e k Ho Hk' x w' Ha. rewrite (outside_same _ _ _ _ _ Ho Ha). split; [done|apply Hk']. }
  apply Hout; [done|]. intros []; [|apply He]. apply Hout; [done|]. intros [[]| |]; try apply He.
  all: apply Hout; [done|]; intros []; [|apply He].
  all: apply keeps_closed_in; [done..|]; by apply keeps_inv.
Qed.

(** C20: [recovery reset] deletes nothing: wherever it stops, the configuration, the
    vault and the copy that were there are where they were or in the archive, with
    everything that was archived before; when it reports success they are all in
    the archive, the vault is empty, the configuration is the default one, and
    there is no copy of an older vault. *)
Theorem recovery_reset_deletes_nothing lang w :
  (∀ w', world_stops (@acts) w (recoveryCommand lang ["reset"]) w' → still_there w w') ∧
  (∀ w' r, halts w (recoveryCommand lang ["reset"]) w' r → still_there w w' ∧ (r = Ok tt → put_away w w' ∧ renewed w')).
Proof.
  assert (keeps (still_there w) w (recoveryCommand lang ["reset"]) (λ w' r, still_there w w' ∧ resets w w' r)) as Hk.
  { apply keeps_inv; [apply still_there_refl|]. eapply keeps_recoveryCommand; [set_solver|done|apply still_there_files|
      apply still_there_refl|apply resets_settles|done|apply keeps_reset]. }
  split.
  - intros w'. exact (keeps_stops _ _ _ _ _ (still_there_refl w) Hk).
  - intros w' r. exact (keeps_halts _ _ _ _ _ _ Hk).
Qed.

(** What [recovery] does in its three forms, between opening and closing the
    terminal. *)
Lemma does_recoveryCommand lang mode p w tr w' :
  mode ∈ ["enable"; "restore"; "reset"] →
  p = (if String.eqb mode "reset" then recovery_reset lang
       else if String.eqb mode "enable" then recovery_enable lang else recovery_restore lang) →
  does w (recoveryCommand lang [mode]) tr w' (Ok tt) →
  ∃ t w1, typed tr = typed t ∧ (∀ c, c ∈ t → c ∈ tr) ∧ does w p t w1 (Ok tt) ∧ same_files w1 w'.
Proof.
  intros Hmode -> H. unfold recoveryCommand in H. rewrite bool_decide_eq_true_2 in H by done.
  apply does_ensure in H as (t1 & w1 & t2 & -> & (b & w2 & t3 & -> & Ha & -> & -> & _) & H1). injection Ha as <-.
  destruct H1 as (status & w3 & t4 & -> & Ha & H). injection Ha as <-.
  assert (∃ t5, typed t4 = typed t5 ∧ (∀ c, c ∈ t5 → c ∈ t4) ∧ does w (deferred
    (if String.eqb mode "reset" then recovery_reset lang
     else if String.eqb mode "enable" then recovery_enable lang else recovery_restore lang) CloseTerminal) t5 w' (Ok tt)) as (t5 & Ht & Hin & Hd).
  { destruct status as [[]| |]; try (by destruct H as (_ & _ & [=])).
    all: apply does_ensure in H as (t6 & w6 & t7 & -> & (b' & w7 & t8 & -> & Ha & -> & -> & _) & H1); injection Ha as <-.
    all: exists t7; split; [done|]; split; [set_solver|done]. }
  apply does_deferred in Hd as (t & w6 & Ht6 & Hin6 & Hd & Hs); [|done..].
  exists t, w6. split; [by rewrite <- Ht6, <- Ht|]. split; [set_solver|done].
Qed.

(** An [enable] that succeeds on a vault without a key shows the key that it
    copies the vault under. *)
Lemma does_enable lang w tr w' master data : fs_main w = Some (master, data) → da_recovery_key data = "" →
  does w (recovery_enable lang) tr w' (Ok tt) →
  ∃ key, fs_recovery w' = Some (key, with_key data key) ∧ IO (WriteTerminal (code_line lang key)) true ∈ tr.
Proof.
  intros Hm Hk (t1 & w1 & m & t2 & -> & H1 & H)%does_try. apply does_ReadSecret in H1 as (-> & _).
  apply does_deferred in H as (t3 & w2 & _ & Hin & H & Hs); [|done..].
  apply does_vault in H as (d & t4 & _ & Hin4 & Hd & H). cbn [fs_vault] in Hd. rewrite Hm in Hd. injection Hd as <- <-.
  unfold not_empty in H. rewrite Hk in H. cbn [str_is_empty negb] in H.
  destruct H as ([key|] & w4 & t5 & -> & Ha & H); [|by destruct H as (? & ? & ? & _ & _ & _ & _ & [=])].
  simpl in Ha. case_match; [|done]. injection Ha as <-.
  apply does_deferred in H as (t6 & w5 & _ & Hin5 & H & Hs5); [|done..].
  apply does_ensure in H as (t7 & w6 & t8 & -> & _ & H). apply does_ensure in H as (t9 & w7 & t10 & -> & Hsave & H).
  apply does_saveVault in Hsave as [_ Hrec].
  apply does_ensure in H as (t11 & w8 & t12 & -> & (b & w9 & t13 & -> & [= <-] & -> & -> & ->) & (-> & -> & _)).
  exists key. split.
  - destruct Hs as (_ & _ & -> & _), Hs5 as (_ & _ & -> & _). done.
  - apply elem_of_app. right. apply Hin, Hin4. right. apply Hin5. set_solver.
Qed.

(** C19: Restoring after enabling: when [recovery enable] reported success on a vault
    without a recovery key, it showed a key; whatever became of the configuration
    and the vault since, a [recovery restore] that reports success with the copy it
    made was given a code that decodes to that key, and one new password, typed
    twice without an echo; it leaves a vault with the same servers under exactly
    that password, and changes nothing else.  One that reports an error leaves the
    vault as it is, unless two calls failed. *)
Theorem restore_after_enable lang w w1 w2 w3 tr1 tr2 r master data
    (vault : fs_main w = Some (master, data)) (fresh : da_recovery_key data = "")
    (enable : does w (recoveryCommand lang ["enable"]) tr1 w1 (Ok tt)) (copy : fs_recovery w2 = fs_recovery w1)
    (restore : does w2 (recoveryCommand lang ["restore"]) tr2 w3 r) :
  fs_config w3 = fs_config w2 ∧ fs_recovery w3 = fs_recovery w2 ∧ fs_archive w3 = fs_archive w2 ∧
  match r with
  | Ok _ => ∃ key code line again,
      String.length key = 32%nat ∧ IO (WriteTerminal (code_line lang key)) true ∈ tr1 ∧
      typed tr2 = [code; line; again] ∧ raw_url_decode (trimLineEnding code) = Some key ∧
      trimLineEnding again = trimLineEnding line ∧
      fs_main w3 = Some (trimLineEnding line, with_key data key)
  | Fail _ => (fs_faults w3 ≤ S (fs_faults w2))%nat → fs_main w3 = fs_main w2
  end.
Proof.
  assert (enables w w1 (Ok tt)) as [_ (m & d & Hm & He)].
  { refine (keeps_halts _ _ _ _ _ _ _ (does_halts _ _ _ _ _ _ enable)).
    eapply (keeps_recoveryCommand lang (λ _, True)); [set_solver|done|by intros ?|done|apply enables_settles| |apply keeps_enable].
    intros e. by apply enables_untouched, untouched_refl. }
  assert (restores w2 w3 r) as (_ & Hc & Hr & Ha & Hres).
  { refine (keeps_halts _ _ _ _ _ _ _ (does_halts _ _ _ _ _ _ restore)).
    eapply (keeps_recoveryCommand lang (λ _, True)); [set_solver|done|by intros ?|done|apply restores_settles| |apply keeps_recovery_restore].
    intros e. by apply restores_untouched, untouched_refl. }
  split_and!; [done..|]. destruct r as [[]|e]; [|done].
  rewrite vault in Hm. injection Hm as <- <-. rewrite fresh in He. destruct He as (key & Hl & _ & _ & _ & Hrec).
  eapply does_recoveryCommand in enable as (t1 & w1' & _ & Hin1 & Hen & (_ & _ & Hrec1 & _)); [|set_solver|done].
  eapply does_enable in Hen as (key1 & Hk1 & Hshown); [|done..].
  assert (key1 = key) as -> by congruence.
  eapply does_recoveryCommand in restore as (t2 & w3' & Ht2 & _ & Hre & (_ & Hm3 & _)); [|set_solver|done].
  apply does_restore in Hre as (code & line & again & key2 & data2 & Htyped & Hagain & Hcode & Hr2 & Hm2).
  assert (key2 = key ∧ data2 = with_key data key) as [-> ->] by (split; congruence).
  exists key, code, line, again. split_and!; [done|by apply Hin1|by rewrite Ht2|done|done|by rewrite Hm3].
Qed.

(** ** Sample runs *)

Definition no_files : files := Files None None None [] 0 false.

Definition init_script : list string := ["master"; "master"].
Definition init_run := played None init_script no_files (initialize languageEnglish) (Fail ErrStorage).

Lemma init_plays : bool_decide (is_Some (play None init_script no_files (initialize languageEnglish))) = true.
Proof. vm_compute. reflexivity. Qed.

Lemma initialize_outcome_witness : initializes no_files (snd (fst init_run)) (snd init_run).
Proof. exact (initialize_outcome _ _ _ _ (proj1 (played_ok _ _ _ _ _ init_plays))). Defined.

Example init_fresh : snd (fst init_run) = fresh_files ∧ snd init_run = Ok tt.
Proof. by vm_compute. Qed.

Definition enable_run bad w := played bad ["master"] w (recoveryCommand languageEnglish ["enable"]) (Fail ErrStorage).

(** The vault is lost after its data was copied. *)
Definition lost_files : files := set_vault MainVault (snd (fst (enable_run None fresh_files))) None.

Definition restore_script : list string := [raw_url_encode sample_key; "new master"; "new master"].
Definition restore_run := played None restore_script lost_files (recoveryCommand languageEnglish ["restore"]) (Fail ErrStorage).

Lemma enable_halts bad w :
  bool_decide (is_Some (play bad ["master"] w (recoveryCommand languageEnglish ["enable"]))) = true →
  halts w (recoveryCommand languageEnglish ["enable"]) (snd (fst (enable_run bad w))) (snd (enable_run bad w)).
Proof. intros Hp. exact (proj1 (played_ok _ _ _ _ _ Hp)). Qed.

Lemma restore_plays : bool_decide (is_Some (play None restore_script lost_files (recoveryCommand languageEnglish ["restore"]))) = true.
Proof. vm_compute. reflexivity. Qed.

Lemma enable_plays : bool_decide (is_Some (play None ["master"] fresh_files (recoveryCommand languageEnglish ["enable"]))) = true.
Proof. vm_compute. reflexivity. Qed.

Lemma restore_after_enable_witness :
  ∃ key code line again,
    String.length key = 32%nat ∧ IO (WriteTerminal (code_line languageEnglish key)) true ∈ fst (fst (enable_run None fresh_files)) ∧
    typed (fst (fst restore_run)) = [code; line; again] ∧ raw_url_decode (trimLineEnding code) = Some key ∧
    trimLineEnding again = trimLineEnding line ∧
    fs_main (snd (fst restore_run)) = Some (trimLineEnding line, with_key empty_vault key).
Proof.
  refine (proj2 (proj2 (proj2 (restore_after_enable languageEnglish fresh_files (snd (fst (enable_run None fresh_files)))
    lost_files (snd (fst restore_run)) (fst (fst (enable_run None fresh_files))) (fst (fst restore_run)) (Ok tt) "master" empty_vault
    eq_refl eq_refl _ eq_refl _)))).
  - replace (Ok tt) with (snd (enable_run None fresh_files)) by (vm_compute; reflexivity).
    exact (played_does None _ _ _ _ enable_plays).
  - replace (Ok tt) with (snd restore_run) by (vm_compute; reflexivity).
    exact (played_does None _ _ _ _ restore_plays).
Defined.

Example restored_under : fs_main (snd (fst restore_run)) = Some ("new master", with_key empty_vault sample_key).
Proof. vm_compute. reflexivity. Qed.

(** ** Two flaws *)

(** When the first [recovery enable] stores the key in the vault and fails to
    write the copy, the next one shows the code and reports success, and there is
    no copy that the code could restore. *)
Theorem enable_without_copy :
  ∃ w1 e w2, halts fresh_files (recoveryCommand languageEnglish ["enable"]) w1 (Fail e) ∧
    halts w1 (recoveryCommand languageEnglish ["enable"]) w2 (Ok tt) ∧ fs_recovery w2 = None ∧
    halts w2 (recoveryCommand languageEnglish ["restore"]) w2 (Fail ErrRecoveryUnavailable).
Proof.
  pose (r1 := enable_run (Some RecoveryVault) fresh_files). pose (w1 := snd (fst r1)).
  pose (w2 := snd (fst (enable_run None w1))).
  exists w1, ErrStorage, w2. split_and!.
  - replace (Fail ErrStorage) with (snd r1) by (vm_compute; reflexivity). apply enable_halts. vm_compute. reflexivity.
  - replace (Ok tt) with (snd (enable_run None w1)) by (vm_compute; reflexivity). apply enable_halts. vm_compute. reflexivity.
  - vm_compute. reflexivity.
  - pose (r3 := played None [] w2 (recoveryCommand languageEnglish ["restore"]) (Fail ErrStorage)).
    assert (bool_decide (is_Some (play None [] w2 (recoveryCommand languageEnglish ["restore"]))) = true) as Hp by (vm_compute; reflexivity).
    assert (snd (fst r3) = w2 ∧ snd r3 = Fail ErrRecoveryUnavailable) as [H1 H2] by (by vm_compute).
    rewrite <- H1 at 2. rewrite <- H2. exact (proj1 (played_ok _ _ _ _ _ Hp)).
Qed.

(** [recovery enable] reads and writes the vault without the lock that the
    commands on servers hold, so that one of them may store what it had loaded
    before. *)
Theorem recovery_takes_no_lock :
  ∃ tr, runs (recoveryCommand languageEnglish ["enable"]) tr (Ok tt) ∧ watch lock_monitor free tr = Reject.
Proof.
  exists (fst (fst (enable_run None fresh_files))). split; [|vm_compute; reflexivity].
  replace (Ok tt) with (snd (enable_run None fresh_files)) by (vm_compute; reflexivity).
  refine (proj2 (played_ok _ _ _ _ _ _)). vm_compute. reflexivity.
Qed.
