(* ===== verification/SshClient.v ===== *)
(** * The SSH client: [internal/sshclient/client.go]

    What the client decides by itself: the validation of a request, the
    authentication method, the mapping of failures to public errors, the
    budget shared by the two output writers, and the cache of connections.
    The SSH library is not modelled: a connection is an identity.  Here are the
    critical sections of the cache; [SshExecute] has the calls made of them. *)

From S2P Require Import Prelude GoStr Utf8 Model Vault.
From Stdlib Require Import Ascii.
Open Scope string_scope.
Open Scope list_scope.

Record Limits := { l_timeout : Z; l_max_output : Z }.

Definition maxTimeout : Z := 30 * 60 * 1000000000.
Definition maxOutputBytes : Z := Z.shiftl 4 20.
Definition maxCommandBytes : Z := Z.shiftl 128 10.
Definition authenticationErr : string := "unable to authenticate".
Definition connectionIdleTimeout : Z := 60 * 1000000000.

Record Result := {
  r_stdout : string;
  r_stderr : string;
  r_exit_code : Z;
  r_truncated : bool }.

Definition zero_Result : Result :=
  {| r_stdout := ""; r_stderr := ""; r_exit_code := 0; r_truncated := false |}.

(** ** Validation *)

Definition validAuthentication (secret : ServerSecret) : bool :=
  let m := EffectiveAuthMethod secret in
  if String.eqb m AuthMethodPassword then
    negb (slen (ss_password secret) =? 0)%Z && (slen (ss_private_key secret) =? 0)%Z
    && (slen (ss_private_key_passphrase secret) =? 0)%Z
  else if String.eqb m AuthMethodPrivateKey then
    (slen (ss_password secret) =? 0)%Z && negb (slen (ss_private_key secret) =? 0)%Z
  else false.

Definition valid (secret : ServerSecret) (command : string) (limits : Limits) : bool :=
  negb (str_is_empty (trim_space (ss_host secret)))
  && negb (ss_port secret =? 0)%Z
  && negb (str_is_empty (trim_space (ss_user secret)))
  && validAuthentication secret
  && negb (str_is_empty (trim_space (ss_host_fingerprint secret)))
  && negb (str_is_empty command)
  && (slen command <=? maxCommandBytes)%Z
  && (0 <? l_timeout limits)%Z && (l_timeout limits <=? maxTimeout)%Z
  && (0 <? l_max_output limits)%Z && (l_max_output limits <=? maxOutputBytes)%Z.

(** The method offered to the server.  [parse] is the library's private key
    parser, given the key and the passphrase when there is one. *)
Inductive ssh_auth (signer : Type) :=
| PasswordAuth (password : string)
| PublicKeyAuth (s : signer).
Arguments PasswordAuth {signer} password.
Arguments PublicKeyAuth {signer} s.

Definition authenticationMethod {signer} (parse : string → option string → option signer)
    (secret : ServerSecret) : result CodedError (ssh_auth signer) :=
  let m := EffectiveAuthMethod secret in
  if String.eqb m AuthMethodPassword then Ok (PasswordAuth (ss_password secret))
  else if String.eqb m AuthMethodPrivateKey then
    let parsed :=
      if (slen (ss_private_key_passphrase secret) =? 0)%Z then parse (ss_private_key secret) None
      else parse (ss_private_key secret) (Some (ss_private_key_passphrase secret)) in
    match parsed with
    | None => Fail ErrAuthentication
    | Some s => Ok (PublicKeyAuth s)
    end
  else Fail ErrValidation.

(** ** Public errors *)

(** [ctx_err] is [ctx.Err() != nil]. *)
Definition connectionError (ctx_err : bool) : CodedError :=
  if ctx_err then ErrTimeout else ErrConnection.

Definition handshakeError (ctx_err : bool) (err : string) (hostKeyRejected : bool) : CodedError :=
  if ctx_err then ErrTimeout
  else if hostKeyRejected then ErrHostKey
  else if str_contains err authenticationErr then ErrAuthentication
  else ErrConnection.

(** The host key callback: the fingerprint of the offered key against the
    pinned one ([subtle.ConstantTimeCompare] is equality of byte strings). *)
Definition hostKeyAccepted (secret : ServerSecret) (actual : string) : bool :=
  String.eqb actual (ss_host_fingerprint secret).

(** ** The output budget *)

Record outputBudget := { ob_remaining : Z; ob_truncated : bool }.

Inductive out_stream := Stdout | Stderr.

(** The budget and the buffers of the two writers. *)
Record output := { o_budget : outputBudget; o_stdout : string; o_stderr : string }.

Definition output_init (maxOutputBytes : Z) : output :=
  {| o_budget := {| ob_remaining := maxOutputBytes; ob_truncated := false |};
     o_stdout := ""; o_stderr := "" |}.

(** [boundedWriter.Write]; returns the number of bytes reported as written. *)
Definition boundedWriter_Write (o : output) (w : out_stream) (p : string) : output * Z :=
  let accepted := Z.min (slen p) (ob_remaining (o_budget o)) in
  let piece := if (0 <? accepted)%Z then str_take (Z.to_nat accepted) p else "" in
  let remaining :=
    if (0 <? accepted)%Z then (ob_remaining (o_budget o) - accepted)%Z else ob_remaining (o_budget o) in
  let truncated := if (accepted <? slen p)%Z then true else ob_truncated (o_budget o) in
  ({| o_budget := {| ob_remaining := remaining; ob_truncated := truncated |};
      o_stdout := match w with Stdout => o_stdout o +:+ piece | Stderr => o_stdout o end;
      o_stderr := match w with Stderr => o_stderr o +:+ piece | Stdout => o_stderr o end |},
   slen p).

Definition collectResult (o : output) : Result := {|
  r_stdout := o_stdout o; r_stderr := o_stderr o; r_exit_code := 0;
  r_truncated := ob_truncated (o_budget o) |}.

(** The writes of a session, in the order the budget's mutex serializes them. *)
Definition session_output (maxOutputBytes : Z) (writes : list (out_stream * string)) : output :=
  foldl (λ o '(w, p), fst (boundedWriter_Write o w p)) (output_init maxOutputBytes) writes.

(** ** The connection cache *)

(** The bytes hashed into the key of a connection. *)
Definition connectionKey_input (secret : ServerSecret) : string :=
  let nul := String "000" "" in
  ss_host secret +:+ nul +:+ itoa_nonneg (ss_port secret) +:+ nul +:+ ss_user secret +:+ nul
  +:+ ss_host_fingerprint secret +:+ ss_password secret +:+ ss_private_key secret
  +:+ ss_private_key_passphrase secret.

Section cache.
(** [sha256.Sum256]. *)
Context (sha256 : string → string).

Definition connectionKey (secret : ServerSecret) : string := sha256 (connectionKey_input secret).

Record cachedConnection := { cc_client : nat; cc_last_used : Z }.

Record Client := {
  cl_connections : gmap string cachedConnection;
  cl_generation : Z;
  cl_closed : gset nat }.

Definition New : Client := {| cl_connections := ∅; cl_generation := 0; cl_closed := ∅ |}.

Definition expired_connection (now : Z) (item : cachedConnection) : bool :=
  (connectionIdleTimeout <? now - cc_last_used item)%Z.

(** [delete] and [Close] of every idle connection. *)
Definition drop_idle (c : Client) (now : Z) : Client := {|
  cl_connections := filter (λ p, expired_connection now p.2 = false) (cl_connections c);
  cl_generation := cl_generation c;
  cl_closed := list_to_set (cc_client ∘ snd <$>
      filter (λ p, expired_connection now p.2 = true) (map_to_list (cl_connections c))) ∪ cl_closed c |}.

Inductive lookup_outcome := Cached (client : nat) | Dial (generation : Z).

#[export] Instance lookup_outcome_eq_dec : EqDecision lookup_outcome.
Proof. solve_decision. Defined.

(** [getClient] up to the release of the mutex before dialing. *)
Definition getClient_begin (c : Client) (key : string) (now : Z) : Client * lookup_outcome :=
  let generation := cl_generation c in
  let c := drop_idle c now in
  match cl_connections c !! key with
  | Some item =>
      ({| cl_connections := <[key := {| cc_client := cc_client item; cc_last_used := now |}]> (cl_connections c);
          cl_generation := cl_generation c; cl_closed := cl_closed c |}, Cached (cc_client item))
  | None => (c, Dial generation)
  end.

(** What became of the new connection. *)
Inductive store_outcome := Stored | Present (client : nat) | Outdated.

#[export] Instance store_outcome_eq_dec : EqDecision store_outcome.
Proof. solve_decision. Defined.

(** [getClient] after the handshake gave [newClient], up to the release of the
    mutex.  A connection that is not stored is closed after it. *)
Definition getClient_store (c : Client) (key : string) (generation : Z) (newClient : nat) (now : Z)
  : Client * store_outcome :=
  if negb (generation =? cl_generation c)%Z then (c, Outdated)
  else match cl_connections c !! key with
  | Some item => (c, Present (cc_client item))
  | None =>
      ({| cl_connections := <[key := {| cc_client := newClient; cc_last_used := now |}]> (cl_connections c);
          cl_generation := cl_generation c; cl_closed := cl_closed c |}, Stored)
  end.

(** [client.Close()] of one connection, which takes no mutex. *)
Definition close_client (c : Client) (client : nat) : Client := {|
  cl_connections := cl_connections c; cl_generation := cl_generation c;
  cl_closed := {[client]} ∪ cl_closed c |}.

Definition evict (c : Client) (key : string) (client : nat) : Client :=
  match cl_connections c !! key with
  | Some item =>
      if Nat.eqb (cc_client item) client then
        {| cl_connections := delete key (cl_connections c); cl_generation := cl_generation c;
           cl_closed := cl_closed c |}
      else c
  | None => c
  end.

(** [c.generation] is a [uint64]. *)
Definition Close (c : Client) : Client := {|
  cl_connections := ∅;
  cl_generation := ((cl_generation c + 1) mod 2 ^ 64)%Z;
  cl_closed := list_to_set (cc_client ∘ snd <$> map_to_list (cl_connections c)) ∪ cl_closed c |}.
End cache.

(** ** Theorems *)

(** What one write does: the accepted piece goes to its stream. *)
Definition accepted_piece (o : output) (p : string) : string :=
  str_take (Z.to_nat (Z.min (slen p) (ob_remaining (o_budget o)))) p.

Lemma slen_accepted_piece o p :
  (0 ≤ ob_remaining (o_budget o))%Z →
  slen (accepted_piece o p) = Z.min (slen p) (ob_remaining (o_budget o)).
Proof. intros. unfold accepted_piece, slen in *. rewrite str_length_take. lia. Qed.

Lemma boundedWriter_Write_spec o w p :
  (0 ≤ ob_remaining (o_budget o))%Z →
  fst (boundedWriter_Write o w p) = {|
    o_budget := {| ob_remaining := ob_remaining (o_budget o) - slen (accepted_piece o p);
                   ob_truncated := ob_truncated (o_budget o) || (slen (accepted_piece o p) <? slen p)%Z |};
    o_stdout := o_stdout o +:+ match w with Stdout => accepted_piece o p | Stderr => "" end;
    o_stderr := o_stderr o +:+ match w with Stderr => accepted_piece o p | Stdout => "" end |}.
Proof.
  intros Hr. pose proof (slen_accepted_piece o p Hr) as Hl. pose proof (slen_nonneg p) as Hp.
  unfold boundedWriter_Write. cbn [fst]. rewrite <- Hl.
  assert ((if (0 <? slen (accepted_piece o p))%Z
           then str_take (Z.to_nat (slen (accepted_piece o p))) p else "") = accepted_piece o p) as ->.
  { case_match; bool_hyps; [by rewrite Hl|]. symmetry. apply slen_empty. lia. }
  f_equal.
  - f_equal; [case_match; bool_hyps; lia|]. case_match; by rewrite ?orb_true_r, ?orb_false_r.
  - destruct w; [done|by rewrite str_app_nil_r].
  - destruct w; [by rewrite str_app_nil_r|done].
Qed.

(** The part of the writes that belongs to one stream. *)
Definition stream_writes (w : out_stream) (writes : list (out_stream * string)) : string :=
  foldr (λ '(w', p) s, match w, w' with
                       | Stdout, Stdout | Stderr, Stderr => p +:+ s
                       | _, _ => s
                       end) "" writes.

Lemma writes_from_spec l o0 :
  (0 ≤ ob_remaining (o_budget o0))%Z →
  (ob_truncated (o_budget o0) = true → ob_remaining (o_budget o0) = 0)%Z →
  let o := foldl (λ o '(w, p), fst (boundedWriter_Write o w p)) o0 l in
  (0 ≤ ob_remaining (o_budget o))%Z ∧
  (slen (o_stdout o) + slen (o_stderr o) + ob_remaining (o_budget o)
     = slen (o_stdout o0) + slen (o_stderr o0) + ob_remaining (o_budget o0))%Z ∧
  (ob_truncated (o_budget o) = false → ob_truncated (o_budget o0) = false ∧
     o_stdout o = o_stdout o0 +:+ stream_writes Stdout l ∧
     o_stderr o = o_stderr o0 +:+ stream_writes Stderr l) ∧
  (ob_truncated (o_budget o) = true → ob_remaining (o_budget o) = 0)%Z.
Proof.
  revert o0. induction l as [|[w p] l IH]; intros o0 Hr Ht; cbn zeta.
  { simpl. rewrite !str_app_nil_r. by repeat split. }
  cbn [foldl]. rewrite boundedWriter_Write_spec by done.
  pose proof (slen_nonneg p) as Hp. pose proof (slen_accepted_piece o0 p Hr) as Hl.
  match goal with |- context [foldl _ ?o1 l] => destruct (IH o1) as (H1 & H2 & H3 & H4) end;
    cbn [o_budget ob_remaining ob_truncated o_stdout o_stderr] in *; [lia| |].
  { intros [Htr|Htr]%orb_true_iff; bool_hyps; [specialize (Ht Htr)|apply Z.ltb_lt in Htr]; lia. }
  split; [done|]. split; [|split; [|done]].
  - rewrite H2, !slen_app. destruct w; change (slen "") with 0%Z; lia.
  - intros Hf. destruct (H3 Hf) as ([Hf1 Hf2]%orb_false_iff & -> & ->). split; [done|].
    apply Z.ltb_ge in Hf2. assert (accepted_piece o0 p = p) as ->.
    { unfold accepted_piece. apply str_take_all. unfold slen in *. lia. }
    destruct w; simpl; by rewrite !str_app_assoc, ?str_app_nil_r.
Qed.

(** The two outputs together never exceed the request's limit, they are
    the complete outputs when the result is not marked truncated, and when it is
    the whole budget was used: nothing is dropped silently and nothing is
    dropped early. *)
Theorem outputs_share_budget max writes :
  (0 ≤ max)%Z →
  let r := collectResult (session_output max writes) in
  (slen (r_stdout r) + slen (r_stderr r) ≤ max)%Z ∧
  (r_truncated r = false →
     r_stdout r = stream_writes Stdout writes ∧ r_stderr r = stream_writes Stderr writes) ∧
  (r_truncated r = true → slen (r_stdout r) + slen (r_stderr r) = max)%Z.
Proof.
  intros Hmax. destruct (writes_from_spec writes (output_init max)) as (H1 & H2 & H3 & H4); [done..|].
  fold (session_output max writes) in *. cbn zeta. unfold collectResult.
  cbn [output_init o_stdout o_stderr o_budget ob_remaining r_stdout r_stderr r_truncated] in *.
  change (slen "") with 0%Z in H2. split; [lia|]. split; [|intros Ht; specialize (H4 Ht); lia].
  intros Hf. by destruct (H3 Hf) as (_ & ? & ?).
Qed.

Lemma outputs_share_budget_witness :
  let r := collectResult (session_output 5 [(Stdout, "abc"); (Stderr, "defg"); (Stdout, "h")]) in
  r_truncated r = true ∧ (slen (r_stdout r) + slen (r_stderr r) = 5)%Z.
Proof.
  split; [vm_compute; reflexivity|].
  apply (outputs_share_budget 5 [(Stdout, "abc"); (Stderr, "defg"); (Stdout, "h")]);
    [lia|vm_compute; reflexivity].
Defined.

(** *** The cache of connections *)

Lemma drop_idle_lookup c now key item :
  cl_connections (drop_idle c now) !! key = Some item ↔
  cl_connections c !! key = Some item ∧ expired_connection now item = false.
Proof. simpl. by rewrite map_lookup_filter_Some. Qed.

Lemma drop_idle_closed c now client : client ∈ cl_closed (drop_idle c now) ↔
  client ∈ cl_closed c ∨ ∃ key item, cl_connections c !! key = Some item ∧ expired_connection now item = true ∧ cc_client item = client.
Proof.
  simpl. rewrite elem_of_union, elem_of_list_to_set, list_elem_of_fmap. split.
  - intros [([key item] & -> & Hi)|]; [|by left]. apply list_elem_of_filter in Hi as [He Hm].
    apply elem_of_map_to_list in Hm. right. by exists key, item.
  - intros [|(key & item & Hm & He & <-)]; [by right|left]. exists (key, item). split; [done|].
    apply list_elem_of_filter. split; [done|]. by apply elem_of_map_to_list.
Qed.

(** The key of a cached connection does not separate the host fingerprint
    from the credentials, nor the credentials from each other: two secrets the
    client accepts, with different pinned fingerprints and different passwords,
    hash the same bytes and so share one connection. *)
Theorem connectionKey_collision sha256 :
  ∃ s1 s2 : ServerSecret,
    ss_host_fingerprint s1 ≠ ss_host_fingerprint s2 ∧ ss_password s1 ≠ ss_password s2 ∧
    (∀ command limits, valid s1 command limits = valid s2 command limits) ∧
    (∀ limits, (0 < l_timeout limits ≤ maxTimeout)%Z → (0 < l_max_output limits ≤ maxOutputBytes)%Z →
       valid s1 "id" limits = true) ∧
    connectionKey sha256 s1 = connectionKey sha256 s2.
Proof.
  exists {| ss_host := "h"; ss_port := 22; ss_user := "u"; ss_auth_method := "password";
            ss_password := "Apw"; ss_private_key := ""; ss_private_key_passphrase := "";
            ss_host_fingerprint := "SHA256:x" |},
         {| ss_host := "h"; ss_port := 22; ss_user := "u"; ss_auth_method := "password";
            ss_password := "pw"; ss_private_key := ""; ss_private_key_passphrase := "";
            ss_host_fingerprint := "SHA256:xA" |}.
  split; [done|]. split; [done|]. split; [done|]. split; [|done].
  intros [t m] Ht Hm. unfold valid. cbn [l_timeout l_max_output] in *.
  repeat (apply andb_true_iff; split); try reflexivity; first [apply Z.leb_le|apply Z.ltb_lt]; lia.
Qed.
