(* ===== verification/SshExecute.v ===== *)
(** * Calls of the SSH client: [internal/sshclient/client.go]

    [Execute], the goroutine it starts to watch its context, and [Close], each
    as a tree of calls: the clock, the network and the SSH library, and the
    critical sections of the cache ([SshClient]).  Any number of them run on one
    cache, their calls in any order.  Closing a connection and evicting it are
    two calls, and others come between them. *)

From S2P Require Import Prelude GoStr Prog Model Vault SshClient.
Open Scope string_scope.
Open Scope list_scope.

(** What [ssh.NewClientConn] did: the fingerprint of the key the server offered,
    if it came to that, and the text of its error. *)
Record handshake_result := { hs_offered : option string; hs_error : option string }.

(** What [session.Run] returned. *)
Inductive run_end := RunOk | RunExit (status : Z) | RunFailed.

(** What became of a new connection, its identity, and the time read when it
    was stored. *)
Record store_result := { st_client : nat; st_now : Z; st_outcome : store_outcome }.

Section execute.
Context {signer : Type}.

Inductive ssh_op : Type → Type :=
| Now : ssh_op Z
| WithTimeout (d : Z) : ssh_op unit
| CancelContext : ssh_op unit
| ContextErr : ssh_op bool
| CacheLookup (key : string) (now : Z) : ssh_op lookup_outcome
| DialTCP (host : string) (port : Z) : ssh_op bool
| Handshake (user : string) (auth : ssh_auth signer) (accepts : string → bool) : ssh_op handshake_result
| CloseConn : ssh_op unit
| CacheStore (key : string) (generation : Z) : ssh_op store_result
| CloseClient (client : nat) : ssh_op unit
| CacheEvict (key : string) (client : nat) : ssh_op unit
| StartWatch (key : string) (client : nat) : ssh_op unit
| StopWatch : ssh_op unit
| AwaitWatch : ssh_op (option (string * nat))
| NewSession (client : nat) : ssh_op bool
| RunCommand (command : string) : ssh_op (option run_end)
| AwaitRun : ssh_op unit
| SessionWrites : ssh_op (list (out_stream * string))
| CloseSession : ssh_op unit
| CacheClose : ssh_op unit.

Abbreviation calls := (prog ssh_op).

(** [parse] is the library's private key parser, [sha256] is [sha256.Sum256],
    and [connect_timeout] the field of the client, 0 for [New]. *)
Context (parse : string → option string → option signer) (sha256 : string → string) (connect_timeout : Z).

(** After the cache had no connection. *)
Definition dial (secret : ServerSecret) (auth : ssh_auth signer) (key : string) (generation : Z) : calls (result CodedError nat) :=
  reached ← trigger (DialTCP (ss_host secret) (ss_port secret));
  if negb reached then ended ← trigger ContextErr; Ret (Fail (connectionError ended))
  else
    h ← trigger (Handshake (ss_user secret) auth (hostKeyAccepted secret));
    match hs_error h with
    | Some err =>
        _ ← trigger CloseConn;
        ended ← trigger ContextErr;
        let rejected := match hs_offered h with Some actual => negb (hostKeyAccepted secret actual) | None => false end in
        Ret (Fail (handshakeError ended err rejected))
    | None =>
        r ← trigger (CacheStore key generation);
        match st_outcome r with
        | Stored => Ret (Ok (st_client r))
        | Present client => _ ← trigger (CloseClient (st_client r)); Ret (Ok client)
        | Outdated => _ ← trigger (CloseClient (st_client r)); Ret (Fail ErrConnection)
        end
    end.

Definition getClient (secret : ServerSecret) (auth : ssh_auth signer) (timeout : Z) (key : string) : calls (result CodedError nat) :=
  now ← trigger Now;
  found ← trigger (CacheLookup key now);
  match found with
  | Cached client => Ret (Ok client)
  | Dial generation =>
      _ ← trigger (WithTimeout (if (connect_timeout <=? 0)%Z then timeout else connect_timeout));
      r ← dial secret auth key generation;
      _ ← trigger CancelContext;
      Ret r
  end.

Definition close_and_evict (key : string) (client : nat) : calls unit :=
  _ ← trigger (CloseClient client); trigger (CacheEvict key client).

(** A session on [client], up to the deferred calls. *)
Definition run_session (key : string) (client : nat) (command : string) (limits : Limits) : calls (Result * option CodedError) :=
  ended ← trigger (RunCommand command);
  match ended with
  | Some e =>
      _ ← trigger StopWatch;
      writes ← trigger SessionWrites;
      let o := session_output (l_max_output limits) writes in
      match e with
      | RunOk => Ret (collectResult o, None)
      | RunExit status =>
          Ret ({| r_stdout := o_stdout o; r_stderr := o_stderr o; r_exit_code := status;
                  r_truncated := ob_truncated (o_budget o) |}, None)
      | RunFailed =>
          _ ← close_and_evict key client;
          late ← trigger ContextErr;
          Ret (collectResult o, Some (connectionError late))
      end
  | None =>
      _ ← trigger CloseSession;
      _ ← close_and_evict key client;
      _ ← trigger AwaitRun;
      writes ← trigger SessionWrites;
      Ret (collectResult (session_output (l_max_output limits) writes), Some ErrTimeout)
  end.

(** Once there is a connection; the watch and the context are ended by deferred
    calls. *)
Definition run_on (key : string) (client : nat) (command : string) (limits : Limits) : calls (Result * option CodedError) :=
  _ ← trigger (WithTimeout (l_timeout limits));
  _ ← trigger (StartWatch key client);
  opened ← trigger (NewSession client);
  r ← (if negb opened then
         _ ← close_and_evict key client;
         late ← trigger ContextErr;
         Ret (zero_Result, Some (connectionError late))
       else deferred (run_session key client command limits) CloseSession);
  _ ← trigger StopWatch;
  _ ← trigger CancelContext;
  Ret r.

Definition Execute (secret : ServerSecret) (command : string) (limits : Limits) : calls (Result * option CodedError) :=
  if negb (valid secret command limits) then Ret (zero_Result, Some ErrValidation)
  else match authenticationMethod parse secret with
  | Fail err => Ret (zero_Result, Some err)
  | Ok auth =>
      let key := connectionKey sha256 secret in
      r ← getClient secret auth (l_timeout limits) key;
      match r with
      | Fail err => Ret (zero_Result, Some err)
      | Ok client => run_on key client command limits
      end
  end.

(** The goroutine [Execute] starts: [Some] when the context ended first. *)
Definition watch_context : calls unit :=
  ended ← trigger AwaitWatch;
  match ended with
  | Some (key, client) => close_and_evict key client
  | None => Ret tt
  end.

(** What runs at a name: a call of the client, or the goroutine that watches
    the context of the call of that number. *)
Inductive goroutine : nat * bool → calls (option (Result * option CodedError)) → Prop :=
| runs_execute i secret command limits : goroutine (i, false) (r ← Execute secret command limits; Ret (Some r))
| runs_close i : goroutine (i, false) (_ ← trigger CacheClose; Ret (@None (Result * option CodedError)))
| runs_watch i : goroutine (i, true) (_ ← watch_context; Ret (@None (Result * option CodedError))).

(** ** The cache they share *)

(** Besides the cache: the key each connection was made for, the watches that
    were started and those that were stopped, and, of a goroutine, the
    connection it closed and has not evicted. *)
Record world := World {
  w_cache : Client;
  w_known : gmap nat string;
  w_watch : gmap nat (string * nat);
  w_stopped : gset nat;
  w_closing : gmap (nat * bool) nat }.

Definition fresh_world : world := World New ∅ ∅ ∅ ∅.

Definition with_cache (w : world) (c : Client) : world := World c (w_known w) (w_watch w) (w_stopped w) (w_closing w).
Definition with_closing (w : world) (c : Client) (m : gmap (nat * bool) nat) : world :=
  World c (w_known w) (w_watch w) (w_stopped w) m.

Definition when (b : bool) (w : world) : option world := if b then Some w else None.

(** [acts i w e x]: the world after the goroutine [i] calls [e] and is answered
    [x].  The clock, the network and the library answer anything; but a
    handshake ends well only with a key the callback accepted, a new connection
    is none of those before, and a watch sees what was done to it. *)
Definition acts (i : nat * bool) {X} (w : world) (e : ssh_op X) : X → option world :=
  match e in ssh_op X return X → option world with
  | CacheLookup key now => λ x,
      let '(c, y) := getClient_begin (w_cache w) key now in when (bool_decide (x = y)) (with_cache w c)
  | Handshake _ _ accepts => λ h,
      match hs_error h with
      | None => when (match hs_offered h with Some actual => accepts actual | None => false end) w
      | Some _ => Some w
      end
  | CacheStore key generation => λ r,
      let '(c, y) := getClient_store (w_cache w) key generation (st_client r) (st_now r) in
      when (bool_decide (w_known w !! st_client r = None ∧ st_outcome r = y))
        (World c (<[st_client r := key]> (w_known w)) (w_watch w) (w_stopped w) (w_closing w))
  | CloseClient client => λ _, Some (with_closing w (close_client (w_cache w) client) (<[i := client]> (w_closing w)))
  | CacheEvict key client => λ _, Some (with_closing w (evict (w_cache w) key client) (delete i (w_closing w)))
  | StartWatch key client => λ _,
      Some (World (w_cache w) (w_known w) (<[i.1 := (key, client)]> (w_watch w)) (w_stopped w) (w_closing w))
  | StopWatch => λ _, Some (World (w_cache w) (w_known w) (w_watch w) ({[i.1]} ∪ w_stopped w) (w_closing w))
  | AwaitWatch => λ x,
      match w_watch w !! i.1 with
      | None => None
      | Some p => when (match x with Some q => bool_decide (q = p) | None => bool_decide (i.1 ∈ w_stopped w) end) w
      end
  | CacheClose => λ _, Some (with_cache w (Close (w_cache w)))
  | _ => λ _, Some w
  end.

(** A goroutine may wait for ever at any call. *)
Definition waits (i : nat * bool) (w : world) : world := w.

(** ** What a goroutine relies on *)

Definition uncached (c : Client) (client : nat) : Prop :=
  ∀ key item, cl_connections c !! key = Some item → cc_client item ≠ client.

(** Cached connections were made for their key, and one that is closed is being
    evicted; connections have a name only once; watches that close something
    were started. *)
Record world_inv (w : world) : Prop := {
  inv_cached key item : cl_connections (w_cache w) !! key = Some item →
    w_known w !! cc_client item = Some key ∧
    (cc_client item ∈ cl_closed (w_cache w) → ∃ j, w_closing w !! j = Some (cc_client item));
  inv_closed client : client ∈ cl_closed (w_cache w) → is_Some (w_known w !! client);
  inv_watch i key client : w_watch w !! i = Some (key, client) → w_known w !! client = Some key;
  inv_started i client : w_closing w !! (i, true) = Some client → is_Some (w_watch w !! i) }.

Record rely (i : nat * bool) (w w' : world) : Prop := {
  rely_inv : world_inv w → world_inv w';
  rely_known client key : w_known w !! client = Some key → w_known w' !! client = Some key;
  rely_watch j : is_Some (w_watch w !! j) → is_Some (w_watch w' !! j);
  rely_closing : w_closing w' !! i = w_closing w !! i;
  rely_uncached client : is_Some (w_known w !! client) → uncached (w_cache w) client → uncached (w_cache w') client }.

Lemma ssh_rely_refl i w : rely i w w.
Proof. by split. Qed.

Lemma ssh_rely_trans i w w' w'' : rely i w w' → rely i w' w'' → rely i w w''.
Proof.
  intros [I K W C U] [I' K' W' C' U']. split; [auto..|congruence|].
  intros client [key Hk] Hu. apply U'; [by exists key; apply K|]. apply U; [by exists key|done].
Qed.

Lemma waits_rely i j w : j ≠ i → rely j w (waits i w).
Proof. intros _. apply ssh_rely_refl. Qed.

(** A step that changes only the entries of the cache and what is closed. *)
Lemma rely_cache i w c : (world_inv w → world_inv (with_cache w c)) →
  (∀ client, is_Some (w_known w !! client) → uncached (w_cache w) client → uncached c client) → rely i w (with_cache w c).
Proof. by intros HI HU; split. Qed.

Lemma begin_spec c key now c' x : getClient_begin c key now = (c', x) →
  (∀ k item, cl_connections c' !! k = Some item → ∃ item0, cl_connections c !! k = Some item0 ∧
     cc_client item0 = cc_client item ∧ expired_connection now item0 = false) ∧
  cl_closed c' = cl_closed (drop_idle c now) ∧
  (∀ client, x = Cached client → ∃ item, cl_connections c' !! key = Some item ∧ cc_client item = client).
Proof.
  unfold getClient_begin. destruct (cl_connections (drop_idle c now) !! key) as [item|] eqn:Hi; intros [= <- <-].
  - split_and!; [|done|].
    + intros k it. cbn [cl_connections]. intros [[<- <-]|[_ Hk]]%lookup_insert_Some.
      * apply drop_idle_lookup in Hi as [Hi He]. by exists item.
      * apply drop_idle_lookup in Hk as [Hk He]. by exists it.
    + intros client [= <-]. eexists. split; [apply lookup_insert_eq|done].
  - split_and!; [|done|done]. intros k it [Hk He]%drop_idle_lookup. by exists it.
Qed.

Lemma begin_rely i w key now c x : getClient_begin (w_cache w) key now = (c, x) → rely i w (with_cache w c).
Proof.
  intros (Hc & Hcl & _)%begin_spec. apply rely_cache.
  - intros [IC ID IW IS]. split; cbn [with_cache w_cache w_known w_watch w_closing]; [|  |done|done].
    + intros k item Hk. destruct (Hc k item Hk) as (item0 & H0 & Heq & He). destruct (IC _ _ H0) as [Hkn Hd].
      rewrite Heq in Hkn, Hd. split; [done|]. rewrite Hcl, drop_idle_closed. intros [Hin|(k1 & it1 & H1 & He1 & Heq1)]; [by apply Hd|].
      destruct (IC _ _ H1) as [Hkn1 _]. assert (k1 = k) as -> by congruence. congruence.
    + intros client. rewrite Hcl, drop_idle_closed. intros [Hin|(k1 & it1 & H1 & _ & <-)]; [by apply ID|].
      destruct (IC _ _ H1). by eexists.
  - intros client _ Hu k item Hk. destruct (Hc k item Hk) as (item0 & H0 & <- & _). by eapply Hu.
Qed.

Lemma close_rely i w : rely i w (with_cache w (Close (w_cache w))).
Proof.
  apply rely_cache; [|by intros client _ _ k item; simpl; rewrite lookup_empty].
  intros [IC ID IW IS]. split; cbn [with_cache w_cache w_known w_watch w_closing]; [|  |done|done].
  - intros k item. simpl. by rewrite lookup_empty.
  - intros client. simpl. rewrite elem_of_union, elem_of_list_to_set, list_elem_of_fmap.
    intros [([k it] & -> & Hm%elem_of_map_to_list)|]; [|by apply ID]. destruct (IC _ _ Hm). by eexists.
Qed.

Definition stored (w : world) (c : Client) (client : nat) (key : string) : world :=
  World c (<[client := key]> (w_known w)) (w_watch w) (w_stopped w) (w_closing w).

Lemma store_spec c key generation client now c' x : getClient_store c key generation client now = (c', x) →
  cl_closed c' = cl_closed c ∧
  (∀ k item, cl_connections c' !! k = Some item →
     cl_connections c !! k = Some item ∨ (x = Stored ∧ k = key ∧ cc_client item = client)) ∧
  (∀ client', x = Present client' → ∃ item, cl_connections c !! key = Some item ∧ cc_client item = client').
Proof.
  unfold getClient_store. repeat case_match; intros [= <- <-]; split_and!; try done; try (by left; eauto).
  - intros client' [= <-]. by eexists.
  - intros k item. cbn [cl_connections]. intros [[<- <-]|[_ Hk]]%lookup_insert_Some; [by right|by left].
Qed.

Lemma store_rely i w key generation client now c x : w_known w !! client = None →
  getClient_store (w_cache w) key generation client now = (c, x) → rely i w (stored w c client key).
Proof.
  intros Hn (Hcl & Hc & _)%store_spec. split; try done.
  - intros [IC ID IW IS]. split; cbn [stored w_cache w_known w_watch w_closing]; [| | |done].
    + intros k item [Hk|(-> & -> & <-)]%Hc.
      * destruct (IC _ _ Hk) as [Hkn Hd]. rewrite Hcl. split; [|done].
        rewrite lookup_insert_ne; [done|]. intros ->. congruence.
      * split; [apply lookup_insert_eq|]. rewrite Hcl. intros [k Hk]%ID. congruence.
    + intros client'. rewrite Hcl. intros [k Hk]%ID. exists k. rewrite lookup_insert_ne; [done|]. intros ->. congruence.
    + intros n k client' Hw%IW. rewrite lookup_insert_ne; [done|]. intros ->. congruence.
  - intros client' k Hk. cbn [stored w_known]. rewrite lookup_insert_ne; [done|]. intros ->. congruence.
  - intros client' [k Hk] Hu k' item [Hk'|(-> & -> & Heq)]%Hc; [by eapply Hu|]. intros Heq'. congruence.
Qed.

(** *** What a goroutine knows on its way *)

Definition settled (i : nat * bool) (w : world) : Prop :=
  world_inv w ∧ ∀ client, w_closing w !! i = Some client → is_Some (w_known w !! client) ∧ uncached (w_cache w) client.

Definition started (i : nat * bool) (w : world) : Prop := i.2 = true → is_Some (w_watch w !! i.1).

(** It has the connection for the key. *)
Definition has (i : nat * bool) (key : string) (client : nat) (w : world) : Prop :=
  settled i w ∧ started i w ∧ w_known w !! client = Some key.

(** It has a connection that was not stored. *)
Definition spare (i : nat * bool) (client : nat) (w : world) : Prop :=
  settled i w ∧ started i w ∧ is_Some (w_known w !! client) ∧ uncached (w_cache w) client.

Definition evicting (i : nat * bool) (key : string) (client : nat) (w : world) : Prop :=
  world_inv w ∧ w_closing w !! i = Some client ∧ w_known w !! client = Some key.

Lemma settled_lasts i : stable rely i (settled i).
Proof.
  intros w w' [Hi Hc] Hr. split; [by eapply rely_inv|]. intros client. rewrite (rely_closing _ _ _ Hr).
  intros [[k Hk] Hu]%Hc. split; [exists k; by eapply rely_known|by eapply rely_uncached].
Qed.

Lemma started_lasts i : stable rely i (started i).
Proof. intros w w' Hs Hr Hi. by eapply rely_watch, Hs. Qed.

Lemma has_stable i key client : stable rely i (has i key client).
Proof.
  intros w w' (Hs & Hst & Hk) Hr.
  split_and!; [by eapply settled_lasts|by eapply started_lasts|by eapply rely_known].
Qed.

Lemma spare_stable i client : stable rely i (spare i client).
Proof.
  intros w w' (Hs & Hst & [k Hk] & Hu) Hr. split_and!; [by eapply settled_lasts|by eapply started_lasts| |].
  - exists k. by eapply rely_known.
  - eapply rely_uncached; [done| |done]. by exists k.
Qed.

Lemma evicting_stable i key client : stable rely i (evicting i key client).
Proof.
  intros w w' (Hi & Hc & Hk) Hr. split_and!; [by eapply rely_inv| |by eapply rely_known].
  by rewrite (rely_closing _ _ _ Hr).
Qed.

(** A goroutine with another name goes on relying on the world. *)
Lemma closing_rely i j w c m : j ≠ i → (world_inv w → world_inv (with_closing w c m)) → m !! j = w_closing w !! j →
  (∀ client, uncached (w_cache w) client → uncached c client) → rely j w (with_closing w c m).
Proof. intros Hne Hi Hm Hu. by split; auto. Qed.

Lemma close_inv i w client : settled i w → started i w → is_Some (w_known w !! client) →
  world_inv (with_closing w (close_client (w_cache w) client) (<[i := client]> (w_closing w))).
Proof.
  intros [[IC ID IW IS] Hset] Hst Hk. split; cbn [with_closing close_client w_cache w_known w_watch w_closing cl_connections cl_closed].
  - intros k item Hi. destruct (IC _ _ Hi) as [Hkn Hd]. split; [done|].
    destruct (decide (client = cc_client item)) as [->|Hne]; [intros _; exists i; apply lookup_insert_eq|].
    intros [Hin%elem_of_singleton|[j Hj]%Hd]%elem_of_union; [congruence|]. exists j.
    rewrite lookup_insert_ne; [done|]. intros <-. destruct (Hset _ Hj) as [_ Hu]. by destruct (Hu k item Hi).
  - intros c [->%elem_of_singleton|Hin]%elem_of_union; [done|by apply ID].
  - done.
  - intros n c [[Heq _]|[_ Hn]]%lookup_insert_Some; [|by eapply IS]. subst i. by apply Hst.
Qed.

Lemma evict_lookup c key client k item : cl_connections (evict c key client) !! k = Some item →
  cl_connections c !! k = Some item ∧ (k = key → cc_client item ≠ client).
Proof.
  unfold evict. destruct (cl_connections c !! key) as [it|] eqn:Hi; [destruct (Nat.eqb_spec (cc_client it) client)|]; simpl.
  - by intros [Hne Hk]%lookup_delete_Some.
  - intros Hk. split; [done|]. intros ->. congruence.
  - intros Hk. split; [done|]. intros ->. congruence.
Qed.

Lemma evict_closed c key client : cl_closed (evict c key client) = cl_closed c.
Proof. unfold evict. by repeat case_match. Qed.

Lemma evict_inv i w key client : evicting i key client w →
  world_inv (with_closing w (evict (w_cache w) key client) (delete i (w_closing w))).
Proof.
  intros ([IC ID IW IS] & Hc & Hk). split; cbn [with_closing w_cache w_known w_watch w_closing].
  - intros k item [Hi Hne]%evict_lookup. destruct (IC _ _ Hi) as [Hkn Hd]. split; [done|]. rewrite evict_closed.
    intros [j Hj]%Hd. exists j. rewrite lookup_delete_ne; [done|]. intros <-.
    apply Hne; congruence.
  - intros c. rewrite evict_closed. apply ID.
  - done.
  - intros n c [_ Hn]%lookup_delete_Some. by eapply IS.
Qed.

(** ** What each part leaves *)

Create HintDb ssh.
#[local] Hint Resolve settled_lasts started_lasts has_stable spare_stable evicting_stable ssh_rely_refl : ssh.

Abbreviation tri := (triple (@acts) rely).
Ltac tri_bind := eapply (triple_bind ssh_rely_refl).
Ltac tri_via M := refine (triple_bind ssh_rely_refl _ _ _ M _ _ _ _).

Lemma when_is b w w' : when b w = Some w' → b = true ∧ w' = w.
Proof. destruct b; [by intros [= ->]|done]. Qed.

(** A call whose effect every goroutine bears, its own included. *)
Definition calm {X} (i : nat * bool) (P : world → Prop) (e : ssh_op X) : Prop :=
  ∀ w x w', P w → acts i w e x = Some w' → ∀ j, rely j w w'.

Lemma calm_keeps {X} i P (e : ssh_op X) : stable rely i P → calm i P e → tri i P (trigger e) (λ _, P).
Proof.
  intros HP He. apply triple_call; [done..|]. intros w x w' Hw Ha. pose proof (He w x w' Hw Ha) as Hr.
  split; [intros j _; apply Hr|]. by eapply HP.
Qed.

Ltac asks := let Ha := fresh in intros ? ? ? _ Ha ?; simpl in Ha; repeat case_match; try apply when_is in Ha as [_ ->]; simplify_eq; apply ssh_rely_refl.

Lemma stop_calm i P : calm i P StopWatch.
Proof. intros w x w' _ [= <-] j. split; try done. by intros [IC ID IW IS]; split. Qed.

Lemma start_calm n key client : calm (n, false) (has (n, false) key client) (StartWatch key client).
Proof.
  intros w x w' (_ & _ & Hk) [= <-] j. split; try done.
  - intros [IC ID IW IS]. split; cbn [w_cache w_known w_watch w_closing]; [done|done| |].
    + intros m k c [[_ [= <- <-]]|[_ Hw]]%lookup_insert_Some; [done|by eapply IW].
    + intros m c [y Hw]%IS. destruct (decide (m = n)) as [->|Hne]; [rewrite lookup_insert_eq; by eexists|].
      rewrite lookup_insert_ne by done. by exists y.
  - intros m [y Hw]. cbn [w_watch]. destruct (decide (m = n)) as [->|Hne]; [rewrite lookup_insert_eq; by eexists|].
    rewrite lookup_insert_ne by done. by exists y.
Qed.

(** [settled], and able to close a connection. *)
Definition ready (i : nat * bool) (w : world) : Prop := settled i w ∧ started i w.

Lemma ready_stable i : stable rely i (ready i).
Proof. intros w w' [Hs Hst] Hr. split; [by eapply settled_lasts|by eapply started_lasts]. Qed.
#[local] Hint Resolve ready_stable : ssh.

Definition given (i : nat * bool) (key : string) (r : result CodedError nat) : world → Prop :=
  match r with Ok client => has i key client | Fail _ => ready i end.

Lemma given_stable i key r : stable rely i (given i key r).
Proof. destruct r; simpl; eauto with ssh. Qed.
#[local] Hint Resolve given_stable : ssh.

Definition found (i : nat * bool) (key : string) (x : lookup_outcome) : world → Prop :=
  match x with Cached client => has i key client | Dial _ => ready i end.

Lemma found_stable i key x : stable rely i (found i key x).
Proof. destruct x; simpl; eauto with ssh. Qed.
#[local] Hint Resolve found_stable : ssh.

Lemma lookup_ok i key now : tri i (ready i) (trigger (CacheLookup key now)) (found i key).
Proof.
  apply triple_call; [eauto with ssh..|]. intros w x w' Hw Ha. simpl in Ha.
  destruct (getClient_begin (w_cache w) key now) as [c y] eqn:Hb. apply when_is in Ha as [Hx%bool_decide_eq_true ->]. subst y.
  assert (∀ j, rely j w (with_cache w c)) as Hr by (intros j; by eapply begin_rely).
  split; [intros j _; apply Hr|]. pose proof (ready_stable i _ _ Hw (Hr i)) as [Hs Hst].
  destruct x as [client|g]; [|done]. split; [done|]. split; [done|].
  apply begin_spec in Hb as (_ & _ & Hc). destruct (Hc _ eq_refl) as (item & Hi & <-).
  by destruct Hs as [[IC _ _ _] _]; apply IC in Hi as [? _].
Qed.

(** The two connections there may be after the store. *)
Definition after_store (i : nat * bool) (key : string) (r : store_result) (w : world) : Prop :=
  match st_outcome r with
  | Stored => has i key (st_client r) w
  | Present client => has i key client w ∧ spare i (st_client r) w
  | Outdated => spare i (st_client r) w
  end.

Lemma after_store_stable i key r : stable rely i (after_store i key r).
Proof.
  unfold after_store. destruct (st_outcome r); [eauto with ssh| |eauto with ssh].
  intros w w' [Hh Hs] Hr. split; [by eapply has_stable|by eapply spare_stable].
Qed.
#[local] Hint Resolve after_store_stable : ssh.

Lemma store_ok i key generation : tri i (ready i) (trigger (CacheStore key generation)) (after_store i key).
Proof.
  apply triple_call; [eauto with ssh..|]. intros w [client now x] w' Hw Ha. simpl in Ha.
  destruct (getClient_store (w_cache w) key generation client now) as [c y] eqn:Hb.
  apply when_is in Ha as [[Hn Hx]%bool_decide_eq_true ->]. subst y. change (World _ _ _ _ _) with (stored w c client key).
  assert (∀ j, rely j w (stored w c client key)) as Hr by (intros j; by eapply store_rely).
  split; [intros j _; apply Hr|]. pose proof (ready_stable i _ _ Hw (Hr i)) as [Hs Hst].
  assert (∀ k item, cl_connections (w_cache w) !! k = Some item → cc_client item ≠ client) as Hnew.
  { intros k item Hi Heq. destruct Hw as [[[IC _ _ _] _] _]. apply IC in Hi as [Hi _]. congruence. }
  assert (w_known (stored w c client key) !! client = Some key) as Hk by apply lookup_insert_eq.
  apply store_spec in Hb as (_ & Hc & Hp). unfold after_store. simpl.
  assert (x ≠ Stored → spare i client (stored w c client key)) as Hspare.
  { intros Hx. split_and!; [done|done|by eexists|]. intros k item [Hi|(-> & _)]%Hc; [by eapply Hnew|done]. }
  destruct x as [|client'|]; [by split_and!| |by apply Hspare].
  split; [|by apply Hspare]. split_and!; [done..|]. destruct (Hp _ eq_refl) as (item & Hi & <-).
  destruct Hw as [[[IC _ _ _] _] _]. pose proof (Hnew _ _ Hi). cbn [stored w_known].
  rewrite lookup_insert_ne by done. by apply IC in Hi as [? _].
Qed.

(** Closing a connection that is not cached, and one that may be. *)
Lemma close_step i w client x w' : settled i w → started i w → is_Some (w_known w !! client) →
  acts i w (CloseClient client) x = Some w' →
  (∀ j, j ≠ i → rely j w w') ∧ world_inv w' ∧ w_closing w' !! i = Some client ∧ w_known w' = w_known w ∧
  w_watch w' = w_watch w ∧ cl_connections (w_cache w') = cl_connections (w_cache w).
Proof.
  intros Hs Hst Hk [= <-]. pose proof (close_inv i w client Hs Hst Hk). split_and!; try done; [|apply lookup_insert_eq].
  intros j Hj. apply (closing_rely i); [done|done|by rewrite lookup_insert_ne|done].
Qed.

Lemma close_spare_ok i client : tri i (spare i client) (trigger (CloseClient client)) (λ _, ready i).
Proof.
  apply triple_call; [eauto with ssh..|]. intros w x w' (Hs & Hst & Hk & Hu) Ha.
  destruct (close_step _ _ _ _ _ Hs Hst Hk Ha) as (Hr & Hi & Hc & Hkn & Hw & Hcc). split; [done|].
  split; [|by intros Hi2; rewrite Hw; apply Hst]. split; [done|]. intros c. rewrite Hc, Hkn. intros [= <-]. split; [done|].
  unfold uncached. by rewrite Hcc.
Qed.

Lemma close_spare_keeps i key client spared :
  tri i (λ w, has i key client w ∧ spare i spared w) (trigger (CloseClient spared)) (λ _, has i key client).
Proof.
  apply triple_call; [|eauto with ssh|].
  { intros w w' [Hh Hs] Hr. split; [by eapply has_stable|by eapply spare_stable]. }
  intros w x w' [(_ & _ & Hkey) (Hs & Hst & Hk & Hu)] Ha.
  destruct (close_step _ _ _ _ _ Hs Hst Hk Ha) as (Hr & Hi & Hc & Hkn & Hw & Hcc). split; [done|].
  split_and!; [|by intros Hi2; rewrite Hw; apply Hst|by rewrite Hkn]. split; [done|].
  intros c. rewrite Hc, Hkn. intros [= <-]. split; [done|]. unfold uncached. by rewrite Hcc.
Qed.

Lemma close_and_evict_ok i key client : tri i (has i key client) (close_and_evict key client) (λ _, settled i).
Proof.
  tri_via (λ _ : unit, evicting i key client).
  - apply triple_call; [eauto with ssh..|]. intros w x w' (Hs & Hst & Hk) Ha.
    destruct (close_step _ _ _ _ _ Hs Hst (ex_intro _ _ Hk) Ha) as (Hr & Hi & Hc & Hkn & _). split; [done|].
    split_and!; [done..|by rewrite Hkn].
  - intros _. apply triple_call; [eauto with ssh..|]. intros w x w' He [= <-]. pose proof (evict_inv i w key client He) as Hi.
    split; [|split; [done|]; cbn; by rewrite lookup_delete_eq].
    intros j Hj. apply (closing_rely i); [done|done|by rewrite lookup_delete_ne|].
    intros c Hu k item [Hk _]%evict_lookup. by eapply Hu.
Qed.

Lemma dial_ok i secret auth key generation : tri i (ready i) (dial secret auth key generation) (given i key).
Proof.
  tri_bind; [apply (calm_keeps i (ready i)); [eauto with ssh|asks]|]. intros reached. destruct (negb reached).
  { tri_bind; [apply (calm_keeps i (ready i)); [eauto with ssh|asks]|]. intros ended. apply triple_ret; eauto with ssh. }
  tri_bind; [apply (calm_keeps i (ready i)); [eauto with ssh|asks]|]. intros h. destruct (hs_error h) as [err|].
  { tri_bind; [apply (calm_keeps i (ready i)); [eauto with ssh|asks]|]. intros u.
    tri_bind; [apply (calm_keeps i (ready i)); [eauto with ssh|asks]|]. intros ended. apply triple_ret; eauto with ssh. }
  tri_bind; [apply store_ok|]. intros r. unfold after_store. destruct (st_outcome r) as [|client|].
  - apply triple_ret; eauto with ssh.
  - tri_bind; [apply close_spare_keeps|]. intros u. apply triple_ret; eauto with ssh.
  - tri_bind; [apply close_spare_ok|]. intros u. apply triple_ret; eauto with ssh.
Qed.

Lemma getClient_ok i secret auth timeout key : tri i (ready i) (getClient secret auth timeout key) (given i key).
Proof.
  tri_bind; [apply (calm_keeps i (ready i)); [eauto with ssh|asks]|]. intros now.
  tri_bind; [apply lookup_ok|]. intros [client|generation]; [apply triple_ret; eauto with ssh|].
  tri_bind; [apply (calm_keeps i (ready i)); [eauto with ssh|asks]|]. intros u.
  tri_bind; [apply dial_ok|]. intros r.
  tri_bind; [apply (calm_keeps i (given i key r)); [eauto with ssh|asks]|]. intros v. apply triple_ret; eauto with ssh.
Qed.

Lemma run_session_ok i key client command limits :
  tri i (has i key client) (run_session key client command limits) (λ _, settled i).
Proof.
  assert (∀ w, has i key client w → settled i w) as Hset by by intros w [? _].
  tri_bind; [apply (calm_keeps i (has i key client)); [eauto with ssh|asks]|]. intros [e|].
  - tri_bind; [apply (calm_keeps i (has i key client)); [eauto with ssh|apply stop_calm]|]. intros u.
    tri_bind; [apply (calm_keeps i (has i key client)); [eauto with ssh|asks]|]. intros writes.
    destruct e as [|status|]; [apply triple_ret; eauto with ssh..|].
    tri_bind; [apply close_and_evict_ok|]. intros v.
    tri_bind; [apply (calm_keeps i (settled i)); [eauto with ssh|asks]|]. intros late. apply triple_ret; eauto with ssh.
  - tri_bind; [apply (calm_keeps i (has i key client)); [eauto with ssh|asks]|]. intros u.
    tri_bind; [apply close_and_evict_ok|]. intros v.
    tri_bind; [apply (calm_keeps i (settled i)); [eauto with ssh|asks]|]. intros v'.
    tri_bind; [apply (calm_keeps i (settled i)); [eauto with ssh|asks]|]. intros writes. apply triple_ret; eauto with ssh.
Qed.

Lemma run_on_ok n key client command limits :
  tri (n, false) (has (n, false) key client) (run_on key client command limits) (λ _, settled (n, false)).
Proof.
  tri_bind; [apply (calm_keeps _ (has (n, false) key client)); [eauto with ssh|asks]|]. intros u.
  tri_bind; [apply calm_keeps; [eauto with ssh|apply start_calm]|]. intros v.
  tri_bind; [apply (calm_keeps _ (has (n, false) key client)); [eauto with ssh|asks]|]. intros opened.
  tri_via (λ _ : Result * option CodedError, settled (n, false)).
  - destruct (negb opened).
    + tri_bind; [apply close_and_evict_ok|]. intros v'.
      tri_bind; [apply (calm_keeps _ (settled (n, false))); [eauto with ssh|asks]|]. intros late. apply triple_ret; eauto with ssh.
    + tri_bind; [apply run_session_ok|]. intros r.
      tri_bind; [apply (calm_keeps _ (settled (n, false))); [eauto with ssh|asks]|]. intros v'. apply triple_ret; eauto with ssh.
  - intros r. tri_bind; [apply (calm_keeps _ (settled (n, false))); [eauto with ssh|apply stop_calm]|]. intros v'.
    tri_bind; [apply (calm_keeps _ (settled (n, false))); [eauto with ssh|asks]|]. intros v''. apply triple_ret; eauto with ssh.
Qed.

Lemma Execute_ok n secret command limits :
  tri (n, false) (settled (n, false)) (Execute secret command limits) (λ _, settled (n, false)).
Proof.
  unfold Execute. destruct (negb _); [apply triple_ret; eauto with ssh|].
  destruct (authenticationMethod parse secret) as [auth|err]; [|apply triple_ret; eauto with ssh].
  eapply triple_conseq; [| |tri_bind; [apply getClient_ok|]].
  - intros w Hw. split; [exact Hw|done].
  - intros r w Hw. exact Hw.
  - intros [client|err]; [apply run_on_ok|]. apply triple_ret; [apply ready_stable|]. by intros w [? _].
Qed.

Lemma watch_ok n : tri (n, true) (settled (n, true)) watch_context (λ _, settled (n, true)).
Proof.
  tri_via (λ e : option (string * nat), match e with Some (key, client) => has (n, true) key client | None => settled (n, true) end).
  - apply triple_call; [eauto with ssh|intros [[key client]|]; eauto with ssh|]. intros w x w' Hw Ha. simpl in Ha.
    destruct (w_watch w !! n) as [p|] eqn:Hp; [|done]. apply when_is in Ha as [Hx ->]. split; [eauto with ssh|].
    destruct x as [[key client]|]; [|done]. apply bool_decide_eq_true in Hx as <-.
    split_and!; [done|intros _; by eexists|]. destruct Hw as [[_ _ IW _] _]. by eapply IW.
  - intros [[key client]|]; [apply close_and_evict_ok|]. apply triple_ret; eauto with ssh.
Qed.

Lemma goroutine_ok i p : goroutine i p → tri i (settled i) p (λ _, settled i).
Proof.
  intros [n secret command limits|n|n].
  - tri_bind; [apply Execute_ok|]. intros r. apply triple_ret; eauto with ssh.
  - tri_bind; [apply (calm_keeps _ (settled (n, false))); [eauto with ssh|]|intros u; apply triple_ret; eauto with ssh].
    intros w x w' _ [= <-] j. apply close_rely.
  - tri_bind; [apply watch_ok|]. intros r. apply triple_ret; eauto with ssh.
Qed.

(** ** Goroutines on one cache *)

Abbreviation goroutines := (system (ssh_op) world (nat * bool) _ _ (option (Result * option CodedError))).
Abbreviation ssh_step := (system_step (@acts) waits).
Abbreviation launched ps := (System fresh_world ps ∅).

(** It has not returned; and if it watches a context, the watch was started. *)
Definition in_progress (ps : gmap (nat * bool) (calls (option (Result * option CodedError)))) (s : goroutines) (j : nat * bool) : Prop :=
  is_Some (ps !! j) ∧ sy_ended s !! j = None ∧ started j (sy_world s).

(** One of them closed the connection and is about to evict it. *)
Definition being_evicted (ps : gmap (nat * bool) (calls (option (Result * option CodedError)))) (s : goroutines) (client : nat) : Prop :=
  ∃ j, in_progress ps s j ∧ w_closing (sy_world s) !! j = Some client.

Lemma acts_closing i j w X (e : ssh_op X) x w' : j ≠ i → acts i w e x = Some w' → w_closing w' !! j = w_closing w !! j.
Proof.
  intros Hne. destruct e; cbn [acts]; intros Ha; repeat case_match; try apply when_is in Ha as [_ ->]; simplify_eq; try done.
  - cbn [with_closing w_closing]. by rewrite lookup_insert_ne.
  - cbn [with_closing w_closing]. by rewrite lookup_delete_ne.
Qed.

(** Only what was launched ever closes a connection to evict it. *)
Definition within (ps : gmap (nat * bool) (calls (option (Result * option CodedError)))) (s : goroutines) : Prop :=
  (∀ j, is_Some (sy_running s !! j) → is_Some (ps !! j)) ∧
  (∀ j client, w_closing (sy_world s) !! j = Some client → is_Some (ps !! j)).

Lemma within_step ps s s' : within ps s → ssh_step s s' → within ps s'.
Proof.
  intros [Hr Hc] Hstep. destruct Hstep as [w rs es i X e k x w' Hp Ha|w rs es i r Hp|w rs es i Hp|w rs es i Hp]; split; simpl in *.
  - intros j [p [[<- _]|[_ Hj]]%lookup_insert_Some]; apply Hr; by eexists.
  - intros j client. destruct (decide (j = i)) as [->|Hne]; [intros _; apply Hr; by eexists|].
    rewrite (acts_closing i j w X e x w') by done. apply Hc.
  - intros j [p [_ Hj]%lookup_delete_Some]. apply Hr. by eexists.
  - done.
  - intros j [p [_ Hj]%lookup_delete_Some]. apply Hr. by eexists.
  - done.
  - done.
  - done.
Qed.

Lemma fresh_settled i : settled i fresh_world.
Proof.
  split; [|intros client; simpl; by rewrite lookup_empty]. split; simpl.
  - intros key item. by rewrite lookup_empty.
  - intros client. set_solver.
  - intros n key client. by rewrite lookup_empty.
  - intros n client. by rewrite lookup_empty.
Qed.

Lemma launched_ok ps s : (∀ i p, ps !! i = Some p → goroutine i p) → rtc ssh_step (launched ps) s →
  world_inv (sy_world s) ∧ within ps s ∧ (∀ i r, sy_ended s !! i = Some r → settled i (sy_world s)).
Proof.
  intros Hps reached.
  assert (world_inv (sy_world s) ∧ within ps s ∧ system_ok (@acts) rely (λ i w r, settled i w) s) as (Hi & Hw & Hok).
  { revert s reached. refine (rtc_ind_r _ _ _ _).
    - split; [apply (fresh_settled (0%nat, false))|]. split; [split; simpl; [done|intros j client; by rewrite lookup_empty]|].
      split; simpl; [|intros i r; by rewrite lookup_empty]. intros i p Hp.
      split; [|by rewrite lookup_empty]. apply goroutine_ok; [by apply Hps|apply fresh_settled].
    - intros s s' _ Hstep (Hi & Hw & Hok). split; [|split; [by eapply within_step|by eapply (system_step_ok _ _ _ ssh_rely_refl ssh_rely_trans waits_rely)]].
      destruct Hstep as [w rs es i X e k x w' Hp Ha| | |]; [|done..]. simpl in *.
      destruct (so_running _ _ _ _ Hok i _ Hp) as [Hg _]. destruct (Hg w x w' (ssh_rely_refl i w) Ha) as [Hr _].
      apply (rely_inv (S i.1, i.2) w); [|done]. apply Hr. intros Heq%(f_equal fst). simpl in Heq. lia. }
  split_and!; [done..|]. intros i r Hr. exact (so_ended _ _ _ _ Hok i r Hr _ (ssh_rely_refl i _)).
Qed.

(** C37: Any number of [Execute] calls, their watching goroutines and [Close]s share
    the cache, their calls in any order, and any of them may wait for ever.  A
    cached connection was made for its key and is open, or one of them closed it
    and has still to evict it; the same holds of the connection [getClient]
    takes from the cache, and that one was last asked for within a minute; and
    when all have returned every cached connection is open. *)
Theorem cached_connection_usable ps s (ours : ∀ i p, ps !! i = Some p → goroutine i p) (reached : rtc ssh_step (launched ps) s) :
  (∀ key item, cl_connections (w_cache (sy_world s)) !! key = Some item →
     w_known (sy_world s) !! cc_client item = Some key ∧
     (cc_client item ∈ cl_closed (w_cache (sy_world s)) → being_evicted ps s (cc_client item))) ∧
  (∀ key now c client, getClient_begin (w_cache (sy_world s)) key now = (c, Cached client) →
     w_known (sy_world s) !! client = Some key ∧
     (client ∈ cl_closed c → being_evicted ps s client) ∧
     ∃ item, cl_connections (w_cache (sy_world s)) !! key = Some item ∧ cc_client item = client ∧
       (now - cc_last_used item ≤ connectionIdleTimeout)%Z) ∧
  ((∀ j, ¬ in_progress ps s j) →
     ∀ key item, cl_connections (w_cache (sy_world s)) !! key = Some item → cc_client item ∉ cl_closed (w_cache (sy_world s))).
Proof.
  destruct (launched_ok ps s ours reached) as (HI & [_ Hc] & Hend).
  assert (∀ key item, cl_connections (w_cache (sy_world s)) !! key = Some item →
     w_known (sy_world s) !! cc_client item = Some key ∧
     (cc_client item ∈ cl_closed (w_cache (sy_world s)) → being_evicted ps s (cc_client item))) as Hcached.
  { intros key item Hi. destruct (inv_cached _ HI _ _ Hi) as [Hk Hd]. split; [done|].
    intros [j Hj]%Hd. exists j. split; [|done]. split; [by eapply Hc|]. split.
    - destruct (sy_ended s !! j) as [r|] eqn:Hr; [|done]. apply Hend in Hr as [_ Hset].
      destruct (Hset _ Hj) as [_ Hu]. by destruct (Hu key item Hi).
    - destruct j as [n b]. intros [= ->]. by eapply inv_started. }
  split; [done|]. split.
  - intros key now c client Hb. pose proof Hb as (Hitems & Hcl & Hx)%begin_spec.
    destruct (Hx _ eq_refl) as (it & Hi & <-). destruct (Hitems _ _ Hi) as (item & H0 & Heq & He). rewrite <- Heq.
    destruct (Hcached _ _ H0) as [Hk Hd]. split; [done|]. split.
    + rewrite Hcl, drop_idle_closed. intros [Hin|(k1 & it1 & H1 & He1 & Heq1)]; [by apply Hd|].
      destruct (Hcached _ _ H1) as [Hk1 _]. rewrite Heq1, Hk in Hk1. assert (k1 = key) as -> by congruence. congruence.
    + exists item. split; [done|]. split; [done|]. unfold expired_connection in He. by bool_hyps.
  - intros Hnone key item Hi Hin. destruct (Hcached _ _ Hi) as [_ Hd]. destruct (Hd Hin) as (j & Hj & _). by destruct (Hnone j).
Qed.
End execute.
Arguments ssh_op : clear implicits.

(** ** Concrete runs *)

Definition a_secret : ServerSecret :=
  {| ss_host := "h"; ss_port := 22; ss_user := "u"; ss_auth_method := "password";
     ss_password := "pw"; ss_private_key := ""; ss_private_key_passphrase := ""; ss_host_fingerprint := "SHA256:x" |}.

Definition other_secret : ServerSecret :=
  {| ss_host := "g"; ss_port := 22; ss_user := "u"; ss_auth_method := "password";
     ss_password := "pw"; ss_private_key := ""; ss_private_key_passphrase := ""; ss_host_fingerprint := "SHA256:x" |}.

Definition a_limits : Limits := {| l_timeout := 120 * 1000000000; l_max_output := 100 |}.

(** Without a parser of private keys, and a hash that keeps everything apart. *)
Definition an_execute (secret : ServerSecret) : prog (ssh_op unit) (option (Result * option CodedError)) :=
  r ← Execute (λ _ _, Some tt) id 0 secret "id" a_limits; Ret (Some r).

(** Every server is reached and offers the pinned key; a command ends as said;
    call 1 is made 61 seconds after call 0. *)
Definition obliging (ended : option run_end) (i : nat * bool) X (w : world) (e : ssh_op unit X) : X :=
  match e in ssh_op _ X return X with
  | Now => (Z.of_nat i.1 * (61 * 1000000000))%Z
  | CacheLookup key now => (getClient_begin (w_cache w) key now).2
  | Handshake _ _ _ => {| hs_offered := Some "SHA256:x"; hs_error := None |}
  | CacheStore key generation =>
      {| st_client := size (w_known w); st_now := 0;
         st_outcome := (getClient_store (w_cache w) key generation (size (w_known w)) 0).2 |}
  | RunCommand _ => ended
  | AwaitWatch => w_watch w !! i.1
  | SessionWrites => []
  | ContextErr => false
  | DialTCP _ _ | NewSession _ => true
  | _ => tt
  end.

Definition scheduled (ended : option run_end) (schedule : list (nat * bool)) (ps : gmap (nat * bool) (prog (ssh_op unit) (option (Result * option CodedError)))) :=
  run_schedule (@acts unit) (@obliging ended) schedule (System fresh_world ps ∅).

Definition one_call : gmap (nat * bool) (prog (ssh_op unit) (option (Result * option CodedError))) :=
  {[(0%nat, false) := an_execute a_secret]}.

Definition a_key : string := connectionKey id a_secret.

(** A state a schedule reaches, with what is computed of it. *)
Lemma scheduled_has ended schedule ps f : f <$> scheduled ended schedule ps = Some true →
  ∃ s, rtc (system_step (@acts unit) waits) (System fresh_world ps ∅) s ∧ f s = true.
Proof. intros (s & Hs & Hf)%fmap_Some. exists s. split; [exact (schedule_steps _ _ _ _ Hs)|done]. Qed.

(** The call was answered, without an error. *)
Definition succeeded (s : system (ssh_op unit) world (nat * bool) _ _ (option (Result * option CodedError))) (i : nat * bool) : bool :=
  match sy_ended s !! i with Some (Some (_, None)) => true | _ => false end.

(** A command was run, and its connection is open for the next. *)
Lemma cached_connection_usable_witness :
  ∃ s, rtc (system_step (@acts unit) waits) (System fresh_world one_call ∅) s ∧
    succeeded s (0%nat, false) = true ∧
    (getClient_begin (w_cache (sy_world s)) a_key 5).2 = Cached 0 ∧
    0%nat ∉ cl_closed (w_cache (sy_world s)).
Proof.
  destruct (scheduled_has (Some RunOk) (replicate 17 (0%nat, false)) one_call (λ s,
    succeeded s (0%nat, false) && bool_decide ((getClient_begin (w_cache (sy_world s)) a_key 5).2 = Cached 0)
    && bool_decide (cc_client <$> cl_connections (w_cache (sy_world s)) !! a_key = Some 0%nat))) as (s & Hs & Hf); [by vm_compute|].
  exists s. apply andb_true_iff in Hf as [[He Hc%bool_decide_eq_true]%andb_true_iff Hi%bool_decide_eq_true].
  split; [exact Hs|]. split; [exact He|]. split; [exact Hc|]. apply fmap_Some in Hi as (item & Hi & ->).
  refine (proj2 (proj2 (cached_connection_usable (λ _ _, Some tt) id 0 one_call s _ Hs)) _ a_key item Hi).
  - intros i p Hp. unfold one_call in Hp. apply lookup_singleton_Some in Hp as [<- <-]. apply runs_execute.
  - intros j ([p Hp] & Hn & _). unfold one_call in Hp. apply lookup_singleton_Some in Hp as [<- _].
    unfold succeeded in He. by rewrite Hn in He.
Defined.

Definition two_calls (second : ServerSecret) : gmap (nat * bool) (prog (ssh_op unit) (option (Result * option CodedError))) :=
  <[(0%nat, false) := an_execute a_secret]> {[(1%nat, false) := an_execute second]}.

(** The connection of a failed session is closed first and evicted later:
    between the two calls another [getClient] hands it out closed. *)
Theorem closed_connection_handed_out :
  ∃ s, rtc (system_step (@acts unit) waits) (System fresh_world (two_calls a_secret) ∅) s ∧
    (getClient_begin (w_cache (sy_world s)) a_key 5).2 = Cached 0 ∧
    0%nat ∈ cl_closed (getClient_begin (w_cache (sy_world s)) a_key 5).1.
Proof.
  destruct (scheduled_has (Some RunFailed) (replicate 14 (0%nat, false)) (two_calls a_secret) (λ s,
    bool_decide ((getClient_begin (w_cache (sy_world s)) a_key 5).2 = Cached 0 ∧
    0%nat ∈ cl_closed (getClient_begin (w_cache (sy_world s)) a_key 5).1))) as (s & Hs & Hf); [by vm_compute|].
  exists s. split; [done|]. by apply bool_decide_eq_true in Hf.
Qed.

Definition running_command (s : system (ssh_op unit) world (nat * bool) _ _ (option (Result * option CodedError))) (i : nat * bool) : bool :=
  match (sy_running s !! i : option (prog (ssh_op unit) (option (Result * option CodedError)))) with
  | Some (Vis (RunCommand _) _) => true
  | _ => false
  end.

(** A connection is idle when it was not asked for in the last minute, whatever
    runs on it: a call for another server closes the connection of a command
    that has been running for 61 of the 120 seconds it was given. *)
Theorem idle_cleanup_closes_running :
  ∃ s, rtc (system_step (@acts unit) waits) (System fresh_world (two_calls other_secret) ∅) s ∧
    running_command s (0%nat, false) = true ∧
    0%nat ∈ cl_closed (w_cache (sy_world s)).
Proof.
  destruct (scheduled_has None (replicate 10 (0%nat, false) ++ replicate 2 (1%nat, false)) (two_calls other_secret) (λ s,
    running_command s (0%nat, false) && bool_decide (0%nat ∈ cl_closed (w_cache (sy_world s))))) as (s & Hs & Hf); [by vm_compute|].
  exists s. split; [done|]. by bool_hyps.
Qed.
