(* ===== verification/Service.v ===== *)
(** * The broker service: [internal/broker/service.go]

    Requests are validated, analyzed, held for approval under the [enforce]
    policy, executed through the SSH client, redacted and audited.  Every call
    to another component, every reading of the clock and every reading of the
    settings (which other goroutines change) is an effect whose answer is not
    fixed; a handler is a tree of effects.  Receivers, contexts and
    dependencies are not nil. *)

From S2P Require Import Prelude GoStr Utf8 GoTime Prog Model AnalyzerRules Analyzer.
From S2P Require Import Redaction AuditEvent Vault SshClient Approval.
Open Scope string_scope.
Open Scope list_scope.


Definition maxCommandBytes : Z := Z.shiftl 128 10.
Definition maxTimeout : Z := 30 * 60 * second.
Definition maxOutputBytes : Z := Z.shiftl 4 20.

(** ** State and construction *)

Record ServiceOptions := {
  so_allow_audit_fail_open : bool;
  so_default_timeout : Z;
  so_default_max_output : Z;
  so_servers : list ServerSummary;
  so_vault_locked : bool;
  so_version : string;
  so_policy_version : string;
  so_risk_policy : string;
  so_log_level : string;
  so_batch_concurrency : Z;
  so_batch_store : bool;
  so_waiting_store : bool;
  so_notify : bool }.

(** [sv_batch_store] and [sv_waiting_store] tell whether the approval store
    implements the two optional interfaces, [sv_notify] whether
    [NotifyApproval] is set. *)
Record Service := {
  sv_audit_fail_closed : bool;
  sv_default_timeout : Z;
  sv_default_max_output : Z;
  sv_servers : list ServerSummary;
  sv_vault_locked : bool;
  sv_version : string;
  sv_policy_version : string;
  sv_risk_policy : string;
  sv_log_level : string;
  sv_batch_concurrency : Z;
  sv_started_at : Z;
  sv_batch_store : bool;
  sv_waiting_store : bool;
  sv_notify : bool }.

Definition normalizeRiskPolicy (value : string) : string :=
  if String.eqb value "warn" || String.eqb value "off" then value else "enforce".

Definition normalizeConcurrency (value : Z) : Z :=
  if (value <? 1)%Z || (32 <? value)%Z then 8 else value.

Inductive service_error := ErrInvalidServiceOptions.

Definition NewService (options : ServiceOptions) (now : Z) : result service_error Service :=
  if (so_default_timeout options <=? 0)%Z || (maxTimeout <? so_default_timeout options)%Z
     || (so_default_max_output options <=? 0)%Z || (maxOutputBytes <? so_default_max_output options)%Z
  then Fail ErrInvalidServiceOptions
  else Ok {|
    sv_audit_fail_closed := negb (so_allow_audit_fail_open options);
    sv_default_timeout := so_default_timeout options;
    sv_default_max_output := so_default_max_output options;
    sv_servers := so_servers options;
    sv_vault_locked := so_vault_locked options;
    sv_version := so_version options;
    sv_policy_version := so_policy_version options;
    sv_risk_policy := normalizeRiskPolicy (so_risk_policy options);
    sv_log_level := so_log_level options;
    sv_batch_concurrency := normalizeConcurrency (so_batch_concurrency options);
    sv_started_at := now;
    sv_batch_store := so_batch_store options;
    sv_waiting_store := so_waiting_store options;
    sv_notify := so_notify options |}.

(** [ctx_err] is [ctx.Err() != nil]. *)
Definition Status (service : Service) (ctx_err : bool) (pid : Z) : result CodedError BrokerStatus :=
  if ctx_err then Fail ErrTimeout
  else Ok {|
    bs_daemon_reachable := true;
    bs_vault_locked := sv_vault_locked service;
    bs_version := sv_version service;
    bs_policy_version := sv_policy_version service;
    bs_audit_fail_closed := sv_audit_fail_closed service;
    bs_risk_policy := sv_risk_policy service;
    bs_log_level := sv_log_level service;
    bs_batch_concurrency := sv_batch_concurrency service;
    bs_pid := pid;
    bs_started_at := format_rfc3339 (sv_started_at service);
    bs_server_count := Z.of_nat (length (sv_servers service)) |}.

(** [append([]model.ServerSummary(nil), servers...)]: nil when there are none. *)
Definition cloneServers (servers : list ServerSummary) : option (list ServerSummary) :=
  match servers with [] => None | _ => Some servers end.

Definition ListServers (service : Service) (ctx_err : bool)
  : result CodedError (option (list ServerSummary)) :=
  if ctx_err then Fail ErrTimeout else Ok (cloneServers (sv_servers service)).

Definition SetVaultState (service : Service) (locked : bool) (servers : list ServerSummary) : Service := {|
  sv_audit_fail_closed := sv_audit_fail_closed service; sv_default_timeout := sv_default_timeout service;
  sv_default_max_output := sv_default_max_output service; sv_servers := default [] (cloneServers servers);
  sv_vault_locked := locked; sv_version := sv_version service;
  sv_policy_version := sv_policy_version service; sv_risk_policy := sv_risk_policy service;
  sv_log_level := sv_log_level service; sv_batch_concurrency := sv_batch_concurrency service;
  sv_started_at := sv_started_at service; sv_batch_store := sv_batch_store service;
  sv_waiting_store := sv_waiting_store service; sv_notify := sv_notify service |}.

Definition UpdateSettings (service : Service) (riskPolicy logLevel : string) (batchConcurrency : Z) : Service := {|
  sv_audit_fail_closed := sv_audit_fail_closed service; sv_default_timeout := sv_default_timeout service;
  sv_default_max_output := sv_default_max_output service; sv_servers := sv_servers service;
  sv_vault_locked := sv_vault_locked service; sv_version := sv_version service;
  sv_policy_version := sv_policy_version service; sv_risk_policy := normalizeRiskPolicy riskPolicy;
  sv_log_level := logLevel; sv_batch_concurrency := normalizeConcurrency batchConcurrency;
  sv_started_at := sv_started_at service; sv_batch_store := sv_batch_store service;
  sv_waiting_store := sv_waiting_store service; sv_notify := sv_notify service |}.

Definition settings (service : Service) : string * Z :=
  (sv_risk_policy service, sv_batch_concurrency service).

(** ** Effects *)

(** An approval as the store returns it, its command read from the buffer the
    service owns. *)
Record released := {
  rl_id : string;
  rl_code : string;
  rl_alias : string;
  rl_aliases : list string;
  rl_command : string;
  rl_categories : list Category;
  rl_limits : ExecutionLimits;
  rl_expires_at : Z }.

(** An error of the executor: a coded error, or any other. *)
Inductive exec_error := Coded (e : CodedError) | Uncoded.

Inductive effect : Type → Type :=
| ECtxErr : effect bool
| ELookup (alias : string) : effect (option ServerSecret)
| EZeroSecret (alias : string) : effect unit
| ESettings : effect (string * Z)
| ERiskPolicy : effect string
| EServers : effect (list ServerSummary)
| EAnalyze (command : string) : effect (option Analysis)
| ECreate (alias command : string) (categories : list Category) (limits : ExecutionLimits)
    : effect (result approval_error released)
| ECreateBatch (aliases : list string) (command : string) (categories : list Category) (limits : ExecutionLimits)
    : effect (result approval_error released)
| EConsume (id code : string) : effect (result approval_error released)
| EWait (id : string) : effect (result approval_error (option released))
| ERevoke (id : string) : effect unit
| EZeroCommand (id : string) : effect unit
| ENotify : effect unit
| EAudit (event : Event) : effect bool
| ENow : effect Z
| ESequence : effect Z
| EExecute (alias : string) (secret : ServerSecret) (command : string) (limits : Limits)
    : effect (Result * option exec_error).

Abbreviation handler := (prog effect).

(** [defer]: run the body, then the deferred call, whatever was returned. *)
Definition deferring {R} (d : handler unit) (p : handler R) : handler R :=
  r ← p; _ ← d; mret r.

(** ** Helpers *)

Definition failed (err : CodedError) : ExecuteResult := {|
  res_status := StatusFailed; res_stdout := ""; res_stderr := ""; res_exit_code := 0;
  res_duration_ms := 0; res_truncated := false; res_error := Some err; res_warnings := [];
  res_approval := None; res_redactions := {| rs_applied := false; rs_counts := ∅ |} |}.

Definition publicError (err : exec_error) : CodedError :=
  match err with Coded c => c | Uncoded => ErrConnection end.

Definition categoryList (categories : list Category) : string := str_join categories ", ".

Definition categoryRedactions (category : Category) : list RedactionCategory :=
  if String.eqb category SSHSecret then [PrivateKeyBlock]
  else if String.eqb category CloudCredential then [BearerToken; AccessKey; URLCredential; CredentialAssignment]
  else if String.eqb category ProcessEnvironment then [BearerToken; AccessKey; URLCredential; CredentialAssignment]
  else if String.eqb category DatabaseCredential then [URLCredential; CredentialAssignment]
  else if String.eqb category KubernetesSecret then [BearerToken; CredentialAssignment]
  else if String.eqb category PrivateKey then [PrivateKeyBlock]
  else if String.eqb category NetworkIdentity then [IPAddress]
  else [].

Definition approvedRedactions (categories : list Category) : gset RedactionCategory :=
  list_to_set (categories ≫= categoryRedactions).

Definition mergeRedactionCounts (left right : gmap string Z) : gmap string Z :=
  union_with (λ a b, Some (a + b)%Z) left right.

Definition approvalRequestID (id : string) : string := "approval-" +:+ id.

Definition validExecuteRequest (ctx_err : bool) (request : ExecuteRequest) : bool :=
  negb ctx_err && negb (str_is_empty (trim_space (er_server_alias request)))
  && negb (str_is_empty (trim_space (er_command request)))
  && (slen (er_command request) <=? maxCommandBytes)%Z
  && (0 <=? er_timeout_seconds request)%Z && (er_timeout_seconds request <=? maxTimeout / second)%Z
  && (0 <=? er_max_output_bytes request)%Z && (er_max_output_bytes request <=? maxOutputBytes)%Z.

Definition requestLimits (timeoutSeconds maxOutput : Z) (service : Service) : Limits := {|
  l_timeout := if (timeoutSeconds =? 0)%Z then sv_default_timeout service
               else wrap64 (timeoutSeconds * second);
  l_max_output := if (maxOutput =? 0)%Z then sv_default_max_output service else maxOutput |}.

Definition approval_limits (limits : Limits) : ExecutionLimits :=
  {| lim_timeout := l_timeout limits; lim_max_output := l_max_output limits |}.

Definition ssh_limits (limits : ExecutionLimits) : Limits :=
  {| l_timeout := lim_timeout limits; l_max_output := lim_max_output limits |}.

Definition nextRequestID : handler string :=
  now ← trigger ENow;
  sequence ← trigger ESequence;
  mret ("broker-" +:+ itoa now +:+ "-" +:+ itoa sequence).

Definition auditEvent (requestID alias command : string) (categories : list Category) : handler Event :=
  now ← trigger ENow;
  mret {| ev_timestamp := now; ev_request_id := requestID; ev_interface := "unix";
          ev_server_alias := alias; ev_command := command; ev_decision := "";
          ev_risk_categories := categories; ev_approval_state := ""; ev_duration_ms := 0;
          ev_exit_code := 0; ev_timed_out := false; ev_truncated := false;
          ev_redactions := ∅; ev_require_sync := false |}.

Definition decided (e : Event) (decision : string) (approval : option string) : Event := {|
  ev_timestamp := ev_timestamp e; ev_request_id := ev_request_id e; ev_interface := ev_interface e;
  ev_server_alias := ev_server_alias e; ev_command := ev_command e; ev_decision := decision;
  ev_risk_categories := ev_risk_categories e;
  ev_approval_state := default (ev_approval_state e) approval;
  ev_duration_ms := ev_duration_ms e; ev_exit_code := ev_exit_code e; ev_timed_out := ev_timed_out e;
  ev_truncated := ev_truncated e; ev_redactions := ev_redactions e;
  ev_require_sync := match approval with Some _ => true | None => ev_require_sync e end |}.

Definition with_outcome (e : Event) (r : ExecuteResult) : Event := {|
  ev_timestamp := ev_timestamp e; ev_request_id := ev_request_id e; ev_interface := ev_interface e;
  ev_server_alias := ev_server_alias e; ev_command := ev_command e; ev_decision := ev_decision e;
  ev_risk_categories := ev_risk_categories e; ev_approval_state := ev_approval_state e;
  ev_duration_ms := res_duration_ms r; ev_exit_code := res_exit_code r;
  ev_timed_out := match res_error r with Some c => String.eqb (ce_code c) CodeTimeout | None => false end;
  ev_truncated := res_truncated r; ev_redactions := rs_counts (res_redactions r);
  ev_require_sync := ev_require_sync e |}.

Definition with_warning (r : ExecuteResult) : ExecuteResult := {|
  res_status := res_status r; res_stdout := res_stdout r; res_stderr := res_stderr r;
  res_exit_code := res_exit_code r; res_duration_ms := res_duration_ms r;
  res_truncated := res_truncated r; res_error := res_error r; res_warnings := [Some ErrAudit];
  res_approval := res_approval r; res_redactions := res_redactions r |}.

Section handlers.
Context `{OutputRedactor} (service : Service).

(** ** Execution on one server *)

(** The public result of what the executor returned. *)
Definition remote_result (executed : Result) (executeErr : option exec_error) (duration : Z)
    (limits : Limits) (categories : list Category) : ExecuteResult :=
  let allowed := approvedRedactions categories in
  let stdout := Redact (r_stdout executed) allowed (l_max_output limits) in
  let stderr := Redact (r_stderr executed) allowed (l_max_output limits) in
  let counts := mergeRedactionCounts (rr_counts stdout) (rr_counts stderr) in
  {| res_status := match executeErr with Some _ => StatusFailed | None => StatusCompleted end;
     res_stdout := rr_text stdout;
     res_stderr := rr_text stderr;
     res_exit_code := r_exit_code executed;
     res_duration_ms := milliseconds duration;
     res_truncated := r_truncated executed || rr_truncated stdout || rr_truncated stderr;
     res_error := publicError <$> executeErr;
     res_warnings := [];
     res_approval := None;
     res_redactions := {| rs_applied := negb (bool_decide (counts = ∅)); rs_counts := counts |} |}.

Definition executeRemote (requestID alias command : string) (limits : Limits)
    (categories : list Category) (approved : bool) (secret : ServerSecret) : handler ExecuteResult :=
  let failClosed := sv_audit_fail_closed service || approved in
  event ← auditEvent requestID alias command categories;
  let preflight := decided event "execute_preflight" (if approved then Some "consumed" else None) in
  written ← trigger (EAudit preflight);
  if negb written && failClosed then mret (failed ErrAudit)
  else
    started ← trigger ENow;
    outcome ← trigger (EExecute alias secret command limits);
    ended ← trigger ENow;
    let '(executed, executeErr) := outcome in
    let result := remote_result executed executeErr (ended - started) limits categories in
    event ← auditEvent requestID alias command categories;
    let finalEvent :=
      with_outcome (decided event (res_status result) (if approved then Some "executed" else None)) result in
    finalWritten ← trigger (EAudit finalEvent);
    mret (if written && finalWritten then result else with_warning result).

Definition requires_approval (created : released) (message : string) (code : string) : ExecuteResult := {|
  res_status := StatusRequiresApproval; res_stdout := ""; res_stderr := ""; res_exit_code := 0;
  res_duration_ms := 0; res_truncated := false; res_error := None; res_warnings := [];
  res_approval := Some {| ai_id := rl_id created; ai_code := code; ai_message := message;
                          ai_expires_at := format_rfc3339 (rl_expires_at created) |};
  res_redactions := {| rs_applied := false; rs_counts := ∅ |} |}.

(** The part of [Execute] that asks for an approval. *)
Definition hold_for_approval (request : ExecuteRequest) (limits : Limits) (analysis : Analysis)
  : handler ExecuteResult :=
  created ← trigger (ECreate (er_server_alias request) (er_command request)
                       (an_categories analysis) (approval_limits limits));
  match created with
  | Fail _ => mret (failed ErrApproval)
  | Ok created =>
      deferring (trigger (EZeroCommand (rl_id created)))
        (event ← auditEvent (approvalRequestID (rl_id created)) (er_server_alias request)
                   (er_command request) (an_categories analysis);
         written ← trigger (EAudit (decided event StatusRequiresApproval (Some "created")));
         if negb written then
           _ ← trigger (ERevoke (rl_id created)); mret (failed ErrAudit)
         else
           mret (requires_approval created
                   ("local approval required for risk categories: " +:+ categoryList (an_categories analysis))
                   (rl_code created)))
  end.

Definition Execute (request : ExecuteRequest) : handler ExecuteResult :=
  ctx_err ← trigger ECtxErr;
  if negb (validExecuteRequest ctx_err request) then mret (failed ErrValidation)
  else
    found ← trigger (ELookup (er_server_alias request));
    match found with
    | None => mret (failed ErrValidation)
    | Some secret =>
        deferring (trigger (EZeroSecret (er_server_alias request)))
          (policy ← trigger ESettings;
           let riskPolicy := fst policy in
           analyzed ← (if String.eqb riskPolicy "off"
                       then mret (Some {| an_findings := []; an_categories := [] |})
                       else trigger (EAnalyze (er_command request)));
           match analyzed with
           | None => mret (failed ErrValidation)
           | Some analysis =>
               let limits := requestLimits (er_timeout_seconds request) (er_max_output_bytes request) service in
               if String.eqb riskPolicy "warn" then
                 id ← nextRequestID;
                 executeRemote id (er_server_alias request) (er_command request) limits
                   (an_categories analysis) false secret
               else match an_categories analysis with
               | _ :: _ => hold_for_approval request limits analysis
               | [] =>
                   id ← nextRequestID;
                   executeRemote id (er_server_alias request) (er_command request) limits [] false secret
               end
           end)
    end.

(** The end of [ExecuteApproved] and [ExecuteWait]: run what was approved. *)
Definition execute_released (approved : released) : handler ExecuteResult :=
  deferring (trigger (EZeroCommand (rl_id approved)))
    (found ← trigger (ELookup (rl_alias approved));
     match found with
     | None => mret (failed ErrValidation)
     | Some secret =>
         deferring (trigger (EZeroSecret (rl_alias approved)))
           (executeRemote (approvalRequestID (rl_id approved)) (rl_alias approved) (rl_command approved)
              (ssh_limits (rl_limits approved)) (rl_categories approved) true secret)
     end).

Definition ExecuteApproved (request : ApprovedRequest) : handler ExecuteResult :=
  ctx_err ← trigger ECtxErr;
  if ctx_err || str_is_empty (ar_approval_id request) || str_is_empty (ar_approval_code request)
  then mret (failed ErrApproval)
  else
    consumed ← trigger (EConsume (ar_approval_id request) (ar_approval_code request));
    match consumed with
    | Fail _ => mret (failed ErrApproval)
    | Ok approved => execute_released approved
    end.

Definition denied_result : ExecuteResult := {|
  res_status := StatusDenied; res_stdout := ""; res_stderr := ""; res_exit_code := 0;
  res_duration_ms := 0; res_truncated := false; res_error := Some ErrApproval; res_warnings := [];
  res_approval := None; res_redactions := {| rs_applied := false; rs_counts := ∅ |} |}.

Definition notify_approval : handler unit :=
  if sv_notify service then trigger ENotify else mret tt.

Definition ExecuteWait (request : ExecuteRequest) : handler ExecuteResult :=
  result ← Execute request;
  match res_approval result with
  | Some info =>
      if negb (String.eqb (res_status result) StatusRequiresApproval) then mret result
      else
        _ ← notify_approval;
        if negb (sv_waiting_store service) then mret (failed ErrApproval)
        else
          waited ← trigger (EWait (ai_id info));
          match waited with
          | Ok (Some approved) => execute_released approved
          | _ => mret denied_result
          end
  | None => mret result
  end.

(** ** Batches *)

Definition batch_failed (status : Model.Status) (err : CodedError) : BatchExecuteResult := {|
  bres_status := status; bres_results := []; bres_duration_ms := 0;
  bres_approval := None; bres_error := Some err |}.

(** The targets: trimmed, blanks and repetitions dropped. *)
Definition unique_aliases (aliases : list string) : list string :=
  dedup (filter (λ a, a ≠ "") (trim_space <$> aliases)).

(** What the pool of workers is started with. *)
Record batch_plan := {
  bp_aliases : list string;
  bp_jobs : list (handler ServerExecuteResult);
  bp_concurrency : Z;
  bp_after : handler unit }.

Definition clamp_concurrency (requested default_ : Z) : Z :=
  let concurrency := (if (requested <=? 0)%Z then default_ else requested) in
  if (32 <? concurrency)%Z then 32 else concurrency.

(** The body of a worker for one alias. *)
Definition batch_job (alias command : string) (requestID : handler string) (limits : Limits)
    (categories : list Category) (approved : bool) : handler ServerExecuteResult :=
  found ← trigger (ELookup alias);
  match found with
  | None => mret {| sr_server_alias := alias; sr_result := failed ErrValidation |}
  | Some secret =>
      id ← requestID;
      one ← executeRemote id alias command limits categories approved secret;
      _ ← trigger (EZeroSecret alias);
      mret {| sr_server_alias := alias; sr_result := one |}
  end.

(** [ExecuteBatch] once the command is analyzed: approval or plan. *)
Definition settle_batch (request : BatchExecuteRequest) (aliases : list string) (analysis : Analysis)
  : handler (BatchExecuteResult + batch_plan) :=
  policy ← trigger ESettings;
  let limits := requestLimits (br_timeout_seconds request) (br_max_output_bytes request) service in
  if String.eqb (fst policy) "enforce" && negb (Nat.eqb (length (an_categories analysis)) 0) then
    if negb (sv_batch_store service) then mret (inl (batch_failed StatusFailed ErrApproval))
    else
      created ← trigger (ECreateBatch aliases (br_command request) (an_categories analysis)
                           (approval_limits limits));
      match created with
      | Fail _ => mret (inl (batch_failed StatusFailed ErrApproval))
      | Ok created =>
          mret (inl {| bres_status := StatusRequiresApproval; bres_results := [];
            bres_duration_ms := 0; bres_error := None;
            bres_approval := Some {|
              ai_id := rl_id created; ai_code := "";
              ai_message := "local approval required for " +:+ itoa (Z.of_nat (length aliases))
                +:+ " servers; risk categories: " +:+ categoryList (an_categories analysis);
              ai_expires_at := format_rfc3339 (rl_expires_at created) |} |})
      end
  else
    mret (inr {|
      bp_aliases := aliases;
      bp_jobs := (λ alias, batch_job alias (br_command request) nextRequestID limits
                             (an_categories analysis) false) <$> aliases;
      bp_concurrency := clamp_concurrency (br_concurrency request) (snd policy);
      bp_after := mret tt |}).

(** [ExecuteBatch] once it has its targets. *)
Definition plan_batch (request : BatchExecuteRequest) (aliases : list string)
  : handler (BatchExecuteResult + batch_plan) :=
  firstPolicy ← trigger ERiskPolicy;
  analyzed ← (if String.eqb firstPolicy "off"
              then mret (Some {| an_findings := []; an_categories := [] |})
              else trigger (EAnalyze (br_command request)));
  match analyzed with
  | None => mret (inl (batch_failed StatusFailed ErrValidation))
  | Some analysis => settle_batch request aliases analysis
  end.

(** The servers asked for, [None] when there are none or too many; then trimmed,
    without blanks and repetitions. *)
Definition batch_targets (request : BatchExecuteRequest) (servers : list ServerSummary)
  : option (list string) :=
  let aliases := if br_all request then merge_sort String.le (ss_alias <$> servers)
                 else br_server_aliases request in
  if Nat.eqb (length aliases) 0 || (256 <? Z.of_nat (length aliases))%Z then None
  else Some (unique_aliases aliases).

Definition ExecuteBatch (request : BatchExecuteRequest) : handler (BatchExecuteResult + batch_plan) :=
  ctx_err ← trigger ECtxErr;
  if ctx_err || str_is_empty (trim_space (br_command request))
  then mret (inl (batch_failed StatusFailed ErrValidation))
  else
    servers ← ((if br_all request then trigger EServers else mret []) : handler (list ServerSummary));
    match batch_targets request servers with
    | None => mret (inl (batch_failed StatusFailed ErrValidation))
    | Some aliases => plan_batch request aliases
    end.

Definition ExecuteBatchWait (request : BatchExecuteRequest) : handler (BatchExecuteResult + batch_plan) :=
  result ← ExecuteBatch request;
  match result with
  | inr plan => mret (inr plan)
  | inl result =>
      match bres_approval result with
      | Some info =>
          if negb (String.eqb (bres_status result) StatusRequiresApproval) then mret (inl result)
          else
            _ ← notify_approval;
            if negb (sv_waiting_store service) then mret (inl (batch_failed StatusFailed ErrApproval))
            else
              waited ← trigger (EWait (ai_id info));
              match waited with
              | Ok (Some approved) =>
                  default_ ← (if (br_concurrency request <=? 0)%Z then trigger ESettings
                              else mret ("", br_concurrency request));
                  mret (inr {|
                    bp_aliases := rl_aliases approved;
                    bp_jobs := (λ alias, batch_job alias (rl_command approved)
                                  (mret (approvalRequestID (rl_id approved)))
                                  (ssh_limits (rl_limits approved)) (rl_categories approved) true)
                                 <$> rl_aliases approved;
                    bp_concurrency := clamp_concurrency (br_concurrency request) (snd default_);
                    bp_after := trigger (EZeroCommand (rl_id approved)) |})
              | _ => mret (inl (batch_failed StatusDenied ErrApproval))
              end
      | None => mret (inl result)
      end
  end.

(** The results of a finished pool, in the order of the aliases. *)
Definition zero_server_result : ServerExecuteResult :=
  {| sr_server_alias := ""; sr_result := zero_result |}.

Definition pool_results (n : nat) (s : pool effect ServerExecuteResult) : list ServerExecuteResult :=
  (λ i, default zero_server_result (pl_results s !! i)) <$> seq 0 n.

Definition batch_status (results : list ServerExecuteResult) : Model.Status :=
  if forallb (λ r, String.eqb (res_status (sr_result r)) StatusCompleted) results
  then StatusCompleted else StatusFailed.

Definition batch_result (results : list ServerExecuteResult) : BatchExecuteResult := {|
  bres_status := batch_status results; bres_results := results; bres_duration_ms := 0;
  bres_approval := None; bres_error := None |}.

(** A complete run of a batch: the plan, the workers in some schedule, and what
    is left to do when they are finished. *)
Inductive batch_runs (p : handler (BatchExecuteResult + batch_plan)) :
  list (io effect) → list (nat * io effect) → list (io effect) → BatchExecuteResult → Prop :=
| batch_direct tr r : runs p tr (inl r) → batch_runs p tr [] [] r
| batch_pooled tr plan m ptr s tr_after :
    runs p tr (inr plan) →
    pool_steps (Z.to_nat (bp_concurrency plan)) m (pool_init (bp_jobs plan)) ptr s →
    pool_finished s → runs (bp_after plan) tr_after tt →
    batch_runs p tr ptr tr_after (batch_result (pool_results (length (bp_aliases plan)) s)).
End handlers.

(** ** The monitor of executions *)

#[export] Instance Limits_eq_dec : EqDecision Limits.
Proof. solve_decision. Defined.

#[export] Instance released_eq_dec : EqDecision released.
Proof. solve_decision. Defined.

(** What has happened in a request so far. *)
Record mon := {
  m_policy : option string;
  m_clean : option string;
  m_secret : option (string * ServerSecret);
  m_created : option (string * string * ExecutionLimits * released);
  m_audited : bool;
  m_released : option released;
  m_preflight : option (Event * bool) }.

Definition mon_init : mon := {|
  m_policy := None; m_clean := None; m_secret := None; m_created := None; m_audited := false;
  m_released := None; m_preflight := None |}.

(** An execution is in order when its secret was looked up for its server and
    not cleared since, when the event audited last announced it and was written
    (or may be missed, without an approval, in fail-open mode), and when it has
    an authority: a released approval with this command, server and limits, or a
    policy that asks for none, or a command the analyzer found nothing in. *)
Definition exec_in_order (failClosed : bool) (m : mon) (alias : string) (secret : ServerSecret)
    (command : string) (limits : Limits) : bool :=
  bool_decide (m_secret m = Some (alias, secret)) &&
  match m_preflight m with
  | None => false
  | Some (ev, written) =>
      String.eqb (ev_server_alias ev) alias && String.eqb (ev_command ev) command
      && String.eqb (ev_decision ev) "execute_preflight"
      && match m_released m with
         | Some rl =>
             written && String.eqb (ev_approval_state ev) "consumed" && ev_require_sync ev
             && bool_decide (alias ∈ rl_alias rl :: rl_aliases rl)
             && String.eqb (rl_command rl) command && bool_decide (ssh_limits (rl_limits rl) = limits)
         | None =>
             (written || negb failClosed) && String.eqb (ev_approval_state ev) ""
             && (bool_decide (m_policy m = Some "warn") || bool_decide (m_policy m = Some "off")
                 || bool_decide (m_clean m = Some command))
         end
  end.

Definition set_secret (m : mon) (s : option (string * ServerSecret)) : mon := {|
  m_policy := m_policy m; m_clean := m_clean m; m_secret := s; m_created := m_created m;
  m_audited := m_audited m; m_released := m_released m; m_preflight := m_preflight m |}.

Definition set_policy (m : mon) (p : string) : mon := {|
  m_policy := Some p; m_clean := m_clean m; m_secret := m_secret m; m_created := m_created m;
  m_audited := m_audited m; m_released := m_released m; m_preflight := m_preflight m |}.

Definition set_clean (m : mon) (c : option string) : mon := {|
  m_policy := m_policy m; m_clean := c; m_secret := m_secret m; m_created := m_created m;
  m_audited := m_audited m; m_released := m_released m; m_preflight := m_preflight m |}.

Definition set_created (m : mon) (c : option (string * string * ExecutionLimits * released)) : mon := {|
  m_policy := m_policy m; m_clean := m_clean m; m_secret := m_secret m; m_created := c;
  m_audited := false; m_released := m_released m; m_preflight := m_preflight m |}.

Definition set_released (m : mon) (r : option released) : mon := {|
  m_policy := m_policy m; m_clean := m_clean m; m_secret := m_secret m; m_created := m_created m;
  m_audited := m_audited m; m_released := r; m_preflight := m_preflight m |}.

Definition set_preflight (m : mon) (p : option (Event * bool)) : mon := {|
  m_policy := m_policy m; m_clean := m_clean m; m_secret := m_secret m; m_created := m_created m;
  m_audited := m_audited m; m_released := m_released m; m_preflight := p |}.

Definition set_audited (m : mon) (b : bool) : mon := {|
  m_policy := m_policy m; m_clean := m_clean m; m_secret := m_secret m; m_created := m_created m;
  m_audited := b; m_released := m_released m; m_preflight := m_preflight m |}.

Definition monitor (failClosed : bool) (m : mon) (i : io effect) : verdict mon :=
  match i with
  | @IO _ X e x =>
      match e in effect X return X → verdict mon with
      | ELookup alias => λ found, Next (set_secret m ((λ s, (alias, s)) <$> found))
      | EZeroSecret _ => λ _, Next (set_secret m None)
      | ESettings => λ p, Next (set_policy m (fst p))
      | EAnalyze command => λ a, Next (set_clean m
          match a with Some an => if an_categories an then Some command else None | None => None end)
      | ECreate alias command _ limits => λ r, Next (set_created m
          match r with Ok c => Some (alias, command, limits, c) | Fail _ => None end)
      | EConsume _ _ => λ r, Next (set_released m match r with Ok a => Some a | Fail _ => None end)
      | EWait _ => λ r, Next (set_released m match r with Ok a => a | Fail _ => None end)
      | ERevoke _ => λ _, Next (set_created m None)
      | EAudit ev => λ written,
          if String.eqb (ev_decision ev) "execute_preflight" then Next (set_preflight m (Some (ev, written)))
          else if String.eqb (ev_approval_state ev) "created" then Next (set_audited m written)
          else Next m
      | EExecute alias secret command limits => λ _,
          if exec_in_order failClosed m alias secret command limits
          then Next (set_preflight m None) else Reject
      | _ => λ _, Next m
      end x
  end.

Section safety.
Context `{OutputRedactor} (service : Service).

Abbreviation in_order := (safe (monitor (sv_audit_fail_closed service))).

Lemma safe_deferring {R} m (d : handler unit) (p : handler R) Q :
  in_order m p (λ m' r, in_order m' d (λ m'' _, Q m'' r)) → in_order m (deferring d p) Q.
Proof.
  intros Hp. unfold deferring. apply safe_bind. eapply safe_mono; [|exact Hp].
  intros m' r Hd. apply safe_bind. eapply safe_mono; [|exact Hd]. done.
Qed.

(** The authority [executeRemote] relies on. *)
Definition authorized (m : mon) (alias command : string) (limits : Limits) (approved : bool) : Prop :=
  match m_released m with
  | Some rl => approved = true ∧ alias ∈ rl_alias rl :: rl_aliases rl ∧ rl_command rl = command ∧
               ssh_limits (rl_limits rl) = limits
  | None => approved = false ∧
      (m_policy m = Some "warn" ∨ m_policy m = Some "off" ∨ m_clean m = Some command)
  end.

Lemma safe_executeRemote m id alias command limits categories approved secret
    (Q : mon → ExecuteResult → Prop) :
  m_secret m = Some (alias, secret) → authorized m alias command limits approved →
  (∀ m' r, m_secret m' = Some (alias, secret) → m_released m' = m_released m →
     res_approval r = None → res_status r ≠ StatusRequiresApproval → Q m' r) →
  in_order m (executeRemote service id alias command limits categories approved secret) Q.
Proof.
  intros Hs Ha HQ. intros t. cbn. intros written.
  destruct (negb written && (sv_audit_fail_closed service || approved)) eqn:Hw; cbn.
  { by apply HQ. }
  intros started [executed err].
  assert (exec_in_order (sv_audit_fail_closed service)
    (set_preflight m (Some (decided {| ev_timestamp := t; ev_request_id := id; ev_interface := "unix";
          ev_server_alias := alias; ev_command := command; ev_decision := "";
          ev_risk_categories := categories; ev_approval_state := ""; ev_duration_ms := 0;
          ev_exit_code := 0; ev_timed_out := false; ev_truncated := false;
          ev_redactions := ∅; ev_require_sync := false |} "execute_preflight"
          (if approved then Some "consumed" else None), written))) alias secret command limits = true) as ->.
  { unfold exec_in_order, set_preflight. cbn [m_secret m_preflight m_released m_policy m_clean].
    rewrite Hs. rewrite bool_decide_true by done. unfold authorized in Ha.
    cbn [decided ev_server_alias ev_command ev_decision]. rewrite !String.eqb_refl. cbn [andb].
    destruct (m_released m) as [rl|].
    - destruct Ha as (-> & Hal & <- & <-). rewrite orb_true_r, andb_true_r in Hw. bool_hyps. subst.
      cbn. rewrite String.eqb_refl, !bool_decide_true by done. done.
    - destruct Ha as (-> & Hp). rewrite orb_false_r in Hw. cbn.
      assert (written || negb (sv_audit_fail_closed service) = true) as ->.
      { destruct written, (sv_audit_fail_closed service); done. }
      cbn [andb]. apply orb_true_iff. rewrite orb_true_iff, !bool_decide_eq_true. tauto. }
  intros ended t2 finalWritten.
  destruct err as [e|], approved; cbn; apply HQ; try done; by destruct (written && finalWritten).
Qed.

(** What holds when a request returns: no secret is left uncleared, and a
    request held for approval was recorded, with the very command, server and
    limits, and announced to the auditor before the code is handed out. *)
Definition returns_clean (m : mon) (r : ExecuteResult) : Prop :=
  m_secret m = None ∧
  (res_status r = StatusRequiresApproval →
   ∃ alias command limits created info,
     m_created m = Some (alias, command, limits, created) ∧ m_audited m = true ∧
     res_approval r = Some info ∧ ai_id info = rl_id created ∧ ai_code info = rl_code created).

(** Compute up to the next effect, component by component. *)
Ltac run := cbn -[deferring executeRemote hold_for_approval execute_released Execute validExecuteRequest returns_clean].

Lemma safe_execute_released m rl (Q : mon → ExecuteResult → Prop) :
  m_released m = Some rl → m_secret m = None →
  (∀ m' r, m_secret m' = None → res_status r ≠ StatusRequiresApproval → Q m' r) →
  in_order m (execute_released service rl) Q.
Proof.
  intros Hrl Hs HQ. unfold execute_released. apply safe_deferring.
  intros [secret|]; cbn [fmap option_fmap option_map monitor].
  2:{ run. intros _. by apply HQ. }
  apply safe_deferring. apply safe_executeRemote; [done| |].
  { unfold authorized. run. rewrite Hrl. repeat split; try done. left. }
  intros m' r Hs' Hr' _ Hst. run. intros _ _. by apply HQ.
Qed.

Lemma safe_Execute m request :
  m_secret m = None → m_released m = None →
  in_order m (Execute service request) (λ m' r, returns_clean m' r ∧ m_released m' = None).
Proof.
  intros Hs Hrel. unfold Execute. intros ctx_err. run.
  destruct (validExecuteRequest ctx_err request); run; [|by split].
  intros [secret|]; run; [|by split].
  apply safe_deferring. intros [policy conc]. run.
  set (m1 := set_policy _ _).
  set (remote := λ cats, id ← nextRequestID; executeRemote service id (er_server_alias request)
    (er_command request) (requestLimits (er_timeout_seconds request) (er_max_output_bytes request) service)
    cats false secret).
  assert (∀ m' cats, m_secret m' = Some (er_server_alias request, secret) → m_released m' = None →
    (m_policy m' = Some "warn" ∨ m_policy m' = Some "off" ∨ m_clean m' = Some (er_command request)) →
    in_order m' (remote cats)
      (λ m' r, in_order m' (trigger (EZeroSecret (er_server_alias request)))
         (λ m'' _, returns_clean m'' r ∧ m_released m'' = None))) as Hremote.
  { intros m' cats Hs' Hr' Hp'. unfold remote. run. intros t n. apply safe_executeRemote; [done| |].
    - unfold authorized. by rewrite Hr'.
    - intros m'' r Hs'' Hr'' Hap Hst. run. intros _. split; [|run; congruence].
      split; [done|]. intros Heq. congruence. }
  destruct (String.eqb policy "off") eqn:Hoff; bool_hyps.
  { run. subst policy. run. apply Hremote; [done|done|]. right. by left. }
  run. intros [an|]; run; [|intros _; by split].
  destruct (String.eqb policy "warn") eqn:Hwarn; bool_hyps.
  { subst policy. apply Hremote; [done|done|]. by left. }
  destruct (an_categories an) as [|cat cats] eqn:Hcats.
  { apply Hremote; [done|done|]. by right; right. }
  unfold hold_for_approval. run. intros [created|]; run; [|intros _; by split].
  intros t written. run. destruct written; run.
  - intros _ _. split; [|done]. split; [done|]. intros _. repeat eexists.
  - intros _ _ _. by split.
Qed.

(** C1: no command runs on a server unless its execution is in order, however
    the other components answer and wherever the request is cut off: in every
    prefix of every run of [Execute], [ExecuteApproved] and [ExecuteWait], each
    execution uses the secret looked up for its server and not yet cleared,
    comes after its preflight event was written (or could be missed: never when
    auditing fails closed and never for an approved command), and has the
    authority of a policy that asks for no approval, of an analysis that found
    nothing in this very command, or of a released approval whose command,
    server and limits are exactly the executed ones. *)
Theorem executions_in_order request approved_request tr :
  starts (Execute service request) tr ∨ starts (ExecuteApproved service approved_request) tr ∨
  starts (ExecuteWait service request) tr →
  watch (monitor (sv_audit_fail_closed service)) mon_init tr ≠ Reject.
Proof.
  intros [Htr|[Htr|Htr]]; (eapply (safe_starts _ _ _ (λ _ _, True)); [|exact Htr]).
  - eapply safe_mono; [|by apply safe_Execute]. done.
  - unfold ExecuteApproved. intros ctx_err. run. case_match; run; [done|].
    intros [rl|e]; run; [|done]. by apply safe_execute_released.
  - unfold ExecuteWait. apply safe_bind. eapply safe_mono; [|by apply safe_Execute].
    intros m r [[Hs _] Hrel]. destruct (res_approval r) as [info|]; run; [|done].
    case_match; run; [done|]. unfold notify_approval.
    assert (in_order m (if negb (sv_waiting_store service) then mret (failed ErrApproval)
      else waited ← trigger (EWait (ai_id info));
           match waited with
           | Ok (Some approved) => execute_released service approved
           | _ => mret denied_result
           end) (λ _ _, True)) as Hrest.
    { case_match; run; [done|]. intros [[rl|]|e]; run; [|done..]. by apply safe_execute_released. }
    destruct (sv_notify service); run; [intros _|]; exact Hrest.
Qed.

(** Every request returns with its secret cleared, and a request that is
    held for approval hands out the code of an approval that was created for it
    and whose creation the auditor has durably recorded. *)
Theorem Execute_returns_clean request tr r :
  runs (Execute service request) tr r →
  ∃ m, watch (monitor (sv_audit_fail_closed service)) mon_init tr = Next m ∧ returns_clean m r.
Proof.
  intros Hr. pose proof (safe_runs _ _ _ _ _ _ (safe_Execute mon_init request eq_refl eq_refl) Hr) as Hw.
  destruct (watch _ _ _) as [m| |] eqn:Hm; [|done|].
  - exists m. by destruct Hw as [? _].
  - exfalso. clear -Hm. revert Hm. generalize mon_init.
    induction tr as [|[X e x] tr IH]; intros m; cbn [watch]; [done|].
    destruct (monitor _ m (IO e x)) eqn:Hv; [by apply IH|done|].
    destruct e; cbn in Hv; repeat case_match; done.
Qed.
End safety.

(** ** The outcome of one execution *)

Definition is_execution (i : io effect) : option (string * string * Limits) :=
  match i with
  | @IO _ X e x =>
      match e with EExecute alias _ command limits => Some (alias, command, limits) | _ => None end
  end.

Definition executions (tr : list (io effect)) : list (string * string * Limits) :=
  omap is_execution tr.

(** The answers of the auditor, in order. *)
Definition audit_answer (i : io effect) : option bool :=
  match i with
  | @IO _ X e x => match e in effect X return X → option bool with
                   | EAudit _ => λ b, Some b
                   | _ => λ _, None
                   end x
  end.

Section outcome.
Context `{OutputRedactor} (service : Service).

(** One execution: the command runs at most once, with the limits given;
    it does not run exactly when the preflight event could not be written and
    auditing is fail-closed or the command approved; the outputs handed back fit
    the output limit; and a lost audit event always shows, as the error of a
    request that did not run or as a warning on one that did. *)
Theorem executeRemote_outcome id alias command limits categories approved secret tr r :
  runs (executeRemote service id alias command limits categories approved secret) tr r →
  (executions tr = [] ∧ omap audit_answer tr = [false] ∧ r = failed ErrAudit ∧
   sv_audit_fail_closed service || approved = true) ∨
  (executions tr = [(alias, command, limits)] ∧
   (slen (res_stdout r) ≤ Z.max 0 (l_max_output limits))%Z ∧
   (slen (res_stderr r) ≤ Z.max 0 (l_max_output limits))%Z ∧
   (res_status r = StatusCompleted ↔ res_error r = None) ∧
   ∃ preflight final, omap audit_answer tr = [preflight; final] ∧
     (res_warnings r = [] ↔ preflight = true ∧ final = true) ∧
     (preflight = false → sv_audit_fail_closed service || approved = false)).
Proof.
  cbn. intros (t & tr1 & -> & written & tr2 & -> & Hr).
  destruct (negb written && (sv_audit_fail_closed service || approved)) eqn:Hw.
  { destruct Hr as [-> ->]. left. bool_hyps. by subst written. }
  destruct Hr as (started & tr3 & -> & [executed err] & tr4 & -> & ended & tr5 & -> & Hr).
  destruct Hr as (t2 & tr6 & -> & fw & tr7 & -> & -> & ->). right. cbn.
  pose proof (Redact_bounded (r_stdout executed) (approvedRedactions categories) (l_max_output limits)) as H1.
  pose proof (Redact_bounded (r_stderr executed) (approvedRedactions categories) (l_max_output limits)) as H2.
  split; [done|]. split; [by destruct (written && fw)|]. split; [by destruct (written && fw)|].
  split; [by destruct (written && fw), err as [[]|]|].
  exists written, fw. split; [done|]. split.
  - destruct written, fw; cbn; naive_solver.
  - intros ->. by rewrite andb_true_l in Hw.
Qed.
End outcome.

(** ** Settings *)

Definition settings_normal (p : string * Z) : bool :=
  String.eqb (normalizeRiskPolicy (fst p)) (fst p) && (1 <=? snd p)%Z && (snd p <=? 32)%Z.

Lemma normalizeRiskPolicy_idem v : normalizeRiskPolicy (normalizeRiskPolicy v) = normalizeRiskPolicy v.
Proof. unfold normalizeRiskPolicy at 2 3. case_match eqn:Hv; [|done]. unfold normalizeRiskPolicy. by rewrite Hv. Qed.

Lemma settings_normal_normalized v c : settings_normal (normalizeRiskPolicy v, normalizeConcurrency c) = true.
Proof.
  unfold settings_normal. simpl fst. simpl snd. rewrite normalizeRiskPolicy_idem, String.eqb_refl. cbn [andb].
  unfold normalizeConcurrency. case_match eqn:Hc; [done|]. bool_hyps.
  apply andb_true_iff. rewrite !Z.leb_le. lia.
Qed.

(** The settings a service can report are always normal: one of the three
    risk policies and a batch concurrency between 1 and 32, whatever values it
    is constructed with or updated to. *)
Theorem settings_always_normal options now service updates :
  NewService options now = Ok service →
  settings_normal (settings (foldl (λ s '(policy, level, concurrency),
                                      UpdateSettings s policy level concurrency) service updates)) = true.
Proof.
  intros Hn. assert (settings_normal (settings service) = true) as Hs.
  { unfold NewService in Hn. case_match; [done|]. simplify_eq. apply settings_normal_normalized. }
  clear Hn. revert service Hs. induction updates as [|[[p l] c] updates IH]; intros service Hs; [done|].
  cbn [foldl]. apply IH. apply settings_normal_normalized.
Qed.

Definition sample_options : ServiceOptions := {|
  so_allow_audit_fail_open := true; so_default_timeout := 30 * second; so_default_max_output := 65536;
  so_servers := []; so_vault_locked := false; so_version := "1"; so_policy_version := "1";
  so_risk_policy := "strict"; so_log_level := "info"; so_batch_concurrency := 0;
  so_batch_store := true; so_waiting_store := true; so_notify := true |}.

Definition sample_service : Service := {|
  sv_audit_fail_closed := false; sv_default_timeout := 30 * second; sv_default_max_output := 65536;
  sv_servers := []; sv_vault_locked := false; sv_version := "1"; sv_policy_version := "1";
  sv_risk_policy := "enforce"; sv_log_level := "info"; sv_batch_concurrency := 8; sv_started_at := 0;
  sv_batch_store := true; sv_waiting_store := true; sv_notify := true |}.

Lemma settings_always_normal_witness :
  settings_normal (settings (UpdateSettings sample_service "warn" "debug" 99)) = true.
Proof. exact (settings_always_normal sample_options 0 sample_service [("warn", "debug", 99%Z)] eq_refl). Defined.

(** ** Batches *)

(** The monitor of a batch: it also follows the two readings of the policy, and
    gives up when a reading is not one a service can give, or when the policy
    stopped being [off] between the readings. *)
Definition batch_monitor (failClosed : bool) (s : mon * option string) (i : io effect)
  : verdict (mon * option string) :=
  let '(m, first) := s in
  match i with
  | @IO _ X e x =>
      match e in effect X return X → verdict (mon * option string) with
      | ERiskPolicy => λ p, Next (m, Some p)
      | ESettings => λ p,
          if settings_normal p
             && negb (bool_decide (first = Some "off") && negb (String.eqb (fst p) "off"))
          then Next (set_policy m (fst p), first) else Broken
      | e => λ x, match monitor failClosed m (IO e x) with
                  | Next m => Next (m, first) | Reject => Reject | Broken => Broken
                  end
      end x
  end.

Section batch.
Context `{OutputRedactor} (service : Service).

Abbreviation in_batch_order := (safe (batch_monitor (sv_audit_fail_closed service))).

(** What is safe for the monitor of one request without reading the settings is
    safe for the monitor of a batch. *)
Definition settings_free {R} (p : handler R) : Prop :=
  safe (λ (_ : unit) (i : io effect), match i with
                    | @IO _ X e x => match e with ESettings | ERiskPolicy => Reject | _ => Next tt end
                    end) tt p (λ _ _, True).

Lemma safe_batch_lift {R} m first (p : handler R) (Q : mon → R → Prop) :
  settings_free p → safe (monitor (sv_audit_fail_closed service)) m p Q →
  in_batch_order (m, first) p (λ s r, Q (fst s) r).
Proof.
  unfold settings_free. revert m. induction p as [r|X e k IH]; intros m Hf Hs; simpl in *; [done|].
  intros x. specialize (Hf x). specialize (Hs x).
  destruct e; simpl in *; try done; try (by apply IH); repeat case_match; try done; by apply IH.
Qed.

Lemma executeRemote_settings_free id alias command limits categories approved secret :
  settings_free (executeRemote service id alias command limits categories approved secret).
Proof. intros t written. cbn. by case_match; [|intros started [executed err]]. Qed.

Definition job_ready (m : mon) (alias command : string) (limits : Limits) (approved : bool) : Prop :=
  authorized m alias command limits approved.

Lemma safe_batch_job m first alias command requestID limits categories approved :
  (requestID = nextRequestID ∨ ∃ id, requestID = mret id) →
  authorized m alias command limits approved →
  in_batch_order (m, first)
    (batch_job service alias command requestID limits categories approved) (λ _ _, True).
Proof.
  intros Hid Ha. unfold batch_job. intros [secret|]; cbn -[executeRemote]; [|done].
  set (m1 := set_secret m _).
  assert (∀ id, in_batch_order (m1, first)
    (one ← executeRemote service id alias command limits categories approved secret;
     _ ← trigger (EZeroSecret alias); mret {| sr_server_alias := alias; sr_result := one |})
    (λ _ _, True)) as Hrun.
  { intros id. apply safe_bind.
    eapply safe_mono; [|apply (safe_batch_lift _ _ _ (λ _ _, True));
      [apply executeRemote_settings_free|by apply safe_executeRemote]].
    by intros [m' f'] r _. }
  destruct Hid as [->|[id ->]]; [cbn -[executeRemote]; intros t n|cbn -[executeRemote]]; apply Hrun.
Qed.

(** A plan whose jobs may run in the state the planning left. *)
Definition plan_ok (s : mon * option string) (plan : batch_plan) : Prop :=
  (1 ≤ bp_concurrency plan ≤ 32)%Z ∧
  length (bp_jobs plan) = length (bp_aliases plan) ∧
  ∀ i alias, bp_aliases plan !! i = Some alias →
    ∃ command requestID limits categories approved,
      bp_jobs plan !! i = Some (batch_job service alias command requestID limits categories approved) ∧
      (requestID = nextRequestID ∨ ∃ id, requestID = mret id) ∧
      authorized (fst s) alias command limits approved.

Lemma clamp_concurrency_range requested d :
  (1 ≤ d ≤ 32)%Z → (1 ≤ clamp_concurrency requested d ≤ 32)%Z.
Proof. intros. unfold clamp_concurrency. repeat case_match; bool_hyps; lia. Qed.

Lemma settings_normal_spec p :
  settings_normal p = true →
  (fst p = "warn" ∨ fst p = "off" ∨ fst p = "enforce") ∧ (1 ≤ snd p ≤ 32)%Z.
Proof.
  unfold settings_normal. intros. bool_hyps. split; [|lia].
  assert (normalizeRiskPolicy (fst p) = "warn" ∨ normalizeRiskPolicy (fst p) = "off" ∨
          normalizeRiskPolicy (fst p) = "enforce") as Hn; [|congruence].
  unfold normalizeRiskPolicy. case_match eqn:Hc; [|auto].
  apply orb_true_iff in Hc as [Hc|Hc]; bool_hyps; auto.
Qed.

Lemma safe_plan_batch request aliases :
  in_batch_order (mon_init, None) (plan_batch service request aliases)
    (λ s res, m_released (fst s) = None ∧
       match res with inl _ => True | inr plan => bp_aliases plan = aliases ∧ plan_ok s plan end).
Proof.
  assert (∀ m first policy analysis,
    m_released m = None → settings_normal policy = true →
    (first = Some "off" → fst policy = "off") →
    (an_categories analysis = [] → m_clean m = Some (br_command request) ∨ fst policy = "off") →
    plan_ok (set_policy m (fst policy), first) {|
      bp_aliases := aliases;
      bp_jobs := (λ alias, batch_job service alias (br_command request) nextRequestID
        (requestLimits (br_timeout_seconds request) (br_max_output_bytes request) service)
        (an_categories analysis) false) <$> aliases;
      bp_concurrency := clamp_concurrency (br_concurrency request) (snd policy);
      bp_after := mret tt |} ∨ (fst policy = "enforce" ∧ an_categories analysis ≠ [])) as Hplan.
  { intros m first policy analysis Hrel Hn Hoff Hcl. apply settings_normal_spec in Hn as [Hp Hc].
    destruct (decide (fst policy = "enforce" ∧ an_categories analysis ≠ [])) as [?|Hne]; [by right|left].
    split; [by apply clamp_concurrency_range|]. split; [apply length_fmap|].
    intros i alias Hi. cbn [bp_aliases bp_jobs] in Hi |- *.
    do 5 eexists. split; [by rewrite list_lookup_fmap, Hi|]. split; [by left|].
    unfold authorized. cbn. rewrite Hrel. split; [done|].
    destruct Hp as [->|[->| He]]; [by left|by right; left|].
    destruct (an_categories analysis) eqn:Hca; [|by destruct Hne].
    destruct (Hcl eq_refl) as [?|Ho]; [by right; right|]. rewrite Ho in He. done. }
  unfold plan_batch. intros first. cbn -[batch_job settle_batch plan_ok String.eqb].
  assert (∀ m analysis, m_released m = None →
    (an_categories analysis = [] → m_clean m = Some (br_command request) ∨ first = "off") →
    in_batch_order (m, Some first) (settle_batch service request aliases analysis)
      (λ s res, m_released (fst s) = None ∧
         match res with inl _ => True | inr plan => bp_aliases plan = aliases ∧ plan_ok s plan end))
    as Hrest; [|destruct (String.eqb first "off") eqn:Hoff; bool_hyps; cbn -[batch_job settle_batch plan_ok]].
  2:{ apply Hrest; [done|by right]. }
  2:{ intros [an|]; cbn -[batch_job settle_batch plan_ok]; [|done]. apply Hrest; [done|]. cbn. intros ->. by left. }
  intros m analysis Hrel Hcl policy. cbn -[batch_job settings_normal].
  destruct (settings_normal policy && _) eqn:Hn; [|done]. bool_hyps.
  assert (first = "off" → fst policy = "off") as Hoff.
  { intros ->. rename select (_ && _ = false) into Hb. rewrite bool_decide_true in Hb by done.
    cbn [andb] in Hb. by bool_hyps. }
  destruct (String.eqb (fst policy) "enforce" && negb (Nat.eqb (length (an_categories analysis)) 0)) eqn:Hhold.
  - case_match; cbn; [done|]. intros [created|]; cbn; done.
  - cbn -[batch_job plan_ok]. split; [done|]. split; [done|].
    destruct (Hplan m (Some first) policy analysis) as [?|[He Hne]]; try done.
    + by intros [= ->]; apply Hoff.
    + intros Hnil. destruct (Hcl Hnil) as [?|Hf]; [by left|right; by apply Hoff].
    + rewrite He, String.eqb_refl in Hhold. destruct (an_categories analysis); [done|by cbn in Hhold].
Qed.

Lemma safe_ExecuteBatch request :
  in_batch_order (mon_init, None) (ExecuteBatch service request)
    (λ s res, m_released (fst s) = None ∧
       match res with
       | inl _ => True
       | inr plan => plan_ok s plan ∧ NoDup (bp_aliases plan) ∧ Forall (λ a, a ≠ "") (bp_aliases plan)
       end).
Proof.
  unfold ExecuteBatch. intros ctx_err. cbn -[plan_batch batch_targets trim_space str_is_empty].
  case_match; cbn; [done|].
  assert (∀ servers, in_batch_order (mon_init, None)
    (match batch_targets request servers with
     | None => mret (inl (batch_failed StatusFailed ErrValidation))
     | Some aliases => plan_batch service request aliases
     end)
    (λ s res, m_released (fst s) = None ∧
       match res with
       | inl _ => True
       | inr plan => plan_ok s plan ∧ NoDup (bp_aliases plan) ∧ Forall (λ a, a ≠ "") (bp_aliases plan)
       end)) as Hplan.
  { intros servers. destruct (batch_targets request servers) as [aliases|] eqn:Ht; [|by cbn].
    assert (∃ l, aliases = unique_aliases l) as [l ->].
    { revert Ht. unfold batch_targets. case_match; [done|]. intros [= <-]. by eexists. }
    eapply safe_mono; [|apply safe_plan_batch].
    intros s [r|plan]; cbn -[plan_ok]; [done|]. intros (Hr & Ha & Hp).
    split; [done|]. split; [done|]. rewrite Ha. unfold unique_aliases.
    split; [apply NoDup_dedup|]. apply Forall_forall. intros a. rewrite elem_of_dedup.
    by intros [? _]%list_elem_of_filter. }
  destruct (br_all request); [intros servers; exact (Hplan servers)|exact (Hplan [])].
Qed.

Lemma safe_ExecuteBatchWait request :
  in_batch_order (mon_init, None) (ExecuteBatchWait service request)
    (λ s res, match res with inl _ => True | inr plan => plan_ok s plan end).
Proof.
  unfold ExecuteBatchWait. apply safe_bind. eapply safe_mono; [|apply safe_ExecuteBatch].
  intros [m first] [r|plan]; cbn -[plan_ok]; [|by intros (_ & ? & _)].
  intros [Hrel _]. destruct (bres_approval r) as [info|]; cbn; [|done].
  case_match; cbn; [done|].
  assert (in_batch_order (m, first)
    (if negb (sv_waiting_store service) then mret (inl (batch_failed StatusFailed ErrApproval))
     else waited ← trigger (EWait (ai_id info));
          match waited with
          | Ok (Some approved) =>
              default_ ← (if (br_concurrency request <=? 0)%Z then trigger ESettings
                          else mret ("", br_concurrency request));
              mret (inr {|
                bp_aliases := rl_aliases approved;
                bp_jobs := (λ alias, batch_job service alias (rl_command approved)
                              (mret (approvalRequestID (rl_id approved)))
                              (ssh_limits (rl_limits approved)) (rl_categories approved) true)
                             <$> rl_aliases approved;
                bp_concurrency := clamp_concurrency (br_concurrency request) (snd default_);
                bp_after := trigger (EZeroCommand (rl_id approved)) |})
          | _ => mret (inl (batch_failed StatusDenied ErrApproval))
          end)
    (λ s res, match res with inl _ => True | inr plan => plan_ok s plan end)) as Hrest.
  { case_match; cbn; [done|]. intros [[rl|]|e]; cbn; [|done..].
    assert (∀ m' first' d, m_released m' = Some rl →
      ((0 < br_concurrency request)%Z ∨ (1 ≤ d ≤ 32)%Z) → plan_ok (m', first') {|
        bp_aliases := rl_aliases rl;
        bp_jobs := (λ alias, batch_job service alias (rl_command rl)
                      (mret (approvalRequestID (rl_id rl)))
                      (ssh_limits (rl_limits rl)) (rl_categories rl) true) <$> rl_aliases rl;
        bp_concurrency := clamp_concurrency (br_concurrency request) d;
        bp_after := trigger (EZeroCommand (rl_id rl)) |}) as Hplan.
    { intros m' first' d Hm' Hd. split.
      { cbn. unfold clamp_concurrency. repeat case_match; bool_hyps; lia. }
      split; [apply length_fmap|]. intros i alias Hi. cbn [bp_aliases bp_jobs] in Hi |- *.
      do 5 eexists. split; [by rewrite list_lookup_fmap, Hi|]. split; [by right; eexists|].
      unfold authorized. cbn [fst]. rewrite Hm'. repeat split; try done. right.
      by eapply list_elem_of_lookup_2. }
    destruct (_ <=? 0)%Z eqn:Hc; bool_hyps; cbn -[plan_ok settings_normal].
    - intros policy. destruct (settings_normal policy && _) eqn:Hn; [|done]. bool_hyps.
      apply Hplan; [done|]. right. by apply settings_normal_spec.
    - apply Hplan; [done|]. by left. }
  unfold notify_approval. destruct (sv_notify service); cbn -[plan_ok]; [intros _|]; exact Hrest.
Qed.

Lemma watch_app {S} (mon : S → io effect → verdict S) s tr1 tr2 :
  watch mon s (tr1 ++ tr2) = match watch mon s tr1 with Next s' => watch mon s' tr2 | v => v end.
Proof.
  revert s. induction tr1 as [|e tr1 IH]; intros s; [done|]. cbn [app watch].
  destruct (mon s e); [apply IH|done|done].
Qed.

(** The executions of a batch are in order too, for every worker and every
    prefix of its work, as long as the policy read before the analysis and the
    policy read after it do not change from [off] to another one: each server of
    the batch runs the command only after its own preflight event, with its own
    secret, and under the policy, the analysis or the one released approval. *)
Theorem batch_executions_in_order request tr plan job jtr :
  runs (ExecuteBatch service request) tr (inr plan) ∨
  runs (ExecuteBatchWait service request) tr (inr plan) →
  job ∈ bp_jobs plan → starts job jtr →
  watch (batch_monitor (sv_audit_fail_closed service)) (mon_init, None) (tr ++ jtr) ≠ Reject.
Proof.
  intros Hruns Hjob Hst.
  assert (match watch (batch_monitor (sv_audit_fail_closed service)) (mon_init, None) tr with
          | Next s => plan_ok s plan | Reject => False | Broken => True end) as Hw.
  { destruct Hruns as [Hr|Hr].
    - pose proof (safe_runs _ _ _ _ _ _ (safe_ExecuteBatch request) Hr) as Hw.
      destruct (watch _ _ _); [|done..]. by destruct Hw as (_ & ? & _).
    - exact (safe_runs _ _ _ _ _ _ (safe_ExecuteBatchWait request) Hr). }
  rewrite watch_app. destruct (watch _ _ tr) as [[m first]| |]; [|done..].
  destruct Hw as (_ & Hlen & Hjobs). apply list_elem_of_lookup in Hjob as [i Hi].
  assert (is_Some (bp_aliases plan !! i)) as [alias Ha].
  { apply lookup_lt_is_Some. rewrite <- Hlen. by eapply lookup_lt_Some. }
  destruct (Hjobs _ _ Ha) as (command & rid & limits & cats & approved & Hj & Hrid & Hauth).
  rewrite Hi in Hj. injection Hj as ->.
  eapply safe_starts; [|exact Hst]. by apply safe_batch_job.
Qed.

Lemma batch_job_bounded alias command requestID limits categories approved :
  (requestID = nextRequestID ∨ ∃ id, requestID = mret id) →
  bounded 11 (batch_job service alias command requestID limits categories approved).
Proof.
  intros Hid. unfold batch_job. cbn -[executeRemote]. intros [secret|]; [|done].
  assert (∀ id, bounded 8 (one ← executeRemote service id alias command limits categories approved secret;
     _ ← trigger (EZeroSecret alias); mret {| sr_server_alias := alias; sr_result := one |})) as Hb.
  { intros id. apply (bounded_bind 7 1); [|done]. cbn. intros t written.
    case_match; [done|]. cbn. by intros started [executed err]. }
  destruct Hid as [->|[id ->]]; cbn -[executeRemote].
  - intros t n. apply Hb.
  - eapply bounded_mono; [|apply Hb]. lia.
Qed.

Lemma batch_job_alias alias command requestID limits categories approved tr r :
  runs (batch_job service alias command requestID limits categories approved) tr r →
  sr_server_alias r = alias.
Proof.
  unfold batch_job. intros (found & tr' & _ & Hr). cbn -[executeRemote] in Hr. destruct found as [secret|]; [|by destruct Hr as [_ ->]].
  apply runs_bind in Hr as (? & ? & id & _ & _ & Hr).
  apply runs_bind in Hr as (? & ? & one & _ & _ & Hr). cbn in Hr.
  by destruct Hr as (? & ? & ? & ? & ->).
Qed.

(** C35: a batch always ends and covers every server exactly once: with settings
    a service can give, between one and 32 workers run; in every schedule of
    them the work goes on until every alias has been served, after at most 13
    steps per alias; then there is one result per alias, in the order of the
    aliases, each coming from one complete run of that alias's job, and the
    batch is reported completed exactly when every result is. *)
Theorem batch_complete request tr plan :
  runs (ExecuteBatch service request) tr (inr plan) ∨
  runs (ExecuteBatchWait service request) tr (inr plan) →
  watch (batch_monitor (sv_audit_fail_closed service)) (mon_init, None) tr ≠ Broken →
  (1 ≤ bp_concurrency plan ≤ 32)%Z ∧
  ∀ m ptr s, pool_steps (Z.to_nat (bp_concurrency plan)) m (pool_init (bp_jobs plan)) ptr s →
    (m ≤ 13 * length (bp_aliases plan))%nat ∧
    (length (pl_active s) ≤ Z.to_nat (bp_concurrency plan))%nat ∧
    ((∀ X, effect X → X) → ¬ pool_finished s →
       ∃ l s', pool_step (Z.to_nat (bp_concurrency plan)) s l s') ∧
    (pool_finished s →
       let results := pool_results (length (bp_aliases plan)) s in
       (∀ i alias, bp_aliases plan !! i = Some alias →
          ∃ job r, bp_jobs plan !! i = Some job ∧ results !! i = Some r ∧
            sr_server_alias r = alias ∧ runs job (calls_of i ptr) r) ∧
       length results = length (bp_aliases plan) ∧
       (batch_status results = StatusCompleted ↔
          Forall (λ r, res_status (sr_result r) = StatusCompleted) results)).
Proof.
  intros Hruns Hnb.
  assert (∃ s, plan_ok s plan) as [s0 (Hconc & Hlen & Hjobs)].
  { destruct Hruns as [Hr|Hr].
    - pose proof (safe_runs _ _ _ _ _ _ (safe_ExecuteBatch request) Hr) as Hw.
      destruct (watch _ _ _) as [s| |]; [|done..]. exists s. by destruct Hw as (_ & ? & _).
    - pose proof (safe_runs _ _ _ _ _ _ (safe_ExecuteBatchWait request) Hr) as Hw.
      destruct (watch _ _ _) as [s| |]; [|done..]. by exists s. }
  split; [done|]. intros m ptr s Hsteps.
  assert (Forall (bounded 11) (bp_jobs plan)) as Hbound.
  { apply Forall_lookup. intros i job Hi.
    assert (is_Some (bp_aliases plan !! i)) as [alias Ha].
    { apply lookup_lt_is_Some. rewrite <- Hlen. by eapply lookup_lt_Some. }
    destruct (Hjobs _ _ Ha) as (command & rid & limits & cats & approved & Hj & Hrid & _).
    rewrite Hi in Hj. injection Hj as ->. by apply batch_job_bounded. }
  split; [rewrite <- Hlen; exact (pool_terminates _ _ _ _ _ _ Hbound Hsteps)|].
  assert (length (pl_active s) ≤ Z.to_nat (bp_concurrency plan))%nat as Hact.
  { eapply pool_active_bound; [exact Hsteps|]. simpl. lia. }
  split; [done|]. split; [intros ans Hnf; apply pool_progress; [done|lia|done|done]|].
  intros Hfin. cbn zeta. split; [|split].
  - intros i alias Ha.
    destruct (Hjobs _ _ Ha) as (command & rid & limits & cats & approved & Hj & Hrid & _).
    destruct (pool_sound _ _ _ _ _ Hsteps Hfin _ _ Hj) as (r & Hres & Hrun).
    exists (batch_job service alias command rid limits cats approved), r.
    split; [done|]. split; [|split; [by eapply batch_job_alias|done]].
    unfold pool_results. rewrite list_lookup_fmap, lookup_seq_lt by by eapply lookup_lt_Some.
    cbn. by rewrite Hres.
  - unfold pool_results. by rewrite length_fmap, length_seq.
  - unfold batch_status. case_match eqn:Hall.
    + split; [|done]. intros _. apply Forall_forall. intros r Hr.
      rewrite forallb_forall in Hall. apply list_elem_of_In in Hr.
      apply Hall in Hr. by apply String.eqb_eq.
    + split; [done|]. intros Hf. exfalso. apply not_true_iff_false in Hall. apply Hall.
      apply forallb_forall. intros r Hr. apply list_elem_of_In in Hr.
      rewrite Forall_forall in Hf. apply String.eqb_eq. by apply Hf.
Qed.

(** ** What batches leave out *)

Definition risky_batch : BatchExecuteRequest := {|
  br_server_aliases := ["web"]; br_all := false; br_command := "cat /etc/shadow";
  br_concurrency := 0; br_timeout_seconds := 0; br_max_output_bytes := 0 |}.

(** [ExecuteBatch] reads the risk policy twice, the first time without the
    lock: when the policy is changed from [off] to [enforce] between the two
    readings, a batch starts under [enforce] without having been analyzed and
    without an approval. *)
Theorem batch_policy_race :
  ∃ plan, runs (ExecuteBatch service risky_batch)
      [IO ECtxErr false; IO ERiskPolicy "off"; IO ESettings ("enforce", 8%Z)] (inr plan) ∧
    bp_aliases plan = ["web"] ∧
    ∃ job, bp_jobs plan = [job] ∧
      ∀ secret answer, ∃ tr,
        starts job tr ∧
        last tr = Some (IO (EExecute "web" secret "cat /etc/shadow" (requestLimits 0 0 service)) answer).
Proof.
  eexists. split; [|split; [|eexists; split]].
  - assert (batch_targets risky_batch [] = Some ["web"]) as Ht by (vm_compute; reflexivity).
    unfold ExecuteBatch. cbn -[plan_batch batch_targets trim_space str_is_empty]. eexists false, _. split; [done|].
    cbn -[plan_batch batch_targets trim_space str_is_empty]. rewrite Ht. unfold plan_batch, settle_batch. cbn -[batch_job].
    eexists "off", _. split; [done|]. cbn -[batch_job]. eexists ("enforce", 8%Z), _. split; [done|].
    cbn -[batch_job]. done.
  - done.
  - done.
  - intros secret answer.
    eexists [IO (ELookup "web") (Some secret); IO ENow 0%Z; IO ESequence 1%Z; IO ENow 0%Z;
             IO (EAudit _) true; IO ENow 0%Z; IO (EExecute "web" secret _ _) answer].
    split; [|done]. repeat (eexists; split; [reflexivity|cbn]). done.
Qed.

(** Programs none of whose runs calls the auditor. *)
Definition silent {R} (p : handler R) : Prop :=
  safe (λ (_ : unit) i, match audit_answer i with Some _ => Reject | None => Next tt end) tt p (λ _ _, True).

Lemma silent_runs {R} (p : handler R) tr r : silent p → runs p tr r → omap audit_answer tr = [].
Proof.
  intros Hs Hr. pose proof (safe_runs _ _ _ _ _ _ Hs Hr) as Hw. clear Hs Hr. revert Hw.
  induction tr as [|e tr IH]; [done|]. cbn [watch omap list_omap].
  destruct (audit_answer e); [done|]. exact IH.
Qed.

Lemma silent_settle_batch request aliases analysis : silent (settle_batch service request aliases analysis).
Proof.
  unfold settle_batch. intros policy. cbn -[batch_job]. case_match; cbn -[batch_job]; [|done].
  case_match; cbn; [done|]. by intros [created|].
Qed.

Lemma silent_plan_batch request aliases : silent (plan_batch service request aliases).
Proof.
  unfold plan_batch. intros first. cbn -[settle_batch String.eqb].
  destruct (String.eqb first "off"); cbn -[settle_batch]; [apply silent_settle_batch|].
  intros [an|]; [apply silent_settle_batch|done].
Qed.

(** A batch that asks for approval tells the auditor nothing: no run of
    [ExecuteBatch] up to its workers makes an audit call, so the creation of a
    batch approval leaves no record, where [Execute] hands out no code before
    the creation is recorded. *)
Theorem batch_approval_unaudited request tr res :
  runs (ExecuteBatch service request) tr res → omap audit_answer tr = [].
Proof.
  apply silent_runs. unfold ExecuteBatch. intros ctx_err. cbn -[plan_batch batch_targets trim_space str_is_empty].
  case_match; cbn; [done|].
  assert (∀ servers, silent (match batch_targets request servers with
    | None => mret (inl (batch_failed StatusFailed ErrValidation))
    | Some aliases => plan_batch service request aliases
    end)) as Hplan by (intros servers; case_match; [apply silent_plan_batch|done]).
  destruct (br_all request); [intros servers; exact (Hplan servers)|exact (Hplan [])].
Qed.

Definition blank_batch : BatchExecuteRequest := {|
  br_server_aliases := [" "]; br_all := false; br_command := "id";
  br_concurrency := 0; br_timeout_seconds := 0; br_max_output_bytes := 0 |}.

(** A batch whose aliases are all blank passes the check for an empty list,
    which is made before blanks are dropped, and is reported completed without
    a result. *)
Theorem blank_batch_completes :
  batch_runs (ExecuteBatch service blank_batch)
    [IO ECtxErr false; IO ERiskPolicy "off"; IO ESettings ("off", 8%Z)] [] []
    (batch_result []) ∧
  bres_status (batch_result []) = StatusCompleted.
Proof.
  split; [|done].
  eapply (batch_pooled _ _ {| bp_aliases := []; bp_jobs := []; bp_concurrency := 8; bp_after := mret tt |}
            0 [] (pool_init []) []); [|by apply pool_refl|done|done].
  assert (batch_targets blank_batch [] = Some []) as Ht by (vm_compute; reflexivity).
  unfold ExecuteBatch. cbn -[plan_batch batch_targets trim_space str_is_empty]. eexists false, _. split; [done|].
  cbn -[plan_batch batch_targets trim_space str_is_empty]. rewrite Ht. unfold plan_batch, settle_batch. cbn -[batch_job].
  eexists "off", _. split; [done|]. cbn -[batch_job]. eexists ("off", 8%Z), _. split; [done|].
  cbn -[batch_job]. done.
Qed.
End batch.

(** ** Sample runs *)

(** The simplest redactor that keeps the promise. *)
Definition cut_redactor : OutputRedactor.
Proof.
  refine {| Redact := λ input _ maxBytes, {|
    rr_text := truncateValidUTF8 (to_valid_utf8 input) maxBytes; rr_counts := ∅; rr_truncated := false |} |}.
  intros. apply truncateValidUTF8_bounded.
Defined.

Definition sample_secret : ServerSecret := {|
  ss_host := "h"; ss_port := 22; ss_user := "u"; ss_auth_method := ""; ss_password := "pw";
  ss_private_key := ""; ss_private_key_passphrase := ""; ss_host_fingerprint := "SHA256:x" |}.

Definition sample_request : ExecuteRequest := {|
  er_server_alias := "web"; er_command := "id"; er_timeout_seconds := 0; er_max_output_bytes := 0 |}.

Definition blank_event (id alias command : string) (categories : list Category) : Event := {|
  ev_timestamp := 0; ev_request_id := id; ev_interface := "unix"; ev_server_alias := alias;
  ev_command := command; ev_decision := ""; ev_risk_categories := categories; ev_approval_state := "";
  ev_duration_ms := 0; ev_exit_code := 0; ev_timed_out := false; ev_truncated := false;
  ev_redactions := ∅; ev_require_sync := false |}.

(** A run under [off], up to the execution. *)
Definition sample_execution : list (io effect) :=
  [ IO ECtxErr false; IO (ELookup "web") (Some sample_secret); IO ESettings ("off", 8%Z);
    IO ENow 0%Z; IO ESequence 1%Z; IO ENow 0%Z;
    IO (EAudit (decided (blank_event "broker-0-1" "web" "id" []) "execute_preflight" None)) true;
    IO ENow 0%Z;
    IO (EExecute "web" sample_secret "id" (requestLimits 0 0 sample_service)) (zero_Result, None) ].

Ltac replay := repeat (cbn -[remote_result Redact truncateValidUTF8 to_valid_utf8 format_rfc3339 trim_space];
  first [exact I | split; [reflexivity|reflexivity]
        | eexists; split; [reflexivity|] | eexists; eexists; split; [reflexivity|]]).

Lemma executions_in_order_witness :
  executions sample_execution = [("web", "id", requestLimits 0 0 sample_service)] ∧
  watch (monitor false) mon_init sample_execution ≠ Reject.
Proof.
  split; [reflexivity|].
  refine (@executions_in_order cut_redactor sample_service sample_request
    {| ar_approval_id := ""; ar_approval_code := "" |} sample_execution (or_introl _)).
  unfold sample_execution. replay.
Defined.

Definition sample_released : released := {|
  rl_id := "0a"; rl_code := "ABCD"; rl_alias := "web"; rl_aliases := ["web"]; rl_command := "id";
  rl_categories := [SSHSecret]; rl_limits := approval_limits (requestLimits 0 0 sample_service);
  rl_expires_at := 0 |}.

(** A run under [enforce], held for approval. *)
Definition sample_hold : list (io effect) :=
  [ IO ECtxErr false; IO (ELookup "web") (Some sample_secret); IO ESettings ("enforce", 8%Z);
    IO (EAnalyze "id") (Some {| an_findings := []; an_categories := [SSHSecret] |});
    IO (ECreate "web" "id" [SSHSecret] (approval_limits (requestLimits 0 0 sample_service))) (Ok sample_released);
    IO ENow 0%Z;
    IO (EAudit (decided (blank_event "approval-0a" "web" "id" [SSHSecret]) StatusRequiresApproval (Some "created"))) true;
    IO (EZeroCommand "0a") tt; IO (EZeroSecret "web") tt ].

Lemma Execute_returns_clean_witness :
  ∃ r, res_status r = StatusRequiresApproval ∧
  ∃ m, watch (monitor false) mon_init sample_hold = Next m ∧ returns_clean m r.
Proof.
  eexists. split; [|refine (@Execute_returns_clean cut_redactor sample_service sample_request sample_hold _ _);
    unfold sample_hold; replay]. reflexivity.
Defined.

Lemma executeRemote_outcome_witness :
  let tr := [ IO ENow 0%Z;
    IO (EAudit (decided (blank_event "approval-0a" "web" "id" []) "execute_preflight" (Some "consumed"))) false ] in
  executions tr = [] ∧ omap audit_answer tr = [false].
Proof.
  destruct (@executeRemote_outcome cut_redactor sample_service "approval-0a" "web" "id"
    (requestLimits 0 0 sample_service) [] true sample_secret
    [ IO ENow 0%Z;
      IO (EAudit (decided (blank_event "approval-0a" "web" "id" []) "execute_preflight" (Some "consumed"))) false ]
    (failed ErrAudit)) as [H|H].
  - replay.
  - exact (conj (proj1 H) (proj1 (proj2 H))).
  - exfalso. discriminate (proj1 H).
Defined.

Definition sample_batch_plan : batch_plan := {|
  bp_aliases := ["web"];
  bp_jobs := [@batch_job cut_redactor sample_service "web" "cat /etc/shadow" nextRequestID
                (requestLimits 0 0 sample_service) [] false];
  bp_concurrency := 8; bp_after := mret tt |}.

Definition sample_batch_trace : list (io effect) :=
  [ IO ECtxErr false; IO ERiskPolicy "off"; IO ESettings ("off", 8%Z) ].

Lemma sample_batch_runs :
  runs (@ExecuteBatch cut_redactor sample_service risky_batch) sample_batch_trace (inr sample_batch_plan).
Proof.
  assert (batch_targets risky_batch [] = Some ["web"]) as Ht by (vm_compute; reflexivity).
  unfold ExecuteBatch. cbn -[batch_targets plan_batch trim_space str_is_empty]. eexists false, _. split; [done|].
  cbn -[batch_targets plan_batch trim_space str_is_empty].
  assert (str_is_empty (trim_space (br_command risky_batch)) = false) as Hc by (vm_compute; reflexivity).
  cbn -[batch_targets plan_batch trim_space str_is_empty] in Hc. rewrite Hc, Ht.
  unfold plan_batch, settle_batch. cbn -[batch_job].
  eexists "off", _. split; [done|]. cbn -[batch_job]. eexists ("off", 8%Z), _. split; [done|].
  cbn -[batch_job]. done.
Qed.

Lemma batch_executions_in_order_witness :
  watch (batch_monitor false) (mon_init, None) (sample_batch_trace ++ [IO (ELookup "web") None]) ≠ Reject.
Proof.
  refine (@batch_executions_in_order cut_redactor sample_service risky_batch sample_batch_trace
    sample_batch_plan (@batch_job cut_redactor sample_service "web" "cat /etc/shadow" nextRequestID
                (requestLimits 0 0 sample_service) [] false) _ (or_introl sample_batch_runs) _ _).
  - left.
  - replay.
Defined.

Lemma batch_complete_witness : (1 ≤ bp_concurrency sample_batch_plan ≤ 32)%Z.
Proof.
  refine (proj1 (@batch_complete cut_redactor sample_service risky_batch sample_batch_trace
    sample_batch_plan (or_introl sample_batch_runs) _)).
  vm_compute. discriminate.
Defined.

Lemma batch_approval_unaudited_witness : omap audit_answer sample_batch_trace = [].
Proof.
  exact (@batch_approval_unaudited cut_redactor sample_service risky_batch sample_batch_trace _ sample_batch_runs).
Defined.

