(* ===== verification/Daemon.v ===== *)
(** * The daemon: [daemonService] and [memorySecrets] of [internal/app/app.go]

    The secrets of an unlocked vault, in memory that is wiped, and the handlers
    that unlock, lock, stop and configure a running daemon, as trees of calls
    that run concurrently: each connection has its own, and between two calls of
    one any of the others may run.  The world is the files of [AppVaultSpec],
    the memory, the service of [Service], the operational log and the
    connections of [SshClient]. *)

From S2P Require Import Prelude GoStr Utf8 GoTime Prog Model Vault SshClient Service VaultStore Config OpsLog AppConfig AppVault AppVaultSpec.
Open Scope string_scope.
Open Scope list_scope.

(** ** Secrets in memory *)

(** The buffers of a secret are a cell; copies of the struct share it.
    [mm_held]: cells of a vault that was loaded, by the handler that has it. *)
Record memory := Memory {
  mm_cells : gmap nat ServerSecret;
  mm_servers : gmap string nat;
  mm_held : gmap nat nat;
  mm_next : nat }.

Definition no_memory : memory := Memory ∅ ∅ ∅ 0.

Definition wipe (cells : list nat) (m : gmap nat ServerSecret) : gmap nat ServerSecret :=
  foldr (λ l, alter ZeroServerSecret l) m cells.

Definition cells_of (servers : gmap string nat) : list nat := (map_to_list servers).*2.

(** [memorySecrets.Lock]: the loop over the map, in any order. *)
Definition ClearMemory (m : memory) : memory :=
  Memory (wipe (cells_of (mm_servers m)) (mm_cells m)) ∅ (mm_held m) (mm_next m).

(** [secrets.servers[alias] = vault.CloneServerSecret(secret)] *)
Definition add_clone (m : memory) (entry : string * nat) : memory :=
  match mm_cells m !! snd entry with
  | Some secret =>
      Memory (<[mm_next m := secret]> (mm_cells m)) (<[fst entry := mm_next m]> (mm_servers m)) (mm_held m) (S (mm_next m))
  | None => m
  end.

Definition Replace (m : memory) (data : gmap string nat) : memory :=
  foldl add_clone (ClearMemory m) (map_to_list data).

(** A clone: a value. *)
Definition Lookup (m : memory) (alias : string) : option ServerSecret := mm_servers m !! alias ≫= λ l, mm_cells m !! l.

Definition Available (m : memory) (alias : string) : bool := bool_decide (is_Some (mm_servers m !! alias)).

(** The cells of a vault that is loaded by [owner], and wiping them. *)
Definition hold_one (owner : nat) (r : memory * gmap string nat) (entry : string * ServerSecret) : memory * gmap string nat :=
  let '(m, held) := r in
  (Memory (<[mm_next m := snd entry]> (mm_cells m)) (mm_servers m) (<[mm_next m := owner]> (mm_held m)) (S (mm_next m)),
   <[fst entry := mm_next m]> held).

Definition hold (owner : nat) (m : memory) (secrets : gmap string ServerSecret) : memory * gmap string nat :=
  foldl (hold_one owner) (m, ∅) (map_to_list secrets).

Definition zeroVaultData (m : memory) (data : gmap string nat) : memory :=
  Memory (wipe (cells_of data) (mm_cells m)) (mm_servers m) (foldr delete (mm_held m) (cells_of data)) (mm_next m).

(** ** Calls *)

Inductive daemon_op : Type → Type :=
| OnApp {X : Type} (e : app_op X) : daemon_op X
| HoldData (secrets : gmap string ServerSecret) : daemon_op (gmap string nat)
| ZeroData (data : gmap string nat) : daemon_op unit
| ReplaceSecrets (data : gmap string nat) : daemon_op unit
| ClearSecrets : daemon_op unit
| SecretAvailable (alias : string) : daemon_op bool
| LockedServers : daemon_op (list ServerSummary)
| SetLockedServers (servers : list ServerSummary) : daemon_op unit
| StateCall (locked : bool) (servers : list ServerSummary) : daemon_op unit
| SettingsCall (riskPolicy logLevel : string) (batchConcurrency : Z) : daemon_op unit
| LevelCall (value : string) : daemon_op unit
| LogCall (component event : string) : daemon_op unit
| CloseConnections : daemon_op unit
| OnceStop : daemon_op bool
| CancelServe : daemon_op unit.

Abbreviation handler := (prog daemon_op).

(** A program of the command line, inside the daemon. *)
Abbreviation on_app := (embed (λ X, @OnApp X)).

(** ** The handlers *)

Definition Lock : handler unit :=
  _ ← trigger ClearSecrets;
  _ ← trigger CloseConnections;
  locked ← trigger LockedServers;
  _ ← trigger (StateCall true locked);
  _ ← trigger (LogCall "vault" "locked");
  Ret tt.

Definition Stop : handler unit :=
  first ← trigger OnceStop;
  if negb first then Ret tt
  else
    _ ← trigger ClearSecrets;
    _ ← trigger CloseConnections;
    _ ← trigger (LogCall "daemon" "stopped");
    _ ← trigger CancelServe;
    Ret tt.

(** [Available] of each alias: one reading of the map each. *)
Fixpoint availability (aliases : list string) : handler (gmap string bool) :=
  match aliases with
  | [] => Ret ∅
  | alias :: aliases => b ← trigger (SecretAvailable alias); rest ← availability aliases; Ret (<[alias := b]> rest)
  end.

Definition available_servers (cfg : Config) : handler (list ServerSummary) :=
  found ← availability (map_to_list (servers_of cfg)).*1;
  Ret (publicServers cfg (λ alias, default false (found !! alias))).

(** The [unlock] of [daemon]; [defer zeroVaultData(&data)]. *)
Definition unlock_loaded (data : Data) (held : gmap string nat) : handler (option CodedError) :=
  latest ← trigger (OnApp ConfigLoad);
  match (latest : option Config) with
  | None => Ret (Some ErrLockedVault)
  | Some latest =>
      if negb (consistentAliases latest data) then Ret (Some ErrLockedVault)
      else
        let latest := normalizedConfig latest (Some data) in
        saved ← on_app (saveConfigVerified latest);
        if negb saved then Ret (Some ErrAudit)
        else
          _ ← trigger (SetLockedServers (publicServers latest (λ _, false)));
          _ ← trigger (ReplaceSecrets held);
          servers ← available_servers latest;
          _ ← trigger (StateCall false servers);
          _ ← trigger (LogCall "vault" "unlocked");
          Ret None
  end.

Definition Unlock (master : string) : handler (option CodedError) :=
  data ← trigger (OnApp (VaultLoad MainVault master));
  match (data : option Data) with
  | None => Ret (Some ErrLockedVault)
  | Some data =>
      held ← trigger (HoldData (secrets_of data));
      r ← unlock_loaded data held;
      _ ← trigger (ZeroData held);
      Ret r
  end.

Definition Configure (key value : string) : handler (option CodedError) :=
  latest ← trigger (OnApp ConfigLoad);
  match (latest : option Config) with
  | None => Ret (Some ErrValidation)
  | Some latest =>
      match set_setting daemon_level latest key value with
      | None => Ret (Some ErrValidation)
      | Some latest =>
          saved ← on_app (saveConfigVerified latest);
          if negb saved then Ret (Some ErrAudit)
          else
            _ ← (if String.eqb key "log-level" then trigger (LevelCall value) else Ret tt);
            let d := cfg_defaults latest in
            _ ← trigger (SettingsCall (df_risk_policy d) (df_log_level d) (df_batch_concurrency d));
            _ ← trigger (LogCall "config" "updated");
            Ret None
      end
  end.

(** ** What the memory holds *)

(** Whatever is not the store's, and not held by a handler, is wiped. *)
Record memory_ok (m : memory) : Prop := {
  mk_servers alias l : mm_servers m !! alias = Some l → is_Some (mm_cells m !! l) ∧ mm_held m !! l = None;
  mk_inj a b l : mm_servers m !! a = Some l → mm_servers m !! b = Some l → a = b;
  mk_next l : is_Some (mm_cells m !! l) → (l < mm_next m)%nat;
  mk_held l i : mm_held m !! l = Some i → is_Some (mm_cells m !! l);
  mk_wiped l s : mm_cells m !! l = Some s → (∀ alias, mm_servers m !! alias ≠ Some l) → mm_held m !! l = None → ZeroServerSecret s = s }.

Lemma no_memory_ok : memory_ok no_memory.
Proof. by split; intros *; rewrite ?lookup_empty; try intros [? [=]]. Qed.

Lemma ZeroServerSecret_twice s : ZeroServerSecret (ZeroServerSecret s) = ZeroServerSecret s.
Proof. done. Qed.

Lemma lookup_wipe cells m l :
  wipe cells m !! l = if decide (l ∈ cells) then ZeroServerSecret <$> m !! l else m !! l.
Proof.
  induction cells as [|c cells IH]; [by rewrite decide_False by set_solver|]. simpl.
  destruct (decide (l = c)) as [->|Hne].
  - rewrite lookup_alter_eq, IH, (decide_True (P := c ∈ c :: cells)) by set_solver.
    destruct (decide _); [|done]. by destruct (m !! c).
  - rewrite lookup_alter_ne, IH by done. destruct (decide (l ∈ cells)).
    + by rewrite decide_True by set_solver.
    + by rewrite decide_False by set_solver.
Qed.

Lemma elem_of_cells_of servers l : l ∈ cells_of servers ↔ ∃ alias, servers !! alias = Some l.
Proof.
  unfold cells_of. rewrite list_elem_of_fmap. split.
  - intros ([alias l'] & -> & H%elem_of_map_to_list). by exists alias.
  - intros [alias H]. exists (alias, l). by rewrite elem_of_map_to_list.
Qed.

Lemma lookup_wipe_servers servers m l s : wipe (cells_of servers) m !! l = Some s →
  (∃ alias, servers !! alias = Some l) ∧ ZeroServerSecret s = s ∨ (∀ alias, servers !! alias ≠ Some l) ∧ m !! l = Some s.
Proof.
  rewrite lookup_wipe. case_decide as Hin.
  - apply elem_of_cells_of in Hin. destruct (m !! l) as [s0|]; [|done]. intros [= <-]. by left.
  - intros H. right. split; [|done]. intros alias Ha. apply Hin, elem_of_cells_of. by exists alias.
Qed.

Lemma ClearMemory_ok m : memory_ok m → memory_ok (ClearMemory m).
Proof.
  intros [Hs Hi Hn Hh Hw]. split; simpl; try done.
  - intros l [s Hl]. apply Hn. rewrite lookup_wipe in Hl. case_decide; [|by exists s]. by destruct (mm_cells m !! l).
  - intros l i Hl. destruct (Hh l i Hl) as [s Hsl]. rewrite lookup_wipe, Hsl. case_decide; by eexists.
  - intros l s [[_ Hz]|[Hno Hl]]%lookup_wipe_servers _ Hheld; [done|]. by eapply Hw.
Qed.

(** Cells that a handler holds keep what they have. *)
Definition held_same (m m' : memory) : Prop :=
  mm_held m' = mm_held m ∧ ∀ l i, mm_held m !! l = Some i → mm_cells m' !! l = mm_cells m !! l.

Lemma held_same_refl m : held_same m m.
Proof. done. Qed.

Lemma held_same_trans m m' m'' : held_same m m' → held_same m' m'' → held_same m m''.
Proof.
  intros [H1 H2] [H3 H4]. split; [congruence|]. intros l i Hl. rewrite (H4 l i), (H2 l i); [done|done|congruence].
Qed.

Lemma ClearMemory_held m : memory_ok m → held_same m (ClearMemory m).
Proof.
  intros Hok. split; [done|]. intros l i Hl. simpl. rewrite lookup_wipe, decide_False; [done|].
  intros [alias Ha]%elem_of_cells_of. destruct (mk_servers _ Hok _ _ Ha). congruence.
Qed.

Lemma add_clone_ok m alias l i : memory_ok m → mm_held m !! l = Some i → mm_servers m !! alias = None →
  memory_ok (add_clone m (alias, l)) ∧ held_same m (add_clone m (alias, l)) ∧
  Lookup (add_clone m (alias, l)) alias = mm_cells m !! l ∧ is_Some (mm_servers (add_clone m (alias, l)) !! alias) ∧
  (∀ a, a ≠ alias → mm_servers (add_clone m (alias, l)) !! a = mm_servers m !! a ∧ Lookup (add_clone m (alias, l)) a = Lookup m a).
Proof.
  intros Hok Hl Ha. destruct (mk_held _ Hok _ _ Hl) as [s Hs]. unfold add_clone. simpl. rewrite Hs.
  assert (mm_cells m !! mm_next m = None) as Hfresh.
  { apply eq_None_not_Some. intros H%(mk_next _ Hok). lia. }
  assert (∀ a c, mm_servers m !! a = Some c → c ≠ mm_next m) as Hne.
  { intros a c Hc ->. destruct (mk_servers _ Hok _ _ Hc) as [[] _]. congruence. }
  assert (∀ c j, mm_held m !! c = Some j → c ≠ mm_next m) as Hneh.
  { intros c j Hc ->. destruct (mk_held _ Hok _ _ Hc). congruence. }
  split_and!.
  - destruct Hok as [Hks Hki Hkn Hkh Hkw]. split; simpl.
    + intros a c. destruct (decide (a = alias)) as [->|].
      * rewrite lookup_insert_eq. intros [= <-]. rewrite lookup_insert_eq. split; [by eexists|].
        apply eq_None_not_Some. intros [j Hj]. by apply (Hneh _ _ Hj).
      * rewrite lookup_insert_ne by done. intros Hc. rewrite lookup_insert_ne by (intros <-; by apply (Hne _ _ Hc)). by eapply Hks.
    + intros a b c. destruct (decide (a = alias)) as [->|], (decide (b = alias)) as [->|]; rewrite ?lookup_insert_eq, ?lookup_insert_ne by done; try done.
      * intros [= <-] Hb. by destruct (Hne _ _ Hb).
      * intros Hc [= <-]. by destruct (Hne _ _ Hc).
      * apply Hki.
    + intros c. destruct (decide (c = mm_next m)) as [->|]; [lia|]. rewrite lookup_insert_ne by done. intros Hc%Hkn. lia.
    + intros c j Hj. rewrite lookup_insert_ne by (intros <-; by apply (Hneh _ _ Hj)). by eapply Hkh.
    + intros c s' Hc Hno Hhc. destruct (decide (c = mm_next m)) as [->|].
      { destruct (Hno alias). by rewrite lookup_insert_eq. }
      rewrite lookup_insert_ne in Hc by done. eapply Hkw; [done| |done]. intros a Hac. apply (Hno a).
      rewrite lookup_insert_ne; [done|]. intros <-. congruence.
  - split; [done|]. intros c j Hj. simpl. rewrite lookup_insert_ne; [done|]. intros <-. by apply (Hneh _ _ Hj).
  - unfold Lookup. simpl. rewrite lookup_insert_eq. simpl. by rewrite lookup_insert_eq.
  - simpl. rewrite lookup_insert_eq. by eexists.
  - intros a Hne'. unfold Lookup. simpl. rewrite lookup_insert_ne by done. split; [done|].
    destruct (mm_servers m !! a) as [c|] eqn:Hc; [|done]. simpl. rewrite lookup_insert_ne; [done|]. intros <-. by apply (Hne _ _ Hc).
Qed.

Lemma add_clones_ok i l m : memory_ok m → NoDup l.*1 →
  (∀ alias c, (alias, c) ∈ l → mm_held m !! c = Some i ∧ mm_servers m !! alias = None) →
  let m' := foldl add_clone m l in
  memory_ok m' ∧ held_same m m' ∧
  (∀ alias c, (alias, c) ∈ l → Lookup m' alias = mm_cells m !! c) ∧
  (∀ alias, alias ∉ l.*1 → Lookup m' alias = Lookup m alias ∧ mm_servers m' !! alias = mm_servers m !! alias).
Proof.
  revert m. induction l as [|[alias c] l IH]; intros m Hok Hnd Hl; simpl.
  { split_and!; [done|done|by intros ? ? ?%not_elem_of_nil|done]. }
  apply NoDup_cons in Hnd as [Hni Hnd]. destruct (Hl alias c) as [Hc Ha]; [by left|].
  destruct (add_clone_ok m alias c i Hok Hc Ha) as (Hok1 & Hh1 & Hl1 & _ & Ho1).
  destruct (IH (add_clone m (alias, c)) Hok1 Hnd) as (Hok2 & Hh2 & Hl2 & Ho2).
  { intros a d Had. destruct (Hl a d) as [Hd Hn]; [by right|]. destruct Hh1 as [-> _]. split; [done|].
    destruct (Ho1 a) as [-> _]; [|done]. intros ->. apply Hni. apply list_elem_of_fmap. by exists (alias, d). }
  split_and!; [done|by eapply held_same_trans| |].
  - intros a d [[= -> ->]|Had]%elem_of_cons.
    + destruct (Ho2 alias Hni) as [-> _]. exact Hl1.
    + rewrite (Hl2 a d Had). destruct (Hl a d) as [Hd _]; [by right|]. by apply (proj2 Hh1 d i).
  - intros a [Hne Hna]%not_elem_of_cons. destruct (Ho2 a Hna) as [-> ->]. destruct (Ho1 a Hne) as [-> ->]. done.
Qed.

(** [Replace]: the store has clones of the cells it was given, and of nothing
    else; what it had is wiped. *)
Lemma Replace_ok i m data : memory_ok m → (∀ alias c, data !! alias = Some c → mm_held m !! c = Some i) →
  memory_ok (Replace m data) ∧ held_same m (Replace m data) ∧
  (∀ alias, Lookup (Replace m data) alias = data !! alias ≫= λ c, mm_cells m !! c) ∧
  (∀ alias, data !! alias = None → mm_servers (Replace m data) !! alias = None).
Proof.
  intros Hok Hd. pose proof (ClearMemory_ok m Hok) as Hok0. pose proof (ClearMemory_held m Hok) as Hh0.
  destruct (add_clones_ok i (map_to_list data) (ClearMemory m) Hok0) as (Hok1 & Hh1 & Hl & Ho).
  { apply NoDup_fst_map_to_list. }
  { intros alias c Hc%elem_of_map_to_list. split; [by eapply Hd|done]. }
  assert (∀ alias, data !! alias = None → alias ∉ (map_to_list data).*1) as Hnone.
  { intros alias Hn ([a c] & -> & Hc%elem_of_map_to_list)%list_elem_of_fmap. simpl in *. congruence. }
  split_and!; [done|by eapply held_same_trans| |].
  - intros alias. destruct (data !! alias) as [c|] eqn:Hc; simpl.
    + unfold Replace. rewrite (Hl alias c) by by apply elem_of_map_to_list. apply (proj2 Hh0 c i). by eapply Hd.
    + destruct (Ho alias (Hnone alias Hc)) as [H _]. unfold Replace. by rewrite H.
  - intros alias Hc. destruct (Ho alias (Hnone alias Hc)) as [_ H]. unfold Replace. by rewrite H.
Qed.

(** What a step does to the rest of the memory, seen by the others. *)
Definition others_same (i : nat) (m m' : memory) : Prop :=
  ∀ l j, j ≠ i → mm_held m !! l = Some j → mm_held m' !! l = Some j ∧ mm_cells m' !! l = mm_cells m !! l.

Definition store_same (m m' : memory) : Prop := mm_servers m' = mm_servers m ∧ ∀ alias, Lookup m' alias = Lookup m alias.

Lemma hold_one_ok i m held entry : memory_ok m →
  let '(m', held') := hold_one i (m, held) entry in
  memory_ok m' ∧ store_same m m' ∧
  (∀ l j, mm_held m !! l = Some j → mm_held m' !! l = Some j ∧ mm_cells m' !! l = mm_cells m !! l) ∧
  mm_held m' = <[mm_next m := i]> (mm_held m) ∧ mm_cells m' !! mm_next m = Some (snd entry) ∧ held' = <[fst entry := mm_next m]> held.
Proof.
  intros Hok. simpl. assert (mm_cells m !! mm_next m = None) as Hfresh.
  { apply eq_None_not_Some. intros H%(mk_next _ Hok). lia. }
  assert (∀ a c, mm_servers m !! a = Some c → c ≠ mm_next m) as Hne.
  { intros a c Hc ->. destruct (mk_servers _ Hok _ _ Hc) as [[] _]. congruence. }
  assert (∀ c j, mm_held m !! c = Some j → c ≠ mm_next m) as Hneh.
  { intros c j Hc ->. destruct (mk_held _ Hok _ _ Hc). congruence. }
  split_and!; try done.
  - destruct Hok as [Hks Hki Hkn Hkh Hkw]. split; simpl.
    + intros a c Hc. rewrite !lookup_insert_ne by (intros <-; by apply (Hne _ _ Hc)). by eapply Hks.
    + apply Hki.
    + intros c. destruct (decide (c = mm_next m)) as [->|]; [lia|]. rewrite lookup_insert_ne by done. intros Hc%Hkn. lia.
    + intros c j. destruct (decide (c = mm_next m)) as [->|]; [rewrite !lookup_insert_eq; by eexists|].
      rewrite !lookup_insert_ne by done. apply Hkh.
    + intros c s Hc Hno Hhc. destruct (decide (c = mm_next m)) as [->|]; [by rewrite lookup_insert_eq in Hhc|].
      rewrite lookup_insert_ne in Hc by done. rewrite lookup_insert_ne in Hhc by done. by eapply Hkw.
  - split; [done|]. intros alias. unfold Lookup. simpl. destruct (mm_servers m !! alias) as [c|] eqn:Hc; [|done]. simpl.
    rewrite lookup_insert_ne; [done|]. intros <-. by apply (Hne _ _ Hc).
  - intros l j Hj. simpl. rewrite !lookup_insert_ne by (intros <-; by apply (Hneh _ _ Hj)). done.
  - simpl. by rewrite lookup_insert_eq.
Qed.

Lemma hold_all_ok i l m held : memory_ok m → NoDup l.*1 →
  (∀ alias c, held !! alias = Some c → mm_held m !! c = Some i) →
  let '(m', held') := foldl (hold_one i) (m, held) l in
  memory_ok m' ∧ store_same m m' ∧
  (∀ c j, mm_held m !! c = Some j → mm_held m' !! c = Some j ∧ mm_cells m' !! c = mm_cells m !! c) ∧
  (∀ c j, mm_held m' !! c = Some j → mm_held m !! c = Some j ∨ j = i ∧ ∃ alias, held' !! alias = Some c) ∧
  (∀ alias c, held' !! alias = Some c → mm_held m' !! c = Some i) ∧
  (∀ alias s, (alias, s) ∈ l → held' !! alias ≫= (λ c, mm_cells m' !! c) = Some s) ∧
  (∀ alias, alias ∉ l.*1 → held' !! alias = held !! alias).
Proof.
  revert m held. induction l as [|[alias s] l IH]; intros m held Hok Hnd Hheld; cbn [foldl].
  { split_and!; try done; [by intros; left|by intros ? ? ?%not_elem_of_nil]. }
  apply NoDup_cons in Hnd as [Hni Hnd]. pose proof (hold_one_ok i m held (alias, s) Hok) as H1.
  destruct (hold_one i (m, held) (alias, s)) as [m1 held1]. destruct H1 as (Hok1 & [Hss1 Hsl1] & Hk1 & Hn1 & Hc1 & ->). simpl in *.
  specialize (IH m1 (<[alias := mm_next m]> held) Hok1 Hnd).
  destruct (foldl (hold_one i) (m1, <[alias:=mm_next m]> held) l) as [m2 held2]. destruct IH as (Hok2 & [Hss2 Hsl2] & Hk2 & Hb2 & Hh2 & Hl2 & Ho2).
  { intros a c. destruct (decide (a = alias)) as [->|]; [rewrite lookup_insert_eq; intros [= <-]; by rewrite Hn1, lookup_insert_eq|].
    rewrite lookup_insert_ne by done. intros Hc%Hheld. by destruct (Hk1 _ _ Hc). }
  split_and!; [done|split; [congruence|intros a; by rewrite Hsl2]| | |done| |].
  - intros c j Hj. destruct (Hk1 c j Hj) as [Hj1 <-]. by apply Hk2.
  - intros c j [Hj|]%Hb2; [|by right]. rewrite Hn1 in Hj. destruct (decide (c = mm_next m)) as [->|].
    + rewrite lookup_insert_eq in Hj. injection Hj as <-. right. split; [done|]. exists alias. by rewrite Ho2, lookup_insert_eq.
    + rewrite lookup_insert_ne in Hj by done. by left.
  - intros a s' [[= -> ->]|Has]%elem_of_cons; [|by apply Hl2].
    rewrite Ho2, lookup_insert_eq by done. simpl.
    destruct (Hk2 (mm_next m) i) as [_ ->]; [by rewrite Hn1, lookup_insert_eq|done].
  - intros a [Hne Hna]%not_elem_of_cons. rewrite Ho2 by done. by rewrite lookup_insert_ne.
Qed.

(** [hold]: the secrets are in cells of their own. *)
Lemma hold_ok i m secrets : memory_ok m →
  let '(m', data) := hold i m secrets in
  memory_ok m' ∧ store_same m m' ∧
  (∀ c j, mm_held m !! c = Some j → mm_held m' !! c = Some j ∧ mm_cells m' !! c = mm_cells m !! c) ∧
  (∀ c j, mm_held m' !! c = Some j → mm_held m !! c = Some j ∨ j = i ∧ ∃ alias, data !! alias = Some c) ∧
  (∀ alias c, data !! alias = Some c → mm_held m' !! c = Some i) ∧
  (∀ alias, data !! alias ≫= (λ c, mm_cells m' !! c) = secrets !! alias).
Proof.
  intros Hok. pose proof (hold_all_ok i (map_to_list secrets) m ∅ Hok (NoDup_fst_map_to_list secrets)) as H.
  unfold hold. destruct (foldl _ _ _) as [m' data]. destruct H as (H1 & H2 & H3 & H3' & H4 & H5 & H6); [done|].
  split_and!; try done. intros alias. destruct (secrets !! alias) as [s|] eqn:Hs.
  - apply H5. by apply elem_of_map_to_list.
  - rewrite H6; [done|]. intros ([a s] & -> & Ha%elem_of_map_to_list)%list_elem_of_fmap. simpl in *. congruence.
Qed.

Lemma lookup_foldr_delete (cells : list nat) (m : gmap nat nat) l :
  foldr delete m cells !! l = if decide (l ∈ cells) then None else m !! l.
Proof.
  induction cells as [|c cells IH]; [by rewrite decide_False by set_solver|]. simpl. destruct (decide (l = c)) as [->|Hne].
  - rewrite lookup_delete_eq, decide_True by set_solver. done.
  - rewrite lookup_delete_ne, IH by done. destruct (decide (l ∈ cells)); [by rewrite decide_True by set_solver|].
    by rewrite decide_False by set_solver.
Qed.

(** [zeroVaultData]: the cells are wiped; the store, which has clones, keeps
    its secrets. *)
Lemma zeroVaultData_ok i m data : memory_ok m → (∀ alias c, data !! alias = Some c → mm_held m !! c = Some i) →
  memory_ok (zeroVaultData m data) ∧ store_same m (zeroVaultData m data) ∧ others_same i m (zeroVaultData m data).
Proof.
  intros Hok Hd. assert (∀ c, c ∈ cells_of data → mm_held m !! c = Some i) as Hcells.
  { intros c [alias Ha]%elem_of_cells_of. by eapply Hd. }
  assert (∀ alias c, mm_servers m !! alias = Some c → c ∉ cells_of data) as Hapart.
  { intros alias c Hc Hin%Hcells. destruct (mk_servers _ Hok _ _ Hc). congruence. }
  split_and!.
  - destruct Hok as [Hks Hki Hkn Hkh Hkw]. split; simpl.
    + intros alias c Hc. rewrite lookup_wipe, lookup_foldr_delete, !decide_False by by eapply Hapart. by eapply Hks.
    + apply Hki.
    + intros c [s Hc]. apply Hkn. rewrite lookup_wipe in Hc. case_decide; [|by exists s]. by destruct (mm_cells m !! c).
    + intros c j. rewrite lookup_foldr_delete, lookup_wipe. case_decide; [done|]. apply Hkh.
    + intros c s [[_ Hz]|[Hno Hc]]%lookup_wipe_servers Hnos Hheld; [done|]. eapply Hkw; [done|done|].
      rewrite lookup_foldr_delete, decide_False in Hheld; [done|]. intros [alias Ha]%elem_of_cells_of. by apply (Hno alias).
  - split; [done|]. intros alias. unfold Lookup. simpl. destruct (mm_servers m !! alias) as [c|] eqn:Hc; [|done]. simpl.
    by rewrite lookup_wipe, decide_False by by eapply Hapart.
  - intros c j Hne Hj. simpl. rewrite lookup_foldr_delete, lookup_wipe, !decide_False; [done|..]; intros Hin%Hcells; congruence.
Qed.

(** ** The running daemon *)

#[export] Instance ServerSummary_eq_dec : EqDecision ServerSummary.
Proof. solve_decision. Defined.

Record daemon := DaemonState {
  dm_files : files;
  dm_memory : memory;
  dm_locked : list ServerSummary;
  dm_service : Service;
  dm_logger : Logger;
  dm_events : list (string * string);
  dm_connections : SshClient.Client;
  dm_once : bool;
  dm_cancelled : bool }.

Definition with_files (w : daemon) (f : files) : daemon :=
  DaemonState f (dm_memory w) (dm_locked w) (dm_service w) (dm_logger w) (dm_events w) (dm_connections w) (dm_once w) (dm_cancelled w).
Definition with_memory (w : daemon) (m : memory) : daemon :=
  DaemonState (dm_files w) m (dm_locked w) (dm_service w) (dm_logger w) (dm_events w) (dm_connections w) (dm_once w) (dm_cancelled w).
Definition with_service (w : daemon) (s : Service) : daemon :=
  DaemonState (dm_files w) (dm_memory w) (dm_locked w) s (dm_logger w) (dm_events w) (dm_connections w) (dm_once w) (dm_cancelled w).

(** [daemon_acts i w e x]: the handler [i] calls [e], and it answers [x]. *)
Definition daemon_acts (i : nat) (X : Type) (w : daemon) (e : daemon_op X) : X → option daemon :=
  match e in daemon_op X return X → option daemon with
  | OnApp e => λ x, with_files w <$> acts (dm_files w) e x
  | HoldData secrets => λ data,
      let '(m, held) := hold i (dm_memory w) secrets in if decide (data = held) then Some (with_memory w m) else None
  | ZeroData data => λ _, Some (with_memory w (zeroVaultData (dm_memory w) data))
  | ReplaceSecrets data => λ _, Some (with_memory w (Replace (dm_memory w) data))
  | ClearSecrets => λ _, Some (with_memory w (ClearMemory (dm_memory w)))
  | SecretAvailable alias => λ b, if Bool.eqb b (Available (dm_memory w) alias) then Some w else None
  | LockedServers => λ l, if decide (l = dm_locked w) then Some w else None
  | SetLockedServers l => λ _,
      Some (DaemonState (dm_files w) (dm_memory w) l (dm_service w) (dm_logger w) (dm_events w) (dm_connections w) (dm_once w) (dm_cancelled w))
  | StateCall locked l => λ _, Some (with_service w (SetVaultState (dm_service w) locked l))
  | SettingsCall p l n => λ _, Some (with_service w (UpdateSettings (dm_service w) p l n))
  | LevelCall v => λ _,
      Some (DaemonState (dm_files w) (dm_memory w) (dm_locked w) (dm_service w) (fst (SetLevel (dm_logger w) v)) (dm_events w)
              (dm_connections w) (dm_once w) (dm_cancelled w))
  | LogCall c v => λ _,
      Some (DaemonState (dm_files w) (dm_memory w) (dm_locked w) (dm_service w) (dm_logger w) ((c, v) :: dm_events w)
              (dm_connections w) (dm_once w) (dm_cancelled w))
  | CloseConnections => λ _,
      Some (DaemonState (dm_files w) (dm_memory w) (dm_locked w) (dm_service w) (dm_logger w) (dm_events w)
              (SshClient.Close (dm_connections w)) (dm_once w) (dm_cancelled w))
  | OnceStop => λ first,
      if Bool.eqb first (negb (dm_once w))
      then Some (DaemonState (dm_files w) (dm_memory w) (dm_locked w) (dm_service w) (dm_logger w) (dm_events w) (dm_connections w)
                   true (dm_cancelled w)) else None
  | CancelServe => λ _,
      Some (DaemonState (dm_files w) (dm_memory w) (dm_locked w) (dm_service w) (dm_logger w) (dm_events w) (dm_connections w)
              (dm_once w) true)
  end.

Definition unavailable (l : list ServerSummary) : Prop := Forall (λ s, Model.ss_available s = false) l.

(** What holds at every moment: memory that is not in use is wiped; the store
    has secrets of the vault; a daemon that says it is locked shows no server as
    available. *)
Record daemon_ok (w : daemon) : Prop := {
  do_memory : memory_ok (dm_memory w);
  do_secrets alias s : Lookup (dm_memory w) alias = Some s →
    ∃ master data, fs_main (dm_files w) = Some (master, data) ∧ secrets_of data !! alias = Some s;
  do_locked : unavailable (dm_locked w);
  do_state : sv_vault_locked (dm_service w) = true → unavailable (sv_servers (dm_service w)) }.

(** What the handler [i] can rely on: the vault's file stays, what it holds is
    its own, and the invariant. *)
Record others (i : nat) (w w' : daemon) : Prop := {
  ot_main : fs_main (dm_files w') = fs_main (dm_files w);
  ot_held l : mm_held (dm_memory w') !! l = Some i ↔ mm_held (dm_memory w) !! l = Some i;
  ot_cells l : mm_held (dm_memory w) !! l = Some i → mm_cells (dm_memory w') !! l = mm_cells (dm_memory w) !! l;
  ot_ok : daemon_ok w → daemon_ok w' }.

Lemma others_refl i w : others i w w.
Proof. by split. Qed.

Lemma others_trans i w w' w'' : others i w w' → others i w' w'' → others i w w''.
Proof.
  intros [H1 H2 H3 H4] [H5 H6 H7 H8]. split; [congruence|by intros l; rewrite H6, H2| |auto].
  intros l Hl. rewrite H7, H3; [done|done|by apply H2].
Qed.

(** The handler [i] holds [data], the cells of [secrets]. *)
Definition holds (i : nat) (data : gmap string nat) (secrets : gmap string ServerSecret) (w : daemon) : Prop :=
  (∀ c, mm_held (dm_memory w) !! c = Some i ↔ ∃ alias, data !! alias = Some c) ∧
  (∀ alias, data !! alias ≫= (λ c, mm_cells (dm_memory w) !! c) = secrets !! alias).

Definition holds_nothing (i : nat) (w : daemon) : Prop := ∀ c, mm_held (dm_memory w) !! c ≠ Some i.

Definition quiet (i : nat) (w : daemon) : Prop := daemon_ok w ∧ holds_nothing i w.

Lemma quiet_stable i : stable others i (quiet i).
Proof. intros w w' [Hok Hn] [H1 H2 H3 H4]. split; [auto|]. intros c Hc%H2. by apply (Hn c). Qed.

(** While it unlocks with what it loaded. *)
Definition unlocking (i : nat) (data : Data) (held : gmap string nat) (w : daemon) : Prop :=
  daemon_ok w ∧ holds i held (secrets_of data) w ∧ ∃ master, fs_main (dm_files w) = Some (master, data).

Lemma unlocking_stable i data held : stable others i (unlocking i data held).
Proof.
  intros w w' (Hok & [Hh Hc] & m & Hm) [H1 H2 H3 H4]. split; [auto|]. split.
  - split; [intros c; by rewrite H2|]. intros alias. rewrite <- Hc. destruct (held !! alias) as [c|] eqn:Ha; [|done]. simpl.
    apply H3, Hh. by exists alias.
  - exists m. by rewrite H1.
Qed.

(** ** Handlers that run together *)

Abbreviation tri := (triple daemon_acts others).

(** A step that leaves the memory, the vault's file and the invariant. *)
Definition mild (w w' : daemon) : Prop :=
  fs_main (dm_files w') = fs_main (dm_files w) ∧ dm_memory w' = dm_memory w ∧ (daemon_ok w → daemon_ok w').

Lemma mild_others i w w' : mild w w' → others i w w'.
Proof. intros (H1 & H2 & H3). split; [done|by rewrite H2|by rewrite H2|done]. Qed.

Lemma triple_mild i P {X} (e : daemon_op X) (F : X → Prop) : stable others i P →
  (∀ w x w', P w → daemon_acts i X w e x = Some w' → mild w w' ∧ F x) → tri i P (trigger e) (λ x w, P w ∧ F x).
Proof.
  intros HP He. apply triple_call; [done|intros x w w' [Hw Hx] Ho; split; [by eapply HP|done]|].
  intros w x w' Hw Ha. destruct (He w x w' Hw Ha) as [Hm Hx]. split; [intros j _; by apply mild_others|].
  split; [|done]. eapply HP; [done|]. by apply mild_others.
Qed.

Lemma triple_pure {R} i P (F : Prop) (p : handler R) Q : (F → tri i P p Q) → tri i (λ w, P w ∧ F) p Q.
Proof. intros Hp w [Hw HF]. by apply Hp. Qed.

(** A mild call, and what follows. *)
Lemma tri_mild i P {X R} (e : daemon_op X) (F : X → Prop) (k : X → handler R) Q : stable others i P →
  (∀ w x w', P w → daemon_acts i X w e x = Some w' → mild w w' ∧ F x) → (∀ x, F x → tri i P (k x) Q) →
  tri i P (trigger e ≫= k) Q.
Proof.
  intros HP He Hk. eapply (triple_bind others_refl); [by apply (triple_mild i P e F)|].
  intros x. apply triple_pure. auto.
Qed.

Lemma mild_refl w : mild w w.
Proof. done. Qed.

Lemma mild_set w f l s lg ev c o ca :
  fs_main f = fs_main (dm_files w) → (daemon_ok w → unavailable l) → (daemon_ok w → sv_vault_locked s = true → unavailable (sv_servers s)) →
  mild w (DaemonState f (dm_memory w) l s lg ev c o ca).
Proof. intros Hf Hl Hs. split; [done|]. split; [done|]. intros Hok. split; simpl; [apply Hok|rewrite Hf; apply Hok|auto|auto]. Qed.

(** Calls that any handler may make at any time. *)
Definition plain_call {X} (e : daemon_op X) : bool :=
  match e with
  | OnApp e => match e with ConfigLoad | ConfigSave _ => true | _ => false end
  | SecretAvailable _ | SettingsCall _ _ _ | LevelCall _ | LogCall _ _ | CloseConnections | OnceStop | CancelServe => true
  | _ => false
  end.

Lemma plain_mild i X (e : daemon_op X) x w w' : plain_call e = true → daemon_acts i X w e x = Some w' → mild w w'.
Proof.
  destruct e as [X e| | | | | | | | | | | | | |]; intros He Ha; try done; cbn [daemon_acts] in Ha;
    try (repeat case_match; simplify_eq; first [done|apply mild_set; [done|by intros []|by intros []]]; fail).
  - apply fmap_Some in Ha as (f & Ha & ->). apply mild_set; [|by intros []|by intros []].
    destruct e; try done; cbn [acts] in Ha; repeat (case_match || case_decide); simplify_eq; try done.
    by destruct x as [|[]].
Qed.

Lemma tri_plain i P {X R} (e : daemon_op X) (k : X → handler R) Q : stable others i P → plain_call e = true →
  (∀ x, tri i P (k x) Q) → tri i P (trigger e ≫= k) Q.
Proof.
  intros HP He Hk. apply (tri_mild i P e (λ _, True)); [done| |auto]. intros w x w' _ Ha. split; [|done]. by eapply plain_mild.
Qed.

(** A program of plain calls. *)
Lemma tri_plains {R R'} i P (p : handler R') (k : R' → handler R) Q : stable others i P → only (@plain_call) p →
  (∀ x, tri i P (k x) Q) → tri i P (p ≫= k) Q.
Proof.
  intros HP Hp Hk. induction p as [r|X e p' IH]; [apply Hk|]. destruct Hp as [He Hp].
  exact (tri_plain i P e _ Q HP He (λ x, IH x (Hp x))).
Qed.

Lemma plain_saveConfig cfg : only (@plain_call) (on_app (saveConfigVerified cfg)).
Proof. split; [done|]. intros []; [done|]. by split. Qed.

Lemma plain_availability aliases : only (@plain_call) (availability aliases).
Proof. induction aliases as [|alias aliases IH]; [done|]. split; [done|]. intros b. by apply only_bind. Qed.

(** ** Each of them *)

Lemma clear_ok i P : stable others i P → (∀ w, P w → daemon_ok w) →
  tri i P (trigger ClearSecrets) (λ _, P).
Proof.
  intros HP Hok. apply triple_call; [done|done|]. intros w [] w' Hw [= <-]. pose proof (Hok w Hw) as [Hm Hs Hl Hv].
  assert (∀ j, others j w (with_memory w (ClearMemory (dm_memory w)))) as Ho.
  { intros j. destruct (ClearMemory_held _ Hm) as [Hh Hc]. split; [done|done| |].
    - intros l Hj. by eapply Hc.
    - intros _. split; simpl; [by apply ClearMemory_ok|done|done|done]. }
  split; [auto|]. by eapply HP.
Qed.

Lemma load_ok i master :
  tri i (quiet i) (trigger (OnApp (VaultLoad MainVault master)))
    (λ r w, quiet i w ∧ match r with Some data => ∃ m, fs_main (dm_files w) = Some (m, data) | None => True end).
Proof.
  apply triple_call; [apply quiet_stable| |].
  - intros r w w' [Hq Hm] Ho. split; [by eapply quiet_stable|]. destruct r as [d|]; [|done]. destruct Hm as [m Hm].
    exists m. by rewrite (ot_main _ _ _ Ho).
  - intros w r w' Hq Ha. cbn [daemon_acts] in Ha. apply fmap_Some in Ha as (f & Ha & ->).
    assert (mild w (with_files w f)) as Hmild.
    { apply mild_set; [|by intros []|by intros []]. cbn [acts] in Ha. repeat (case_match || case_decide); by simplify_eq. }
    split; [intros j _; by apply mild_others|]. split; [eapply quiet_stable; [done|]; by apply mild_others|].
    destruct r as [d|]; [|done]. cbn [acts] in Ha. case_decide as Hd; [|done]. injection Ha as <-. by exists master.
Qed.

Lemma hold_data_ok i data :
  tri i (λ w, quiet i w ∧ ∃ m, fs_main (dm_files w) = Some (m, data)) (trigger (HoldData (secrets_of data)))
    (λ held, unlocking i data held).
Proof.
  apply triple_call; [|intros; apply unlocking_stable|].
  { intros w w' [Hq [m Hm]] Ho. split; [by eapply quiet_stable|]. exists m. by rewrite (ot_main _ _ _ Ho). }
  intros w held w' [[Hok Hn] Hm] Ha. cbn [daemon_acts] in Ha. pose proof Hok as [Hmem Hs Hl Hv].
  pose proof (hold_ok i (dm_memory w) (secrets_of data) Hmem) as H. destruct (hold i _ _) as [m' held'].
  destruct H as (Hm' & [Hss Hsl] & Hk & Hb & Hh & Hc). case_decide as Heq; [|done]. injection Ha as <-. subst held'.
  assert (daemon_ok (with_memory w m')) as Hok'.
  { split; simpl; [done| |done|done]. intros alias s. rewrite Hsl. apply Hs. }
  split.
  - intros j Hj. split; [done| | |done]; simpl.
    + intros l. split; [intros [Hlj|[? _]]%Hb; [done|done]|]. intros Hlj. by apply Hk.
    + intros l Hlj. by eapply Hk.
  - split; [done|]. split; [|done]. split; simpl; [|done]. intros c. split.
    + intros [Hc0|[_ Hc0]]%Hb; [|done]. by apply Hn in Hc0.
    + intros [alias Ha]. by eapply Hh.
Qed.

Lemma replace_ok i data held : tri i (unlocking i data held) (trigger (ReplaceSecrets held)) (λ _, unlocking i data held).
Proof.
  apply triple_call; [apply unlocking_stable|intros; apply unlocking_stable|].
  intros w [] w' Hw [= <-]. pose proof Hw as ([Hmem Hs Hl Hv] & [Hh Hc] & m & Hm).
  destruct (Replace_ok i (dm_memory w) held Hmem) as (Hok & [Hhs Hcs] & Hlook & _).
  { intros alias c Ha. apply Hh. by exists alias. }
  assert (∀ j, others j w (with_memory w (Replace (dm_memory w) held))) as Ho.
  { intros j. split; [done|by intros l; simpl; rewrite Hhs|intros l Hj; by eapply Hcs|]. intros _. split; simpl; [done| |done|done].
    intros alias s. rewrite Hlook, Hc. intros Hsec. by exists m, data. }
  split; [auto|]. by eapply unlocking_stable.
Qed.

Lemma zero_ok i data held : tri i (unlocking i data held) (trigger (ZeroData held)) (λ _, quiet i).
Proof.
  apply triple_call; [apply unlocking_stable|intros; apply quiet_stable|].
  intros w [] w' Hw [= <-]. pose proof Hw as ([Hmem Hs Hl Hv] & [Hh Hc] & m & Hm).
  destruct (zeroVaultData_ok i (dm_memory w) held Hmem) as (Hok & [Hss Hsl] & Ho).
  { intros alias c Ha. apply Hh. by exists alias. }
  assert (daemon_ok (with_memory w (zeroVaultData (dm_memory w) held))) as Hok'.
  { split; simpl; [done| |done|done]. intros alias s. rewrite Hsl. apply Hs. }
  split.
  - intros j Hj. split; [done| |intros l Hlj; by apply (Ho l j)|done]. intros l. split; [|intros Hlj; by apply (Ho l j)].
    simpl. rewrite lookup_foldr_delete. by case_decide.
  - split; [done|]. intros c. simpl. rewrite lookup_foldr_delete. case_decide as Hin; [done|]. intros [alias Ha]%Hh.
    apply Hin, elem_of_cells_of. by exists alias.
Qed.

Lemma unavailable_publicServers cfg : unavailable (publicServers cfg (λ _, false)).
Proof. apply Forall_fmap, Forall_forall. by intros. Qed.

Lemma tri_ret {R} i (P : daemon → Prop) (r : R) : stable others i P → tri i P (Ret r) (λ _, P).
Proof. intros HP. by apply triple_ret. Qed.

Lemma Lock_quiet i : tri i (quiet i) Lock (λ _, quiet i).
Proof.
  pose proof (quiet_stable i) as Hq. eapply (triple_bind others_refl); [apply clear_ok; [done|by intros w []]|]. intros [].
  apply tri_plain; [done..|]. intros [].
  apply (tri_mild i _ LockedServers unavailable); [done| |].
  { intros w l w' [Hok _] Ha. cbn [daemon_acts] in Ha. case_decide as Hl; [|done]. injection Ha as <-. subst. split; [done|apply Hok]. }
  intros locked Hl. apply (tri_mild i _ _ (λ _, True)); [done| |].
  { intros w [] w' _ [= <-]. split; [|done]. apply mild_set; [done|by intros []|]. intros _ _. simpl. by destruct locked. }
  intros [] _. apply tri_plain; [done..|]. intros []. by apply tri_ret.
Qed.

Lemma Stop_quiet i : tri i (quiet i) Stop (λ _, quiet i).
Proof.
  pose proof (quiet_stable i) as Hq. apply tri_plain; [done..|]. intros []; [|by apply tri_ret].
  eapply (triple_bind others_refl); [apply clear_ok; [done|by intros w []]|]. intros [].
  do 3 (apply tri_plain; [done..|]; intros []). by apply tri_ret.
Qed.

Lemma unlock_loaded_ok i data held : tri i (unlocking i data held) (unlock_loaded data held) (λ _, unlocking i data held).
Proof.
  pose proof (unlocking_stable i data held) as Hq. apply tri_plain; [done..|]. intros [latest|]; [|by apply tri_ret].
  destruct (negb _); [by apply tri_ret|]. cbv zeta. set (cfg := normalizedConfig _ _).
  apply tri_plains; [done|apply plain_saveConfig|]. intros []; [|by apply tri_ret].
  apply (tri_mild i _ _ (λ _, True)); [done| |].
  { intros w [] w' _ [= <-]. split; [|done]. apply mild_set; [done|intros _; apply unavailable_publicServers|by intros []]. }
  intros [] _. eapply (triple_bind others_refl); [apply replace_ok|]. intros []. cbv beta.
  apply tri_plains; [done|by apply only_bind; [apply plain_availability|]|]. intros servers.
  apply (tri_mild i _ _ (λ _, True)); [done| |].
  { intros w [] w' _ [= <-]. split; [|done]. by apply mild_set; [|by intros []|]. }
  intros [] _. apply tri_plain; [done..|]. intros []. by apply tri_ret.
Qed.

Lemma Unlock_quiet i master : tri i (quiet i) (Unlock master) (λ _, quiet i).
Proof.
  pose proof (quiet_stable i) as Hq. eapply (triple_bind others_refl); [apply load_ok|]. intros [data|].
  2: { intros w [Hw _]. by apply (tri_ret i (quiet i)). }
  eapply (triple_bind others_refl); [apply hold_data_ok|]. intros held.
  eapply (triple_bind others_refl); [apply unlock_loaded_ok|]. intros r.
  eapply (triple_bind others_refl); [apply zero_ok|]. intros []. by apply tri_ret.
Qed.

Lemma Configure_quiet i key value : tri i (quiet i) (Configure key value) (λ _, quiet i).
Proof.
  pose proof (quiet_stable i) as Hq. apply tri_plain; [done..|]. intros [latest|]; [|by apply tri_ret].
  destruct (set_setting _ _ _ _) as [cfg|]; [|by apply tri_ret].
  apply tri_plains; [done|apply plain_saveConfig|]. intros []; [|by apply tri_ret].
  apply tri_plains; [done|by destruct (key =? "log-level")%string|]. intros [].
  do 2 (apply tri_plain; [done..|]; intros []). by apply tri_ret.
Qed.

(** The requests that change a running daemon. *)
Inductive request := RLock | RStop | RUnlock (master : string) | RConfigure (key value : string).

Definition serve (r : request) : handler (option CodedError) :=
  match r with
  | RLock => _ ← Lock; Ret None
  | RStop => _ ← Stop; Ret None
  | RUnlock master => Unlock master
  | RConfigure key value => Configure key value
  end.

Lemma serve_quiet i r : tri i (quiet i) (serve r) (λ _, quiet i).
Proof.
  destruct r; [eapply (triple_bind others_refl); [apply Lock_quiet|]|eapply (triple_bind others_refl); [apply Stop_quiet|]|
    apply Unlock_quiet|apply Configure_quiet]; intros []; apply tri_ret, quiet_stable.
Qed.

Abbreviation daemon_system := (system daemon_op daemon nat _ _ (option CodedError)).
Abbreviation daemon_step := (system_step daemon_acts (λ _ w, w)).

(** The handlers of some requests, none of which has begun. *)
Definition serving (w : daemon) (requests : gmap nat request) : daemon_system := System w (serve <$> requests) ∅.

Lemma step_daemon_ok (s s' : daemon_system) : system_ok daemon_acts others (λ i w _, quiet i w) s → daemon_ok (sy_world s) →
  daemon_step s s' → daemon_ok (sy_world s').
Proof.
  intros Hok Hd Hstep. destruct Hstep as [w ps rs i X e k x w' Hp Ha| | |]; simpl in *; try done.
  destruct (so_running _ _ _ _ Hok i _ Hp) as [Hg _]. destruct (Hg w x w' (others_refl i w) Ha) as [Ho _].
  apply (ot_ok (S i) w w'); [|done]. apply Ho. lia.
Qed.

(** C12: Whatever requests to lock, unlock, stop and configure run at the same time,
    and wherever they are: a secret that is in memory is in the store, or held by
    a handler that has not returned; what the store has is what the vault's file
    has; and a daemon that reports that it is locked shows no server as
    available. *)
Theorem daemon_keeps_secrets w requests (s : daemon_system) (start : daemon_ok w) (idle : ∀ i, holds_nothing i w)
    (reached : rtc daemon_step (serving w requests) s) :
  (∀ l secret, mm_cells (dm_memory (sy_world s)) !! l = Some secret → ZeroServerSecret secret = secret ∨
     (∃ alias, mm_servers (dm_memory (sy_world s)) !! alias = Some l) ∨
     ∃ i, mm_held (dm_memory (sy_world s)) !! l = Some i ∧ sy_ended s !! i = None) ∧
  (∀ alias secret, Lookup (dm_memory (sy_world s)) alias = Some secret →
     ∃ master data, fs_main (dm_files (sy_world s)) = Some (master, data) ∧ secrets_of data !! alias = Some secret) ∧
  (sv_vault_locked (dm_service (sy_world s)) = true → unavailable (sv_servers (dm_service (sy_world s)))).
Proof.
  assert (system_ok daemon_acts others (λ i w _, quiet i w) s ∧ daemon_ok (sy_world s)) as [Hok Hd].
  { revert s reached. refine (rtc_ind_r _ _ _ _).
    - split; [|done]. split; simpl; [|by intros i r; rewrite lookup_empty]. intros i p Hp.
      rewrite lookup_fmap in Hp. destruct (requests !! i) as [r|]; [|done]. injection Hp as <-. split; [|apply lookup_empty].
      eapply guarded_mono; [|apply (serve_quiet i r); by split]. done.
    - intros s s' _ Hstep [Hok Hd]. split; [|by eapply step_daemon_ok].
      eapply (system_step_ok _ _ _ others_refl others_trans (λ i j w _, others_refl j w)); done. }
  split_and!; [|apply (do_secrets _ Hd)|apply (do_state _ Hd)]. intros l secret Hl.
  destruct (mm_held (dm_memory (sy_world s)) !! l) as [i|] eqn:Hi.
  - right. right. exists i. split; [done|]. apply eq_None_not_Some. intros [r Hr].
    by destruct (so_ended _ _ _ _ Hok i r Hr _ (others_refl i _)) as [_ Hn]; apply (Hn l).
  - destruct (decide (Exists (λ kv : string * nat, snd kv = l) (map_to_list (mm_servers (dm_memory (sy_world s)))))) as [Hex|Hex].
    + apply Exists_exists in Hex as ([alias c] & Hin%elem_of_map_to_list & <-). right. left. by exists alias.
    + left. eapply (mk_wiped _ (do_memory _ Hd)); [done| |done]. intros alias Ha. apply Hex, Exists_exists.
      exists (alias, l). split; [by apply elem_of_map_to_list|done].
Qed.

(** ** One handler at a time *)

Abbreviation alone i := (world_halts (daemon_acts i)).

(** Locking, when nothing else runs: no secret is left in the store, its cells
    are wiped, the connections are closed, and the daemon reports that it is
    locked. *)
Theorem Lock_clears i w w' (start : daemon_ok w) (run : alone i w Lock w' tt) :
  (∀ alias, Lookup (dm_memory w') alias = None) ∧
  (∀ l secret, mm_cells (dm_memory w') !! l = Some secret → ZeroServerSecret secret = secret ∨ is_Some (mm_held (dm_memory w) !! l)) ∧
  sv_vault_locked (dm_service w') = true ∧ unavailable (sv_servers (dm_service w')) ∧
  cl_connections (dm_connections w') = ∅ ∧ dm_files w' = dm_files w.
Proof.
  destruct run as ([] & w1 & [= <-] & [] & w2 & [= <-] & locked & w3 & Ha & [] & w4 & [= <-] & [] & w5 & [= <-] & [-> _]).
  cbn [daemon_acts] in Ha. case_decide as Hl; [|done]. injection Ha as <-. subst. simpl.
  pose proof (ClearMemory_ok _ (do_memory _ start)) as Hok. split_and!; try done.
  - intros l secret Hs. destruct (mm_held (dm_memory w) !! l) as [j|] eqn:Hj; [right; by eexists|]. left.
    by eapply (mk_wiped _ Hok).
  - pose proof (do_locked _ start) as Hl. destruct (dm_locked w); [by constructor|exact Hl].
Qed.

Definition unlocked (master : string) (w w' : daemon) : Prop :=
  ∃ cfg data, fs_main (dm_files w) = Some (master, data) ∧ fs_config (dm_files w) = Some cfg ∧ consistentAliases cfg data = true ∧
    fs_config (dm_files w') = Some (normalizedConfig cfg (Some data)) ∧
    (∀ alias, Lookup (dm_memory w') alias = secrets_of data !! alias) ∧ sv_vault_locked (dm_service w') = false.

(** Nothing that an unlocked daemon has changed. *)
Definition as_before (w w' : daemon) : Prop :=
  store_same (dm_memory w) (dm_memory w') ∧ dm_service w' = dm_service w ∧ dm_locked w' = dm_locked w.

Abbreviation keeps_alone i := (world_keeps (daemon_acts i) (λ _, True)).

Lemma keeps_on_app {R} i w (p : app R) Q :
  AppVaultSpec.keeps (λ _, True) (dm_files w) p Q → keeps_alone i w (on_app p) (λ w' r, Q (dm_files w') r ∧ ∃ f, w' = with_files w f).
Proof.
  revert w. induction p as [r|X e k IH]; intros w; cbn [world_keeps embed]; [intros HQ; split; [done|]; exists (dm_files w); by destruct w|].
  intros Hk x w' Ha. cbn [daemon_acts] in Ha. apply fmap_Some in Ha as (f & Ha & ->). destruct (Hk x f Ha) as [_ Hk']. split; [done|].
  eapply keeps_mono; [|apply IH; exact Hk']. intros w' r [HQ (f' & ->)]. split; [done|]. by exists f'.
Qed.

Lemma keeps_availability i w aliases : keeps_alone i w (availability aliases) (λ w' _, w' = w).
Proof.
  induction aliases as [|alias aliases IH]; [done|]. intros b w' Ha. cbn [daemon_acts] in Ha.
  destruct (Bool.eqb _ _); [|done]. injection Ha as <-. split; [done|]. apply keeps_bind. eapply keeps_mono; [|exact IH].
  by intros w' r ->.
Qed.

Lemma as_before_files w f : as_before w (with_files w f).
Proof. by split_and!. Qed.

Lemma as_before_refl w : as_before w w.
Proof. by split_and!. Qed.

Lemma with_files_same w : with_files w (dm_files w) = w.
Proof. by destruct w. Qed.

Lemma keeps_unlock_loaded i w data held master :
  daemon_ok w → holds i held (secrets_of data) w → fs_main (dm_files w) = Some (master, data) →
  keeps_alone i w (unlock_loaded data held) (λ w' r,
    mm_held (dm_memory w') = mm_held (dm_memory w) ∧ memory_ok (dm_memory w') ∧
    match r with None => unlocked master w w' | Some _ => as_before w w' end).
Proof.
  intros Hok [Hh Hc] Hm. pose proof (do_memory _ Hok) as Hmem. apply keeps_bind. intros latest w1 Ha.
  cbn [daemon_acts] in Ha. apply fmap_Some in Ha as (f & Ha & ->). destruct latest as [cfg|]; [|do 3 (split; [done|]); apply as_before_files].
  cbn [acts] in Ha. case_decide as Hcfg; [|done]. injection Ha as <-. rewrite with_files_same.
  split; [done|]. cbn [world_keeps]. destruct (consistentAliases cfg data) eqn:Hcons; cbn [negb]; [|split; [done|]; split; [done|]; apply as_before_refl].
  cbv zeta. set (new := normalizedConfig _ _).
  apply keeps_bind. eapply keeps_mono; [|apply keeps_on_app, keeps_saveConfig].
  intros w1 ok [(_ & _ & Hm1 & _ & _ & _ & Hsaved) (f & ->)]. destruct ok; cbn [negb]; [|split; [done|]; split; [done|]; apply as_before_files].
  intros [] w2 [= <-]. split; [done|]. intros [] w3 [= <-]. split; [done|]. simpl in Hsaved, Hm1.
  destruct (Replace_ok i (dm_memory w) held Hmem) as (Hr & [Hhs Hcs] & Hlook & _). { intros alias c Ha. apply Hh. by exists alias. }
  apply (keeps_bind (λ _, True)). apply (keeps_bind (λ _, True)). eapply keeps_mono; [|apply keeps_availability].
  intros w4 avail ->. intros [] w5 [= <-]. split; [done|]. intros [] w6 [= <-]. split; [done|]. simpl.
  split; [done|]. split; [done|]. exists cfg, data. split_and!; try done. simpl. intros alias. by rewrite Hlook, Hc.
Qed.

(** C22: Unlocking, when nothing else runs: with the password of the vault and a
    configuration that has the same servers, the store has exactly the secrets of
    the vault and the daemon reports that it is unlocked; otherwise the secrets,
    the state and the settings are as before.  What was loaded is wiped either
    way. *)
Theorem Unlock_alone i master w w' r (start : daemon_ok w) (idle : ∀ j, holds_nothing j w) (run : alone i w (Unlock master) w' r) :
  (∀ j, holds_nothing j w') ∧ match r with None => unlocked master w w' | Some _ => as_before w w' end.
Proof.
  refine (keeps_halts (λ _, True) w (Unlock master) (λ w' r, (∀ j, holds_nothing j w') ∧ match r with None => _ | Some _ => _ end) w' r _ run).
  apply keeps_bind. intros data w1 Ha. split; [done|]. cbn [daemon_acts] in Ha. apply fmap_Some in Ha as (f & Ha & ->).
  destruct data as [data|]; [|split; [exact idle|done]]. cbn [acts] in Ha. case_decide as Hm; [|done]. injection Ha as <-.
  pose proof (do_memory _ start) as Hmem.
  intros held w1 Ha. split; [done|]. cbn [daemon_acts] in Ha. pose proof (hold_ok i (dm_memory w) (secrets_of data) Hmem) as Hhold.
  simpl in Ha. destruct (hold i _ _) as [m1 held']. destruct Hhold as (Hm1 & [Hss Hsl] & Hk & Hb & Hh & Hc).
  case_decide as Heq; [|done]. injection Ha as <-. subst held'. set (w1 := with_memory _ m1).
  assert (daemon_ok w1) as Hok1. { destruct start. split; simpl; [done| |done|done]. intros alias s. rewrite Hsl. eauto. }
  assert (holds i held (secrets_of data) w1) as Hh1.
  { split; simpl; [|done]. intros c. split; [intros [Hc0|[_ Hc0]]%Hb; [by apply idle in Hc0|done]|intros [alias Ha]; by eapply Hh]. }
  apply (keeps_bind (λ _, True)). eapply keeps_mono; [|by eapply (keeps_unlock_loaded i w1 data held master)].
  intros w2 r2 (Hheld & Hm2 & Hr). intros [] w3 [= <-]. split; [done|]. cbn [world_keeps prog_bind].
  destruct (zeroVaultData_ok i (dm_memory w2) held Hm2) as (_ & [Hs2 Hl2] & _).
  { intros alias c Ha. rewrite Hheld. by eapply Hh. }
  split.
  - intros j c. simpl. rewrite lookup_foldr_delete. case_decide as Hin; [done|]. rewrite Hheld. simpl.
    intros [Hc0|[-> [alias Ha]]]%Hb; [by apply idle in Hc0|]. apply Hin, elem_of_cells_of. by exists alias.
  - destruct r2 as [e|].
    + destruct Hr as ([H1 H2] & H3 & H4). split_and!; [|done|done]. clear run. simpl in *. split; [exact (eq_trans H1 Hss)|].
      intros alias. simpl. rewrite Hl2, H2. by rewrite Hsl.
    + destruct Hr as (cfg & d & H1 & H2 & H3 & H4 & H5 & H6). exists cfg, d. clear run. simpl in *. split_and!; try done.
      intros alias. by rewrite Hl2, H5.
Qed.

(** ** A daemon *)

(** The options of [daemon]. *)
Definition service_options (cfg : Config) (commandTimeout maxOutput : Z) : ServiceOptions := {|
  so_allow_audit_fail_open := negb (df_audit_fail_closed (cfg_defaults cfg));
  so_default_timeout := commandTimeout; so_default_max_output := maxOutput;
  so_servers := publicServers cfg (λ _, false); so_vault_locked := true; so_version := "0.4.0"; so_policy_version := "2";
  so_risk_policy := df_risk_policy (cfg_defaults cfg); so_log_level := df_log_level (cfg_defaults cfg);
  so_batch_concurrency := df_batch_concurrency (cfg_defaults cfg);
  so_batch_store := true; so_waiting_store := true; so_notify := true |}.

(** What [daemon] makes of the configuration, when its calls succeed. *)
Definition newDaemon (w : files) (now : Z) : option daemon :=
  cfg ← fs_config w;
  match validateDefaults (cfg_defaults cfg) with
  | Fail _ => None
  | Ok (_, commandTimeout, maxOutput) =>
      level ← ParseLevel (df_log_level (cfg_defaults cfg));
      match NewService (service_options cfg commandTimeout maxOutput) now with
      | Fail _ => None
      | Ok service =>
          Some (DaemonState w no_memory (publicServers cfg (λ _, false)) service {| lg_level := level |} [("daemon", "started")]
                  SshClient.New false false)
      end
  end.

Lemma newDaemon_ok w now d : newDaemon w now = Some d → daemon_ok d ∧ (∀ i, holds_nothing i d) ∧ dm_files d = w.
Proof.
  unfold newDaemon. intros (cfg & _ & H)%bind_Some. destruct (validateDefaults _) as [[[c t] m]|]; [|done].
  apply bind_Some in H as (level & _ & H). unfold NewService in H. destruct (_ || _); [done|]. injection H as <-.
  split_and!; [|by intros i c0|done].
  split; simpl; [apply no_memory_ok|by intros| |intros _]; apply unavailable_publicServers.
Qed.

(** A configuration with the type of [AppConfig] makes a daemon. *)
Lemma newDaemon_starts w now cfg : fs_config w = Some cfg → config_typed cfg →
  ∃ d, newDaemon w now = Some d ∧ sv_vault_locked (dm_service d) = true.
Proof.
  intros Hc Ht. unfold newDaemon. rewrite Hc. cbn [mbind option_bind]. destruct (ct_limits _ Ht) as [[[connect command] maxOutput] Hv].
  rewrite Hv. destruct (ct_level _ Ht) as [level ->]. cbn [mbind option_bind].
  pose proof (validateDefaults_range _ _ _ _ Hv) as (_ & H1 & H2). unfold NewService, service_options. cbn [so_default_timeout so_default_max_output].
  unfold maxTimeout, maxOutputBytes. rewrite !(proj2 (Z.leb_gt _ _)), !(proj2 (Z.ltb_ge _ _)) by (unfold second in *; lia).
  eexists. split; [done|done].
Qed.

(** ** Sample runs *)

(** The answers of a system that works. *)
Definition daemon_reply (i : nat) (X : Type) (w : daemon) (e : daemon_op X) : X :=
  match e in daemon_op X return X with
  | OnApp e => reply None "" (dm_files w) e
  | HoldData secrets => snd (hold i (dm_memory w) secrets)
  | SecretAvailable alias => Available (dm_memory w) alias
  | LockedServers => dm_locked w
  | OnceStop => negb (dm_once w)
  | ZeroData _ | ReplaceSecrets _ | ClearSecrets | SetLockedServers _ | StateCall _ _ | SettingsCall _ _ _ | LevelCall _ | LogCall _ _
  | CloseConnections | CancelServe => tt
  end.

Abbreviation scheduled := (run_schedule daemon_acts daemon_reply).

Definition web : ServerSecret := {|
  ss_host := "web.example"; ss_port := 22; ss_user := "deploy"; ss_auth_method := "password"; ss_password := "secret";
  ss_private_key := ""; ss_private_key_passphrase := ""; ss_host_fingerprint := "SHA256:sample" |}.

Definition web_data : Data := {| da_servers := Some {[ "web" := web ]}; da_recovery_key := "" |}.

Definition web_files : files :=
  Files (Some (normalizedConfig defaultConfig (Some web_data))) (Some ("master", web_data)) None [] 0 true.

Lemma is_Some_proj_eq {A} (o : option A) (some : is_Some o) : o = Some (is_Some_proj some).
Proof. destruct o; [done|by destruct (is_Some_None some)]. Qed.

Lemma web_starts : is_Some (newDaemon web_files 0).
Proof. vm_compute. by eexists. Qed.

Definition web_daemon : daemon := is_Some_proj web_starts.

Lemma web_daemon_ok : daemon_ok web_daemon ∧ (∀ i, holds_nothing i web_daemon).
Proof.
  by pose proof (newDaemon_ok _ _ _ (is_Some_proj_eq _ web_starts)) as (H1 & H2 & _).
Qed.

(** What a schedule leads to. *)
Definition outcome (requests : gmap nat request) (schedule : list nat) : daemon_system :=
  default (serving web_daemon requests) (scheduled schedule (serving web_daemon requests)).

Lemma outcome_reached requests schedule : rtc daemon_step (serving web_daemon requests) (outcome requests schedule).
Proof.
  unfold outcome. destruct (scheduled _ _) as [s|] eqn:Hs; [|done]. by eapply schedule_steps.
Qed.

Definition unlock_requests : gmap nat request := {[ 1%nat := RUnlock "master" ]}.
Definition unlock_steps : list nat := replicate 11 1%nat.

Example unlock_succeeds :
  let s := outcome unlock_requests unlock_steps in
  sy_ended s !! 1%nat = Some None ∧ Lookup (dm_memory (sy_world s)) "web" = Some web ∧
  sv_servers (dm_service (sy_world s)) = [{| Model.ss_alias := "web"; ss_description := ""; ss_available := true |}].
Proof. by vm_compute. Qed.

Definition race : gmap nat request := {[ 0%nat := RLock; 1%nat := RUnlock "master" ]}.
Definition race_schedule : list nat := [0; 0; 0]%nat ++ unlock_steps ++ [0; 0; 0]%nat.

(** A lock that began before an unlock and ends after it: both return, and the
    daemon reports that it is locked, with the secrets in memory. *)
Theorem lock_race :
  ∃ s, rtc daemon_step (serving web_daemon race) s ∧ sy_ended s = {[ 0%nat := None; 1%nat := None ]} ∧
    sv_vault_locked (dm_service (sy_world s)) = true ∧ Lookup (dm_memory (sy_world s)) "web" = Some web.
Proof. exists (outcome race race_schedule). split; [apply outcome_reached|]. by vm_compute. Qed.

Definition two_settings : gmap nat request :=
  {[ 0%nat := RConfigure "risk-policy" "off"; 1%nat := RConfigure "risk-policy" "enforce"; 2%nat := RConfigure "log-level" "debug" ]}.
Definition settings_schedule : list nat := replicate 5 0%nat ++ [2%nat] ++ replicate 5 1%nat ++ replicate 5 2%nat.

(** The policy is turned off; then another request turns it on, and returns, while
    one that sets the level of the log is between its reading and its writing of
    the configuration: the policy is off again, in the file and in the daemon, and
    every request has succeeded. *)
Theorem configure_race :
  ∃ s s', rtc daemon_step (serving web_daemon two_settings) s ∧ sy_ended s !! 1%nat = Some None ∧
    sv_risk_policy (dm_service (sy_world s)) = "enforce" ∧
    rtc daemon_step s s' ∧ sy_ended s' = {[ 0%nat := None; 1%nat := None; 2%nat := None ]} ∧
    sv_risk_policy (dm_service (sy_world s')) = "off" ∧
    df_risk_policy ∘ cfg_defaults <$> fs_config (dm_files (sy_world s')) = Some "off".
Proof.
  pose (s := outcome two_settings (take 11 settings_schedule)).
  assert (is_Some (scheduled (drop 11 settings_schedule) s)) as [s' Hs'] by (vm_compute; by eexists).
  exists s, s'. split_and!; [apply outcome_reached|by vm_compute|by vm_compute|by eapply schedule_steps|..].
  all: replace s' with (default s (scheduled (drop 11 settings_schedule) s)) by (by rewrite Hs'); by vm_compute.
Qed.

Lemma daemon_keeps_secrets_witness :
  let s := sy_world (outcome race race_schedule) in
  (∀ alias secret, Lookup (dm_memory s) alias = Some secret →
     ∃ master data, fs_main (dm_files s) = Some (master, data) ∧ secrets_of data !! alias = Some secret) ∧
  unavailable (sv_servers (dm_service s)).
Proof.
  destruct (daemon_keeps_secrets web_daemon race (outcome race race_schedule) (proj1 web_daemon_ok) (proj2 web_daemon_ok)
    (outcome_reached race race_schedule)) as (_ & Hsec & Hst).
  split; [exact Hsec|]. apply Hst. vm_compute. reflexivity.
Defined.

Lemma web_unlocks : is_Some (world_run (daemon_acts 1) (daemon_reply 1) web_daemon (Unlock "master")).
Proof. vm_compute. by eexists. Qed.

Definition web_unlocked : daemon := fst (is_Some_proj web_unlocks).

Lemma web_unlocked_halts : alone 1 web_daemon (Unlock "master") web_unlocked None.
Proof.
  apply (run_all_halts (reply := daemon_reply 1)). rewrite (is_Some_proj_eq _ web_unlocks). by vm_compute.
Qed.

Lemma Unlock_alone_witness : unlocked "master" web_daemon web_unlocked.
Proof. exact (proj2 (Unlock_alone 1 "master" web_daemon web_unlocked None (proj1 web_daemon_ok) (proj2 web_daemon_ok) web_unlocked_halts)). Defined.
