(* ===== verification/DaemonStart.v ===== *)
(** * Starting and ending a daemon: [daemon] of [internal/app/app.go]

    The function that runs in the daemon's process, as a tree of calls: the
    locks and files of the command line, the logs, the memory, the clock and the
    server that it serves with.  A monitor says in which order they may come and
    what must be undone before it returns. *)

From S2P Require Import Prelude GoStr Prog Model Service Config OpsLog AppConfig AppVault AppVaultSpec Daemon.
Open Scope string_scope.
Open Scope list_scope.

(** Errors of others are returned as they are. *)
Inductive start_error :=
| AppError (e : app_error)
| OtherError (text : string).

Inductive start_op : Type → Type :=
| Command {X : Type} (e : app_op X) : start_op X
| AuditNew : start_op bool
| LogNew (level : string) : start_op bool
| LogEvent (component event : string) : start_op unit
| TimeNow : start_op Z
| SecretsLock : start_op unit
| DaemonUnlock (master : string) : start_op (option CodedError)
| Serve (service : Service) : start_op (option string)
| Cancel : start_op unit.

Abbreviation start := (prog start_op).
Abbreviation command := (embed (λ X, @Command X)).

(** [return e] *)
Abbreviation refuse e := (Ret (Fail (AppError e))).

(** [service, err := broker.NewService(...)], when the limits of the
    configuration, the audit log and the operational log are accepted. *)
Definition newService (cfg : Config) (k : Service → start (result start_error unit)) : start (result start_error unit) :=
  match validateDefaults (cfg_defaults cfg) with
  | Fail _ => refuse ErrStorage
  | Ok (_, commandTimeout, maxOutput) =>
      audit ← trigger AuditNew;
      if negb audit then refuse ErrStorage
      else
        opened ← trigger (LogNew (df_log_level (cfg_defaults cfg)));
        if negb opened then refuse ErrStorage
        else
          _ ← trigger (LogEvent "daemon" "started");
          now ← trigger TimeNow;
          match NewService (service_options cfg commandTimeout maxOutput) now with
          | Fail _ => refuse ErrStorage
          | Ok service => k service
          end
  end.

(** [if unlockAtStart { ... }] and what follows it; [defer Zero(master)] waits
    for the end of the function. *)
Definition unlocking_first (lang : language) (unlockAtStart : bool) (serve : start (result start_error unit)) : start (result start_error unit) :=
  if negb unlockAtStart then serve
  else
    opened ← trigger (Command OpenTerminal);
    if negb opened then refuse ErrNoTerminal
    else
      master ← command (ReadSecret (master_prompt lang));
      _ ← trigger (Command CloseTerminal);
      match master with
      | Fail e => refuse e
      | Ok master =>
          deferred
            (failed ← trigger (DaemonUnlock master);
             match failed with
             | Some _ => refuse ErrStorage
             | None => serve
             end) (Command (Wipe master))
      end.

Definition serving_with (service : Service) : start (result start_error unit) :=
  failed ← trigger (Serve service);
  match failed with Some e => Ret (Fail (OtherError e)) | None => Ret (Ok tt) end.

Definition daemon (lang : language) (unlockAtStart : bool) : start (result start_error unit) :=
  made ← trigger (Command EnsureLayout);
  if negb made then refuse ErrStorage
  else
    lock ← trigger (Command AcquireLifecycle);
    match lock with
    | Some e => refuse e
    | None =>
        deferred
          (status ← trigger (Command DaemonStatus);
           match status with
           | Reachable true => refuse ErrDaemonRunning
           | _ =>
               cfg ← trigger (Command ConfigLoad);
               match (cfg : option Config) with
               | None => refuse ErrNotInitialized
               | Some cfg =>
                   deferred
                     (newService cfg (λ service,
                        deferred (unlocking_first lang unlockAtStart (serving_with service)) Cancel))
                     SecretsLock
               end
           end) (Command ReleaseLifecycle)
    end.

(** ** What the function has done and must undo *)

#[export] Instance Service_eq_dec : EqDecision Service.
Proof. solve_decision. Defined.

Record progress := Progress {
  pg_lock : bool;
  pg_alone : bool;
  pg_config : option Config;
  pg_audit : bool;
  pg_log : bool;
  pg_now : option Z;
  pg_terminal : bool;
  pg_context : bool;
  pg_master : option string;
  pg_used : bool;
  pg_served : bool }.

Definition idle : progress := Progress false false None false false None false false None false false.

(** The service that [newDaemon] has for the configuration. *)
Definition service_for (cfg : Config) (now : Z) : option Service :=
  dm_service <$> newDaemon (Files (Some cfg) None None [] 0 true) now.

Definition may_serve (s : progress) : bool :=
  pg_lock s && pg_alone s && pg_audit s && pg_log s && negb (pg_terminal s).

Definition on_command {X} (s : progress) (e : app_op X) : X → verdict progress :=
  let '(Progress l a c au lg n t x m u sv) := s in
  match e in app_op X return X → verdict progress with
  | EnsureLayout => λ _, if l then Reject else Next s
  | AcquireLifecycle => λ r,
      if l then Reject else Next (Progress (match r with None => true | Some _ => false end) a c au lg n t x m u sv)
  | ReleaseLifecycle => λ _,
      if l && negb t && negb u && negb x && bool_decide (m = None) then Next (Progress false a c au lg n t x m u sv) else Reject
  | DaemonStatus => λ r, if l then Next (Progress l (match r with Reachable true => false | _ => true end) c au lg n t x m u sv) else Reject
  | ConfigLoad => λ r, if l && a then Next (Progress l a r au lg n t x m u sv) else Reject
  | OpenTerminal => λ r, if l && negb t then Next (Progress l a c au lg n r x m u sv) else Reject
  | CloseTerminal => λ _, if t then Next (Progress l a c au lg n false x m u sv) else Reject
  | Wipe secret => λ _,
      Next (Progress l a c au lg n t x (if bool_decide (m = Some secret) then None else m) u sv)
  | e => λ _, if talking e && t then Next s else Reject
  end.

Definition start_monitor (s : progress) (call : io start_op) : verdict progress :=
  let '(Progress l a c au lg n t x m u sv) := s in
  match call with
  | IO e r =>
      match e in start_op X return X → verdict progress with
      | Command e => on_command s e
      | AuditNew => λ r, if l && a then Next (Progress l a c r lg n t x m u sv) else Reject
      | LogNew level => λ r,
          if (r : bool) && bool_decide (ParseLevel level = None) then Broken
          else if bool_decide (df_log_level ∘ cfg_defaults <$> c = Some level) && au then Next (Progress l a c au r n t x m u sv) else Reject
      | LogEvent _ _ => λ _, if lg then Next s else Reject
      | TimeNow => λ r : Z, if lg then Next (Progress l a c au lg (Some r) t x m u sv) else Reject
      | SecretsLock => λ _, if negb x then Next (Progress l a c au lg n t x m false sv) else Reject
      | DaemonUnlock master => λ _,
          if may_serve s && bool_decide (m = None) then Next (Progress l a c au lg n t x (Some master) true sv) else Reject
      | Serve service => λ _,
          match c, n with
          | Some cfg, Some now =>
              if may_serve s && bool_decide (Some service = service_for cfg now) then Next (Progress l a c au lg n t true m true true) else Reject
          | _, _ => Reject
          end
      | Cancel => λ _, Next (Progress l a c au lg n t false m u sv)
      end r
  end.

Abbreviation orderly := (safe start_monitor).

(** After the lock is released nothing is left: no terminal, no context, no
    secret of the vault in the memory, no password. *)
Definition cleaned (s : progress) : Prop :=
  pg_lock s = false ∧ pg_terminal s = false ∧ pg_context s = false ∧ pg_master s = None ∧ pg_used s = false.

(** A call that is put off to the end. *)
Lemma orderly_deferred {A} s (p : start A) call (T : progress → A → Prop) (Q : progress → A → Prop) :
  orderly s p T → (∀ s1 a, T s1 a → match start_monitor s1 (IO call tt) with Next s2 => Q s2 a | Reject => False | Broken => True end) →
  orderly s (deferred p call) Q.
Proof.
  intros Hp Hc. apply safe_bind. eapply safe_mono; [|exact Hp]. intros s1 a HT []. specialize (Hc s1 a HT).
  by destruct (start_monitor s1 (IO call tt)).
Qed.

(** The prompts. *)
Definition prompting {X} (e : start_op X) : bool := match e with Command e => talking e | _ => false end.

Lemma orderly_prompt {R} s (p : app R) (Q : progress → R → Prop) : pg_terminal s = true → pg_master s = None →
  only (@talking) p → (∀ r, Q s r) → orderly s (command p) Q.
Proof.
  intros Ht Hm Hp HQ. eapply safe_mono; [|apply (safe_only _ (@prompting))].
  - intros s' r ->. apply HQ.
  - intros X e x He. destruct s; simpl in *; subst. by destruct e as [X e| | | | | | | |]; [destruct e|..].
  - by eapply only_embed; [|exact Hp].
Qed.

(** The service is made; it may be used. *)
Definition ready cfg now x m u sv : progress := Progress true true (Some cfg) true true (Some now) false x m u sv.

Lemma orderly_serving_with cfg now service m u : service_for cfg now = Some service →
  orderly (ready cfg now false m u false) (serving_with service) (λ s r, s = ready cfg now true m true true).
Proof.
  intros Hs failed. unfold start_monitor, ready. rewrite Hs, bool_decide_eq_true_2 by done. by destruct failed.
Qed.

(** Where [unlocking_first] ends: used or not, served when it succeeds. *)
Definition over cfg now (s : progress) (r : result start_error unit) : Prop :=
  ∃ x u sv, s = ready cfg now x None u sv ∧ (r = Ok tt → sv = true).

Lemma orderly_unlocking_first lang unlockAtStart cfg now service : service_for cfg now = Some service →
  orderly (ready cfg now false None false false) (unlocking_first lang unlockAtStart (serving_with service)) (over cfg now).
Proof.
  intros Hs. unfold unlocking_first. destruct unlockAtStart; cbn [negb].
  2: { eapply safe_mono; [|by apply orderly_serving_with]. intros s r ->. by exists true, true, true. }
  intros []; [|by exists false, false, false].
  refine (safe_bind _ (Progress true true (Some cfg) true true (Some now) true false None false false) _ _ _ _). apply orderly_prompt; [done|done|apply talks_ReadSecret|].
  intros [master|e] []; [|by exists false, false, false].
  refine (orderly_deferred (ready cfg now false None false false) _ _
    (λ s r, ∃ x sv, s = ready cfg now x (Some master) true sv ∧ (r = Ok tt → sv = true)) _ _ _).
  - intros failed. cbn. destruct failed; [by exists false, false|].
    eapply safe_mono; [|by apply orderly_serving_with]. intros s r ->. by exists true, true.
  - intros s r (x & sv & -> & Hr). cbn. rewrite bool_decide_eq_true_2 by done. by exists x, true, sv.
Qed.

Lemma orderly_newService cfg (k : Service → start (result start_error unit)) Q :
  (∀ a lg n e, Q (Progress true true (Some cfg) a lg n false false None false false) (Fail (AppError e))) →
  (∀ now service, service_for cfg now = Some service → orderly (ready cfg now false None false false) (k service) Q) →
  orderly (Progress true true (Some cfg) false false None false false None false false) (newService cfg k) Q.
Proof.
  intros Hfail Hk. unfold newService. destruct (validateDefaults _) as [[[connect commandTimeout] maxOutput]|] eqn:Hv; [|apply Hfail].
  intros []; [|apply Hfail]. intros opened. cbn. rewrite (bool_decide_eq_true_2 (Some _ = _)) by done.
  destruct opened; cbn; [|apply Hfail]. case_bool_decide as Hl; [done|]. intros [] now. cbn.
  destruct (NewService _ now) as [service|] eqn:Hs; [|apply Hfail]. apply Hk.
  unfold service_for, newDaemon. simpl. rewrite Hv. destruct (ParseLevel _); [|done]. simpl. by rewrite Hs.
Qed.

(** C15: Whatever its calls answer, the daemon reads the configuration and serves only
    under the lock and when it found no other daemon, with both logs open and the
    service that the configuration makes; before it releases the lock it has
    closed the terminal and the context, wiped the secrets in memory and the
    password; and it returns success only after it served. *)
Theorem daemon_starts_and_ends lang unlockAtStart :
  orderly idle (daemon lang unlockAtStart) (λ s r, cleaned s ∧ (r = Ok tt → pg_served s = true)).
Proof.
  intros []; [|done]. intros [e|]; [done|].
  apply (orderly_deferred _ _ _ (λ s r, pg_lock s = true ∧ pg_terminal s = false ∧ pg_context s = false ∧ pg_master s = None ∧
    pg_used s = false ∧ (r = Ok tt → pg_served s = true))).
  2: { intros [] r (H1 & H2 & H3 & H4 & H5 & H6). simpl in *; subst. simpl. by split. }
  intros status. destruct status as [[]| |]; try done.
  all: intros [cfg|]; [|done].
  all: refine (orderly_deferred (Progress true true (Some cfg) false false None false false None false false) _ _ (λ s r, pg_lock s = true ∧ pg_terminal s = false ∧ pg_context s = false ∧ pg_master s = None ∧
    (r = Ok tt → pg_served s = true)) _ _ _); [|intros [] r (H1 & H2 & H3 & H4 & H5); simpl in *; subst; by split_and!].
  all: apply orderly_newService; [done|]; intros now service Hs.
  all: eapply orderly_deferred; [by apply orderly_unlocking_first|].
  all: by intros s r (x & u & sv & -> & Hr).
Qed.

(** ** A run *)

(** The answers when all goes well; the files are those after [init]. *)
Definition start_reply (X : Type) (e : start_op X) : X :=
  match e in start_op X return X with
  | Command e => reply None "master" fresh_files e
  | AuditNew => true
  | LogNew _ => true
  | LogEvent _ _ => tt
  | TimeNow => 0%Z
  | SecretsLock => tt
  | DaemonUnlock _ => None
  | Serve _ => None
  | Cancel => tt
  end.

Definition unlocks_with (master : string) (call : io start_op) : bool :=
  match call with IO (DaemonUnlock m) _ => String.eqb m master | _ => false end.
Definition wipes (master : string) (call : io start_op) : bool :=
  match call with IO (Command (Wipe m)) _ => String.eqb m master | _ => false end.
Definition serves (call : io start_op) : bool :=
  match call with IO (Serve _) _ => true | _ => false end.

Definition sample_trace : list (io start_op) := (answered_by start_reply (daemon languageEnglish true)).1.

(** A daemon that unlocks at its start keeps the password in memory until it has
    served its last request, locked or not. *)
Theorem password_kept_while_serving :
  ∃ before after, runs (daemon languageEnglish true) (before ++ after) (Ok tt) ∧
    existsb (unlocks_with "master") before = true ∧ existsb (wipes "master") before = false ∧
    existsb serves before = true ∧ existsb (wipes "master") after = true.
Proof.
  exists (take 15 sample_trace), (drop 15 sample_trace). rewrite take_drop. split.
  - exact (answered_by_runs start_reply (daemon languageEnglish true)).
  - by vm_compute.
Qed.
