(* ===== verification/LocalFiles.v ===== *)
(** * Files of the command line: [lifecycle.go], [privatekey.go] and the login service of [commands.go]

    The lock that one process at a time holds, the file of a private key, and the
    unit that starts the daemon at login, each as a tree of calls; what must hold
    between the calls is said by a monitor, and of the unit by a directory in
    which every call may fail and every file may be left half written. *)

From S2P Require Import Prelude GoStr Utf8 Json Prog Model Vault AppConfig AppVault ServerStart DaemonStart.
From Stdlib Require Import Ascii.
Open Scope string_scope.
Open Scope list_scope.

(** ** Paths *)

(** [filepath.Clean], on the elements of a path. *)
Definition clean_step (rooted : bool) (stack : list string) (element : string) : list string :=
  if str_is_empty element || String.eqb element "." then stack
  else if String.eqb element ".." then
    match stack with
    | last :: rest => if String.eqb last ".." then ".." :: stack else rest
    | [] => if rooted then [] else [".."]
    end
  else element :: stack.

Definition Clean (path : string) : string :=
  let rooted := has_prefix path "/" in
  let kept := str_join (reverse (foldl (clean_step rooted) [] (split_byte path "/"%char))) "/" in
  if rooted then "/" +:+ kept else if str_is_empty kept then "." else kept.

Definition Join (elements : list string) : string :=
  match filter (λ e, str_is_empty e = false) elements with [] => "" | elements => Clean (str_join elements "/") end.

Example Join_cleans : Join ["/home/user"; ".ssh/../keys//id"] = "/home/user/keys/id".
Proof. reflexivity. Qed.

(** ** The lock of the files *)

Inductive lock_op : Type → Type :=
| LstatLifecycle : lock_op lstat_answer
| OpenLifecycle : lock_op bool
| StatLifecycle : lock_op (option FileInfo)
| FlockLifecycle : lock_op (option errno)
| UnlockLifecycle : lock_op unit
| CloseLifecycle : lock_op unit.

Section lifecycle.
Context (uid : Z).

Definition safeLifecycleFile (info : FileInfo) : bool :=
  bool_decide (fi_stat info = Some uid) && fi_regular info && (fi_perm info =? 384)%Z && negb (fi_symlink info).

Definition acquireLifecycleLock : prog lock_op (result app_error unit) :=
  let refuse e := _ ← trigger CloseLifecycle; Ret (Fail e) in
  seen ← trigger LstatLifecycle;
  if negb (match seen with LstatInfo info => safeLifecycleFile info | LstatNotExist => true | LstatErr => false end) then Ret (Fail ErrStorage)
  else
    opened ← trigger OpenLifecycle;
    if negb opened then Ret (Fail ErrStorage)
    else
      info ← trigger StatLifecycle;
      pathInfo ← trigger LstatLifecycle;
      match info, pathInfo with
      | Some info, LstatInfo pathInfo =>
          if negb (safeLifecycleFile info && safeLifecycleFile pathInfo && (fi_file info =? fi_file pathInfo)%nat) then refuse ErrStorage
          else
            err ← trigger FlockLifecycle;
            match err with
            | Some EWOULDBLOCK | Some EAGAIN => refuse ErrDaemonRunning
            | Some _ => refuse ErrStorage
            | None => Ret (Ok tt)
            end
      | _, _ => refuse ErrStorage
      end.

Definition closeLifecycleLock : prog lock_op unit := _ ← trigger UnlockLifecycle; trigger CloseLifecycle.

(** The file is open, with what was last seen of it and of the path; locked. *)
Record lifecycle := Lifecycle { lc_open : bool; lc_info : option FileInfo; lc_path : option FileInfo; lc_locked : bool }.

Definition no_lock : lifecycle := Lifecycle false None None false.

(** The file is locked when it is private, ours, and the one at the path. *)
Definition lockable (s : lifecycle) : bool :=
  match lc_info s, lc_path s with
  | Some info, Some at_path => lc_open s && safeLifecycleFile info && safeLifecycleFile at_path && (fi_file info =? fi_file at_path)%nat
  | _, _ => false
  end.

Definition lifecycle_monitor (s : lifecycle) (call : io lock_op) : verdict lifecycle :=
  match call with IO e x =>
    match e in lock_op X return X → verdict lifecycle with
    | LstatLifecycle => λ a, Next (Lifecycle (lc_open s) (lc_info s) (match a with LstatInfo i => Some i | _ => None end) (lc_locked s))
    | OpenLifecycle => λ ok, if lc_open s then Reject else Next (Lifecycle ok None None false)
    | StatLifecycle => λ i, if lc_open s then Next (Lifecycle true i (lc_path s) (lc_locked s)) else Reject
    | FlockLifecycle => λ err, if lockable s then Next (Lifecycle true (lc_info s) (lc_path s) (bool_decide (err = None))) else Reject
    | UnlockLifecycle => λ _, if lc_locked s then Next (Lifecycle (lc_open s) (lc_info s) (lc_path s) false) else Reject
    | CloseLifecycle => λ _, if lc_open s && negb (lc_locked s) then Next (Lifecycle false (lc_info s) (lc_path s) false) else Reject
    end x
  end.

(** Acquiring locks the file that is at the path, private and owned by the
    user, or leaves nothing open; releasing it leaves nothing open. *)
Lemma lifecycle_lock_checked :
  safe lifecycle_monitor no_lock acquireLifecycleLock (λ s r, match r with
    | Ok _ => lc_locked s = true ∧ lockable s = true
    | Fail _ => lc_open s = false
    end) ∧
  ∀ s, lc_locked s = true → lockable s = true → safe lifecycle_monitor s closeLifecycleLock (λ s _, lc_open s = false).
Proof.
  split.
  - intros seen. simpl. destruct (negb _); [done|]. intros []; simpl; [|done]. intros info pathInfo.
    destruct info as [info|], pathInfo as [| |pathInfo]; simpl; try done. fold (safeLifecycleFile info) (safeLifecycleFile pathInfo).
    destruct (safeLifecycleFile info && safeLifecycleFile pathInfo && (fi_file info =? fi_file pathInfo)%nat) eqn:Hs; simpl; [|done].
    intros err. unfold lockable. cbn [lc_info lc_path lc_open]. cbn [andb]. rewrite Hs. destruct err as [[]|]; simpl; try done.
  - intros s Hl Hs []. simpl. rewrite Hl. intros []. unfold lockable in Hs. destruct (lc_info s), (lc_path s); try done.
    rewrite !andb_true_iff in Hs. destruct Hs as [[[-> _] _] _]. done.
Qed.
End lifecycle.

(** ** The file of a private key *)

Definition maxPrivateKeyBytes : Z := 2 ^ 20.

(** What [Stat] says of an open file, with its size. *)
Record key_info := KeyInfo { ki_file : FileInfo; ki_size : Z }.

Inductive key_op : Type → Type :=
| KeyHome : key_op (option string)
| OpenKey (path : string) : key_op bool
| StatKey : key_op (option key_info)
| ReadKey (limit : Z) : key_op (string * bool)
| WipeKey (data : string) : key_op unit
| CloseKey : key_op unit
| LstatKey (path : string) : key_op (option FileInfo).

Section private_key.
Context (uid : Z).

(** No permission for others: [mode & 0o077 == 0]. *)
Definition private_mode (info : FileInfo) : bool := (Z.land (fi_perm info) 63 =? 0)%Z.

Definition vetted_key (info : key_info) : bool :=
  fi_regular (ki_file info) && private_mode (ki_file info) && (0 <? ki_size info)%Z && (ki_size info <=? maxPrivateKeyBytes)%Z &&
  bool_decide (fi_stat (ki_file info) = Some uid).

(** The reader gives no more than it is asked for; [failed] is its error. *)
Definition read_open_key : prog key_op (result app_error string) :=
  info ← trigger StatKey;
  match info with
  | None => Ret (Fail ErrPrivateKey)
  | Some info =>
      if negb (vetted_key info) then Ret (Fail ErrPrivateKey)
      else
        answer ← trigger (ReadKey (maxPrivateKeyBytes + 1));
        let '(data, failed) := answer in
        if failed || str_is_empty data || (maxPrivateKeyBytes <? slen data)%Z
        then _ ← trigger (WipeKey data); Ret (Fail ErrPrivateKey) else Ret (Ok data)
  end.

Definition expand_home (path : string) : prog key_op (option string) :=
  if String.eqb path "~" || has_prefix path "~/" then
    home ← trigger KeyHome;
    Ret (match home with None => None | Some home => Some (if String.eqb path "~" then home else Join [home; trim_prefix path "~/"]) end)
  else Ret (Some path).

Definition readPrivateKeyFile (path : string) : prog key_op (result app_error string) :=
  let path := trim_space path in
  if str_is_empty path then Ret (Fail ErrPrivateKey)
  else
    expanded ← expand_home path;
    match expanded with
    | None => Ret (Fail ErrPrivateKey)
    | Some path =>
        opened ← trigger (OpenKey path);
        if negb opened then Ret (Fail ErrPrivateKey) else deferred read_open_key CloseKey
    end.

Fixpoint first_private (home : string) (names : list string) : prog key_op string :=
  match names with
  | [] => Ret ""
  | name :: names =>
      let path := Join [home; ".ssh"; name] in
      info ← trigger (LstatKey path);
      if match info with Some info => fi_regular info && private_mode info | None => false end then Ret path else first_private home names
  end.

Definition discoverPrivateKey : prog key_op string :=
  home ← trigger KeyHome;
  match home with None => Ret "" | Some home => first_private home ["id_ed25519"; "id_ecdsa"; "id_rsa"] end.

(** Open and vetted or not; the bytes in memory that nobody has been given. *)
Record key_state := KeyState { ks_open : bool; ks_vetted : bool; ks_data : string }.

Definition no_key : key_state := KeyState false false "".

Definition key_monitor (s : key_state) (call : io key_op) : verdict key_state :=
  match call with IO e x =>
    match e in key_op X return X → verdict key_state with
    | KeyHome => λ _, Next s
    | OpenKey _ => λ ok, if ks_open s then Reject else Next (KeyState ok false (ks_data s))
    | StatKey => λ info, if ks_open s then Next (KeyState true (from_option vetted_key false info) (ks_data s)) else Reject
    | ReadKey limit => λ answer,
        if ks_open s && ks_vetted s && (limit =? maxPrivateKeyBytes + 1)%Z then Next (KeyState true true (fst answer)) else Reject
    | WipeKey data => λ _, if String.eqb data (ks_data s) then Next (KeyState (ks_open s) (ks_vetted s) "") else Reject
    | CloseKey => λ _, if ks_open s then Next (KeyState false (ks_vetted s) (ks_data s)) else Reject
    | LstatKey _ => λ _, Next s
    end x
  end.

(** A private key is read from a file that only its owner, the user, can read;
    what is given is not empty and at most a mebibyte, what is not given is
    wiped, and the file is closed. *)
Lemma private_key_vetted path :
  safe key_monitor no_key (readPrivateKeyFile path) (λ s r, ks_open s = false ∧ match r with
    | Ok data => ks_vetted s = true ∧ ks_data s = data ∧ (0 < slen data ≤ maxPrivateKeyBytes)%Z
    | Fail _ => ks_data s = ""
    end).
Proof.
  unfold readPrivateKeyFile. destruct (str_is_empty _); [done|]. apply safe_bind.
  eapply (safe_mono _ _ _ (λ s _, s = no_key)); [|unfold expand_home; by destruct (_ || _); [intros home|]].
  intros s [p|] ->; [|done]. intros []; simpl; [|done]. intros [info|]; simpl; [|by intros []].
  destruct (vetted_key info) eqn:Hv; simpl; [|by intros []]. intros [data failed]. simpl.
  destruct (failed || str_is_empty data || _) eqn:Hd; simpl.
  - intros []. rewrite String.eqb_refl. by intros [].
  - intros []. simpl. rewrite !orb_false_iff in Hd. destruct Hd as [[_ He] Hl]. split; [done|]. split; [done|]. split; [done|].
    apply Z.ltb_ge in Hl. split; [|done]. destruct data as [|a data]; [done|]. unfold slen. simpl. lia.
Qed.
End private_key.

(** ** Texts *)

Definition dq : string := String "034" "".
Definition in_quotes (s : string) : string := dq +:+ s +:+ dq.

(** [html.EscapeString] *)
Definition html_escape_byte (a : ascii) : string :=
  if Ascii.eqb a "&" then "&amp;" else if Ascii.eqb a "'" then "&#39;" else if Ascii.eqb a "<" then "&lt;"
  else if Ascii.eqb a ">" then "&gt;" else if Ascii.eqb a "034" then "&#34;" else String a "".

Fixpoint html_escape (s : string) : string :=
  match s with "" => "" | String a s => html_escape_byte a +:+ html_escape s end.

(** The [n] last hexadecimal digits of [r]. *)
Fixpoint hex_digits (n : nat) (r : Z) (rest : string) : string :=
  match n with O => rest | S n => hex_digits n (r / 16) (String (hex_digit (r mod 16)) rest) end.

Section quote.
(** The table of [strconv.IsPrint] beyond ASCII. *)
Context (is_print_wide : Z → bool).

Definition IsPrint (r : Z) : bool := if (r <? 128)%Z then (32 <=? r)%Z && (r <? 127)%Z else is_print_wide r.

(** [strconv.Quote], of one step of the decoder. *)
Definition escaped_step (x : step) : string :=
  let r := st_rune x in
  if negb (st_ok x) then "\x" +:+ hex_digits 2 (from_option byte_val 0%Z (String.get 0 (st_bytes x))) ""
  else if (r =? 34)%Z || (r =? 92)%Z then "\" +:+ st_bytes x
  else if IsPrint r then st_bytes x
  else if (r =? 7)%Z then "\a" else if (r =? 8)%Z then "\b" else if (r =? 12)%Z then "\f" else if (r =? 10)%Z then "\n"
  else if (r =? 13)%Z then "\r" else if (r =? 9)%Z then "\t" else if (r =? 11)%Z then "\v"
  else if (r <? 32)%Z || (r =? 127)%Z then "\x" +:+ hex_digits 2 r ""
  else if (r <? 65536)%Z then "\u" +:+ hex_digits 4 r ""
  else "\U" +:+ hex_digits 8 r "".

Fixpoint escaped (l : list step) : string := match l with [] => "" | x :: l => escaped_step x +:+ escaped l end.

Definition Quote (s : string) : string := in_quotes (escaped (runes s)).

End quote.

(** ** The login service *)

Inductive system := Darwin | Linux | OtherSystem.

Inductive removal := Removed | NotThere | RemoveFailed.

Inductive service_op : Type → Type :=
| Goos : service_op system
| ServiceHome : service_op (option string)
| ServiceExecutable : service_op (option string)
| Getuid : service_op Z
| PathExists (path : string) : service_op bool
| MakeDirectory (path : string) : service_op bool
| WriteService (path content : string) : service_op bool
| RemoveService (path : string) : service_op removal
| RunTool (args : list string) : service_op bool
| ServiceStdout (text : string) : service_op unit
(* the table of [strconv.IsPrint] beyond ASCII *)
| PrintTable : service_op (Z → bool).

Abbreviation service := (prog service_op).

Definition launch_agents (home : string) : string := Join [home; "Library"; "LaunchAgents"].
Definition plist_path (home : string) : string := Join [launch_agents home; "com.taotecode.aegis-ssh.plist"].
Definition systemd_user (home : string) : string := Join [home; ".config"; "systemd"; "user"].
Definition unit_path (home : string) : string := Join [systemd_user home; "aegis-ssh.service"].

Definition plist_text (executable : string) : string :=
  "<?xml version=" +:+ in_quotes "1.0" +:+ " encoding=" +:+ in_quotes "UTF-8" +:+ "?><!DOCTYPE plist PUBLIC " +:+
  in_quotes "-//Apple//DTD PLIST 1.0//EN" +:+ " " +:+ in_quotes "http://www.apple.com/DTDs/PropertyList-1.0.dtd" +:+
  "><plist version=" +:+ in_quotes "1.0" +:+
  "><dict><key>Label</key><string>com.taotecode.aegis-ssh</string><key>ProgramArguments</key><array><string>" +:+
  html_escape executable +:+
  "</string><string>daemon-locked</string></array><key>RunAtLoad</key><true/></dict></plist>" +:+ AppVault.newline.

Definition unit_lines (wide : Z → bool) (executable : string) : list string :=
  ["[Unit]"; "Description=Aegis SSH Broker"; "[Service]"; "ExecStart=" +:+ Quote wide executable +:+ " daemon-locked";
   "Restart=on-failure"; "[Install]"; "WantedBy=default.target"; ""].

Definition unit_text (wide : Z → bool) (executable : string) : string := str_join (unit_lines wide executable) AppVault.newline.

Section login.
Context (lang : language).

Definition tell (english chinese : string) : service unit := trigger (ServiceStdout (localize lang english chinese +:+ AppVault.newline)).

(** [if err := p; err != nil { return ErrStorage }; k] *)
Definition or_storage (p : service_op bool) (k : service (result start_error unit)) : service (result start_error unit) :=
  ok ← trigger p; if ok : bool then k else Ret (Fail (AppError ErrStorage)).

Definition known (p : service_op (option string)) (k : string → service (result start_error unit)) : service (result start_error unit) :=
  answer ← trigger p; match (answer : option string) with Some s => k s | None => Ret (Fail (AppError ErrStorage)) end.

Definition launchd_domain (uid : Z) : string := "gui/" +:+ itoa uid.

Definition installService : service (result start_error unit) :=
  known ServiceExecutable (λ executable,
  known ServiceHome (λ home,
    goos ← trigger Goos;
    match (goos : system) with
    | Darwin =>
        or_storage (MakeDirectory (launch_agents home))
        (or_storage (WriteService (plist_path home) (plist_text executable))
        (uid ← trigger Getuid;
         _ ← trigger (RunTool ["launchctl"; "bootstrap"; launchd_domain uid; plist_path home]);
         _ ← tell "launchd user service installed" "launchd 用户服务安装完成";
         Ret (Ok tt)))
    | Linux =>
        wide ← trigger PrintTable;
        or_storage (MakeDirectory (systemd_user home))
        (or_storage (WriteService (unit_path home) (unit_text wide executable))
        (_ ← trigger (RunTool ["systemctl"; "--user"; "daemon-reload"]);
         _ ← trigger (RunTool ["systemctl"; "--user"; "enable"; "--now"; "aegis-ssh.service"]);
         _ ← tell "systemd user service installed" "systemd 用户服务安装完成";
         Ret (Ok tt)))
    | OtherSystem => Ret (Fail (OtherError "user services are unsupported on this platform"))
    end)).

Definition service_path (goos : system) (home : string) : string :=
  match goos with Darwin => plist_path home | _ => unit_path home end.

Definition uninstallService : service (result start_error unit) :=
  known ServiceHome (λ home,
    goos ← trigger Goos;
    let path := service_path goos home in
    _ ← (match goos with
         | Darwin => uid ← trigger Getuid; trigger (RunTool ["launchctl"; "bootout"; launchd_domain uid; path])
         | _ => trigger (RunTool ["systemctl"; "--user"; "disable"; "--now"; "aegis-ssh.service"])
         end);
    removed ← trigger (RemoveService path);
    match (removed : removal) with
    | RemoveFailed => Ret (Fail (AppError ErrStorage))
    | Removed | NotThere => _ ← tell "user service uninstalled" "用户服务已卸载"; Ret (Ok tt)
    end).

Definition service_state (installed loaded : bool) : string :=
  if loaded then localize lang "installed and enabled" "已安装并启用"
  else if installed then localize lang "installed" "已安装" else localize lang "not installed" "未安装".

Definition printServiceStatus : service unit :=
  home ← trigger ServiceHome;
  match (home : option string) with
  | None => Ret tt
  | Some home =>
      goos ← trigger Goos;
      let show (loaded : service bool) : service unit :=
        installed ← trigger (PathExists (service_path goos home));
        loaded ← loaded;
        trigger (ServiceStdout (localize lang "login service: " "登录自启服务：" +:+ service_state installed loaded +:+ AppVault.newline)) in
      match (goos : system) with
      | Darwin => show (uid ← trigger Getuid; trigger (RunTool ["launchctl"; "print"; launchd_domain uid +:+ "/com.taotecode.aegis-ssh"]))
      | Linux => show (trigger (RunTool ["systemctl"; "--user"; "is-enabled"; "--quiet"; "aegis-ssh.service"]))
      | OtherSystem => Ret tt
      end
  end.
End login.

(** ** Where the unit is *)

(** A file holds a text, or what a write that failed has left of it. *)
Record machine := Machine {
  mc_goos : system; mc_home : string; mc_executable : string; mc_files : gmap string (option string) }.

Definition with_unit (w : machine) (files : gmap string (option string)) : machine :=
  Machine (mc_goos w) (mc_home w) (mc_executable w) files.

Definition says {A} `{EqDecision A} (w : machine) (told here : A) : option machine := if decide (told = here) then Some w else None.

#[export] Instance system_eq_dec : EqDecision system.
Proof. solve_decision. Defined.

Definition service_acts (X : Type) (w : machine) (e : service_op X) : X → option machine :=
  match e in service_op X return X → option machine with
  | Goos => λ goos, says w goos (mc_goos w)
  | ServiceHome => λ home, match home with Some home => says w home (mc_home w) | None => Some w end
  | ServiceExecutable => λ executable, match executable with Some executable => says w executable (mc_executable w) | None => Some w end
  | PathExists path => λ b, says w b (bool_decide (is_Some (mc_files w !! path)))
  | WriteService path content => λ ok, Some (with_unit w (<[path := if ok then Some content else None]> (mc_files w)))
  | RemoveService path => λ r,
      match r, mc_files w !! path with
      | Removed, Some _ => Some (with_unit w (delete path (mc_files w)))
      | NotThere, None | RemoveFailed, _ => Some w
      | _, _ => None
      end
  | PrintTable => λ _, Some w
  | _ => λ _, Some w
  end.

(** The unit of this system, whole. *)
Definition unit_for (w : machine) (text : string) : Prop :=
  match mc_goos w with
  | Darwin => text = plist_text (mc_executable w)
  | Linux => ∃ wide, text = unit_text wide (mc_executable w)
  | OtherSystem => False
  end.

Definition at_service (w : machine) : string := service_path (mc_goos w) (mc_home w).

(** Nothing else has changed; the unit is as it was, gone, half written or whole. *)
Definition only_unit (w w' : machine) : Prop :=
  mc_goos w' = mc_goos w ∧ mc_home w' = mc_home w ∧ mc_executable w' = mc_executable w ∧
  (∀ p, p ≠ at_service w → mc_files w' !! p = mc_files w !! p) ∧
  (mc_files w' !! at_service w = mc_files w !! at_service w ∨ mc_files w' !! at_service w = None ∨
   mc_files w' !! at_service w = Some None ∨ ∃ text, mc_files w' !! at_service w = Some (Some text) ∧ unit_for w text).

Lemma only_unit_refl w : only_unit w w.
Proof. split_and!; auto. Qed.

Abbreviation service_keeps := (world_keeps service_acts).

Ltac told := let Ha := fresh in intros ? ? Ha; simpl in Ha; unfold says in Ha; repeat case_match; by simplify_eq.

Lemma keeps_known w (p : service_op (option string)) k Q :
  (∀ x w', service_acts _ w p x = Some w' → w' = w) → (∀ e, Q w (Fail e)) →
  (∀ s, service_acts _ w p (Some s) = Some w → service_keeps (only_unit w) w (k s) Q) → service_keeps (only_unit w) w (known p k) Q.
Proof.
  intros Hp Hf Hk x w' Ha. assert (w' = w) as -> by by eapply Hp. split; [apply only_unit_refl|]. destruct x as [s|]; [by apply Hk|by apply Hf].
Qed.

(** What is left once only calls remain that change nothing. *)
Lemma keeps_calls {R} w w' (p : service R) (Q : machine → R → Prop) : only_unit w w' →
  only (λ X e, match e with WriteService _ _ | RemoveService _ => false | _ => true end) p →
  (∀ tr r, runs p tr r → Q w' r) → service_keeps (only_unit w) w' p Q.
Proof.
  intros Hu Hp HQ. eapply keeps_mono; [|eapply keeps_only; [|exact Hu|exact Hp]].
  - intros w2 r [-> (tr & Hr)]. by eapply HQ.
  - intros X e x w2 He Ha. destruct e; try done; simpl in Ha; unfold says in Ha; repeat case_match; by simplify_eq.
Qed.

Lemma only_unit_write w text : match text with Some text => unit_for w text | None => True end →
  only_unit w (with_unit w (<[at_service w := text]> (mc_files w))).
Proof.
  intros Ht. split_and!; try done; simpl; [intros p Hp; by rewrite lookup_insert_ne|]. rewrite lookup_insert_eq.
  destruct text as [text|]; [|by do 2 right; left]. do 3 right. by exists text.
Qed.

Lemma only_unit_delete w : only_unit w (with_unit w (delete (at_service w) (mc_files w))).
Proof.
  do 3 (split; [done|]). split; [intros p Hp; simpl; by rewrite lookup_delete_ne|]. right. left. apply lookup_delete_eq.
Qed.

Definition installed (w w' : machine) : Prop := ∃ text, mc_files w' !! at_service w = Some (Some text) ∧ unit_for w text.

(** The unit is written, and what comes after it changes nothing. *)
Lemma keeps_install_unit w dir path text (k : service (result start_error unit)) :
  path = at_service w → unit_for w text → (∀ tr r, runs k tr r → r = Ok tt) →
  only (λ X e, match e with WriteService _ _ | RemoveService _ => false | _ => true end) k →
  service_keeps (only_unit w) w (or_storage (MakeDirectory dir) (or_storage (WriteService path text) k))
    (λ w' r, only_unit w w' ∧ (r = Ok tt → installed w w')).
Proof.
  intros -> Ht Hk Ho. pose proof (only_unit_refl w) as Hw. intros made w1 [= <-]. split; [done|]. destruct made; [|done].
  intros ok w2 [= <-]. assert (only_unit w (with_unit w (<[at_service w := if ok then Some text else None]> (mc_files w)))) as Hu
    by (apply only_unit_write; by destruct ok).
  split; [done|]. destruct ok; [|done]. apply keeps_calls; [done|done|]. intros tr r _. split; [done|]. intros _. exists text. split; [|done].
  apply lookup_insert_eq.
Qed.

(** The login service: wherever installing or removing it stops, no other file
    has changed, and the unit is as it was, gone, half written, or the whole unit
    that starts this program locked; success means it is there, or gone. *)
Theorem login_service_unit lang w :
  (∀ w', world_stops service_acts w (installService lang) w' ∨ world_stops service_acts w (uninstallService lang) w' → only_unit w w') ∧
  (∀ w' r, world_halts service_acts w (installService lang) w' r → r = Ok tt → installed w w') ∧
  (∀ w' r, world_halts service_acts w (uninstallService lang) w' r → r = Ok tt → mc_files w' !! at_service w = None).
Proof.
  pose proof (only_unit_refl w) as Hw.
  assert (service_keeps (only_unit w) w (installService lang) (λ w' r, only_unit w w' ∧ (r = Ok tt → installed w w'))) as Hi.
  { apply keeps_known; [told|by split|]. intros executable He.
    apply keeps_known; [told|by split|]. intros home Hh.
    simpl in He, Hh. unfold says in He, Hh. case_decide as He'; [|done]. case_decide as Hh'; [|done]. subst.
    intros goos w1 Ha. simpl in Ha. unfold says in Ha. case_decide as Hg; [|done]. injection Ha as <-. subst goos. split; [done|].
    destruct (mc_goos w) eqn:Hg.
    - apply keeps_install_unit; [unfold at_service; by rewrite Hg|unfold unit_for; by rewrite Hg| |].
      + intros tr r (? & ? & _ & ? & ? & _ & ? & ? & _ & _ & ->). done.
      + by repeat split.
    - intros wide w1 [= <-]. split; [done|].
      apply keeps_install_unit; [unfold at_service; by rewrite Hg|unfold unit_for; rewrite Hg; by eexists| |].
      + intros tr r (? & ? & _ & ? & ? & _ & ? & ? & _ & _ & ->). done.
      + by repeat split.
    - by split. }
  assert (service_keeps (only_unit w) w (uninstallService lang) (λ w' r, r = Ok tt → mc_files w' !! at_service w = None)) as Hu.
  { apply keeps_known; [told|done|]. intros home Hh.
    simpl in Hh. unfold says in Hh. case_decide as Hh'; [|done]. subst.
    intros goos w1 Ha. simpl in Ha. unfold says in Ha. case_decide as Hg; [|done]. injection Ha as <-. subst goos. split; [done|].
    cbv zeta. fold (at_service w). apply keeps_bind. apply keeps_calls; [done|by destruct (mc_goos w); repeat split|]. intros _ _ _.
    intros removed w1 Ha. simpl in Ha. fold (at_service w) in Ha. destruct (mc_files w !! at_service w) as [text|] eqn:Hf.
    - destruct removed; simplify_eq; [|split; [apply only_unit_refl|]; by intros ?].
      split; [apply only_unit_delete|]. intros [] w1 [= <-]. split; [apply only_unit_delete|]. intros _. apply lookup_delete_eq.
    - destruct removed; simplify_eq; (split; [apply only_unit_refl|]); [|by intros ?]. intros [] w2 [= <-]. split; [apply only_unit_refl|]. by intros _. }
  split_and!.
  - intros w' [Hs|Hs]; [exact (keeps_stops _ _ _ _ _ Hw Hi Hs)|exact (keeps_stops _ _ _ _ _ Hw Hu Hs)].
  - intros w' r Hr. by apply (keeps_halts _ _ _ _ _ _ Hi Hr).
  - intros w' r Hr. exact (keeps_halts _ _ _ _ _ _ Hu Hr).
Qed.

(** The path of the program cannot add a line to the unit. *)
Lemma hex_digits_printable n r rest : str_all printable rest = true → str_all printable (hex_digits n r rest) = true.
Proof.
  revert r rest. induction n as [|n IH]; intros r rest Hr; [done|]. simpl. apply IH. cbn [str_all].
  rewrite hex_digit_printable, Hr by (apply Z.mod_pos_bound; lia). done.
Qed.

Lemma escaped_step_printable wide a s : str_all printable (escaped_step wide (decode1 a s)) = true.
Proof.
  unfold escaped_step. destruct (st_ok (decode1 a s)) eqn:Hok; cbn [negb].
  2: { rewrite str_all_app, hex_digits_printable by done. done. }
  destruct (_ || _) eqn:Hq.
  { rewrite str_all_app, step_printable; [done|done|]. apply orb_true_iff in Hq as [H|H]; apply Z.eqb_eq in H; lia. }
  destruct (IsPrint wide _) eqn:Hp.
  { apply step_printable; [done|]. unfold IsPrint in Hp. destruct (_ <? 128)%Z eqn:H; [|apply Z.ltb_ge in H; lia].
    apply andb_true_iff in Hp as [Hp _]. by apply Z.leb_le. }
  repeat (case_match; [first [done|rewrite str_all_app, hex_digits_printable by done; done]|]).
  rewrite str_all_app, hex_digits_printable by done. done.
Qed.

Lemma unit_one_line_each wide executable : Forall (λ line, index_byte line "010"%char = None) (unit_lines wide executable).
Proof.
  assert (str_all printable (Quote wide executable) = true) as Hq.
  { unfold Quote, in_quotes. rewrite !str_all_app. change (str_all printable dq) with true. cbn [andb]. rewrite andb_true_r.
    induction executable as [|a s u _ Hr IH] using runes_ind; [done|]. rewrite Hr. cbn [escaped]. by rewrite str_all_app, escaped_step_printable, IH. }
  unfold unit_lines. repeat (apply Forall_cons_2; [first [reflexivity|apply printable_no_newline; rewrite !str_all_app, Hq; reflexivity]|]). by apply Forall_nil_2.
Qed.
