(* ===== verification/Agent.v ===== *)
(** * Integrations with agents: [internal/app/agent.go]

    The entry of the MCP server in the configuration files and the command lines
    of other programs, and the skill that is installed beside them, as trees of
    calls.  A configuration file is the JSON document that it parses to: its
    layout is left out.  An error is its text; paths are joined with a slash, which
    is what [filepath.Join] does to clean ones. *)

From S2P Require Import Prelude GoStr Utf8 Json Wire Prog Model AppConfig AppVault.
From Stdlib Require Import Ascii.
Open Scope string_scope.
Open Scope list_scope.

Inductive agentOutcome := agentConfigured | agentSkipped | agentFailed.

Record agentStep := Step { st_client : string; st_outcome : agentOutcome; st_detail : string }.

Record agentState := State { as_client : string; as_installed : bool; as_configured : string; as_path : string }.

#[export] Instance json_eq_dec : EqDecision json.
Proof.
  refine (fix go (x y : json) {struct x} : {x = y} + {x ≠ y} :=
    match x, y with
    | JNull, JNull => left eq_refl
    | JBool a, JBool b => cast_if (decide (a = b))
    | JNum a, JNum b => cast_if (decide (a = b))
    | JStr a, JStr b => cast_if (decide (a = b))
    | JArr l, JArr l' =>
        cast_if ((fix each (l l' : list json) : {l = l'} + {l ≠ l'} :=
          match l, l' with
          | [], [] => left eq_refl
          | a :: l, a' :: l' => cast_if_and (go a a') (each l l')
          | _, _ => right _
          end) l l')
    | JObj l, JObj l' =>
        cast_if ((fix each (l l' : list (string * json)) : {l = l'} + {l ≠ l'} :=
          match l, l' with
          | [], [] => left eq_refl
          | (k, a) :: l, (k', a') :: l' => cast_if_and3 (decide (k = k')) (go a a') (each l l')
          | _, _ => right _
          end) l l')
    | _, _ => right _
    end); clear go; congruence.
Defined.

(** ** Calls *)

Inductive node := Missing | Regular | Symlink | Irregular | LstatError (e : string).

(** What is in a file: the document that its text is read as, or another text. *)
Inductive content := Document (j : json) | Junk (data : string).

(** Of a command that ran: its outputs, and an error. *)
Record client_output := Output { co_stdout : string; co_stderr : string; co_error : option string }.

(** What the clients look up: the system, [XDG_CONFIG_HOME], and the text of an
    error of [json.Unmarshal] on an entry. *)
Record platform := { pf_darwin : bool; pf_config_home : string; pf_unmarshal_error : json → string }.

Inductive agent_op : Type → Type :=
| Lstat (path : string) : agent_op node
| LstatDir (path : string) : agent_op node
| ReadFile (path : string) : agent_op (result string content)
| MkdirAll (path : string) : agent_op (option string)
(* a temporary file, renamed over another *)
| CreateTemp (dir : string) : agent_op (option string)
| ChmodTemp : agent_op (option string)
| WriteTemp (c : content) : agent_op (option string)
| SyncTemp : agent_op (option string)
| CloseTemp : agent_op (option string)
| RenameTemp (path : string) : agent_op (option string)
| RemoveTemp : agent_op unit
(* the skill *)
| MkdirTemp (root : string) : agent_op (option string)
| CopySkill : agent_op (option string)
| WriteMarker (version : string) : agent_op (option string)
| RenameSkill (from to : string) : agent_op (option string)
| PublishSkill (to : string) : agent_op (option string)
| RemoveAll (path : string) : agent_op (option string)
| RemoveAllTemp : agent_op unit
| ReadMarker (path : string) : agent_op (option string)
(* other programs *)
| LookPath (command : string) : agent_op bool
| RunClient (command : string) (args : list string) : agent_op client_output
| AgentStdout (s : string) : agent_op unit
| UserHome : agent_op (option string)
| Platform : agent_op platform
| ExecutablePath : agent_op (option string).

Abbreviation agent := (prog agent_op).
Abbreviation attempt A := (agent (result string A)).

(** [if err := p; err != nil { return err }; k] *)
Definition must {A} (p : agent_op (option string)) (k : attempt A) : attempt A :=
  e ← trigger p; match e with Some e => Ret (Fail e) | None => k end.

Definition exists_at (path : string) : agent bool :=
  n ← trigger (Lstat path); Ret (match n with Missing | LstatError _ => false | _ => true end).

Definition join (a b : string) : string := a +:+ "/" +:+ b.

(** ** Files *)

Definition unsafe_path : string := "refusing unsafe agent config path".

(** Between [os.CreateTemp] and the return, with [defer os.Remove(tempPath)]. *)
Definition fill_and_rename (path : string) (c : content) : attempt unit :=
  let closing {A} (p : agent_op (option string)) (k : attempt A) : attempt A :=
    e ← trigger p; match e with Some e => _ ← trigger CloseTemp; Ret (Fail e) | None => k end in
  closing ChmodTemp (closing (WriteTemp c) (closing SyncTemp (must CloseTemp (must (RenameTemp path) (Ret (Ok tt)))))).

Definition writeAtomicFile (dir path : string) (c : content) : attempt unit :=
  must (MkdirAll dir)
  (n ← trigger (Lstat path);
   match n with
   | Symlink => Ret (Fail unsafe_path)
   | _ => must (CreateTemp dir) (deferred (fill_and_rename path c) RemoveTemp)
   end).

Definition writeFileAtomicWithBackup (dir path : string) (c : content) : attempt unit :=
  n ← trigger (Lstat path);
  match n with
  | Symlink | Irregular => Ret (Fail unsafe_path)
  | LstatError e => Ret (Fail e)
  | Missing => writeAtomicFile dir path c
  | Regular =>
      try (trigger (ReadFile path)) (λ original,
      try (writeAtomicFile dir (path +:+ ".bak") original) (λ _, writeAtomicFile dir path c))
  end.

(** ** Servers in JSON *)

(** [json.RawMessage]: the last value that was given. *)
Definition dec_raw : dec json := λ js, last js.

Abbreviation raw_map := (gmap string json).

Definition raw_object (m : raw_map) : json := JObj (map_members id m).

Definition not_an_object : string := "agent config server map is not an object".

(** The path, or [None] for a file that is not there. *)
Definition root_of (data : content) : option raw_map :=
  match data with Document j => default None (dec_map dec_raw [j]) | Junk _ => None end.

Definition servers_in (root : raw_map) (mapKey : string) : option raw_map :=
  match root !! mapKey with None => Some ∅ | Some raw => default None (dec_map dec_raw [raw]) end.

Definition loadJSONServers (path mapKey : string) : attempt (raw_map * raw_map) :=
  let servers root :=
    match servers_in root mapKey with Some servers => Ret (Ok (root, servers)) | None => Ret (Fail not_an_object) end in
  there ← exists_at path;
  if negb there then servers ∅
  else
    n ← trigger (Lstat path);
    match n with
    | Regular =>
        data ← trigger (ReadFile path);
        match data with
        | Fail _ => Ret (Fail "unable to parse agent config")
        | Ok data => match root_of data with Some root => servers root | None => Ret (Fail "unable to parse agent config") end
        end
    | _ => Ret (Fail unsafe_path)
    end.

Definition with_servers (root : raw_map) (mapKey : string) (servers : raw_map) : raw_map := <[mapKey := raw_object servers]> root.

Definition saveJSONServers (dir path mapKey : string) (root servers : raw_map) : attempt unit :=
  writeFileAtomicWithBackup dir path (Document (raw_object (with_servers root mapKey servers))).

(** What the written entry reads as. *)
Definition server_entry (binPath : string) : json := json_sane (JObj [("args", JArr [JStr "mcp"]); ("command", JStr binPath)]).

Definition parseJSONServer (raw : json) : option (string * list string) :=
  dec_struct false ["command"; "args"] (λ get,
    command ← dec_string (get "command"); args ← dec_list dec_string (get "args"); Some (command, args)) [raw].

Definition points_at (binPath : string) (server : string * list string) : bool :=
  String.eqb (fst server) binPath && bool_decide (snd server = ["mcp"]).

Definition server_name : string := "aegis-ssh".

Definition upsertJSONServer (dir path mapKey binPath : string) : attempt bool :=
  try (loadJSONServers path mapKey) (λ '(root, servers),
    if match servers !! server_name ≫= parseJSONServer with Some server => points_at binPath server | None => false end
    then Ret (Ok false)
    else
      try (saveJSONServers dir path mapKey root (<[server_name := server_entry binPath]> servers)) (λ _, Ret (Ok true))).

Definition removeJSONServer (dir path mapKey : string) : attempt bool :=
  there ← exists_at path;
  if negb there then Ret (Ok false)
  else
    try (loadJSONServers path mapKey) (λ '(root, servers),
      match servers !! server_name with
      | None => Ret (Ok false)
      | Some _ => try (saveJSONServers dir path mapKey root (delete server_name servers)) (λ _, Ret (Ok true))
      end).

(** What the file has of the server: configured, and the path; the text of an
    error of [json.Unmarshal] is a parameter. *)
Definition inspectJSONServer (unmarshal_error : json → string) (path mapKey binPath : string) : attempt (string * string) :=
  there ← exists_at path;
  if negb there then Ret (Ok ("no", "-"))
  else
    try (loadJSONServers path mapKey) (λ '(root, servers),
      match servers !! server_name with
      | None => Ret (Ok ("no", "-"))
      | Some raw =>
          match parseJSONServer raw with
          | None => Ret (Fail (unmarshal_error raw))
          | Some server => Ret (Ok (if points_at binPath server then "yes" else "stale", fst server))
          end
      end).

(** ** The skill *)

Definition unsafe_skill : string := "refusing unsafe Skill path".

(** [isManagedSkill]: [LstatDir] finds a directory regular. *)
Definition isManagedSkill (target : string) : attempt bool :=
  n ← trigger (LstatDir target);
  match n with
  | Missing => Ret (Ok false)
  | Regular =>
      marker ← trigger (Lstat (join target ".aegis-managed"));
      match marker with
      | Missing => Ret (Ok false)
      | Regular => Ret (Ok true)
      | _ => Ret (Fail "refusing unsafe Skill marker")
      end
  | _ => Ret (Fail unsafe_skill)
  end.

Definition Version : string := "0.4.0".

(** The two renames, and the first one undone when the second fails. *)
Definition publish_skill (target : string) : attempt bool :=
  let old := target +:+ ".old" in
  taken ← exists_at old;
  if taken : bool then Ret (Fail "refusing to overwrite existing Skill backup")
  else
    there ← exists_at target;
    moved ← (if there : bool then trigger (RenameSkill target old) else Ret None);
    match (moved : option string) with
    | Some e => Ret (Fail e)
    | None =>
        published ← trigger (PublishSkill target);
        match (published : option string) with
        | Some e =>
            kept ← exists_at old;
            _ ← (if kept : bool then trigger (RenameSkill old target) else Ret None);
            Ret (Fail e)
        | None => _ ← trigger (RemoveAll old); Ret (Ok true)
        end
    end.

Definition install_skill (root target : string) : attempt bool :=
  must (MkdirAll root)
  (must (MkdirTemp root)
  (deferred (must CopySkill (must (WriteMarker Version) (publish_skill target))) RemoveAllTemp)).

Definition materializeSkill (root : string) : attempt bool :=
  let target := join root "aegis-ssh" in
  try (isManagedSkill target) (λ managed,
    there ← exists_at target;
    if there && negb managed then Ret (Fail "refusing to overwrite unmanaged aegis-ssh Skill")
    else
      current ← (if managed : bool then version ← trigger (ReadMarker target); Ret (bool_decide (trim_space <$> version = Some Version))
                 else Ret false);
      if current : bool then Ret (Ok false) else install_skill root target).

Definition removeManagedSkill (root : string) : attempt bool :=
  let target := join root "aegis-ssh" in
  there ← exists_at target;
  if negb there then Ret (Ok false)
  else
    try (isManagedSkill target) (λ managed,
      if negb managed then Ret (Ok false)
      else e ← trigger (RemoveAll target); Ret (match e with Some e => Fail e | None => Ok true end)).

(** ** Clients *)

(** What [agentCommand] asks of a program, whichever it is. *)
Record agentClient := Client {
  ac_id : string;
  ac_detect : agent bool;
  ac_configure : string → agent agentStep;
  ac_unconfigure : agent agentStep;
  ac_inspect : string → agent agentState }.

Definition lines_of (s : string) : list string := split_byte s "010"%char.

Definition firstAgentError (stderr e : string) : string :=
  let line := trim_space (default "" (head (lines_of stderr))) in if str_is_empty line then e else line.

Definition configuredCommand (output : string) : string :=
  match filter (λ line, has_prefix line "command:" = true) (trim_space <$> lines_of output) with
  | line :: _ => trim_space (trim_prefix line "command:")
  | [] => "unknown"
  end.

Definition hasMCPArgument (output binPath : string) : bool :=
  str_contains (to_lower output) "args: mcp" || str_contains output (binPath +:+ " mcp").

(** The step of an edit: failed, done or nothing to do. *)
Definition step_of (client installed already : string) (r : result string bool) : agentStep :=
  match r with
  | Fail e => Step client agentFailed e
  | Ok true => Step client agentConfigured installed
  | Ok false => Step client agentSkipped already
  end.

Record cliAgent := CliAgent {
  cl_name : string; cl_command : string; cl_configPath : string; cl_skillRoot : string;
  cl_inspectArgs : list string; cl_addPrefix : list string; cl_removeArgs : list string }.

Section cliAgent.
Context (client : cliAgent).

Definition cli_detect : agent bool :=
  found ← trigger (LookPath (cl_command client));
  if found : bool then Ret true else if str_is_empty (cl_configPath client) then Ret false else exists_at (cl_configPath client).

Definition cli_state (installed : bool) (binPath : string) (out : client_output) : agentState :=
  let output := co_stdout out +:+ newline +:+ co_stderr out in
  if bool_decide (is_Some (co_error out)) || negb (str_contains output "aegis-ssh") then State (cl_name client) installed "no" "-"
  else if not_empty binPath && str_contains output binPath && hasMCPArgument output binPath
  then State (cl_name client) installed "yes" binPath
  else State (cl_name client) installed "stale" (configuredCommand output).

Definition cli_inspect (binPath : string) : agent agentState :=
  installed ← cli_detect;
  found ← trigger (LookPath (cl_command client));
  if negb found then Ret (State (cl_name client) installed "unknown" "client CLI unavailable")
  else out ← trigger (RunClient (cl_command client) (cl_inspectArgs client)); Ret (cli_state installed binPath out).

(** [if _, stderr, err := runAgentClient(...); err != nil { return firstAgentError(stderr, err) }; k] *)
Definition run_client (args : list string) (k : attempt bool) : attempt bool :=
  out ← trigger (RunClient (cl_command client) args);
  match co_error out with Some e => Ret (Fail (firstAgentError (co_stderr out) e)) | None => k end.

(** The skill, and whether anything changed. *)
Definition with_skill (change : string → attempt bool) (changed : bool) : attempt bool :=
  if str_is_empty (cl_skillRoot client) then Ret (Ok changed)
  else try (change (cl_skillRoot client)) (λ skillChanged, Ret (Ok (changed || skillChanged))).

Definition cli_configure (binPath : string) : agent agentStep :=
  found ← trigger (LookPath (cl_command client));
  if negb found then Ret (Step (cl_name client) agentFailed (cl_command client +:+ " CLI not found"))
  else
    state ← cli_inspect binPath;
    let add := run_client (cl_addPrefix client ++ [binPath; "mcp"]) (with_skill materializeSkill true) in
    r ← (if String.eqb (as_configured state) "yes" then with_skill materializeSkill false
         else if String.eqb (as_configured state) "stale" then run_client (cl_removeArgs client) add else add);
    Ret (step_of (cl_name client) "Aegis SSH integration installed" "already configured" r).

Definition cli_unconfigure : agent agentStep :=
  found ← trigger (LookPath (cl_command client));
  r ← (if negb found then with_skill removeManagedSkill false
       else
         state ← cli_inspect "";
         if String.eqb (as_configured state) "stale" || String.eqb (as_configured state) "yes"
         then run_client (cl_removeArgs client) (with_skill removeManagedSkill true)
         else with_skill removeManagedSkill false);
  match r with
  | Fail e => Ret (Step (cl_name client) agentFailed e)
  | Ok changed =>
      left ← (if negb found && not_empty (cl_configPath client) then exists_at (cl_configPath client) else Ret false);
      Ret (if left : bool then Step (cl_name client) agentFailed (cl_command client +:+ " CLI not found; MCP entry was not removed")
           else step_of (cl_name client) "Aegis SSH integration removed" "not configured" (Ok changed))
  end.

Definition cli_client : agentClient := Client (cl_name client) cli_detect cli_configure cli_unconfigure cli_inspect.
End cliAgent.

Section clients.
Context (home : string) (platform : platform).

Definition cursor_dir : string := join home ".cursor".
Definition cursor_path : string := join cursor_dir "mcp.json".

Definition cursorAgent : agentClient := {|
  ac_id := "cursor";
  ac_detect := exists_at cursor_dir;
  ac_configure binPath :=
    r ← upsertJSONServer cursor_dir cursor_path "mcpServers" binPath;
    Ret (step_of "cursor" "MCP server configured" "already configured" r);
  ac_unconfigure :=
    r ← removeJSONServer cursor_dir cursor_path "mcpServers"; Ret (step_of "cursor" "MCP server removed" "not configured" r);
  ac_inspect binPath :=
    r ← inspectJSONServer (pf_unmarshal_error platform) cursor_path "mcpServers" binPath;
    installed ← exists_at cursor_dir;
    Ret (match r with Ok (configured, path) => State "cursor" installed configured path | Fail e => State "cursor" installed "unknown" e end) |}.

Definition vscode_dir : string :=
  if pf_darwin platform then join (join (join (join home "Library") "Application Support") "Code") "User"
  else join (join (if str_is_empty (pf_config_home platform) then join home ".config" else pf_config_home platform) "Code") "User".
Definition vscode_path : string := join vscode_dir "mcp.json".

Definition vscode_inspect (binPath : string) : agent agentState :=
  installed ← trigger (LookPath "code");
  there ← exists_at vscode_path;
  let unknown := State "vscode" installed "unknown" "MCP: Open User Configuration" in
  if negb there then Ret unknown
  else
    r ← inspectJSONServer (pf_unmarshal_error platform) vscode_path "servers" binPath;
    Ret (match r with Ok (configured, path) => State "vscode" installed configured path | Fail _ => unknown end).

Definition vscode_payload (binPath : string) : string :=
  Json.print (JObj [("args", JArr [JStr "mcp"]); ("command", JStr binPath); ("name", JStr "aegis-ssh")]).

Definition vscodeAgent : agentClient := {|
  ac_id := "vscode";
  ac_detect := trigger (LookPath "code");
  ac_configure binPath :=
    found ← trigger (LookPath "code");
    if negb found then Ret (Step "vscode" agentFailed "code CLI not found")
    else
      state ← vscode_inspect binPath;
      if String.eqb (as_configured state) "yes" then Ret (Step "vscode" agentSkipped "already configured")
      else
        out ← trigger (RunClient "code" ["--add-mcp"; vscode_payload binPath]);
        Ret (step_of "vscode" "MCP server configured" ""
               (match co_error out with Some e => Fail (firstAgentError (co_stderr out) e) | None => Ok true end));
  ac_unconfigure :=
    there ← exists_at vscode_path;
    if negb there then Ret (Step "vscode" agentSkipped "open MCP: Open User Configuration to remove non-default profiles")
    else r ← removeJSONServer vscode_dir vscode_path "servers"; Ret (step_of "vscode" "MCP server removed" "not configured" r);
  ac_inspect := vscode_inspect |}.

Definition openclaw_root : string := join (join home ".openclaw") "skills".

Definition openClawAgent : agentClient := {|
  ac_id := "openclaw";
  ac_detect := exists_at (join home ".openclaw");
  ac_configure _ :=
    r ← materializeSkill openclaw_root;
    Ret (step_of "openclaw" "Skill installed; OpenClaw uses the CLI fallback" "Skill already installed" r);
  ac_unconfigure :=
    r ← removeManagedSkill openclaw_root; Ret (step_of "openclaw" "Skill removed" "managed Skill not installed" r);
  ac_inspect _ :=
    let target := join openclaw_root "aegis-ssh" in
    managed ← exists_at (join target ".aegis-managed");
    installed ← exists_at (join home ".openclaw");
    Ret (State "openclaw" installed (if managed : bool then "skill" else "no") target) |}.

Definition codex : cliAgent := CliAgent "codex" "codex" (join (join home ".codex") "config.toml") (join (join home ".codex") "skills")
  ["mcp"; "get"; "aegis-ssh"] ["mcp"; "add"; "aegis-ssh"; "--"] ["mcp"; "remove"; "aegis-ssh"].
Definition claude : cliAgent := CliAgent "claude" "claude" (join home ".claude.json") (join (join home ".claude") "skills")
  ["mcp"; "get"; "aegis-ssh"] ["mcp"; "add"; "-s"; "user"; "aegis-ssh"; "--"] ["mcp"; "remove"; "-s"; "user"; "aegis-ssh"].
Definition gemini : cliAgent := CliAgent "gemini" "gemini" (join (join home ".gemini") "settings.json") (join (join home ".gemini") "skills")
  ["mcp"; "list"] ["mcp"; "add"; "-s"; "user"; "aegis-ssh"] ["mcp"; "remove"; "-s"; "user"; "aegis-ssh"].

Definition agentClients : list agentClient :=
  [cli_client codex; cli_client claude; cli_client gemini; vscodeAgent; cursorAgent; openClawAgent].
End clients.

(** ** [agentCommand] *)

Inductive agent_error := AgentUsage | AgentStorage | ErrAgentConfig.

Definition yesNo (value : bool) : string := if value then "yes" else "no".

Section agentCommand.
Context (lang : language).

Definition agentOutcomeText (outcome : agentOutcome) : string :=
  match outcome with
  | agentConfigured => localize lang "configured" "已配置"
  | agentSkipped => localize lang "skipped" "已跳过"
  | agentFailed => localize lang "failed" "失败"
  end.

Definition translations : list (string * string) := [
  ("client not detected", "未检测到客户端");
  ("already configured", "已正确配置");
  ("not configured", "尚未配置");
  ("Aegis SSH integration installed", "Aegis SSH 集成已安装");
  ("Aegis SSH integration removed", "Aegis SSH 集成已移除");
  ("MCP server configured", "MCP 服务已配置");
  ("MCP server removed", "MCP 服务已移除");
  ("Skill installed; OpenClaw uses the CLI fallback", "Skill 已安装；OpenClaw 使用 CLI fallback");
  ("Skill already installed", "Skill 已安装");
  ("Skill removed", "Skill 已移除");
  ("managed Skill not installed", "未安装托管 Skill");
  ("open MCP: Open User Configuration to remove non-default profiles", "请使用 MCP: Open User Configuration 移除非默认 profile")].

Definition agentDetail (detail : string) : string :=
  match filter (λ t : string * string, fst t = detail) translations with
  | (_, translated) :: _ => localize lang detail translated
  | [] => detail
  end.

Definition tab : string := String "009"%char "".

Definition state_line (s : agentState) : string :=
  as_client s +:+ tab +:+ yesNo (as_installed s) +:+ tab +:+ as_configured s +:+ tab +:+ as_path s +:+ newline.
Definition step_line (s : agentStep) : string :=
  st_client s +:+ tab +:+ agentOutcomeText (st_outcome s) +:+ tab +:+ agentDetail (st_detail s) +:+ newline.

Fixpoint show_states (clients : list agentClient) (binPath : string) : agent unit :=
  match clients with
  | [] => Ret tt
  | c :: clients => s ← ac_inspect c binPath; _ ← trigger (AgentStdout (state_line s)); show_states clients binPath
  end.

(** The steps, one client after the other; whether one failed. *)
Fixpoint apply_steps (auto configure : bool) (clients : list agentClient) (binPath : string) : agent bool :=
  match clients with
  | [] => Ret false
  | c :: clients =>
      detected ← (if auto then ac_detect c else Ret true);
      step ← (if negb detected then Ret (Step (ac_id c) agentSkipped "client not detected")
              else if configure then ac_configure c binPath else ac_unconfigure c);
      _ ← trigger (AgentStdout (step_line step));
      failed ← apply_steps auto configure clients binPath;
      Ret (match st_outcome step with agentFailed => true | _ => failed end)
  end.

Definition agentCommand (args : list string) : agent (result agent_error unit) :=
  let action := default "status" (args !! 0%nat) in
  let target := default "auto" (args !! 1%nat) in
  if (2 <? length args)%nat || negb (bool_decide (action ∈ ["configure"; "unconfigure"; "status"])) then Ret (Fail AgentUsage)
  else
    home ← trigger UserHome;
    match home with
    | None => Ret (Fail AgentStorage)
    | Some home =>
        executable ← trigger ExecutablePath;
        match executable with
        | None => Ret (Fail AgentStorage)
        | Some binPath =>
            platform ← trigger Platform;
            let auto := String.eqb target "auto" in
            let selected := if auto then agentClients home platform else take 1 (filter (λ c, ac_id c = target) (agentClients home platform)) in
            match selected with
            | [] => Ret (Fail AgentUsage)
            | _ =>
                if String.eqb action "status" then
                  _ ← trigger (AgentStdout (localize lang ("CLIENT" +:+ tab +:+ "INSTALLED" +:+ tab +:+ "CONFIGURED" +:+ tab +:+ "PATH")
                                 ("客户端" +:+ tab +:+ "已安装" +:+ tab +:+ "已配置" +:+ tab +:+ "路径") +:+ newline));
                  _ ← show_states selected binPath;
                  Ret (Ok tt)
                else
                  failed ← apply_steps auto (String.eqb action "configure") selected binPath;
                  Ret (if failed : bool then Fail ErrAgentConfig else Ok tt)
            end
        end
    end.
End agentCommand.
