(* ===== verification/AgentSpec.v ===== *)
(** * What the integrations leave in the files

    The edits of [Agent] over a directory in which every call may fail: a
    configuration file is, at every moment, the old document or the new one with
    nothing but the entry of the program changed; a skill that the program did not
    install is never touched. *)

From S2P Require Import Prelude GoStr Utf8 Json Wire Prog Model AppConfig AppVault Agent.
Open Scope string_scope.
Open Scope list_scope.

#[export] Instance content_eq_dec : EqDecision content.
Proof. solve_decision. Defined.

(** ** Files *)

(** [EDenied]: what is there cannot be asked for. *)
Inductive entry := EFile (c : content) | ELink | ESpecial | EDenied.

#[export] Instance entry_eq_dec : EqDecision entry.
Proof. solve_decision. Defined.

Record disk := Disk { dk_nodes : gmap string entry; dk_temp : option content }.

Definition node_is (e : option entry) (n : node) : bool :=
  match e, n with
  | None, Missing | Some (EFile _), Regular | Some ELink, Symlink | Some ESpecial, Irregular | Some EDenied, LstatError _ => true
  | _, _ => false
  end.

(** Any call may fail, but [os.Lstat] fails always or never on a path; what a call
    that failed would have changed stays. *)
Definition if_ok (w : disk) (next : option disk) (e : option string) : option disk :=
  match e with None => next | Some _ => Some w end.

Definition disk_acts (X : Type) (w : disk) (e : agent_op X) : X → option disk :=
  match e in agent_op X return X → option disk with
  | Lstat p => λ n, if node_is (dk_nodes w !! p) n then Some w else None
  | ReadFile p => λ r,
      match r with Ok c => if decide (dk_nodes w !! p = Some (EFile c)) then Some w else None | Fail _ => Some w end
  | CreateTemp _ => if_ok w (Some (Disk (dk_nodes w) (Some (Junk ""))))
  | WriteTemp c => if_ok w (Some (Disk (dk_nodes w) (Some c)))
  | RenameTemp p => if_ok w
      (match dk_nodes w !! p with
       | Some (ESpecial | EDenied) => None
       | _ => c ← dk_temp w; Some (Disk (<[p := EFile c]> (dk_nodes w)) None)
       end)
  | RemoveTemp => λ _, Some (Disk (dk_nodes w) None)
  | _ => λ _, Some w
  end.

Abbreviation disk_keeps := (world_keeps disk_acts).
Abbreviation disk_halts := (world_halts disk_acts).

(** ** One file, written atomically *)

Section keeps.
Context {W : Type} {acts : ∀ X, W → agent_op X → X → option W} (I : W → Prop) (w : W).

(** A call that changes nothing. *)
Lemma keeps_quiet {X R} (e : agent_op X) (k : X → agent R) Q :
  (∀ x w', acts X w e x = Some w' → w' = w) → I w →
  (∀ x, acts X w e x = Some w → world_keeps acts I w (k x) Q) → world_keeps acts I w (trigger e ≫= k) Q.
Proof. intros He Hi Hk x w' Ha. assert (w' = w) as -> by by eapply He. split; [done|]. by apply Hk. Qed.

Lemma keeps_step {A} (p : agent_op (option string)) (k : attempt A) Q :
  (∀ e w', acts _ w p e = Some w' → I w' ∧ match e with Some e => Q w' (Fail e) | None => world_keeps acts I w' k Q end) →
  world_keeps acts I w (must p k) Q.
Proof. intros Hp e w' Ha. destruct (Hp e w' Ha) as [HI Hk]. split; [done|]. by destruct e. Qed.

Lemma keeps_must_quiet {A} (p : agent_op (option string)) (k : attempt A) Q :
  (∀ x w', acts _ w p x = Some w' → w' = w) → I w → (∀ e, Q w (Fail e)) → world_keeps acts I w k Q →
  world_keeps acts I w (must p k) Q.
Proof. intros Hp Hi Hf Hk. apply keeps_step. intros e w' ->%Hp. split; [done|]. by destruct e; [apply Hf|]. Qed.

Lemma keeps_try {A B} (p : attempt A) (k : A → attempt B) Q :
  world_keeps acts I w p (λ w' r, match r with Ok a => world_keeps acts I w' (k a) Q | Fail e => Q w' (Fail e) end) →
  world_keeps acts I w (try p k) Q.
Proof. intros Hp. apply keeps_bind. eapply keeps_mono; [|exact Hp]. by intros w' []. Qed.
End keeps.

Ltac quiet :=
  let Ha := fresh in intros ? ? Ha; simpl in Ha; unfold if_ok in Ha; repeat case_match; by simplify_eq.

(** Before the rename the file is as it was; after it, it is the new one. *)
Lemma keeps_fill_and_rename w0 w path c (I : disk → Prop) (Q : disk → result string unit → Prop) :
  dk_nodes w = dk_nodes w0 →
  (∀ w', dk_nodes w' = dk_nodes w0 ∨ dk_nodes w' = <[path := EFile c]> (dk_nodes w0) → I w') →
  (∀ w' e, dk_nodes w' = dk_nodes w0 → Q w' (Fail e)) →
  (∀ w', dk_nodes w' = <[path := EFile c]> (dk_nodes w0) → Q w' (Ok tt)) →
  disk_keeps I w (fill_and_rename path c) Q.
Proof.
  intros Hw HI Hf Hok. assert (∀ w', dk_nodes w' = dk_nodes w0 → I w') as HI' by auto.
  assert (∀ w2 (p : agent_op (option string)) (k : attempt unit), dk_nodes w2 = dk_nodes w0 →
    (∀ e w3, disk_acts _ w2 p e = Some w3 → dk_nodes w3 = dk_nodes w0 ∧ (e = None → disk_keeps I w3 k Q)) →
    disk_keeps I w2 (e ← trigger p; match e with Some e => _ ← trigger CloseTemp; Ret (Fail e) | None => k end) Q) as Hclosing.
  { intros w2 p k H2 Hp e w3 Ha. destruct (Hp e w3 Ha) as [H3 Hk]. split; [by auto|]. destruct e as [e|]; [|by apply Hk].
    change (disk_keeps I w3 (trigger CloseTemp ≫= λ _, Ret (Fail e)) Q). apply keeps_quiet; [quiet|by auto|]. intros ? _. by apply Hf. }
  apply Hclosing; [done|]. intros e w1 Ha. assert (w1 = w) as -> by (simpl in Ha; destruct e; by simplify_eq). split; [done|]. intros _.
  apply Hclosing; [done|]. clear e Ha. intros e w1 Ha. simpl in Ha. destruct e as [e|]; simpl in Ha; simplify_eq; (split; [done|]); [done|]. intros _.
  set (w2 := Disk _ (Some c)). apply Hclosing; [done|]. intros e w3 Ha. assert (w3 = w2) as -> by (simpl in Ha; destruct e; by simplify_eq).
  split; [done|]. intros _. apply keeps_must_quiet; [quiet|by auto|intros; by apply Hf|].
  apply keeps_step. clear e Ha. intros e w3 Ha. destruct e as [e|]; simpl in Ha; [injection Ha as <-; split; [by apply HI'|by apply Hf]|].
  assert (w3 = Disk (<[path := EFile c]> (dk_nodes w)) None) as -> by (repeat case_match; by simplify_eq).
  rewrite Hw. split; [apply HI; by right|by apply Hok].
Qed.

(** The file is the old one or the new one, whole. *)
Lemma keeps_writeAtomicFile w dir path c (I : disk → Prop) (Q : disk → result string unit → Prop) :
  (∀ w', dk_nodes w' = dk_nodes w ∨ dk_nodes w' = <[path := EFile c]> (dk_nodes w) → I w') →
  (∀ w' e, dk_nodes w' = dk_nodes w → Q w' (Fail e)) →
  (∀ w', dk_nodes w' = <[path := EFile c]> (dk_nodes w) → Q w' (Ok tt)) →
  disk_keeps I w (writeAtomicFile dir path c) Q.
Proof.
  intros HI Hf Hok. assert (∀ w', dk_nodes w' = dk_nodes w → I w') as HI' by auto.
  apply keeps_must_quiet; [quiet|by auto|by auto|]. apply keeps_quiet; [quiet|by auto|]. intros n _.
  assert (disk_keeps I w (must (CreateTemp dir) (deferred (fill_and_rename path c) RemoveTemp)) Q) as Hgo; [|destruct n; first [exact Hgo|by apply Hf]].
  apply keeps_step. intros e w1 Ha. simpl in Ha. destruct e as [e|]; simpl in Ha; simplify_eq; (split; [by apply HI'|]); [by apply Hf|].
  apply keeps_bind. refine (keeps_fill_and_rename w _ path c I _ _ HI _ _); [done|..].
  - intros w' e Hw' [] w2 [= <-]. split; [by apply HI'|by apply Hf].
  - intros w' Hw' [] w2 [= <-]. split; [apply HI; by right|by apply Hok].
Qed.

(** ** One file, with its backup *)

Definition backup (path : string) : string := path +:+ ".bak".

Lemma backup_ne path : backup path ≠ path.
Proof. intros H%(f_equal slen). unfold backup in H. rewrite slen_app in H. vm_compute (slen ".bak") in H. lia. Qed.

(** Other files are as they were, but the backup may be a copy of the file. *)
Definition beside (path : string) (w w' : disk) : Prop :=
  ∀ p, p ≠ path → dk_nodes w' !! p = dk_nodes w !! p ∨
                  (p = backup path ∧ (∃ c, dk_nodes w !! path = Some (EFile c)) ∧ dk_nodes w' !! p = dk_nodes w !! path).

Definition kept (path : string) (w w' : disk) : Prop := beside path w w' ∧ dk_nodes w' !! path = dk_nodes w !! path.

Definition is_file (e : entry) : Prop := ∃ c, e = EFile c.

Definition written (path : string) (c : content) (w w' : disk) : Prop :=
  beside path w w' ∧ dk_nodes w' !! path = Some (EFile c) ∧
  ∀ old, dk_nodes w !! path = Some old → is_file old ∧ dk_nodes w' !! backup path = Some old.

Lemma kept_refl path w : kept path w w.
Proof. split; [by left|done]. Qed.

Lemma kept_same path w w' : dk_nodes w' = dk_nodes w → kept path w w'.
Proof. intros H. split; [left|]; by rewrite H. Qed.

Lemma keeps_writeFileAtomicWithBackup w dir path c :
  disk_keeps (λ w', kept path w w' ∨ written path c w w') w (writeFileAtomicWithBackup dir path c)
    (λ w' r, match r with Ok _ => written path c w w' | Fail _ => kept path w w' end).
Proof.
  pose proof (kept_refl path w) as Hrefl.
  apply keeps_quiet; [quiet|by left|]. intros n Hn. destruct n; try by apply kept_refl.
  - assert (dk_nodes w !! path = None) as Hnone. { simpl in Hn. by destruct (dk_nodes w !! path) as [[]|]. }
    assert (∀ w', dk_nodes w' = <[path:=EFile c]> (dk_nodes w) → written path c w w') as Hw.
    { intros w' H. unfold written, beside. rewrite H, Hnone. split_and!; [|by simplify_map_eq|done]. intros p Hp. left. by simplify_map_eq. }
    apply keeps_writeAtomicFile; [|by intros; apply kept_same|done]. intros w' [H|H]; [left; by apply kept_same|right; by apply Hw].
  - apply keeps_try, keeps_quiet; [quiet|by left|]. intros [original|e] Hr; [|done].
    assert (dk_nodes w !! path = Some (EFile original)) as Hp. { simpl in Hr. by case_decide. } clear Hr Hn.
    pose proof (backup_ne path) as Hne.
    assert (∀ w', dk_nodes w' = <[backup path := EFile original]> (dk_nodes w) → kept path w w') as Hk.
    { intros w' H. unfold kept, beside. rewrite H. split; [|by simplify_map_eq]. intros p Hpp.
      destruct (decide (p = backup path)) as [->|]; [right; simplify_map_eq; by eauto|left; by simplify_map_eq]. }
    apply keeps_try. apply keeps_writeAtomicFile.
    + intros w' [H|H]; left; [by apply kept_same|by apply Hk].
    + intros w' e H. by apply kept_same.
    + intros w1 H1.
      assert (∀ w', dk_nodes w' = <[path:=EFile c]> (dk_nodes w1) → written path c w w') as Hw.
      { intros w' H. unfold written, beside. rewrite H, H1, Hp. split_and!; [|by simplify_map_eq|intros old [= <-]; split; [by eexists|by simplify_map_eq]].
        intros p Hpp. destruct (decide (p = backup path)) as [->|]; [right; simplify_map_eq; by eauto|left; by simplify_map_eq]. }
      apply keeps_writeAtomicFile; [|by intros w' e H; apply Hk; rewrite H|done].
      intros w' [H|H]; [left; apply Hk; by rewrite H|right; by apply Hw].
Qed.

(** ** The servers of a file *)

(** What the file has; nothing when there is none. *)
Definition root_at (w : disk) (path : string) : option raw_map :=
  match dk_nodes w !! path with None => Some ∅ | Some (EFile c) => root_of c | _ => None end.

Definition servers_at (w : disk) (path mapKey : string) : option (raw_map * raw_map) :=
  root ← root_at w path; servers ← servers_in root mapKey; Some (root, servers).

Lemma raw_object_dec root : dec_map dec_raw [raw_object root] = Some (Some root).
Proof. by apply (dec_map_one id dec_raw (Some root)). Qed.

Lemma root_of_print root : root_of (Document (raw_object root)) = Some root.
Proof. unfold root_of. by rewrite raw_object_dec. Qed.

Lemma servers_in_with root mapKey servers : servers_in (with_servers root mapKey servers) mapKey = Some servers.
Proof. unfold servers_in, with_servers. by rewrite lookup_insert_eq, raw_object_dec. Qed.

Definition there_at (w : disk) (path : string) : bool :=
  match dk_nodes w !! path with None | Some EDenied => false | _ => true end.

Lemma keeps_exists_at {B} I w path (k : bool → agent B) Q : I w →
  disk_keeps I w (k (there_at w path)) Q → disk_keeps I w (exists_at path ≫= k) Q.
Proof.
  intros Hi Hk. apply keeps_bind. apply keeps_quiet; [quiet|done|]. intros n Hn. simpl in Hn. unfold there_at in Hk.
  by destruct (dk_nodes w !! path) as [[]|], n.
Qed.

(** What was loaded; an empty document for a file that cannot be asked for. *)
Definition loaded (w : disk) (path mapKey : string) (root servers : raw_map) : Prop :=
  servers_at w path mapKey = Some (root, servers) ∨ (dk_nodes w !! path = Some EDenied ∧ servers = ∅).

Lemma keeps_loadJSONServers (I : disk → Prop) w path mapKey : I w →
  disk_keeps I w (loadJSONServers path mapKey) (λ w' r, w' = w ∧ match r with
    | Ok (root, servers) => loaded w path mapKey root servers
    | Fail e => servers_at w path mapKey = None ∨ e = "unable to parse agent config"
    end).
Proof.
  intros Hi. apply keeps_exists_at; [done|]. destruct (there_at w path) eqn:Hthere; simpl negb; cbv iota.
  - apply keeps_quiet; [quiet|done|]. intros n Hn. unfold loaded, servers_at, root_at. unfold there_at in Hthere.
    destruct n; simpl in Hn; destruct (dk_nodes w !! path) as [[]|] eqn:Hp; try done; try (split; [done|by left]).
    apply keeps_quiet; [quiet|done|]. intros [data|e] Hr; [|by split; [|right]].
    simpl in Hr. rewrite Hp in Hr. case_decide as Heq; [|done]. injection Heq as <-. clear Hr.
    destruct (root_of c) as [root|]; [|by split; [|right]]. simpl. destruct (servers_in root mapKey); (split; [done|by left]).
  - unfold servers_in. rewrite lookup_empty. split; [done|]. unfold there_at in Hthere. unfold loaded, servers_at, root_at.
    destruct (dk_nodes w !! path) as [[]|]; [done| | |by right|by left]; done.
Qed.

(** ** The edits *)

(** With the program in the map of servers, or out of it. *)
Definition change_server (binPath : option string) (dir path mapKey : string) : attempt bool :=
  match binPath with Some b => upsertJSONServer dir path mapKey b | None => removeJSONServer dir path mapKey end.

Definition configured_at (servers : raw_map) (binPath : string) : Prop :=
  ∃ raw server, servers !! server_name = Some raw ∧ parseJSONServer raw = Some server ∧ points_at binPath server = true.

Definition settled (binPath : option string) (servers : raw_map) : Prop :=
  match binPath with Some b => configured_at servers b | None => servers !! server_name = None end.

(** Nothing to do: the entry is right already, or there is none. *)
Definition settled_at (binPath : option string) (w : disk) (path mapKey : string) : Prop :=
  (∃ root servers, servers_at w path mapKey = Some (root, servers) ∧ settled binPath servers) ∨
  (binPath = None ∧ there_at w path = false).

Definition change_of (binPath : option string) (servers : raw_map) : raw_map :=
  match binPath with Some b => <[server_name := server_entry b]> servers | None => delete server_name servers end.

(** The file has the same document but for that entry, and its backup is the
    file that was there. *)
Definition entry_changed (binPath : option string) (path mapKey : string) (w w' : disk) : Prop :=
  ∃ root servers, servers_at w path mapKey = Some (root, servers) ∧ ¬ settled binPath servers ∧
    let servers' := change_of binPath servers in
    servers_at w' path mapKey = Some (with_servers root mapKey servers', servers') ∧
    ∃ c, written path c w w'.

Lemma keeps_saveJSONServers w dir path mapKey binPath root servers (c := Document (raw_object (with_servers root mapKey (change_of binPath servers)))) :
  loaded w path mapKey root servers → ¬ settled binPath servers →
  disk_keeps (λ w', kept path w w' ∨ entry_changed binPath path mapKey w w') w
    (saveJSONServers dir path mapKey root (change_of binPath servers))
    (λ w' r, match r with Ok _ => entry_changed binPath path mapKey w w' | Fail _ => kept path w w' end).
Proof.
  intros Hr Hs.
  assert (∀ w', written path c w w' → entry_changed binPath path mapKey w w') as Hw.
  { intros w' Hw. pose proof Hw as (_ & Hc & Hfile). destruct Hr as [Hr|[Hr _]]; [|destruct (Hfile _ Hr) as [[c' [=]] _]].
    exists root, servers. split; [done|]. split; [done|]. split; [|by eexists]. unfold servers_at, root_at. rewrite Hc. unfold c. rewrite root_of_print.
    simpl. by rewrite servers_in_with. }
  eapply world_keeps_mono; [| |apply keeps_writeFileAtomicWithBackup].
  - intros w' [H|H]; [by left|right; by apply Hw].
  - intros w' [|]; [apply Hw|done].
Qed.

(** What a change has done. *)
Definition edited (binPath : option string) (path mapKey : string) (w w' : disk) (r : result string bool) : Prop :=
  match r with
  | Ok true => entry_changed binPath path mapKey w w'
  | Ok false => dk_nodes w' = dk_nodes w ∧ settled_at binPath w path mapKey
  | Fail _ => kept path w w'
  end.

Lemma keeps_change_server w dir path mapKey binPath :
  disk_keeps (λ w', kept path w w' ∨ entry_changed binPath path mapKey w w') w (change_server binPath dir path mapKey) (edited binPath path mapKey w).
Proof.
  pose proof (kept_refl path w) as Hrefl.
  assert (∀ root servers, loaded w path mapKey root servers → ¬ settled binPath servers →
    disk_keeps (λ w', kept path w w' ∨ entry_changed binPath path mapKey w w') w
      (try (saveJSONServers dir path mapKey root (change_of binPath servers)) (λ _, Ret (Ok true))) (edited binPath path mapKey w)) as Hsave.
  { intros root servers Hr Hs. apply keeps_try. eapply keeps_mono; [|by apply keeps_saveJSONServers]. by intros w' []. }
  destruct binPath as [b|]; cbn [change_server].
  - apply keeps_try. eapply keeps_mono; [|apply keeps_loadJSONServers; by left]. intros w' [[root servers]|e] [-> Hr]; [|done].
    destruct (servers !! server_name) as [raw|] eqn:He; simpl; [destruct (parseJSONServer raw) as [server|] eqn:Hp; [destruct (points_at b server) eqn:Hb|]|].
    2-4: apply (Hsave root servers Hr); intros (raw' & server' & ? & ? & ?); simplify_eq; congruence.
    split; [done|]. left. destruct Hr as [Hr|[_ ->]]; [|by rewrite lookup_empty in He]. exists root, servers. split; [done|]. by exists raw, server.
  - apply keeps_exists_at; [by left|]. destruct (there_at w path) eqn:Hthere; simpl negb; cbv iota; [|by split; [|right]].
    apply keeps_try. eapply keeps_mono; [|apply keeps_loadJSONServers; by left]. intros w' [[root servers]|e] [-> Hr]; [|done].
    destruct (servers !! server_name) as [raw|] eqn:He.
    + apply (Hsave root servers Hr). cbn [settled]. by rewrite He.
    + split; [done|]. left. destruct Hr as [Hr|[Hr _]]; [|unfold there_at in Hthere; by rewrite Hr in Hthere]. by exists root, servers.
Qed.

(** What is found afterwards. *)
Lemma parse_server_entry b : valid_utf8 b = true → parseJSONServer (server_entry b) = Some (b, ["mcp"]).
Proof. intros Hb. unfold server_entry. rewrite json_sane_valid; [done|]. cbn. repeat constructor; done. Qed.

Lemma settled_change_of binPath servers : from_option valid_utf8 true binPath = true → settled binPath (change_of binPath servers).
Proof.
  destruct binPath as [b|]; intros Hb; cbn [settled change_of]; [|by simplify_map_eq].
  exists (server_entry b), (b, ["mcp"]). split; [by simplify_map_eq|]. split; [by apply parse_server_entry|].
  unfold points_at. cbn [fst snd]. by rewrite String.eqb_refl.
Qed.

Lemma edited_settled binPath path mapKey w w' b : from_option valid_utf8 true binPath = true →
  edited binPath path mapKey w w' (Ok b) → settled_at binPath w' path mapKey.
Proof.
  intros Hb. destruct b; cbn [edited].
  - intros (root & servers & _ & _ & Hw' & _). left. eexists _, _. split; [exact Hw'|]. by apply settled_change_of.
  - intros [Hw Hs]. unfold settled_at, servers_at, root_at, there_at in *. by rewrite Hw.
Qed.

Definition status_of (binPath : option string) : string * string :=
  match binPath with Some b => ("yes", b) | None => ("no", "-") end.

Lemma keeps_inspectJSONServer unmarshal_error w path mapKey binPath b :
  settled_at binPath w path mapKey → from_option (λ b', b' = b) True binPath →
  disk_keeps (λ _, True) w (inspectJSONServer unmarshal_error path mapKey b)
    (λ _ r, r = Ok (status_of binPath) ∨ r = Fail "unable to parse agent config").
Proof.
  intros Hs Hb. apply keeps_exists_at; [done|]. destruct (there_at w path) eqn:Hthere; simpl negb; cbv iota.
  - destruct Hs as [(root & servers & Hs & Hset)|[_ Hs]]; [|congruence].
    apply keeps_try. eapply keeps_mono; [|by apply keeps_loadJSONServers]. intros w' [[root' servers']|e] [-> Hr].
    + assert (servers' = servers) as ->.
      { destruct Hr as [Hr|[Hr _]]; [rewrite Hs in Hr; by injection Hr|unfold there_at in Hthere; by rewrite Hr in Hthere]. }
      destruct binPath as [b'|]; cbn [settled] in Hset; [|rewrite Hset; by left]. simpl in Hb. subst b'.
      destruct Hset as (raw & server & -> & -> & Hp). rewrite Hp. unfold points_at in Hp. apply andb_true_iff in Hp as [Hp _].
      apply String.eqb_eq in Hp as <-. by left.
    + right. destruct Hr as [Hr| ->]; [|done]. by rewrite Hs in Hr.
  - left. destruct Hs as [(root & servers & Hs & Hset)|[-> _]]; [|done].
    unfold there_at in Hthere. unfold servers_at, root_at in Hs.
    destruct (dk_nodes w !! path) as [[]|]; try done. unfold servers_in in Hs. simpl in Hs. rewrite lookup_empty in Hs. injection Hs as <- <-.
    destruct binPath as [b'|]; [|done]. destruct Hset as (raw & server & H & _). by rewrite lookup_empty in H.
Qed.

(** C10: Configuring a program that keeps its servers in a JSON file, or undoing
    it: wherever it stops, other files are as they were, but for a copy of the
    file beside it, and the file is the old document or the one in which the entry
    of this program, and nothing else, has changed.  It reports a change exactly
    when the file has changed, and then a copy of the old file is kept; an error
    leaves the file as it was.  The status shown afterwards is the one asked for. *)
Theorem agent_edit_changes_one_entry w dir path mapKey binPath :
  (∀ w', world_stops disk_acts w (change_server binPath dir path mapKey) w' →
     kept path w w' ∨ entry_changed binPath path mapKey w w') ∧
  (∀ w' r, world_halts disk_acts w (change_server binPath dir path mapKey) w' r →
     edited binPath path mapKey w w' r ∧
     ∀ unmarshal_error b changed w2 r2, r = Ok changed → from_option (λ b', b' = b ∧ valid_utf8 b = true) True binPath →
       world_halts disk_acts w' (inspectJSONServer unmarshal_error path mapKey b) w2 r2 →
       r2 = Ok (status_of binPath) ∨ r2 = Fail "unable to parse agent config").
Proof.
  pose proof (keeps_change_server w dir path mapKey binPath) as Hk. split.
  - intros w'. refine (keeps_stops _ _ _ _ _ _ Hk). left. apply kept_refl.
  - intros w' r Hr. pose proof (keeps_halts _ _ _ _ _ _ Hk Hr) as He. split; [exact He|].
    intros unmarshal_error b changed w2 r2 -> Hb. refine (keeps_halts _ _ _ (λ _ r, r = _ ∨ r = _) _ _ _). apply keeps_inspectJSONServer.
    + eapply edited_settled; [|exact He]. by destruct binPath as [b'|]; [destruct Hb as [-> ?]|].
    + by destruct binPath as [b'|]; [destruct Hb|].
Qed.

Definition obliging X (w : disk) (e : agent_op X) : X :=
  match e in agent_op X return X with
  | Lstat p | LstatDir p =>
      match dk_nodes w !! p with
      | None => Missing | Some (EFile _) => Regular | Some ELink => Symlink | Some ESpecial => Irregular | Some EDenied => LstatError ""
      end
  | ReadFile p => match dk_nodes w !! p with Some (EFile c) => Ok c | _ => Fail "" end
  | RemoveTemp | AgentStdout _ | RemoveAllTemp => tt
  | LookPath _ => true
  | RunClient _ _ => Output "" "" None
  | Platform => Build_platform false "" (λ _, "")
  | UserHome => Some "/home" | ExecutablePath => Some "/bin/aegis-ssh"
  | _ => None
  end.

Definition cursor_disk : disk :=
  Disk {["/home/.cursor/mcp.json" := EFile (Document (JObj [("mcpServers", JObj [("other", JObj [("command", JStr "x")])]); ("theme", JNum "1")]))]} None.

Lemma agent_edit_witness :
  ∃ w', edited (Some "/bin/aegis-ssh") "/home/.cursor/mcp.json" "mcpServers" cursor_disk w' (Ok true).
Proof.
  eexists. refine (proj1 (proj2 (agent_edit_changes_one_entry cursor_disk "/home/.cursor" "/home/.cursor/mcp.json" "mcpServers"
    (Some "/bin/aegis-ssh")) _ (Ok true) _)).
  apply (run_all_halts (reply := obliging)). vm_compute. reflexivity.
Defined.

(** ** Asking for the status *)

(** Calls that only look: of another program, what its entry is. *)
Definition looking {X} (e : agent_op X) : bool :=
  match e with
  | Lstat _ | LstatDir _ | ReadFile _ | ReadMarker _ | LookPath _ | AgentStdout _ | UserHome | Platform | ExecutablePath => true
  | RunClient command args =>
      existsb (λ c, String.eqb command (cl_command c) && bool_decide (args = cl_inspectArgs c)) [codex ""; claude ""; gemini ""]
  | _ => false
  end.

Abbreviation looks := (only (@looking)).

Lemma looks_call {X} (e : agent_op X) : looking e = true → looks (trigger e).
Proof. intros He. by split. Qed.

Lemma looks_inspectJSONServer unmarshal_error path mapKey b : looks (inspectJSONServer unmarshal_error path mapKey b).
Proof.
  unfold inspectJSONServer, try, loadJSONServers, exists_at.
  repeat first [done | apply looks_call; reflexivity | apply only_bind; [|intros ?] | progress cbv beta zeta | case_match].
Qed.

Ltac look := repeat first
  [ done | apply looks_inspectJSONServer | apply looks_call; first [eassumption|reflexivity] | apply only_bind; [|intros ?] |
    progress cbv beta zeta | case_match ].

Lemma looks_cli_inspect c b : c ∈ [codex ""; claude ""; gemini ""] ∨ (∃ home, c ∈ [codex home; claude home; gemini home]) →
  looks (cli_inspect c b).
Proof.
  intros Hc. unfold cli_inspect, cli_detect, exists_at.
  assert (looking (RunClient (cl_command c) (cl_inspectArgs c)) = true) as Hr.
  { destruct Hc as [Hc|[home Hc]]; rewrite !elem_of_cons in Hc; by destruct Hc as [->|[->|[->|?%elem_of_nil]]]. }
  look.
Qed.

Lemma looks_show_states clients b : Forall (λ c, ∀ b, looks (ac_inspect c b)) clients → looks (show_states clients b).
Proof.
  induction 1 as [|c clients Hc _ IH]; [done|]. apply only_bind; [apply Hc|]. intros s. apply only_bind; [by apply looks_call|]. by intros _.
Qed.

Lemma clients_look home platform : Forall (λ c, ∀ b, looks (ac_inspect c b)) (agentClients home platform).
Proof.
  unfold agentClients. repeat apply Forall_cons_2; [..|by apply Forall_nil_2]; intros b.
  1-3: apply looks_cli_inspect; right; exists home; rewrite !elem_of_cons; auto.
  all: cbn [ac_inspect vscodeAgent cursorAgent openClawAgent]; unfold vscode_inspect, exists_at; look.
Qed.

(** Asking for the status changes nothing. *)
Lemma status_only_looks lang target : looks (agentCommand lang ("status" :: target)).
Proof.
  unfold agentCommand. case_match; [done|]. apply only_bind; [by apply looks_call|]. intros [home|]; [|done].
  apply only_bind; [by apply looks_call|]. intros [b|]; [|done]. apply only_bind; [by apply looks_call|]. intros platform. cbv zeta.
  pose proof (clients_look home platform) as Hl.
  assert (∀ selected, Forall (λ c, ∀ b, looks (ac_inspect c b)) selected → looks (_ ← show_states selected b; Ret (Ok (A := unit) (Err := agent_error) tt))) as Hs.
  { intros selected Hsel. apply only_bind; [by apply looks_show_states|done]. }
  match goal with |- looks (match ?l with _ => _ end) => assert (Forall (λ c, ∀ b, looks (ac_inspect c b)) l) as Hsel end.
  { case_match; [done|]. apply Forall_take. apply Forall_forall. intros c [_ Hc]%list_elem_of_filter. by eapply Forall_forall in Hl. }
  destruct (if String.eqb _ _ then _ else _) as [|c selected]; [done|].
  apply only_bind; [by apply looks_call|]. intros _. by apply Hs.
Qed.
