(* ===== verification/AgentSkill.v ===== *)
(** * The skill beside another program

    [materializeSkill] and [removeManagedSkill] of [Agent] over a tree of
    directories in which every call may fail: what the program did not install it
    never touches, and until a new skill is in place the old one is there, under
    its name or its backup's. *)

From S2P Require Import Prelude GoStr Utf8 Json Wire Prog Model AppConfig AppVault Agent AgentSpec.
Open Scope string_scope.
Open Scope list_scope.

(** ** Directories *)

Inductive skill_marker := NoMarker | Marker (version : string) | OddMarker.

(** A directory; what is left of one by a removal that failed, of which nothing
    is known; anything else. *)
Inductive place := Skill (m : skill_marker) (files : string) | Remains | Link | NoDirectory.

#[export] Instance marker_eq_dec : EqDecision skill_marker.
Proof. solve_decision. Defined.
#[export] Instance place_eq_dec : EqDecision place.
Proof. solve_decision. Defined.

Record skills := Skills { sk_places : gmap string place; sk_temp : skill_marker * string }.

Definition marker_path (dir : string) : string := join dir ".aegis-managed".

(** What [os.Lstat] may find; [as_dir] is the node of a directory.  In [exists],
    which takes a failure of [os.Lstat] for a missing file, it does not fail. *)
Definition place_is (as_dir : node) (p : option place) (n : node) : bool :=
  match p, n with
  | None, Missing | Some Link, Symlink => true
  | Some (Skill _ _ | Remains), n => match as_dir, n with Regular, Regular | Irregular, Irregular => true | _, _ => false end
  | Some NoDirectory, n => match as_dir, n with Irregular, Regular | _, Irregular => true | _, _ => false end
  | _, _ => false
  end.

Definition marker_is (p : option place) (n : node) : bool :=
  match p, n with
  | (None | Some (Skill NoMarker _)), Missing | Some (Skill (Marker _) _), Regular
  | Some (Skill OddMarker _), (Symlink | Irregular) | Some Remains, (Missing | Regular)
  | Some (Link | NoDirectory), _ | _, LstatError _ => true
  | _, _ => false
  end.

Section skills.
(** The files of the skill that the program carries, and the directory of the
    skills of another program. *)
Context (embedded root : string).

Definition target : string := join root "aegis-ssh".
Definition old : string := target +:+ ".old".

Definition when (b : bool) (w : skills) : option skills := if b then Some w else None.

Definition skill_acts (X : Type) (w : skills) (e : agent_op X) : X → option skills :=
  match e in agent_op X return X → option skills with
  | Lstat p => λ n, when (if decide (p = marker_path target) then marker_is (sk_places w !! target) n
                          else place_is Irregular (sk_places w !! p) n) w
  | LstatDir p => λ n, when (match n with LstatError _ => true | _ => place_is Regular (sk_places w !! p) n end) w
  | ReadMarker p => λ v, when (match v, sk_places w !! p with
      | Some v, Some (Skill m _) => bool_decide (m = Marker v) | Some _, None => false | _, _ => true end) w
  | MkdirTemp _ => λ e, Some (match e with None => Skills (sk_places w) (NoMarker, "") | Some _ => w end)
  | CopySkill => λ e, Some (match e with None => Skills (sk_places w) (fst (sk_temp w), embedded) | Some _ => w end)
  | WriteMarker v => λ e, Some (match e with None => Skills (sk_places w) (Marker (v +:+ newline), snd (sk_temp w)) | Some _ => w end)
  | RenameSkill from to => λ e,
      match e, sk_places w !! from, sk_places w !! to with
      | Some _, _, _ => Some w
      | None, Some p, None => Some (Skills (<[to := p]> (delete from (sk_places w))) (sk_temp w))
      | None, _, _ => None
      end
  | PublishSkill to => λ e,
      match e, sk_places w !! to with
      | Some _, _ => Some w
      | None, None => Some (Skills (<[to := Skill (fst (sk_temp w)) (snd (sk_temp w))]> (sk_places w)) (sk_temp w))
      | None, _ => None
      end
  | RemoveAll p => λ e, Some (Skills (match e with None => delete p (sk_places w) | Some _ => alter (λ _, Remains) p (sk_places w) end) (sk_temp w))
  | _ => λ _, Some w
  end.

Abbreviation skill_keeps := (world_keeps skill_acts).

(** ** What a change may do *)

Definition change_skill (install : bool) : attempt bool :=
  if install then materializeSkill root else removeManagedSkill root.

(** Installed by the program. *)
Definition ours (p : option place) : bool :=
  match p with Some (Skill (Marker _) _ | Remains) => true | _ => false end.

Definition intact (p : option place) : bool := match p with Some (Skill (Marker _) _) => true | _ => false end.

Definition current (p : option place) : bool :=
  match p with Some (Skill (Marker v) _) => bool_decide (trim_space v = Version) | Some Remains => true | _ => false end.

Definition new_skill : place := Skill (Marker (Version +:+ newline)) embedded.

Definition others_kept (w w' : skills) : Prop := ∀ p, p ≠ target → p ≠ old → sk_places w' !! p = sk_places w !! p.

(** Until the new skill is in place, the one that was there is there. *)
Definition upgrading (w w' : skills) : Prop :=
  sk_places w !! old = None ∧
  ((sk_places w' !! target = None ∧ sk_places w' !! old = sk_places w !! target) ∨
   (sk_places w' !! target = Some new_skill ∧
    (sk_places w' !! old = sk_places w !! target ∨ sk_places w' !! old = None ∨ sk_places w' !! old = Some Remains))).

Definition removing (w w' : skills) : Prop :=
  sk_places w' !! old = sk_places w !! old ∧ (sk_places w' !! target = None ∨ sk_places w' !! target = Some Remains).

(** What is not ours is left alone. *)
Definition skill_changed (install : bool) (w w' : skills) : Prop :=
  sk_places w' = sk_places w ∨
  ((if install then ours (sk_places w !! target) = true ∨ sk_places w !! target = None else ours (sk_places w !! target) = true) ∧
   others_kept w w' ∧ if install then upgrading w w' else removing w w').

Definition skill_result (install : bool) (w w' : skills) (r : result string bool) : Prop :=
  skill_changed install w w' ∧
  match r with
  | Ok true => sk_places w' !! target = if install then Some new_skill else None
  | Ok false => sk_places w' = sk_places w ∧ if install then current (sk_places w !! target) = true else intact (sk_places w !! target) = false
  | Fail _ => True
  end.

(** ** Proofs *)

Ltac looked :=
  let Ha := fresh in intros ? ? Ha; cbn [skill_acts] in Ha; unfold when in Ha;
  match type of Ha with (if ?b then _ else _) = _ => destruct b end; by simplify_eq.

Lemma old_ne : old ≠ target.
Proof. intros H%(f_equal slen). unfold old in H. rewrite slen_app in H. vm_compute (slen ".old") in H. lia. Qed.

Lemma marker_ne d p : (slen p < slen d + 15)%Z → p ≠ marker_path d.
Proof.
  intros H ->. unfold marker_path, join in H. rewrite !slen_app in H. vm_compute (slen "/") in H. vm_compute (slen ".aegis-managed") in H. lia.
Qed.

Lemma target_ne : target ≠ marker_path target.
Proof. apply marker_ne. lia. Qed.

Lemma old_marker_ne : old ≠ marker_path target.
Proof. apply marker_ne. unfold old. rewrite slen_app. vm_compute (slen ".old"). lia. Qed.

Lemma keeps_there {B} I w p (k : bool → agent B) Q : p ≠ marker_path target → I w →
  skill_keeps I w (k (bool_decide (is_Some (sk_places w !! p)))) Q → skill_keeps I w (exists_at p ≫= k) Q.
Proof.
  intros Hp Hi Hk. apply keeps_bind. apply keeps_quiet; [looked|done|]. intros n Hn. simpl in Hn. rewrite decide_False in Hn by done.
  destruct (sk_places w !! p) as [[]|] eqn:Hw; rewrite ?Hw in *; by destruct n.
Qed.

Lemma keeps_isManagedSkill (I : skills → Prop) w : I w →
  skill_keeps I w (isManagedSkill target) (λ w' r, w' = w ∧ match r with
    | Ok true => ours (sk_places w !! target) = true
    | Ok false => intact (sk_places w !! target) = false
    | Fail _ => True end).
Proof.
  intros Hi. apply keeps_quiet; [looked|done|]. intros n Hn. simpl in Hn.
  destruct n; try (by split); [split; [done|]; by destruct (sk_places w !! target) as [[[]| | |]|]|].
  apply keeps_quiet; [looked|done|]. intros n Hm. simpl in Hm. rewrite decide_True in Hm by done.
  destruct (sk_places w !! target) as [[[]| | |]|], n; done.
Qed.

(** The old skill is away, the new one not in place. *)
Record away (w0 w : skills) : Prop := {
  aw_free : sk_places w0 !! old = None;
  aw_ours : ours (sk_places w0 !! target) = true ∨ sk_places w0 !! target = None;
  aw_others : others_kept w0 w;
  aw_target : sk_places w !! target = None;
  aw_old : sk_places w !! old = sk_places w0 !! target;
  aw_temp : sk_temp w = (Marker (Version +:+ newline), embedded) }.

Lemma away_changed w0 w : away w0 w → skill_changed true w0 w.
Proof. intros []. right. split_and!; [done..|]. split; [done|]. by left. Qed.

Lemma keeps_rename (I : skills → Prop) w from to p {R} (k : option string → agent R) Q :
  sk_places w !! from = Some p → sk_places w !! to = None → I w → (∀ e, skill_keeps I w (k (Some e)) Q) →
  (let w' := Skills (<[to := p]> (delete from (sk_places w))) (sk_temp w) in I w' ∧ skill_keeps I w' (k None) Q) →
  skill_keeps I w (trigger (RenameSkill from to) ≫= k) Q.
Proof.
  intros Hf Ht Hi Hfail Hok e w' Ha. cbn [skill_acts] in Ha. rewrite Hf, Ht in Ha. destruct e as [e|]; injection Ha as <-; [|exact Hok].
  split; [done|apply Hfail].
Qed.

Lemma keeps_publish_away w0 w : away w0 w →
  skill_keeps (skill_changed true w0) w
    (published ← trigger (PublishSkill target);
     match (published : option string) with
     | Some e =>
         kept ← exists_at old;
         _ ← (if kept : bool then trigger (RenameSkill old target) else Ret None);
         Ret (Fail e)
     | None => _ ← trigger (RemoveAll old); Ret (Ok true)
     end) (skill_result true w0).
Proof.
  intros Haw. pose proof (away_changed _ _ Haw) as Hch. pose proof old_ne as Hne. destruct Haw as [Hfree Hours Hoth Ht Ho Htemp].
  intros e w1 Ha. cbn [skill_acts] in Ha. rewrite Ht in Ha. destruct e as [e|]; injection Ha as <-.
  - split; [done|]. refine (keeps_there _ _ _ _ _ old_marker_ne Hch _). case_bool_decide as Hk; [|by split].
    destruct Hk as [p Hp]. refine (keeps_rename _ _ _ _ _ _ _ Hp Ht Hch _ _); [by split|].
    assert (∀ w', sk_places w' = <[target:=p]> (delete old (sk_places w)) → skill_changed true w0 w') as H.
    { intros w' Hw'. left. rewrite Hw'. apply map_eq. intros q. destruct (decide (q = target)) as [->|]; [simplify_map_eq; congruence|].
      destruct (decide (q = old)) as [->|]; [by simplify_map_eq|]. rewrite lookup_insert_ne, lookup_delete_ne by done. by apply Hoth. }
    split; [by apply H|]. split; [by apply H|done].
  - rewrite Htemp. cbn [fst snd]. set (w2 := Skills _ _).
    assert (∀ o, (o = sk_places w0 !! target ∨ o = None ∨ o = Some Remains) → ∀ w', sk_places w' !! target = Some new_skill →
      sk_places w' !! old = o → others_kept w0 w' → skill_changed true w0 w') as H.
    { intros o Hor w' Hn Hold Hk. right. split_and!; [done..|]. split; [done|]. right. by rewrite Hold. }
    assert (others_kept w0 w2) as H2. { intros p Hp Hp'. simpl. rewrite lookup_insert_ne by done. by apply Hoth. }
    split; [apply (H (sk_places w0 !! target)); [by left|by simpl; simplify_map_eq| |done]; simpl; by rewrite lookup_insert_ne|].
    intros e w3 Ha. cbn [skill_acts] in Ha. injection Ha as <-.
    set (w3 := Skills _ _).
    assert (sk_places w3 !! target = Some new_skill ∧ skill_changed true w0 w3) as [H3 Hc]; [|by split; [|split]].
    split; [by destruct e; simpl; simplify_map_eq|]. apply (H (sk_places w3 !! old)); [|by destruct e; simpl; simplify_map_eq|done|].
    + destruct e as [e|]; simpl; [|right; left; by simplify_map_eq]. rewrite lookup_alter_eq, lookup_insert_ne by done. rewrite Ho.
      destruct (sk_places w0 !! target); simpl; auto.
    + intros p Hp Hp'. rewrite <- (H2 p Hp Hp'). destruct e; simpl; by simplify_map_eq.
Qed.

Lemma keeps_publish_skill w0 w : sk_places w = sk_places w0 → sk_temp w = (Marker (Version +:+ newline), embedded) →
  ours (sk_places w !! target) = true ∨ sk_places w !! target = None →
  skill_keeps (skill_changed true w0) w (publish_skill target) (skill_result true w0).
Proof.
  intros Hw Ht Ho. rewrite Hw in Ho. pose proof old_ne as Hne.
  assert (skill_changed true w0 w) as Hch by by left.
  apply keeps_there; [apply old_marker_ne|done|]. fold old. case_bool_decide as Hold; [by split|].
  apply eq_None_not_Some in Hold. apply keeps_there; [apply target_ne|done|]. case_bool_decide as Htg.
  - destruct Htg as [p Hp]. refine (keeps_rename _ _ _ _ _ _ _ Hp Hold Hch _ _); [by split|]. cbv zeta. set (w1 := Skills _ _).
    assert (away w0 w1) as Haw.
    { split; simpl; [by rewrite <- Hw|done| |by simplify_map_eq|rewrite <- Hw; by simplify_map_eq|done].
      intros q Hq Hq'. simpl. rewrite lookup_insert_ne, lookup_delete_ne, Hw by done. done. }
    split; [by apply away_changed|]. by apply keeps_publish_away.
  - apply eq_None_not_Some in Htg. apply (keeps_publish_away w0 w). split; [by rewrite <- Hw|done| |done| |done].
    + intros q _ _. by rewrite Hw.
    + by rewrite <- Hw, Hold, Htg.
Qed.

Lemma keeps_must_skill {A} (I : skills → Prop) w e w1 (k : attempt A) Q :
  (∀ x w', skill_acts _ w e x = Some w' → w' = match x with None => w1 | Some _ => w end) →
  I w → (∀ e, Q w (Fail e)) → I w1 → skill_keeps I w1 k Q → skill_keeps I w (must e k) Q.
Proof. intros He Hw Hf Hw1 Hk. apply keeps_step. intros x w' ->%He. by destruct x; split; try done. Qed.

Lemma keeps_install_skill w :
  ours (sk_places w !! target) = true ∨ sk_places w !! target = None →
  skill_keeps (skill_changed true w) w (install_skill root target) (skill_result true w).
Proof.
  intros Ho. assert (∀ w', sk_places w' = sk_places w → skill_changed true w w') as Hs by by left.
  assert (∀ w' e, sk_places w' = sk_places w → skill_result true w w' (Fail e)) as Hf by (split; auto).
  assert (∀ w' r, skill_result true w w' r → skill_keeps (skill_changed true w) w' (_ ← trigger RemoveAllTemp; Ret r) (skill_result true w)) as Hd.
  { intros w' r Hr [] w2 [= <-]. split; [by destruct Hr|done]. }
  unfold install_skill.
  apply (keeps_must_skill _ w _ w); [intros [e|] w' [= <-]; done|by auto..|].
  apply (keeps_must_skill _ w _ (Skills (sk_places w) (NoMarker, ""))); [intros [e|] w' [= <-]; done|by auto..|].
  apply keeps_bind. eapply keeps_mono; [exact Hd|].
  eapply (keeps_must_skill _ _ _ (Skills (sk_places w) (NoMarker, embedded))); [intros [e|] w' [= <-]; done|by auto..|].
  eapply (keeps_must_skill _ _ _ (Skills (sk_places w) (Marker (Version +:+ newline), embedded))); [intros [e|] w' [= <-]; done|by auto..|].
  by apply keeps_publish_skill.
Qed.

Lemma keeps_materializeSkill w :
  skill_keeps (skill_changed true w) w (materializeSkill root) (skill_result true w).
Proof.
  assert (skill_changed true w w) as Hs by by left. unfold materializeSkill. fold target.
  apply keeps_try. eapply keeps_mono; [|by apply keeps_isManagedSkill]. intros w' [managed|e] [-> Hm]; [|by split].
  apply keeps_there; [apply target_ne|done|]. destruct managed; cbn [negb]; rewrite ?andb_false_r, ?andb_true_r.
  - apply keeps_bind. apply keeps_quiet; [looked|done|]. intros v Hv. cbn [skill_acts] in Hv. case_bool_decide as Hver; cbv iota; [|apply keeps_install_skill; by left].
    split; [done|]. split; [done|]. destruct v as [v|]; [|done]. injection Hver as Hver.
    destruct (sk_places w !! target) as [[m f| | |]|]; try done. unfold when in Hv. case_bool_decide as Hmv; [|done]. subst m. simpl.
    by apply bool_decide_eq_true.
  - case_bool_decide as Ht; [by split|]. apply keeps_install_skill. right. by apply eq_None_not_Some.
Qed.

Lemma keeps_removeManagedSkill w :
  skill_keeps (skill_changed false w) w (removeManagedSkill root) (skill_result false w).
Proof.
  assert (skill_changed false w w) as Hs by by left. unfold removeManagedSkill. fold target.
  apply keeps_there; [apply target_ne|done|]. case_bool_decide as Ht; cbn [negb].
  2: { apply eq_None_not_Some in Ht. split; [done|]. split; [done|]. by rewrite Ht. }
  apply keeps_try. eapply keeps_mono; [|by apply keeps_isManagedSkill]. intros w' [managed|e] [-> Hm]; [|by split].
  destruct managed; cbn [negb]; [|by split]. pose proof old_ne as Hne. intros e w1 Ha. cbn [skill_acts] in Ha. injection Ha as <-. set (w1 := Skills _ _).
  assert (skill_changed false w w1) as Hc.
  { right. split_and!; [done| |split].
    - intros p Hp _. destruct e; simpl; by simplify_map_eq.
    - destruct e; simpl; by simplify_map_eq.
    - destruct Ht as [p Hp]. destruct e; simpl; simplify_map_eq; [right|left]; done. }
  split; [done|]. destruct e; (split; [done|]); [done|]. simpl. by simplify_map_eq.
Qed.

(** A skill that the program did not install is never touched, wherever installing
    or removing one stops.  While a skill is upgraded, the one that was there is
    there, under its name or its backup's, until the new one is in place; success
    means the new skill, whole, or no skill. *)
Theorem skill_of_others_kept install w :
  (∀ w', world_stops skill_acts w (change_skill install) w' → skill_changed install w w') ∧
  (∀ w' r, world_halts skill_acts w (change_skill install) w' r → skill_result install w w' r).
Proof.
  assert (skill_keeps (skill_changed install w) w (change_skill install) (skill_result install w)) as Hk
    by (destruct install; [apply keeps_materializeSkill|apply keeps_removeManagedSkill]).
  split; [intros w'; refine (keeps_stops _ _ _ _ _ _ Hk); by left|intros w' r; exact (keeps_halts _ _ _ _ _ _ Hk)].
Qed.

(** After an upgrade that stopped between its two renames, no later one gets
    through, and the skill is not there. *)
Theorem interrupted_upgrade_is_stuck w w3 r :
  sk_places w !! target = None → is_Some (sk_places w !! old) →
  world_halts skill_acts w (materializeSkill root) w3 r → (∃ e, r = Fail e) ∧ sk_places w3 = sk_places w.
Proof.
  intros Ht Hold. refine (keeps_halts (λ _, True) _ _ (λ w' r, (∃ e, r = Fail e) ∧ sk_places w' = sk_places w) _ _ _).
  unfold materializeSkill. fold target. apply keeps_try. eapply keeps_mono; [|by apply keeps_isManagedSkill].
  intros w1 [managed|e] [-> Hm]; [|by split; [eexists|]]. destruct managed; [by rewrite Ht in Hm|].
  apply keeps_there; [apply target_ne|done|]. rewrite bool_decide_false by (rewrite Ht; by intros []). cbn [negb andb]. apply keeps_bind.
  set (Q := λ w' r, (∃ e, r = Fail e) ∧ sk_places w' = sk_places w).
  assert (∀ w' e, sk_places w' = sk_places w → Q w' (Fail e)) as Hf by (intros; split; [by eexists|done]).
  change (skill_keeps (λ _, True) w (install_skill root target) Q). unfold install_skill.
  apply (keeps_must_skill _ w _ w); [intros [e|] w' [= <-]; done|first [done|by auto]..|].
  apply (keeps_must_skill _ w _ (Skills (sk_places w) (NoMarker, ""))); [intros [e|] w' [= <-]; done|first [done|by auto]..|].
  apply keeps_bind. apply (keeps_mono _ _ _ _ Q); [by intros w' r' Hr [] w2 [= <-]|].
  eapply (keeps_must_skill _ _ _ (Skills (sk_places w) (NoMarker, embedded))); [intros [e|] w' [= <-]; done|first [done|by auto]..|].
  eapply (keeps_must_skill _ _ _ (Skills (sk_places w) (Marker (Version +:+ newline), embedded))); [intros [e|] w' [= <-]; done|first [done|by auto]..|].
  apply keeps_there; [apply old_marker_ne|done|]. fold old. rewrite bool_decide_true by done. by apply Hf.
Qed.
End skills.

(** ** Of one program *)

Definition skill_reply X (w : skills) (e : agent_op X) : X :=
  match e in agent_op X return X with
  | Lstat p => if has_suffix p ".aegis-managed" then Regular else match sk_places w !! p with Some _ => Irregular | None => Missing end
  | LstatDir p => match sk_places w !! p with Some _ => Regular | None => Missing end
  | ReadMarker p => match sk_places w !! p with Some (Skill (Marker v) _) => Some v | _ => None end
  | ReadFile _ => Fail ""
  | RemoveTemp | AgentStdout _ | RemoveAllTemp => tt
  | LookPath _ => true
  | RunClient _ _ => Output "" "" None
  | Platform => Build_platform false "" (λ _, "")
  | UserHome | ExecutablePath => Some "/home"
  | _ => None
  end.

Definition claude_skills : skills := Skills {["/s/aegis-ssh" := Skill (Marker "0.3.0") "old files"; "/s/mine" := Skill NoMarker "mine"]} (NoMarker, "").

Lemma skill_of_others_witness :
  ∃ w', skill_result "files" "/s" true claude_skills w' (Ok true) ∧ sk_places w' !! "/s/mine" = Some (Skill NoMarker "mine").
Proof.
  eexists. split; [|shelve]. refine (proj2 (skill_of_others_kept "files" "/s" true claude_skills) _ (Ok true) _).
  apply (run_all_halts (reply := skill_reply)). vm_compute. reflexivity.
  Unshelve. vm_compute. reflexivity.
Defined.

(** An upgrade can stop there. *)
Definition stuck : skills :=
  default claude_skills (world_run_for (skill_acts "files" "/s") skill_reply 11 claude_skills (materializeSkill "/s")).

Lemma interrupted_upgrade_witness :
  world_stops (skill_acts "files" "/s") claude_skills (materializeSkill "/s") stuck ∧
  ∀ w' r, world_halts (skill_acts "files" "/s") stuck (materializeSkill "/s") w' r →
    (∃ e, r = Fail e) ∧ sk_places w' = sk_places stuck.
Proof.
  split; [apply (run_for_stops (reply := skill_reply) 11); by vm_compute|]. intros w' r Hr.
  refine (interrupted_upgrade_is_stuck "files" "/s" stuck w' r _ _ Hr); [by vm_compute|eexists; by vm_compute].
Defined.
