(* ===== verification/AppCommands.v ===== *)
(** * The command line: [Run] and the commands of [internal/app/app.go] and [commands.go]

    The dispatch on the arguments, the commands that talk to a running daemon or
    only read, and the start of a daemon in the background.  The client of the
    daemon is the one [New] makes, which has every method; the language is a
    parameter, as in [AppVault].  What a command does is a tree of calls. *)

From S2P Require Import Prelude GoStr Utf8 GoTime Prog Agent LocalFiles Model Vault Config OpsLog AppConfig AppVault AppVaultSpec Daemon DaemonStart.
From Stdlib Require Import Ascii.
Open Scope string_scope.
Open Scope list_scope.

(** ** Calls *)

(** The clock, the logs of [DaemonStart] and the files and terminal of [AppVault]
    are [Local]; [Agent] and the login service of [LocalFiles] have their own. *)
Inductive cli_op : Type → Type :=
| Local {X : Type} (e : start_op X) : cli_op X
| Integration {X : Type} (e : agent_op X) : cli_op X
| Login {X : Type} (e : service_op X) : cli_op X
| Environment : cli_op (string → bool)
| Stderr (s : string) : cli_op unit
(* the daemon *)
| CallStatus : cli_op (option BrokerStatus)
| CallExecute (r : ExecuteRequest) : cli_op (option ExecuteResult)
| CallExecuteApproved (r : ApprovedRequest) : cli_op (option ExecuteResult)
| CallExecuteBatch (r : BatchExecuteRequest) : cli_op (option BatchExecuteResult)
| CallLock : cli_op bool
| CallStop : cli_op bool
| CallUnlock (master : string) : cli_op bool
| CallConfigure (key value : string) : cli_op bool
| CallListApprovals (includeCommand : bool) : cli_op (option (list ApprovalSummary))
| CallDecideApproval (id : string) (allow : bool) : cli_op bool
(* a server *)
| SshExecute (secret : ServerSecret) (command : string) (timeout maxOutput : Z) : cli_op (result CodedError Z)
(* processes and files *)
| Executable : cli_op (option string)
| OpenDaemonLog : cli_op bool
| StartProcess (executable : string) : cli_op (option string)
| Sleep (d : Z) : cli_op unit
| LogPath : cli_op string
| OpenLogFile : cli_op (option bool)
| ScanLines : cli_op (list string)
| ScanError : cli_op (option string)
| Tail : cli_op bool
| ContextError : cli_op (option string)
| RunMcp : cli_op (option string).

Abbreviation cli := (prog cli_op).
Abbreviation outcome := (result start_error unit).
Abbreviation file e := (trigger (Local (Command e))).
Abbreviation fail e := (Ret (Fail (AppError e))).

Definition app_result {A} (r : result app_error A) : result start_error A :=
  match r with Fail e => Fail (AppError e) | Ok a => Ok a end.

(** A function of [AppVault], and of [DaemonStart]. *)
Definition here {A} (p : fallible A) : cli (result start_error A) := r ← embed (λ X e, Local (Command e)) p; Ret (app_result r).
Definition in_daemon {A} (p : start A) : cli A := embed (λ X, @Local X) p.

Definition at_login {A} (p : service A) : cli A := embed (λ X, @Login X) p.

Definition print (s : string) : cli unit := file (Stdout s).
Definition println (s : string) : cli unit := print (s +:+ newline).
Definition success : cli outcome := Ret (Ok tt).

Section commands.
Context (lang : language).

Definition say (english chinese : string) : string := localize lang english chinese.

(** ** Commands that read the vault *)

(** [withReadOnlyVault]: the terminal is the one of [operation]. *)
Definition withReadOnlyVault (operation : Config → Data → cli outcome) : cli outcome :=
  ensure (file EnsureLayout) (AppError ErrStorage)
  (found (Local (Command ConfigLoad)) (AppError ErrNotInitialized) (λ cfg,
   ensure (file OpenTerminal) (AppError ErrNoTerminal)
   (deferred
     (try (here (ReadSecret (master_prompt lang))) (λ master,
        deferred
          (found (Local (Command (VaultLoad MainVault master))) (AppError ErrStorage) (λ data,
             deferred (operation cfg data) (Local (Command (WipeData data)))))
          (Local (Command (Wipe master)))))
     (Local (Command CloseTerminal))))).

Definition password_line (alias password : string) : string :=
  say "Server " "服务器 " +:+ alias +:+ say " password: " " 密码：" +:+ password +:+ newline.

Definition showServerPassword (alias : string) : cli outcome :=
  if negb (validAlias alias) then fail ErrInvalidAlias
  else withReadOnlyVault (λ _ data,
    match secrets_of data !! alias with
    | None => fail ErrServerNotFound
    | Some secret =>
        if negb (String.eqb (EffectiveAuthMethod secret) AuthMethodPassword) || str_is_empty (ss_password secret)
        then fail ErrInvalidAuthMethod
        else ensure (file (WriteTerminal (password_line alias (ss_password secret)))) (AppError ErrTerminal) success
    end).

(** The seven lines of [showServer]. *)
Definition server_lines (alias description host : string) (port : Z) (user method fingerprint : string) : string :=
  say "alias: " "别名：" +:+ alias +:+ newline +:+ say "description: " "描述：" +:+ description +:+ newline +:+
  say "host: " "主机：" +:+ host +:+ newline +:+ say "port: " "端口：" +:+ itoa port +:+ newline +:+
  say "user: " "用户：" +:+ user +:+ newline +:+ say "authentication: " "认证方式：" +:+ method +:+ newline +:+
  say "host key: " "主机密钥：" +:+ fingerprint +:+ newline.

Definition showServer (alias : string) (reveal : bool) : cli outcome :=
  if negb (validAlias alias) then fail ErrInvalidAlias
  else
    ensure (file EnsureLayout) (AppError ErrStorage)
    (found (Local (Command ConfigLoad)) (AppError ErrNotInitialized) (λ cfg,
       match servers_of cfg !! alias with
       | None => fail ErrServerNotFound
       | Some server =>
           if reveal then
             withReadOnlyVault (λ _ data,
               match secrets_of data !! alias with
               | None => fail ErrServerNotFound
               | Some secret =>
                   _ ← print (server_lines alias (sp_description server) (ss_host secret) (ss_port secret) (ss_user secret)
                                (EffectiveAuthMethod secret) (ss_host_fingerprint secret));
                   success
               end)
           else
             _ ← print (server_lines alias (sp_description server) (sp_host_hint server) (sp_port server) (sp_user_hint server)
                          (sp_auth_method server) (sp_fingerprint_hint server));
             success
       end)).

Definition testServer (alias : string) : cli outcome :=
  if negb (validAlias alias) then fail ErrInvalidAlias
  else withReadOnlyVault (λ cfg data,
    match secrets_of data !! alias with
    | None => fail ErrServerNotFound
    | Some secret =>
        match validateDefaults (cfg_defaults cfg) with
        | Fail _ => fail ErrStorage
        | Ok (connect, _, _) =>
            r ← trigger (SshExecute secret "true" connect 1024);
            match r with
            | Fail e => fail (ErrCoded e)
            | Ok code =>
                if negb (Z.eqb code 0) then fail (ExitCodeError code)
                else
                  _ ← print (say "server " "服务器 " +:+ alias +:+ say " connection succeeded" " 连接测试成功" +:+ newline);
                  success
            end
        end
    end).

Definition tab : string := String "009"%char "".

Definition server_line (entry : string * ServerPublic) : string :=
  let description := sp_description (snd entry) in
  if str_is_empty description then fst entry else fst entry +:+ tab +:+ description.

(** A line for each element. *)
Fixpoint each {A} (l : list A) (f : A → cli unit) : cli unit :=
  match l with [] => Ret tt | x :: l => _ ← f x; each l f end.

Definition sorted_servers (cfg : Config) : list (string * ServerPublic) :=
  merge_sort (λ a b : string * ServerPublic, String.le (fst a) (fst b)) (map_to_list (servers_of cfg)).

Definition listServers : cli outcome :=
  ensure (file EnsureLayout) (AppError ErrStorage)
  (found (Local (Command ConfigLoad)) (AppError ErrNotInitialized) (λ cfg,
     _ ← each (sorted_servers cfg) (λ entry, println (server_line entry)); success)).

(** ** Commands that talk to the daemon *)

(** [daemonReachable], without its error. *)
Definition daemonReachable : cli bool :=
  status ← trigger CallStatus; Ret (match status with Some s => bs_daemon_reachable s | None => false end).

Definition unlock : cli outcome :=
  ensure (file EnsureLayout) (AppError ErrStorage)
  (ensure (file OpenTerminal) (AppError ErrNoTerminal)
  (deferred
    (try (here (ReadSecret (master_prompt lang))) (λ master,
       deferred
         (ensure (trigger (CallUnlock master)) (AppError ErrStorage)
            (_ ← println (say "aegis-ssh daemon unlocked" "aegis-ssh 后台服务已解锁"); success))
         (Local (Command (Wipe master)))))
    (Local (Command CloseTerminal)))).

Definition lock : cli outcome :=
  ensure (file EnsureLayout) (AppError ErrStorage)
  (ensure (trigger CallLock) (AppError ErrDaemonUnavailable)
    (_ ← println (say "aegis-ssh daemon locked and credentials cleared" "aegis-ssh 已锁定并清除内存凭据"); success)).

Definition stop : cli outcome :=
  ensure (file EnsureLayout) (AppError ErrStorage)
  (ensure (trigger CallStop) (AppError ErrDaemonUnavailable)
    (_ ← println (say "aegis-ssh daemon stopped" "aegis-ssh 后台服务已停止"); success)).

(** The polls of [startLocked], 25 milliseconds apart for 3 seconds; [fuel]
    bounds them. *)
Definition poll_interval : Z := 25 * 1000000.
Definition poll_time : Z := 3 * second.

Fixpoint poll (fuel : nat) (deadline : Z) : cli (option bool) :=
  match fuel with
  | O => Ret None
  | S fuel =>
      now ← trigger (Local TimeNow);
      if (now <? deadline)%Z then
        running ← daemonReachable;
        if running : bool then Ret (Some true)
        else _ ← trigger (Sleep poll_interval); poll fuel deadline
      else Ret (Some false)
  end.

Definition poll_fuel : nat := 121.

Definition startLocked : cli outcome :=
  ensure (file EnsureLayout) (AppError ErrStorage)
  (running ← daemonReachable;
   if running : bool then _ ← println (say "aegis-ssh daemon already running" "aegis-ssh 后台服务已在运行"); success
   else
     found Executable (AppError ErrStorage) (λ executable,
     ensure (trigger OpenDaemonLog) (AppError ErrStorage)
     (failed ← trigger (StartProcess executable);
      match failed with
      | Some e => Ret (Fail (OtherError e))
      | None =>
          now ← trigger (Local TimeNow);
          running ← poll poll_fuel (now + poll_time)%Z;
          match running with
          | Some true => _ ← println (say "aegis-ssh daemon started (locked)" "aegis-ssh 后台服务已启动（锁定状态）"); success
          | _ => fail ErrDaemonUnavailable
          end
      end))).

Definition start : cli outcome := try startLocked (λ _, unlock).

Definition status_lines (s : BrokerStatus) : string :=
  say "daemon: " "后台服务：" +:+ (if bs_vault_locked s then say "locked" "已锁定" else say "ready" "就绪") +:+ newline +:+
  say "pid: " "进程 ID：" +:+ itoa (bs_pid s) +:+ newline +:+
  say "started: " "启动时间：" +:+ bs_started_at s +:+ newline +:+
  say "version: " "版本：" +:+ bs_version s +:+ newline +:+
  say "policy: " "策略版本：" +:+ bs_policy_version s +:+ newline +:+
  say "risk policy: " "风险策略：" +:+ or_string (bs_risk_policy s) "enforce" +:+ newline +:+
  say "log level: " "日志级别：" +:+ or_string (bs_log_level s) "info" +:+ newline +:+
  say "batch concurrency: " "批量并发：" +:+ itoa (or_int (bs_batch_concurrency s) 8) +:+ newline +:+
  say "servers: " "服务器数量：" +:+ itoa (bs_server_count s) +:+ newline.

Definition status : cli outcome :=
  ensure (file EnsureLayout) (AppError ErrStorage)
  (status ← trigger CallStatus;
   _ ← (match status with
        | None => println (say "daemon: unavailable" "后台服务：未运行")
        | Some s => print (status_lines s)
        end);
   _ ← at_login (printServiceStatus lang);
   success).

(** ** Running commands *)

Definition printExecuteResult (result : ExecuteResult) : cli outcome :=
  _ ← (if str_is_empty (res_stdout result) then Ret tt else print (res_stdout result));
  _ ← (if str_is_empty (res_stderr result) then Ret tt else trigger (Stderr (res_stderr result)));
  if negb (String.eqb (res_status result) StatusCompleted) then
    fail (ErrCoded (match res_error result with Some e => e | None => ErrConnection end))
  else if negb (Z.eqb (res_exit_code result) 0) then fail (ExitCodeError (res_exit_code result))
  else success.

(** The approval in the terminal, and the command once it is approved. *)
Definition execute_approved (info : ApprovalInfo) : cli outcome :=
  _ ← trigger (Stderr (ai_message info +:+ newline));
  ensure (file OpenTerminal) (AppError ErrNoTerminal)
  (confirmed ← here (ConfirmExact (say "Type the approval code to continue: " "输入批准码继续：") (ai_code info));
   _ ← file CloseTerminal;
   match confirmed with
   | Fail e => Ret (Fail e)
   | Ok false => fail (ErrCoded ErrApproval)
   | Ok true =>
       found (CallExecuteApproved {| ar_approval_id := ai_id info; ar_approval_code := ai_code info |})
         (AppError ErrDaemonUnavailable) printExecuteResult
   end).

Definition execute_request (alias command : string) : ExecuteRequest :=
  {| er_server_alias := alias; er_command := command; er_timeout_seconds := 0; er_max_output_bytes := 0 |}.

Definition execute_one (alias command : string) : cli outcome :=
  ensure (file EnsureLayout) (AppError ErrStorage)
  (found (CallExecute (execute_request alias command)) (AppError ErrDaemonUnavailable) (λ result,
     if String.eqb (res_status result) StatusRequiresApproval then
       match res_approval result with
       | None => fail (ErrCoded ErrApproval)
       | Some info => execute_approved info
       end
     else printExecuteResult result)).

Definition batch_request (args : list string) : option BatchExecuteRequest :=
  let request aliases all command := {| br_server_aliases := aliases; br_all := all; br_command := command; br_concurrency := 0;
    br_timeout_seconds := 0; br_max_output_bytes := 0 |} in
  match args with
  | [option; aliases; dashes; command] =>
      if String.eqb option "--servers" && String.eqb dashes "--" then Some (request (split_byte aliases ",") false command) else None
  | [option; dashes; command] => if String.eqb option "--all" && String.eqb dashes "--" then Some (request [] true command) else None
  | _ => None
  end.

(** The texts of the errors that a result is printed with. *)
Definition result_error_text (e : start_error) : string :=
  match e with
  | AppError (ErrCoded e) => ce_message e
  | AppError (ExitCodeError code) => "remote command exited with status " +:+ itoa code
  | _ => ""
  end.

(** The results of a batch; whether one failed. *)
Fixpoint print_results (results : list ServerExecuteResult) : cli bool :=
  match results with
  | [] => Ret false
  | one :: results =>
      _ ← print ("== " +:+ sr_server_alias one +:+ " ==" +:+ newline);
      r ← printExecuteResult (sr_result one);
      _ ← (match r with
           | Ok _ => Ret tt
           | Fail e => trigger (Stderr ("[" +:+ sr_server_alias one +:+ "] " +:+ result_error_text e +:+ newline))
           end);
      failed ← print_results results;
      Ret (match r with Ok _ => failed | Fail _ => true end)
  end.

Definition executeBatch (args : list string) : cli outcome :=
  match batch_request args with
  | None => fail ErrUsage
  | Some request =>
      if negb (forallb (λ alias, validAlias (trim_space alias)) (br_server_aliases request)) then fail ErrInvalidAlias
      else
        ensure (file EnsureLayout) (AppError ErrStorage)
        (found (CallExecuteBatch request) (AppError ErrDaemonUnavailable) (λ result,
           if String.eqb (bres_status result) StatusRequiresApproval then fail (ErrCoded ErrApproval)
           else
             failed ← print_results (bres_results result);
             if failed : bool then fail (ErrCoded ErrConnection) else success))
  end.

Definition execute (args : list string) : cli outcome :=
  if (length args <? 3)%nat then fail ErrUsage
  else if String.eqb (default "" (head args)) "--servers" || String.eqb (default "" (head args)) "--all" then executeBatch args
  else
    match args with
    | [alias; dashes; command] =>
        if negb (validAlias alias) || negb (String.eqb dashes "--") || str_is_empty (trim_space command) then fail ErrUsage
        else execute_one alias command
    | _ => fail ErrUsage
    end.

(** ** Approvals *)

Definition approval_line (item : ApprovalSummary) : string :=
  as_id item +:+ tab +:+ str_join (default [] (as_server_aliases item)) "," +:+ tab +:+
  str_join (default [] (as_categories item)) "," +:+ newline.

Definition approval_lines (item : ApprovalSummary) : string :=
  "id: " +:+ as_id item +:+ newline +:+ "servers: " +:+ str_join (default [] (as_server_aliases item)) "," +:+ newline +:+
  "risks: " +:+ str_join (default [] (as_categories item)) "," +:+ newline +:+ "command: " +:+ as_command item +:+ newline +:+
  "expires: " +:+ as_expires_at item +:+ newline.

Definition decide_approval (id : string) (approve : bool) : cli outcome :=
  ensure (trigger (CallDecideApproval id approve)) (AppError (ErrCoded ErrApproval))
    (_ ← print (say "approval " "审批 " +:+ id +:+ " " +:+ (if approve then say "approved" "已允许" else say "denied" "已拒绝") +:+ newline);
     success).

Definition list_approvals : cli outcome :=
  found (CallListApprovals false) (AppError ErrDaemonUnavailable) (λ items,
    _ ← each items (λ item, print (approval_line item)); success).

Definition show_approval (id : string) : cli outcome :=
  found (CallListApprovals true) (AppError ErrDaemonUnavailable) (λ items,
    match filter (λ item, as_id item = id) items with
    | item :: _ => _ ← print (approval_lines item); success
    | [] => fail (ErrCoded ErrApproval)
    end).

Definition approvalCommand (args : list string) : cli outcome :=
  match args with
  | [] => fail ErrUsage
  | name :: args =>
      ensure (file EnsureLayout) (AppError ErrStorage)
      (if String.eqb name "list" then match args with [] => list_approvals | _ => fail ErrUsage end
       else if String.eqb name "show" then match args with [id] => show_approval id | _ => fail ErrUsage end
       else if String.eqb name "approve" || String.eqb name "deny" then
         match args with [id] => decide_approval id (String.eqb name "approve") | _ => fail ErrUsage end
       else fail ErrUsage)
  end.

(** ** Settings and logs; [bufio.Scanner] splits the file into lines. *)

Definition config_show (cfg : Config) : string :=
  let d := cfg_defaults cfg in
  say "language: " "语言：" +:+ or_string (cfg_language cfg) "auto" +:+ newline +:+
  say "risk_policy: " "风险策略：" +:+ or_string (df_risk_policy d) "enforce" +:+ newline +:+
  say "log_level: " "日志级别：" +:+ or_string (df_log_level d) "info" +:+ newline +:+
  say "batch_concurrency: " "批量并发：" +:+ itoa (or_int (df_batch_concurrency d) 8) +:+ newline.

Definition set_config (cfg : Config) (key value : string) : cli outcome :=
  match set_setting command_level cfg key value with
  | None => fail ErrUsage
  | Some cfg =>
      running ← daemonReachable;
      ensure (if running : bool then trigger (CallConfigure key value)
              else embed (λ X e, Local (Command e)) (saveConfigVerified cfg)) (AppError ErrStorage)
        (_ ← println (say "configuration updated" "配置已更新"); success)
  end.

Definition configCommand (args : list string) : cli outcome :=
  ensure (file EnsureLayout) (AppError ErrStorage)
  (found (Local (Command ConfigLoad)) (AppError ErrNotInitialized) (λ cfg,
    match args with
    | [name] => if String.eqb name "show" then _ ← print (config_show cfg); success else fail ErrUsage
    | [name; key; value] => if String.eqb name "set" then set_config cfg key value else fail ErrUsage
    | _ => fail ErrUsage
    end)).

Definition on_error (e : option string) : outcome := match e with Some text => Fail (OtherError text) | None => Ok tt end.

Definition show_log : cli outcome :=
  opened ← trigger OpenLogFile;
  match opened with
  | None => success
  | Some false => fail ErrStorage
  | Some true => lines ← trigger ScanLines; _ ← each lines println; e ← trigger ScanError; Ret (on_error e)
  end.

Definition follow_log : cli outcome :=
  ok ← trigger Tail;
  e ← trigger ContextError;
  if negb ok && bool_decide (e = None) then fail ErrStorage else Ret (on_error e).

Definition logCommand (args : list string) : cli outcome :=
  ensure (file EnsureLayout) (AppError ErrStorage)
  match args with
  | [name] =>
      if String.eqb name "path" then path ← trigger LogPath; _ ← println path; success
      else if String.eqb name "show" then show_log
      else if String.eqb name "follow" then follow_log
      else fail ErrUsage
  | _ => fail ErrUsage
  end.

(** ** The dispatch *)

Definition english_help : string := "Usage: aegis-ssh <command>

Commands:
  init                         Initialize encrypted local storage
  daemon                       Unlock and run the SSH broker
  start                        Start the broker in the background and unlock it
  unlock                       Unlock a running broker
  lock                         Clear in-memory credentials but keep broker running
  stop                         Stop the background broker
  status                       Show broker availability
	agent configure|unconfigure|status [auto|client] Manage Agent integrations
  config show|set              Show or change safe settings
	approval list|show|approve|deny  Manage local approvals
	recovery enable|restore|reset Enable recovery, restore data, or start over
  server add                   Add a server interactively
  server edit <alias>          Replace a server interactively
  server remove <alias>        Remove a server
  server list                  List public aliases and descriptions
  server show <alias>          Show masked connection details
	server test <alias>          Test SSH authentication
	server password <alias>      Reveal a password after master-password verification
  exec <alias> -- '<command>'  Execute an exact remote shell string
  exec --servers a,b -- '<command>' Execute concurrently
  exec --all -- '<command>'    Execute on all configured aliases
	service install|uninstall    Manage the login service
	log path|show|follow         Inspect operational logs
  mcp                          Run the standard stdio MCP server
".

Definition chinese_help : string := "用法：aegis-ssh <命令>

命令：
  init                         初始化加密存储
  daemon                       前台解锁并运行 SSH broker
  start / stop                 后台启动 / 停止 broker
  unlock / lock                解锁 / 清除内存凭据
  status                       查看运行状态
	agent configure|unconfigure|status [auto|客户端] 管理 Agent 集成
  config show|set              查看或修改语言、风险和日志配置
	approval list|show|approve|deny  在本机处理风险审批
	recovery enable|restore|reset 启用恢复、保留数据恢复或归档重置
  server add|edit|remove       管理服务器
	server list|show|test        列出、查看或测试服务器
	server password <别名>        验证主密码后查看服务器密码
  exec <别名> -- '<命令>'       执行远程命令
  exec --servers a,b -- '<命令>'  并发批量执行
  exec --all -- '<命令>'       在全部别名上并发执行
  service install|uninstall    管理登录自启服务
  log path|show|follow         查看或持续跟踪运维日志
  mcp                          启动标准 MCP 服务
".

Definition printHelp : cli unit := print (say english_help chinese_help).

(** [len(args) != 1]: a command without arguments of its own. *)
Definition alone (args : list string) (p : cli outcome) : cli outcome :=
  if bool_decide (args = []) then p else fail ErrUsage.

(** [len(args) != 2]: a command on one server. *)
Definition on_server (args : list string) (p : string → cli outcome) : cli outcome :=
  match args with [alias] => p alias | _ => fail ErrUsage end.

Definition server (args : list string) : cli outcome :=
  match args with
  | [] => fail ErrUsage
  | name :: args =>
      if String.eqb name "add" then alone args (here (addServer lang))
      else if String.eqb name "edit" then on_server args (λ alias, here (editServer lang alias))
      else if String.eqb name "remove" then on_server args (λ alias, here (removeServer lang alias))
      else if String.eqb name "list" then alone args listServers
      else if String.eqb name "show" then
        match args with
        | [alias] => showServer alias false
        | [alias; option] => if String.eqb option "--reveal" then showServer alias true else fail ErrUsage
        | _ => fail ErrUsage
        end
      else if String.eqb name "test" then on_server args testServer
      else if String.eqb name "password" then on_server args showServerPassword
      else fail ErrUsage
  end.

Definition serviceCommand (args : list string) : cli outcome :=
  match args with
  | [name] =>
      if String.eqb name "install" then at_login (installService lang)
      else if String.eqb name "uninstall" then at_login (uninstallService lang)
      else if String.eqb name "start" then start
      else if String.eqb name "stop" then stop
      else if String.eqb name "status" then status
      else fail ErrUsage
  | _ => fail ErrUsage
  end.

Definition runMCP : cli outcome := ensure (file EnsureLayout) (AppError ErrStorage) (e ← trigger RunMcp; Ret (on_error e)).

Definition agent_outcome (r : result agent_error unit) : outcome :=
  match r with
  | Ok tt => Ok tt
  | Fail AgentUsage => Fail (AppError ErrUsage)
  | Fail AgentStorage => Fail (AppError ErrStorage)
  | Fail ErrAgentConfig => Fail (OtherError "one or more agent operations failed")
  end.

Definition on_agents (args : list string) : cli outcome :=
  r ← embed (λ X, @Integration X) (agentCommand lang args); Ret (agent_outcome r).

Definition dispatch (name : string) (args : list string) : cli outcome :=
  if bool_decide (name ∈ ["-h"; "--help"; "help"]) then alone args (_ ← printHelp; success)
  else if String.eqb name "init" then alone args (here (initialize lang))
  else if String.eqb name "daemon" then alone args (in_daemon (daemon lang true))
  else if String.eqb name "daemon-locked" then alone args (in_daemon (daemon lang false))
  else if String.eqb name "start" then alone args start
  else if String.eqb name "start-locked" then alone args startLocked
  else if String.eqb name "stop" then alone args stop
  else if String.eqb name "unlock" then alone args unlock
  else if String.eqb name "lock" then alone args lock
  else if String.eqb name "status" then alone args status
  else if String.eqb name "config" then configCommand args
  else if String.eqb name "approval" then approvalCommand args
  else if String.eqb name "recovery" then here (recoveryCommand lang args)
  else if String.eqb name "log" then logCommand args
  else if String.eqb name "service" then serviceCommand args
  else if String.eqb name "agent" then on_agents args
  else if String.eqb name "server" then server args
  else if String.eqb name "exec" then execute args
  else if String.eqb name "mcp" then alone args runMCP
  else fail ErrUsage.

Definition Run (args : list string) : cli outcome :=
  if hasSecretArgument args then fail ErrSecretArgument
  else
    present ← trigger Environment;
    if hasSecretEnvironment present then fail ErrSecretEnvironment
    else match args with [] => _ ← printHelp; fail ErrUsage | name :: args => dispatch name args end.
End commands.

(** ** [main] *)

(** [Error()]; [terminal] is the text of an error of the terminal. *)
Definition app_error_text (terminal : string) (e : app_error) : string :=
  match e with
  | ErrUsage => "invalid command usage"
  | ErrSecretArgument => "connection secrets must not be supplied in command arguments"
  | ErrSecretEnvironment => "connection secrets must not be supplied through environment variables"
  | ErrAlreadyInitialized => "aegis-ssh is already initialized"
  | ErrNotInitialized => "aegis-ssh is not initialized"
  | ErrDaemonRunning => "stop the daemon before changing servers"
  | ErrDaemonUnavailable => "broker daemon unavailable"
  | ErrInvalidAlias => "invalid server alias"
  | ErrInvalidServer => "invalid server details"
  | ErrInvalidAuthMethod => "authentication method must be password or private-key"
  | ErrPrivateKey => "unable to load SSH private key"
  | ErrServerExists => "server alias already exists"
  | ErrServerNotFound => "server alias not found"
  | ErrHostKeyProbe => "unable to probe SSH host key"
  | ErrHostKeyUnconfirmed => "SSH host key was not confirmed"
  | ErrConnectionTest => "SSH connection test failed"
  | ErrRecoveryUnavailable => "recovery is not enabled"
  | ErrPasswordMismatch => "master passwords do not match"
  | ErrStorage => "secure local storage operation failed"
  | ErrEmptySecret => "secret must not be empty"
  | ErrNoTerminal => "interactive terminal unavailable"
  | ErrTerminal => terminal
  | ErrCoded e => ce_message e
  | ExitCodeError code => "remote command exited with status " +:+ itoa code
  end.

Definition sanitizedError (terminal : string) (e : start_error) : string :=
  match e with
  | AppError ErrSecretArgument | AppError ErrSecretEnvironment =>
      "connection secrets must be entered interactively on the controlling terminal"
  | AppError e => app_error_text terminal e
  | OtherError text => text
  end.

(** The line on the standard error, and the status of the process. *)
Definition exit_status (terminal : string) (r : outcome) : option string * Z :=
  match r with
  | Ok _ => (None, 0%Z)
  | Fail (AppError ErrUsage) => (Some "invalid command; run aegis-ssh --help", 2%Z)
  | Fail e => (Some (sanitizedError terminal e), 1%Z)
  end.
