(* ===== verification/AppRun.v ===== *)
(** * The command line gives back what it takes

    Whatever the arguments and the answers, [Run] of [AppCommands] ends with the
    terminal closed and the lock of the files released.  A program is balanced
    when it ends in the state it began in; what is balanced composes. *)

From S2P Require Import Prelude GoStr Utf8 GoTime Prog Model Service Vault Config OpsLog AppConfig AppVault AppVaultSpec AppServers Daemon DaemonStart Agent LocalFiles AppCommands.
Open Scope string_scope.
Open Scope list_scope.

(** ** The terminal and the lock *)

Record held := Held { hd_lock : bool; hd_terminal : bool }.

Definition held_command {X} (s : held) (e : app_op X) : X → verdict held :=
  match e in app_op X return X → verdict held with
  | AcquireLifecycle => λ r, if hd_lock s then Reject else Next (Held (match r with None => true | Some _ => false end) (hd_terminal s))
  | ReleaseLifecycle => λ _, if hd_lock s then Next (Held false (hd_terminal s)) else Reject
  | OpenTerminal => λ opened, if hd_terminal s then Reject else Next (Held (hd_lock s) opened)
  | CloseTerminal => λ _, if hd_terminal s then Next (Held (hd_lock s) false) else Reject
  | WriteTerminal _ | ReadLine | ReadPassword => λ _, if hd_terminal s then Next s else Reject
  | _ => λ _, Next s
  end.

Definition held_start {X} (s : held) (e : start_op X) : X → verdict held :=
  match e in start_op X return X → verdict held with Command e => held_command s e | _ => λ _, Next s end.

Definition held_cli {X} (s : held) (e : cli_op X) : X → verdict held :=
  match e in cli_op X return X → verdict held with Local e => held_start s e | _ => λ _, Next s end.

Section balanced.
Context {E : Type → Type} (judge : ∀ X, held → E X → X → verdict held).

Definition judged (s : held) (call : io E) : verdict held := match call with IO e x => judge _ s e x end.

(** The program gives back what it takes: it ends where it began. *)
Definition balanced {R} (s : held) (p : prog E R) : Prop := safe judged s p (λ s' _, s' = s).

Lemma balanced_ret {R} s (r : R) : balanced s (Ret r).
Proof. done. Qed.

Lemma balanced_bind {A B} s (p : prog E A) (f : A → prog E B) : balanced s p → (∀ a, balanced s (f a)) → balanced s (p ≫= f).
Proof. intros Hp Hf. apply safe_bind. eapply safe_mono; [|exact Hp]. intros s' a ->. apply Hf. Qed.

Lemma balanced_call {X} s (e : E X) : (∀ x, judge X s e x = Next s) → balanced s (trigger e).
Proof. intros He x. simpl. by rewrite He. Qed.

Lemma balanced_free {R} s (p : prog E R) : (∀ X (e : E X) x, judge X s e x = Next s) → balanced s p.
Proof. intros Hj. induction p as [r|X e k IH]; [done|]. intros x. simpl. rewrite Hj. apply IH. Qed.

Lemma balanced_try {Err A B} s (p : prog E (result Err A)) (k : A → prog E (result Err B)) :
  balanced s p → (∀ a, balanced s (k a)) → balanced s (try p k).
Proof. intros Hp Hk. apply balanced_bind; [done|]. by intros []. Qed.

Lemma balanced_ensure {Err A} s (p : prog E bool) (e : Err) (k : prog E (result Err A)) :
  balanced s p → balanced s k → balanced s (ensure p e k).
Proof. intros Hp Hk. apply balanced_bind; [done|]. by intros []. Qed.

Lemma balanced_found {Err X A} s (p : E (option X)) (e : Err) (k : X → prog E (result Err A)) :
  (∀ x, judge _ s p x = Next s) → (∀ x, balanced s (k x)) → balanced s (found p e k).
Proof. intros Hp Hk. apply balanced_bind; [by apply balanced_call|]. by intros []. Qed.

(** A call that is put off, and gives back what was taken before. *)
Lemma balanced_bracket {A} s s1 (p : prog E A) (call : E unit) :
  balanced s1 p → judge _ s1 call tt = Next s → safe judged s1 (deferred p call) (λ s' _, s' = s).
Proof. intros Hp Hc. apply safe_bind. eapply safe_mono; [|exact Hp]. intros s' a -> []. simpl. by rewrite Hc. Qed.

(** What is open while it is used. *)
Lemma balanced_open {Err A} s s1 (open : E bool) (close : E unit) (e : Err) (p : prog E (result Err A)) :
  judge _ s open false = Next s → judge _ s open true = Next s1 → judge _ s1 close tt = Next s →
  balanced s1 p → balanced s (ensure (trigger open) e (deferred p close)).
Proof.
  intros Hf Ht Hc Hp []; simpl; [rewrite Ht|rewrite Hf; done]. by apply (balanced_bracket s s1).
Qed.
End balanced.

Abbreviation app_balanced := (balanced (λ X, @held_command X)).
Abbreviation start_balanced := (balanced (λ X, @held_start X)).
Abbreviation cli_balanced := (balanced (λ X, @held_cli X)).

Lemma balanced_embed {E F : Type → Type} (judge : ∀ X, held → E X → X → verdict held) (judge' : ∀ X, held → F X → X → verdict held)
    (inside : ∀ X, E X → F X) {R} s (p : prog E R) :
  (∀ X s e x, judge' X s (inside X e) x = judge X s e x) → balanced judge s p → balanced judge' s (embed inside p).
Proof.
  intros Hj. unfold balanced. generalize s at 1 3 as s0. revert s. induction p as [r|X e k IH]; intros s s0; simpl; [done|].
  intros Hp x. rewrite Hj. specialize (Hp x). destruct (judge X s0 e x); [|done|done]. by apply IH.
Qed.

Lemma balanced_here {A} s (p : fallible A) : app_balanced s p → cli_balanced s (here p).
Proof.
  intros Hp. apply balanced_bind; [|done]. by apply (balanced_embed (λ X, @held_command X)).
Qed.

(** Prompts: any conversation while the terminal is open. *)
Lemma talks_balanced {R} lock (p : app R) : talks p → app_balanced (Held lock true) p.
Proof. intros Hp. apply (safe_only _ (@talking)); [|done]. intros X e x He. by destruct e. Qed.

Definition nothing_held : held := Held false false.

Create HintDb balance.

Ltac balance := repeat first
  [ apply balanced_ret
  | solve [auto with balance nocore]
  | apply talks_balanced; solve [auto with talk nocore]
  | eapply balanced_open; [done|done|done|]
  | apply balanced_here
  | apply balanced_try; [|intros ?]
  | apply balanced_ensure
  | apply balanced_found; [done|intros ?]
  | apply balanced_bracket; [|done]
  | apply balanced_call; by intros ?
  | apply balanced_bind; [|intros ?]
  | progress intros
  | progress cbv zeta
  | case_match ].

(** The lock, held while it is used. *)
Lemma balanced_locked {A} (p : fallible A) : app_balanced (Held true false) p →
  app_balanced nothing_held (lock ← trigger AcquireLifecycle;
    match lock with Some e => Ret (Fail e) | None => deferred p ReleaseLifecycle end).
Proof. intros Hp [e|]; [done|]. by apply (balanced_bracket _ nothing_held). Qed.

Lemma balanced_saveConfig s cfg : app_balanced s (saveConfigVerified cfg).
Proof. unfold saveConfigVerified. balance. Qed.
Lemma balanced_saveVault s v master data : app_balanced s (saveVaultVerified v master data).
Proof. unfold saveVaultVerified. balance. Qed.
#[export] Hint Resolve balanced_saveConfig balanced_saveVault : balance.

Lemma balanced_read_new_master lock {A} prompt confirm (k : string → fallible A) :
  (∀ master, app_balanced (Held lock true) (k master)) → app_balanced (Held lock true) (read_new_master prompt confirm k).
Proof. intros Hk. unfold read_new_master. balance. Qed.

Lemma balanced_initialize lang : app_balanced nothing_held (initialize lang).
Proof.
  unfold initialize, initialized. apply balanced_ensure; [balance|]. apply balanced_bind; [balance|]. intros []; [balance|].
  apply balanced_locked. apply balanced_bind; [balance|]. intros []; [balance|]. eapply balanced_open; [done|done|done|].
  apply balanced_read_new_master. intros master. unfold initialize_files. balance.
Qed.

Lemma balanced_withUnlockedVault lang mutate : (∀ cfg data, talks (mutate cfg data)) →
  app_balanced nothing_held (withUnlockedVault lang mutate).
Proof.
  intros Ht. unfold withUnlockedVault. apply balanced_ensure; [balance|]. apply balanced_locked. unfold requireDaemonStopped.
  apply balanced_bind; [balance|]. intros [[]| |]; try apply balanced_ret.
  all: apply balanced_found; [done|]; intros cfg; cbv zeta; eapply balanced_open; [done|done|done|].
  all: apply balanced_try; [balance|]; intros master; apply balanced_bracket; [|done].
  all: apply (safe_only _ (@at_work)); [intros X e x He; by destruct e|by apply with_master_works].
Qed.

Lemma balanced_server_command lang p : server_command lang p → app_balanced nothing_held p.
Proof.
  intros [(? & ->)|(mutate & english & chinese & [Ht _] & ->)]%server_command_is; [done|].
  apply balanced_try; [by apply balanced_withUnlockedVault|]. intros alias. balance.
Qed.

Lemma balanced_printRecoveryCode lang lock key : app_balanced (Held lock true) (printRecoveryCode lang key).
Proof. unfold printRecoveryCode. balance. Qed.
#[export] Hint Resolve balanced_printRecoveryCode : balance.

Lemma balanced_archive {A} s (present : app bool) (rename : app_op bool) (k : fallible A) :
  app_balanced s present → (∀ x, held_command s rename x = Next s) → app_balanced s k → app_balanced s (archive present rename k).
Proof. intros Hp Hr Hk. unfold archive. apply balanced_bind; [done|]. intros []; [|done]. apply balanced_ensure; [by apply balanced_call|done]. Qed.

Lemma balanced_recovery_reset lang lock : app_balanced (Held lock true) (recovery_reset lang).
Proof.
  unfold recovery_reset. apply balanced_try; [balance|]. intros []; [|balance]. cbn [negb]. apply balanced_read_new_master. intros master.
  do 3 (apply balanced_archive; [by apply balanced_call|done|]). balance.
Qed.

Lemma balanced_recovery_enable lang lock : app_balanced (Held lock true) (recovery_enable lang).
Proof. unfold recovery_enable. balance. Qed.

Lemma balanced_recovery_restore lang lock : app_balanced (Held lock true) (recovery_restore lang).
Proof.
  unfold recovery_restore. apply balanced_ensure; [balance|]. apply balanced_try; [balance|]. intros text. apply balanced_bracket; [|done].
  case_match; [|balance]. apply balanced_bracket; [|done]. apply balanced_found; [done|]. intros data. case_match; [balance|].
  apply balanced_bracket; [|done]. apply balanced_read_new_master. intros master. balance.
Qed.

Lemma balanced_recoveryCommand lang args : app_balanced nothing_held (recoveryCommand lang args).
Proof.
  unfold recoveryCommand. destruct args as [|mode [|? ?]]; try apply balanced_ret. case_match; [|apply balanced_ret].
  apply balanced_ensure; [balance|]. unfold requireDaemonStopped. apply balanced_bind; [balance|].
  intros [[]| |]; try apply balanced_ret; (eapply balanced_open; [done|done|done|]).
  all: destruct (String.eqb mode "reset"); [apply balanced_recovery_reset|].
  all: destruct (String.eqb mode "enable"); [apply balanced_recovery_enable|apply balanced_recovery_restore].
Qed.

(** ** The daemon in this process *)

Lemma balanced_unlocking_first lang unlockAtStart lock serve : start_balanced (Held lock false) serve →
  start_balanced (Held lock false) (unlocking_first lang unlockAtStart serve).
Proof.
  intros Hs. unfold unlocking_first. destruct unlockAtStart; cbn [negb]; [|done]. intros []; [|done].
  apply safe_bind. eapply (safe_mono _ _ _ (λ s _, s = Held lock true)).
  2: { apply (balanced_embed (λ X, @held_command X)); [done|]. apply talks_balanced, talks_ReadSecret. }
  intros s [master|e] -> []; [|done]. apply balanced_bracket; [|done]. by intros [].
Qed.

Lemma balanced_daemon lang unlockAtStart : start_balanced nothing_held (daemon lang unlockAtStart).
Proof.
  intros []; [|done]. intros [e|]; [done|]. apply (balanced_bracket _ _ (Held true false)); [|done].
  apply balanced_bind; [by apply balanced_call|]. intros status.
  assert (∀ cfg : option Config, start_balanced (Held true false) (match cfg with
    | None => Ret (Fail (AppError ErrNotInitialized))
    | Some cfg => deferred (newService cfg (λ service, deferred (unlocking_first lang unlockAtStart (serving_with service)) Cancel)) SecretsLock
    end)) as Hcfg.
  { intros [cfg|]; [|done]. apply balanced_bracket; [|done]. unfold newService. destruct (validateDefaults _) as [[[? ?] ?]|]; [|done].
    intros []; [|done]. intros []; [|done]. intros [] now. simpl. destruct (NewService _ now); [|done].
    apply balanced_bracket; [|done]. apply balanced_unlocking_first. by intros []. }
  destruct status as [[]| |]; [done|..]; (apply balanced_bind; [by apply balanced_call|exact Hcfg]).
Qed.

(** ** The commands *)

Lemma balanced_withReadOnlyVault lang operation : (∀ cfg data, cli_balanced (Held false true) (operation cfg data)) →
  cli_balanced nothing_held (withReadOnlyVault lang operation).
Proof. intros Ho. unfold withReadOnlyVault. balance. Qed.

Lemma balanced_each {A} s (l : list A) (f : A → cli unit) : (∀ x, cli_balanced s (f x)) → cli_balanced s (each l f).
Proof. intros Hf. induction l as [|x l IH]; [done|]. by apply balanced_bind. Qed.

Lemma balanced_print s text : cli_balanced s (print text).
Proof. by apply balanced_call. Qed.
Lemma balanced_println s text : cli_balanced s (println text).
Proof. apply balanced_print. Qed.
Lemma balanced_reachable s : cli_balanced s daemonReachable.
Proof. unfold daemonReachable. balance. Qed.
Lemma balanced_poll s fuel deadline : cli_balanced s (poll fuel deadline).
Proof.
  induction fuel as [|fuel IH]; [done|]. cbn [poll]. apply balanced_bind; [balance|]. intros now. destruct (_ <? _)%Z; [|done].
  apply balanced_bind; [apply balanced_reachable|]. intros []; [done|]. apply balanced_bind; [balance|]. intros []. exact IH.
Qed.
Lemma balanced_printExecuteResult s result : cli_balanced s (printExecuteResult result).
Proof. unfold printExecuteResult, success. balance. Qed.
Lemma balanced_print_results s results : cli_balanced s (print_results results).
Proof.
  induction results as [|one results IH]; [done|]. apply balanced_bind; [apply balanced_print|]. intros _.
  apply balanced_bind; [apply balanced_printExecuteResult|]. intros r. balance.
Qed.
Lemma balanced_at_login {A} s (p : service A) : cli_balanced s (at_login p).
Proof. by apply (balanced_embed (λ X s (e : service_op X) x, Next s)), balanced_free. Qed.
#[export] Hint Resolve balanced_at_login balanced_print balanced_println balanced_reachable balanced_poll balanced_printExecuteResult balanced_print_results : balance.

Lemma balanced_reading lang :
  (∀ alias, cli_balanced nothing_held (showServerPassword lang alias)) ∧
  (∀ alias reveal, cli_balanced nothing_held (showServer lang alias reveal)) ∧
  (∀ alias, cli_balanced nothing_held (testServer lang alias)) ∧ cli_balanced nothing_held listServers.
Proof.
  split_and!.
  - intros alias. unfold showServerPassword. case_match; [balance|]. apply balanced_withReadOnlyVault. intros cfg data. unfold success. balance.
  - intros alias reveal. unfold showServer. case_match; [balance|]. apply balanced_ensure; [balance|]. apply balanced_found; [done|].
    intros cfg. case_match; [|balance]. destruct reveal; [apply balanced_withReadOnlyVault; intros ? ?|]; unfold success; balance.
  - intros alias. unfold testServer. case_match; [balance|]. apply balanced_withReadOnlyVault. intros cfg data. unfold success. balance.
  - unfold listServers. apply balanced_ensure; [balance|]. apply balanced_found; [done|]. intros cfg.
    apply balanced_bind; [apply balanced_each; intros; balance|]. unfold success. balance.
Qed.

Lemma balanced_running lang : cli_balanced nothing_held (unlock lang) ∧ cli_balanced nothing_held (lock lang) ∧
  cli_balanced nothing_held (stop lang) ∧ cli_balanced nothing_held (startLocked lang) ∧ cli_balanced nothing_held (status lang) ∧
  cli_balanced nothing_held runMCP.
Proof. split_and!; unfold unlock, lock, stop, startLocked, status, runMCP, success; balance. Qed.

Lemma balanced_execute lang args : cli_balanced nothing_held (execute lang args).
Proof.
  assert (∀ info, cli_balanced nothing_held (execute_approved lang info)) as Ha.
  { intros info []. intros []; [|done]. refine (safe_bind _ (Held false true) _ _ _ _).
    eapply safe_mono; [|apply (balanced_here (Held false true)), talks_balanced, talks_ConfirmExact].
    intros s r -> []. simpl. destruct r as [[]|]; [|done..]. balance. }
  assert (∀ alias command, cli_balanced nothing_held (execute_one lang alias command)) as Ho.
  { intros alias command. unfold execute_one. apply balanced_ensure; [balance|]. apply balanced_found; [done|]. intros result.
    case_match; [|balance]. case_match; [apply Ha|balance]. }
  unfold execute, executeBatch. case_match; [balance|]. case_match; [unfold success; balance|].
  repeat (case_match; try apply balanced_ret). apply Ho.
Qed.

Lemma balanced_managing lang args : cli_balanced nothing_held (approvalCommand lang args) ∧
  cli_balanced nothing_held (configCommand lang args) ∧ cli_balanced nothing_held (logCommand args).
Proof.
  assert (∀ l, cli_balanced nothing_held (each l println)) by (intros l; apply balanced_each; balance).
  assert (∀ l, cli_balanced nothing_held (each l (λ item, print (approval_line item)))) by (intros l; apply balanced_each; balance).
  assert (∀ cfg, cli_balanced nothing_held (embed (λ X e, Local (Command e)) (saveConfigVerified cfg))).
  { intros cfg. by apply (balanced_embed (λ X, @held_command X)); [|apply balanced_saveConfig]. }
  split_and!.
  - unfold approvalCommand, list_approvals, show_approval, decide_approval, success. balance.
  - unfold configCommand, set_config, success. balance.
  - unfold logCommand, show_log, follow_log, success. balance.
Qed.

Lemma balanced_alone args p : cli_balanced nothing_held p → cli_balanced nothing_held (alone args p).
Proof. intros Hp. unfold alone. balance. Qed.

Lemma balanced_server lang args : cli_balanced nothing_held (server lang args).
Proof.
  destruct (balanced_reading lang) as (Hp & Hs & Ht & Hl). unfold server, on_server.
  destruct args as [|name args]; [done|].
  repeat (case_match; try apply balanced_ret; try apply balanced_alone; try apply balanced_here; auto);
    apply (balanced_server_command lang); constructor.
Qed.

Lemma balanced_serviceCommand lang args : cli_balanced nothing_held (serviceCommand lang args).
Proof.
  destruct (balanced_running lang) as (Hu & _ & Hst & Hsl & Hs & _). unfold serviceCommand, start.
  repeat (case_match; try apply balanced_ret; try apply balanced_at_login; auto). by apply balanced_try.
Qed.

Lemma balanced_on_agents lang args : cli_balanced nothing_held (on_agents lang args).
Proof. apply balanced_bind; [|done]. by apply (balanced_embed (λ X s (e : agent_op X) x, Next s)), balanced_free. Qed.

(** C14: Whatever the arguments are, and whatever is answered to its calls, the command
    line opens the terminal and takes the lock of the files one at a time, uses
    the terminal only while it is open, and ends with the terminal closed and the
    lock released. *)
Theorem Run_gives_back lang args : cli_balanced nothing_held (Run lang args).
Proof.
  destruct (balanced_running lang) as (Hu & Hlk & Hst & Hsl & Hs & Hmcp). destruct (balanced_managing lang (tail args)) as (Ha & Hc & Hlog).
  unfold Run. case_match; [done|]. apply balanced_bind; [by apply balanced_call|]. intros present. case_match; [done|].
  destruct args as [|name args]; [apply balanced_bind; [apply balanced_print|done]|]. unfold dispatch. simpl tail in *.
  repeat (case_match; [try apply balanced_alone; try (apply balanced_bind; [apply balanced_print|done]);
    try apply balanced_here; try (by apply (balanced_embed (λ X, @held_start X)), balanced_daemon);
    auto using balanced_initialize, balanced_recoveryCommand, balanced_server, balanced_serviceCommand, balanced_execute, balanced_on_agents|]);
    [by apply balanced_try|done].
Qed.
