(* ===== verification/AppExec.v ===== *)
(** * Commands on servers, from the command line

    [exec] of [AppCommands]: what the daemon is asked to run, when a command is
    approved, and what the status of the process says; passwords that are shown;
    and the start of a daemon in the background. *)

From S2P Require Import Prelude GoStr Utf8 GoTime Prog Model Service Vault Config OpsLog AppConfig AppVault AppVaultSpec Daemon DaemonStart AppCommands.
Open Scope string_scope.
Open Scope list_scope.

#[export] Instance ExecuteRequest_eq_dec : EqDecision ExecuteRequest.
Proof. solve_decision. Defined.

(** ** A command on a server *)

(** The last answer of the daemon, the last line that was typed, the terminal, and
    what was written to the standard output and error of results. *)
Record running := Running {
  rn_result : option ExecuteResult;
  rn_asked : bool;
  rn_typed : option string;
  rn_terminal : bool;
  rn_stdout : string }.

Definition before : running := Running None false None false "".

(** The approval that the daemon asked for, when what was typed is its code. *)
Definition confirmed (s : running) (r : ApprovedRequest) : bool :=
  match rn_result s with
  | Some held =>
      String.eqb (res_status held) StatusRequiresApproval &&
      match res_approval held with
      | Some info =>
          String.eqb (ar_approval_id r) (ai_id info) && String.eqb (ar_approval_code r) (ai_code info) &&
          bool_decide (trim_space <$> rn_typed s = Some (ai_code info))
      | None => false
      end
  | None => false
  end.

Definition running_command {X} (s : running) (e : app_op X) : X → verdict running :=
  let '(Running r a typed t out) := s in
  match e in app_op X return X → verdict running with
  | EnsureLayout => λ _, Next s
  | OpenTerminal => λ opened, if t then Reject else Next (Running r a typed opened out)
  | CloseTerminal => λ _, if t then Next (Running r a typed false out) else Reject
  | WriteTerminal _ => λ _, if t then Next s else Reject
  | ReadLine => λ line, if t then Next (Running r a line t out) else Reject
  | Stdout text => λ _,
      if bool_decide (res_stdout <$> r = Some text) && str_is_empty out then Next (Running r a typed t text) else Reject
  | _ => λ _, Reject
  end.

Definition running_start {X} (s : running) (e : start_op X) : X → verdict running :=
  match e in start_op X return X → verdict running with Command e => running_command s e | _ => λ _, Reject end.

Definition running_monitor (request : ExecuteRequest) (s : running) (call : io cli_op) : verdict running :=
  let '(Running r a typed t out) := s in
  match call with
  | IO e x =>
      match e in cli_op X return X → verdict running with
      | Local e => running_start s e
      | Stderr _ => λ _, Next s
      | CallExecute r => λ answer,
          if a then Reject
          else if decide (r = request) then Next (Running answer true typed t out) else Reject
      | CallExecuteApproved approved => λ answer,
          if negb t && confirmed s approved then Next (Running answer a None t out) else Reject
      | _ => λ _, Reject
      end x
  end.

Lemma running_printed request result a typed :
  safe (running_monitor request) (Running (Some result) a typed false "") (printExecuteResult result)
    (λ s r, s = Running (Some result) a typed false (res_stdout result) ∧
      (r = Ok tt ↔ res_status result = StatusCompleted ∧ res_exit_code result = 0%Z)).
Proof.
  unfold printExecuteResult. apply safe_bind.
  eapply (safe_mono _ _ _ (λ s _, s = Running (Some result) a typed false (res_stdout result))).
  2: { destruct (str_is_empty (res_stdout result)) eqn:He.
       - destruct (res_stdout result) eqn:Ho; [|done]. simpl. done.
       - intros []. simpl. by rewrite bool_decide_eq_true_2. }
  intros s [] ->. apply safe_bind. eapply (safe_mono _ _ _ (λ s _, s = Running (Some result) a typed false (res_stdout result))).
  2: { destruct (str_is_empty (res_stderr result)); [done|]. by intros []. }
  intros s [] ->. destruct (String.eqb_spec (res_status result) StatusCompleted) as [Hc|Hc]; simpl.
  2: { split; [done|]. by split; [|intros [? _]]. }
  destruct (Z.eqb_spec (res_exit_code result) 0) as [H0|H0]; simpl; (split; [done|]); split; try done; by intros [_ ?].
Qed.

(** C13: A command is sent to the daemon once; it runs as approved only when the daemon
    asked for the approval and the code the daemon gave was typed at the terminal,
    which is closed again; the output of the result is written once, and success is
    reported exactly when the last result is of a command that ended with status
    0. *)
Theorem execute_runs_what_was_asked lang alias command :
  safe (running_monitor (execute_request alias command)) before (execute_one lang alias command)
    (λ s r, rn_terminal s = false ∧
      (rn_stdout s = "" ∨ res_stdout <$> rn_result s = Some (rn_stdout s)) ∧
      (r = Ok tt ↔ ∃ result, rn_result s = Some result ∧ res_status result = StatusCompleted ∧ res_exit_code result = 0%Z ∧
         rn_stdout s = res_stdout result)).
Proof.
  set (request := execute_request alias command).
  assert (∀ result a typed, safe (running_monitor request) (Running (Some result) a typed false "") (printExecuteResult result)
    (λ s r, rn_terminal s = false ∧ (rn_stdout s = "" ∨ res_stdout <$> rn_result s = Some (rn_stdout s)) ∧
      (r = Ok tt ↔ ∃ result, rn_result s = Some result ∧ res_status result = StatusCompleted ∧ res_exit_code result = 0%Z ∧
         rn_stdout s = res_stdout result))) as Hprint.
  { intros result a typed. eapply safe_mono; [|apply running_printed]. intros s r [-> Hr]. simpl. split_and!; [done|by right|].
    rewrite Hr. split; [intros [? ?]; by exists result|]. by intros (? & [= <-] & ? & ? & _). }
  intros []; [|split_and!; [done|by left|by split; [|intros (? & ? & _)]]].
  assert (∀ s e, rn_terminal s = false → rn_stdout s = "" → (∀ result, rn_result s = Some result → res_status result ≠ StatusCompleted) →
    rn_terminal s = false ∧ (rn_stdout s = "" ∨ res_stdout <$> rn_result s = Some (rn_stdout s)) ∧
      (Fail e = (Ok tt : outcome) ↔ ∃ result, rn_result s = Some result ∧ res_status result = StatusCompleted ∧
         res_exit_code result = 0%Z ∧ rn_stdout s = res_stdout result)) as Hfail.
  { intros s e Ht Ho Hr. split_and!; [done|by left|]. split; [done|]. intros (result & H1 & H2 & _). by destruct (Hr result). }
  intros answer. assert (running_monitor request before (IO (CallExecute request) answer) = Next (Running answer true None false "")) as Hcall.
  { simpl. by rewrite decide_True. }
  fold request. rewrite Hcall. destruct answer as [result|]; [|by apply Hfail]. unfold prog_mbind. cbn [prog_bind].
  destruct (String.eqb_spec (res_status result) StatusRequiresApproval) as [Hs|]; [|apply Hprint].
  assert (res_status result ≠ StatusCompleted) as Hnc by (by rewrite Hs).
  destruct (res_approval result) as [info|] eqn:Hinfo; [|by apply Hfail; [..|intros ? [= <-]]].
  intros []. intros []; [|by apply Hfail; [..|intros ? [= <-]]].
  intros []; [|by intros []; apply Hfail; [..|intros ? [= <-]]].
  intros [line|]; [|by intros []; apply Hfail; [..|intros ? [= <-]]].
  intros []. cbn match.
  destruct (String.eqb_spec (trim_space line) (ai_code info)) as [Hcode|]; [|by apply Hfail; [..|intros ? [= <-]]].
  intros answer. set (s1 := Running (Some result) true (Some line) false "").
  assert (running_monitor request s1 (IO (CallExecuteApproved {| ar_approval_id := ai_id info; ar_approval_code := ai_code info |}) answer)
    = Next (Running answer true None false "")) as Hgo.
  { simpl. unfold confirmed. simpl. by rewrite Hs, Hinfo, !String.eqb_refl, bool_decide_eq_true_2 by (by simpl; f_equal). }
  rewrite Hgo. destruct answer as [approved|]; [|by apply Hfail]. apply Hprint.
Qed.

(** A batch that the daemon refuses as a whole comes back with an error and no
    results, and the command line prints nothing and succeeds: whatever happens in
    the daemon, [exec --all] of a blank command does. *)
Theorem refused_batch_succeeds `{Redaction.OutputRedactor} service lang command (blank : trim_space command = "") :
  ∃ request refused, batch_request ["--all"; "--"; command] = Some request ∧
    traced (ExecuteBatch service request) (λ _ r, r = inl refused) ∧ bres_error refused = Some ErrValidation ∧
    runs (execute lang ["--all"; "--"; command])
      [IO (Local (Command EnsureLayout)) true; IO (CallExecuteBatch request) (Some refused)] (Ok tt) ∧
    exit_status "" (Ok tt) = (None, 0%Z).
Proof.
  eexists _, (batch_failed Model.StatusFailed ErrValidation). split; [done|]. split_and!; [|done| |done].
  - apply traced_call. intros failed. cbn [br_command]. rewrite blank. destruct failed; by apply traced_ret.
  - exists true. eexists. split; [done|]. exists (Some (batch_failed Model.StatusFailed ErrValidation)), []. by split.
Qed.

(** ** A password that is shown *)

(** What was loaded, and what was written last to the terminal, with its answer. *)
Record shown := Shown { sh_data : option Data; sh_last : option (string * bool) }.

Definition shown_monitor (s : shown) (call : io cli_op) : verdict shown :=
  match call with
  | IO e x =>
      match e in cli_op X return X → verdict shown with
      | Local e => λ x,
          match e in start_op X return X → verdict shown with
          | Command e => λ x,
              match e in app_op X return X → verdict shown with
              | EnsureLayout | ConfigLoad | OpenTerminal | CloseTerminal | ReadPassword => λ _, Next s
              | Wipe _ | WipeData _ => λ _, Next s
              | VaultLoad MainVault _ => λ data, if bool_decide (sh_data s = None) then Next (Shown data None) else Reject
              | WriteTerminal text => λ ok, Next (Shown (sh_data s) (Some (text, ok)))
              | _ => λ _, Reject
              end x
          | _ => λ _, Reject
          end x
      | _ => λ _, Reject
      end x
  end.

Definition unread : shown := Shown None None.

Definition prompts {X} (e : app_op X) : bool := match e with WriteTerminal _ | ReadPassword | Wipe _ => true | _ => false end.

Lemma prompts_ReadSecret prompt : only (@prompts) (ReadSecret prompt).
Proof.
  unfold ReadSecret, readSecretValue. apply only_bind; [|by intros []]. split; [done|]. intros []; [|done]. split; [done|].
  intros secret. split; [done|]. intros ended. destruct secret; [|done]. by destruct ended.
Qed.

Lemma shown_here {A} (s : shown) (p : fallible A) : only (@prompts) p →
  safe shown_monitor s (here p) (λ s' _, sh_data s' = sh_data s).
Proof.
  intros Hp. apply safe_bind. revert s. induction p as [r|X e k IH]; intros s; [done|]. destruct Hp as [He Hk]. intros x.
  specialize (IH x (Hk x)). destruct e; try done; simpl; apply IH.
Qed.

Lemma shown_deferred {A} s (p : cli A) (call : cli_op unit) (Q : shown → A → Prop) :
  (∀ s, shown_monitor s (IO call tt) = Next s) → safe shown_monitor s p Q → safe shown_monitor s (deferred p call) Q.
Proof. intros Hc Hp. apply safe_bind. eapply safe_mono; [|exact Hp]. intros s' a HQ []. by rewrite Hc. Qed.

Lemma shown_withReadOnlyVault lang operation (Q : shown → outcome → Prop) :
  (∀ s e, sh_data s = None → Q s (Fail e)) →
  (∀ cfg data, safe shown_monitor (Shown (Some data) None) (operation cfg data) Q) →
  safe shown_monitor unread (withReadOnlyVault lang operation) Q.
Proof.
  intros Hfail Ho []; [|by apply Hfail]. intros [cfg|]; [|by apply Hfail]. intros []; [|by apply Hfail].
  apply shown_deferred; [done|]. apply safe_bind. eapply safe_mono; [|apply (shown_here unread), prompts_ReadSecret].
  intros s [master|e] Hs; [|by apply Hfail]. apply shown_deferred; [done|]. intros data.
  assert (shown_monitor s (IO (Local (Command (VaultLoad MainVault master))) data) = Next (Shown data None)) as Hload.
  { simpl. by rewrite Hs. }
  rewrite Hload. destruct data as [data|]; [|by apply Hfail]. by apply (shown_deferred (Shown (Some data) None)).
Qed.

(** C21: Showing the password of a server reads the configuration and the vault, and
    writes at the terminal only, never to the standard output: it succeeds exactly
    when the vault opened, the server has a password, and the last thing that was
    written is the line with it, whole. *)
Theorem password_shown_at_the_terminal lang alias :
  safe shown_monitor unread (showServerPassword lang alias) (λ s r,
    r = Ok tt ↔ ∃ data secret, sh_data s = Some data ∧ secrets_of data !! alias = Some secret ∧
      EffectiveAuthMethod secret = AuthMethodPassword ∧ ss_password secret ≠ "" ∧ validAlias alias = true ∧
      sh_last s = Some (password_line lang alias (ss_password secret), true)).
Proof.
  unfold showServerPassword. destruct (validAlias alias) eqn:Ha; simpl; [|by split; [|intros (? & ? & ? & _)]].
  apply shown_withReadOnlyVault; [intros s e Hs; split; [done|intros (? & ? & ? & _); congruence]|]. intros cfg data.
  destruct (secrets_of data !! alias) as [secret|] eqn:Hsec; [|split; [done|intros (? & ? & [= <-] & ? & _); congruence]].
  destruct (_ || _) eqn:Hm.
  - split; [done|]. intros (? & ? & [= <-] & [= <-]%(eq_trans (eq_sym Hsec)) & Hp & Hn & _).
    rewrite Hp, String.eqb_refl in Hm. by destruct (ss_password secret).
  - bool_hyps. intros []; simpl.
    + split; [intros _|done]. exists data, secret. split_and!; try done. by destruct (ss_password secret).
    + split; [done|]. by intros (? & ? & [= <-] & _ & _ & _ & _ & [=]).
Qed.

(** ** Starting in the background *)

(** The clock, which [Sleep] moves by at least what was asked. *)
Definition clock_acts (X : Type) (now : Z) (e : cli_op X) : X → option Z :=
  match e in cli_op X return X → option Z with
  | Local e => λ x, match e in start_op X return X → option Z with
                    | TimeNow => λ t : Z, if (now <=? t)%Z then Some t else None
                    | _ => λ _, Some now
                    end x
  | Sleep d => λ _, Some (now + d)%Z
  | _ => λ _, Some now
  end.

Abbreviation clock_keeps := (world_keeps clock_acts (λ _, True)).

Lemma poll_ends fuel now deadline : (deadline - now ≤ poll_interval * Z.of_nat fuel)%Z →
  clock_keeps now (poll (S fuel) deadline) (λ _ r, is_Some r).
Proof.
  revert now. induction fuel as [|fuel IH]; intros now Hd; cbn [poll]; apply (keeps_bind (λ _, True)); intros t w Ha;
    cbn [clock_acts] in Ha; destruct (Z.leb_spec now t); simplify_eq; (split; [done|]); cbn [world_keeps].
  - rewrite (proj2 (Z.ltb_ge _ _)) by lia. by eexists.
  - destruct (w <? deadline)%Z; [|by eexists]. apply (keeps_bind (λ _, True)). unfold daemonReachable.
    apply (keeps_bind (λ _, True)). intros status w1 [= <-]. split; [done|]. cbn [world_keeps].
    destruct (match status with Some s => _ | None => _ end); [by eexists|].
    apply (keeps_bind (λ _, True)). intros [] w2 [= <-]. split; [done|]. cbn [world_keeps].
    apply IH. unfold poll_interval in *. lia.
Qed.

(** The start in the background ends: when [Sleep] sleeps and the clock does not
    go back, the polls see the deadline before their fuel is out. *)
Theorem startLocked_polls_enough now fuel : (poll_fuel ≤ fuel)%nat →
  clock_keeps now (poll fuel (now + poll_time)%Z) (λ _ r, is_Some r).
Proof.
  intros Hf. destruct fuel as [|fuel]; [unfold poll_fuel in Hf; lia|]. apply poll_ends.
  unfold poll_fuel, poll_time, poll_interval, second in *. lia.
Qed.
