(* ===== verification/AppTyped.v ===== *)
(** * The configuration file keeps its type

    The commands of [AppCommands] and the requests to the daemon of [Daemon] run
    side by side on the files of [AppVaultSpec], each call at any moment; they
    fail, and die, anywhere.  A program [saves_typed] when it saves only
    configurations that every reader accepts ([config_typed] of [AppConfig]),
    provided that those it loaded are; then the file never holds another. *)

From S2P Require Import Prelude GoStr Utf8 GoTime Prog Model Service Vault Config OpsLog AppConfig AppVault AppVaultSpec AppServers Daemon DaemonStart Agent LocalFiles AppCommands.
Open Scope string_scope.
Open Scope list_scope.

(** ** Programs that save what can be read *)

(** What a call asks of its caller, and what the caller may rely on. *)
Definition call_typed {X} (e : app_op X) : Prop := match e with ConfigSave cfg => config_typed cfg | _ => True end.

Definition answer_typed {X} (e : app_op X) : X → Prop :=
  match e in app_op X return X → Prop with
  | ConfigLoad => λ r, match r with Some cfg => config_typed cfg | None => True end
  | _ => λ _, True
  end.

Section saves.
Context {E : Type → Type} (app_call : ∀ X, E X → option (app_op X)).

(** Every configuration that the program saves is typed, as long as those it
    loads are. *)
Fixpoint saves_typed {R} (p : prog E R) : Prop :=
  match p with
  | Ret _ => True
  | Vis e k =>
      match app_call _ e with Some e => call_typed e | None => True end ∧
      ∀ x, match app_call _ e with Some e => answer_typed e x | None => True end → saves_typed (k x)
  end.

Definition never_saves {X} (e : E X) : bool := match app_call X e with Some (ConfigSave _) => false | _ => true end.

Lemma saves_typed_bind {A B} (p : prog E A) (f : A → prog E B) : saves_typed p → (∀ a, saves_typed (f a)) → saves_typed (p ≫= f).
Proof.
  unfold mbind, prog_mbind. intros Hp Hf. induction p as [a|X e k IH]; simpl in *; [by apply Hf|].
  destruct Hp as [He Hk]. split; [done|]. intros x Hx. by apply IH, Hk.
Qed.

(** A first part that saves nothing, and what it can return. *)
Lemma saves_typed_after {A B} (p : prog E A) (f : A → prog E B) : only (@never_saves) p →
  (∀ tr a, runs p tr a → saves_typed (f a)) → saves_typed (p ≫= f).
Proof.
  unfold mbind, prog_mbind. intros Hp Hf. induction p as [a|X e k IH]; simpl in *; [by apply (Hf [])|].
  destruct Hp as [He Hk]. split.
  - unfold never_saves in He. destruct (app_call X e) as [[]|]; done.
  - intros x _. apply IH; [done|]. intros tr a Hr. apply (Hf (IO e x :: tr)). by exists x, tr.
Qed.

Lemma saves_typed_only {R} (p : prog E R) : only (@never_saves) p → saves_typed p.
Proof.
  intros Hp. induction p as [r|X e k IH]; simpl in *; [done|]. destruct Hp as [He Hk]. split; [|intros x _; by apply IH].
  unfold never_saves in He. destruct (app_call X e) as [[]|]; done.
Qed.

Lemma saves_typed_call {X} (e : E X) : never_saves e = true → saves_typed (trigger e).
Proof. intros He. apply saves_typed_only. by split. Qed.

Lemma saves_typed_try {Err A B} (p : prog E (result Err A)) (k : A → prog E (result Err B)) :
  saves_typed p → (∀ a, saves_typed (k a)) → saves_typed (try p k).
Proof. intros Hp Hk. apply saves_typed_bind; [done|]. by intros []. Qed.

Lemma saves_typed_ensure {Err A} (p : prog E bool) (e : Err) (k : prog E (result Err A)) :
  saves_typed p → saves_typed k → saves_typed (ensure p e k).
Proof. intros Hp Hk. apply saves_typed_bind; [done|]. by intros []. Qed.

Lemma saves_typed_found {Err X A} (p : E (option X)) (e : Err) (k : X → prog E (result Err A)) :
  never_saves p = true → (∀ x, saves_typed (k x)) → saves_typed (found p e k).
Proof. intros Hp Hk. apply saves_typed_bind; [by apply saves_typed_call|]. by intros []. Qed.

Lemma saves_typed_deferred {A} (p : prog E A) (call : E unit) :
  never_saves call = true → saves_typed p → saves_typed (deferred p call).
Proof. intros Hc Hp. apply saves_typed_bind; [done|]. intros a. apply saves_typed_bind; [by apply saves_typed_call|done]. Qed.

(** A configuration that is loaded. *)
Lemma saves_typed_loaded {A} (load : E (option Config)) (k : option Config → prog E A) :
  app_call _ load = Some ConfigLoad → (∀ r, (∀ cfg, r = Some cfg → config_typed cfg) → saves_typed (k r)) →
  saves_typed (trigger load ≫= k).
Proof. intros Hl Hk. cbn. rewrite Hl. split; [done|]. intros r Hr. apply Hk. by intros cfg ->. Qed.
End saves.

(** The files as a command, a starting daemon and a request of it see them. *)
Definition app_itself (X : Type) (e : app_op X) : option (app_op X) := Some e.

Definition start_app (X : Type) (e : start_op X) : option (app_op X) :=
  match e in start_op X return option (app_op X) with Command e => Some e | _ => None end.

Definition cli_app (X : Type) (e : cli_op X) : option (app_op X) :=
  match e in cli_op X return option (app_op X) with Local e => start_app _ e | _ => None end.

Definition daemon_app (X : Type) (e : daemon_op X) : option (app_op X) :=
  match e in daemon_op X return option (app_op X) with OnApp e => Some e | _ => None end.

Lemma saves_typed_embed {E F : Type → Type} (ac : ∀ X, E X → option (app_op X)) (ac' : ∀ X, F X → option (app_op X))
    (inside : ∀ X, E X → F X) {R} (p : prog E R) :
  (∀ X e, ac' X (inside X e) = ac X e) → saves_typed ac p → saves_typed ac' (embed inside p).
Proof.
  intros Hi. induction p as [r|X e k IH]; simpl; [done|]. rewrite Hi. intros [He Hk]. split; [done|].
  intros x Hx. by apply IH, Hk.
Qed.

Abbreviation app_saves := (saves_typed app_itself).
Abbreviation start_saves := (saves_typed start_app).
Abbreviation cli_saves := (saves_typed cli_app).
Abbreviation request_saves := (saves_typed daemon_app).

Create HintDb saves.

Ltac settle := repeat first
  [ done
  | solve [auto with saves nocore]
  | apply saves_typed_try; [|intros ?]
  | apply saves_typed_ensure
  | apply saves_typed_found; [done|intros ?]
  | apply saves_typed_deferred; [done|]
  | apply saves_typed_call; done
  | apply saves_typed_bind; [|intros ?]
  | progress intros
  | progress cbv zeta
  | case_match ].

Lemma saves_here {A} (p : fallible A) : app_saves p → cli_saves (here p).
Proof. intros Hp. apply saves_typed_bind; [|done]. by apply (saves_typed_embed app_itself). Qed.

Lemma saves_talks {R} (p : app R) : talks p → app_saves p.
Proof. intros Hp. apply saves_typed_only. induction p as [r|X e k IH]; [done|]. destruct Hp as [He Hk]. split; [by destruct e|auto]. Qed.

Lemma saves_talks_here {R} (p : fallible R) : talks p → cli_saves (here p).
Proof. intros Hp. by apply saves_here, saves_talks. Qed.

#[export] Hint Extern 2 (saves_typed app_itself _) => (apply saves_talks; solve [auto with talk nocore]) : saves.
#[export] Hint Extern 2 (saves_typed cli_app (here _)) => (apply saves_talks_here; solve [auto with talk nocore]) : saves.

(** ** The commands that write the files *)

Lemma saves_saveConfig cfg : config_typed cfg → app_saves (saveConfigVerified cfg).
Proof. intros Ht. split; [done|]. intros [|?] _; settle. Qed.

Lemma saves_saveVault v master data : app_saves (saveVaultVerified v master data).
Proof. unfold saveVaultVerified. settle. Qed.

Lemma saves_default : app_saves (saveConfigVerified defaultConfig).
Proof. apply saves_saveConfig, defaultConfig_typed. Qed.
#[export] Hint Resolve saves_saveVault saves_default : saves.

Lemma saves_new_master {A} prompt confirm (k : string → fallible A) : (∀ master, app_saves (k master)) → app_saves (read_new_master prompt confirm k).
Proof. intros Hk. unfold read_new_master. settle. Qed.

Lemma saves_initialize lang : app_saves (initialize lang).
Proof.
  unfold initialize, initialized. apply saves_typed_ensure; [settle|]. apply saves_typed_bind; [settle|]. intros []; [done|].
  apply saves_typed_bind; [settle|]. intros [e|]; [done|]. apply saves_typed_deferred; [done|]. apply saves_typed_bind; [settle|].
  intros []; [done|]. apply saves_typed_ensure; [settle|]. apply saves_typed_deferred; [done|]. apply saves_new_master.
  intros master. unfold initialize_files. settle.
Qed.

Lemma saves_commit original master cfg data : config_typed original → config_typed cfg → app_saves (commit original master cfg data).
Proof.
  intros Ho Hc. unfold commit. apply saves_typed_ensure; [by apply saves_saveConfig, normalizedConfig_typed|].
  apply saves_typed_bind; [settle|]. intros []; cbn [negb]; [settle|].
  apply saves_typed_bind; [by apply saves_saveConfig|done].
Qed.

(** A mutation changes the servers of the configuration alone. *)
Lemma change_servers lang cfg data cfg' data' tr : change lang cfg data cfg' data' tr → ∃ servers, cfg' = AppConfig.with_servers cfg servers.
Proof. by destruct 1 as [? ? [= -> ->]|? ? ? [= -> ->]|? [= -> ->]]; eexists. Qed.

Lemma saves_with_master lang mutate cfg master : changes lang mutate → config_typed cfg → app_saves (with_master mutate cfg master).
Proof.
  intros [Ht Hch] Hc. unfold with_master. apply saves_typed_found; [done|]. intros data. cbv zeta.
  apply saves_typed_after.
  - pose proof (Ht cfg (some_servers data)) as Hm. induction (mutate cfg (some_servers data)) as [r|X e k IH]; [done|].
    destruct Hm as [He Hk]. split; [by destruct e|auto].
  - intros tr [[[cfg' data'] alias]|e] Hr; [|settle].
    apply Hch, change_servers in Hr as [servers ->]. do 2 (apply saves_typed_deferred; [done|]).
    apply saves_typed_try; [|settle]. apply saves_commit; by apply with_servers_typed.
Qed.

Lemma saves_withUnlockedVault lang mutate : changes lang mutate → app_saves (withUnlockedVault lang mutate).
Proof.
  intros Hm. unfold withUnlockedVault. apply saves_typed_ensure; [settle|]. apply saves_typed_bind; [settle|]. intros [e|]; [done|].
  apply saves_typed_deferred; [done|]. unfold requireDaemonStopped. apply saves_typed_bind; [settle|].
  assert (app_saves (found ConfigLoad ErrNotInitialized (λ cfg,
    let cfg := normalizedConfig cfg None in
    ensure (trigger OpenTerminal) ErrNoTerminal
      (deferred (try (ReadSecret (master_prompt lang)) (λ master, deferred (with_master mutate cfg master) (Wipe master))) CloseTerminal)))) as Hload.
  { apply saves_typed_loaded; [done|]. intros [cfg|] Hcfg; [|done]. cbv zeta. apply saves_typed_ensure; [settle|].
    apply saves_typed_deferred; [done|]. apply saves_typed_try; [settle|]. intros master. apply saves_typed_deferred; [done|].
    by eapply saves_with_master, normalizedConfig_typed, Hcfg. }
  by intros [[]| |].
Qed.

Lemma saves_server_command lang p : server_command lang p → app_saves p.
Proof.
  intros [(? & ->)|(mutate & english & chinese & Hm & ->)]%server_command_is; [done|].
  apply saves_typed_try; [by apply saves_withUnlockedVault|]. settle.
Qed.

Lemma saves_archive {A} (present : app bool) (rename : app_op bool) (k : fallible A) :
  app_saves present → never_saves app_itself rename = true → app_saves k → app_saves (archive present rename k).
Proof. intros Hp Hr Hk. unfold archive. apply saves_typed_bind; [done|]. intros []; [|done]. apply saves_typed_ensure; [by apply saves_typed_call|done]. Qed.

Lemma saves_recoveryCommand lang args : app_saves (recoveryCommand lang args).
Proof.
  assert (app_saves (recovery_reset lang)) as Hreset.
  { unfold recovery_reset. apply saves_typed_try; [settle|]. intros []; [|done]. cbn [negb]. apply saves_new_master. intros master.
    do 3 (apply saves_archive; [by apply saves_typed_call|done|]). settle. }
  assert (app_saves (recovery_enable lang)) as Henable.
  { unfold recovery_enable, printRecoveryCode. settle. }
  assert (app_saves (recovery_restore lang)) as Hrestore.
  { unfold recovery_restore. apply saves_typed_ensure; [settle|]. apply saves_typed_try; [settle|]. intros code.
    apply saves_typed_deferred; [done|]. case_match; [|done]. apply saves_typed_deferred; [done|]. apply saves_typed_found; [done|].
    intros data. case_match; [settle|]. apply saves_typed_deferred; [done|]. apply saves_new_master. settle. }
  unfold recoveryCommand. destruct args as [|mode [|? ?]]; try done. case_match; [|done].
  apply saves_typed_ensure; [settle|]. unfold requireDaemonStopped. apply saves_typed_bind; [settle|].
  intros [[]| |]; try done; (apply saves_typed_ensure; [settle|]; apply saves_typed_deferred; [done|]);
    destruct (String.eqb mode "reset"), (String.eqb mode "enable"); done.
Qed.

(** ** The daemon *)

Lemma saves_daemon lang unlockAtStart : start_saves (daemon lang unlockAtStart).
Proof.
  apply saves_typed_only. unfold daemon, newService, unlocking_first.
  assert (∀ prompt, only (@never_saves _ start_app) (DaemonStart.command (ReadSecret prompt))) as Hread.
  { intros prompt. refine (only_embed _ (@talking) _ _ _ (talks_ReadSecret prompt)). by intros X []. }
  repeat first [done | apply only_bind; [|intros ?] | split; [done|intros ?] | apply Hread | case_match | progress cbv zeta].
Qed.

Lemma saves_saveConfig_request cfg : config_typed cfg → request_saves (on_app (saveConfigVerified cfg)).
Proof. intros Hc. apply (saves_typed_embed app_itself); [done|]. by apply saves_saveConfig. Qed.

Lemma saves_availability aliases : request_saves (availability aliases).
Proof. induction aliases as [|alias aliases IH]; [done|]. cbn [availability]. settle. Qed.

Lemma saves_serve r : request_saves (serve r).
Proof.
  destruct r as [| |master|key value]; [unfold serve, Lock; settle|unfold serve, Stop; settle|..]; cbn [serve].
  - unfold Unlock. apply saves_typed_bind; [settle|]. intros [data|]; [|done]. apply saves_typed_bind; [settle|]. intros held.
    apply saves_typed_bind; [|settle]. unfold unlock_loaded. apply saves_typed_loaded; [done|]. intros [cfg|] Hcfg; [|done].
    case_match; [done|]. cbv zeta. apply saves_typed_bind; [by apply saves_saveConfig_request, normalizedConfig_typed, Hcfg|].
    intros []; cbn [negb]; [|done]. unfold available_servers. settle. apply saves_availability.
  - unfold Configure. apply saves_typed_loaded; [done|]. intros [cfg|] Hcfg; [|done].
    destruct (set_setting daemon_level cfg key value) as [latest|] eqn:Hset; [|done].
    apply saves_typed_bind.
    { eapply saves_saveConfig_request, set_setting_typed, Hset; [exact daemon_level_known|by apply Hcfg]. }
    intros []; cbn [negb]; settle.
Qed.

(** ** The command line *)

Lemma saves_each {A} (l : list A) (f : A → cli unit) : (∀ x, cli_saves (f x)) → cli_saves (each l f).
Proof. intros Hf. induction l as [|x l IH]; [done|]. by apply saves_typed_bind. Qed.

Lemma saves_print text : cli_saves (print text).
Proof. by apply saves_typed_call. Qed.
Lemma saves_println text : cli_saves (println text).
Proof. apply saves_print. Qed.
Lemma saves_reachable : cli_saves daemonReachable.
Proof. unfold daemonReachable. settle. Qed.
Lemma saves_poll fuel deadline : cli_saves (poll fuel deadline).
Proof.
  induction fuel as [|fuel IH]; [done|]. cbn [poll]. apply saves_typed_bind; [settle|]. intros now. destruct (_ <? _)%Z; [|done].
  apply saves_typed_bind; [apply saves_reachable|]. intros []; [done|]. apply saves_typed_bind; [settle|]. intros []. exact IH.
Qed.
Lemma saves_printExecuteResult result : cli_saves (printExecuteResult result).
Proof. unfold printExecuteResult, success. settle. Qed.
Lemma saves_print_results results : cli_saves (print_results results).
Proof.
  induction results as [|one results IH]; [done|]. apply saves_typed_bind; [apply saves_print|]. intros _.
  apply saves_typed_bind; [apply saves_printExecuteResult|]. intros r. settle.
Qed.
Lemma saves_at_login {A} (p : service A) : cli_saves (at_login p).
Proof. apply (saves_typed_embed (λ _ _, None)); [done|]. induction p as [r|X e k IH]; [done|]. by split. Qed.
#[export] Hint Resolve saves_at_login saves_print saves_println saves_reachable saves_poll saves_printExecuteResult saves_print_results : saves.
#[export] Hint Extern 1 (saves_typed cli_app (each _ _)) => (apply saves_each; intros ?; auto with saves nocore) : saves.

Lemma saves_withReadOnlyVault lang operation : (∀ cfg data, cli_saves (operation cfg data)) → cli_saves (withReadOnlyVault lang operation).
Proof. intros Ho. unfold withReadOnlyVault. settle. Qed.

Lemma saves_reading lang : (∀ alias, cli_saves (showServerPassword lang alias)) ∧ (∀ alias reveal, cli_saves (showServer lang alias reveal)) ∧
  (∀ alias, cli_saves (testServer lang alias)) ∧ cli_saves listServers.
Proof.
  split_and!.
  - intros alias. unfold showServerPassword. case_match; [done|]. apply saves_withReadOnlyVault. intros cfg data. unfold success. settle.
  - intros alias reveal. unfold showServer. case_match; [done|]. apply saves_typed_ensure; [settle|]. apply saves_typed_found; [done|].
    intros cfg. case_match; [|done]. destruct reveal; [apply saves_withReadOnlyVault; intros ? ?|]; unfold success; settle.
  - intros alias. unfold testServer. case_match; [done|]. apply saves_withReadOnlyVault. intros cfg data. unfold success. settle.
  - unfold listServers. apply saves_typed_ensure; [settle|]. apply saves_typed_found; [done|]. intros cfg. unfold success. settle.
Qed.

Lemma saves_running lang : cli_saves (unlock lang) ∧ cli_saves (lock lang) ∧ cli_saves (stop lang) ∧
  cli_saves (startLocked lang) ∧ cli_saves (status lang) ∧ cli_saves runMCP.
Proof. split_and!; unfold unlock, lock, stop, startLocked, status, runMCP, success; settle. Qed.

Lemma saves_execute lang args : cli_saves (execute lang args).
Proof.
  assert (∀ alias command, cli_saves (execute_one lang alias command)) as Ho.
  { intros alias command. unfold execute_one, execute_approved. settle. }
  unfold execute, executeBatch. case_match; [done|]. case_match; [unfold success; settle|].
  repeat (case_match; try (by auto)).
Qed.

(** [config set]: what the command line knows of the levels a daemon knows too. *)
Lemma saves_configCommand lang args : cli_saves (configCommand lang args).
Proof.
  unfold configCommand. apply saves_typed_ensure; [settle|]. apply saves_typed_loaded; [done|]. intros [cfg|] Hcfg; [|done].
  destruct args as [|name [|key [|value [|? ?]]]]; try done; [unfold success; settle|].
  destruct (String.eqb name "set"); [|done]. unfold set_config.
  destruct (set_setting command_level cfg key value) as [cfg'|] eqn:Hset; [|done].
  apply saves_typed_bind; [settle|]. intros running. apply saves_typed_ensure; [|unfold success; settle].
  destruct running; [settle|]. apply (saves_typed_embed app_itself); [done|].
  eapply saves_saveConfig, set_setting_typed, Hset; [exact command_level_known|by apply Hcfg].
Qed.

Lemma saves_managing lang args : cli_saves (approvalCommand lang args) ∧ cli_saves (logCommand args).
Proof.
  split; [unfold approvalCommand, list_approvals, show_approval, decide_approval|unfold logCommand, show_log, follow_log]; unfold success; settle.
Qed.

Lemma saves_alone args p : cli_saves p → cli_saves (alone args p).
Proof. intros Hp. unfold alone. settle. Qed.

Lemma saves_server lang args : cli_saves (server lang args).
Proof.
  destruct (saves_reading lang) as (Hp & Hs & Ht & Hl). unfold server, on_server.
  destruct args as [|name args]; [done|].
  repeat (case_match; try done; try apply saves_alone; try apply saves_here; auto);
    apply (saves_server_command lang); constructor.
Qed.

Lemma saves_serviceCommand lang args : cli_saves (serviceCommand lang args).
Proof.
  destruct (saves_running lang) as (Hu & _ & Hst & Hsl & Hs & _). unfold serviceCommand, start.
  repeat (case_match; try done; try apply saves_at_login; auto). by apply saves_typed_try.
Qed.

Lemma saves_on_agents lang args : cli_saves (on_agents lang args).
Proof.
  apply saves_typed_bind; [|done]. apply (saves_typed_embed (λ _ _, None)); [done|].
  induction (agentCommand lang args) as [r|X e k IH]; [done|]. by split.
Qed.

Lemma saves_Run lang args : cli_saves (Run lang args).
Proof.
  destruct (saves_running lang) as (Hu & Hlk & Hst & Hsl & Hs & Hmcp). destruct (saves_managing lang (tail args)) as (Ha & Hlog).
  unfold Run. case_match; [done|]. apply saves_typed_bind; [settle|]. intros present. case_match; [done|].
  destruct args as [|name args]; [apply saves_typed_bind; [apply saves_print|done]|]. unfold dispatch. simpl tail in *.
  repeat (case_match; [try apply saves_alone; try (apply saves_typed_bind; [apply saves_print|done]);
    try apply saves_here; try (by apply (saves_typed_embed start_app), saves_daemon);
    auto using saves_initialize, saves_recoveryCommand, saves_server, saves_serviceCommand, saves_execute, saves_on_agents, saves_configCommand|]);
    [by apply saves_typed_try|done].
Qed.

(** ** Processes on the same files *)

Inductive process_op : Type → Type :=
| ByCommand {X : Type} (e : cli_op X) : process_op X
| ByDaemon {X : Type} (e : daemon_op X) : process_op X.

Inductive process :=
| CommandLine (lang : language) (args : list string)
| DaemonRequest (r : request).

Definition program (p : process) : prog process_op unit :=
  match p with
  | CommandLine lang args => _ ← embed (λ X, @ByCommand X) (Run lang args); Ret tt
  | DaemonRequest r => _ ← embed (λ X, @ByDaemon X) (serve r); Ret tt
  end.

Definition process_app (X : Type) (e : process_op X) : option (app_op X) :=
  match e in process_op X return option (app_op X) with ByCommand e => cli_app _ e | ByDaemon e => daemon_app _ e end.

(** Only the calls of [AppVault] are on the files. *)
Definition process_acts (_ : nat) (X : Type) (w : files) (e : process_op X) (x : X) : option files :=
  match process_app X e with Some e => acts w e x | None => Some w end.

(** One that dies leaves the files as they are. *)
Definition process_dies (_ : nat) (w : files) : files := w.

Abbreviation processes := (Prog.system process_op files nat _ _ unit).
Abbreviation process_step := (system_step process_acts process_dies).

Definition begun (w : files) (ps : gmap nat process) : processes := System w (program <$> ps) ∅.

Definition file_typed (w : files) : Prop := ∀ cfg, fs_config w = Some cfg → config_typed cfg.

Lemma saves_program p : saves_typed process_app (program p).
Proof.
  destruct p as [lang args|r]; (apply saves_typed_bind; [|done]).
  - by apply (saves_typed_embed cli_app), saves_Run.
  - by apply (saves_typed_embed daemon_app), saves_serve.
Qed.

(** A call keeps the type of the file, and answers with what has it. *)
Lemma acts_typed {X} w (e : app_op X) x w' : file_typed w → call_typed e → acts w e x = Some w' → file_typed w' ∧ answer_typed e x.
Proof.
  unfold file_typed. intros Hw He Ha.
  destruct e; simpl in *; repeat case_match; simplify_option_eq; simpl in *; try done;
    try (split; [|done]); try (by auto); intros cfg' H'.
  all: repeat match goal with a : save_answer |- _ => destruct a as [|[]] | v : vault_file |- _ => destruct v end;
    simpl in *; simplify_eq; auto.
Qed.

Definition all_typed (s : processes) : Prop :=
  file_typed (sy_world s) ∧ ∀ i p, sy_running s !! i = Some p → saves_typed process_app p.

Lemma all_typed_step s s' : all_typed s → process_step s s' → all_typed s'.
Proof.
  intros [Hw Hps] Hstep. destruct Hstep as [w ps rs i X e k x w' Hp Ha|w ps rs i r Hp|w ps rs i Hp|w ps rs i Hr]; simpl in *.
  - destruct (Hps i _ Hp) as [He Hk]. unfold process_acts in Ha.
    assert (file_typed w' ∧ saves_typed process_app (k x)) as [Hw' Hx].
    { destruct (process_app X e) as [e'|].
      - destruct (acts_typed w e' x w' Hw He Ha). split; [done|by apply Hk].
      - injection Ha as <-. split; [done|by apply Hk]. }
    split; [done|]. intros j p. simpl. intros [[<- <-]|[_ Hj]]%lookup_insert_Some; [done|by eapply Hps].
  - split; [done|]. intros j p. simpl. intros [_ Hj]%lookup_delete_Some. by eapply Hps.
  - split; [done|]. intros j p. simpl. intros [_ Hj]%lookup_delete_Some. by eapply Hps.
  - by split.
Qed.


(** The command that makes the first configuration, and a request that sets the
    level to the empty one, which a daemon accepts and the command line does not. *)
Definition no_files : files := Files None None None [] 0 false.

Definition two_processes : gmap nat process :=
  {[ 0%nat := CommandLine languageEnglish ["init"]; 1%nat := DaemonRequest (RConfigure "log-level" "") ]}.

(** The answers of a system that works, to the calls of these two. *)
Definition process_reply (w : files) (X : Type) (e : process_op X) : option X :=
  match process_app X e with
  | Some e => Some (reply None "master" w e)
  | None =>
      match e in process_op X return option X with
      | ByCommand e => match e in cli_op X return option X with Environment => Some (λ _, false) | _ => None end
      | ByDaemon e =>
          match e in daemon_op X return option X with
          | SettingsCall _ _ _ | LevelCall _ | LogCall _ _ => Some tt
          | _ => None
          end
      end
  end.

Fixpoint process_run {R} (w : files) (p : prog process_op R) : option (files * R) :=
  match p with
  | Ret r => Some (w, r)
  | Vis e k => x ← process_reply w _ e; w' ← process_acts 0 _ w e x; process_run w' (k x)
  end.

Lemma process_run_halts {R} i w (p : prog process_op R) w' r : process_run w p = Some (w', r) → world_halts (process_acts i) w p w' r.
Proof.
  revert w. induction p as [r'|X e k IH]; intros w; [by intros [= <- <-]|]. cbn [process_run].
  intros (x & _ & (w1 & Ha & Hr)%bind_Some)%bind_Some. exists x, w1. split; [done|by apply IH].
Qed.

Definition first_files : files := default no_files (fst <$> process_run no_files (program (CommandLine languageEnglish ["init"]))).
Definition second_files : files := default no_files (fst <$> process_run first_files (program (DaemonRequest (RConfigure "log-level" "")))).

Lemma two_processes_end : ∃ s, rtc process_step (begun no_files two_processes) s ∧ sy_world s = second_files.
Proof.
  pose (ps := program <$> two_processes).
  exists (System second_files (delete 1%nat (delete 0%nat ps)) (<[1%nat := tt]> (<[0%nat := tt]> ∅))). split; [|done].
  transitivity (System first_files (delete 0%nat ps) (<[0%nat := tt]> ∅)).
  - apply (halts_steps _ _ 0%nat no_files (program (CommandLine languageEnglish ["init"]))); [by unfold ps; rewrite lookup_fmap|].
    apply process_run_halts. by vm_compute.
  - apply (halts_steps _ _ 1%nat first_files (program (DaemonRequest (RConfigure "log-level" ""))));
      [unfold ps; by rewrite lookup_delete_ne, lookup_fmap by done|].
    apply process_run_halts. by vm_compute.
Qed.

